(* ===== verification/_CoqProject ===== *)
-Q . S2P
Prelude.v
Words.v
OrdMap.v
Types.v
BinaryBuffer.v
ClientCommands.v
ServerCommands.v
ClientFrames.v
ServerFrames.v
Fluent.v
Messages.v
QpidCodec.v
Logging.v
IoContext.v
Connection.v
ConnectionStreams.v
ConnectionSetup.v
Client.v
ClientParameters.v
ClientCreate.v
ClientSending.v
ClientReceiving.v
ClientLifecycle.v
ClientTeardown.v
Scheduler.v
SchedulerShutdown.v
Tasks.v
TaskHandles.v
TaskThrows.v
TaskFamily.v
Environment.v
EnvironmentSystem.v
ClientStack.v
Semaphore.v
Accumulator.v
Producer.v
ProducerSystem.v
ProducerRecovery.v
ProducerPublished.v
ProducerTasks.v
ProducerAlone.v
ProducerSpec.v
Consumer.v
ConsumerSystem.v
ConsumerSpec.v
ConsumerThreads.v
ConsumerRecovery.v
ConsumerCursor.v
Builders.v
BuildersCorrect.v
UnitTests.v
EnvironmentStack.v
Listeners.v
ConsumerStack.v
ProducerStranded.v
