(* ===== verification/Prelude.v ===== *)
(** * Hareflow: a verification library for the RabbitMQ stream client

    Hareflow is a C++ client of RabbitMQ streams.  A user builds an environment,
    and from it producers and consumers.  A producer batches messages and
    tracks their confirmations, a consumer tracks offsets and persists a cursor;
    both recover when their client is lost.  A client speaks the protocol:
    requests matched to responses by correlation id, notifications handed to
    listeners.  A connection moves frames over a socket, and commands are
    serialized into and out of binary buffers.

    ** The parts and the files that model them

    - [Prelude]: outcomes (a value or an exception), the state-and-exception
      monad [ST] in which member functions are written, [preserves] (a
      computation moves the state along a preorder), sizes, tactics.
    - [Words], [OrdMap], [Types]: machine words and big-endian bytes; [std::map]
      as a sorted association list; [types.h], [exceptions.h].
    - [BinaryBuffer]: [binary_buffer.{h,hpp,cpp}], every member function.  A
      [memcpy] outside the vector is the exception [UndefinedBehaviour], so that
      safety is the absence of it.
    - [ClientCommands], [ServerCommands]: [commands.{h,cpp}], one record, one
      size and one writer or reader per command class; the base classes are type
      classes.  [ClientFrames] and [ServerFrames] give reference encodings, and
      prove writers and readers against them.
    - [Fluent]: chains of setters and their overloads for temporaries, shared by
      the builders.
    - [Messages]: [message_builder.cpp], [codec.h], [RawCodec].  [QpidCodec]:
      [qpid_proton_codec.{h,cpp}], over a class of what Qpid Proton does.
    - [Logging], [IoContext]: [logging.{h,cpp}], [io_context_holder.{h,cpp}].
    - [Connection], [ConnectionStreams]: [connection.{h,cpp}], each handler of the
      strand as one operation, and their interleavings.  [ConnectionSetup] is the
      constructor, TLS and [connect], over the class [Network] of the calls that
      asio makes.
    - [Client]: [client_impl.{h,hpp,cpp}], all operations, handlers, start and
      stop.  [ClientSending] and [ClientReceiving] prove what goes out and what
      comes in; [ClientLifecycle] interleaves the threads that share the status.
      [ClientTeardown] runs the destructor against the frame thread, which may be
      in a handler or a listener, and the strand.  [ClientParameters]: [client_parameters.{h,cpp}]; [ClientCreate] is
      the constructor of a client, which moves members out of them.
    - [Scheduler], [Tasks]: [background_scheduler.{h,cpp}] and
      [reschedulable_task.{h,cpp}], the pool of threads and the tasks that
      producers and consumers reschedule and destroy.  [SchedulerShutdown] is the
      destructor of the pool; [TaskHandles] has the constructors, moves and
      destructors of [ReschedulableTask] on a heap of states; [TaskThrows] adds
      functions that throw; [TaskFamily] is about the tasks of one owner
      together.
    - [Semaphore], [Accumulator]: [semaphore.h], [accumulator.{h,cpp}]; a wait is
      an operation that returns [None] while it is not enabled.
    - [Producer]: [producer_impl.{h,cpp}], one definition per critical section.
      [ProducerSystem] interleaves them, [ProducerRecovery] proves recovery,
      timeouts and the error paths, [ProducerPublished] what reaches the
      clients, [ProducerTasks] runs its tasks on [Tasks], and [ProducerAlone] puts
      the critical sections together to whole functions again.  [ProducerSpec] has
      the abstract specification of the producer, a bounded bag of messages, and
      the simulation that shows that the system refines it.
    - [Consumer]: [consumer_impl.{h,cpp}], likewise.  [ConsumerSystem] interleaves
      its sections with one frame thread, [ConsumerThreads] with those of any number
      of clients.  [ConsumerSpec] has its specification, a reader of a stream;
      [ConsumerThreads] shows the refinement, as long as subscriptions do not
      overlap.  [ConsumerRecovery] adds the tasks and the clients that can be
      lost, [ConsumerCursor] is about the timer of the cursor.
    - [Environment]: [environment_impl.{h,cpp}], over the interface
      [EnvironmentClients] of the clients it creates.  [EnvironmentSystem]
      interleaves locator operations, losses, notifications and the
      reconnection task.
    - [Builders], [BuildersCorrect]: [environment_builder], [producer_builder],
      [consumer_builder], [stream_creator].
    - [UnitTests]: every test of [tests/producer.cpp] and [tests/consumer.cpp] as a
      program over a scripted mock.
    - [ClientStack]: [EnvironmentClients] implemented by [Client].
      [EnvironmentStack]: [ClientWorld] and [ConsumerWorld], against which
      producer and consumer are proved, implemented by an environment over these
      clients, and runs against a broker that answers every request.
      [ConsumerStack] and [ProducerStranded] are runs in which clients are lost.
      [Listeners] calls the listeners that producers and consumers bind, for what
      the client makes of a frame.

    ** How the code is modelled

    A member function is a computation over a record of the object's members; a
    thrown exception keeps the state that was reached.  Integers are [Z] with
    the wrap-around of their width written out where it can happen.  What other
    threads may do between two critical sections is modelled by step relations
    ([pstep], [tkstep], [lstep], [cstep], [rstep], [estep], [kstep], [tstep],
    [throwing_step], [heap_step], [sched_step], [shutdown_step],
    [teardown_step], [iostep]) that
    run one critical section at a time in any order, and theorems are about all
    reachable states.  A pointer that is reset may run the destructor of a
    client: the shutdown listeners of the producer, the consumer and the
    environment do so with their mutex, and an argument tells whether that
    destructor returns ([NeverReturns] otherwise).  It may not, by
    [ClientTeardown], when the notification is of a heartbeat time-out or of
    another client than the one that is dropped ([drop_may_block]); the systems
    [tkstep], [rstep] and [estep] then keep the mutex locked for ever.  Fields that the C++ object does not have record what the
    outside observes: frames written, listeners called, messages accepted,
    settled or stored.

    Code outside the sources is a parameter: the codec behind [Codec], the
    socket, TLS and timers (completions are arguments of the handlers, and
    [Network] has the calls of [connect]), the time,
    what happens while a thread waits ([await], [await_tune], [connect],
    [await_locator]), the random generator, Qpid Proton and the formatting
    library.  What is assumed of them is named: [CodecDecodes], [ProtonLaws],
    the laws of [ClientWorld], [LosableClients] and [LosableWorld], which
    [ClientStack], [EnvironmentStack] and [ConsumerStack] discharge, and the
    broker's promise [may_start_at] on the offsets of a subscription.

    ** What the theorems show

    - Producer: it refines a bounded bag, which a message leaves by one call of its
      handler with a true status; no message is lost or settled twice, permits are
      conserved, a stop settles everything; a reconnection
      resends exactly the unconfirmed messages in order; what is published is what
      was accepted, in batches; batches, time-outs and the recovery are not
      forgotten, unless a shutdown listener holds the mutex for ever.
    - Consumer: as long as no subscription begins while the frame thread of an
      earlier client is still handing over messages, it refines a reader of the
      stream: offsets reach the handler in order, once, and, when the broker has
      what is asked for and no chunk is cut short, without gaps across
      reconnections.  In every run this holds of each subscription by itself, and
      stored cursors are offsets that were seen or that the user gave.  The cursor
      is persisted every [persist_frequency] messages; a consumer without a client
      has its recovery armed or under way, with the same exception.
    - Environment: a locator operation returns within three turns, and the recovery
      of the locator is not forgotten, with the same exception; producers get a
      client of the leader and consumers one of a replica, or exactly the error
      of the lookup.
    - Builders: a chain of setters throws exactly on bad arguments; what is built
      can be used at once, and a failed build leaves nothing running.
    - Wire format: serialization and deserialization are exact inverses of the
      reference encodings, sizes are right, and parsing arbitrary bytes never
      leaves the buffer.
    - Client: any frame is handled without escape but for one case, notifications
      and responses arrive exactly as sent, the shutdown listener is called once,
      frames on the wire are their length and their bytes; the destructor returns
      off the strand and without the mutex of the listeners, and a created client
      has what its parameters say.  Codecs are arbitrary: a message that does not
      decode cuts the rest of its chunk off.
    - Connection: the byte stream is cut into frames without loss; writes leave in
      order and each promise is kept once; [connect] makes its calls in order, and
      a TLS handshake verifies the host when it is asked to.
    - Scheduler and tasks: no task is lost, none runs after it was destroyed, a
      scheduled task is run; the state of a task has one owner and is not used
      after it is freed; [destroy] and the destructor of the pool return.
    - From the wire to the user: the bytes of a confirmation settle the messages
      that they name, the bytes of a delivery reach the message handler.
    - The unit tests of the repository pass on the model.
    - Codecs and context: what is encoded is decoded again; one input-output
      context is built however many threads race for it.
    - Accumulator and semaphore: a bounded FIFO, conserved permits, progress.
    - Some theorems document where the code does not do what it means to: explicit
      publishing ids that collide or go backwards, the length prefix left out of
      the split of a publication, a second tune frame, a connection lost while
      starting, a frame too large for a buffer, a locator or a producer's client
      lost while it is being installed, a cursor timer that fires while the
      consumer is disconnected, a client that is destroyed on the strand of its
      connection or with the mutex that its listeners take, subscriptions that
      overlap, a task whose function throws.

    ** Bounds and fuel

    Recursion is structural throughout; the definitions with fuel are
    [ClientLifecycle.run_alone], [EnvironmentSystem.run_call_alone],
    [IoContext.io_run], [ProducerAlone.run_send] and [ProducerAlone.run_stop],
    which run one thread by itself for the number of steps that it takes at most
    (six for a locator operation and for [get], four for [send], eight for a
    stop; [send_alone] and [producer_stop_alone] show that these are enough), and
    [UnitTests.wait_until], whose tests need fewer than its 100 runs of tasks.
    The measures [destroy_measure], [shutdown_measure] and [teardown_measure]
    bound the steps of destructors.  Reads of
    arrays recurse on the length that was read.  Buffers hold at most
    [UINT32_MAX] bytes, as in the code; theorems on offsets assume they stay
    below [UINT64_MAX].

    ** Not modelled

    What asio, OpenSSL and the operating system do: the socket, the TLS engine,
    the timers and the threads.  The stress tests of
    [tests/reschedulable_task.cpp], whose subject [TaskHandles] and [Tasks] prove
    of every interleaving.  The broker, which is only what arrives, and the
    programs of [integration], which check one.
    Memory is sequentially consistent: [DefaultIoContext] publishes its instance
    with an atomic flag.  [Producer] and [Consumer] record the calls of their
    tasks; [ProducerTasks] and [ConsumerRecovery] hand them to [Tasks], elsewhere
    a task runs at any later time. *)

From Stdlib Require Export ZArith Lia.
From stdpp Require Export base tactics strings gmap sets option sorting list.

#[export] Set Default Goal Selector "!".
Open Scope Z_scope.

(** ** Outcomes: the result of a C++ call, a value or a thrown exception *)

Inductive outcome (E A : Type) : Type :=
| Val (a : A)
| Throw (e : E).
Arguments Val {E A} a.
Arguments Throw {E A} e.

Definition is_val {E A} (o : outcome E A) : bool :=
  match o with Val _ => true | Throw _ => false end.

#[export] Instance outcome_eq_dec {E A} `{EqDecision E, EqDecision A} :
  EqDecision (outcome E A).
Proof. solve_decision. Defined.

#[export] Instance outcome_ret {E} : MRet (outcome E) := fun A a => Val a.
#[export] Instance outcome_bind {E} : MBind (outcome E) := fun A B f o =>
  match o with Val a => f a | Throw e => Throw e end.

(** ** The state-and-exception monad

    A C++ member function that mutates [*this] and may throw.  The state
    reached when the exception is thrown is kept: a throw does not roll the
    object back. *)

Definition ST (S E A : Type) : Type := S -> outcome E A * S.

#[export] Instance ST_ret {S E} : MRet (ST S E) := fun A a s => (Val a, s).
#[export] Instance ST_bind {S E} : MBind (ST S E) := fun A B f m s =>
  match m s with
  | (Val a, s') => f a s'
  | (Throw e, s') => (Throw e, s')
  end.

Definition st_throw {S E A} (e : E) : ST S E A := fun s => (Throw e, s).
Definition st_get {S E} : ST S E S := fun s => (Val s, s).
Definition st_put {S E} (s : S) : ST S E unit := fun _ => (Val tt, s).
Definition st_modify {S E} (f : S -> S) : ST S E unit := fun s => (Val tt, f s).
Definition st_gets {S E A} (f : S -> A) : ST S E A := fun s => (Val (f s), s).

(** [try m catch (e) { h e }]. *)
Definition st_catch {S E A} (m : ST S E A) (h : E -> ST S E A) : ST S E A := fun s =>
  match m s with
  | (Val a, s') => (Val a, s')
  | (Throw e, s') => h e s'
  end.

(** A loop that runs its body once per element, left to right. *)
Fixpoint st_iter {S E X} (f : X -> ST S E unit) (xs : list X) : ST S E unit :=
  match xs with
  | [] => mret tt
  | x :: xs => f x ;; st_iter f xs
  end.

(** A counted loop [for (i = 0; i < n; ++i)] that collects what each turn
    produces. *)
Fixpoint st_repeat {S E X} (n : nat) (m : ST S E X) : ST S E (list X) :=
  match n with
  | O => mret []
  | Datatypes.S n => x ← m; xs ← st_repeat n m; mret (x :: xs)
  end.

Section monad.
Context {S E : Type}.
Implicit Types (s : S) (e : E).

Lemma ST_bind_Val {A B} (m : ST S E A) (f : A -> ST S E B) s a s' :
  m s = (Val a, s') -> (m ≫= f) s = f a s'.
Proof. intros H. unfold mbind, ST_bind. now rewrite H. Qed.

Lemma ST_bind_Throw {A B} (m : ST S E A) (f : A -> ST S E B) s e s' :
  m s = (Throw e, s') -> (m ≫= f) s = (Throw e, s').
Proof. intros H. unfold mbind, ST_bind. now rewrite H. Qed.

Lemma ST_bind_inv {A B} (m : ST S E A) (f : A -> ST S E B) s o s' :
  (m ≫= f) s = (o, s') ->
  (exists a s1, m s = (Val a, s1) /\ f a s1 = (o, s')) \/
  (exists e, m s = (Throw e, s') /\ o = Throw e).
Proof.
  unfold mbind, ST_bind. destruct (m s) as [[a|e] s1]; intros H; [left | right].
  - eauto.
  - injection H as <- <-. eauto.
Qed.

Lemma ST_bind_assoc {A B C} (m : ST S E A) (f : A -> ST S E B) (g : B -> ST S E C) s :
  ((m ≫= f) ≫= g) s = (m ≫= (fun a => f a ≫= g)) s.
Proof. unfold mbind, ST_bind. now destruct (m s) as [[a|e] s1]. Qed.

Lemma st_iter_app {X} (f : X -> ST S E unit) xs ys s :
  st_iter f (xs ++ ys) s = (st_iter f xs ;; st_iter f ys) s.
Proof.
  revert s; induction xs as [|x xs IH]; intros s; [reflexivity|]. simpl.
  rewrite ST_bind_assoc. unfold mbind, ST_bind in *. destruct (f x s) as [[[]|e] s1]; auto.
Qed.

Lemma st_iter_map {X Y} (g : X -> Y) (f : Y -> ST S E unit) xs s :
  st_iter f (map g xs) s = st_iter (fun x => f (g x)) xs s.
Proof.
  revert s. induction xs as [|x xs IH]; intros s; [done|]. simpl. unfold mbind, ST_bind.
  destruct (f (g x) s) as [[[]|e] s']; [apply IH | done].
Qed.

End monad.

(** ** Computations that move the state along a relation

    [preserves R m]: whatever [m] returns or throws, it takes the state to one
    that is related by [R].  With [R] a preorder this composes. *)

Definition preserves {S E A} (R : relation S) (m : ST S E A) : Prop := forall s, R s (m s).2.

Section preserves.
Context {S E : Type} (R : relation S) `{!PreOrder R}.

Lemma preserves_ret {A} (a : A) : preserves R (mret a : ST S E A).
Proof. intros s. reflexivity. Qed.

Lemma preserves_throw {A} (e : E) : preserves R (st_throw e : ST S E A).
Proof. intros s. reflexivity. Qed.

Lemma preserves_bind {A B} (m : ST S E A) (f : A -> ST S E B) :
  preserves R m -> (forall a, preserves R (f a)) -> preserves R (m ≫= f).
Proof.
  intros Hm Hf s. specialize (Hm s). unfold mbind, ST_bind. destruct (m s) as [[a|e] s1]; [|done].
  etransitivity; [exact Hm | apply Hf].
Qed.

(** The continuation of a [get] starts in the state it is given. *)
Lemma preserves_get {A} (f : S -> ST S E A) : (forall s, R s (f s s).2) -> preserves R (s ← st_get; f s).
Proof. intros Hf s. apply Hf. Qed.

Lemma preserves_put {A} (k : unit -> ST S E A) s s1 : R s s1 -> preserves R (k tt) -> R s ((st_put s1 ≫= k) s).2.
Proof. intros Hs Hk. transitivity s1; [done | apply Hk]. Qed.

Lemma preserves_modify (f : S -> S) : (forall s, R s (f s)) -> preserves R (st_modify f : ST S E unit).
Proof. intros Hf s. apply Hf. Qed.

Lemma preserves_catch {A} (m : ST S E A) h :
  preserves R m -> (forall e, preserves R (h e)) -> preserves R (st_catch m h).
Proof.
  intros Hm Hh s. specialize (Hm s). unfold st_catch. destruct (m s) as [[a|e] s1]; [done|].
  etransitivity; [exact Hm | apply Hh].
Qed.

Lemma preserves_iter {X} (f : X -> ST S E unit) xs : (forall x, preserves R (f x)) -> preserves R (st_iter f xs).
Proof. intros Hf. induction xs; [apply preserves_ret|]. now apply preserves_bind. Qed.

Lemma preserves_if {A} (b : bool) (m1 m2 : ST S E A) :
  preserves R m1 -> preserves R m2 -> preserves R (if b then m1 else m2).
Proof. now destruct b. Qed.

End preserves.

(** ** Lists *)

(** What an update of one element changes of a [flat_map]. *)
Lemma flat_map_insert {A B} (f : A -> list B) (l : list A) i x y :
  l !! i = Some x -> flat_map f (<[i := y]> l) ++ f x ≡ₚ flat_map f l ++ f y.
Proof.
  intros E. rewrite insert_take_drop by (eapply lookup_lt_Some, E).
  rewrite <- (take_drop_middle _ _ _ E) at 3. rewrite !flat_map_app. simpl. solve_Permutation.
Qed.

(** ** Tactics *)

(** Case analysis on the scrutinee of the [match] or [if] in the goal. *)
Ltac case_step :=
  match goal with
  | |- context [match ?x with _ => _ end] => destruct x eqn:?
  end.

(** Turn boolean comparisons in the context into propositions. *)
Ltac bool_to_prop :=
  repeat match goal with
  | H : (_ && _) = true |- _ => apply andb_prop in H as [? ?]
  | H : (_ || _) = false |- _ => apply orb_false_elim in H as [? ?]
  | H : negb _ = true |- _ => apply negb_true_iff in H
  | H : negb _ = false |- _ => apply negb_false_iff in H
  | H : (_ <? _) = true |- _ => apply Z.ltb_lt in H
  | H : (_ <? _) = false |- _ => apply Z.ltb_ge in H
  | H : (_ <=? _) = true |- _ => apply Z.leb_le in H
  | H : (_ <=? _) = false |- _ => apply Z.leb_gt in H
  | H : (_ =? _) = true |- _ => apply Z.eqb_eq in H
  | H : (_ =? _) = false |- _ => apply Z.eqb_neq in H
  end.

(** ** Sizes: [container.size()] as an integer *)

Definition lenZ {A} (l : list A) : Z := Z.of_nat (length l).
Definition takeZ {A} (n : Z) (l : list A) : list A := take (Z.to_nat n) l.
Definition dropZ {A} (n : Z) (l : list A) : list A := drop (Z.to_nat n) l.

Section sizes.
Context {A : Type}.
Implicit Types l k : list A.

Lemma lenZ_nonneg l : 0 <= lenZ l.
Proof. unfold lenZ. lia. Qed.

Lemma lenZ_nil : lenZ (@nil A) = 0.
Proof. reflexivity. Qed.

Lemma lenZ_cons x l : lenZ (x :: l) = 1 + lenZ l.
Proof. unfold lenZ. simpl length. lia. Qed.

Lemma lenZ_app l k : lenZ (l ++ k) = lenZ l + lenZ k.
Proof. unfold lenZ. rewrite length_app. lia. Qed.

Lemma lenZ_0_nil l : lenZ l = 0 -> l = [].
Proof. destruct l; [reflexivity|]. rewrite lenZ_cons. pose proof (lenZ_nonneg l). lia. Qed.

Lemma takeZ_app l k : takeZ (lenZ l) (l ++ k) = l.
Proof. unfold takeZ, lenZ. rewrite Nat2Z.id. apply take_app_length. Qed.

Lemma dropZ_app l k : dropZ (lenZ l) (l ++ k) = k.
Proof. unfold dropZ, lenZ. rewrite Nat2Z.id. apply drop_app_length. Qed.

Lemma lenZ_takeZ n l : 0 <= n -> lenZ (takeZ n l) = Z.min n (lenZ l).
Proof. intros. unfold lenZ, takeZ. rewrite length_take. lia. Qed.

Lemma lenZ_dropZ n l : 0 <= n -> lenZ (dropZ n l) = Z.max 0 (lenZ l - n).
Proof. intros. unfold lenZ, dropZ. rewrite length_drop. lia. Qed.

Lemma dropZ_add n m l : 0 <= n -> 0 <= m -> dropZ m (dropZ n l) = dropZ (n + m) l.
Proof. intros. unfold dropZ. rewrite drop_drop. f_equal. lia. Qed.

Lemma dropZ_0 l : dropZ 0 l = l.
Proof. reflexivity. Qed.

End sizes.

(** Arithmetic on sizes. *)
Ltac lenZ_lia :=
  unfold lenZ in *;
  repeat (rewrite ?length_app, ?length_map, ?length_fmap, ?length_drop, ?length_take in *;
          simpl length in *);
  lia.

Create HintDb hare discriminated.
Create Rewrite HintDb len.
#[export] Hint Rewrite @lenZ_nil @lenZ_app : len.

Create HintDb preserves.
#[export] Hint Extern 1 (preserves ?R (mret _)) => apply (preserves_ret R) : preserves.
#[export] Hint Extern 1 (preserves ?R (st_throw _)) => apply (preserves_throw R) : preserves.
#[export] Hint Extern 1 (preserves ?R (_ ≫= _)) => apply (preserves_bind R); [|intros ?] : preserves.
#[export] Hint Extern 1 (preserves ?R (if _ then _ else _)) => apply (preserves_if R) : preserves.
#[export] Hint Extern 1 (preserves _ (match ?x with Some _ => _ | None => _ end)) => destruct x : preserves.
#[export] Hint Extern 1 (preserves _ (match ?x with Val _ => _ | Throw _ => _ end)) => destruct x : preserves.
#[export] Hint Extern 1 (preserves ?R (st_iter _ _)) => apply (preserves_iter R); intros ? : preserves.
