(* ===== verification/Words.v ===== *)
(** * Machine integers, bytes and their big-endian representation

    The fixed-width integers of the C++ code are integers with their
    wrap-around written out; a byte of a buffer is [Byte.byte].  The
    conversions of [boost::endian] followed by [memcpy] are the big-endian
    encoding [be_encode] and decoding [be_decode] of this file. *)

From S2P Require Import Prelude.
From Stdlib Require Import Strings.Byte.
From Corelib Require Export Init.Byte.

Definition UINT8_MAX : Z := 255.
Definition INT16_MAX : Z := 32767.
Definition UINT16_MAX : Z := 65535.
Definition INT32_MAX : Z := 2147483647.
Definition UINT32_MAX : Z := 4294967295.
Definition UINT64_MAX : Z := 18446744073709551615.

(** Conversion to an unsigned type of [w] bits. *)
Definition wrap (w : Z) (z : Z) : Z := z mod 2 ^ w.
Abbreviation wrap8 := (wrap 8).
Abbreviation wrap16 := (wrap 16).
Abbreviation wrap32 := (wrap 32).
Abbreviation wrap64 := (wrap 64).

(** The two's complement reading of [w] bits. *)
Definition to_signed (w : Z) (z : Z) : Z :=
  let r := wrap w z in if r <? 2 ^ (w - 1) then r else r - 2 ^ w.

Definition is_uint (w : Z) (z : Z) : Prop := 0 <= z < 2 ^ w.
Definition is_sint (w : Z) (z : Z) : Prop := - 2 ^ (w - 1) <= z < 2 ^ (w - 1).
Abbreviation is_u8 := (is_uint 8).
Abbreviation is_u16 := (is_uint 16).
Abbreviation is_u32 := (is_uint 32).
Abbreviation is_u64 := (is_uint 64).

Lemma wrap_small w z : is_uint w z -> wrap w z = z.
Proof. intros H. now apply Z.mod_small. Qed.

Lemma wrap_range w z : 0 <= w -> is_uint w (wrap w z).
Proof. intros H. apply Z.mod_pos_bound. lia. Qed.

Lemma wrap_add_l w z k : wrap w (wrap w z + k) = wrap w (z + k).
Proof. unfold wrap. now rewrite Zplus_mod_idemp_l. Qed.

Lemma to_signed_wrap w z : to_signed w (wrap w z) = to_signed w z.
Proof. unfold to_signed, wrap. now rewrite Zmod_mod. Qed.

Lemma to_signed_id w z : 0 < w -> is_sint w z -> to_signed w z = z.
Proof.
  intros Hw [Hl Hu]. unfold to_signed, wrap.
  assert (2 ^ w = 2 * 2 ^ (w - 1)) as E.
  { replace w with (1 + (w - 1)) at 1 by lia. rewrite Z.pow_add_r by lia. lia. }
  destruct (Z.le_gt_cases 0 z).
  - rewrite Z.mod_small by lia. destruct (Z.ltb_spec z (2 ^ (w - 1))); lia.
  - replace (z mod 2 ^ w) with (z + 2 ^ w).
    + destruct (Z.ltb_spec (z + 2 ^ w) (2 ^ (w - 1))); lia.
    + rewrite <- (Z.mod_small (z + 2 ^ w) (2 ^ w)) by lia.
      replace (z + 2 ^ w) with (z + 1 * 2 ^ w) by lia. apply Z_mod_plus_full.
Qed.

(** ** Bytes *)

Definition byte_to_Z (b : byte) : Z := Z.of_N (Byte.to_N b).
Definition byte_of_Z (z : Z) : byte :=
  match Byte.of_N (Z.to_N (z mod 256)) with Some b => b | None => x00 end.

#[export] Instance byte_eq_dec : EqDecision byte := Byte.byte_eq_dec.

Lemma byte_to_Z_range b : 0 <= byte_to_Z b < 256.
Proof. unfold byte_to_Z. pose proof (Byte.to_N_bounded b). lia. Qed.

Lemma byte_to_of_Z z : byte_to_Z (byte_of_Z z) = z mod 256.
Proof.
  unfold byte_to_Z, byte_of_Z. pose proof (Z.mod_pos_bound z 256 ltac:(lia)).
  destruct (Byte.of_N _) as [b|] eqn:E.
  - apply Byte.to_of_N in E. rewrite E. lia.
  - apply Byte.of_N_None_iff in E. lia.
Qed.

Lemma byte_of_to_Z b : byte_of_Z (byte_to_Z b) = b.
Proof.
  unfold byte_to_Z, byte_of_Z. pose proof (Byte.to_N_bounded b).
  rewrite Z.mod_small by lia. rewrite N2Z.id. now rewrite Byte.of_to_N.
Qed.

(** ** Big-endian words of [n] bytes *)

Fixpoint be_encode (n : nat) (z : Z) : list byte :=
  match n with
  | O => []
  | S n => byte_of_Z (z / 256 ^ Z.of_nat n) :: be_encode n z
  end.

Definition be_decode (bs : list byte) : Z :=
  fold_left (fun acc b => acc * 256 + byte_to_Z b) bs 0.

Lemma length_be_encode n z : length (be_encode n z) = n.
Proof. induction n; simpl; congruence. Qed.

Lemma lenZ_be_encode n z : lenZ (be_encode n z) = Z.of_nat n.
Proof. unfold lenZ. now rewrite length_be_encode. Qed.

Lemma be_fold_acc bs acc :
  fold_left (fun acc b => acc * 256 + byte_to_Z b) bs acc =
  acc * 256 ^ lenZ bs + be_decode bs.
Proof.
  unfold be_decode. revert acc. induction bs as [|b bs IH]; intros acc; simpl.
  - rewrite lenZ_nil. lia.
  - rewrite IH, (IH (0 * 256 + byte_to_Z b)). rewrite lenZ_cons.
    pose proof (lenZ_nonneg bs). rewrite Z.pow_add_r by lia. lia.
Qed.

Lemma be_decode_cons b bs : be_decode (b :: bs) = byte_to_Z b * 256 ^ lenZ bs + be_decode bs.
Proof. unfold be_decode at 1. simpl. rewrite be_fold_acc. lia. Qed.

Lemma be_decode_encode n z : be_decode (be_encode n z) = z mod 256 ^ Z.of_nat n.
Proof.
  induction n as [|n IH].
  - simpl. now rewrite Z.mod_1_r.
  - cbn [be_encode]. rewrite be_decode_cons, IH, lenZ_be_encode, byte_to_of_Z.
    assert (0 < 256 ^ Z.of_nat n) by (apply Z.pow_pos_nonneg; lia).
    replace (256 ^ Z.of_nat (S n)) with (256 ^ Z.of_nat n * 256).
    + rewrite Z.rem_mul_r by lia. lia.
    + rewrite Nat2Z.inj_succ, Z.pow_succ_r by lia. lia.
Qed.

Lemma be_decode_range bs : 0 <= be_decode bs < 256 ^ lenZ bs.
Proof.
  induction bs as [|b bs IH]; [change (0 <= 0 < 1); lia|].
  rewrite be_decode_cons, lenZ_cons. pose proof (byte_to_Z_range b).
  rewrite Z.pow_add_r by (pose proof (lenZ_nonneg bs); lia). nia.
Qed.

Lemma be_encode_wrap n z : be_encode n (z mod 256 ^ Z.of_nat n) = be_encode n z.
Proof.
  assert (forall m, (m <= n)%nat -> be_encode m (z mod 256 ^ Z.of_nat n) = be_encode m z) as H; [|auto].
  induction m as [|m IH]; intros Hm; [reflexivity|]. cbn [be_encode]. f_equal; [|apply IH; lia].
  unfold byte_of_Z.
  replace (Z.of_nat n) with (Z.of_nat m + (1 + (Z.of_nat n - Z.of_nat m - 1))) by lia.
  rewrite !Z.pow_add_r by lia. change (256 ^ 1) with 256.
  rewrite Z.rem_mul_r by lia.
  rewrite (Z.mul_comm (256 ^ Z.of_nat m)), Z.add_comm, Z.div_add_l by lia.
  rewrite (Z.div_small (z mod _)) by (apply Z.mod_pos_bound; lia). rewrite Z.add_0_r.
  rewrite Z.rem_mul_r by lia. rewrite Z.mul_comm, Z_mod_plus_full. now rewrite Zmod_mod.
Qed.

Lemma be_decode_inj bs1 bs2 :
  length bs1 = length bs2 -> be_decode bs1 = be_decode bs2 -> bs1 = bs2.
Proof.
  revert bs2. induction bs1 as [|b1 bs1 IH]; intros [|b2 bs2] Hl; try discriminate; [auto|].
  injection Hl as Hl. rewrite !be_decode_cons.
  pose proof (be_decode_range bs1). pose proof (be_decode_range bs2).
  assert (lenZ bs1 = lenZ bs2) as Hl' by (unfold lenZ; lia). rewrite Hl' in *.
  intros E. assert (byte_to_Z b1 = byte_to_Z b2) as Eb by nia.
  apply (f_equal byte_of_Z) in Eb. rewrite !byte_of_to_Z in Eb. f_equal; [done|].
  apply IH; [done|]. rewrite Eb in E. lia.
Qed.

Lemma be_encode_decode bs n : length bs = n -> be_encode n (be_decode bs) = bs.
Proof.
  intros <-. apply be_decode_inj; [apply length_be_encode|].
  rewrite be_decode_encode, Z.mod_small; [done|]. apply be_decode_range.
Qed.

(** Strings are the byte sequences [std::string] holds. *)
Definition str_bytes (s : string) : list byte := String.list_byte_of_string s.
Definition bytes_str (l : list byte) : string := String.string_of_list_byte l.
Definition str_size (s : string) : Z := Z.of_nat (String.length s).

Lemma bytes_str_bytes s : bytes_str (str_bytes s) = s.
Proof. apply String.string_of_list_byte_of_string. Qed.

Lemma str_bytes_str l : str_bytes (bytes_str l) = l.
Proof. apply String.list_byte_of_string_of_list_byte. Qed.

Lemma lenZ_str_bytes s : lenZ (str_bytes s) = str_size s.
Proof.
  unfold lenZ, str_size, str_bytes, String.list_byte_of_string. f_equal.
  rewrite length_map. induction s; simpl; congruence.
Qed.
#[export] Hint Rewrite lenZ_be_encode lenZ_str_bytes : len.
#[global] Opaque be_encode be_decode.
