(* ===== verification/OrdMap.v ===== *)
(** * [std::map]: finite maps kept in the order of their keys

    The code iterates over its [std::map]s (to write properties on the wire,
    to resend messages by publishing id), so their order is part of the
    behaviour.  A map is the list of its entries; [om_sorted] is the class
    invariant, that keys strictly increase.  [om_insert] is [insert],
    [emplace] and [try_emplace], which keep an entry that is already there;
    [om_assign] is [operator[]] followed by an assignment; [om_merge] is
    [merge]. *)

From S2P Require Import Prelude Words.
From stdpp Require Import sorting.
From Stdlib Require Import OrderedTypeEx.
Open Scope Z_scope.

(** Keys with the strict total order of [std::less]. *)
Class OrdKey (K : Type) `{EqDecision K} := {
  key_ltb : K -> K -> bool;
  key_ltb_irrefl k : key_ltb k k = false;
  key_ltb_trans k1 k2 k3 : key_ltb k1 k2 = true -> key_ltb k2 k3 = true -> key_ltb k1 k3 = true;
  key_ltb_total k1 k2 : key_ltb k1 k2 = true \/ k1 = k2 \/ key_ltb k2 k1 = true
}.

#[export, refine] Instance Z_ordkey : OrdKey Z := {| key_ltb := Z.ltb |}.
Proof.
  - intros; lia.
  - intros; lia.
  - intros; lia.
Defined.

Lemma string_ltb_lt s1 s2 : String.ltb s1 s2 = true <-> String_as_OT.lt s1 s2.
Proof.
  rewrite <- String_as_OT.cmp_lt. unfold String.ltb, String_as_OT.cmp.
  destruct (String.compare s1 s2); split; congruence.
Qed.

#[export, refine] Instance string_ordkey : OrdKey string := {| key_ltb := String.ltb |}.
Proof.
  - intros k. apply not_true_is_false. rewrite string_ltb_lt.
    intros H. now apply (String_as_OT.lt_not_eq _ _ H).
  - intros k1 k2 k3. rewrite !string_ltb_lt. apply String_as_OT.lt_trans.
  - intros k1 k2. rewrite !string_ltb_lt. destruct (String_as_OT.compare k1 k2); auto.
Defined.

Abbreviation omap K V := (list (K * V)).

Section omap_ops.
Context {K V : Type} `{OrdKey K}.
Implicit Types (m : omap K V) (k : K) (v : V).

Fixpoint om_find k m : option V :=
  match m with
  | [] => None
  | (k', v') :: m => if decide (k = k') then Some v' else om_find k m
  end.

Fixpoint om_insert k v m : omap K V :=
  match m with
  | [] => [(k, v)]
  | (k', v') :: m' =>
      if decide (k = k') then m
      else if key_ltb k k' then (k, v) :: m
      else (k', v') :: om_insert k v m'
  end.

Fixpoint om_assign k v m : omap K V :=
  match m with
  | [] => [(k, v)]
  | (k', v') :: m' =>
      if decide (k = k') then (k, v) :: m'
      else if key_ltb k k' then (k, v) :: m
      else (k', v') :: om_assign k v m'
  end.

Fixpoint om_erase k m : omap K V :=
  match m with
  | [] => []
  | (k', v') :: m' => if decide (k = k') then m' else (k', v') :: om_erase k m'
  end.

Definition om_insert_all (kvs : list (K * V)) m : omap K V :=
  fold_left (fun m kv => om_insert kv.1 kv.2 m) kvs m.

(** [dst.merge(src)]: the entries of [src] whose key [dst] lacks move over. *)
Definition om_merge (dst src : omap K V) : omap K V := om_insert_all src dst.

Definition om_sorted m : Prop := StronglySorted (fun a b => key_ltb a.1 b.1 = true) m.

End omap_ops.

Section omap_laws.
Context {K V : Type} `{OrdKey K}.
Implicit Types (m : omap K V) (k : K) (v : V).

Lemma key_ltb_ne k1 k2 : key_ltb k1 k2 = true -> k1 <> k2.
Proof. intros E ->. rewrite key_ltb_irrefl in E. discriminate. Qed.

Lemma om_find_below k m :
  Forall (fun a => key_ltb k a.1 = true) m -> om_find k m = None.
Proof.
  induction 1 as [|[k' v'] m Hk Hm IH]; [reflexivity|]. simpl.
  apply key_ltb_ne in Hk. now rewrite decide_False.
Qed.

Lemma om_find_insert_eq k v m :
  om_sorted m -> om_find k (om_insert k v m) = Some (default v (om_find k m)).
Proof.
  induction 1 as [|[k' v'] m Hs IH Hall]; simpl.
  - now rewrite decide_True.
  - destruct (decide (k = k')) as [->|Hne]; simpl; [now rewrite decide_True|].
    destruct (key_ltb k k') eqn:E; simpl.
    + rewrite decide_True by done. rewrite om_find_below; [done|].
      eapply Forall_impl; [exact Hall|]. simpl. intros [k2 v2]. now apply key_ltb_trans.
    + now rewrite decide_False.
Qed.

Lemma om_find_insert_ne k k' v m :
  k <> k' -> om_find k (om_insert k' v m) = om_find k m.
Proof.
  intros Hne. induction m as [|[k2 v2] m IH]; simpl; [now rewrite decide_False|].
  destruct (decide (k' = k2)) as [->|]; [done|].
  destruct (key_ltb k' k2); simpl; [now rewrite decide_False|]. now rewrite IH.
Qed.

Lemma om_find_assign_eq k v m : om_find k (om_assign k v m) = Some v.
Proof.
  induction m as [|[k2 v2] m IH]; simpl; [now rewrite decide_True|].
  destruct (decide (k = k2)) as [->|]; simpl; [now rewrite decide_True|].
  destruct (key_ltb k k2); simpl; [now rewrite decide_True|]. now rewrite decide_False.
Qed.

Lemma om_find_assign_ne k k' v m :
  k <> k' -> om_find k (om_assign k' v m) = om_find k m.
Proof.
  intros Hne. induction m as [|[k2 v2] m IH]; simpl; [now rewrite decide_False|].
  destruct (decide (k' = k2)) as [->|]; simpl; [now rewrite !decide_False by done|].
  destruct (key_ltb k' k2); simpl; [now rewrite decide_False|]. now rewrite IH.
Qed.

Lemma om_insert_Forall (P : K * V -> Prop) k v m :
  P (k, v) -> Forall P m -> Forall P (om_insert k v m).
Proof.
  intros Hk. induction 1 as [|[k2 v2] m Ha Hm IH]; simpl; [now constructor|].
  destruct (decide (k = k2)); [now constructor|].
  destruct (key_ltb k k2); repeat constructor; auto.
Qed.

Lemma om_assign_Forall (P : K * V -> Prop) k v m :
  P (k, v) -> Forall P m -> Forall P (om_assign k v m).
Proof.
  intros Hk. induction 1 as [|[k2 v2] m Ha Hm IH]; simpl; [now constructor|].
  destruct (decide (k = k2)); [now constructor|].
  destruct (key_ltb k k2); repeat constructor; auto.
Qed.

Lemma om_sorted_cons_lt k v k2 v2 m :
  key_ltb k k2 = true -> om_sorted ((k2, v2) :: m) -> om_sorted ((k, v) :: (k2, v2) :: m).
Proof.
  intros E Hs. constructor; [done|]. apply StronglySorted_inv in Hs as [_ Hall].
  constructor; [done|]. eapply Forall_impl; [exact Hall|]. simpl. intros [k3 v3]. now apply key_ltb_trans.
Qed.

Lemma om_insert_sorted k v m : om_sorted m -> om_sorted (om_insert k v m).
Proof.
  induction 1 as [|[k2 v2] m Hs IH Hall]; simpl; [repeat constructor|].
  destruct (decide (k = k2)) as [|Hne]; [now constructor|].
  destruct (key_ltb k k2) eqn:E; [now apply om_sorted_cons_lt; [|constructor]|].
  constructor; [done|]. apply om_insert_Forall; [|done].
  destruct (key_ltb_total k k2) as [|[|]]; simpl; congruence.
Qed.

Lemma om_assign_sorted k v m : om_sorted m -> om_sorted (om_assign k v m).
Proof.
  induction 1 as [|[k2 v2] m Hs IH Hall]; simpl; [repeat constructor|].
  destruct (decide (k = k2)) as [->|Hne]; [now constructor|].
  destruct (key_ltb k k2) eqn:E; [now apply om_sorted_cons_lt; [|constructor]|].
  constructor; [done|]. apply om_assign_Forall; [|done].
  destruct (key_ltb_total k k2) as [|[|]]; simpl; congruence.
Qed.

Lemma om_insert_all_sorted kvs m : om_sorted m -> om_sorted (om_insert_all kvs m).
Proof.
  revert m. induction kvs as [|[k v] kvs IH]; intros m Hs; [done|]. simpl.
  now apply IH, om_insert_sorted.
Qed.

Lemma om_find_insert_all k kvs m :
  om_sorted m ->
  om_find k (om_insert_all kvs m) =
    match om_find k m with Some v => Some v | None => om_find k kvs end.
Proof.
  revert m. induction kvs as [|[k2 v2] kvs IH]; intros m Hs; simpl.
  - now destruct (om_find k m).
  - unfold om_insert_all in *. simpl. rewrite IH by now apply om_insert_sorted.
    destruct (decide (k = k2)) as [->|].
    + rewrite om_find_insert_eq by done. now destruct (om_find k2 m).
    + now rewrite om_find_insert_ne by done.
Qed.

Lemma om_find_merge k (dst src : omap K V) :
  om_sorted dst ->
  om_find k (om_merge dst src) =
    match om_find k dst with Some v => Some v | None => om_find k src end.
Proof. apply om_find_insert_all. Qed.

(** Writing the entries of a sorted map one after the other at the end
    rebuilds the map. *)
Lemma om_insert_snoc k v m :
  Forall (fun a => key_ltb a.1 k = true) m -> om_insert k v m = m ++ [(k, v)].
Proof.
  induction 1 as [|[k2 v2] m Hk Hm IH]; [done|]. simpl in *.
  rewrite decide_False by (intros ->; now rewrite key_ltb_irrefl in Hk).
  destruct (key_ltb k k2) eqn:E; [|now rewrite IH].
  pose proof (key_ltb_trans _ _ _ E Hk) as F.
  now rewrite key_ltb_irrefl in F.
Qed.

Lemma om_insert_all_sorted_id m pre :
  om_sorted (pre ++ m) -> om_insert_all m pre = pre ++ m.
Proof.
  revert pre. induction m as [|[k v] m IH]; intros pre Hs; [now rewrite app_nil_r|].
  unfold om_insert_all in *. simpl. rewrite om_insert_snoc.
  - rewrite IH; rewrite <- app_assoc; done.
  - clear IH. induction pre as [|[k2 v2] pre IHp]; [constructor|]. simpl in Hs.
    apply StronglySorted_inv in Hs as [Hs Hall]. constructor; [|now apply IHp].
    rewrite Forall_app in Hall. destruct Hall as [_ Hall]. now inversion Hall.
Qed.

Lemma lenZ_om_insert_all kvs m : (lenZ (om_insert_all kvs m) <= lenZ kvs + lenZ m)%Z.
Proof.
  assert (forall k v m, (lenZ (om_insert k v m) <= 1 + lenZ m)%Z) as Hins.
  { intros k v m'. induction m' as [|[k2 v2] m' IH]; simpl; [done|].
    repeat case_decide; repeat case_match; rewrite ?lenZ_cons in *; lia. }
  revert m. induction kvs as [|[k v] kvs IH]; intros m; simpl.
  - change (lenZ (@nil (K * V))) with 0. lia.
  - rewrite lenZ_cons. unfold om_insert_all in *. simpl. specialize (IH (om_insert k v m)).
    specialize (Hins k v m). lia.
Qed.

Lemma om_insert_all_Forall (P : K * V -> Prop) kvs m :
  Forall P kvs -> Forall P m -> Forall P (om_insert_all kvs m).
Proof.
  intros Hk. revert m. induction Hk as [|[k v] kvs Hkv Hkvs IH]; intros m Hm; [done|].
  unfold om_insert_all in *. simpl. now apply IH, om_insert_Forall.
Qed.

Lemma om_sorted_NoDup m : om_sorted m -> NoDup m.*1.
Proof.
  induction 1 as [|[k v] m Hs IH Hall]; [constructor|]. rewrite fmap_cons. constructor; [|done].
  intros Hin. apply list_elem_of_fmap in Hin as ([k' v'] & Ek & Hin). simpl in Ek. subst k'.
  rewrite Forall_forall in Hall. specialize (Hall _ Hin). simpl in Hall.
  now rewrite key_ltb_irrefl in Hall.
Qed.

Lemma om_find_elem k v m : NoDup m.*1 -> om_find k m = Some v <-> (k, v) ∈ m.
Proof.
  induction m as [|[k' v'] m IH]; simpl; [intros _; split; [done | inversion 1]|].
  rewrite NoDup_cons. intros [Hnin Hnd]. rewrite elem_of_cons.
  destruct (decide (k = k')) as [->|Hne].
  - split; [intros [= ->]; auto|]. intros [[= ->]|Hin]; [done|].
    destruct Hnin. now apply (list_elem_of_fmap_2 fst) in Hin.
  - rewrite IH by done. split; [auto|]. intros [[= -> ->]|]; [done | auto].
Qed.

End omap_laws.
