(* ===== verification/Types.v ===== *)
(** * The types of the client's interface and its exceptions

    Models [include/hareflow/types.h], [src/types.cpp],
    [include/hareflow/exceptions.h] and [src/exceptions.cpp].  An [enum class]
    of the code has a fixed underlying type and receives casts of any wire
    value, so a code on the wire is an integer and the enumeration gives the
    values that have a name. *)

From S2P Require Import Prelude Words OrdMap.

(** ** Enumerations *)

Inductive ShutdownReason := ClientInitiated | ServerInitiated | HeartbeatTimeout | Unknown.

#[export] Instance ShutdownReason_eq_dec : EqDecision ShutdownReason.
Proof. solve_decision. Defined.

(** The shutdown listeners of producers, consumers and environments reset the
    pointer to their [client] with their mutex held, and drop what may be the last
    reference to it.  Of the client that [notifier] is, on its own frame
    thread, the destructor detaches that thread and returns.  In the listener
    of a heartbeat time-out, on the strand of the connection, and for a client
    other than [notifier], it joins a frame thread, which may never end: the
    read that it waits for is failed by a handler of that strand only, and its
    own listeners wait for the mutex. *)
Definition drop_may_block (notifier : nat) (reason : ShutdownReason) (client : option nat) : bool :=
  match client with
  | Some c => bool_decide (reason = HeartbeatTimeout) || negb (bool_decide (c = notifier))
  | None => false
  end.

Inductive ResponseCode :=
| Ok
| StreamDoesNotExist
| SubscriptionIdAlreadyExists
| SubscriptionIdDoesNotExist
| StreamAlreadyExists
| StreamNotAvailable
| SaslMechanismNotSupported
| AuthenticationFailure
| SaslError
| SaslChallenge
| SaslAuthenticationFailureLoopback
| VirtualHostAccessFailure
| UnknownFrame
| FrameTooLarge
| InternalError
| AccessRefused
| PreconditionFailed
| PublisherDoesNotExist
| NoOffset.

#[export] Instance ResponseCode_eq_dec : EqDecision ResponseCode.
Proof. solve_decision. Defined.

(** [static_cast<std::uint16_t>(code)]. *)
Definition rc_value (c : ResponseCode) : Z :=
  match c with
  | Ok => 0x0001
  | StreamDoesNotExist => 0x0002
  | SubscriptionIdAlreadyExists => 0x0003
  | SubscriptionIdDoesNotExist => 0x0004
  | StreamAlreadyExists => 0x0005
  | StreamNotAvailable => 0x0006
  | SaslMechanismNotSupported => 0x0007
  | AuthenticationFailure => 0x0008
  | SaslError => 0x0009
  | SaslChallenge => 0x000a
  | SaslAuthenticationFailureLoopback => 0x000b
  | VirtualHostAccessFailure => 0x000c
  | UnknownFrame => 0x000d
  | FrameTooLarge => 0x000e
  | InternalError => 0x000f
  | AccessRefused => 0x0010
  | PreconditionFailed => 0x0011
  | PublisherDoesNotExist => 0x0012
  | NoOffset => 0x0013
  end.

Inductive ProducerErrorCode :=
| MessageEnqueuingFailed
| ProducerNotAvailable
| ProducerStopped
| ConfirmTimeout.

#[export] Instance ProducerErrorCode_eq_dec : EqDecision ProducerErrorCode.
Proof. solve_decision. Defined.

Definition pec_value (c : ProducerErrorCode) : Z :=
  match c with
  | MessageEnqueuingFailed => 0x4001
  | ProducerNotAvailable => 0x4002
  | ProducerStopped => 0x4003
  | ConfirmTimeout => 0x4004
  end.

(** ** Exceptions

    One constructor per class; the C++ subclass relation is the boolean
    predicates below.  [FutureError] is [std::future_error], which the
    library's own [catch] clauses do not mention.  [UndefinedBehaviour] is not
    an exception of the code: a step of the model that would read or write
    outside a buffer, or dereference an empty [std::optional], ends in it, so
    that the absence of such accesses is a theorem.  [NeverReturns] is not one
    either: a call that waits for ever ends in it, with the locks it holds. *)

Inductive exn :=
| StreamException (what : string)
| TimeoutException (what : string)
| IOException (what : string)
| ResponseErrorException (code : Z)
| InvalidInputException (what : string)
| ProducerException (code : ProducerErrorCode) (what : string)
| SemaphoreDestroyedException (what : string)
| AccumulatorDestroyedException (what : string)
| ServerCloseException (what : string)
| FutureError
| UndefinedBehaviour
| NeverReturns.

#[export] Instance exn_eq_dec : EqDecision exn.
Proof. solve_decision. Defined.

(** [catch (const StreamException&)]. *)
Definition is_StreamException (e : exn) : bool :=
  match e with
  | StreamException _ | TimeoutException _ | IOException _ | ResponseErrorException _
  | InvalidInputException _ | ProducerException _ _ => true
  | SemaphoreDestroyedException _ | AccumulatorDestroyedException _
  | ServerCloseException _ | FutureError | UndefinedBehaviour | NeverReturns => false
  end.

Definition is_TimeoutException (e : exn) : bool :=
  match e with TimeoutException _ => true | _ => false end.

Definition is_IOException (e : exn) : bool :=
  match e with IOException _ => true | _ => false end.

Definition is_InvalidInput (e : exn) : bool :=
  match e with InvalidInputException _ => true | _ => false end.

(** [dynamic_cast<const ResponseErrorException*>(&e)] and [code()]. *)
Definition response_error_code (e : exn) : option Z :=
  match e with ResponseErrorException c => Some c | _ => None end.

(** ** Messages of [ResponseErrorException] *)

Definition response_code_to_string (c : ResponseCode) : string :=
  match c with
  | Ok => "Ok"
  | StreamDoesNotExist => "StreamDoesNotExist"
  | SubscriptionIdAlreadyExists => "SubscriptionIdAlreadyExists"
  | SubscriptionIdDoesNotExist => "SubscriptionIdDoesNotExist"
  | StreamAlreadyExists => "StreamAlreadyExists"
  | StreamNotAvailable => "StreamNotAvailable"
  | SaslMechanismNotSupported => "SaslMechanismNotSupported"
  | AuthenticationFailure => "AuthenticationFailure"
  | SaslError => "SaslError"
  | SaslChallenge => "SaslChallenge"
  | SaslAuthenticationFailureLoopback => "SaslAuthenticationFailureLoopback"
  | VirtualHostAccessFailure => "VirtualHostAccessFailure"
  | UnknownFrame => "UnknownFrame"
  | FrameTooLarge => "FrameTooLarge"
  | InternalError => "InternalError"
  | AccessRefused => "AccessRefused"
  | PreconditionFailed => "PreconditionFailed"
  | PublisherDoesNotExist => "PublisherDoesNotExist"
  | NoOffset => "NoOffset"
  end.

Definition all_response_codes : list ResponseCode :=
  [Ok; StreamDoesNotExist; SubscriptionIdAlreadyExists; SubscriptionIdDoesNotExist;
   StreamAlreadyExists; StreamNotAvailable; SaslMechanismNotSupported; AuthenticationFailure;
   SaslError; SaslChallenge; SaslAuthenticationFailureLoopback; VirtualHostAccessFailure;
   UnknownFrame; FrameTooLarge; InternalError; AccessRefused; PreconditionFailed;
   PublisherDoesNotExist; NoOffset].

Definition RESPONSE_CODES_TO_STRING : omap Z string :=
  om_insert_all (map (fun c => (rc_value c, response_code_to_string c)) all_response_codes) [].

Definition hex_digit (n : Z) : string :=
  String.substring (Z.to_nat n) 1 "0123456789abcdef".

Fixpoint hex_digits (fuel : nat) (n : Z) (acc : string) : string :=
  match fuel with
  | O => acc
  | S fuel =>
      let acc := String.append (hex_digit (n mod 16)) acc in
      if n / 16 =? 0 then acc else hex_digits fuel (n / 16) acc
  end.

(** [fmt::format("{:#x}", n)] for a 16-bit [n]: at most four digits. *)
Definition format_hex16 (n : Z) : string := String.append "0x" (hex_digits 4 n "").

Definition build_what (code : Z) : string :=
  String.append "Error response received from server: "
    match om_find code RESPONSE_CODES_TO_STRING with
    | Some name => name
    | None => format_hex16 code
    end.

(** ** Offset specifications *)

Definition OFFSET_FIRST : Z := 1.
Definition OFFSET_LAST : Z := 2.
Definition OFFSET_NEXT : Z := 3.
Definition OFFSET_OFFSET : Z := 4.
Definition OFFSET_TIMESTAMP : Z := 5.

Record OffsetSpecification := MkOffsetSpecification {
  os_type : Z;
  os_offset : Z
}.

(** [operator==] compares both members. *)
#[export] Instance OffsetSpecification_eq_dec : EqDecision OffsetSpecification.
Proof. solve_decision. Defined.

Definition offset_first : OffsetSpecification := MkOffsetSpecification OFFSET_FIRST 0.
Definition offset_last : OffsetSpecification := MkOffsetSpecification OFFSET_LAST 0.
Definition offset_next : OffsetSpecification := MkOffsetSpecification OFFSET_NEXT 0.
Definition offset_offset (offset : Z) : OffsetSpecification :=
  MkOffsetSpecification OFFSET_OFFSET offset.
Definition offset_timestamp (timestamp : Z) : outcome exn OffsetSpecification :=
  if timestamp <? 0 then Throw (InvalidInputException "Specified timestamp is before epoch")
  else Val (MkOffsetSpecification OFFSET_TIMESTAMP (wrap64 timestamp)).

(** From a [time_point]: [ticks_per_ms] is the resolution of the system clock;
    [duration_cast] truncates towards zero. *)
Definition offset_timestamp_point (ticks_per_ms ticks : Z) : outcome exn OffsetSpecification :=
  offset_timestamp (ticks ÷ ticks_per_ms).

Definition os_get_type (o : OffsetSpecification) : Z := os_type o.
Definition os_get_offset (o : OffsetSpecification) : Z := os_offset o.
Definition os_is_offset (o : OffsetSpecification) : bool := os_type o =? OFFSET_OFFSET.
Definition os_is_timestamp (o : OffsetSpecification) : bool := os_type o =? OFFSET_TIMESTAMP.

(** ** Messages, brokers, stream metadata *)

Definition Properties : Type := omap string string.

Record Message := MkMessage {
  msg_body : list byte;
  msg_headers : Properties
}.

#[export] Instance Message_eq_dec : EqDecision Message.
Proof. solve_decision. Defined.

Record ChunkContext := MkChunkContext {
  cc_timestamp : Z;
  cc_offset : Z;
  cc_message_count : Z;
  cc_committed_chunk_id : option Z
}.

(** The [consumer] pointer of the context, always the consumer that calls the
    handler, is left out. *)
Record MessageContext := MkMessageContext {
  mc_offset : Z;
  mc_timestamp : Z;
  mc_committed_chunk_id : option Z
}.

(** [message] is the message the user passed to [send]. *)
Record ConfirmationStatus := MkConfirmationStatus {
  cs_publishing_id : Z;
  cs_message : Message;
  cs_confirmed : bool;
  cs_status_code : Z
}.

Record AutomaticCursorConfiguration := MkAutomaticCursorConfiguration {
  acc_persist_frequency : Z;
  acc_force_persist_delay : Z
}.

Definition default_persist_frequency : Z := 10000.
Definition default_force_persist_delay : Z := 5000.
Definition default_AutomaticCursorConfiguration : AutomaticCursorConfiguration :=
  MkAutomaticCursorConfiguration default_persist_frequency default_force_persist_delay.

Record Broker := MkBroker {
  br_host : string;
  br_port : Z
}.

Definition broker_get_host (b : Broker) : string := br_host b.
Definition broker_get_port (b : Broker) : Z := br_port b.

Record StreamMetadata := MkStreamMetadata {
  sm_stream_name : string;
  sm_response_code : Z;
  sm_leader : Broker;
  sm_replicas : list Broker
}.

Definition get_stream_name (m : StreamMetadata) : string := sm_stream_name m.
Definition metadata_get_response_code (m : StreamMetadata) : Z := sm_response_code m.
Definition get_leader (m : StreamMetadata) : Broker := sm_leader m.
Definition get_replicas (m : StreamMetadata) : list Broker := sm_replicas m.

(** [std::set<StreamMetadata, StreamMetadataLess>]: ordered by stream name, one
    entry per name. *)
Definition StreamMetadataSet : Type := omap string StreamMetadata.

Definition metadata_emplace (m : StreamMetadata) (s : StreamMetadataSet) : StreamMetadataSet :=
  om_insert (sm_stream_name m) m s.

(** ** References

    What a getter that is not [const] returns: a place that can be read, and
    written or moved from. *)

Record reference (S A : Type) := MkReference {
  ref_read : S -> A;
  ref_write : A -> S -> S
}.
Arguments MkReference {S A} _ _.
Arguments ref_read {S A} _ _.
Arguments ref_write {S A} _ _ _.

Definition broker_host_ref : reference Broker string :=
  MkReference br_host (fun host b => MkBroker host (br_port b)).
Definition stream_name_ref : reference StreamMetadata string :=
  MkReference sm_stream_name (fun x m => MkStreamMetadata x (sm_response_code m) (sm_leader m) (sm_replicas m)).
Definition leader_ref : reference StreamMetadata Broker :=
  MkReference sm_leader (fun x m => MkStreamMetadata (sm_stream_name m) (sm_response_code m) x (sm_replicas m)).
Definition replicas_ref : reference StreamMetadata (list Broker) :=
  MkReference sm_replicas (fun x m => MkStreamMetadata (sm_stream_name m) (sm_response_code m) (sm_leader m) x).

(** [std::move(r)]: what is left behind is a valid value of its type, unspecified. *)
Definition move_out {S E A} (moved : A -> A) (r : reference S A) : ST S E A :=
  s ← st_get;
  st_put (ref_write r (moved (ref_read r s)) s) ;;
  mret (ref_read r s).

(** ** Properties of the codes *)

Lemma rc_value_range c : is_u16 (rc_value c).
Proof. destruct c; unfold is_uint; simpl; lia. Qed.

Lemma rc_value_inj c1 c2 : rc_value c1 = rc_value c2 -> c1 = c2.
Proof. destruct c1, c2; simpl; congruence. Qed.

Lemma pec_value_range c : is_u16 (pec_value c).
Proof. destruct c; unfold is_uint; simpl; lia. Qed.

Lemma rc_pec_disjoint c p : rc_value c <> pec_value p.
Proof. destruct c, p; discriminate. Qed.
