(* ===== verification/BinaryBuffer.v ===== *)
(** * The binary buffer

    Models [src/binary_buffer.cpp] and [include/hareflow/detail/binary_buffer.{h,hpp}]:
    a byte vector with a read cursor and a write cursor.  Each member function
    is a computation of the state-and-exception monad over the buffer.

    Sizes and cursors are [std::size_t] values; the two guards whose result
    depends on 64-bit arithmetic, [check_read_length] and [grow_buffer], have
    their wrap-around written out. *)

From S2P Require Import Prelude Words OrdMap Types.

Record BinaryBuffer := MkBinaryBuffer {
  m_bytes : list byte;
  m_read_cursor : Z;
  m_write_cursor : Z
}.

Abbreviation BM A := (ST BinaryBuffer exn A).

(** The default constructor. *)
Definition empty_buffer : BinaryBuffer := MkBinaryBuffer [] 0 0.

Definition with_bytes (bs : list byte) (b : BinaryBuffer) : BinaryBuffer :=
  MkBinaryBuffer bs (m_read_cursor b) (m_write_cursor b).
Definition with_read_cursor (c : Z) (b : BinaryBuffer) : BinaryBuffer :=
  MkBinaryBuffer (m_bytes b) c (m_write_cursor b).
Definition with_write_cursor (c : Z) (b : BinaryBuffer) : BinaryBuffer :=
  MkBinaryBuffer (m_bytes b) (m_read_cursor b) c.

(** ** Sizes on the wire *)

Definition serialized_size_string (s : string) : Z := 2 + str_size s.
Definition serialized_size_blob (blob : list byte) : Z := 4 + lenZ blob.
Definition serialized_size_array {X} (elem_size : X -> Z) (container : list X) : Z :=
  fold_left (fun size x => size + elem_size x) container 4.

(** ** Size and cursors *)

Definition MAX_SIZE_MESSAGE : string := "Maximum buffer size exceeded (4294967295)".

Definition buffer_size (b : BinaryBuffer) : Z := lenZ (m_bytes b).

(** [m_bytes.reserve] changes the capacity only. *)
Definition buffer_reserve (size : Z) : BM unit :=
  if UINT32_MAX <? size then st_throw (InvalidInputException MAX_SIZE_MESSAGE)
  else mret tt.

(** [std::vector::resize]: cut, or extend with zeros. *)
Definition vector_resize (n : Z) (l : list byte) : list byte := resize (Z.to_nat n) x00 l.

Definition buffer_resize (size : Z) : BM unit :=
  if UINT32_MAX <? size then st_throw (InvalidInputException MAX_SIZE_MESSAGE)
  else st_modify (fun b => with_bytes (vector_resize size (m_bytes b)) b).

Definition reset_cursors : BM unit :=
  st_modify (fun b => with_write_cursor 0 (with_read_cursor 0 b)).

Definition buffer_clear : BM unit := st_modify (with_bytes []) ;; reset_cursors.

Definition set_read_cursor (cursor : Z) : BM unit :=
  b ← st_get;
  if buffer_size b <? cursor then st_throw (InvalidInputException "Read cursor out of range")
  else st_put (with_read_cursor cursor b).

Definition set_write_cursor (cursor : Z) : BM unit :=
  b ← st_get;
  if buffer_size b <? cursor then st_throw (InvalidInputException "Write cursor out of range")
  else st_put (with_write_cursor cursor b).

Definition check_read_length (to_read : Z) : BM unit :=
  b ← st_get;
  if buffer_size b <? wrap64 (m_read_cursor b + to_read)
  then st_throw (InvalidInputException "Not enough data left in buffer")
  else mret tt.

Definition grow_buffer (to_add : Z) : BM unit :=
  b ← st_get;
  if wrap64 (UINT32_MAX - m_write_cursor b) <? to_add
  then st_throw (InvalidInputException MAX_SIZE_MESSAGE)
  else st_put (with_bytes (vector_resize (m_write_cursor b + to_add) (m_bytes b)) b).

(** ** Memory accesses

    [memcpy] from and to the buffer at a cursor.  Outside the vector they are
    undefined behaviour. *)

Definition memcpy_from (off n : Z) : BM (list byte) :=
  b ← st_get;
  if (0 <=? off) && (off + n <=? buffer_size b)
  then mret (takeZ n (dropZ off (m_bytes b)))
  else st_throw UndefinedBehaviour.

Definition memcpy_to (off : Z) (bs : list byte) : BM unit :=
  b ← st_get;
  if (0 <=? off) && (off + lenZ bs <=? buffer_size b)
  then st_put (with_bytes (takeZ off (m_bytes b) ++ bs ++ dropZ (off + lenZ bs) (m_bytes b)) b)
  else st_throw UndefinedBehaviour.

(** Check, copy [n] bytes out, advance: the body the fixed-width reads share. *)
Definition read_raw (n : Z) : BM (list byte) :=
  check_read_length n ;;
  rc ← st_gets m_read_cursor;
  bs ← memcpy_from rc n;
  st_modify (fun b => with_read_cursor (m_read_cursor b + n) b) ;;
  mret bs.

(** Grow, copy the bytes in, advance: the body the writes share. *)
Definition write_raw (bs : list byte) : BM unit :=
  grow_buffer (lenZ bs) ;;
  wc ← st_gets m_write_cursor;
  memcpy_to wc bs ;;
  st_modify (fun b => with_write_cursor (m_write_cursor b + lenZ bs) b).

(** ** Reads *)

Definition read_byte : BM Z := bs ← read_raw 1; mret (be_decode bs).
Definition read_ushort : BM Z := bs ← read_raw 2; mret (be_decode bs).
Definition read_uint : BM Z := bs ← read_raw 4; mret (be_decode bs).
Definition read_ulong : BM Z := bs ← read_raw 8; mret (be_decode bs).
Definition read_short : BM Z := bs ← read_raw 2; mret (to_signed 16 (be_decode bs)).
Definition read_int : BM Z := bs ← read_raw 4; mret (to_signed 32 (be_decode bs)).
Definition read_long : BM Z := bs ← read_raw 8; mret (to_signed 64 (be_decode bs)).

Definition read_string : BM string :=
  length ← read_short;
  if length <=? 0 then mret EmptyString
  else bs ← read_raw length; mret (bytes_str bs).

Definition read_bytes (count : Z) : BM (list byte) :=
  if count =? 0 then mret [] else read_raw count.

Definition read_blob : BM (list byte) :=
  length ← read_int;
  if length <=? 0 then mret [] else read_bytes (wrap32 length).

Definition read_array {X} (read_elem : BM X) : BM (list X) :=
  length ← read_int;
  if length <=? 0 then mret [] else st_repeat (Z.to_nat length) read_elem.

(** ** Writes *)

Definition write_byte (v : Z) : BM unit := write_raw (be_encode 1 v).
Definition write_ushort (v : Z) : BM unit := write_raw (be_encode 2 v).
Definition write_uint (v : Z) : BM unit := write_raw (be_encode 4 v).
Definition write_ulong (v : Z) : BM unit := write_raw (be_encode 8 v).
Definition write_short (v : Z) : BM unit := write_raw (be_encode 2 v).
Definition write_int (v : Z) : BM unit := write_raw (be_encode 4 v).
Definition write_long (v : Z) : BM unit := write_raw (be_encode 8 v).

Definition write_bytes (bs : list byte) : BM unit :=
  if lenZ bs =? 0 then mret tt else write_raw bs.

Definition write_string (s : string) : BM unit :=
  if INT16_MAX <? str_size s
  then st_throw (InvalidInputException "Maximum string size exceeded (32767)")
  else
    let length := to_signed 16 (str_size s) in
    write_short length ;;
    if length =? 0 then mret tt else write_bytes (str_bytes s).

Definition write_blob (blob : list byte) : BM unit :=
  if INT32_MAX <? lenZ blob
  then st_throw (InvalidInputException "Maximum blob size exceeded (2147483647)")
  else
    let length := to_signed 32 (lenZ blob) in
    write_int length ;;
    if length =? 0 then mret tt else write_bytes blob.

Definition write_array {X} (write_elem : X -> BM unit) (container : list X) : BM unit :=
  if INT32_MAX <? lenZ container
  then st_throw (InvalidInputException "Maximum array size exceeded (2147483647)")
  else
    write_int (to_signed 32 (lenZ container)) ;;
    st_iter write_elem container.

(** ** The invariant of a buffer

    The size and both cursors fit 32 bits.  A cursor may lie beyond the end,
    since [resize] moves neither. *)

Definition buf_wf (b : BinaryBuffer) : Prop :=
  buffer_size b <= UINT32_MAX /\
  0 <= m_read_cursor b <= UINT32_MAX /\
  0 <= m_write_cursor b <= UINT32_MAX.

(** What is left to read. *)
Definition remaining (b : BinaryBuffer) : list byte := dropZ (m_read_cursor b) (m_bytes b).
Definition advance (n : Z) (b : BinaryBuffer) : BinaryBuffer :=
  with_read_cursor (m_read_cursor b + n) b.

(** Writing at the end of the bytes, where the library always writes. *)
Definition at_end (b : BinaryBuffer) : Prop := buf_wf b /\ m_write_cursor b = buffer_size b.
Definition append (bs : list byte) (b : BinaryBuffer) : BinaryBuffer :=
  MkBinaryBuffer (m_bytes b ++ bs) (m_read_cursor b) (m_write_cursor b + lenZ bs).

Ltac unfold_words :=
  unfold UINT8_MAX, INT16_MAX, UINT16_MAX, INT32_MAX, UINT32_MAX, UINT64_MAX, is_uint, is_sint in *.

Lemma size_nonneg b : 0 <= buffer_size b.
Proof. apply lenZ_nonneg. Qed.

Lemma advance_0 b : advance 0 b = b.
Proof. unfold advance, with_read_cursor. destruct b; simpl. f_equal. lia. Qed.

Lemma advance_add n m b : advance m (advance n b) = advance (n + m) b.
Proof. unfold advance, with_read_cursor. destruct b; simpl. f_equal. lia. Qed.

Lemma append_nil b : append [] b = b.
Proof. unfold append. destruct b; simpl. rewrite app_nil_r, lenZ_nil. f_equal. lia. Qed.

Lemma append_app bs1 bs2 b : append bs2 (append bs1 b) = append (bs1 ++ bs2) b.
Proof. unfold append. destruct b; simpl. rewrite app_assoc, lenZ_app. f_equal. lia. Qed.

Lemma lenZ_vector_resize n l : 0 <= n -> lenZ (vector_resize n l) = n.
Proof. intros. unfold lenZ, vector_resize. rewrite length_resize. lia. Qed.

(** ** The primitive accesses *)

Lemma check_read_length_spec n b :
  buf_wf b -> 0 <= n <= UINT32_MAX ->
  check_read_length n b =
    if buffer_size b <? m_read_cursor b + n
    then (Throw (InvalidInputException "Not enough data left in buffer"), b)
    else (Val tt, b).
Proof.
  intros (Hs & Hr & _) Hn. unfold check_read_length, mbind, ST_bind. simpl.
  rewrite wrap_small; [now destruct (_ <? _)|]. unfold_words. lia.
Qed.

Lemma read_raw_ok n b :
  buf_wf b -> 0 <= n <= UINT32_MAX -> m_read_cursor b + n <= buffer_size b ->
  read_raw n b = (Val (takeZ n (remaining b)), advance n b).
Proof.
  intros Hwf Hn Hle. unfold read_raw.
  erewrite ST_bind_Val; [|rewrite check_read_length_spec by done; now rewrite (proj2 (Z.ltb_ge _ _)) by lia].
  erewrite ST_bind_Val by reflexivity. erewrite ST_bind_Val; [reflexivity|].
  unfold memcpy_from, mbind, ST_bind. simpl. destruct Hwf as (_ & Hr & _).
  rewrite (proj2 (Z.leb_le 0 _)), (proj2 (Z.leb_le _ (buffer_size b))) by lia. reflexivity.
Qed.

Lemma read_raw_short n b :
  buf_wf b -> 0 <= n <= UINT32_MAX -> buffer_size b < m_read_cursor b + n ->
  read_raw n b = (Throw (InvalidInputException "Not enough data left in buffer"), b).
Proof.
  intros Hwf Hn Hlt. unfold read_raw. apply ST_bind_Throw.
  rewrite check_read_length_spec by done. now rewrite (proj2 (Z.ltb_lt _ _)) by lia.
Qed.

Lemma write_raw_spec bs b :
  buf_wf b ->
  write_raw bs b =
    if UINT32_MAX - m_write_cursor b <? lenZ bs
    then (Throw (InvalidInputException MAX_SIZE_MESSAGE), b)
    else (Val tt, MkBinaryBuffer (vector_resize (m_write_cursor b) (m_bytes b) ++ bs)
                                 (m_read_cursor b) (m_write_cursor b + lenZ bs)).
Proof.
  intros (Hs & Hr & Hw). pose proof (lenZ_nonneg bs). unfold write_raw.
  assert (wrap64 (UINT32_MAX - m_write_cursor b) = UINT32_MAX - m_write_cursor b) as Hwrap.
  { apply wrap_small. unfold_words. lia. }
  unfold grow_buffer, memcpy_to, mbind, ST_bind; simpl. rewrite Hwrap.
  destruct (Z.ltb_spec (UINT32_MAX - m_write_cursor b) (lenZ bs)); [done|].
  unfold st_put, buffer_size, with_bytes; simpl.
  rewrite lenZ_vector_resize by lia.
  rewrite (proj2 (Z.leb_le 0 _)), (proj2 (Z.leb_le _ (_ + _))) by lia. simpl.
  unfold st_modify, with_write_cursor; simpl. do 2 f_equal.
  assert (takeZ (m_write_cursor b) (vector_resize (m_write_cursor b + lenZ bs) (m_bytes b)) =
          vector_resize (m_write_cursor b) (m_bytes b)) as ->.
  { unfold takeZ, vector_resize. rewrite take_resize_le by lia. done. }
  f_equal. unfold dropZ, vector_resize. rewrite drop_ge; [apply app_nil_r|].
  rewrite length_resize. lia.
Qed.

(** ** Reading and writing an exact byte string *)

Definition reads {A} (m : BM A) (bs : list byte) (a : A) : Prop :=
  forall b rest, buf_wf b -> m_read_cursor b <= buffer_size b -> remaining b = bs ++ rest ->
  m b = (Val a, advance (lenZ bs) b).

Definition writes (m : BM unit) (bs : list byte) : Prop :=
  forall b, at_end b -> buffer_size b + lenZ bs <= UINT32_MAX -> m b = (Val tt, append bs b).

(** The wire encodings the code's reads and writes agree on. *)
Definition enc_string (s : string) : list byte := be_encode 2 (str_size s) ++ str_bytes s.
Definition enc_blob (l : list byte) : list byte := be_encode 4 (lenZ l) ++ l.
Definition enc_array {X} (enc : X -> list byte) (xs : list X) : list byte :=
  be_encode 4 (lenZ xs) ++ concat (map enc xs).

Lemma remaining_split b bs rest :
  buf_wf b -> m_read_cursor b <= buffer_size b -> remaining b = bs ++ rest ->
  m_read_cursor b + lenZ bs <= buffer_size b.
Proof.
  intros (Hs & Hr & _) Hle E. apply (f_equal lenZ) in E. unfold remaining in E.
  rewrite lenZ_dropZ, lenZ_app in E by lia. unfold buffer_size in *.
  pose proof (lenZ_nonneg rest). lia.
Qed.

Lemma advance_wf n b :
  buf_wf b -> 0 <= n -> m_read_cursor b + n <= buffer_size b -> buf_wf (advance n b).
Proof. unfold buf_wf, advance, buffer_size. simpl. lia. Qed.

Lemma remaining_advance b bs rest :
  buf_wf b -> remaining b = bs ++ rest -> remaining (advance (lenZ bs) b) = rest.
Proof.
  intros (_ & Hr & _) E. unfold remaining, advance in *. simpl.
  rewrite <- dropZ_add by (pose proof (lenZ_nonneg bs); lia). rewrite E. apply dropZ_app.
Qed.

Lemma append_at_end bs b :
  at_end b -> buffer_size b + lenZ bs <= UINT32_MAX -> at_end (append bs b).
Proof.
  intros [(Hs & Hr & Hw) Ee] Hle. unfold at_end, buf_wf, buffer_size, append in *. simpl.
  rewrite lenZ_app. pose proof (lenZ_nonneg bs). lia.
Qed.

Lemma reads_ret {A} (a : A) : reads (mret a) [] a.
Proof. intros b rest _ _ _. now rewrite lenZ_nil, advance_0. Qed.

Lemma reads_bind {A B} (m : BM A) (f : A -> BM B) bs1 bs2 a c :
  reads m bs1 a -> reads (f a) bs2 c -> reads (m ≫= f) (bs1 ++ bs2) c.
Proof.
  intros Hm Hf b rest Hwf Hle E. rewrite <- app_assoc in E.
  pose proof (remaining_split _ _ _ Hwf Hle E). pose proof (lenZ_nonneg bs1).
  rewrite (ST_bind_Val _ _ _ a (advance (lenZ bs1) b)) by now apply (Hm b (bs2 ++ rest)).
  rewrite (Hf (advance (lenZ bs1) b) rest).
  - now rewrite advance_add, lenZ_app.
  - now apply advance_wf.
  - unfold advance, buffer_size in *. simpl. lia.
  - now apply remaining_advance.
Qed.

Lemma reads_fmap {A B} (m : BM A) (f : A -> B) bs a :
  reads m bs a -> reads (x ← m; mret (f x)) bs (f a).
Proof. intros Hm. rewrite <- (app_nil_r bs). eapply reads_bind; [done | apply reads_ret]. Qed.

Lemma reads_raw bs : lenZ bs <= UINT32_MAX -> reads (read_raw (lenZ bs)) bs bs.
Proof.
  intros Hl b rest Hwf Hle E. pose proof (lenZ_nonneg bs).
  pose proof (remaining_split _ _ _ Hwf Hle E).
  rewrite read_raw_ok by (done || lia). now rewrite E, takeZ_app.
Qed.

Lemma writes_ret : writes (mret tt) [].
Proof. intros b _ _. now rewrite append_nil. Qed.

Lemma writes_seq m1 m2 bs1 bs2 :
  writes m1 bs1 -> writes m2 bs2 -> writes (m1 ;; m2) (bs1 ++ bs2).
Proof.
  intros H1 H2 b Hb Hle. rewrite lenZ_app in Hle.
  pose proof (lenZ_nonneg bs1). pose proof (lenZ_nonneg bs2).
  rewrite (ST_bind_Val _ _ _ tt (append bs1 b)) by (apply H1; [done | lia]).
  rewrite H2.
  - now rewrite append_app.
  - apply append_at_end; [done | lia].
  - unfold append, buffer_size in *. simpl. rewrite lenZ_app. lia.
Qed.

Lemma writes_raw bs : writes (write_raw bs) bs.
Proof.
  intros b [Hwf Ee] Hle. pose proof (size_nonneg b). pose proof (lenZ_nonneg bs).
  rewrite write_raw_spec by (done || lia).
  rewrite (proj2 (Z.ltb_ge _ _)) by lia. unfold append. do 2 f_equal.
  rewrite Ee. unfold vector_resize, buffer_size, lenZ. rewrite Nat2Z.id. now rewrite resize_all_alt.
Qed.

Lemma writes_bytes bs : writes (write_bytes bs) bs.
Proof.
  unfold write_bytes. destruct (Z.eqb_spec (lenZ bs) 0) as [E|]; [|apply writes_raw].
  apply lenZ_0_nil in E as ->. apply writes_ret.
Qed.

(** ** Typed reads and writes *)

Lemma lenZ_enc_string s : lenZ (enc_string s) = serialized_size_string s.
Proof. unfold enc_string, serialized_size_string. now autorewrite with len. Qed.

Lemma lenZ_enc_blob l : lenZ (enc_blob l) = serialized_size_blob l.
Proof. unfold enc_blob, serialized_size_blob. now autorewrite with len. Qed.

Lemma fold_size_acc {X} (f : X -> Z) xs acc :
  fold_left (fun size x => size + f x) xs acc = acc + fold_left (fun size x => size + f x) xs 0.
Proof.
  revert acc. induction xs as [|x xs IH]; intros acc; simpl; [lia|].
  rewrite IH, (IH (0 + f x)). lia.
Qed.

Lemma serialized_size_array_nil {X} (f : X -> Z) : serialized_size_array f [] = 4.
Proof. reflexivity. Qed.

Lemma serialized_size_array_cons {X} (f : X -> Z) x xs :
  serialized_size_array f (x :: xs) = f x + serialized_size_array f xs.
Proof. unfold serialized_size_array. simpl. rewrite fold_size_acc, (fold_size_acc f xs 4). lia. Qed.

Lemma serialized_size_array_app {X} (f : X -> Z) xs ys :
  serialized_size_array f (xs ++ ys) = serialized_size_array f xs + serialized_size_array f ys - 4.
Proof.
  induction xs as [|x xs IH]; simpl.
  - rewrite serialized_size_array_nil. lia.
  - rewrite !serialized_size_array_cons, IH. lia.
Qed.

Lemma lenZ_enc_array {X} (enc : X -> list byte) (size : X -> Z) xs :
  (forall x, lenZ (enc x) = size x) -> lenZ (enc_array enc xs) = serialized_size_array size xs.
Proof.
  intros Henc. unfold enc_array. autorewrite with len.
  induction xs as [|x xs IH]; [reflexivity|].
  rewrite serialized_size_array_cons. simpl. autorewrite with len. rewrite Henc. lia.
Qed.

Lemma reads_word {A} (f : list byte -> A) n v a :
  Z.of_nat n <= UINT32_MAX -> f (be_encode n v) = a ->
  reads (bs ← read_raw (Z.of_nat n); mret (f bs)) (be_encode n v) a.
Proof.
  intros Hn <-. apply (reads_fmap _ f). rewrite <- (lenZ_be_encode n v) at 1.
  apply reads_raw. now rewrite lenZ_be_encode.
Qed.

Lemma be_decode_encode_uint n v : is_uint (8 * Z.of_nat n) v -> be_decode (be_encode n v) = v.
Proof.
  intros Hv. rewrite be_decode_encode. apply Z.mod_small. unfold is_uint in Hv.
  rewrite Z.pow_mul_r in Hv by lia. exact Hv.
Qed.

Lemma be_decode_encode_sint n v :
  (0 < n)%nat -> is_sint (8 * Z.of_nat n) v ->
  to_signed (8 * Z.of_nat n) (be_decode (be_encode n v)) = v.
Proof.
  intros Hn Hv. rewrite be_decode_encode.
  replace (256 ^ Z.of_nat n) with (2 ^ (8 * Z.of_nat n)) by now rewrite Z.pow_mul_r by lia.
  fold (wrap (8 * Z.of_nat n) v). rewrite to_signed_wrap. apply to_signed_id; [lia | done].
Qed.

Lemma reads_byte v : is_u8 v -> reads read_byte (be_encode 1 v) v.
Proof. intros Hv. now apply (reads_word be_decode 1), (be_decode_encode_uint 1). Qed.
Lemma reads_ushort v : is_u16 v -> reads read_ushort (be_encode 2 v) v.
Proof. intros Hv. now apply (reads_word be_decode 2), (be_decode_encode_uint 2). Qed.
Lemma reads_uint32 v : is_u32 v -> reads read_uint (be_encode 4 v) v.
Proof. intros Hv. now apply (reads_word be_decode 4), (be_decode_encode_uint 4). Qed.
Lemma reads_ulong v : is_u64 v -> reads read_ulong (be_encode 8 v) v.
Proof. intros Hv. now apply (reads_word be_decode 8), (be_decode_encode_uint 8). Qed.
Lemma reads_short v : is_sint 16 v -> reads read_short (be_encode 2 v) v.
Proof. intros Hv. apply (reads_word (fun bs => to_signed 16 (be_decode bs)) 2); [done|].
  apply (be_decode_encode_sint 2); [lia | done]. Qed.
Lemma reads_int v : is_sint 32 v -> reads read_int (be_encode 4 v) v.
Proof. intros Hv. apply (reads_word (fun bs => to_signed 32 (be_decode bs)) 4); [done|].
  apply (be_decode_encode_sint 4); [lia | done]. Qed.
Lemma reads_long v : is_sint 64 v -> reads read_long (be_encode 8 v) v.
Proof. intros Hv. apply (reads_word (fun bs => to_signed 64 (be_decode bs)) 8); [done|].
  apply (be_decode_encode_sint 8); [lia | done]. Qed.

Lemma str_size_nonneg s : 0 <= str_size s.
Proof. unfold str_size. lia. Qed.

Lemma reads_string s : str_size s <= INT16_MAX -> reads read_string (enc_string s) s.
Proof.
  intros Hs. pose proof (str_size_nonneg s). unfold read_string, enc_string.
  eapply reads_bind; [apply reads_short; unfold_words; lia|].
  destruct (Z.leb_spec (str_size s) 0).
  - assert (s = EmptyString) as -> by (destruct s; [done|unfold str_size in *; simpl in *; lia]).
    apply reads_ret.
  - rewrite <- (bytes_str_bytes s) at 3. apply (reads_fmap _ bytes_str).
    rewrite <- lenZ_str_bytes. apply reads_raw. rewrite lenZ_str_bytes. unfold_words. lia.
Qed.

Lemma reads_bytes l : lenZ l <= UINT32_MAX -> reads (read_bytes (lenZ l)) l l.
Proof.
  intros Hl. unfold read_bytes. destruct (Z.eqb_spec (lenZ l) 0) as [E|].
  - apply lenZ_0_nil in E as ->. apply reads_ret.
  - now apply reads_raw.
Qed.

Lemma reads_blob l : lenZ l <= INT32_MAX -> reads read_blob (enc_blob l) l.
Proof.
  intros Hl. pose proof (lenZ_nonneg l). unfold read_blob, enc_blob.
  eapply reads_bind; [apply reads_int; unfold_words; lia|].
  destruct (Z.leb_spec (lenZ l) 0).
  - assert (l = []) as -> by (apply lenZ_0_nil; lia). apply reads_ret.
  - rewrite wrap_small by (unfold_words; lia). apply reads_bytes. unfold_words; lia.
Qed.

Lemma reads_repeat {X} (rd : BM X) (enc : X -> list byte) xs :
  Forall (fun x => reads rd (enc x) x) xs ->
  reads (st_repeat (length xs) rd) (concat (map enc xs)) xs.
Proof.
  induction 1 as [|x xs Hx Hxs IH]; simpl; [apply reads_ret|].
  eapply reads_bind; [exact Hx|]. now apply (reads_fmap _ (cons x)).
Qed.

Lemma reads_array {X} (rd : BM X) (enc : X -> list byte) xs :
  lenZ xs <= INT32_MAX -> Forall (fun x => reads rd (enc x) x) xs ->
  reads (read_array rd) (enc_array enc xs) xs.
Proof.
  intros Hl Hxs. pose proof (lenZ_nonneg xs). unfold read_array, enc_array.
  eapply reads_bind; [apply reads_int; unfold_words; lia|].
  destruct (Z.leb_spec (lenZ xs) 0).
  - assert (xs = []) as -> by (apply lenZ_0_nil; lia). apply reads_ret.
  - unfold lenZ. rewrite Nat2Z.id. now apply reads_repeat.
Qed.

Lemma writes_string s : str_size s <= INT16_MAX -> writes (write_string s) (enc_string s).
Proof.
  intros Hs. pose proof (str_size_nonneg s). unfold write_string, enc_string.
  rewrite (proj2 (Z.ltb_ge _ _)) by lia. cbv zeta.
  rewrite to_signed_id by (unfold_words; lia).
  apply writes_seq; [apply writes_raw|].
  destruct (Z.eqb_spec (str_size s) 0) as [E|]; [|apply writes_bytes].
  assert (str_bytes s = []) as -> by (apply lenZ_0_nil; now rewrite lenZ_str_bytes). apply writes_ret.
Qed.

Lemma writes_blob l : lenZ l <= INT32_MAX -> writes (write_blob l) (enc_blob l).
Proof.
  intros Hl. pose proof (lenZ_nonneg l). unfold write_blob, enc_blob.
  rewrite (proj2 (Z.ltb_ge _ _)) by lia. cbv zeta.
  rewrite to_signed_id by (unfold_words; lia).
  apply writes_seq; [apply writes_raw|].
  destruct (Z.eqb_spec (lenZ l) 0) as [E|]; [|apply writes_bytes].
  apply lenZ_0_nil in E as ->. apply writes_ret.
Qed.

Lemma writes_iter {X} (wr : X -> BM unit) (enc : X -> list byte) xs :
  Forall (fun x => writes (wr x) (enc x)) xs -> writes (st_iter wr xs) (concat (map enc xs)).
Proof.
  induction 1; simpl; [apply writes_ret|]. now apply writes_seq.
Qed.

Lemma writes_array {X} (wr : X -> BM unit) (enc : X -> list byte) xs :
  lenZ xs <= INT32_MAX -> Forall (fun x => writes (wr x) (enc x)) xs ->
  writes (write_array wr xs) (enc_array enc xs).
Proof.
  intros Hl Hxs. pose proof (lenZ_nonneg xs). unfold write_array, enc_array.
  rewrite (proj2 (Z.ltb_ge _ _)) by lia. rewrite to_signed_id by (unfold_words; lia).
  apply writes_seq; [apply writes_raw|]. now apply writes_iter.
Qed.

Lemma writes_byte v : writes (write_byte v) (be_encode 1 v).
Proof. apply writes_raw. Qed.
Lemma writes_ushort v : writes (write_ushort v) (be_encode 2 v).
Proof. apply writes_raw. Qed.
Lemma writes_uint v : writes (write_uint v) (be_encode 4 v).
Proof. apply writes_raw. Qed.
Lemma writes_ulong v : writes (write_ulong v) (be_encode 8 v).
Proof. apply writes_raw. Qed.
Lemma writes_short v : writes (write_short v) (be_encode 2 v).
Proof. apply writes_raw. Qed.
Lemma writes_int v : writes (write_int v) (be_encode 4 v).
Proof. apply writes_raw. Qed.
Lemma writes_long v : writes (write_long v) (be_encode 8 v).
Proof. apply writes_raw. Qed.

#[export] Hint Resolve reads_ret reads_byte reads_ushort reads_uint32 reads_ulong reads_short
  reads_int reads_long reads_string reads_bytes reads_blob reads_array : hare.
#[export] Hint Resolve writes_ret writes_byte writes_ushort writes_uint writes_ulong
  writes_short writes_int writes_long writes_string writes_bytes writes_blob
  writes_array : hare.
#[export] Hint Rewrite lenZ_enc_string lenZ_enc_blob : len.

(** ** Safe parsing

    [parses m P]: from any well-formed buffer, whatever its bytes, [m] leaves
    the bytes alone, moves the read cursor forwards and never beyond the end,
    and ends with a value that satisfies [P] or with a [StreamException]. *)

Definition parses {A} (m : BM A) (P : A -> Prop) : Prop :=
  forall b, buf_wf b ->
  let '(r, b') := m b in
  b' = with_read_cursor (m_read_cursor b') b /\
  m_read_cursor b <= m_read_cursor b' <= Z.max (m_read_cursor b) (buffer_size b) /\
  match r with Val a => P a | Throw e => is_StreamException e = true end.

Lemma with_read_cursor_wf c b :
  buf_wf b -> m_read_cursor b <= c <= Z.max (m_read_cursor b) (buffer_size b) ->
  buf_wf (with_read_cursor c b).
Proof. unfold buf_wf, buffer_size. simpl. lia. Qed.

Lemma parses_ret {A} (a : A) (P : A -> Prop) : P a -> parses (mret a) P.
Proof.
  intros HP b Hwf. unfold mret, ST_ret. split; [|split; [lia | done]].
  now destruct b.
Qed.

Lemma parses_throw {A} e (P : A -> Prop) : is_StreamException e = true -> parses (st_throw e) P.
Proof.
  intros He b Hwf. unfold st_throw. split; [|split; [lia | done]]. now destruct b.
Qed.

Lemma parses_bind {A B} (m : BM A) (f : A -> BM B) (P : A -> Prop) (Q : B -> Prop) :
  parses m P -> (forall a, P a -> parses (f a) Q) -> parses (m ≫= f) Q.
Proof.
  intros Hm Hf b Hwf. specialize (Hm b Hwf). unfold mbind, ST_bind.
  destruct (m b) as [[a|e] b1]; destruct Hm as (E & Hc & HP); [|done].
  assert (buf_wf b1) as Hwf1 by (rewrite E; now apply with_read_cursor_wf).
  specialize (Hf a HP b1 Hwf1). destruct (f a b1) as [r b2]. destruct Hf as (E2 & Hc2 & HQ).
  remember (m_read_cursor b1) as c1. rewrite E in E2, Hc2. unfold buffer_size in *. simpl in *.
  split; [exact E2 | split; [lia | done]].
Qed.

Lemma parses_weaken {A} (m : BM A) (P Q : A -> Prop) :
  parses m P -> (forall a, P a -> Q a) -> parses m Q.
Proof.
  intros Hm HPQ b Hwf. specialize (Hm b Hwf). destruct (m b) as [[a|e] b']; destruct Hm as (? & ? & ?); auto.
Qed.

Lemma parses_raw n : 0 <= n <= UINT32_MAX -> parses (read_raw n) (fun bs => lenZ bs = n).
Proof.
  intros Hn b Hwf. destruct (Z.le_gt_cases (m_read_cursor b + n) (buffer_size b)) as [Hle|Hgt].
  - rewrite read_raw_ok by done. unfold advance. simpl. split; [done|split; [lia|]].
    unfold remaining. destruct Hwf as (_ & Hr & _).
    rewrite lenZ_takeZ, lenZ_dropZ by lia. unfold buffer_size in Hle. lia.
  - rewrite read_raw_short by (done || lia). split; [now destruct b | split; [lia|done]].
Qed.

Lemma parses_word {A} (f : list byte -> A) n (P : A -> Prop) :
  0 <= n <= UINT32_MAX -> (forall bs, lenZ bs = n -> P (f bs)) ->
  parses (bs ← read_raw n; mret (f bs)) P.
Proof. intros Hn HP. eapply parses_bind; [now apply parses_raw|]. eauto using parses_ret. Qed.

Lemma be_decode_uint bs n w :
  lenZ bs = n -> w = 8 * n -> 0 <= n -> is_uint w (be_decode bs).
Proof.
  intros <- -> Hn. pose proof (be_decode_range bs). unfold is_uint.
  now rewrite Z.pow_mul_r by lia.
Qed.

Lemma to_signed_range w z : 0 < w -> is_sint w (to_signed w z).
Proof.
  intros Hw. unfold to_signed, is_sint. pose proof (wrap_range w z ltac:(lia)) as Hr.
  unfold is_uint in Hr. assert (2 ^ w = 2 * 2 ^ (w - 1)) as E.
  { replace w with (1 + (w - 1)) at 1 by lia. rewrite Z.pow_add_r by lia. lia. }
  destruct (Z.ltb_spec (wrap w z) (2 ^ (w - 1))); lia.
Qed.

Lemma parses_byte : parses read_byte is_u8.
Proof. apply parses_word; [easy|]. intros bs Hl. now apply (be_decode_uint _ _ _ Hl). Qed.
Lemma parses_ushort : parses read_ushort is_u16.
Proof. apply parses_word; [easy|]. intros bs Hl. now apply (be_decode_uint _ _ _ Hl). Qed.
Lemma parses_uint : parses read_uint is_u32.
Proof. apply parses_word; [easy|]. intros bs Hl. now apply (be_decode_uint _ _ _ Hl). Qed.
Lemma parses_ulong : parses read_ulong is_u64.
Proof. apply parses_word; [easy|]. intros bs Hl. now apply (be_decode_uint _ _ _ Hl). Qed.
Lemma parses_short : parses read_short (is_sint 16).
Proof. apply parses_word; [easy|]. intros. now apply to_signed_range. Qed.
Lemma parses_int : parses read_int (is_sint 32).
Proof. apply parses_word; [easy|]. intros. now apply to_signed_range. Qed.
Lemma parses_long : parses read_long (is_sint 64).
Proof. apply parses_word; [easy|]. intros. now apply to_signed_range. Qed.

Lemma parses_string : parses read_string (fun s => str_size s <= INT16_MAX).
Proof.
  eapply parses_bind; [apply parses_short|]. intros n Hn. simpl.
  destruct (Z.leb_spec n 0); [now apply parses_ret|].
  apply parses_word; [unfold_words; lia|].
  intros bs Hl. rewrite <- lenZ_str_bytes, str_bytes_str. unfold_words. lia.
Qed.

Lemma parses_bytes n :
  0 <= n <= UINT32_MAX -> parses (read_bytes n) (fun l => lenZ l = n).
Proof.
  intros Hn. unfold read_bytes. destruct (Z.eqb_spec n 0); [by subst; apply parses_ret|].
  now apply parses_raw.
Qed.

Lemma parses_blob : parses read_blob (fun l => lenZ l <= INT32_MAX).
Proof.
  eapply parses_bind; [apply parses_int|]. intros n Hn. simpl.
  destruct (Z.leb_spec n 0); [apply parses_ret; rewrite lenZ_nil; unfold_words; lia|].
  rewrite wrap_small by (unfold_words; lia).
  eapply parses_weaken; [apply parses_bytes|]; simpl; intros; unfold_words; lia.
Qed.

Lemma parses_repeat {X} n (rd : BM X) (P : X -> Prop) :
  parses rd P -> parses (st_repeat n rd) (fun xs => length xs = n /\ Forall P xs).
Proof.
  intros Hrd. induction n as [|n IH]; simpl; [by apply parses_ret|].
  eapply parses_bind; [exact Hrd|]. intros x Hx.
  eapply parses_bind; [exact IH|]. intros xs [Hl Hxs]. apply parses_ret. simpl. split; [lia|].
  now constructor.
Qed.

Lemma parses_array {X} (rd : BM X) (P : X -> Prop) :
  parses rd P -> parses (read_array rd) (fun xs => lenZ xs <= INT32_MAX /\ Forall P xs).
Proof.
  intros Hrd. eapply parses_bind; [apply parses_int|]. intros n Hn. simpl.
  destruct (Z.leb_spec n 0); [apply parses_ret; split; [rewrite lenZ_nil; unfold_words; lia | constructor]|].
  eapply parses_weaken; [apply parses_repeat, Hrd|]. simpl. intros xs [Hl Hxs]. split; [|done].
  unfold lenZ. unfold_words. lia.
Qed.

#[export] Hint Resolve parses_byte parses_ushort parses_uint parses_ulong parses_short parses_int
  parses_long parses_string parses_blob : hare.

(** ** Round trip of a sequence of typed fields *)

Inductive field :=
| FByte (v : Z) | FUshort (v : Z) | FUint (v : Z) | FUlong (v : Z)
| FShort (v : Z) | FInt (v : Z) | FLong (v : Z)
| FString (s : string) | FBlob (l : list byte).

Inductive kind :=
| KByte | KUshort | KUint | KUlong | KShort | KInt | KLong | KString | KBlob.

Definition kind_of (f : field) : kind :=
  match f with
  | FByte _ => KByte | FUshort _ => KUshort | FUint _ => KUint | FUlong _ => KUlong
  | FShort _ => KShort | FInt _ => KInt | FLong _ => KLong
  | FString _ => KString | FBlob _ => KBlob
  end.

Definition write_field (f : field) : BM unit :=
  match f with
  | FByte v => write_byte v | FUshort v => write_ushort v
  | FUint v => write_uint v | FUlong v => write_ulong v
  | FShort v => write_short v | FInt v => write_int v | FLong v => write_long v
  | FString s => write_string s | FBlob l => write_blob l
  end.

Definition read_kind (k : kind) : BM field :=
  match k with
  | KByte => v ← read_byte; mret (FByte v)
  | KUshort => v ← read_ushort; mret (FUshort v)
  | KUint => v ← read_uint; mret (FUint v)
  | KUlong => v ← read_ulong; mret (FUlong v)
  | KShort => v ← read_short; mret (FShort v)
  | KInt => v ← read_int; mret (FInt v)
  | KLong => v ← read_long; mret (FLong v)
  | KString => s ← read_string; mret (FString s)
  | KBlob => l ← read_blob; mret (FBlob l)
  end.

(** The C++ type of the argument, and the size limits the writes check. *)
Definition field_valid (f : field) : Prop :=
  match f with
  | FByte v => is_u8 v | FUshort v => is_u16 v | FUint v => is_u32 v | FUlong v => is_u64 v
  | FShort v => is_sint 16 v | FInt v => is_sint 32 v | FLong v => is_sint 64 v
  | FString s => str_size s <= INT16_MAX
  | FBlob l => lenZ l <= INT32_MAX
  end.

Definition field_bytes (f : field) : list byte :=
  match f with
  | FByte v => be_encode 1 v | FUshort v => be_encode 2 v | FUint v => be_encode 4 v
  | FUlong v => be_encode 8 v | FShort v => be_encode 2 v | FInt v => be_encode 4 v
  | FLong v => be_encode 8 v | FString s => enc_string s | FBlob l => enc_blob l
  end.

Fixpoint read_kinds (ks : list kind) : BM (list field) :=
  match ks with
  | [] => mret []
  | k :: ks => f ← read_kind k; fs ← read_kinds ks; mret (f :: fs)
  end.

Lemma writes_field f : field_valid f -> writes (write_field f) (field_bytes f).
Proof. destruct f; simpl; auto with hare. Qed.

Lemma reads_field f : field_valid f -> reads (read_kind (kind_of f)) (field_bytes f) f.
Proof.
  destruct f; simpl; intros Hv;
  match goal with |- reads (_ ≫= _) _ (?c ?v) => apply (reads_fmap _ c) end; auto with hare.
Qed.

Lemma reads_fields fs :
  Forall field_valid fs -> reads (read_kinds (map kind_of fs)) (concat (map field_bytes fs)) fs.
Proof.
  induction 1 as [|f fs Hf Hfs IH]; simpl; [apply reads_ret|].
  eapply reads_bind; [now apply reads_field|]. now apply (reads_fmap _ (cons f)).
Qed.

Lemma empty_at_end : at_end empty_buffer.
Proof. unfold at_end, buf_wf, empty_buffer, buffer_size. simpl. rewrite lenZ_nil. unfold_words. lia. Qed.

(** Reading back the bytes [bs] just written to a fresh buffer. *)
Lemma reads_append_empty {A} (m : BM A) bs a :
  reads m bs a -> lenZ bs <= UINT32_MAX ->
  m (append bs empty_buffer) = (Val a, advance (lenZ bs) (append bs empty_buffer)).
Proof.
  intros Hm Hl. assert (at_end (append bs empty_buffer)) as [Hwf Hend].
  { apply append_at_end; [apply empty_at_end|]. exact Hl. }
  apply (Hm _ []); [done| |].
  - pose proof (size_nonneg (append bs empty_buffer)). simpl. lia.
  - simpl. unfold remaining. simpl. now rewrite app_nil_r.
Qed.

(** Writing any sequence of valid fields to a fresh buffer succeeds when
    the bytes fit in 32 bits, and reading back the same kinds of fields from
    the first byte returns the same values and leaves nothing unread. *)
Theorem fields_roundtrip fs :
  Forall field_valid fs -> lenZ (concat (map field_bytes fs)) <= UINT32_MAX ->
  exists b, st_iter write_field fs empty_buffer = (Val tt, b) /\
    m_read_cursor b = 0 /\
    read_kinds (map kind_of fs) b = (Val fs, advance (buffer_size b) b).
Proof.
  intros Hfs Hl. exists (append (concat (map field_bytes fs)) empty_buffer). split; [|split].
  - apply writes_iter; [|apply empty_at_end|exact Hl].
    eapply Forall_impl; [exact Hfs|]. intros f. apply writes_field.
  - reflexivity.
  - rewrite (reads_append_empty _ _ _ (reads_fields fs Hfs) Hl). reflexivity.
Qed.

Lemma fields_roundtrip_witness :
  exists b, st_iter write_field [FUshort 7; FString "stream"; FInt (-1); FBlob [x01]] empty_buffer
            = (Val tt, b) /\ m_read_cursor b = 0 /\
    read_kinds [KUshort; KString; KInt; KBlob] b =
      (Val [FUshort 7; FString "stream"; FInt (-1); FBlob [x01]], advance (buffer_size b) b).
Proof.
  apply (fields_roundtrip [FUshort 7; FString "stream"; FInt (-1); FBlob [x01]]).
  - repeat constructor; vm_compute; congruence.
  - vm_compute. congruence.
Defined.

(** ** Any sequence of operations

    The public member functions that change a buffer, with their arguments. *)

Inductive buffer_op :=
| OpReserve (size : Z) | OpResize (size : Z) | OpClear | OpResetCursors
| OpReadCursor (cursor : Z) | OpWriteCursor (cursor : Z)
| OpRead (k : kind) | OpReadBytes (count : Z) | OpReadArray (k : kind)
| OpWrite (f : field) | OpWriteBytes (bs : list byte) | OpWriteArray (fs : list field).

(** The arguments fit their C++ types. *)
Definition op_valid (op : buffer_op) : Prop :=
  match op with
  | OpReserve n | OpResize n | OpReadCursor n | OpWriteCursor n => is_u64 n
  | OpReadBytes n => is_u32 n
  | _ => True
  end.

Definition run_op (op : buffer_op) : BM unit :=
  match op with
  | OpReserve n => buffer_reserve n
  | OpResize n => buffer_resize n
  | OpClear => buffer_clear
  | OpResetCursors => reset_cursors
  | OpReadCursor n => set_read_cursor n
  | OpWriteCursor n => set_write_cursor n
  | OpRead k => _ ← read_kind k; mret tt
  | OpReadBytes n => _ ← read_bytes n; mret tt
  | OpReadArray k => _ ← read_array (read_kind k); mret tt
  | OpWrite f => write_field f
  | OpWriteBytes bs => write_bytes bs
  | OpWriteArray fs => write_array write_field fs
  end.

(** The caller catches what an operation throws and goes on. *)
Definition run_ops (ops : list buffer_op) (b : BinaryBuffer) : BinaryBuffer :=
  fold_left (fun b op => (run_op op b).2) ops b.

(** [keeps_wf m]: [m] keeps the invariant and throws only [StreamException]s;
    in particular it does not run into undefined behaviour. *)
Definition keeps_wf {A} (m : BM A) : Prop :=
  forall b, buf_wf b -> buf_wf (m b).2 /\
  match (m b).1 with Val _ => True | Throw e => is_StreamException e = true end.

Lemma parses_keeps_wf {A} (m : BM A) P : parses m P -> keeps_wf m.
Proof.
  intros Hm b Hwf. specialize (Hm b Hwf). destruct (m b) as [r b']. destruct Hm as (E & Hc & Hr).
  simpl. rewrite E. split; [now apply with_read_cursor_wf | now destruct r].
Qed.

Lemma keeps_wf_ret {A} (a : A) : keeps_wf (mret a).
Proof. now intros b Hwf. Qed.

Lemma keeps_wf_bind {A B} (m : BM A) (f : A -> BM B) :
  keeps_wf m -> (forall a, keeps_wf (f a)) -> keeps_wf (m ≫= f).
Proof.
  intros Hm Hf b Hwf. specialize (Hm b Hwf). unfold mbind, ST_bind.
  destruct (m b) as [[a|e] b1]; simpl in *; [now apply Hf | done].
Qed.

Lemma keeps_wf_write_raw bs : keeps_wf (write_raw bs).
Proof.
  intros b Hwf. rewrite write_raw_spec by done. destruct Hwf as (Hs & Hr & Hw).
  destruct (Z.ltb_spec (UINT32_MAX - m_write_cursor b) (lenZ bs)); simpl; [done|].
  split; [|done]. unfold buf_wf, buffer_size. simpl.
  rewrite lenZ_app, lenZ_vector_resize by lia. pose proof (lenZ_nonneg bs). lia.
Qed.

Lemma keeps_wf_write_field f : keeps_wf (write_field f).
Proof.
  assert (forall bs, keeps_wf (write_bytes bs)).
  { intros bs. unfold write_bytes. destruct (_ =? _); [apply keeps_wf_ret | apply keeps_wf_write_raw]. }
  destruct f; try apply keeps_wf_write_raw;
    unfold write_field, write_string, write_blob; (destruct (_ <? _); [done|]);
    (apply keeps_wf_bind; [apply keeps_wf_write_raw|]); intros _;
    destruct (_ =? _); auto using keeps_wf_ret.
Qed.

Lemma keeps_wf_iter {X} (f : X -> BM unit) xs :
  (forall x, keeps_wf (f x)) -> keeps_wf (st_iter f xs).
Proof. intros Hf. induction xs; [apply keeps_wf_ret|]. now apply keeps_wf_bind. Qed.

Lemma keeps_wf_write_bytes bs : keeps_wf (write_bytes bs).
Proof. unfold write_bytes. destruct (_ =? _); [apply keeps_wf_ret | apply keeps_wf_write_raw]. Qed.

Lemma keeps_wf_write_string s : keeps_wf (write_string s).
Proof. exact (keeps_wf_write_field (FString s)). Qed.

Lemma keeps_wf_write_blob l : keeps_wf (write_blob l).
Proof. exact (keeps_wf_write_field (FBlob l)). Qed.

Lemma keeps_wf_write_array {X} (wr : X -> BM unit) xs :
  (forall x, keeps_wf (wr x)) -> keeps_wf (write_array wr xs).
Proof.
  intros Hwr. unfold write_array. destruct (_ <? _); [done|].
  apply keeps_wf_bind; [apply keeps_wf_write_raw|]. intros _. now apply keeps_wf_iter.
Qed.

Lemma keeps_wf_reserve n : keeps_wf (buffer_reserve n).
Proof. unfold buffer_reserve. destruct (_ <? _); [done | apply keeps_wf_ret]. Qed.

Create HintDb keeps.
#[export] Hint Resolve keeps_wf_ret keeps_wf_write_raw keeps_wf_write_bytes keeps_wf_write_string
  keeps_wf_write_blob keeps_wf_write_array keeps_wf_reserve : keeps.
#[export] Hint Extern 1 (keeps_wf (_ ≫= _)) => apply keeps_wf_bind; [|intros ?] : keeps.

Lemma parses_kind k : parses (read_kind k) (fun _ => True).
Proof.
  destruct k; simpl; (eapply parses_bind; [eauto with hare|]); intros; now apply parses_ret.
Qed.

Lemma run_op_wf op : op_valid op -> keeps_wf (run_op op).
Proof.
  destruct op as [n|n| | |n|n|k|n|k|f|bs|fs]; simpl; intros Hv.
  - apply keeps_wf_reserve.
  - unfold buffer_resize. destruct (Z.ltb_spec UINT32_MAX n); [done|]. intros b (Hs & Hr & Hw).
    simpl. split; [|done]. unfold buf_wf, buffer_size. simpl.
    rewrite lenZ_vector_resize by (unfold_words; lia). lia.
  - intros b _. cbn. unfold buf_wf, buffer_size. simpl. rewrite lenZ_nil. unfold_words. lia.
  - intros b (Hs & Hr & Hw). cbn. unfold buf_wf, buffer_size in *. simpl. unfold_words. lia.
  - intros b Hwf. unfold set_read_cursor, mbind, ST_bind. simpl.
    destruct (Z.ltb_spec (buffer_size b) n); simpl; [done|].
    unfold buf_wf, buffer_size in *. simpl. unfold_words. lia.
  - intros b Hwf. unfold set_write_cursor, mbind, ST_bind. simpl.
    destruct (Z.ltb_spec (buffer_size b) n); simpl; [done|].
    unfold buf_wf, buffer_size in *. simpl. unfold_words. lia.
  - apply keeps_wf_bind; [|intros; apply keeps_wf_ret]. eapply parses_keeps_wf, parses_kind.
  - apply keeps_wf_bind; [|intros; apply keeps_wf_ret].
    eapply parses_keeps_wf, parses_bytes. unfold_words. lia.
  - apply keeps_wf_bind; [|intros; apply keeps_wf_ret].
    eapply parses_keeps_wf, parses_array, parses_kind.
  - apply keeps_wf_write_field.
  - apply keeps_wf_write_bytes.
  - apply keeps_wf_write_array, keeps_wf_write_field.
Qed.

(** From a fresh buffer, any sequence of calls of its member functions,
    with exceptions caught between them, keeps the size and the cursors within
    32 bits, and no call reads or writes outside the vector: the next call
    returns or throws a [StreamException]. *)
Theorem buffer_ops_safe ops op :
  Forall op_valid ops -> op_valid op ->
  buf_wf (run_ops ops empty_buffer) /\
  match (run_op op (run_ops ops empty_buffer)).1 with
  | Val _ => True
  | Throw e => is_StreamException e = true
  end.
Proof.
  intros Hops Hop.
  assert (forall b, buf_wf b -> buf_wf (run_ops ops b)) as Hrun.
  { induction Hops as [|o ops Ho Hops IH]; intros b Hb; [done|]. apply IH, run_op_wf; done. }
  specialize (Hrun _ (proj1 empty_at_end)). split; [done|]. now apply run_op_wf.
Qed.

Lemma buffer_ops_safe_witness :
  buf_wf (run_ops [OpResize 8; OpRead KInt; OpResize 1; OpWrite (FString "ab")] empty_buffer) /\
  match (run_op (OpRead KLong)
          (run_ops [OpResize 8; OpRead KInt; OpResize 1; OpWrite (FString "ab")] empty_buffer)).1 with
  | Val _ => True
  | Throw e => is_StreamException e = true
  end.
Proof.
  apply buffer_ops_safe; [|exact I].
  repeat constructor; vm_compute; congruence.
Defined.

(** a write first cuts or zero-fills the vector to the write cursor and then
    appends, so a write below the end discards everything after it; it is
    refused, with the buffer unchanged, exactly when the new end would exceed
    32 bits. *)
Lemma write_bytes_spec bs b :
  buf_wf b -> bs <> [] ->
  write_bytes bs b =
    if UINT32_MAX - m_write_cursor b <? lenZ bs
    then (Throw (InvalidInputException MAX_SIZE_MESSAGE), b)
    else (Val tt, MkBinaryBuffer (vector_resize (m_write_cursor b) (m_bytes b) ++ bs)
                                 (m_read_cursor b) (m_write_cursor b + lenZ bs)).
Proof.
  intros Hwf Hne. unfold write_bytes.
  destruct (Z.eqb_spec (lenZ bs) 0) as [E|]; [now apply lenZ_0_nil in E|].
  now apply write_raw_spec.
Qed.
