(* ===== verification/ClientCommands.v ===== *)
(** * The frames the client sends

    Models the client half of [include/hareflow/detail/commands.h] and
    [src/commands.cpp].  Each command class is a record of its members with
    its [body_size] and its [write_body]; the base classes [ClientCommand] and
    [ClientRequestOrResponse] are type classes, whose instances give the
    [Serializable] interface that [ClientImpl::send_frame] works with. *)

From S2P Require Import Prelude Words OrdMap Types BinaryBuffer.

(** ** Command keys *)

Inductive CommandKey :=
| KeyDeclarePublisher | KeyPublish | KeyPublishConfirm | KeyPublishError
| KeyQueryPublisherSequence | KeyDeletePublisher | KeySubscribe | KeyDeliver
| KeyCredit | KeyStoreOffset | KeyQueryOffset | KeyUnsubscribe | KeyCreate
| KeyDelete | KeyMetadata | KeyMetadataUpdate | KeyPeerProperties
| KeySaslHandshake | KeySaslAuthenticate | KeyTune | KeyOpen | KeyClose
| KeyHeartbeat | KeyRoute | KeyPartitions | KeyExchangeCommandVersions.

#[export] Instance CommandKey_eq_dec : EqDecision CommandKey.
Proof. solve_decision. Defined.

Definition key_value (k : CommandKey) : Z :=
  match k with
  | KeyDeclarePublisher => 0x0001
  | KeyPublish => 0x0002
  | KeyPublishConfirm => 0x0003
  | KeyPublishError => 0x0004
  | KeyQueryPublisherSequence => 0x0005
  | KeyDeletePublisher => 0x0006
  | KeySubscribe => 0x0007
  | KeyDeliver => 0x0008
  | KeyCredit => 0x0009
  | KeyStoreOffset => 0x000a
  | KeyQueryOffset => 0x000b
  | KeyUnsubscribe => 0x000c
  | KeyCreate => 0x000d
  | KeyDelete => 0x000e
  | KeyMetadata => 0x000f
  | KeyMetadataUpdate => 0x0010
  | KeyPeerProperties => 0x0011
  | KeySaslHandshake => 0x0012
  | KeySaslAuthenticate => 0x0013
  | KeyTune => 0x0014
  | KeyOpen => 0x0015
  | KeyClose => 0x0016
  | KeyHeartbeat => 0x0017
  | KeyRoute => 0x0018
  | KeyPartitions => 0x0019
  | KeyExchangeCommandVersions => 0x001b
  end.

(** ** The base classes *)

Class Serializable (T : Type) := {
  serialized_size : T -> Z;
  serialize : T -> BM unit
}.

(** [ClientCommand]: [m_version] is 1 in every object. *)
Class ClientCommand (T : Type) := {
  cmd_key : T -> Z;
  cmd_body_size : T -> Z;
  cmd_write_body : T -> BM unit
}.

Definition ClientCommand_header_size : Z := 2 + 2.

Definition ClientCommand_write_header (key : Z) : BM unit :=
  write_ushort key ;; write_ushort 1.

#[export] Instance ClientCommand_Serializable {T} `{ClientCommand T} : Serializable T := {|
  serialized_size c := ClientCommand_header_size + cmd_body_size c;
  serialize c := ClientCommand_write_header (cmd_key c) ;; cmd_write_body c
|}.

(** [ClientRequest] and [ClientResponse] add nothing to
    [ClientRequestOrResponse]. *)
Class ClientRequestOrResponse (T : Type) := {
  req_key : T -> Z;
  req_correlation_id : T -> Z;
  req_body_size : T -> Z;
  req_write_body : T -> BM unit
}.

Definition ClientRequestOrResponse_header_size : Z := 2 + 2 + 4.

Definition ClientRequestOrResponse_write_header (key correlation_id : Z) : BM unit :=
  write_ushort key ;; write_ushort 1 ;; write_uint correlation_id.

#[export] Instance ClientRequestOrResponse_Serializable {T} `{ClientRequestOrResponse T} :
  Serializable T := {|
  serialized_size c := ClientRequestOrResponse_header_size + req_body_size c;
  serialize c :=
    ClientRequestOrResponse_write_header (req_key c) (req_correlation_id c) ;; req_write_body c
|}.

(** The element sizes and writes of [Properties], which four commands share. *)
Definition property_size (elem : string * string) : Z :=
  serialized_size_string elem.1 + serialized_size_string elem.2.
Definition write_property (elem : string * string) : BM unit :=
  write_string elem.1 ;; write_string elem.2.

(** ** DeclarePublisherRequest *)

Record DeclarePublisherRequest := MkDeclarePublisherRequest {
  DeclarePublisher_correlation_id : Z;
  DeclarePublisher_publisher_id : Z;
  DeclarePublisher_publisher_name : string;
  DeclarePublisher_stream_name : string
}.

Definition DeclarePublisherRequest_body_size (c : DeclarePublisherRequest) : Z :=
  1 + serialized_size_string (DeclarePublisher_publisher_name c)
    + serialized_size_string (DeclarePublisher_stream_name c).

Definition DeclarePublisherRequest_write_body (c : DeclarePublisherRequest) : BM unit :=
  write_byte (DeclarePublisher_publisher_id c) ;;
  write_string (DeclarePublisher_publisher_name c) ;;
  write_string (DeclarePublisher_stream_name c).

#[export] Instance DeclarePublisherRequest_frame : ClientRequestOrResponse DeclarePublisherRequest := {|
  req_key _ := key_value KeyDeclarePublisher;
  req_correlation_id := DeclarePublisher_correlation_id;
  req_body_size := DeclarePublisherRequest_body_size;
  req_write_body := DeclarePublisherRequest_write_body
|}.

(** ** PublishCommand *)

Record PublishMessage := MkPublishMessage {
  pm_publishing_id : Z;
  pm_body : list byte
}.

Definition PublishMessage_serialized_size (m : PublishMessage) : Z :=
  8 + serialized_size_blob (pm_body m).

Record PublishCommand := MkPublishCommand {
  Publish_publisher_id : Z;
  Publish_messages : list PublishMessage
}.

Definition PublishCommand_body_size (c : PublishCommand) : Z :=
  1 + serialized_size_array PublishMessage_serialized_size (Publish_messages c).

Definition PublishMessage_write (elem : PublishMessage) : BM unit :=
  write_ulong (pm_publishing_id elem) ;;
  write_blob (pm_body elem).

Definition PublishCommand_write_body (c : PublishCommand) : BM unit :=
  write_byte (Publish_publisher_id c) ;;
  write_array PublishMessage_write (Publish_messages c).

#[export] Instance PublishCommand_frame : ClientCommand PublishCommand := {|
  cmd_key _ := key_value KeyPublish;
  cmd_body_size := PublishCommand_body_size;
  cmd_write_body := PublishCommand_write_body
|}.

Definition BASE_SERIALIZED_SIZE : Z := serialized_size (MkPublishCommand 0 []).

(** ** QueryPublisherSequenceRequest *)

Record QueryPublisherSequenceRequest := MkQueryPublisherSequenceRequest {
  QueryPublisherSequence_correlation_id : Z;
  QueryPublisherSequence_publisher_name : string;
  QueryPublisherSequence_stream_name : string
}.

Definition QueryPublisherSequenceRequest_body_size (c : QueryPublisherSequenceRequest) : Z :=
  serialized_size_string (QueryPublisherSequence_publisher_name c)
  + serialized_size_string (QueryPublisherSequence_stream_name c).

Definition QueryPublisherSequenceRequest_write_body (c : QueryPublisherSequenceRequest) : BM unit :=
  write_string (QueryPublisherSequence_publisher_name c) ;;
  write_string (QueryPublisherSequence_stream_name c).

#[export] Instance QueryPublisherSequenceRequest_frame :
  ClientRequestOrResponse QueryPublisherSequenceRequest := {|
  req_key _ := key_value KeyQueryPublisherSequence;
  req_correlation_id := QueryPublisherSequence_correlation_id;
  req_body_size := QueryPublisherSequenceRequest_body_size;
  req_write_body := QueryPublisherSequenceRequest_write_body
|}.

(** ** DeletePublisherRequest *)

Record DeletePublisherRequest := MkDeletePublisherRequest {
  DeletePublisher_correlation_id : Z;
  DeletePublisher_publisher_id : Z
}.

Definition DeletePublisherRequest_body_size (c : DeletePublisherRequest) : Z := 1.

Definition DeletePublisherRequest_write_body (c : DeletePublisherRequest) : BM unit :=
  write_byte (DeletePublisher_publisher_id c).

#[export] Instance DeletePublisherRequest_frame : ClientRequestOrResponse DeletePublisherRequest := {|
  req_key _ := key_value KeyDeletePublisher;
  req_correlation_id := DeletePublisher_correlation_id;
  req_body_size := DeletePublisherRequest_body_size;
  req_write_body := DeletePublisherRequest_write_body
|}.

(** ** SubscribeRequest *)

Record SubscribeRequest := MkSubscribeRequest {
  Subscribe_correlation_id : Z;
  Subscribe_subscription_id : Z;
  Subscribe_stream_name : string;
  Subscribe_offset : OffsetSpecification;
  Subscribe_credit : Z;
  Subscribe_properties : Properties
}.

Definition SubscribeRequest_body_size (c : SubscribeRequest) : Z :=
  let size := 1 + serialized_size_string (Subscribe_stream_name c) + 2 in
  let size := if os_is_offset (Subscribe_offset c) || os_is_timestamp (Subscribe_offset c)
              then size + 8 else size in
  let size := size + 2 in
  size + serialized_size_array property_size (Subscribe_properties c).

Definition SubscribeRequest_write_body (c : SubscribeRequest) : BM unit :=
  write_byte (Subscribe_subscription_id c) ;;
  write_string (Subscribe_stream_name c) ;;
  write_ushort (os_type (Subscribe_offset c)) ;;
  (if os_is_offset (Subscribe_offset c) || os_is_timestamp (Subscribe_offset c)
   then write_ulong (os_offset (Subscribe_offset c)) else mret tt) ;;
  write_ushort (Subscribe_credit c) ;;
  write_array write_property (Subscribe_properties c).

#[export] Instance SubscribeRequest_frame : ClientRequestOrResponse SubscribeRequest := {|
  req_key _ := key_value KeySubscribe;
  req_correlation_id := Subscribe_correlation_id;
  req_body_size := SubscribeRequest_body_size;
  req_write_body := SubscribeRequest_write_body
|}.

(** ** CreditCommand *)

Record CreditCommand := MkCreditCommand {
  Credit_subscription_id : Z;
  Credit_credit : Z
}.

Definition CreditCommand_body_size (c : CreditCommand) : Z := 1 + 2.

Definition CreditCommand_write_body (c : CreditCommand) : BM unit :=
  write_byte (Credit_subscription_id c) ;;
  write_ushort (Credit_credit c).

#[export] Instance CreditCommand_frame : ClientCommand CreditCommand := {|
  cmd_key _ := key_value KeyCredit;
  cmd_body_size := CreditCommand_body_size;
  cmd_write_body := CreditCommand_write_body
|}.

(** ** StoreOffsetCommand *)

Record StoreOffsetCommand := MkStoreOffsetCommand {
  StoreOffset_reference : string;
  StoreOffset_stream_name : string;
  StoreOffset_offset : Z
}.

Definition StoreOffsetCommand_body_size (c : StoreOffsetCommand) : Z :=
  serialized_size_string (StoreOffset_reference c)
  + serialized_size_string (StoreOffset_stream_name c) + 8.

Definition StoreOffsetCommand_write_body (c : StoreOffsetCommand) : BM unit :=
  write_string (StoreOffset_reference c) ;;
  write_string (StoreOffset_stream_name c) ;;
  write_ulong (StoreOffset_offset c).

#[export] Instance StoreOffsetCommand_frame : ClientCommand StoreOffsetCommand := {|
  cmd_key _ := key_value KeyStoreOffset;
  cmd_body_size := StoreOffsetCommand_body_size;
  cmd_write_body := StoreOffsetCommand_write_body
|}.

(** ** QueryOffsetRequest *)

Record QueryOffsetRequest := MkQueryOffsetRequest {
  QueryOffset_correlation_id : Z;
  QueryOffset_reference : string;
  QueryOffset_stream_name : string
}.

Definition QueryOffsetRequest_body_size (c : QueryOffsetRequest) : Z :=
  serialized_size_string (QueryOffset_reference c)
  + serialized_size_string (QueryOffset_stream_name c).

Definition QueryOffsetRequest_write_body (c : QueryOffsetRequest) : BM unit :=
  write_string (QueryOffset_reference c) ;;
  write_string (QueryOffset_stream_name c).

#[export] Instance QueryOffsetRequest_frame : ClientRequestOrResponse QueryOffsetRequest := {|
  req_key _ := key_value KeyQueryOffset;
  req_correlation_id := QueryOffset_correlation_id;
  req_body_size := QueryOffsetRequest_body_size;
  req_write_body := QueryOffsetRequest_write_body
|}.

(** ** UnsubscribeRequest *)

Record UnsubscribeRequest := MkUnsubscribeRequest {
  Unsubscribe_correlation_id : Z;
  Unsubscribe_subscription_id : Z
}.

Definition UnsubscribeRequest_body_size (c : UnsubscribeRequest) : Z := 1.

Definition UnsubscribeRequest_write_body (c : UnsubscribeRequest) : BM unit :=
  write_byte (Unsubscribe_subscription_id c).

#[export] Instance UnsubscribeRequest_frame : ClientRequestOrResponse UnsubscribeRequest := {|
  req_key _ := key_value KeyUnsubscribe;
  req_correlation_id := Unsubscribe_correlation_id;
  req_body_size := UnsubscribeRequest_body_size;
  req_write_body := UnsubscribeRequest_write_body
|}.

(** ** CreateRequest *)

Record CreateRequest := MkCreateRequest {
  Create_correlation_id : Z;
  Create_stream_name : string;
  Create_arguments : Properties
}.

Definition CreateRequest_body_size (c : CreateRequest) : Z :=
  serialized_size_string (Create_stream_name c)
  + serialized_size_array property_size (Create_arguments c).

Definition CreateRequest_write_body (c : CreateRequest) : BM unit :=
  write_string (Create_stream_name c) ;;
  write_array write_property (Create_arguments c).

#[export] Instance CreateRequest_frame : ClientRequestOrResponse CreateRequest := {|
  req_key _ := key_value KeyCreate;
  req_correlation_id := Create_correlation_id;
  req_body_size := CreateRequest_body_size;
  req_write_body := CreateRequest_write_body
|}.

(** ** DeleteRequest *)

Record DeleteRequest := MkDeleteRequest {
  Delete_correlation_id : Z;
  Delete_stream_name : string
}.

Definition DeleteRequest_body_size (c : DeleteRequest) : Z :=
  serialized_size_string (Delete_stream_name c).

Definition DeleteRequest_write_body (c : DeleteRequest) : BM unit :=
  write_string (Delete_stream_name c).

#[export] Instance DeleteRequest_frame : ClientRequestOrResponse DeleteRequest := {|
  req_key _ := key_value KeyDelete;
  req_correlation_id := Delete_correlation_id;
  req_body_size := DeleteRequest_body_size;
  req_write_body := DeleteRequest_write_body
|}.

(** ** MetadataRequest *)

Record MetadataRequest := MkMetadataRequest {
  Metadata_correlation_id : Z;
  Metadata_stream_names : list string
}.

Definition MetadataRequest_body_size (c : MetadataRequest) : Z :=
  serialized_size_array serialized_size_string (Metadata_stream_names c).

Definition MetadataRequest_write_body (c : MetadataRequest) : BM unit :=
  write_array write_string (Metadata_stream_names c).

#[export] Instance MetadataRequest_frame : ClientRequestOrResponse MetadataRequest := {|
  req_key _ := key_value KeyMetadata;
  req_correlation_id := Metadata_correlation_id;
  req_body_size := MetadataRequest_body_size;
  req_write_body := MetadataRequest_write_body
|}.

(** ** PeerPropertiesRequest *)

Record PeerPropertiesRequest := MkPeerPropertiesRequest {
  PeerProperties_correlation_id : Z;
  PeerProperties_properties : Properties
}.

Definition PeerPropertiesRequest_body_size (c : PeerPropertiesRequest) : Z :=
  serialized_size_array property_size (PeerProperties_properties c).

Definition PeerPropertiesRequest_write_body (c : PeerPropertiesRequest) : BM unit :=
  write_array write_property (PeerProperties_properties c).

#[export] Instance PeerPropertiesRequest_frame : ClientRequestOrResponse PeerPropertiesRequest := {|
  req_key _ := key_value KeyPeerProperties;
  req_correlation_id := PeerProperties_correlation_id;
  req_body_size := PeerPropertiesRequest_body_size;
  req_write_body := PeerPropertiesRequest_write_body
|}.

(** ** SaslHandshakeRequest *)

Record SaslHandshakeRequest := MkSaslHandshakeRequest {
  SaslHandshake_correlation_id : Z
}.

Definition SaslHandshakeRequest_body_size (c : SaslHandshakeRequest) : Z := 0.

Definition SaslHandshakeRequest_write_body (c : SaslHandshakeRequest) : BM unit := mret tt.

#[export] Instance SaslHandshakeRequest_frame : ClientRequestOrResponse SaslHandshakeRequest := {|
  req_key _ := key_value KeySaslHandshake;
  req_correlation_id := SaslHandshake_correlation_id;
  req_body_size := SaslHandshakeRequest_body_size;
  req_write_body := SaslHandshakeRequest_write_body
|}.

(** ** SaslAuthenticateRequest *)

Record SaslAuthenticateRequest := MkSaslAuthenticateRequest {
  SaslAuthenticate_correlation_id : Z;
  SaslAuthenticate_mechanism : string;
  SaslAuthenticate_opaque_data : list byte
}.

Definition SaslAuthenticateRequest_body_size (c : SaslAuthenticateRequest) : Z :=
  serialized_size_string (SaslAuthenticate_mechanism c)
  + serialized_size_blob (SaslAuthenticate_opaque_data c).

Definition SaslAuthenticateRequest_write_body (c : SaslAuthenticateRequest) : BM unit :=
  write_string (SaslAuthenticate_mechanism c) ;;
  write_blob (SaslAuthenticate_opaque_data c).

#[export] Instance SaslAuthenticateRequest_frame :
  ClientRequestOrResponse SaslAuthenticateRequest := {|
  req_key _ := key_value KeySaslAuthenticate;
  req_correlation_id := SaslAuthenticate_correlation_id;
  req_body_size := SaslAuthenticateRequest_body_size;
  req_write_body := SaslAuthenticateRequest_write_body
|}.

(** ** ClientTuneCommand *)

Record ClientTuneCommand := MkClientTuneCommand {
  ClientTune_frame_size : Z;
  ClientTune_heartbeat : Z
}.

Definition ClientTuneCommand_body_size (c : ClientTuneCommand) : Z := 4 + 4.

Definition ClientTuneCommand_write_body (c : ClientTuneCommand) : BM unit :=
  write_uint (ClientTune_frame_size c) ;;
  write_uint (ClientTune_heartbeat c).

#[export] Instance ClientTuneCommand_frame : ClientCommand ClientTuneCommand := {|
  cmd_key _ := Z.lor 0x8000 (key_value KeyTune);
  cmd_body_size := ClientTuneCommand_body_size;
  cmd_write_body := ClientTuneCommand_write_body
|}.

(** ** OpenRequest *)

Record OpenRequest := MkOpenRequest {
  Open_correlation_id : Z;
  Open_virtual_host : string
}.

Definition OpenRequest_body_size (c : OpenRequest) : Z :=
  serialized_size_string (Open_virtual_host c).

Definition OpenRequest_write_body (c : OpenRequest) : BM unit :=
  write_string (Open_virtual_host c).

#[export] Instance OpenRequest_frame : ClientRequestOrResponse OpenRequest := {|
  req_key _ := key_value KeyOpen;
  req_correlation_id := Open_correlation_id;
  req_body_size := OpenRequest_body_size;
  req_write_body := OpenRequest_write_body
|}.

(** ** ClientCloseRequest *)

Record ClientCloseRequest := MkClientCloseRequest {
  ClientClose_correlation_id : Z;
  ClientClose_code : Z;
  ClientClose_reason : string
}.

Definition ClientCloseRequest_body_size (c : ClientCloseRequest) : Z :=
  2 + serialized_size_string (ClientClose_reason c).

Definition ClientCloseRequest_write_body (c : ClientCloseRequest) : BM unit :=
  write_ushort (ClientClose_code c) ;;
  write_string (ClientClose_reason c).

#[export] Instance ClientCloseRequest_frame : ClientRequestOrResponse ClientCloseRequest := {|
  req_key _ := key_value KeyClose;
  req_correlation_id := ClientClose_correlation_id;
  req_body_size := ClientCloseRequest_body_size;
  req_write_body := ClientCloseRequest_write_body
|}.

(** ** ClientCloseResponse *)

Record ClientCloseResponse := MkClientCloseResponse {
  CloseResponse_correlation_id : Z;
  CloseResponse_response_code : Z
}.

Definition ClientCloseResponse_body_size (c : ClientCloseResponse) : Z := 2.

Definition ClientCloseResponse_write_body (c : ClientCloseResponse) : BM unit :=
  write_ushort (CloseResponse_response_code c).

#[export] Instance ClientCloseResponse_frame : ClientRequestOrResponse ClientCloseResponse := {|
  req_key _ := Z.lor 0x8000 (key_value KeyClose);
  req_correlation_id := CloseResponse_correlation_id;
  req_body_size := ClientCloseResponse_body_size;
  req_write_body := ClientCloseResponse_write_body
|}.

(** ** ClientHeartbeatCommand *)

Record ClientHeartbeatCommand := MkClientHeartbeatCommand {}.

Definition ClientHeartbeatCommand_body_size (c : ClientHeartbeatCommand) : Z := 0.

Definition ClientHeartbeatCommand_write_body (c : ClientHeartbeatCommand) : BM unit := mret tt.

#[export] Instance ClientHeartbeatCommand_frame : ClientCommand ClientHeartbeatCommand := {|
  cmd_key _ := key_value KeyHeartbeat;
  cmd_body_size := ClientHeartbeatCommand_body_size;
  cmd_write_body := ClientHeartbeatCommand_write_body
|}.

(** ** ExchangeCommandVersionsRequest *)

Record CommandVersion := MkCommandVersion {
  cv_key : Z;
  cv_min_version : Z;
  cv_max_version : Z
}.

Record ExchangeCommandVersionsRequest := MkExchangeCommandVersionsRequest {
  ExchangeVersions_correlation_id : Z;
  ExchangeVersions_command_versions : list CommandVersion
}.

Definition ExchangeCommandVersionsRequest_body_size (c : ExchangeCommandVersionsRequest) : Z :=
  serialized_size_array (fun elem => 2 + 2 + 2) (ExchangeVersions_command_versions c).

Definition CommandVersion_write (elem : CommandVersion) : BM unit :=
  write_ushort (cv_key elem) ;;
  write_ushort (cv_min_version elem) ;;
  write_ushort (cv_max_version elem).

Definition ExchangeCommandVersionsRequest_write_body (c : ExchangeCommandVersionsRequest) : BM unit :=
  write_array CommandVersion_write (ExchangeVersions_command_versions c).

#[export] Instance ExchangeCommandVersionsRequest_frame :
  ClientRequestOrResponse ExchangeCommandVersionsRequest := {|
  req_key _ := key_value KeyExchangeCommandVersions;
  req_correlation_id := ExchangeVersions_correlation_id;
  req_body_size := ExchangeCommandVersionsRequest_body_size;
  req_write_body := ExchangeCommandVersionsRequest_write_body
|}.

Create HintDb frames.
#[export] Hint Unfold
  DeclarePublisherRequest_body_size PublishCommand_body_size
  QueryPublisherSequenceRequest_body_size DeletePublisherRequest_body_size
  SubscribeRequest_body_size CreditCommand_body_size StoreOffsetCommand_body_size
  QueryOffsetRequest_body_size UnsubscribeRequest_body_size CreateRequest_body_size
  DeleteRequest_body_size MetadataRequest_body_size PeerPropertiesRequest_body_size
  SaslHandshakeRequest_body_size SaslAuthenticateRequest_body_size ClientTuneCommand_body_size
  OpenRequest_body_size ClientCloseRequest_body_size ClientCloseResponse_body_size
  ClientHeartbeatCommand_body_size ExchangeCommandVersionsRequest_body_size
  ClientCommand_header_size ClientRequestOrResponse_header_size DeclarePublisherRequest_write_body
  PublishCommand_write_body QueryPublisherSequenceRequest_write_body
  DeletePublisherRequest_write_body SubscribeRequest_write_body CreditCommand_write_body
  StoreOffsetCommand_write_body QueryOffsetRequest_write_body UnsubscribeRequest_write_body
  CreateRequest_write_body DeleteRequest_write_body MetadataRequest_write_body
  PeerPropertiesRequest_write_body SaslHandshakeRequest_write_body
  SaslAuthenticateRequest_write_body ClientTuneCommand_write_body OpenRequest_write_body
  ClientCloseRequest_write_body ClientCloseResponse_write_body ClientHeartbeatCommand_write_body
  ExchangeCommandVersionsRequest_write_body : frames.
