(* ===== verification/ServerCommands.v ===== *)
(** * The frames the server sends

    Models the server half of [include/hareflow/detail/commands.h] and
    [src/commands.cpp].  Each command class is a record of its members; its
    [deserialize] reads the members from a buffer whose key and version have
    been consumed, and throws what the buffer throws. *)

From S2P Require Import Prelude Words OrdMap Types BinaryBuffer ClientCommands.

(** ** The base classes *)

(** [Deserializable::deserialize] fills a fresh object, which is dropped when it
    throws: the computation returns the object. *)
Class Deserializable (T : Type) := { deserialize : BM T }.

(** A [ServerCommand] has a body only. *)
Class ServerCommand (T : Type) := { cmd_read_body : BM T }.

#[export] Instance ServerCommand_Deserializable {T} `{ServerCommand T} : Deserializable T :=
  {| deserialize := cmd_read_body |}.

(** A [ServerRequestOrResponse] starts with its correlation id. *)
Class ServerRequestOrResponse (T : Type) := {
  srv_read_body : Z -> BM T;
  get_correlation_id : T -> Z
}.

Definition ServerRequestOrResponse_read_header : BM Z := read_uint.

#[export] Instance ServerRequestOrResponse_Deserializable {T} `{ServerRequestOrResponse T} :
  Deserializable T :=
  {| deserialize := corr ← ServerRequestOrResponse_read_header; srv_read_body corr |}.

(** A response that carries a code. *)
Class HasResponseCode (T : Type) := { get_response_code : T -> Z }.

Definition read_property : BM (string * string) :=
  key ← read_string;
  value ← read_string;
  mret (key, value).

(** [read_array] into a [std::map]: each element is inserted. *)
Definition read_properties : BM Properties :=
  kvs ← read_array read_property;
  mret (om_insert_all kvs []).

(** ** PublishConfirmCommand *)

Record PublishConfirmCommand := MkPublishConfirmCommand {
  PublishConfirm_publisher_id : Z;
  PublishConfirm_sequences : list Z
}.

Definition PublishConfirmCommand_read_body : BM PublishConfirmCommand :=
  publisher_id ← read_byte;
  sequences ← read_array read_ulong;
  mret (MkPublishConfirmCommand publisher_id sequences).

#[export] Instance PublishConfirmCommand_frame : ServerCommand PublishConfirmCommand :=
  {| cmd_read_body := PublishConfirmCommand_read_body |}.

(** ** PublishErrorCommand *)

Record PublishingError := MkPublishingError {
  pe_sequence : Z;
  pe_code : Z
}.

Record PublishErrorCommand := MkPublishErrorCommand {
  PublishError_publisher_id : Z;
  PublishError_publishing_errors : list PublishingError
}.

Definition PublishingError_read : BM PublishingError :=
  sequence ← read_ulong;
  code ← read_ushort;
  mret (MkPublishingError sequence code).

Definition PublishErrorCommand_read_body : BM PublishErrorCommand :=
  publisher_id ← read_byte;
  errors ← read_array PublishingError_read;
  mret (MkPublishErrorCommand publisher_id errors).

#[export] Instance PublishErrorCommand_frame : ServerCommand PublishErrorCommand :=
  {| cmd_read_body := PublishErrorCommand_read_body |}.

(** ** QueryPublisherSequenceResponse *)

Record QueryPublisherSequenceResponse := MkQueryPublisherSequenceResponse {
  QueryPublisherSequenceResp_correlation_id : Z;
  QueryPublisherSequenceResp_response_code : Z;
  QueryPublisherSequenceResp_sequence : Z
}.

Definition QueryPublisherSequenceResponse_read_body (corr : Z) : BM QueryPublisherSequenceResponse :=
  code ← read_ushort;
  sequence ← read_ulong;
  mret (MkQueryPublisherSequenceResponse corr code sequence).

#[export] Instance QueryPublisherSequenceResponse_frame :
  ServerRequestOrResponse QueryPublisherSequenceResponse := {|
  srv_read_body := QueryPublisherSequenceResponse_read_body;
  get_correlation_id := QueryPublisherSequenceResp_correlation_id
|}.
#[export] Instance QueryPublisherSequenceResponse_code : HasResponseCode QueryPublisherSequenceResponse :=
  {| get_response_code := QueryPublisherSequenceResp_response_code |}.

(** ** DeliverCommand *)

Record Chunk := MkChunk {
  ch_magic_version : Z;
  ch_chunk_type : Z;
  ch_nb_entries : Z;
  ch_nb_records : Z;
  ch_timestamp : Z;
  ch_epoch : Z;
  ch_offset : Z;
  ch_chunk_crc : Z;
  ch_data_len : Z;
  ch_trailer_len : Z;
  ch_reserved : Z
}.

(** [m_data] is private and only keeps the bytes alive that [m_messages]
    points into; a message is the bytes it points to. *)
Record DeliverCommand := MkDeliverCommand {
  Deliver_subscription_id : Z;
  Deliver_committed_chunk_id : option Z;
  Deliver_chunk : Chunk;
  Deliver_messages : list (list byte)
}.

Definition CHUNK_TYPE_USER : Z := 0.

Definition read_chunk_header : BM Chunk :=
  magic_version ← read_byte;
  chunk_type ← read_byte;
  nb_entries ← read_ushort;
  nb_records ← read_uint;
  timestamp ← read_long;
  epoch ← read_ulong;
  offset ← read_ulong;
  chunk_crc ← read_uint;
  data_len ← read_uint;
  trailer_len ← read_uint;
  reserved ← read_uint;
  mret (MkChunk magic_version chunk_type nb_entries nb_records timestamp epoch offset
                chunk_crc data_len trailer_len reserved).

(** One turn of the loop over the entries, on [m_data]: the top bit of the
    first byte tells a batch of sub entries, otherwise that byte is read again
    as part of the length. *)
Definition read_entry : BM (list byte) :=
  first ← read_byte;
  if negb (Z.land first 0x80 =? 0)
  then st_throw (StreamException "Sub entry batching is not currently supported")
  else
    cursor ← st_gets m_read_cursor;
    set_read_cursor (cursor - 1) ;;
    read_blob.

Definition fill_data (data : list byte) (nb_entries : Z) : BM (list (list byte)) :=
  write_bytes data ;; st_repeat (Z.to_nat nb_entries) read_entry.

(** A computation on a local buffer: its outcome, without its final state. *)
Definition on_local {A} (m : BM A) : BM A := fun b => ((m empty_buffer).1, b).

Definition DeliverCommand_read_body (version : Z) : BM DeliverCommand :=
  subscription_id ← read_byte;
  committed_chunk_id ← (if 2 <=? version then id ← read_ulong; mret (Some id) else mret None);
  chunk ← read_chunk_header;
  data ← read_bytes (ch_data_len chunk);
  messages ← on_local (fill_data data (ch_nb_entries chunk));
  mret (MkDeliverCommand subscription_id committed_chunk_id chunk messages).

(** ** CreditErrorCommand *)

Record CreditErrorCommand := MkCreditErrorCommand {
  CreditError_response_code : Z;
  CreditError_subscription_id : Z
}.

Definition CreditErrorCommand_read_body : BM CreditErrorCommand :=
  code ← read_ushort;
  subscription_id ← read_byte;
  mret (MkCreditErrorCommand code subscription_id).

#[export] Instance CreditErrorCommand_frame : ServerCommand CreditErrorCommand :=
  {| cmd_read_body := CreditErrorCommand_read_body |}.

(** ** QueryOffsetResponse *)

Record QueryOffsetResponse := MkQueryOffsetResponse {
  QueryOffsetResp_correlation_id : Z;
  QueryOffsetResp_response_code : Z;
  QueryOffsetResp_offset : Z
}.

Definition QueryOffsetResponse_read_body (corr : Z) : BM QueryOffsetResponse :=
  code ← read_ushort;
  offset ← read_ulong;
  mret (MkQueryOffsetResponse corr code offset).

#[export] Instance QueryOffsetResponse_frame : ServerRequestOrResponse QueryOffsetResponse := {|
  srv_read_body := QueryOffsetResponse_read_body;
  get_correlation_id := QueryOffsetResp_correlation_id
|}.
#[export] Instance QueryOffsetResponse_code : HasResponseCode QueryOffsetResponse :=
  {| get_response_code := QueryOffsetResp_response_code |}.

(** ** MetadataResponse *)

Record MetadataBroker := MkMetadataBroker {
  mb_reference : Z;
  mb_host : string;
  mb_port : Z
}.

Record MetadataStream := MkMetadataStream {
  ms_stream_name : string;
  ms_code : Z;
  ms_leader : Z;
  ms_replicas : list Z
}.

Record MetadataResponse := MkMetadataResponse {
  MetadataResp_correlation_id : Z;
  MetadataResp_brokers : list MetadataBroker;
  MetadataResp_stream_metadata : list MetadataStream
}.

Definition MetadataBroker_read : BM MetadataBroker :=
  reference ← read_ushort;
  host ← read_string;
  port ← read_uint;
  mret (MkMetadataBroker reference host port).

Definition MetadataStream_read : BM MetadataStream :=
  stream_name ← read_string;
  code ← read_ushort;
  leader ← read_ushort;
  replicas ← read_array read_ushort;
  mret (MkMetadataStream stream_name code leader replicas).

Definition MetadataResponse_read_body (corr : Z) : BM MetadataResponse :=
  brokers ← read_array MetadataBroker_read;
  streams ← read_array MetadataStream_read;
  mret (MkMetadataResponse corr brokers streams).

#[export] Instance MetadataResponse_frame : ServerRequestOrResponse MetadataResponse := {|
  srv_read_body := MetadataResponse_read_body;
  get_correlation_id := MetadataResp_correlation_id
|}.

(** ** MetadataUpdateCommand *)

Record MetadataUpdateCommand := MkMetadataUpdateCommand {
  MetadataUpdate_response_code : Z;
  MetadataUpdate_stream_name : string
}.

Definition MetadataUpdateCommand_read_body : BM MetadataUpdateCommand :=
  code ← read_ushort;
  if code =? rc_value StreamNotAvailable
  then stream_name ← read_string; mret (MkMetadataUpdateCommand code stream_name)
  else mret (MkMetadataUpdateCommand code EmptyString).

#[export] Instance MetadataUpdateCommand_frame : ServerCommand MetadataUpdateCommand :=
  {| cmd_read_body := MetadataUpdateCommand_read_body |}.

(** ** PeerPropertiesResponse *)

Record PeerPropertiesResponse := MkPeerPropertiesResponse {
  PeerPropertiesResp_correlation_id : Z;
  PeerPropertiesResp_response_code : Z;
  PeerPropertiesResp_properties : Properties
}.

Definition PeerPropertiesResponse_read_body (corr : Z) : BM PeerPropertiesResponse :=
  code ← read_ushort;
  properties ← read_properties;
  mret (MkPeerPropertiesResponse corr code properties).

#[export] Instance PeerPropertiesResponse_frame : ServerRequestOrResponse PeerPropertiesResponse := {|
  srv_read_body := PeerPropertiesResponse_read_body;
  get_correlation_id := PeerPropertiesResp_correlation_id
|}.
#[export] Instance PeerPropertiesResponse_code : HasResponseCode PeerPropertiesResponse :=
  {| get_response_code := PeerPropertiesResp_response_code |}.

(** ** SaslHandshakeResponse *)

Record SaslHandshakeResponse := MkSaslHandshakeResponse {
  SaslHandshakeResp_correlation_id : Z;
  SaslHandshakeResp_response_code : Z;
  SaslHandshakeResp_mechanisms : list string
}.

Definition SaslHandshakeResponse_read_body (corr : Z) : BM SaslHandshakeResponse :=
  code ← read_ushort;
  mechanisms ← read_array read_string;
  mret (MkSaslHandshakeResponse corr code mechanisms).

#[export] Instance SaslHandshakeResponse_frame : ServerRequestOrResponse SaslHandshakeResponse := {|
  srv_read_body := SaslHandshakeResponse_read_body;
  get_correlation_id := SaslHandshakeResp_correlation_id
|}.
#[export] Instance SaslHandshakeResponse_code : HasResponseCode SaslHandshakeResponse :=
  {| get_response_code := SaslHandshakeResp_response_code |}.

(** ** SaslAuthenticateResponse *)

Record SaslAuthenticateResponse := MkSaslAuthenticateResponse {
  SaslAuthenticateResp_correlation_id : Z;
  SaslAuthenticateResp_response_code : Z;
  SaslAuthenticateResp_sasl_opaque_data : list byte
}.

Definition SaslAuthenticateResponse_read_body (corr : Z) : BM SaslAuthenticateResponse :=
  code ← read_ushort;
  if code =? rc_value SaslChallenge
  then blob ← read_blob; mret (MkSaslAuthenticateResponse corr code blob)
  else mret (MkSaslAuthenticateResponse corr code []).

#[export] Instance SaslAuthenticateResponse_frame : ServerRequestOrResponse SaslAuthenticateResponse := {|
  srv_read_body := SaslAuthenticateResponse_read_body;
  get_correlation_id := SaslAuthenticateResp_correlation_id
|}.
#[export] Instance SaslAuthenticateResponse_code : HasResponseCode SaslAuthenticateResponse :=
  {| get_response_code := SaslAuthenticateResp_response_code |}.

(** ** ServerTuneCommand *)

Record ServerTuneCommand := MkServerTuneCommand {
  ServerTune_frame_size : Z;
  ServerTune_heartbeat : Z
}.

Definition ServerTuneCommand_read_body : BM ServerTuneCommand :=
  frame_size ← read_uint;
  heartbeat ← read_uint;
  mret (MkServerTuneCommand frame_size heartbeat).

#[export] Instance ServerTuneCommand_frame : ServerCommand ServerTuneCommand :=
  {| cmd_read_body := ServerTuneCommand_read_body |}.

(** ** OpenResponse *)

Record OpenResponse := MkOpenResponse {
  OpenResp_correlation_id : Z;
  OpenResp_response_code : Z;
  OpenResp_connection_properties : Properties
}.

Definition OpenResponse_read_body (corr : Z) : BM OpenResponse :=
  code ← read_ushort;
  properties ← read_properties;
  mret (MkOpenResponse corr code properties).

#[export] Instance OpenResponse_frame : ServerRequestOrResponse OpenResponse := {|
  srv_read_body := OpenResponse_read_body;
  get_correlation_id := OpenResp_correlation_id
|}.
#[export] Instance OpenResponse_code : HasResponseCode OpenResponse :=
  {| get_response_code := OpenResp_response_code |}.

(** ** ServerCloseRequest *)

Record ServerCloseRequest := MkServerCloseRequest {
  ServerClose_correlation_id : Z;
  ServerClose_closing_code : Z;
  ServerClose_closing_reason : string
}.

Definition ServerCloseRequest_read_body (corr : Z) : BM ServerCloseRequest :=
  code ← read_ushort;
  reason ← read_string;
  mret (MkServerCloseRequest corr code reason).

#[export] Instance ServerCloseRequest_frame : ServerRequestOrResponse ServerCloseRequest := {|
  srv_read_body := ServerCloseRequest_read_body;
  get_correlation_id := ServerClose_correlation_id
|}.

(** ** GenericResponse *)

Record GenericResponse := MkGenericResponse {
  GenericResp_correlation_id : Z;
  GenericResp_response_code : Z
}.

Definition GenericResponse_read_body (corr : Z) : BM GenericResponse :=
  code ← read_ushort;
  mret (MkGenericResponse corr code).

#[export] Instance GenericResponse_frame : ServerRequestOrResponse GenericResponse := {|
  srv_read_body := GenericResponse_read_body;
  get_correlation_id := GenericResp_correlation_id
|}.
#[export] Instance GenericResponse_code : HasResponseCode GenericResponse :=
  {| get_response_code := GenericResp_response_code |}.

(** ** ExchangeCommandVersionsResponse *)

Record ExchangeCommandVersionsResponse := MkExchangeCommandVersionsResponse {
  ExchangeVersionsResp_correlation_id : Z;
  ExchangeVersionsResp_response_code : Z;
  ExchangeVersionsResp_command_versions : list CommandVersion
}.

Definition CommandVersion_read : BM CommandVersion :=
  key ← read_ushort;
  min_version ← read_ushort;
  max_version ← read_ushort;
  mret (MkCommandVersion key min_version max_version).

Definition ExchangeCommandVersionsResponse_read_body (corr : Z) : BM ExchangeCommandVersionsResponse :=
  code ← read_ushort;
  versions ← read_array CommandVersion_read;
  mret (MkExchangeCommandVersionsResponse corr code versions).

#[export] Instance ExchangeCommandVersionsResponse_frame :
  ServerRequestOrResponse ExchangeCommandVersionsResponse := {|
  srv_read_body := ExchangeCommandVersionsResponse_read_body;
  get_correlation_id := ExchangeVersionsResp_correlation_id
|}.
#[export] Instance ExchangeCommandVersionsResponse_code :
  HasResponseCode ExchangeCommandVersionsResponse :=
  {| get_response_code := ExchangeVersionsResp_response_code |}.
