(* ===== verification/ClientFrames.v ===== *)
(** * What the client puts on the wire

    The specification of the frames of [ClientCommands]: [frame_bytes] is the
    byte string of a frame, written without a buffer, and [decode_frame] reads a
    frame back with the reads of the buffer, in the order of the protocol
    (properties and versions as the client itself reads them).  The
    theorems relate the two to the code's [serialized_size] and [serialize]. *)

From S2P Require Import Prelude Words OrdMap Types BinaryBuffer ClientCommands ServerCommands.

Inductive ClientFrame :=
| FDeclarePublisher (c : DeclarePublisherRequest)
| FPublish (c : PublishCommand)
| FQueryPublisherSequence (c : QueryPublisherSequenceRequest)
| FDeletePublisher (c : DeletePublisherRequest)
| FSubscribe (c : SubscribeRequest)
| FCredit (c : CreditCommand)
| FStoreOffset (c : StoreOffsetCommand)
| FQueryOffset (c : QueryOffsetRequest)
| FUnsubscribe (c : UnsubscribeRequest)
| FCreate (c : CreateRequest)
| FDelete (c : DeleteRequest)
| FMetadata (c : MetadataRequest)
| FPeerProperties (c : PeerPropertiesRequest)
| FSaslHandshake (c : SaslHandshakeRequest)
| FSaslAuthenticate (c : SaslAuthenticateRequest)
| FTune (c : ClientTuneCommand)
| FOpen (c : OpenRequest)
| FClose (c : ClientCloseRequest)
| FCloseResponse (c : ClientCloseResponse)
| FHeartbeat (c : ClientHeartbeatCommand)
| FExchangeVersions (c : ExchangeCommandVersionsRequest).

(** The virtual dispatch of [Serializable]. *)
#[export] Instance ClientFrame_Serializable : Serializable ClientFrame := {|
  serialized_size f :=
    match f with
    | FDeclarePublisher c => serialized_size c | FPublish c => serialized_size c
    | FQueryPublisherSequence c => serialized_size c | FDeletePublisher c => serialized_size c
    | FSubscribe c => serialized_size c | FCredit c => serialized_size c
    | FStoreOffset c => serialized_size c | FQueryOffset c => serialized_size c
    | FUnsubscribe c => serialized_size c | FCreate c => serialized_size c
    | FDelete c => serialized_size c | FMetadata c => serialized_size c
    | FPeerProperties c => serialized_size c | FSaslHandshake c => serialized_size c
    | FSaslAuthenticate c => serialized_size c | FTune c => serialized_size c
    | FOpen c => serialized_size c | FClose c => serialized_size c
    | FCloseResponse c => serialized_size c | FHeartbeat c => serialized_size c
    | FExchangeVersions c => serialized_size c
    end;
  serialize f :=
    match f with
    | FDeclarePublisher c => serialize c | FPublish c => serialize c
    | FQueryPublisherSequence c => serialize c | FDeletePublisher c => serialize c
    | FSubscribe c => serialize c | FCredit c => serialize c
    | FStoreOffset c => serialize c | FQueryOffset c => serialize c
    | FUnsubscribe c => serialize c | FCreate c => serialize c
    | FDelete c => serialize c | FMetadata c => serialize c
    | FPeerProperties c => serialize c | FSaslHandshake c => serialize c
    | FSaslAuthenticate c => serialize c | FTune c => serialize c
    | FOpen c => serialize c | FClose c => serialize c
    | FCloseResponse c => serialize c | FHeartbeat c => serialize c
    | FExchangeVersions c => serialize c
    end
|}.

(** ** The bytes of a frame *)

Definition enc_property (p : string * string) : list byte := enc_string p.1 ++ enc_string p.2.
Definition enc_publish_message (m : PublishMessage) : list byte :=
  be_encode 8 (pm_publishing_id m) ++ enc_blob (pm_body m).
Definition enc_version (v : CommandVersion) : list byte :=
  be_encode 2 (cv_key v) ++ be_encode 2 (cv_min_version v) ++ be_encode 2 (cv_max_version v).
Definition has_offset (o : OffsetSpecification) : bool := os_is_offset o || os_is_timestamp o.
Definition enc_offset (o : OffsetSpecification) : list byte :=
  be_encode 2 (os_type o) ++ if has_offset o then be_encode 8 (os_offset o) else [].

Definition command_header (key : Z) : list byte := be_encode 2 key ++ be_encode 2 1.
Definition request_header (key correlation_id : Z) : list byte :=
  be_encode 2 key ++ be_encode 2 1 ++ be_encode 4 correlation_id.

Definition response_key (k : CommandKey) : Z := Z.lor 0x8000 (key_value k).

Definition frame_bytes (f : ClientFrame) : list byte :=
  match f with
  | FDeclarePublisher (MkDeclarePublisherRequest corr id name stream) =>
      request_header (key_value KeyDeclarePublisher) corr
      ++ be_encode 1 id ++ enc_string name ++ enc_string stream
  | FPublish (MkPublishCommand id ms) =>
      command_header (key_value KeyPublish) ++ be_encode 1 id ++ enc_array enc_publish_message ms
  | FQueryPublisherSequence (MkQueryPublisherSequenceRequest corr name stream) =>
      request_header (key_value KeyQueryPublisherSequence) corr ++ enc_string name ++ enc_string stream
  | FDeletePublisher (MkDeletePublisherRequest corr id) =>
      request_header (key_value KeyDeletePublisher) corr ++ be_encode 1 id
  | FSubscribe (MkSubscribeRequest corr id stream offset credit props) =>
      request_header (key_value KeySubscribe) corr
      ++ be_encode 1 id ++ enc_string stream ++ enc_offset offset
      ++ be_encode 2 credit ++ enc_array enc_property props
  | FCredit (MkCreditCommand id credit) =>
      command_header (key_value KeyCredit) ++ be_encode 1 id ++ be_encode 2 credit
  | FStoreOffset (MkStoreOffsetCommand ref stream offset) =>
      command_header (key_value KeyStoreOffset)
      ++ enc_string ref ++ enc_string stream ++ be_encode 8 offset
  | FQueryOffset (MkQueryOffsetRequest corr ref stream) =>
      request_header (key_value KeyQueryOffset) corr ++ enc_string ref ++ enc_string stream
  | FUnsubscribe (MkUnsubscribeRequest corr id) =>
      request_header (key_value KeyUnsubscribe) corr ++ be_encode 1 id
  | FCreate (MkCreateRequest corr stream args) =>
      request_header (key_value KeyCreate) corr ++ enc_string stream ++ enc_array enc_property args
  | FDelete (MkDeleteRequest corr stream) =>
      request_header (key_value KeyDelete) corr ++ enc_string stream
  | FMetadata (MkMetadataRequest corr streams) =>
      request_header (key_value KeyMetadata) corr ++ enc_array enc_string streams
  | FPeerProperties (MkPeerPropertiesRequest corr props) =>
      request_header (key_value KeyPeerProperties) corr ++ enc_array enc_property props
  | FSaslHandshake (MkSaslHandshakeRequest corr) =>
      request_header (key_value KeySaslHandshake) corr
  | FSaslAuthenticate (MkSaslAuthenticateRequest corr mech data) =>
      request_header (key_value KeySaslAuthenticate) corr ++ enc_string mech ++ enc_blob data
  | FTune (MkClientTuneCommand size heartbeat) =>
      command_header (response_key KeyTune) ++ be_encode 4 size ++ be_encode 4 heartbeat
  | FOpen (MkOpenRequest corr vhost) =>
      request_header (key_value KeyOpen) corr ++ enc_string vhost
  | FClose (MkClientCloseRequest corr code reason) =>
      request_header (key_value KeyClose) corr ++ be_encode 2 code ++ enc_string reason
  | FCloseResponse (MkClientCloseResponse corr code) =>
      request_header (response_key KeyClose) corr ++ be_encode 2 code
  | FHeartbeat _ => command_header (key_value KeyHeartbeat)
  | FExchangeVersions (MkExchangeCommandVersionsRequest corr versions) =>
      request_header (key_value KeyExchangeCommandVersions) corr ++ enc_array enc_version versions
  end.

(** ** Frames that fit the protocol

    The members have the width of their C++ type, strings and arrays respect
    the limits that [write_string], [write_blob] and [write_array] check, maps
    are sorted, and an offset specification is one that its constructors make. *)

Definition str_ok (s : string) : Prop := str_size s <= INT16_MAX.
Definition props_ok (p : Properties) : Prop :=
  lenZ p <= INT32_MAX /\ om_sorted p /\ Forall (fun kv => str_ok kv.1 /\ str_ok kv.2) p.
Definition offset_ok (o : OffsetSpecification) : Prop :=
  is_u16 (os_type o) /\ if has_offset o then is_u64 (os_offset o) else os_offset o = 0.

Definition frame_valid (f : ClientFrame) : Prop :=
  match f with
  | FDeclarePublisher (MkDeclarePublisherRequest corr id name stream) =>
      is_u32 corr /\ is_u8 id /\ str_ok name /\ str_ok stream
  | FPublish (MkPublishCommand id ms) =>
      is_u8 id /\ lenZ ms <= INT32_MAX /\
      Forall (fun m => is_u64 (pm_publishing_id m) /\ lenZ (pm_body m) <= INT32_MAX) ms
  | FQueryPublisherSequence (MkQueryPublisherSequenceRequest corr name stream) =>
      is_u32 corr /\ str_ok name /\ str_ok stream
  | FDeletePublisher (MkDeletePublisherRequest corr id) => is_u32 corr /\ is_u8 id
  | FSubscribe (MkSubscribeRequest corr id stream offset credit props) =>
      is_u32 corr /\ is_u8 id /\ str_ok stream /\ offset_ok offset /\ is_u16 credit /\ props_ok props
  | FCredit (MkCreditCommand id credit) => is_u8 id /\ is_u16 credit
  | FStoreOffset (MkStoreOffsetCommand ref stream offset) =>
      str_ok ref /\ str_ok stream /\ is_u64 offset
  | FQueryOffset (MkQueryOffsetRequest corr ref stream) => is_u32 corr /\ str_ok ref /\ str_ok stream
  | FUnsubscribe (MkUnsubscribeRequest corr id) => is_u32 corr /\ is_u8 id
  | FCreate (MkCreateRequest corr stream args) => is_u32 corr /\ str_ok stream /\ props_ok args
  | FDelete (MkDeleteRequest corr stream) => is_u32 corr /\ str_ok stream
  | FMetadata (MkMetadataRequest corr streams) =>
      is_u32 corr /\ lenZ streams <= INT32_MAX /\ Forall str_ok streams
  | FPeerProperties (MkPeerPropertiesRequest corr props) => is_u32 corr /\ props_ok props
  | FSaslHandshake (MkSaslHandshakeRequest corr) => is_u32 corr
  | FSaslAuthenticate (MkSaslAuthenticateRequest corr mech data) =>
      is_u32 corr /\ str_ok mech /\ lenZ data <= INT32_MAX
  | FTune (MkClientTuneCommand size heartbeat) => is_u32 size /\ is_u32 heartbeat
  | FOpen (MkOpenRequest corr vhost) => is_u32 corr /\ str_ok vhost
  | FClose (MkClientCloseRequest corr code reason) => is_u32 corr /\ is_u16 code /\ str_ok reason
  | FCloseResponse (MkClientCloseResponse corr code) => is_u32 corr /\ is_u16 code
  | FHeartbeat _ => True
  | FExchangeVersions (MkExchangeCommandVersionsRequest corr versions) =>
      is_u32 corr /\ lenZ versions <= INT32_MAX /\
      Forall (fun v => is_u16 (cv_key v) /\ is_u16 (cv_min_version v) /\ is_u16 (cv_max_version v))
             versions
  end.

(** ** Reading a frame back *)

Definition decode_publish_message : BM PublishMessage :=
  id ← read_ulong; body ← read_blob; mret (MkPublishMessage id body).
Definition decode_offset : BM OffsetSpecification :=
  t ← read_ushort;
  (if has_offset (MkOffsetSpecification t 0)
   then o ← read_ulong; mret (MkOffsetSpecification t o)
   else mret (MkOffsetSpecification t 0)).

(** The body of a command without a correlation id. *)
Definition decode_command (key : Z) : option (BM ClientFrame) :=
  if key =? key_value KeyPublish then
    Some (id ← read_byte; ms ← read_array decode_publish_message;
          mret (FPublish (MkPublishCommand id ms)))
  else if key =? key_value KeyCredit then
    Some (id ← read_byte; credit ← read_ushort; mret (FCredit (MkCreditCommand id credit)))
  else if key =? key_value KeyStoreOffset then
    Some (ref ← read_string; stream ← read_string; offset ← read_ulong;
          mret (FStoreOffset (MkStoreOffsetCommand ref stream offset)))
  else if key =? response_key KeyTune then
    Some (size ← read_uint; heartbeat ← read_uint; mret (FTune (MkClientTuneCommand size heartbeat)))
  else if key =? key_value KeyHeartbeat then Some (mret (FHeartbeat MkClientHeartbeatCommand))
  else None.

(** The body of a request or response, after its correlation id. *)
Definition decode_request (key corr : Z) : BM ClientFrame :=
  if key =? key_value KeyDeclarePublisher then
    id ← read_byte; name ← read_string; stream ← read_string;
    mret (FDeclarePublisher (MkDeclarePublisherRequest corr id name stream))
  else if key =? key_value KeyQueryPublisherSequence then
    name ← read_string; stream ← read_string;
    mret (FQueryPublisherSequence (MkQueryPublisherSequenceRequest corr name stream))
  else if key =? key_value KeyDeletePublisher then
    id ← read_byte; mret (FDeletePublisher (MkDeletePublisherRequest corr id))
  else if key =? key_value KeySubscribe then
    id ← read_byte; stream ← read_string; offset ← decode_offset; credit ← read_ushort;
    props ← read_properties;
    mret (FSubscribe (MkSubscribeRequest corr id stream offset credit props))
  else if key =? key_value KeyQueryOffset then
    ref ← read_string; stream ← read_string;
    mret (FQueryOffset (MkQueryOffsetRequest corr ref stream))
  else if key =? key_value KeyUnsubscribe then
    id ← read_byte; mret (FUnsubscribe (MkUnsubscribeRequest corr id))
  else if key =? key_value KeyCreate then
    stream ← read_string; args ← read_properties;
    mret (FCreate (MkCreateRequest corr stream args))
  else if key =? key_value KeyDelete then
    stream ← read_string; mret (FDelete (MkDeleteRequest corr stream))
  else if key =? key_value KeyMetadata then
    streams ← read_array read_string; mret (FMetadata (MkMetadataRequest corr streams))
  else if key =? key_value KeyPeerProperties then
    props ← read_properties; mret (FPeerProperties (MkPeerPropertiesRequest corr props))
  else if key =? key_value KeySaslHandshake then
    mret (FSaslHandshake (MkSaslHandshakeRequest corr))
  else if key =? key_value KeySaslAuthenticate then
    mech ← read_string; data ← read_blob;
    mret (FSaslAuthenticate (MkSaslAuthenticateRequest corr mech data))
  else if key =? key_value KeyOpen then
    vhost ← read_string; mret (FOpen (MkOpenRequest corr vhost))
  else if key =? key_value KeyClose then
    code ← read_ushort; reason ← read_string; mret (FClose (MkClientCloseRequest corr code reason))
  else if key =? response_key KeyClose then
    code ← read_ushort; mret (FCloseResponse (MkClientCloseResponse corr code))
  else if key =? key_value KeyExchangeCommandVersions then
    versions ← read_array CommandVersion_read;
    mret (FExchangeVersions (MkExchangeCommandVersionsRequest corr versions))
  else st_throw (StreamException "unknown key").

Definition decode_frame : BM ClientFrame :=
  key ← read_ushort;
  version ← read_ushort;
  (if version =? 1 then
     match decode_command key with
     | Some body => body
     | None => corr ← read_uint; decode_request key corr
     end
   else st_throw (StreamException "unknown version")).

(** ** The size the code announces *)

Lemma lenZ_enc_property p : lenZ (enc_property p) = property_size p.
Proof. unfold enc_property, property_size. now autorewrite with len. Qed.

Lemma lenZ_enc_publish_message m :
  lenZ (enc_publish_message m) = PublishMessage_serialized_size m.
Proof. unfold enc_publish_message, PublishMessage_serialized_size. now autorewrite with len. Qed.

Lemma lenZ_enc_version v : lenZ (enc_version v) = 2 + 2 + 2.
Proof. unfold enc_version. now autorewrite with len. Qed.

Lemma lenZ_enc_properties ps :
  lenZ (enc_array enc_property ps) = serialized_size_array property_size ps.
Proof. apply lenZ_enc_array, lenZ_enc_property. Qed.

Lemma lenZ_enc_publish_messages ms :
  lenZ (enc_array enc_publish_message ms) = serialized_size_array PublishMessage_serialized_size ms.
Proof. apply lenZ_enc_array, lenZ_enc_publish_message. Qed.

Lemma lenZ_enc_versions vs :
  lenZ (enc_array enc_version vs) = serialized_size_array (fun _ => 2 + 2 + 2) vs.
Proof. apply lenZ_enc_array, lenZ_enc_version. Qed.

Lemma lenZ_enc_strings ss :
  lenZ (enc_array enc_string ss) = serialized_size_array serialized_size_string ss.
Proof. apply lenZ_enc_array, lenZ_enc_string. Qed.

#[export] Hint Rewrite lenZ_enc_properties lenZ_enc_publish_messages lenZ_enc_versions
  lenZ_enc_strings : len.

Ltac unfold_frame :=
  simpl; autounfold with frames; simpl;
  unfold command_header, request_header, enc_offset, has_offset, response_key in *.

Lemma lenZ_frame_bytes f : lenZ (frame_bytes f) = serialized_size f.
Proof.
  destruct f as [[]|[]|[]|[]|[? ? ? o ? ?]|[]|[]|[]|[]|[]|[]|[]|[]|[]|[]|[]|[]|[]|[]|[]|[]];
    unfold_frame; try (autorewrite with len; lia).
  destruct (os_is_offset o || os_is_timestamp o); autorewrite with len; lia.
Qed.

(** ** What [serialize] writes *)

Lemma writes_command_header key : writes (ClientCommand_write_header key) (command_header key).
Proof. apply writes_seq; auto with hare. Qed.

Lemma writes_request_header key corr :
  writes (ClientRequestOrResponse_write_header key corr) (request_header key corr).
Proof. repeat apply writes_seq; auto with hare. Qed.

Lemma writes_command {T} `{ClientCommand T} (c : T) bs :
  writes (cmd_write_body c) bs -> writes (serialize c) (command_header (cmd_key c) ++ bs).
Proof. intros. apply writes_seq; [apply writes_command_header | done]. Qed.

Lemma writes_request {T} `{ClientRequestOrResponse T} (c : T) bs :
  writes (req_write_body c) bs ->
  writes (serialize c) (request_header (req_key c) (req_correlation_id c) ++ bs).
Proof. intros. apply writes_seq; [apply writes_request_header | done]. Qed.

Lemma writes_properties ps : props_ok ps -> writes (write_array write_property ps) (enc_array enc_property ps).
Proof.
  intros (Hl & _ & Hall). apply writes_array; [done|]. eapply Forall_impl; [exact Hall|].
  intros p [H1 H2]. apply writes_seq; auto with hare.
Qed.

Lemma writes_publish_messages ms :
  lenZ ms <= INT32_MAX -> Forall (fun m => is_u64 (pm_publishing_id m) /\ lenZ (pm_body m) <= INT32_MAX) ms ->
  writes (write_array PublishMessage_write ms) (enc_array enc_publish_message ms).
Proof.
  intros Hl Hall. apply writes_array; [done|]. eapply Forall_impl; [exact Hall|].
  intros m [H1 H2]. apply writes_seq; auto with hare.
Qed.

Lemma writes_strings ss :
  lenZ ss <= INT32_MAX -> Forall str_ok ss -> writes (write_array write_string ss) (enc_array enc_string ss).
Proof. intros Hl Hall. apply writes_array; [done|]. eapply Forall_impl; [exact Hall|]. auto with hare. Qed.

Lemma writes_versions vs :
  lenZ vs <= INT32_MAX -> writes (write_array CommandVersion_write vs) (enc_array enc_version vs).
Proof.
  intros Hl. apply writes_array; [done|]. apply Forall_true. intros v.
  repeat apply writes_seq; auto with hare.
Qed.

#[export] Hint Resolve writes_properties writes_publish_messages writes_strings writes_versions
  writes_command_header writes_request_header : hare.

(** A body is the sequence of its fields. *)
Ltac solve_writes := repeat (first [solve [auto with hare] | apply writes_seq]).

Lemma writes_frame f : frame_valid f -> writes (serialize f) (frame_bytes f).
Proof.
  unfold str_ok.
  destruct f as [[]|[]|[]|[]|[? ? ? o ? ?]|[]|[]|[]|[]|[]|[]|[]|[]|[]|[]|[]|[]|[]|[]|[]|[]];
    simpl; autounfold with frames; simpl; unfold str_ok in *; intros Hv; destruct_and? Hv.
  all: try solve [solve_writes].
  all: try solve [rewrite <- (app_nil_r (command_header _)); solve_writes].
  all: try solve [rewrite <- (app_nil_r (request_header _ _)); solve_writes].
  apply writes_seq; [auto with hare|]. apply writes_seq; [auto with hare|].
  apply writes_seq; [auto with hare|]. unfold enc_offset. rewrite <- app_assoc.
  apply writes_seq; [auto with hare|]. apply writes_seq; [|solve_writes].
  unfold has_offset. case_step; auto with hare.
Qed.

(** Serializing any frame, valid or not, throws only [StreamException]s. *)
Lemma keeps_wf_serialize (f : ClientFrame) : keeps_wf (serialize f).
Proof.
  assert (forall ps, keeps_wf (write_array write_property ps)) as Hp
    by (intros; apply keeps_wf_write_array; intros; unfold write_property; auto with keeps).
  assert (forall ms, keeps_wf (write_array PublishMessage_write ms)) as Hm
    by (intros; apply keeps_wf_write_array; intros; apply keeps_wf_bind; [apply keeps_wf_write_raw|]; auto with keeps).
  assert (forall vs, keeps_wf (write_array CommandVersion_write vs)) as Hv
    by (intros; apply keeps_wf_write_array; intros; repeat (apply keeps_wf_bind; [apply keeps_wf_write_raw|]; intros _);
        apply keeps_wf_write_raw).
  destruct f as [[]|[]|[]|[]|[? ? ? o ? ?]|[]|[]|[]|[]|[]|[]|[]|[]|[]|[]|[]|[]|[]|[]|[]|[]];
    simpl; autounfold with frames; simpl;
    unfold ClientCommand_write_header, ClientRequestOrResponse_write_header;
    unfold write_byte, write_ushort, write_uint, write_ulong;
    try destruct (os_is_offset o || os_is_timestamp o); auto 20 with keeps.
Qed.

(** ** What [decode_frame] reads *)

Lemma reads_property p : str_ok p.1 -> str_ok p.2 -> reads read_property (enc_property p) p.
Proof.
  intros H1 H2. eapply reads_bind; [auto with hare|]. destruct p as [k v].
  apply (reads_fmap _ (fun v => (k, v))). auto with hare.
Qed.

Lemma reads_properties ps : props_ok ps -> reads read_properties (enc_array enc_property ps) ps.
Proof.
  intros (Hl & Hs & Hall). unfold read_properties.
  replace ps with (om_insert_all ps []) at 2 by now apply (om_insert_all_sorted_id ps []).
  apply (reads_fmap _ (fun kvs => om_insert_all kvs [])), reads_array; [done|].
  eapply Forall_impl; [exact Hall|]. intros p [? ?]. now apply reads_property.
Qed.

Lemma reads_publish_messages ms :
  lenZ ms <= INT32_MAX -> Forall (fun m => is_u64 (pm_publishing_id m) /\ lenZ (pm_body m) <= INT32_MAX) ms ->
  reads (read_array decode_publish_message) (enc_array enc_publish_message ms) ms.
Proof.
  intros Hl Hall. apply reads_array; [done|]. eapply Forall_impl; [exact Hall|]. intros [id body] [H1 H2].
  eapply reads_bind; [auto with hare|]. apply (reads_fmap _ (MkPublishMessage _)). auto with hare.
Qed.

Lemma reads_strings ss :
  lenZ ss <= INT32_MAX -> Forall str_ok ss -> reads (read_array read_string) (enc_array enc_string ss) ss.
Proof. intros Hl Hall. apply reads_array; [done|]. eapply Forall_impl; [exact Hall|]. auto with hare. Qed.

Lemma reads_versions vs :
  lenZ vs <= INT32_MAX ->
  Forall (fun v => is_u16 (cv_key v) /\ is_u16 (cv_min_version v) /\ is_u16 (cv_max_version v)) vs ->
  reads (read_array CommandVersion_read) (enc_array enc_version vs) vs.
Proof.
  intros Hl Hall. apply reads_array; [done|]. eapply Forall_impl; [exact Hall|].
  intros [k mn mx] (H1 & H2 & H3). eapply reads_bind; [auto with hare|].
  eapply reads_bind; [auto with hare|]. apply (reads_fmap _ (MkCommandVersion _ _)). auto with hare.
Qed.

Lemma reads_offset o : offset_ok o -> reads decode_offset (enc_offset o) o.
Proof.
  intros [Ht Ho]. eapply reads_bind; [auto with hare|]. destruct o as [t v]. simpl in *.
  change (has_offset (MkOffsetSpecification t v)) with (has_offset (MkOffsetSpecification t 0)) in *.
  destruct (has_offset _).
  - apply (reads_fmap _ (MkOffsetSpecification t)). auto with hare.
  - subst v. apply reads_ret.
Qed.

#[export] Hint Resolve reads_properties reads_publish_messages reads_strings reads_versions
  reads_offset : hare.

(** A record is the sequence of its fields, then its constructor. *)
Ltac solve_reads :=
  repeat (first [apply reads_ret | eapply reads_bind; [solve [auto with hare]|]
                | rewrite <- (app_nil_r (enc_string _)); eapply reads_bind; [solve [auto with hare]|]
                | rewrite <- (app_nil_r (enc_blob _)); eapply reads_bind; [solve [auto with hare]|]
                | rewrite <- (app_nil_r (enc_array _ _)); eapply reads_bind; [solve [auto with hare]|]
                | rewrite <- (app_nil_r (be_encode _ _)); eapply reads_bind; [solve [auto with hare]|]]).

Lemma reads_header {A} (k : Z -> Z -> BM A) key version bs a :
  is_u16 key -> is_u16 version -> reads (k key version) bs a ->
  reads (key ← read_ushort; version ← read_ushort; k key version)
        ((be_encode 2 key ++ be_encode 2 version) ++ bs) a.
Proof.
  intros Hk Hv H. rewrite <- app_assoc. eapply reads_bind; [auto with hare|].
  eapply reads_bind; [auto with hare|]. done.
Qed.

Lemma reads_command_frame key body bs f :
  is_u16 key -> decode_command key = Some body -> reads body bs f ->
  reads decode_frame (command_header key ++ bs) f.
Proof.
  intros Hk Hd Hb. apply (reads_header (fun key version => if version =? 1 then _ else _)); [done|done|].
  simpl. now rewrite Hd.
Qed.

Lemma reads_request_frame key corr bs f :
  is_u16 key -> is_u32 corr -> decode_command key = None -> reads (decode_request key corr) bs f ->
  reads decode_frame (request_header key corr ++ bs) f.
Proof.
  intros Hk Hc Hd Hb. unfold request_header. rewrite (app_assoc (be_encode 2 key)), <- app_assoc.
  apply (reads_header (fun key version => if version =? 1 then _ else _)); [done|done|].
  simpl. rewrite Hd. eapply reads_bind; [auto with hare|]. done.
Qed.

Lemma reads_frame f : frame_valid f -> reads decode_frame (frame_bytes f) f.
Proof.
  destruct f as [[]|[]|[]|[]|[]|[]|[]|[]|[]|[]|[]|[]|[]|[]|[]|[]|[]|[]|[]|[]|[]];
    simpl; unfold str_ok; intros Hv; destruct_and? Hv;
    try rewrite <- (app_nil_r (command_header _)); try rewrite <- (app_nil_r (request_header _ _));
    first [ eapply reads_request_frame; [done|done|reflexivity|]; unfold decode_request; simpl
          | eapply reads_command_frame; [done|reflexivity|] ].
  all: try solve [solve_reads].
Qed.

(** ** The wire contract of the commands *)

(** C13: serializing any valid client frame into a fresh buffer succeeds, writes
    exactly the number of bytes that [serialized_size] announces, and decoding
    those bytes in the protocol's order yields the frame again. *)
Theorem serialize_decode_frame f :
  frame_valid f -> serialized_size f <= UINT32_MAX ->
  exists b, serialize f empty_buffer = (Val tt, b) /\
    buffer_size b = serialized_size f /\
    decode_frame b = (Val f, advance (serialized_size f) b).
Proof.
  intros Hv Hl. rewrite <- lenZ_frame_bytes in Hl. exists (append (frame_bytes f) empty_buffer).
  rewrite <- !lenZ_frame_bytes. split; [|split].
  - apply writes_frame; [done | apply empty_at_end | done].
  - reflexivity.
  - apply reads_append_empty; [now apply reads_frame | done].
Qed.

Definition subscribe_example : ClientFrame :=
  FSubscribe (MkSubscribeRequest 7 2 "invoices" (offset_offset 1000) 10 [("name"%string, "app"%string)]).

Lemma subscribe_example_valid : frame_valid subscribe_example.
Proof.
  repeat split; try (vm_compute; congruence); repeat constructor; vm_compute; congruence.
Qed.

Lemma serialize_decode_frame_witness :
  exists b, serialize subscribe_example empty_buffer = (Val tt, b) /\ buffer_size b = 46 /\
    decode_frame b = (Val subscribe_example, advance 46 b).
Proof.
  apply (serialize_decode_frame subscribe_example);
    [apply subscribe_example_valid | vm_compute; congruence].
Defined.

(** The encoding is uniquely decodable: if the bytes of two valid frames,
    each followed by anything, coincide, then the frames are equal; in
    particular a frame's bytes never are a proper prefix of another's. *)
Theorem serialize_prefix_free f1 f2 b1 b2 rest1 rest2 :
  frame_valid f1 -> frame_valid f2 ->
  serialized_size f1 + lenZ rest1 <= UINT32_MAX -> serialized_size f2 + lenZ rest2 <= UINT32_MAX ->
  serialize f1 empty_buffer = (Val tt, b1) -> serialize f2 empty_buffer = (Val tt, b2) ->
  m_bytes b1 ++ rest1 = m_bytes b2 ++ rest2 -> f1 = f2 /\ rest1 = rest2.
Proof.
  intros Hv1 Hv2 Hl1 Hl2. rewrite <- !lenZ_frame_bytes in *.
  pose proof (lenZ_nonneg rest1). pose proof (lenZ_nonneg rest2).
  rewrite (writes_frame f1 Hv1 empty_buffer empty_at_end) by (change (buffer_size empty_buffer) with 0; lia).
  rewrite (writes_frame f2 Hv2 empty_buffer empty_at_end) by (change (buffer_size empty_buffer) with 0; lia).
  intros [= <-] [= <-]. simpl. intros E.
  set (b := MkBinaryBuffer (frame_bytes f1 ++ rest1) 0 0).
  assert (buf_wf b) as Hwf.
  { unfold buf_wf, buffer_size. simpl. rewrite lenZ_app. unfold_words. lia. }
  assert (m_read_cursor b <= buffer_size b) as Hc by apply lenZ_nonneg.
  pose proof (reads_frame f1 Hv1 b rest1 Hwf Hc eq_refl) as D1.
  pose proof (reads_frame f2 Hv2 b rest2 Hwf Hc E) as D2.
  rewrite D1 in D2. injection D2 as <- _. split; [done|]. now apply app_inv_head in E.
Qed.

Lemma serialize_prefix_free_witness :
  subscribe_example = subscribe_example /\ [x01] = [x01].
Proof.
  eapply (serialize_prefix_free subscribe_example subscribe_example _ _ [x01] [x01]);
    [apply subscribe_example_valid | apply subscribe_example_valid
    | vm_compute; congruence | vm_compute; congruence
    | vm_compute; reflexivity | vm_compute; reflexivity | reflexivity].
Defined.
