(* ===== verification/ServerFrames.v ===== *)
(** * What the server's frames mean to the client

    The specification of [ServerCommands]: [server_typed] is the type invariant
    of every object that [deserialize] builds, and [server_bytes] the reference
    encoding that the broker sends.  The theorems say that parsing is safe on
    arbitrary bytes and exact on encodings. *)

From S2P Require Import Prelude Words OrdMap Types BinaryBuffer ClientCommands ServerCommands ClientFrames.

Inductive ServerFrame :=
| SPublishConfirm (c : PublishConfirmCommand)
| SPublishError (c : PublishErrorCommand)
| SQueryPublisherSequence (c : QueryPublisherSequenceResponse)
| SDeliver (c : DeliverCommand)
| SCreditError (c : CreditErrorCommand)
| SQueryOffset (c : QueryOffsetResponse)
| SMetadata (c : MetadataResponse)
| SMetadataUpdate (c : MetadataUpdateCommand)
| SPeerProperties (c : PeerPropertiesResponse)
| SSaslHandshake (c : SaslHandshakeResponse)
| SSaslAuthenticate (c : SaslAuthenticateResponse)
| STune (c : ServerTuneCommand)
| SOpen (c : OpenResponse)
| SClose (c : ServerCloseRequest)
| SGeneric (c : GenericResponse)
| SExchangeVersions (c : ExchangeCommandVersionsResponse).

(** The class an object is made of; [DeliverCommand] is built with the version
    of its frame. *)
Inductive ServerKind :=
| KindPublishConfirm | KindPublishError | KindQueryPublisherSequence | KindDeliver (version : Z)
| KindCreditError | KindQueryOffset | KindMetadata | KindMetadataUpdate | KindPeerProperties
| KindSaslHandshake | KindSaslAuthenticate | KindTune | KindOpen | KindClose | KindGeneric
| KindExchangeVersions.

Definition deserialize_kind (k : ServerKind) : BM ServerFrame :=
  match k with
  | KindPublishConfirm => c ← deserialize; mret (SPublishConfirm c)
  | KindPublishError => c ← deserialize; mret (SPublishError c)
  | KindQueryPublisherSequence => c ← deserialize; mret (SQueryPublisherSequence c)
  | KindDeliver version => c ← DeliverCommand_read_body version; mret (SDeliver c)
  | KindCreditError => c ← deserialize; mret (SCreditError c)
  | KindQueryOffset => c ← deserialize; mret (SQueryOffset c)
  | KindMetadata => c ← deserialize; mret (SMetadata c)
  | KindMetadataUpdate => c ← deserialize; mret (SMetadataUpdate c)
  | KindPeerProperties => c ← deserialize; mret (SPeerProperties c)
  | KindSaslHandshake => c ← deserialize; mret (SSaslHandshake c)
  | KindSaslAuthenticate => c ← deserialize; mret (SSaslAuthenticate c)
  | KindTune => c ← deserialize; mret (STune c)
  | KindOpen => c ← deserialize; mret (SOpen c)
  | KindClose => c ← deserialize; mret (SClose c)
  | KindGeneric => c ← deserialize; mret (SGeneric c)
  | KindExchangeVersions => c ← deserialize; mret (SExchangeVersions c)
  end.

(** ** The type invariant *)

Definition array_ok {X} (P : X -> Prop) (xs : list X) : Prop :=
  lenZ xs <= INT32_MAX /\ Forall P xs.

Definition chunk_ok (c : Chunk) : Prop :=
  is_u8 (ch_magic_version c) /\ is_u8 (ch_chunk_type c) /\ is_u16 (ch_nb_entries c) /\
  is_u32 (ch_nb_records c) /\ is_sint 64 (ch_timestamp c) /\ is_u64 (ch_epoch c) /\
  is_u64 (ch_offset c) /\ is_u32 (ch_chunk_crc c) /\ is_u32 (ch_data_len c) /\
  is_u32 (ch_trailer_len c) /\ is_u32 (ch_reserved c).

Definition entries_bytes (ms : list (list byte)) : list byte := concat (map enc_blob ms).

Definition deliver_ok (c : DeliverCommand) : Prop :=
  is_u8 (Deliver_subscription_id c) /\
  match Deliver_committed_chunk_id c with Some id => is_u64 id | None => True end /\
  chunk_ok (Deliver_chunk c) /\
  lenZ (Deliver_messages c) = ch_nb_entries (Deliver_chunk c) /\
  lenZ (entries_bytes (Deliver_messages c)) <= ch_data_len (Deliver_chunk c).

Definition publishing_error_ok (e : PublishingError) : Prop := is_u64 (pe_sequence e) /\ is_u16 (pe_code e).
Definition broker_ok (b : MetadataBroker) : Prop :=
  is_u16 (mb_reference b) /\ str_ok (mb_host b) /\ is_u32 (mb_port b).
Definition stream_ok (s : MetadataStream) : Prop :=
  str_ok (ms_stream_name s) /\ is_u16 (ms_code s) /\ is_u16 (ms_leader s) /\
  array_ok is_u16 (ms_replicas s).
Definition version_ok (v : CommandVersion) : Prop :=
  is_u16 (cv_key v) /\ is_u16 (cv_min_version v) /\ is_u16 (cv_max_version v).

Definition server_typed (f : ServerFrame) : Prop :=
  match f with
  | SPublishConfirm (MkPublishConfirmCommand id seqs) => is_u8 id /\ array_ok is_u64 seqs
  | SPublishError (MkPublishErrorCommand id errs) => is_u8 id /\ array_ok publishing_error_ok errs
  | SQueryPublisherSequence (MkQueryPublisherSequenceResponse corr code seq) =>
      is_u32 corr /\ is_u16 code /\ is_u64 seq
  | SDeliver c => deliver_ok c
  | SCreditError (MkCreditErrorCommand code id) => is_u16 code /\ is_u8 id
  | SQueryOffset (MkQueryOffsetResponse corr code offset) => is_u32 corr /\ is_u16 code /\ is_u64 offset
  | SMetadata (MkMetadataResponse corr brokers streams) =>
      is_u32 corr /\ array_ok broker_ok brokers /\ array_ok stream_ok streams
  | SMetadataUpdate (MkMetadataUpdateCommand code name) =>
      is_u16 code /\ str_ok name /\ (code <> rc_value StreamNotAvailable -> name = EmptyString)
  | SPeerProperties (MkPeerPropertiesResponse corr code props) =>
      is_u32 corr /\ is_u16 code /\ props_ok props
  | SSaslHandshake (MkSaslHandshakeResponse corr code mechs) =>
      is_u32 corr /\ is_u16 code /\ array_ok str_ok mechs
  | SSaslAuthenticate (MkSaslAuthenticateResponse corr code data) =>
      is_u32 corr /\ is_u16 code /\ lenZ data <= INT32_MAX /\ (code <> rc_value SaslChallenge -> data = [])
  | STune (MkServerTuneCommand size heartbeat) => is_u32 size /\ is_u32 heartbeat
  | SOpen (MkOpenResponse corr code props) => is_u32 corr /\ is_u16 code /\ props_ok props
  | SClose (MkServerCloseRequest corr code reason) => is_u32 corr /\ is_u16 code /\ str_ok reason
  | SGeneric (MkGenericResponse corr code) => is_u32 corr /\ is_u16 code
  | SExchangeVersions (MkExchangeCommandVersionsResponse corr code versions) =>
      is_u32 corr /\ is_u16 code /\ array_ok version_ok versions
  end.

(** ** The entries of a chunk *)

Lemma top_bit x : (Z.land (byte_to_Z x) 0x80 =? 0) = (byte_to_Z x <? 128).
Proof. destruct x; vm_compute; reflexivity. Qed.

Lemma be_decode_single x : be_decode [x] = byte_to_Z x.
Proof. rewrite be_decode_cons, lenZ_nil. change (be_decode []) with 0. lia. Qed.

Lemma remaining_nonempty b x rest :
  buf_wf b -> remaining b = x :: rest -> m_read_cursor b + 1 <= buffer_size b.
Proof.
  intros (Hs & Hr & _) E. apply (f_equal lenZ) in E. unfold remaining, buffer_size in *.
  rewrite lenZ_dropZ, lenZ_cons in E by lia. pose proof (lenZ_nonneg rest). lia.
Qed.

Lemma remaining_empty b : buf_wf b -> remaining b = [] -> buffer_size b <= m_read_cursor b.
Proof.
  intros (Hs & Hr & _) E. apply (f_equal lenZ) in E. unfold remaining, buffer_size in *.
  rewrite lenZ_dropZ in E by lia. change (lenZ []) with 0 in E. lia.
Qed.

(** The byte that tells batches is looked at and put back. *)
Lemma read_entry_cons b x rest :
  buf_wf b -> remaining b = x :: rest ->
  read_entry b =
    if byte_to_Z x <? 128 then read_blob b
    else (Throw (StreamException "Sub entry batching is not currently supported"), advance 1 b).
Proof.
  intros Hwf E. pose proof (remaining_nonempty _ _ _ Hwf E) as Hle.
  unfold read_entry. rewrite (ST_bind_Val _ _ _ (byte_to_Z x) (advance 1 b)).
  - rewrite top_bit. destruct (byte_to_Z x <? 128); simpl; [|done].
    unfold set_read_cursor, mbind, ST_bind. simpl.
    assert ((buffer_size (advance 1 b) <? m_read_cursor b + 1 - 1) = false) as ->.
    { change (buffer_size (advance 1 b)) with (buffer_size b). lia. }
    simpl. f_equal. destruct b as [bs rc wc]. unfold advance, with_read_cursor. simpl. f_equal. lia.
  - unfold read_byte. erewrite ST_bind_Val; [|apply read_raw_ok; [done | unfold_words; lia | lia]].
    rewrite E. change (takeZ 1 (x :: rest)) with [x]. now rewrite be_decode_single.
Qed.

Lemma read_entry_nil b :
  buf_wf b -> remaining b = [] ->
  read_entry b = (Throw (InvalidInputException "Not enough data left in buffer"), b).
Proof.
  intros Hwf E. pose proof (remaining_empty _ Hwf E). unfold read_entry. apply ST_bind_Throw.
  apply ST_bind_Throw, read_raw_short; [done | unfold_words; lia | lia].
Qed.

Lemma enc_blob_head m :
  lenZ m <= INT32_MAX -> exists x rest, enc_blob m = x :: rest /\ byte_to_Z x < 128.
Proof.
  intros Hm. unfold enc_blob. pose proof (lenZ_nonneg m). pose proof (length_be_encode 4 (lenZ m)) as Hl.
  assert (be_decode (be_encode 4 (lenZ m)) = lenZ m) as Hd
    by (apply (be_decode_encode_uint 4); unfold_words; lia).
  destruct (be_encode 4 (lenZ m)) as [|x l]; [discriminate|]. exists x, (l ++ m). split; [done|].
  rewrite be_decode_cons in Hd. pose proof (be_decode_range l).
  assert (lenZ l = 3) as E3 by (unfold lenZ; injection Hl as Hl; lia). rewrite E3 in *.
  change (256 ^ 3) with 16777216 in *. unfold_words. lia.
Qed.

Lemma reads_entry m : lenZ m <= INT32_MAX -> reads read_entry (enc_blob m) m.
Proof.
  intros Hm b rest Hwf Hle E. destruct (enc_blob_head m Hm) as (x & l & Ex & Hx).
  rewrite (read_entry_cons b x (l ++ rest)); [|done|now rewrite E, Ex].
  rewrite (proj2 (Z.ltb_lt _ _)) by done. now apply (reads_blob m Hm b rest).
Qed.

Lemma parses_entry : parses read_entry (fun m => lenZ m <= INT32_MAX).
Proof.
  intros b Hwf. destruct (remaining b) as [|x rest] eqn:E.
  - rewrite read_entry_nil by done. split; [now destruct b|]. split; [lia|done].
  - rewrite (read_entry_cons b x rest) by done. destruct (byte_to_Z x <? 128).
    + now apply parses_blob.
    + pose proof (remaining_nonempty _ _ _ Hwf E). unfold advance. simpl. split; [done|]. split; [lia|done].
Qed.

(** Whatever is read was there: the bytes left before are those of the entry and
    the bytes left after. *)
Lemma read_raw_inv n b bs b' :
  buf_wf b -> 0 <= n <= UINT32_MAX -> read_raw n b = (Val bs, b') ->
  b' = advance n b /\ lenZ bs = n /\ remaining b = bs ++ remaining b' /\ buf_wf b'.
Proof.
  intros Hwf Hn E. destruct (Z.le_gt_cases (m_read_cursor b + n) (buffer_size b)) as [Hle|Hgt].
  - rewrite read_raw_ok in E by done. injection E as <- <-. split; [done|].
    assert (lenZ (takeZ n (remaining b)) = n) as Hl.
    { destruct Hwf as (_ & Hr & _). unfold remaining, buffer_size in *.
      rewrite lenZ_takeZ, lenZ_dropZ by lia. lia. }
    split; [done|]. split; [|now apply advance_wf; [|lia|]].
    pose proof (remaining_advance b (takeZ n (remaining b)) (dropZ n (remaining b)) Hwf) as H.
    assert (takeZ n (remaining b) ++ dropZ n (remaining b) = remaining b) as Htd by apply take_drop.
    rewrite Hl in H. rewrite H by done. now rewrite Htd.
  - rewrite read_raw_short in E by (done || lia). discriminate.
Qed.

Lemma read_bytes_inv n b bs b' :
  buf_wf b -> 0 <= n <= UINT32_MAX -> read_bytes n b = (Val bs, b') ->
  lenZ bs = n /\ remaining b = bs ++ remaining b' /\ buf_wf b'.
Proof.
  intros Hwf Hn. unfold read_bytes. destruct (Z.eqb_spec n 0) as [->|].
  - intros [= <- <-]. done.
  - intros E. apply read_raw_inv in E as (_ & ? & ? & ?); done.
Qed.

Lemma read_blob_inv b x rest m b' :
  buf_wf b -> remaining b = x :: rest -> byte_to_Z x < 128 -> read_blob b = (Val m, b') ->
  remaining b = enc_blob m ++ remaining b' /\ buf_wf b'.
Proof.
  intros Hwf Ex Hx E. unfold read_blob, read_int in E.
  apply ST_bind_inv in E as [(n & b1 & E1 & E2)|(e & _ & E)]; [|discriminate].
  apply ST_bind_inv in E1 as [(bs & b1' & E1 & E1')|(e & _ & E)]; [|discriminate].
  injection E1' as <- <-. apply read_raw_inv in E1 as (_ & Hl & Er & Hwf1); [|done|unfold_words; lia].
  assert (0 <= be_decode bs <= INT32_MAX) as Hd.
  { destruct bs as [|y bs]; [rewrite lenZ_nil in Hl; lia|]. rewrite Ex in Er. injection Er as <- _.
    rewrite be_decode_cons. rewrite lenZ_cons in Hl. pose proof (be_decode_range bs).
    pose proof (byte_to_Z_range x). replace (lenZ bs) with 3 in * by lia.
    change (256 ^ 3) with 16777216 in *. unfold_words. lia. }
  rewrite to_signed_id in E2 by (unfold_words; lia).
  assert (bs = be_encode 4 (be_decode bs)) as Hbs by (symmetry; apply be_encode_decode; unfold lenZ in Hl; lia).
  destruct (Z.leb_spec (be_decode bs) 0).
  - injection E2 as <- <-. split; [|done]. rewrite Er, Hbs. unfold enc_blob.
    replace (be_decode bs) with 0 by lia. change (lenZ []) with 0. now rewrite app_nil_r.
  - rewrite wrap_small in E2 by (unfold_words; lia).
    apply read_bytes_inv in E2 as (Hlm & Er2 & Hwf2); [|done|unfold_words; lia]. split; [|done].
    rewrite Er, Er2, app_assoc. unfold enc_blob. now rewrite Hlm, <- Hbs.
Qed.

Lemma read_entry_inv b m b' :
  buf_wf b -> read_entry b = (Val m, b') -> remaining b = enc_blob m ++ remaining b' /\ buf_wf b'.
Proof.
  intros Hwf E. destruct (remaining b) as [|x rest] eqn:Ex.
  - rewrite read_entry_nil in E by done. discriminate.
  - rewrite <- Ex. rewrite (read_entry_cons b x rest) in E by done.
    destruct (Z.ltb_spec (byte_to_Z x) 128); [|discriminate]. eapply read_blob_inv; done.
Qed.

Lemma read_entries_inv n b ms b' :
  buf_wf b -> st_repeat n read_entry b = (Val ms, b') ->
  remaining b = entries_bytes ms ++ remaining b' /\ buf_wf b' /\ length ms = n.
Proof.
  revert b ms. induction n as [|n IH]; intros b ms Hwf E; simpl in E.
  - injection E as <- <-. done.
  - apply ST_bind_inv in E as [(m & b1 & E1 & E2)|(e & _ & E)]; [|discriminate].
    apply ST_bind_inv in E2 as [(ms' & b2 & E2 & E3)|(e & _ & E)]; [|discriminate].
    injection E3 as <- <-. apply read_entry_inv in E1 as [Er1 Hwf1]; [|done].
    apply IH in E2 as (Er2 & Hwf2 & Hl); [|done]. split; [|split; [done | simpl; lia]].
    rewrite Er1, Er2. unfold entries_bytes. simpl. now rewrite app_assoc.
Qed.

Lemma fill_data_run data n :
  lenZ data <= UINT32_MAX ->
  fill_data data n empty_buffer = st_repeat (Z.to_nat n) read_entry (append data empty_buffer).
Proof.
  intros Hd. unfold fill_data. rewrite (ST_bind_Val _ _ _ tt (append data empty_buffer)); [done|].
  apply writes_bytes; [apply empty_at_end | exact Hd].
Qed.

Lemma append_empty_wf data : lenZ data <= UINT32_MAX -> buf_wf (append data empty_buffer).
Proof. intros. apply append_at_end; [apply empty_at_end | done]. Qed.

Lemma remaining_append_empty data : remaining (append data empty_buffer) = data.
Proof. reflexivity. Qed.

Lemma fill_data_inv data n ms b' :
  lenZ data <= UINT32_MAX -> 0 <= n -> fill_data data n empty_buffer = (Val ms, b') ->
  lenZ ms = n /\ exists rest, data = entries_bytes ms ++ rest.
Proof.
  intros Hd Hn E. rewrite fill_data_run in E by done.
  apply read_entries_inv in E as (Er & _ & Hl); [|now apply append_empty_wf].
  rewrite remaining_append_empty in Er. split; [unfold lenZ; lia | eauto].
Qed.

Lemma fill_data_parses data n :
  lenZ data <= UINT32_MAX -> 0 <= n ->
  match (fill_data data n empty_buffer).1 with
  | Val ms => lenZ ms = n /\ exists rest, data = entries_bytes ms ++ rest
  | Throw e => is_StreamException e = true
  end.
Proof.
  intros Hd Hn. pose proof (fill_data_inv data n) as Hinv.
  pose proof (parses_repeat (Z.to_nat n) _ _ parses_entry _ (append_empty_wf data Hd)) as Hp.
  rewrite <- (fill_data_run data n Hd) in Hp. destruct (fill_data data n empty_buffer) as [[ms|e] b'].
  - now apply (Hinv ms b').
  - apply Hp.
Qed.

Lemma fill_data_exact ms :
  Forall (fun m => lenZ m <= INT32_MAX) ms -> lenZ (entries_bytes ms) <= UINT32_MAX ->
  (fill_data (entries_bytes ms) (lenZ ms) empty_buffer).1 = Val ms.
Proof.
  intros Hms Hl. rewrite fill_data_run by done. unfold lenZ at 1. rewrite Nat2Z.id.
  rewrite (reads_append_empty _ _ ms); [done| |done].
  apply reads_repeat. eapply Forall_impl; [exact Hms|]. apply reads_entry.
Qed.

(** ** Safety and typing of the parsers *)

Lemma parses_on_local {A} (m : BM A) (P : A -> Prop) :
  match (m empty_buffer).1 with Val a => P a | Throw e => is_StreamException e = true end ->
  parses (on_local m) P.
Proof. intros H b Hwf. unfold on_local. split; [now destruct b|]. split; [lia | done]. Qed.

Lemma parses_properties : parses read_properties props_ok.
Proof.
  eapply parses_bind.
  - apply (parses_array _ (fun kv => str_ok kv.1 /\ str_ok kv.2)).
    eapply parses_bind; [apply parses_string|]. intros k Hk.
    eapply parses_bind; [apply parses_string|]. intros v Hv. now apply parses_ret.
  - intros kvs [Hl Hall]. apply parses_ret. split; [|split].
    + pose proof (lenZ_om_insert_all kvs []). change (lenZ (@nil (string * string))) with 0 in *. lia.
    + apply om_insert_all_sorted. constructor.
    + now apply om_insert_all_Forall.
Qed.

(** Read the next member, name it and its type, go on. *)
Ltac parse_member := eapply parses_bind; [solve [eauto with hare]|]; intros ? ?; cbv beta in *.
Ltac parse_members := repeat parse_member; apply parses_ret.

Lemma parses_chunk_header : parses read_chunk_header chunk_ok.
Proof. unfold read_chunk_header. parse_members. unfold chunk_ok. simpl. tauto. Qed.

Lemma parses_deliver version : parses (DeliverCommand_read_body version) deliver_ok.
Proof.
  unfold DeliverCommand_read_body. parse_member.
  eapply (parses_bind _ _ (fun o => match o with Some id => is_u64 id | None => True end)).
  { destruct (2 <=? version); [|now apply parses_ret]. parse_members. done. }
  intros committed Hc. eapply parses_bind; [apply parses_chunk_header|]. intros chunk Hchunk.
  assert (is_u32 (ch_data_len chunk) /\ is_u16 (ch_nb_entries chunk)) as [Hd Hn]
    by (unfold chunk_ok in Hchunk; tauto).
  eapply parses_bind; [apply parses_bytes; unfold_words; lia|]. intros data Hdata. simpl in Hdata.
  eapply parses_bind; [apply parses_on_local, fill_data_parses; unfold_words; lia|].
  intros ms [Hms [rest Hrest]]. apply parses_ret. unfold deliver_ok. simpl.
  do 4 (split; [done|]). apply (f_equal lenZ) in Hrest. rewrite lenZ_app in Hrest.
  pose proof (lenZ_nonneg rest). lia.
Qed.

Lemma parses_publishing_error : parses PublishingError_read publishing_error_ok.
Proof. unfold PublishingError_read. parse_members. done. Qed.

Lemma parses_broker : parses MetadataBroker_read broker_ok.
Proof. unfold MetadataBroker_read. parse_members. done. Qed.

Lemma parses_stream : parses MetadataStream_read stream_ok.
Proof.
  unfold MetadataStream_read. repeat parse_member.
  eapply parses_bind; [apply (parses_array _ is_u16); eauto with hare|]. intros. now apply parses_ret.
Qed.

Lemma parses_version : parses CommandVersion_read version_ok.
Proof. unfold CommandVersion_read. parse_members. done. Qed.

#[export] Hint Resolve parses_properties parses_deliver parses_publishing_error parses_broker
  parses_stream parses_version parses_array : hare.

Lemma parses_object {T} (m : BM T) (con : T -> ServerFrame) :
  parses m (fun c => server_typed (con c)) -> parses (c ← m; mret (con c)) server_typed.
Proof. intros Hm. eapply parses_bind; [exact Hm|]. intros c Hc. now apply parses_ret. Qed.

Create HintDb server_frames.
#[export] Hint Unfold ServerRequestOrResponse_read_header
  PublishConfirmCommand_read_body PublishErrorCommand_read_body
  QueryPublisherSequenceResponse_read_body CreditErrorCommand_read_body QueryOffsetResponse_read_body
  MetadataResponse_read_body MetadataUpdateCommand_read_body PeerPropertiesResponse_read_body
  SaslHandshakeResponse_read_body SaslAuthenticateResponse_read_body ServerTuneCommand_read_body
  OpenResponse_read_body ServerCloseRequest_read_body GenericResponse_read_body
  ExchangeCommandVersionsResponse_read_body : server_frames.

Lemma deserialize_kind_parses k : parses (deserialize_kind k) server_typed.
Proof.
  destruct k; simpl; apply parses_object; simpl; autounfold with server_frames.
  all: try solve [eauto with hare].
  all: try solve [parse_members; simpl; unfold array_ok; tauto].
  - do 1 parse_member. destruct (Z.eqb_spec a (rc_value StreamNotAvailable)).
    + parse_members. simpl. done.
    + now apply parses_ret.
  - do 2 parse_member. destruct (Z.eqb_spec a0 (rc_value SaslChallenge)).
    + parse_members. simpl. done.
    + now apply parses_ret.
Qed.

(** C14: deserializing any class of server frame, from a well-formed buffer with
    arbitrary contents, never reads outside the buffer: it leaves the bytes as
    they are, moves the read cursor forwards and within the buffer, and ends
    with a well-typed object or with a [StreamException]. *)
Theorem deserialize_safe k : parses (deserialize_kind k) server_typed.
Proof. apply deserialize_kind_parses. Qed.

(** ** Reference encodings *)

Definition enc_publishing_error (e : PublishingError) : list byte :=
  be_encode 8 (pe_sequence e) ++ be_encode 2 (pe_code e).
Definition enc_broker (b : MetadataBroker) : list byte :=
  be_encode 2 (mb_reference b) ++ enc_string (mb_host b) ++ be_encode 4 (mb_port b).
Definition enc_stream (s : MetadataStream) : list byte :=
  enc_string (ms_stream_name s) ++ be_encode 2 (ms_code s) ++ be_encode 2 (ms_leader s)
  ++ enc_array (be_encode 2) (ms_replicas s).
Definition enc_chunk_header (c : Chunk) : list byte :=
  be_encode 1 (ch_magic_version c) ++ be_encode 1 (ch_chunk_type c)
  ++ be_encode 2 (ch_nb_entries c) ++ be_encode 4 (ch_nb_records c)
  ++ be_encode 8 (ch_timestamp c) ++ be_encode 8 (ch_epoch c) ++ be_encode 8 (ch_offset c)
  ++ be_encode 4 (ch_chunk_crc c) ++ be_encode 4 (ch_data_len c)
  ++ be_encode 4 (ch_trailer_len c) ++ be_encode 4 (ch_reserved c).

Definition server_bytes (f : ServerFrame) : list byte :=
  match f with
  | SPublishConfirm (MkPublishConfirmCommand id seqs) => be_encode 1 id ++ enc_array (be_encode 8) seqs
  | SPublishError (MkPublishErrorCommand id errs) => be_encode 1 id ++ enc_array enc_publishing_error errs
  | SQueryPublisherSequence (MkQueryPublisherSequenceResponse corr code seq) =>
      be_encode 4 corr ++ be_encode 2 code ++ be_encode 8 seq
  | SDeliver (MkDeliverCommand id committed chunk ms) =>
      be_encode 1 id ++ match committed with Some c => be_encode 8 c | None => [] end
      ++ enc_chunk_header chunk ++ entries_bytes ms
  | SCreditError (MkCreditErrorCommand code id) => be_encode 2 code ++ be_encode 1 id
  | SQueryOffset (MkQueryOffsetResponse corr code offset) =>
      be_encode 4 corr ++ be_encode 2 code ++ be_encode 8 offset
  | SMetadata (MkMetadataResponse corr brokers streams) =>
      be_encode 4 corr ++ enc_array enc_broker brokers ++ enc_array enc_stream streams
  | SMetadataUpdate (MkMetadataUpdateCommand code name) =>
      be_encode 2 code ++ if code =? rc_value StreamNotAvailable then enc_string name else []
  | SPeerProperties (MkPeerPropertiesResponse corr code props) =>
      be_encode 4 corr ++ be_encode 2 code ++ enc_array enc_property props
  | SSaslHandshake (MkSaslHandshakeResponse corr code mechs) =>
      be_encode 4 corr ++ be_encode 2 code ++ enc_array enc_string mechs
  | SSaslAuthenticate (MkSaslAuthenticateResponse corr code data) =>
      be_encode 4 corr ++ be_encode 2 code ++ if code =? rc_value SaslChallenge then enc_blob data else []
  | STune (MkServerTuneCommand size heartbeat) => be_encode 4 size ++ be_encode 4 heartbeat
  | SOpen (MkOpenResponse corr code props) =>
      be_encode 4 corr ++ be_encode 2 code ++ enc_array enc_property props
  | SClose (MkServerCloseRequest corr code reason) =>
      be_encode 4 corr ++ be_encode 2 code ++ enc_string reason
  | SGeneric (MkGenericResponse corr code) => be_encode 4 corr ++ be_encode 2 code
  | SExchangeVersions (MkExchangeCommandVersionsResponse corr code versions) =>
      be_encode 4 corr ++ be_encode 2 code ++ enc_array enc_version versions
  end.

Definition server_kind (f : ServerFrame) : ServerKind :=
  match f with
  | SPublishConfirm _ => KindPublishConfirm | SPublishError _ => KindPublishError
  | SQueryPublisherSequence _ => KindQueryPublisherSequence
  | SDeliver c => KindDeliver match Deliver_committed_chunk_id c with Some _ => 2 | None => 1 end
  | SCreditError _ => KindCreditError | SQueryOffset _ => KindQueryOffset
  | SMetadata _ => KindMetadata | SMetadataUpdate _ => KindMetadataUpdate
  | SPeerProperties _ => KindPeerProperties | SSaslHandshake _ => KindSaslHandshake
  | SSaslAuthenticate _ => KindSaslAuthenticate | STune _ => KindTune | SOpen _ => KindOpen
  | SClose _ => KindClose | SGeneric _ => KindGeneric | SExchangeVersions _ => KindExchangeVersions
  end.

(** The data of a chunk is its entries and nothing else. *)
Definition server_valid (f : ServerFrame) : Prop :=
  server_typed f /\
  match f with
  | SDeliver c => Forall (fun m => lenZ m <= INT32_MAX) (Deliver_messages c) /\
                  ch_data_len (Deliver_chunk c) = lenZ (entries_bytes (Deliver_messages c))
  | _ => True
  end.

(** ** Exactness of the parsers *)

Lemma reads_array_ok {X} (rd : BM X) (enc : X -> list byte) (P : X -> Prop) xs :
  (forall x, P x -> reads rd (enc x) x) -> array_ok P xs -> reads (read_array rd) (enc_array enc xs) xs.
Proof. intros H [Hl Hall]. apply reads_array; [done|]. eapply Forall_impl; [exact Hall | done]. Qed.

Lemma reads_publishing_error e :
  publishing_error_ok e -> reads PublishingError_read (enc_publishing_error e) e.
Proof. intros [? ?]. unfold PublishingError_read, enc_publishing_error. destruct e. solve_reads. Qed.

Lemma reads_broker b : broker_ok b -> reads MetadataBroker_read (enc_broker b) b.
Proof. intros (? & ? & ?). unfold MetadataBroker_read, enc_broker. destruct b. solve_reads. Qed.

Lemma reads_replicas l : array_ok is_u16 l -> reads (read_array read_ushort) (enc_array (be_encode 2) l) l.
Proof. apply reads_array_ok. auto with hare. Qed.

#[export] Hint Resolve reads_replicas : hare.

Lemma reads_stream s : stream_ok s -> reads MetadataStream_read (enc_stream s) s.
Proof.
  intros (? & ? & ? & ?). unfold MetadataStream_read, enc_stream.
  destruct s. simpl in *. solve_reads. 
Qed.

Lemma reads_version v : version_ok v -> reads CommandVersion_read (enc_version v) v.
Proof. intros (? & ? & ?). unfold CommandVersion_read, enc_version. destruct v. solve_reads. Qed.

Lemma reads_sequences l : array_ok is_u64 l -> reads (read_array read_ulong) (enc_array (be_encode 8) l) l.
Proof. apply reads_array_ok. auto with hare. Qed.

Lemma reads_publishing_errors l :
  array_ok publishing_error_ok l -> reads (read_array PublishingError_read) (enc_array enc_publishing_error l) l.
Proof. apply reads_array_ok, reads_publishing_error. Qed.

Lemma reads_brokers l : array_ok broker_ok l -> reads (read_array MetadataBroker_read) (enc_array enc_broker l) l.
Proof. apply reads_array_ok, reads_broker. Qed.

Lemma reads_streams l : array_ok stream_ok l -> reads (read_array MetadataStream_read) (enc_array enc_stream l) l.
Proof. apply reads_array_ok, reads_stream. Qed.

Lemma reads_mechanisms l : array_ok str_ok l -> reads (read_array read_string) (enc_array enc_string l) l.
Proof. apply reads_array_ok. auto with hare. Qed.

Lemma reads_command_versions l :
  array_ok version_ok l -> reads (read_array CommandVersion_read) (enc_array enc_version l) l.
Proof. apply reads_array_ok, reads_version. Qed.

Lemma reads_chunk_header c : chunk_ok c -> reads read_chunk_header (enc_chunk_header c) c.
Proof.
  intros Hc. unfold chunk_ok in Hc. destruct_and? Hc. unfold read_chunk_header, enc_chunk_header.
  destruct c; simpl in *. solve_reads.
Qed.

#[export] Hint Resolve reads_sequences reads_publishing_errors reads_brokers
  reads_streams reads_mechanisms reads_command_versions reads_chunk_header : hare.

Lemma reads_on_local {A} (m : BM A) a : (m empty_buffer).1 = Val a -> reads (on_local m) [] a.
Proof.
  intros H b rest _ _ _. unfold on_local. rewrite H. change (lenZ []) with 0. now rewrite advance_0.
Qed.

Lemma reads_deliver c :
  server_valid (SDeliver c) ->
  reads (DeliverCommand_read_body match Deliver_committed_chunk_id c with Some _ => 2 | None => 1 end)
        (server_bytes (SDeliver c)) c.
Proof.
  destruct c as [id committed chunk ms]. intros [(Hid & Hc & Hchunk & Hn & Hle) [Hms Hd]]. simpl in *.
  unfold DeliverCommand_read_body. eapply reads_bind; [auto with hare|].
  eapply (reads_bind _ _ _ _ committed).
  { destruct committed as [cid|]; [|apply reads_ret]. apply (reads_fmap _ Some). auto with hare. }
  eapply reads_bind; [auto with hare|].
  rewrite <- (app_nil_r (entries_bytes ms)), Hd.
  assert (lenZ (entries_bytes ms) <= UINT32_MAX).
  { unfold chunk_ok in Hchunk. unfold_words. lia. }
  eapply reads_bind; [apply reads_bytes; lia|].
  apply (reads_fmap _ (MkDeliverCommand id committed chunk)), reads_on_local.
  rewrite <- Hn. now apply fill_data_exact.
Qed.

Lemma reads_server_frame f :
  server_valid f -> reads (deserialize_kind (server_kind f)) (server_bytes f) f.
Proof.
  destruct f as [c|c|c|c|c|c|c|c|c|c|c|c|c|c|c|c]; intros Hv.
  4: { apply (reads_fmap _ SDeliver), reads_deliver, Hv. }
  all: destruct Hv as [Hv _]; simpl;
    match goal with |- reads _ _ (?con ?x) => apply (reads_fmap _ con) end;
    destruct c; simpl in *; autounfold with server_frames; destruct_and? Hv.
  all: try solve [solve_reads].
  - eapply reads_bind; [auto with hare|].
    simpl. match goal with |- context [?a =? ?b] => destruct (Z.eqb_spec a b) end; [solve_reads|].
    match goal with H : _ -> _ = EmptyString |- _ => rewrite H by done end. apply reads_ret.
  - do 2 (eapply reads_bind; [auto with hare|]).
    simpl. match goal with |- context [?a =? ?b] => destruct (Z.eqb_spec a b) end; [solve_reads|].
    match goal with H : _ -> _ = [] |- _ => rewrite H by done end. apply reads_ret.
Qed.

(** C31: parsing is exact: from a buffer that starts with the reference encoding
    of any valid server frame, deserializing its class returns that frame and
    consumes exactly the encoding, whatever bytes follow.  For a delivery this
    includes every message of the chunk, in order. *)
Theorem deserialize_exact f :
  server_valid f -> reads (deserialize_kind (server_kind f)) (server_bytes f) f.
Proof. apply reads_server_frame. Qed.

Definition deliver_example : DeliverCommand :=
  MkDeliverCommand 3 (Some 17) (MkChunk 0x50 CHUNK_TYPE_USER 2 2 1700000000000 1 40 0 11 0 0)
                   [[x61; x62]; [x63]].

Lemma deserialize_exact_witness :
  reads (deserialize_kind (KindDeliver 2)) (server_bytes (SDeliver deliver_example))
        (SDeliver deliver_example).
Proof.
  apply (deserialize_exact (SDeliver deliver_example)).
  split; [|split; [repeat constructor; vm_compute; congruence | reflexivity]].
  repeat split; vm_compute; congruence.
Defined.

(** ** Deliveries *)

Lemma parses_consumes {A} (m : BM A) (P : A -> Prop) b r b' :
  parses m P -> buf_wf b -> m b = (r, b') -> buf_wf b' /\ exists bs, remaining b = bs ++ remaining b'.
Proof.
  intros Hm Hwf E. specialize (Hm b Hwf). rewrite E in Hm. destruct Hm as (Eb & Hc & _).
  split; [rewrite Eb; now apply with_read_cursor_wf|].
  exists (takeZ (m_read_cursor b' - m_read_cursor b) (remaining b)).
  destruct Hwf as (_ & Hr & _). rewrite Eb. unfold remaining. simpl.
  replace (m_read_cursor b') with (m_read_cursor b + (m_read_cursor b' - m_read_cursor b)) at 2 by lia.
  rewrite <- dropZ_add by lia. symmetry. apply take_drop.
Qed.

(** A delivery that parses contains nothing but what the broker sent: the
    bytes consumed end with the chunk's [data_len] data bytes, these start with
    the entries of exactly the messages returned, in order, and there are
    [nb_entries] of them. *)
Theorem deliver_sound version b c b' :
  buf_wf b -> DeliverCommand_read_body version b = (Val c, b') ->
  lenZ (Deliver_messages c) = ch_nb_entries (Deliver_chunk c) /\
  exists header data rest,
    remaining b = header ++ data ++ remaining b' /\
    lenZ data = ch_data_len (Deliver_chunk c) /\
    data = entries_bytes (Deliver_messages c) ++ rest.
Proof.
  intros Hwf E. unfold DeliverCommand_read_body in E.
  apply ST_bind_inv in E as [(id & b1 & E1 & E)|(e & _ & E)]; [|discriminate].
  apply (parses_consumes _ _ _ _ _ parses_byte Hwf) in E1 as (Hwf1 & h1 & Er1).
  apply ST_bind_inv in E as [(cid & b2 & E2 & E)|(e & _ & E)]; [|discriminate].
  apply (parses_consumes _ (fun _ => True)) in E2 as (Hwf2 & h2 & Er2); [|clear E2|done].
  2: { destruct (2 <=? version); [|now apply parses_ret].
       eapply parses_bind; [auto with hare|]. intros. now apply parses_ret. }
  apply ST_bind_inv in E as [(chunk & b3 & E3 & E)|(e & _ & E)]; [|discriminate].
  pose proof (parses_chunk_header b2 Hwf2) as Hchunk. rewrite E3 in Hchunk.
  destruct Hchunk as (_ & _ & Hchunk).
  apply (parses_consumes _ _ _ _ _ parses_chunk_header Hwf2) in E3 as (Hwf3 & h3 & Er3).
  apply ST_bind_inv in E as [(data & b4 & E4 & E)|(e & _ & E)]; [|discriminate].
  apply ST_bind_inv in E as [(ms & b5 & E5 & E)|(e & _ & E)]; [|discriminate].
  injection E5 as E5 <-. injection E as <- <-. simpl.
  assert (0 <= ch_data_len chunk <= UINT32_MAX) as Hd by (unfold chunk_ok in Hchunk; unfold_words; lia).
  assert (0 <= ch_nb_entries chunk) as Hn by (unfold chunk_ok in Hchunk; unfold_words; lia).
  apply read_bytes_inv in E4 as (Hl & Er4 & Hwf4); [|done|done].
  destruct (fill_data data (ch_nb_entries chunk) empty_buffer) as [o b''] eqn:Ef. simpl in E5. subst o.
  apply fill_data_inv in Ef as (Hms & rest & Hrest); [|lia|done]. split; [done|].
  exists (h1 ++ h2 ++ h3), data, rest. split; [|done].
  rewrite Er1, Er2, Er3, Er4. now rewrite <- !app_assoc.
Qed.

Definition deliver_example_buffer : BinaryBuffer :=
  append (server_bytes (SDeliver deliver_example) ++ [xff]) empty_buffer.

Lemma deliver_sound_witness :
  exists b', DeliverCommand_read_body 2 deliver_example_buffer = (Val deliver_example, b') /\
  lenZ (Deliver_messages deliver_example) = 2 /\
  exists header data rest,
    remaining deliver_example_buffer = header ++ data ++ remaining b' /\ lenZ data = 11 /\
    data = entries_bytes (Deliver_messages deliver_example) ++ rest.
Proof.
  eexists. split; [vm_compute; reflexivity|].
  eapply (deliver_sound 2 deliver_example_buffer deliver_example).
  - repeat split; vm_compute; congruence.
  - vm_compute. reflexivity.
Defined.

Definition SUB_ENTRY_MESSAGE : string := "Sub entry batching is not currently supported".

Lemma read_entries_batch ms x rest n b :
  buf_wf b -> m_read_cursor b <= buffer_size b ->
  Forall (fun m => lenZ m <= INT32_MAX) ms -> 128 <= byte_to_Z x -> (length ms < n)%nat ->
  remaining b = entries_bytes ms ++ x :: rest ->
  (st_repeat n read_entry b).1 = Throw (StreamException SUB_ENTRY_MESSAGE).
Proof.
  intros Hwf Hc Hms Hx. revert n b Hwf Hc.
  induction Hms as [|m ms Hm Hms IH]; intros [|n] b Hwf Hc Hn E; simpl in Hn; try lia; simpl.
  - unfold mbind, ST_bind. rewrite (read_entry_cons b x rest) by done.
    now rewrite (proj2 (Z.ltb_ge _ _)) by lia.
  - unfold entries_bytes in E. simpl in E. rewrite <- app_assoc in E.
    pose proof (remaining_split _ _ _ Hwf Hc E).
    erewrite ST_bind_Val; [|now apply (reads_entry m Hm b _ Hwf Hc E)].
    unfold mbind, ST_bind. specialize (IH n (advance (lenZ (enc_blob m)) b)).
    destruct (st_repeat n read_entry _) as [o b']. simpl in IH. rewrite IH.
    + done.
    + apply advance_wf; [done | apply lenZ_nonneg | done].
    + unfold advance, buffer_size in *. simpl. lia.
    + lia.
    + now apply remaining_advance.
Qed.

(** A chunk in which a batch of sub entries follows fewer than
    [nb_entries] plain messages is refused with the [StreamException] that says
    so; its messages are not delivered in part. *)
Theorem deliver_batch_refused id chunk ms x rest tail b :
  buf_wf b -> m_read_cursor b <= buffer_size b ->
  is_u8 id -> chunk_ok chunk -> Forall (fun m => lenZ m <= INT32_MAX) ms ->
  128 <= byte_to_Z x -> lenZ ms < ch_nb_entries chunk ->
  ch_data_len chunk = lenZ (entries_bytes ms ++ x :: rest) ->
  remaining b = be_encode 1 id ++ enc_chunk_header chunk ++ (entries_bytes ms ++ x :: rest) ++ tail ->
  (DeliverCommand_read_body 1 b).1 = Throw (StreamException SUB_ENTRY_MESSAGE).
Proof.
  intros Hwf Hc Hid Hchunk Hms Hx Hn Hd Er. unfold DeliverCommand_read_body.
  assert (lenZ (entries_bytes ms ++ x :: rest) <= UINT32_MAX) as Hl
    by (unfold chunk_ok in Hchunk; unfold_words; lia).
  assert (reads (id ← read_byte; chunk ← read_chunk_header; data ← read_bytes (ch_data_len chunk);
                 mret (id, chunk, data))
            (be_encode 1 id ++ enc_chunk_header chunk ++ (entries_bytes ms ++ x :: rest) ++ [])
            (id, chunk, entries_bytes ms ++ x :: rest)) as Hreads.
  { eapply reads_bind; [auto with hare|]. eapply reads_bind; [auto with hare|]. rewrite Hd.
    eapply reads_bind; [apply reads_bytes, Hl | apply reads_ret]. }
  specialize (Hreads b tail Hwf Hc). rewrite app_nil_r, <- !app_assoc in Hreads.
  rewrite <- !app_assoc in Er. specialize (Hreads Er). revert Hreads. unfold mbind, ST_bind.
  destruct (read_byte b) as [[i|] b1]; [|discriminate]. simpl.
  destruct (read_chunk_header b1) as [[ch|] b2]; [|discriminate].
  destruct (read_bytes (ch_data_len ch) b2) as [[data|] b3]; [|discriminate].
  intros [= -> -> -> _]. unfold on_local. rewrite fill_data_run by done.
  rewrite (read_entries_batch ms x rest); [done|now apply append_empty_wf|apply lenZ_nonneg|done|done| |done].
  unfold lenZ in Hn. lia.
Qed.

Lemma deliver_batch_refused_witness :
  (DeliverCommand_read_body 1 (append (be_encode 1 3
     ++ enc_chunk_header (MkChunk 0x50 0 2 2 0 1 40 0 7 0 0)
     ++ (entries_bytes [[x61; x62]] ++ [x80]) ++ []) empty_buffer)).1
  = Throw (StreamException SUB_ENTRY_MESSAGE).
Proof.
  eapply (deliver_batch_refused 3 (MkChunk 0x50 0 2 2 0 1 40 0 7 0 0) [[x61; x62]] x80 [] []);
    [| | | |repeat constructor| | | |reflexivity];
    first [reflexivity | vm_compute; congruence | repeat split; vm_compute; congruence].
Defined.
