(* ===== verification/Fluent.v ===== *)
(** * Fluent interfaces

    [ClientParameters] and the builders have every setter twice: [f(...) &]
    changes the object and returns a reference to it, [f(...) &&] is called on
    an object that is about to die, calls the first overload and moves the
    object into its result.  [Fluent] is this convention: what a class
    provides, and that the second overload is the first followed by a move. *)

From S2P Require Import Prelude Types.

(** An object, or one whose members were moved away: its value is unspecified
    and no code may rely on it. *)
Inductive Object (B : Type) : Type :=
| Live (b : B)
| MovedFrom.
Arguments Live {B} b.
Arguments MovedFrom {B}.

Abbreviation Setter B := (B -> outcome exn B).

(** [object.f(...)] on an lvalue. *)
Definition lvalue_call {B} (f : Setter B) : ST (Object B) exn unit := fun o =>
  match o with
  | Live b => match f b with Val b' => (Val tt, Live b') | Throw e => (Throw e, Live b) end
  | MovedFrom => (Throw UndefinedBehaviour, MovedFrom)
  end.

(** [return std::move(this->f(...))] on an rvalue: the result is constructed
    from the members of the object. *)
Definition rvalue_call {B} (f : Setter B) : ST (Object B) exn B := fun o =>
  match o with
  | Live b => match f b with Val b' => (Val b', MovedFrom) | Throw e => (Throw e, Live b) end
  | MovedFrom => (Throw UndefinedBehaviour, MovedFrom)
  end.

(** A setter that cannot fail. *)
Definition total {B} (f : B -> B) : Setter B := fun b => Val (f b).

(** A class with setters: [Call] names a call with its arguments. *)
Class Fluent (B Call : Type) := {
  setter : Call -> Setter B;
  setter_rvalue : Call -> ST (Object B) exn B;
  setter_rvalue_moves c o : setter_rvalue c o = rvalue_call (setter c) o
}.

Section chains.
Context {B Call : Type} `{Fluent B Call}.
Implicit Types (b : B) (calls : list Call).

(** [b.f1(...).f2(...)], every call on the object itself. *)
Definition lvalue_chain calls : ST (Object B) exn unit := st_iter (fun c => lvalue_call (setter c)) calls.

(** [B().f1(...).f2(...)], every call on the temporary that the previous one
    returned. *)
Fixpoint rvalue_chain calls b : outcome exn B :=
  match calls with
  | [] => Val b
  | c :: calls => b' ← (setter_rvalue c (Live b)).1; rvalue_chain calls b'
  end.

(** The setters one after the other. *)
Fixpoint apply_calls calls b : outcome exn B :=
  match calls with
  | [] => Val b
  | c :: calls => b' ← setter c b; apply_calls calls b'
  end.

Lemma rvalue_chain_apply calls b : rvalue_chain calls b = apply_calls calls b.
Proof.
  revert b. induction calls as [|c calls IH]; intros b; simpl; [done|].
  rewrite setter_rvalue_moves. simpl. destruct (setter c b); simpl; [apply IH | done].
Qed.

Lemma lvalue_chain_apply calls b :
  match apply_calls calls b with
  | Val b' => lvalue_chain calls (Live b) = (Val tt, Live b')
  | Throw e => exists b', lvalue_chain calls (Live b) = (Throw e, Live b')
  end.
Proof.
  revert b. induction calls as [|c calls IH]; intros b; simpl; [done|].
  unfold lvalue_chain in *. cbn [st_iter]. destruct (setter c b) as [b'|e] eqn:E; simpl.
  - rewrite (ST_bind_Val _ _ _ tt (Live b')); [apply IH | simpl; now rewrite E].
  - exists b. apply ST_bind_Throw. simpl. now rewrite E.
Qed.

(** Whatever holds of the object and is kept by the calls with good arguments
    holds after a chain that does not throw; a chain throws exactly when one of
    its calls has a bad argument.  [typed] is what the types of C++ say of the
    arguments. *)
Lemma apply_calls_inv (P : B -> Prop) (typed : Call -> Prop) (good : Call -> bool) calls b :
  (forall c b, typed c -> P b ->
     match setter c b with
     | Val b' => good c = true /\ P b'
     | Throw e => good c = false /\ is_InvalidInput e = true
     end) ->
  Forall typed calls -> P b ->
  match apply_calls calls b with
  | Val b' => forallb good calls = true /\ P b'
  | Throw e => forallb good calls = false /\ is_InvalidInput e = true
  end.
Proof.
  intros Hc Ht. revert b. induction Ht as [|c calls Hty _ IH]; intros b Hb; simpl; [done|].
  specialize (Hc c b Hty Hb). destruct (setter c b) as [b'|e]; simpl; destruct Hc as [-> Hc]; [apply IH | ]; done.
Qed.

End chains.
