(* ===== verification/Messages.v ===== *)
(** * Messages and codecs

    Models [src/message_builder.cpp], [include/hareflow/codec.h] and
    [src/codec.cpp].  [Codec] is the interface through which the producer and
    the consumer turn messages into bytes and back; [RawCodec] is one
    instance, [QpidCodec] has the other. *)

From S2P Require Import Prelude Words OrdMap Types Fluent.

(** ** The builder *)

Record MessageBuilder := MkMessageBuilder {
  builder_body : list byte;
  builder_headers : Properties
}.

Definition new_MessageBuilder : MessageBuilder := MkMessageBuilder [] [].

Definition body_vector (data : list byte) (b : MessageBuilder) : MessageBuilder :=
  MkMessageBuilder data (builder_headers b).

Definition body_string (data : string) (b : MessageBuilder) : MessageBuilder :=
  MkMessageBuilder (str_bytes data) (builder_headers b).

(** The [data_size] bytes that start at [data]; reading past the bytes [data]
    points to is undefined behaviour. *)
Definition body_raw (data : list byte) (data_size : Z) (b : MessageBuilder) : outcome exn MessageBuilder :=
  if data_size <=? lenZ data then Val (MkMessageBuilder (takeZ data_size data) (builder_headers b))
  else Throw UndefinedBehaviour.

Definition headers (h : Properties) (b : MessageBuilder) : MessageBuilder :=
  MkMessageBuilder (builder_body b) h.

Definition build (b : MessageBuilder) : Message := MkMessage (builder_body b) (builder_headers b).

(** The overloads for rvalues. *)
Definition body_vector_rvalue (data : list byte) : ST (Object MessageBuilder) exn MessageBuilder :=
  rvalue_call (total (body_vector data)).
Definition body_string_rvalue (data : string) : ST (Object MessageBuilder) exn MessageBuilder :=
  rvalue_call (total (body_string data)).
Definition body_raw_rvalue (data : list byte) (data_size : Z) : ST (Object MessageBuilder) exn MessageBuilder :=
  rvalue_call (body_raw data data_size).
Definition headers_rvalue (h : Properties) : ST (Object MessageBuilder) exn MessageBuilder :=
  rvalue_call (total (headers h)).

Definition build_rvalue (o : Object MessageBuilder) : outcome exn Message * Object MessageBuilder :=
  match o with
  | Live b => (Val (build b), MovedFrom)
  | MovedFrom => (Throw UndefinedBehaviour, MovedFrom)
  end.

Inductive builder_call :=
| MsgBodyVector (data : list byte)
| MsgBodyString (data : string)
| MsgBodyRaw (data : list byte) (data_size : Z)
| MsgHeaders (h : Properties).

Definition message_setter (c : builder_call) : Setter MessageBuilder :=
  match c with
  | MsgBodyVector data => total (body_vector data)
  | MsgBodyString data => total (body_string data)
  | MsgBodyRaw data data_size => body_raw data data_size
  | MsgHeaders h => total (headers h)
  end.

Definition message_setter_rvalue (c : builder_call) : ST (Object MessageBuilder) exn MessageBuilder :=
  match c with
  | MsgBodyVector data => body_vector_rvalue data
  | MsgBodyString data => body_string_rvalue data
  | MsgBodyRaw data data_size => body_raw_rvalue data data_size
  | MsgHeaders h => headers_rvalue h
  end.

#[export, refine] Instance MessageBuilder_Fluent : Fluent MessageBuilder builder_call := {|
  setter := message_setter;
  setter_rvalue := message_setter_rvalue
|}.
Proof. now intros [] o. Defined.

(** ** Codecs *)

Class Codec (C : Type) := {
  codec_encode : C -> Message -> outcome exn (list byte);
  codec_decode : C -> list byte -> Z -> outcome exn Message
}.

Inductive RawCodec := MkRawCodec.

Definition RawCodec_encode (message : Message) : outcome exn (list byte) :=
  if negb (bool_decide (msg_headers message = []))
  then Throw (InvalidInputException "headers not supported for RawCodec")
  else Val (msg_body message).

Definition RawCodec_decode (data : list byte) (data_size : Z) : outcome exn Message :=
  b ← body_raw data data_size new_MessageBuilder;
  mret (build b).

#[export] Instance RawCodec_Codec : Codec RawCodec := {|
  codec_encode _ := RawCodec_encode;
  codec_decode _ := RawCodec_decode
|}.

(** What the client relies on: decoding the bytes of a message fails, if at all,
    with a [StreamException]. *)
Class CodecDecodes (C : Type) `{Codec C} :=
  decode_throws (c : C) bs e : codec_decode c bs (lenZ bs) = Throw e -> is_StreamException e = true.

Lemma takeZ_all {A} (l : list A) : takeZ (lenZ l) l = l.
Proof. unfold takeZ, lenZ. rewrite Nat2Z.id. now apply take_ge. Qed.

(** The raw codec encodes a message exactly when it has no headers; what it
    encodes, it decodes to the same message. *)
Theorem raw_codec_roundtrip m :
  match RawCodec_encode m with
  | Val bs => msg_headers m = [] /\ RawCodec_decode bs (lenZ bs) = Val m
  | Throw e => msg_headers m <> [] /\ is_InvalidInput e = true
  end.
Proof.
  unfold RawCodec_encode. destruct (bool_decide_reflect (msg_headers m = [])) as [H|H]; simpl; [|done].
  split; [done|]. unfold RawCodec_decode, body_raw. rewrite Z.leb_refl, takeZ_all.
  destruct m as [b h]. simpl in *. now subst h.
Qed.

#[export] Instance RawCodec_decodes : CodecDecodes RawCodec.
Proof. intros c bs e. simpl. unfold RawCodec_decode, body_raw. now rewrite Z.leb_refl. Qed.

Lemma RawCodec_decode_all bs : RawCodec_decode bs (lenZ bs) = Val (MkMessage bs []).
Proof. unfold RawCodec_decode, body_raw. now rewrite Z.leb_refl, takeZ_all. Qed.
