(* ===== verification/QpidCodec.v ===== *)
(** * The AMQP codec

    Models [include/hareflow/qpid_proton_codec.h] and
    [src/qpid_proton_codec.cpp].  Qpid Proton is a third-party library: the class
    [Proton] has the operations of [proton::message] that the codec calls and
    what the codec relies on of them.  The buffer and the message that each
    function keeps in thread-local storage are its state. *)

From S2P Require Import Prelude Words OrdMap Types Fluent Messages.

(** [pn_body] and [pn_properties] are [proton::coerce] of the body to
    [proton::binary] and of the properties to a map of strings.  [pn_exn]: a
    [proton::error] that leaves the codec, which is not a [StreamException]. *)
Class Proton := {
  pn_error : Type;
  pn_what : pn_error -> string;
  pn_exn : pn_error -> exn;
  pn_message : Type;
  pn_new : pn_message;
  pn_clear : pn_message -> pn_message;
  pn_set_body : list byte -> pn_message -> pn_message;
  pn_set_properties : Properties -> pn_message -> pn_message;
  pn_encode : pn_message -> list byte -> outcome pn_error (list byte);
  pn_decode : list byte -> pn_message -> outcome pn_error unit * pn_message;
  pn_body : pn_message -> outcome pn_error (list byte);
  pn_properties : pn_message -> outcome pn_error Properties
}.

(** What the codec relies on. *)
Class ProtonLaws `{Proton} := {
  pn_exn_foreign e : is_StreamException (pn_exn e) = false;
  pn_clear_new m : pn_clear m = pn_new;
  pn_decode_encode m bs : pn_encode m [] = Val bs ->
    exists m', pn_decode bs pn_new = (Val tt, m') /\ pn_body m' = pn_body m /\ pn_properties m' = pn_properties m;
  pn_body_set b m : pn_body (pn_set_body b m) = Val b;
  pn_body_properties h m : pn_body (pn_set_properties h m) = pn_body m;
  pn_properties_set h m : pn_properties (pn_set_properties h m) = Val h;
  pn_properties_body b m : pn_properties (pn_set_body b m) = pn_properties m;
  pn_properties_new : pn_properties pn_new = Val []
}.

Section codec.
Context `{ProtonLaws}.

(** The [thread_local] variables of a function. *)
Record CodecLocals := MkCodecLocals {
  encoded_chars : list byte;
  amqp_message : pn_message
}.

Definition new_CodecLocals : CodecLocals := MkCodecLocals [] pn_new.

Abbreviation QM A := (ST CodecLocals exn A).

Definition clear_locals : QM unit := st_modify (fun t => MkCodecLocals [] (pn_clear (amqp_message t))).

Definition on_message (f : pn_message -> pn_message) : QM unit :=
  st_modify (fun t => MkCodecLocals (encoded_chars t) (f (amqp_message t))).

Definition qpid_encode (message : Message) : QM (list byte) :=
  clear_locals ;;
  on_message (pn_set_body (msg_body message)) ;;
  (if bool_decide (msg_headers message = []) then mret tt
   else on_message (pn_set_properties (msg_headers message))) ;;
  t ← st_get;
  match pn_encode (amqp_message t) (encoded_chars t) with
  | Val bs => st_put (MkCodecLocals bs (amqp_message t)) ;; mret bs
  | Throw e => st_throw (pn_exn e)
  end.

(** [catch (const proton::error& e)]. *)
Definition decode_failed (e : pn_error) : exn :=
  StreamException ("Failed to decode message: " ++ pn_what e).

Definition proton_call {A} (r : outcome pn_error A) : QM A :=
  match r with Val a => mret a | Throw e => st_throw (decode_failed e) end.

Definition qpid_decode (data : list byte) (data_size : Z) : QM Message :=
  clear_locals ;;
  if lenZ data <? data_size then st_throw UndefinedBehaviour else
  t ← st_get;
  let chars := takeZ data_size data in
  let '(r, m) := pn_decode chars (amqp_message t) in
  st_put (MkCodecLocals chars m) ;;
  proton_call r ;;
  body ← proton_call (pn_body m);
  headers ← proton_call (pn_properties m);
  mret (build (Messages.headers headers (body_vector body new_MessageBuilder))).

Inductive QpidProtonCodec := MkQpidProtonCodec.

(** What was kept from the message before does not matter. *)
Lemma qpid_encode_locals message t t' : (qpid_encode message t).1 = (qpid_encode message t').1.
Proof.
  unfold qpid_encode, clear_locals, on_message, mbind, ST_bind, st_modify. cbn. rewrite !pn_clear_new.
  destruct (bool_decide _); cbn; by destruct (pn_encode _ _).
Qed.

Lemma qpid_decode_locals data data_size t t' : (qpid_decode data data_size t).1 = (qpid_decode data data_size t').1.
Proof.
  unfold qpid_decode, clear_locals, mbind, ST_bind, st_modify. cbn. rewrite !pn_clear_new.
  destruct (_ <? _); [done|]. cbn. destruct (pn_decode _ _) as [[u|e] m]; cbn; [|done].
  destruct (pn_body m); cbn; [|done]. by destruct (pn_properties m).
Qed.

#[export] Instance QpidProtonCodec_Codec : Codec QpidProtonCodec := {|
  codec_encode _ message := (qpid_encode message new_CodecLocals).1;
  codec_decode _ data data_size := (qpid_decode data data_size new_CodecLocals).1
|}.

Lemma qpid_decode_outcome data t :
  match (qpid_decode data (lenZ data) t).1 with Val _ => True | Throw e => exists pe, e = decode_failed pe end.
Proof.
  unfold qpid_decode, clear_locals, mbind, ST_bind, st_modify. cbn. rewrite Z.ltb_irrefl. cbn.
  destruct (pn_decode _ _) as [[u|e] m]; cbn; [|eauto]. destruct (pn_body m); cbn; [|eauto].
  destruct (pn_properties m); cbn; eauto.
Qed.

#[export] Instance QpidProtonCodec_decodes : CodecDecodes QpidProtonCodec.
Proof. intros c bs e E. pose proof (qpid_decode_outcome bs new_CodecLocals) as Hd. simpl in E. rewrite E in Hd. by destruct Hd as [pe ->]. Qed.

(** C38: what the AMQP codec encodes, it decodes to the same message, headers
    included, on any thread and whatever that thread encoded or decoded
    before; decoding any bytes yields a message or a [StreamException]. *)
Theorem qpid_codec_roundtrip message t :
  (forall data t', match (qpid_decode data (lenZ data) t').1 with Val _ => True | Throw e => exists pe, e = decode_failed pe end) /\
  match (qpid_encode message t).1 with
  | Val bs => forall t', (qpid_decode bs (lenZ bs) t').1 = Val message
  | Throw e => is_StreamException e = false
  end.
Proof.
  split; [intros data t'; apply qpid_decode_outcome|].
  rewrite (qpid_encode_locals message t new_CodecLocals).
  set (m := (if bool_decide (msg_headers message = []) then id else pn_set_properties (msg_headers message))
              (pn_set_body (msg_body message) pn_new)).
  assert ((qpid_encode message new_CodecLocals).1 =
          match pn_encode m [] with Val bs => Val bs | Throw e => Throw (pn_exn e) end) as ->.
  { unfold qpid_encode, clear_locals, on_message, mbind, ST_bind, st_modify, m. cbn. rewrite pn_clear_new.
    destruct (bool_decide _); cbn; by destruct (pn_encode _ _). }
  destruct (pn_encode m []) as [bs|e] eqn:E; [|apply pn_exn_foreign]. intros t'.
  rewrite (qpid_decode_locals _ _ t' new_CodecLocals).
  assert (pn_body m = Val (msg_body message) /\ pn_properties m = Val (msg_headers message)) as [Hb Hp].
  { unfold m. destruct (bool_decide_reflect (msg_headers message = [])) as [Hh|Hh]; simpl.
    - now rewrite pn_body_set, pn_properties_body, pn_properties_new, Hh.
    - now rewrite pn_body_properties, pn_body_set, pn_properties_set. }
  unfold qpid_decode, clear_locals, mbind, ST_bind, st_modify. cbn. rewrite Z.ltb_irrefl, pn_clear_new. cbn.
  destruct (pn_decode_encode m bs E) as (m' & Ed & Eb & Ep). rewrite takeZ_all, Ed. cbn. rewrite Eb, Hb. cbn. rewrite Ep, Hp. cbn. by destruct message.
Qed.

End codec.

(** ** A message format with these laws

    A string is written byte by byte, each after a 1, and ends with a 0; so are
    the headers; the body comes last. *)

Fixpoint mark_bytes (l : list byte) : list byte := match l with [] => [x00] | b :: l => x01 :: b :: mark_bytes l end.

Fixpoint unmark_bytes (l : list byte) : option (list byte * list byte) :=
  match l with
  | x00 :: rest => Some ([], rest)
  | x01 :: b :: rest => '(l, rest) ← unmark_bytes rest; Some (b :: l, rest)
  | _ => None
  end.

Fixpoint mark_headers (h : Properties) : list byte :=
  match h with
  | [] => [x00]
  | (k, v) :: h => x01 :: mark_bytes (str_bytes k) ++ mark_bytes (str_bytes v) ++ mark_headers h
  end.

(** [n]: more than the number of headers. *)
Fixpoint unmark_headers (n : nat) (l : list byte) : option (Properties * list byte) :=
  match n, l with
  | S _, x00 :: rest => Some ([], rest)
  | S n, x01 :: rest =>
      '(k, rest) ← unmark_bytes rest; '(v, rest) ← unmark_bytes rest; '(h, rest) ← unmark_headers n rest;
      Some ((bytes_str k, bytes_str v) :: h, rest)
  | _, _ => None
  end.

Lemma unmark_mark_bytes l rest : unmark_bytes (mark_bytes l ++ rest) = Some (l, rest).
Proof. induction l as [|b l IH]; simpl; [done|]. now rewrite IH. Qed.

Lemma unmark_mark_headers h rest n : (length h < n)%nat -> unmark_headers n (mark_headers h ++ rest) = Some (h, rest).
Proof.
  revert n. induction h as [|[k v] h IH]; intros [|n] Hn; simpl in *; try lia; [done|].
  rewrite <- !app_assoc, unmark_mark_bytes. simpl. rewrite unmark_mark_bytes. simpl. rewrite IH by lia. simpl.
  now rewrite !bytes_str_bytes.
Qed.

Lemma mark_headers_length h : (length h < length (mark_headers h))%nat.
Proof. induction h as [|[k v] h IH]; simpl; [lia|]. rewrite !length_app. lia. Qed.

#[local] Instance marked_Proton : Proton := {|
  pn_error := string;
  pn_what e := e;
  pn_exn _ := FutureError;
  pn_message := Message;
  pn_new := MkMessage [] [];
  pn_clear _ := MkMessage [] [];
  pn_set_body b m := MkMessage b (msg_headers m);
  pn_set_properties h m := MkMessage (msg_body m) h;
  pn_encode m _ := Val (mark_headers (msg_headers m) ++ msg_body m);
  pn_decode bs m :=
    match unmark_headers (length bs) bs with
    | Some (h, b) => (Val tt, MkMessage b h)
    | None => (Throw "invalid data"%string, m)
    end;
  pn_body m := Val (msg_body m);
  pn_properties m := Val (msg_headers m)
|}.

#[local] Instance marked_ProtonLaws : ProtonLaws.
Proof.
  split; try done. intros m bs [= <-]. simpl.
  rewrite unmark_mark_headers by (rewrite length_app; pose proof (mark_headers_length (msg_headers m)); lia).
  by eexists.
Qed.

(** [qpid_codec_roundtrip] at a message with a header. *)
Lemma qpid_codec_roundtrip_witness :
  exists bs, (qpid_encode (MkMessage [x68] [("k", "v")%string]) new_CodecLocals).1 = Val bs /\
    (qpid_decode bs (lenZ bs) new_CodecLocals).1 = Val (MkMessage [x68] [("k", "v")%string]).
Proof.
  eexists. split; [reflexivity|].
  exact (proj2 (qpid_codec_roundtrip (MkMessage [x68] [("k", "v")%string]) new_CodecLocals) new_CodecLocals).
Defined.
