(* ===== verification/Logging.v ===== *)
(** * Logging

    Models [include/hareflow/logging.h] and [src/logging.cpp].  Formatting is
    {fmt}'s: [vformat] is a parameter, which may throw.  Every operation is one
    critical section of the logger's mutex. *)

From S2P Require Import Prelude Words OrdMap Types.

Inductive LoggingLevel := LevelDebug | LevelInfo | LevelWarn | LevelError.

#[export] Instance LoggingLevel_eq_dec : EqDecision LoggingLevel.
Proof. solve_decision. Defined.

(** The values of the enumeration. *)
Definition level_value (l : LoggingLevel) : Z :=
  match l with LevelDebug => 0 | LevelInfo => 1 | LevelWarn => 2 | LevelError => 3 end.

Definition LEVEL_TO_LABEL : list (LoggingLevel * string) :=
  [(LevelDebug, "DEBUG"); (LevelInfo, "INFO"); (LevelWarn, "WARN"); (LevelError, "ERROR")]%string.

Fixpoint find_label (level : LoggingLevel) (labels : list (LoggingLevel * string)) : option string :=
  match labels with
  | [] => None
  | (l, label) :: labels => if decide (l = level) then Some label else find_label level labels
  end.

Inductive log_file := LogStdout | LogStderr.

(** A handler of the application is known by its number. *)
Inductive LoggingHandler := HandlerFile (file : log_file) | HandlerCustom (h : nat).

(** What was printed and which handlers of the application were called. *)
Inductive log_event :=
| LogPrinted (file : log_file) (text : string)
| LogHandled (h : nat) (level : LoggingLevel) (message : string).

(** [lg_events]: what the handlers did, oldest first. *)
Record InternalLogger := MkInternalLogger {
  lg_level : LoggingLevel;
  lg_handler : option LoggingHandler;
  lg_events : list log_event
}.

Definition new_InternalLogger : InternalLogger := MkInternalLogger LevelWarn None [].

Abbreviation LM A := (ST InternalLogger exn A).

Definition log_emit (ev : log_event) : LM unit :=
  st_modify (fun l => MkInternalLogger (lg_level l) (lg_handler l) (lg_events l ++ [ev])).

Definition newline : string := String (Ascii.ascii_of_nat 10) EmptyString.

(** [level_label] is empty for a level without a label. *)
Definition print_to_file (file : log_file) (level : LoggingLevel) (message : string) : LM unit :=
  let level_label := default EmptyString (find_label level LEVEL_TO_LABEL) in
  log_emit (LogPrinted file (level_label ++ ": " ++ message ++ newline)%string).

Definition call_handler (h : LoggingHandler) (level : LoggingLevel) (message : string) : LM unit :=
  match h with
  | HandlerFile file => print_to_file file level message
  | HandlerCustom n => log_emit (LogHandled n level message)
  end.

Definition logger_set_level (level : LoggingLevel) : LM unit :=
  st_modify (fun l => MkInternalLogger level (lg_handler l) (lg_events l)).

Definition logger_set_handler (handler : option LoggingHandler) : LM unit :=
  st_modify (fun l => MkInternalLogger (lg_level l) handler (lg_events l)).

(** ** Logger *)

Definition logger_disable : LM unit := logger_set_handler None.
Definition logger_to_stdout : LM unit := logger_set_handler (Some (HandlerFile LogStdout)).
Definition logger_to_stderr : LM unit := logger_set_handler (Some (HandlerFile LogStderr)).
Definition logger_to_custom_handler (handler : option nat) : LM unit := logger_set_handler (HandlerCustom <$> handler).

Section formatting.
Context {Arg : Type} (vformat : string -> list Arg -> outcome exn string).

Definition logger_log (level : LoggingLevel) (format : string) (args : list Arg) : LM unit :=
  l ← st_get;
  match lg_handler l with
  | Some handler =>
      if level_value (lg_level l) <=? level_value level then
        match vformat format args with
        | Val message => call_handler handler level message
        | Throw e => st_throw e
        end
      else mret tt
  | None => mret tt
  end.

Definition logger_debug : string -> list Arg -> LM unit := logger_log LevelDebug.
Definition logger_info : string -> list Arg -> LM unit := logger_log LevelInfo.
Definition logger_warn : string -> list Arg -> LM unit := logger_log LevelWarn.
Definition logger_error : string -> list Arg -> LM unit := logger_log LevelError.

(** *** Sequences of calls *)

Inductive log_call :=
| CallSetLevel (level : LoggingLevel)
| CallDisable
| CallToStdout
| CallToStderr
| CallToCustom (handler : option nat)
| CallLog (level : LoggingLevel) (format : string) (args : list Arg).

Definition log_run (c : log_call) : LM unit :=
  match c with
  | CallSetLevel level => logger_set_level level
  | CallDisable => logger_disable
  | CallToStdout => logger_to_stdout
  | CallToStderr => logger_to_stderr
  | CallToCustom handler => logger_to_custom_handler handler
  | CallLog LevelDebug format args => logger_debug format args
  | CallLog LevelInfo format args => logger_info format args
  | CallLog LevelWarn format args => logger_warn format args
  | CallLog LevelError format args => logger_error format args
  end.

Definition log_after (calls : list log_call) : InternalLogger :=
  fold_left (fun l c => (log_run c l).2) calls new_InternalLogger.

(** The level and the handler that the last call set. *)
Definition level_in_force (calls : list log_call) : LoggingLevel :=
  fold_left (fun level c => match c with CallSetLevel l => l | _ => level end) calls LevelWarn.

Definition handler_in_force (calls : list log_call) : option LoggingHandler :=
  fold_left (fun h c => match c with
    | CallDisable => None
    | CallToStdout => Some (HandlerFile LogStdout)
    | CallToStderr => Some (HandlerFile LogStderr)
    | CallToCustom handler => HandlerCustom <$> handler
    | _ => h end) calls None.

Definition log_handled (h : LoggingHandler) (level : LoggingLevel) (message : string) : log_event :=
  match h with
  | HandlerFile file =>
      LogPrinted file (match level with LevelDebug => "DEBUG" | LevelInfo => "INFO" | LevelWarn => "WARN" | LevelError => "ERROR" end
                       ++ ": " ++ message ++ newline)%string
  | HandlerCustom n => LogHandled n level message
  end.

Lemma log_run_log level format args : log_run (CallLog level format args) = logger_log level format args.
Proof. by destruct level. Qed.

Lemma call_handler_emits h level message : call_handler h level message = log_emit (log_handled h level message).
Proof. by destruct h, level. Qed.

Lemma log_run_settings c l :
  lg_level (log_run c l).2 = (match c with CallSetLevel level => level | _ => lg_level l end) /\
  lg_handler (log_run c l).2 = (match c with
    | CallDisable => None
    | CallToStdout => Some (HandlerFile LogStdout)
    | CallToStderr => Some (HandlerFile LogStderr)
    | CallToCustom handler => HandlerCustom <$> handler
    | _ => lg_handler l end).
Proof.
  destruct c as [level| | | |handler|level format args]; try done. rewrite log_run_log.
  unfold logger_log, mbind, ST_bind. cbn [st_get]. destruct (lg_handler l) as [h|] eqn:E; [|done].
  destruct (_ <=? _); [|done]. destruct (vformat format args); [|done]. now rewrite call_handler_emits.
Qed.

Lemma log_after_settings calls :
  lg_level (log_after calls) = level_in_force calls /\ lg_handler (log_after calls) = handler_in_force calls.
Proof.
  induction calls as [|c calls [IH1 IH2]] using rev_ind; [done|].
  unfold log_after, level_in_force, handler_in_force in *. rewrite !fold_left_app. simpl.
  destruct (log_run_settings c (fold_left (fun l c => (log_run c l).2) calls new_InternalLogger)) as [-> ->].
  destruct c; by rewrite ?IH1, ?IH2.
Qed.

(** A message is formatted and handed to the handler in force exactly when there
    is one and the message is at least as severe as the level in force, by
    default a warning; otherwise the call does nothing, whatever the format. *)
Lemma logger_filters calls level format args :
  log_run (CallLog level format args) (log_after calls) =
  match handler_in_force calls with
  | Some h =>
      if level_value (level_in_force calls) <=? level_value level then
        match vformat format args with
        | Val message => log_emit (log_handled h level message) (log_after calls)
        | Throw e => (Throw e, log_after calls)
        end
      else (Val tt, log_after calls)
  | None => (Val tt, log_after calls)
  end.
Proof.
  destruct (log_after_settings calls) as [El Eh]. rewrite log_run_log. unfold logger_log, mbind, ST_bind. cbn [st_get].
  rewrite El, Eh. destruct (handler_in_force calls) as [h|]; [|done]. destruct (_ <=? _); [|done].
  destruct (vformat format args); [|done]. now rewrite call_handler_emits.
Qed.

End formatting.
