(* ===== verification/IoContext.v ===== *)
(** * The input-output context

    Models [include/hareflow/io_context_holder.h] and
    [src/io_context_holder.cpp]: the context that the connections run on, built
    the first time it is needed by whichever thread comes first.  [io_context] is
    Boost's; here a context is known by its number, and what matters of it is
    whether [run] returns. *)

From S2P Require Import Prelude Words Types.

(** ** DefaultIoContext *)

(** [m_io_context] is the number of the context, [m_work] the work that is left
    on it; a thread is [true] once it has been joined. *)
Record DefaultIoContext := MkDefaultIoContext {
  m_io_context : nat;
  m_work : nat;
  m_work_guard : bool;
  m_io_threads : list bool
}.

Section io_context.
Context (hardware_concurrency : Z).

(** The number of threads of a context: [nb_io_threads], 0 for as many as the
    machine has. *)
Definition io_thread_count (nb_io_threads : Z) : Z :=
  if nb_io_threads =? 0 then Z.max 1 hardware_concurrency else nb_io_threads.

(** The constructor. *)
Definition new_DefaultIoContext (id : nat) (nb_io_threads : Z) : DefaultIoContext :=
  MkDefaultIoContext id 0 true (replicate (Z.to_nat (io_thread_count nb_io_threads)) false).

Definition reset_guard (d : DefaultIoContext) : DefaultIoContext :=
  MkDefaultIoContext (m_io_context d) (m_work d) false (m_io_threads d).

(** [io_context::run] returns when nothing keeps it. *)
Definition run_returns (d : DefaultIoContext) : bool := negb (m_work_guard d) && (m_work d =? 0)%nat.

(** [None]: the [i]-th thread has not returned. *)
Definition join_thread (i : nat) (d : DefaultIoContext) : option DefaultIoContext :=
  if run_returns d
  then Some (MkDefaultIoContext (m_io_context d) (m_work d) (m_work_guard d) (<[i := true]> (m_io_threads d)))
  else None.

Fixpoint join_threads (n i : nat) (d : DefaultIoContext) : option DefaultIoContext :=
  match n with
  | O => Some d
  | S n => d' ← join_thread i d; join_threads n (S i) d'
  end.

(** The destructor, while the work that is left is what it is. *)
Definition destroy_DefaultIoContext (d : DefaultIoContext) : option DefaultIoContext :=
  join_threads (length (m_io_threads d)) 0 (reset_guard d).

(** ** initialize and get, by any number of threads *)

(** [io_built] counts the contexts that were constructed. *)
Record IoState := MkIoState {
  io_initialized : bool;
  io_mutex : option nat;
  io_instance : option DefaultIoContext;
  io_built : nat
}.

Definition initial_IoState : IoState := MkIoState false None None 0.

Inductive io_call := IoInitialize (nb_io_threads : Z) | IoGet.

(** The default argument of [initialize]. *)
Definition io_argument (call : io_call) : Z := match call with IoInitialize n => n | IoGet => 0 end.

Inductive io_pc :=
| IoCheck
| IoLock
| IoTest
| IoFlag
| IoUnlock
| IoReturn
| IoDone (r : outcome exn (option nat)).

(** What the call returns after [initialize]. *)
Definition io_result (call : io_call) (s : IoState) : outcome exn (option nat) :=
  match call, io_instance s with
  | IoInitialize _, _ => Val None
  | IoGet, Some d => Val (Some (m_io_context d))
  | IoGet, None => Throw UndefinedBehaviour
  end.

(** A step of the [t]-th thread; [None]: it waits for the mutex or has returned. *)
Definition io_step (t : nat) (call : io_call) (pc : io_pc) (s : IoState) : option (io_pc * IoState) :=
  let '(MkIoState flag mutex instance built) := s in
  match pc with
  | IoCheck => Some (if flag then IoReturn else IoLock, s)
  | IoLock => if bool_decide (mutex = None) then Some (IoTest, MkIoState flag (Some t) instance built) else None
  | IoTest =>
      match instance with
      | None => Some (IoFlag, MkIoState flag mutex (Some (new_DefaultIoContext built (io_argument call))) (S built))
      | Some _ => Some (IoUnlock, s)
      end
  | IoFlag => Some (IoUnlock, MkIoState true mutex instance built)
  | IoUnlock => Some (IoReturn, MkIoState flag None instance built)
  | IoReturn => Some (IoDone (io_result call s), s)
  | IoDone _ => None
  end.

(** A call that no other thread interrupts; six steps are enough. *)
Fixpoint io_run (n : nat) (call : io_call) (pc : io_pc) (s : IoState) : io_pc * IoState :=
  match n with
  | O => (pc, s)
  | S n => match io_step 0 call pc s with Some (pc', s') => io_run n call pc' s' | None => (pc, s) end
  end.

Definition default_get (s : IoState) : outcome exn (option nat) * IoState :=
  match io_run 6 IoGet IoCheck s with
  | (IoDone r, s') => (r, s')
  | (_, s') => (Throw UndefinedBehaviour, s')
  end.

(** *** IoContextHolder: [s_io_context_func] *)

Definition IoContextFunc : Type := IoState -> outcome exn (option nat) * IoState.

Definition initial_holder : IoContextFunc := default_get.
Definition holder_set (io_context_func : IoContextFunc) (_ : IoContextFunc) : IoContextFunc := io_context_func.
Definition holder_get (s_io_context_func : IoContextFunc) (s : IoState) : outcome exn (option nat) * IoState :=
  s_io_context_func s.

Record iosys := MkIosys { ios_state : IoState; ios_threads : list (io_call * io_pc) }.

Inductive iostep : iosys -> iosys -> Prop :=
| IoCall call s ts : is_u32 (io_argument call) -> iostep (MkIosys s ts) (MkIosys s (ts ++ [(call, IoCheck)]))
| IoTurn t call pc pc' s s' ts :
    ts !! t = Some (call, pc) -> io_step t call pc s = Some (pc', s') ->
    iostep (MkIosys s ts) (MkIosys s' (<[t := (call, pc')]> ts)).

Definition io_reachable (s : iosys) : Prop := rtc iostep (MkIosys initial_IoState []) s.

(** *** The invariant *)

Definition holds_mutex (pc : io_pc) : bool := match pc with IoTest | IoFlag | IoUnlock => true | _ => false end.

Definition has_instance (s : IoState) : Prop := io_instance s <> None.

Definition pc_ok (s : IoState) (t : nat) (cpc : io_call * io_pc) : Prop :=
  (holds_mutex cpc.2 = true <-> io_mutex s = Some t) /\
  match cpc.2 with
  | IoFlag | IoUnlock | IoReturn => has_instance s
  | IoDone r => has_instance s /\ r = io_result cpc.1 s
  | _ => True
  end.

Definition instance_ok (s : IoState) : Prop :=
  match io_instance s with
  | None => io_initialized s = false /\ io_built s = 0%nat
  | Some d => io_built s = 1%nat /\ exists n, is_u32 n /\ d = new_DefaultIoContext 0 n
  end.

Definition io_inv (s : iosys) : Prop :=
  instance_ok (ios_state s) /\
  (forall t, io_mutex (ios_state s) = Some t -> (t < length (ios_threads s))%nat) /\
  (forall t cpc, ios_threads s !! t = Some cpc -> is_u32 (io_argument cpc.1) /\ pc_ok (ios_state s) t cpc).

(** Once there is an instance, it stays. *)
Definition io_later (s s' : IoState) : Prop := forall d, io_instance s = Some d -> io_instance s' = Some d.

Lemma io_result_later call s s' : io_later s s' -> has_instance s -> io_result call s' = io_result call s.
Proof.
  unfold has_instance, io_result. intros Hl Hi. destruct (io_instance s) as [d|] eqn:E; [|done].
  now rewrite (Hl d E).
Qed.

Lemma has_instance_later s s' : io_later s s' -> has_instance s -> has_instance s'.
Proof. unfold has_instance. intros Hl Hi. destruct (io_instance s) as [d|] eqn:E; [|done]. now rewrite (Hl d E). Qed.

(** A thread that stands still while another one takes or gives back the mutex. *)
Lemma pc_ok_other s s' t u cpc :
  t <> u -> io_later s s' -> (io_mutex s' = io_mutex s \/ (io_mutex s = None /\ io_mutex s' = Some t) \/ (io_mutex s = Some t /\ io_mutex s' = None)) ->
  pc_ok s u cpc -> pc_ok s' u cpc.
Proof.
  intros Hne Hl Hm [H1 H2]. split.
  - rewrite H1. destruct Hm as [->|[[-> ->]|[-> ->]]]; [done | |]; split; congruence.
  - destruct (cpc.2); eauto using has_instance_later. destruct H2 as [H2 ->].
    split; [eauto using has_instance_later | symmetry; now apply io_result_later].
Qed.

Lemma io_step_ok t call pc pc' s s' :
  instance_ok s -> is_u32 (io_argument call) -> pc_ok s t (call, pc) -> io_step t call pc s = Some (pc', s') ->
  instance_ok s' /\ pc_ok s' t (call, pc') /\ io_later s s' /\
  (io_mutex s' = io_mutex s \/ (io_mutex s = None /\ io_mutex s' = Some t) \/ (io_mutex s = Some t /\ io_mutex s' = None)).
Proof.
  destruct s as [flag mutex instance built]. unfold instance_ok, pc_ok, io_later, has_instance. intros Hi Hu [Hm Hp] E.
  destruct pc; simpl in *.
  - injection E as <- <-. destruct flag; simpl; destruct instance as [d|]; intuition (eauto || congruence || done).
  - case_bool_decide as Hn; [|discriminate]. injection E as <- <-. simpl. intuition (eauto || congruence || done).
  - destruct instance as [d|]; injection E as <- <-; simpl; [intuition (eauto || congruence || done)|]. destruct Hi as [-> ->]. intuition (eauto || congruence || done).
  - injection E as <- <-. destruct instance; [|done]. intuition (eauto || congruence || done).
  - injection E as <- <-. intuition (eauto || congruence || done).
  - injection E as <- <-. intuition (eauto || congruence || done).
  - discriminate.
Qed.

Lemma io_inv_step s s' : io_inv s -> iostep s s' -> io_inv s'.
Proof.
  intros (H1 & H2 & H3) Hs. destruct Hs as [call s ts Hu|t call pc pc' s s' ts Ht E]; simpl in *.
  - split; [done|]. split.
    + simpl. intros t Ht. rewrite length_app. specialize (H2 t Ht). lia.
    + simpl. intros t cpc Hl. apply lookup_app_Some in Hl as [Hl|[Hge Hl]]; [by apply H3|].
      apply list_lookup_singleton_Some in Hl as [Hz <-]. split; [done|]. split; [|done]. simpl.
      split; [done|]. intros Hm. specialize (H2 t Hm). lia.
  - destruct (H3 _ _ Ht) as [Hu Hp]. destruct (io_step_ok _ _ _ _ _ _ H1 Hu Hp E) as (H1' & Hp' & Hl & Hm).
    pose proof (lookup_lt_Some _ _ _ Ht) as Hlt. split; [done|]. split.
    + simpl. intros u Hu'. rewrite length_insert. destruct Hm as [Em|[[_ Em]|[_ Em]]]; rewrite Em in Hu'; [by apply H2 | | discriminate].
      injection Hu' as <-. done.
    + simpl. intros u cpc Hlu. destruct (decide (t = u)) as [<-|Hne].
      * rewrite list_lookup_insert_eq in Hlu by done. injection Hlu as <-. done.
      * rewrite list_lookup_insert_ne in Hlu by done. destruct (H3 _ _ Hlu) as [Hu' Hpu]. split; [done|].
        eapply pc_ok_other; eassumption.
Qed.

Lemma io_inv_reachable s : io_reachable s -> io_inv s.
Proof.
  intros Hr. assert (io_inv (MkIosys initial_IoState [])) as Hi by (split; [done | split; [done | intros t cpc [=]]]).
  revert Hi. induction Hr as [|s1 s2 s3 Hs _ IH]; [done|]. intros Hi. apply IH. eapply io_inv_step; eassumption.
Qed.

Lemma io_threads_positive id n : is_u32 n -> (0 < length (m_io_threads (new_DefaultIoContext id n)))%nat.
Proof. unfold is_uint. intros Hn. simpl. rewrite length_replicate. unfold io_thread_count. destruct (Z.eqb_spec n 0); lia. Qed.

(** A thread that cannot step has returned, or waits for the holder of the mutex. *)
Lemma io_waits t call pc s :
  io_step t call pc s = None -> (exists r, pc = IoDone r) \/ exists u, io_mutex s = Some u.
Proof.
  destruct s as [flag mutex instance built]. destruct pc; simpl; try done.
  - destruct mutex as [u|]; [eauto | done].
  - by destruct instance.
  - eauto.
Qed.

Lemma io_holder_runs t call pc s : holds_mutex pc = true -> exists pc' s', io_step t call pc s = Some (pc', s').
Proof. destruct s as [flag mutex instance built]. destruct pc; simpl; try done; eauto. destruct instance; eauto. Qed.

(** However many threads call [initialize] and [get] at the same time, one
    context is built: every [get] returns it, after it was built, and it has a
    thread to run on.  No call waits for ever: while one has not returned some
    thread can go on. *)
Theorem one_io_context s :
  io_reachable s ->
  (io_built (ios_state s) <= 1)%nat /\
  (forall t call r, ios_threads s !! t = Some (call, IoDone r) ->
     exists d, io_instance (ios_state s) = Some d /\ (0 < length (m_io_threads d))%nat /\
       r = match call with IoInitialize _ => Val None | IoGet => Val (Some 0%nat) end) /\
  (forall t call pc, ios_threads s !! t = Some (call, pc) -> (forall r, pc <> IoDone r) ->
     exists u call' pc1 pc2 s', ios_threads s !! u = Some (call', pc1) /\ io_step u call' pc1 (ios_state s) = Some (pc2, s')).
Proof.
  intros Hr. destruct (io_inv_reachable s Hr) as (H1 & H2 & H3). split; [|split].
  - unfold instance_ok in H1. destruct (io_instance (ios_state s)); lia.
  - intros t call r Ht. destruct (H3 _ _ Ht) as [_ [_ [Hi ->]]]. unfold has_instance, instance_ok, io_result in *.
    simpl. destruct (io_instance (ios_state s)) as [d|]; [|done]. exists d. destruct H1 as [_ (n & Hn & ->)].
    split; [done|]. split; [now apply io_threads_positive|]. by destruct call.
  - intros t call pc Ht Hpc. destruct (io_step t call pc (ios_state s)) as [[pc' s']|] eqn:E; [by eexists _, _, _, _, _|].
    destruct (io_waits t call pc (ios_state s) E) as [[r ->]|(u & Hu)]; [by destruct (Hpc r)|].
    destruct (lookup_lt_is_Some_2 _ _ (H2 u Hu)) as [[call' pc1] Hl]. destruct (H3 _ _ Hl) as [_ [[_ Hm] _]].
    destruct (io_holder_runs u call' pc1 (ios_state s) (Hm Hu)) as (pc2 & s' & Es). by eexists _, _, _, _, _.
Qed.

(** The first [get] builds the context and a later one returns it. *)
Lemma default_get_twice :
  exists s, holder_get initial_holder initial_IoState = (Val (Some 0%nat), s) /\
    holder_get initial_holder s = (Val (Some 0%nat), s) /\ io_built s = 1%nat.
Proof. by eexists. Qed.

Lemma join_threads_all n i d :
  run_returns d = true -> (i + n = length (m_io_threads d))%nat -> (forall j, (j < i)%nat -> m_io_threads d !! j = Some true) ->
  exists d', join_threads n i d = Some d' /\ length (m_io_threads d') = length (m_io_threads d) /\
    forall j, (j < length (m_io_threads d'))%nat -> m_io_threads d' !! j = Some true.
Proof.
  revert i d. induction n as [|n IH]; intros i d Hr Hn Hj; simpl.
  - exists d. split; [done|]. split; [done|]. intros j Hl. apply Hj. lia.
  - unfold join_thread. rewrite Hr. simpl.
    destruct (IH (S i) (MkDefaultIoContext (m_io_context d) (m_work d) (m_work_guard d) (<[i := true]> (m_io_threads d))))
      as (d' & E & Hl & Ha); simpl; [done | rewrite length_insert; lia | | simpl in Hl; rewrite length_insert in Hl; eauto].
    intros j Hlt. destruct (decide (i = j)) as [<-|Hne]; [apply list_lookup_insert_eq; lia|].
    rewrite list_lookup_insert_ne by done. apply Hj. lia.
Qed.

(** The destructor returns once no work is left, and not before; it has then
    joined every thread. *)
Lemma destroy_spec d :
  match destroy_DefaultIoContext d with
  | Some d' => m_io_threads d = [] \/ m_work d = 0%nat /\ forall j, (j < length (m_io_threads d'))%nat -> m_io_threads d' !! j = Some true
  | None => m_work d <> 0%nat
  end.
Proof.
  unfold destroy_DefaultIoContext. destruct (decide (m_work d = 0%nat)) as [E|E].
  - destruct (join_threads_all (length (m_io_threads d)) 0 (reset_guard d)) as (d' & -> & _ & H); [|done | lia | by right].
    unfold run_returns. simpl. by rewrite E.
  - destruct (m_io_threads d) eqn:Et; simpl; [by left|]. unfold join_thread, run_returns. simpl.
    by rewrite (proj2 (Nat.eqb_neq _ _) E).
Qed.

End io_context.

(** [one_io_context] where a thread that asked for two threads has built the
    context and another has got it. *)
Lemma one_io_context_witness :
  exists s, io_reachable 4 s /\ io_built (ios_state s) = 1%nat /\ (io_built (ios_state s) <= 1)%nat /\
    ios_threads s = [(IoInitialize 2, IoUnlock); (IoGet, IoDone (Val (Some 0%nat)))].
Proof.
  set (d := new_DefaultIoContext 4 0 2).
  set (s := MkIosys (MkIoState true (Some 0%nat) (Some d) 1) [(IoInitialize 2, IoUnlock); (IoGet, IoDone (Val (Some 0%nat)))]).
  assert (io_reachable 4 s) as Hr.
  { eapply rtc_l; [apply (IoCall 4 (IoInitialize 2)); vm_compute; split; congruence|].
    eapply rtc_l; [apply (IoCall 4 IoGet); vm_compute; split; congruence|].
    do 4 (eapply rtc_l; [eapply (IoTurn 4 0 (IoInitialize 2)); [reflexivity | vm_compute; reflexivity]|]).
    do 2 (eapply rtc_l; [eapply (IoTurn 4 1 IoGet); [reflexivity | vm_compute; reflexivity]|]). vm_compute. apply rtc_refl. }
  exists s. split; [exact Hr|]. split; [reflexivity|]. split; [|reflexivity]. apply (one_io_context 4 s Hr).
Defined.
