(* ===== verification/Connection.v ===== *)
(** * The connection

    Models [include/hareflow/detail/connection.h] and [src/connection.cpp]: the
    queue of buffers to write, the chain of reads that cuts the byte stream into
    frames, and the pool of buffers.  The members are touched by handlers of one
    strand only, so each handler is one definition.

    The socket, TLS and the timers belong to asio: an operation that is started
    is recorded in the state or in [k_events], and its completion is a handler
    whose argument is what asio reports, an error or the bytes read, as many as
    were asked for.  A promise is named by a number. *)

From S2P Require Import Prelude Words OrdMap Types BinaryBuffer.

Definition MAX_POOL_SIZE : Z := 32.

(** The [async_read] in progress: of the length prefix or of the rest. *)
Inductive read_phase := RHeader (b : BinaryBuffer) | RBody (b : BinaryBuffer).

Inductive conn_event :=
| KSubmit (buffers : list (list byte))
| KWritten (promise : nat) (result : outcome exn unit)
| KRead (promise : nat) (result : outcome exn BinaryBuffer)
| KWriterTimer (timeout : Z)
| KReaderTimer (timeout : Z)
| KCloseSocket.

(** [OutboxEntry]: a buffer and the number of its promise. *)
Abbreviation OutboxEntry := (nat * BinaryBuffer)%type.
Definition new_OutboxEntry (promise : nat) (buffer : BinaryBuffer) : OutboxEntry := (promise, buffer).
Definition get_future (entry : OutboxEntry) : nat := entry.1.
Definition asio_buffer (entry : OutboxEntry) : list byte := m_bytes entry.2.
Definition extract_buffer (entry : OutboxEntry) : BinaryBuffer := entry.2.

(** [k_sending] is [nb_buffers] of the [async_write] in progress, 0 for none;
    the idle members hold the timeout of a handler that is set. *)
Record Connection := MkConnection {
  k_failed : bool;
  k_outbox : list OutboxEntry;
  k_sending : nat;
  k_inbox : list BinaryBuffer;
  k_pending_read : option nat;
  k_reading : option read_phase;
  k_writer_idle : option Z;
  k_reader_idle : option Z;
  k_pool : list BinaryBuffer;
  k_events : list conn_event
}.

Definition set_k_failed (x : bool) (k : Connection) : Connection :=
  MkConnection x (k_outbox k) (k_sending k) (k_inbox k) (k_pending_read k)
               (k_reading k) (k_writer_idle k) (k_reader_idle k) (k_pool k) (k_events k).
Definition set_k_outbox (x : list OutboxEntry) (k : Connection) : Connection :=
  MkConnection (k_failed k) x (k_sending k) (k_inbox k) (k_pending_read k)
               (k_reading k) (k_writer_idle k) (k_reader_idle k) (k_pool k) (k_events k).
Definition set_k_sending (x : nat) (k : Connection) : Connection :=
  MkConnection (k_failed k) (k_outbox k) x (k_inbox k) (k_pending_read k)
               (k_reading k) (k_writer_idle k) (k_reader_idle k) (k_pool k) (k_events k).
Definition set_k_inbox (x : list BinaryBuffer) (k : Connection) : Connection :=
  MkConnection (k_failed k) (k_outbox k) (k_sending k) x (k_pending_read k)
               (k_reading k) (k_writer_idle k) (k_reader_idle k) (k_pool k) (k_events k).
Definition set_k_pending_read (x : option nat) (k : Connection) : Connection :=
  MkConnection (k_failed k) (k_outbox k) (k_sending k) (k_inbox k) x
               (k_reading k) (k_writer_idle k) (k_reader_idle k) (k_pool k) (k_events k).
Definition set_k_reading (x : option read_phase) (k : Connection) : Connection :=
  MkConnection (k_failed k) (k_outbox k) (k_sending k) (k_inbox k) (k_pending_read k)
               x (k_writer_idle k) (k_reader_idle k) (k_pool k) (k_events k).
Definition set_k_writer_idle (x : option Z) (k : Connection) : Connection :=
  MkConnection (k_failed k) (k_outbox k) (k_sending k) (k_inbox k) (k_pending_read k)
               (k_reading k) x (k_reader_idle k) (k_pool k) (k_events k).
Definition set_k_reader_idle (x : option Z) (k : Connection) : Connection :=
  MkConnection (k_failed k) (k_outbox k) (k_sending k) (k_inbox k) (k_pending_read k)
               (k_reading k) (k_writer_idle k) x (k_pool k) (k_events k).
Definition set_k_pool (x : list BinaryBuffer) (k : Connection) : Connection :=
  MkConnection (k_failed k) (k_outbox k) (k_sending k) (k_inbox k) (k_pending_read k)
               (k_reading k) (k_writer_idle k) (k_reader_idle k) x (k_events k).
Definition set_k_events (x : list conn_event) (k : Connection) : Connection :=
  MkConnection (k_failed k) (k_outbox k) (k_sending k) (k_inbox k) (k_pending_read k)
               (k_reading k) (k_writer_idle k) (k_reader_idle k) (k_pool k) x.

Definition new_Connection : Connection := MkConnection true [] 0 [] None None None None [] [].

Abbreviation KM A := (ST Connection exn A).

Definition k_emit (ev : conn_event) : KM unit := st_modify (fun k => set_k_events (k_events k ++ [ev]) k).

(** ** The pool *)

Definition allocate_buffer (size : Z) : KM BinaryBuffer :=
  k ← st_get;
  let '(buffer, pool) := match k_pool k with b :: pool => (b, pool) | [] => (empty_buffer, []) end in
  st_put (set_k_pool pool k) ;;
  match buffer_reserve size buffer with
  | (Val _, b) => mret b
  | (Throw e, _) => st_throw e
  end.

Definition release_buffer (buffer : BinaryBuffer) : KM unit :=
  let b := (buffer_clear buffer).2 in
  st_modify (fun k => if lenZ (k_pool k) <? MAX_POOL_SIZE then set_k_pool (k_pool k ++ [b]) k else k).

(** ** Idle timers *)

Definition start_writer_idle_monitoring : KM unit :=
  k ← st_get;
  match k_writer_idle k with Some timeout => k_emit (KWriterTimer timeout) | None => mret tt end.

Definition start_reader_idle_monitoring : KM unit :=
  k ← st_get;
  match k_reader_idle k with Some timeout => k_emit (KReaderTimer timeout) | None => mret tt end.

Definition set_writer_idle_handler (timeout : Z) : KM unit :=
  st_modify (set_k_writer_idle (Some timeout)) ;; start_writer_idle_monitoring.

Definition set_reader_idle_handler (timeout : Z) : KM unit :=
  st_modify (set_k_reader_idle (Some timeout)) ;; start_reader_idle_monitoring.

Definition conn_shutdown : KM unit :=
  k_emit KCloseSocket ;;
  st_modify (fun k => set_k_writer_idle None (set_k_reader_idle None k)).

(** ** Writes *)

Definition set_success (entry : OutboxEntry) : KM unit := k_emit (KWritten (get_future entry) (Val tt)).
Definition set_failure (e : exn) (entry : OutboxEntry) : KM unit := k_emit (KWritten (get_future entry) (Throw e)).

Definition send_outbox : KM unit :=
  k ← st_get;
  k_emit (KSubmit (map asio_buffer (k_outbox k))) ;;
  st_modify (set_k_sending (length (k_outbox k))).

(** The handler that [write] posts. *)
Definition conn_write (promise : nat) (buffer : BinaryBuffer) : KM unit :=
  st_modify (fun k => set_k_outbox (k_outbox k ++ [new_OutboxEntry promise buffer]) k) ;;
  k ← st_get;
  if lenZ (k_outbox k) =? 1 then send_outbox else mret tt.

(** [ec]: the message of the error, if there was one.  The outbox has at least
    [nb_buffers] entries. *)
Fixpoint settle_outbox (ec : option string) (nb_buffers : nat) : KM unit :=
  match nb_buffers with
  | O => mret tt
  | S n =>
      k ← st_get;
      match k_outbox k with
      | [] => st_throw UndefinedBehaviour
      | entry :: outbox =>
          match ec with None => set_success entry | Some m => set_failure (IOException m) entry end ;;
          release_buffer (extract_buffer entry) ;;
          st_modify (set_k_outbox outbox) ;;
          settle_outbox ec n
      end
  end.

(** The callback of [async_write]. *)
Definition write_done (ec : option string) : KM unit :=
  k ← st_get;
  st_modify (set_k_sending 0) ;;
  settle_outbox ec (k_sending k) ;;
  start_writer_idle_monitoring ;;
  k ← st_get;
  if bool_decide (k_outbox k = []) then mret tt else send_outbox.

(** ** Reads *)

(** The handler that [read] posts. *)
Definition conn_read (promise : nat) : KM unit :=
  k ← st_get;
  match k_pending_read k with
  | Some _ =>
      k_emit (KRead promise (Throw (IOException "Illegal state: can not have concurrent reads on connection")))
  | None =>
      match k_inbox k with
      | b :: inbox =>
          k_emit (KRead promise (Val b)) ;; st_modify (set_k_inbox inbox)
      | [] =>
          if k_failed k then k_emit (KRead promise (Throw (IOException "Connection failed unexpectedly")))
          else st_modify (set_k_pending_read (Some promise))
      end
  end.

Definition read_failed (ec : string) : KM unit :=
  k ← st_get;
  (match k_pending_read k with
   | Some promise =>
       k_emit (KRead promise (Throw (IOException ec))) ;; st_modify (set_k_pending_read None)
   | None => mret tt
   end) ;;
  st_modify (set_k_failed true).

Definition start_async_read_chain : KM unit :=
  b ← allocate_buffer 4;
  match buffer_resize 4 b with
  | (Val _, b) => st_modify (set_k_reading (Some (RHeader b)))
  | (Throw e, _) => st_throw e
  end.

(** The bytes that [async_read] put into the buffer from [off] on. *)
Definition fill_from (off : Z) (bytes : list byte) (b : BinaryBuffer) : BinaryBuffer :=
  with_bytes (takeZ off (m_bytes b) ++ bytes) b.

(** The callback of the first [async_read]; what it throws leaves the handler. *)
Definition header_done (b : BinaryBuffer) (r : outcome string (list byte)) : KM unit :=
  st_modify (set_k_reading None) ;;
  match r with
  | Throw ec => read_failed ec
  | Val bytes =>
      start_reader_idle_monitoring ;;
      match (size ← read_uint; buffer_resize (4 + size)) (fill_from 0 bytes b) with
      | (Throw e, _) => st_throw e
      | (Val _, b) => st_modify (set_k_reading (Some (RBody b)))
      end
  end.

(** The callback of the second one, [post_to_inbox]. *)
Definition body_done (b : BinaryBuffer) (r : outcome string (list byte)) : KM unit :=
  st_modify (set_k_reading None) ;;
  match r with
  | Throw ec => read_failed ec
  | Val bytes =>
      start_reader_idle_monitoring ;;
      let b := fill_from 4 bytes b in
      k ← st_get;
      (match k_pending_read k with
       | Some promise => k_emit (KRead promise (Val b)) ;; st_modify (set_k_pending_read None)
       | None => st_modify (fun k => set_k_inbox (k_inbox k ++ [b]) k)
       end) ;;
      start_async_read_chain
  end.

(** [connection] is what resolving, connecting and the TLS handshake yield. *)
Definition conn_connect (connection : outcome string unit) : KM unit :=
  match connection with
  | Throw what => st_throw (IOException what)
  | Val _ => st_modify (set_k_failed false) ;; start_async_read_chain
  end.
