(* ===== verification/ConnectionStreams.v ===== *)
(** * The byte streams of a connection

    The handlers of [Connection] run one at a time, in any order that asio
    allows.  The theorems say that the bytes received are cut into frames
    without loss, and that the buffers written leave in order, each promise
    being kept once. *)

From S2P Require Import Prelude Words OrdMap Types BinaryBuffer Connection.

(** What the events show: the buffers that reads got, the promises of writes
    that were kept, the bytes handed to the socket. *)
Definition delivered_by (ev : conn_event) : list BinaryBuffer :=
  match ev with KRead _ (Val b) => [b] | _ => [] end.
Definition written_by (ev : conn_event) : list nat := match ev with KWritten p _ => [p] | _ => [] end.
Definition submitted_by (ev : conn_event) : list byte :=
  match ev with KSubmit buffers => concat buffers | _ => [] end.
Definition k_delivered (k : Connection) : list BinaryBuffer := flat_map delivered_by (k_events k).
Definition k_written (k : Connection) : list nat := flat_map written_by (k_events k).
Definition k_submitted (k : Connection) : list byte := flat_map submitted_by (k_events k).

(** A frame as the client gets it: the length prefix, read past, and the body. *)
Definition frame_in (body : list byte) : BinaryBuffer :=
  MkBinaryBuffer (be_encode 4 (lenZ body) ++ body) 4 0.

Definition pool_ok (k : Connection) : Prop := Forall (fun b => b = empty_buffer) (k_pool k).

(** ** Handlers and the two directions *)

Definition same_reads (k k' : Connection) : Prop :=
  k_delivered k' = k_delivered k /\ k_inbox k' = k_inbox k /\ k_pending_read k' = k_pending_read k /\
  k_reading k' = k_reading k /\ (pool_ok k -> pool_ok k').

Definition same_writes (k k' : Connection) : Prop :=
  k_written k' = k_written k /\ k_submitted k' = k_submitted k /\ k_outbox k' = k_outbox k /\
  k_sending k' = k_sending k.

#[export] Instance same_reads_preorder : PreOrder same_reads.
Proof.
  split; [now intros k|]. intros k1 k2 k3 (? & ? & ? & ? & ?) (? & ? & ? & ? & ?). repeat split; congruence || auto.
Qed.

#[export] Instance same_writes_preorder : PreOrder same_writes.
Proof. split; [now intros k|]. intros k1 k2 k3 (? & ? & ? & ?) (? & ? & ? & ?). repeat split; congruence. Qed.

Lemma emit_views ev k :
  let k' := set_k_events (k_events k ++ [ev]) k in
  k_delivered k' = k_delivered k ++ delivered_by ev /\ k_written k' = k_written k ++ written_by ev /\
  k_submitted k' = k_submitted k ++ submitted_by ev.
Proof.
  unfold k_delivered, k_written, k_submitted. simpl. rewrite !flat_map_app. simpl. now rewrite !app_nil_r.
Qed.

Lemma emit_reads ev : delivered_by ev = [] -> preserves same_reads (k_emit ev).
Proof.
  intros Hev k. destruct (emit_views ev k) as (E & _). rewrite Hev, app_nil_r in E. now split.
Qed.

Lemma emit_writes ev : written_by ev = [] -> submitted_by ev = [] -> preserves same_writes (k_emit ev).
Proof.
  intros H1 H2 k. destruct (emit_views ev k) as (_ & E1 & E2). rewrite H1, app_nil_r in E1. rewrite H2, app_nil_r in E2.
  now repeat split.
Qed.

Lemma release_reads b : preserves same_reads (release_buffer b).
Proof.
  intros k. unfold release_buffer. simpl. destruct (_ <? _); [|done]. repeat split; try done.
  intros Hp. apply Forall_app. split; [done | now repeat constructor].
Qed.

Lemma release_writes b : preserves same_writes (release_buffer b).
Proof. intros k. unfold release_buffer. simpl. now destruct (_ <? _). Qed.

#[local] Hint Extern 1 (preserves same_reads (k_emit _)) => apply emit_reads; reflexivity : preserves.
#[local] Hint Extern 1 (preserves same_writes (k_emit _)) => apply emit_writes; reflexivity : preserves.
#[local] Hint Extern 1 (preserves ?R (st_modify _)) => apply (preserves_modify R); done : preserves.
#[local] Hint Resolve release_reads release_writes : preserves.

Lemma writer_idle_both : preserves same_reads start_writer_idle_monitoring /\ preserves same_writes start_writer_idle_monitoring.
Proof.
  split; (apply preserves_get); intros k; (destruct (k_writer_idle k); [|done]).
  - now apply (emit_reads (KWriterTimer _)).
  - now apply (emit_writes (KWriterTimer _)).
Qed.

Lemma reader_idle_both : preserves same_reads start_reader_idle_monitoring /\ preserves same_writes start_reader_idle_monitoring.
Proof.
  split; (apply preserves_get); intros k; (destruct (k_reader_idle k); [|done]).
  - now apply (emit_reads (KReaderTimer _)).
  - now apply (emit_writes (KReaderTimer _)).
Qed.

(** ** Writes leave the reads alone, and conversely *)

Lemma send_outbox_reads : preserves same_reads send_outbox.
Proof.
  apply preserves_get. intros k. apply (preserves_bind same_reads (k_emit _)); [now apply emit_reads|].
  intros _. now apply preserves_modify.
Qed.

Lemma conn_write_reads p b : preserves same_reads (conn_write p b).
Proof.
  apply (preserves_bind same_reads); [auto with preserves|]. intros _. apply preserves_get. intros k.
  destruct (_ =? _); [apply send_outbox_reads | done].
Qed.

Lemma settle_reads ec n : preserves same_reads (settle_outbox ec n).
Proof.
  induction n as [|n IH]; simpl; [auto with preserves|]. apply preserves_get. intros k.
  destruct (k_outbox k) as [|[p b] outbox]; [done|].
  apply (preserves_bind same_reads (match ec with None => _ | Some _ => _ end)).
  { destruct ec; now apply emit_reads. }
  intros _. auto 10 with preserves.
Qed.

Lemma write_done_reads ec : preserves same_reads (write_done ec).
Proof.
  apply preserves_get. intros k.
  apply (preserves_bind same_reads (st_modify _)); [now apply preserves_modify|]. intros _.
  apply (preserves_bind same_reads); [apply settle_reads|]. intros _.
  apply (preserves_bind same_reads); [apply writer_idle_both|]. intros _.
  apply preserves_get. intros k'. destruct (bool_decide _); [done | apply send_outbox_reads].
Qed.

Lemma conn_read_writes p : preserves same_writes (conn_read p).
Proof.
  apply preserves_get. intros k. destruct (k_pending_read k); [now apply (emit_writes (KRead _ _))|].
  destruct (k_inbox k); [destruct (k_failed k); [now apply (emit_writes (KRead _ _)) | done]|].
  apply (preserves_bind same_writes (k_emit _)); auto with preserves.
Qed.

Lemma read_failed_writes ec : preserves same_writes (read_failed ec).
Proof.
  apply preserves_get. intros k. apply (preserves_bind same_writes); [|auto with preserves].
  destruct (k_pending_read k); auto with preserves.
Qed.

Lemma chain_writes : preserves same_writes start_async_read_chain.
Proof.
  apply (preserves_bind same_writes).
  - apply preserves_get. intros k. destruct (match k_pool k with [] => _ | _ => _ end) as [b pool].
    apply (preserves_put same_writes); [done|]. destruct (buffer_reserve 4 b) as [[]]; auto with preserves.
  - intros b. destruct (buffer_resize 4 b) as [[]]; auto with preserves.
Qed.

Lemma header_done_writes b r : preserves same_writes (header_done b r).
Proof.
  apply (preserves_bind same_writes); [auto with preserves|]. intros _. destruct r as [bytes|ec].
  - apply (preserves_bind same_writes); [apply reader_idle_both|]. intros _.
    destruct ((size ← read_uint; buffer_resize (4 + size)) (fill_from 0 bytes b)) as [[]]; auto with preserves.
  - apply read_failed_writes.
Qed.

Lemma body_done_writes b r : preserves same_writes (body_done b r).
Proof.
  apply (preserves_bind same_writes); [auto with preserves|]. intros _. destruct r as [bytes|ec].
  - apply (preserves_bind same_writes); [apply reader_idle_both|]. intros _. apply preserves_get. intros k.
    apply (preserves_bind same_writes); [|intros _; apply chain_writes].
    destruct (k_pending_read k); auto with preserves.
  - apply read_failed_writes.
Qed.

(** ** The system *)

(** [ks_stream]: the bytes received; [ks_writes]: the calls of [write]. *)
Record ksys := MkKSys {
  ks_conn : Connection;
  ks_stream : list byte;
  ks_writes : list (nat * BinaryBuffer)
}.

Definition received (r : outcome string (list byte)) : list byte := match r with Val bytes => bytes | Throw _ => [] end.

(** A handler of asio runs when its operation was started, and gets the number
    of bytes that were asked for. *)
Inductive kstep : ksys -> ksys -> Prop :=
| KsWrite p b k st ws :
    kstep (MkKSys k st ws) (MkKSys (conn_write p b k).2 st (ws ++ [(p, b)]))
| KsWriteDone ec k st ws :
    (0 < k_sending k)%nat -> kstep (MkKSys k st ws) (MkKSys (write_done ec k).2 st ws)
| KsRead p k st ws :
    kstep (MkKSys k st ws) (MkKSys (conn_read p k).2 st ws)
| KsHeader b r k st ws :
    k_reading k = Some (RHeader b) -> (is_val r = true -> lenZ (received r) = 4) ->
    kstep (MkKSys k st ws) (MkKSys (header_done b r k).2 (st ++ received r) ws)
| KsBody b r k st ws :
    k_reading k = Some (RBody b) -> (is_val r = true -> lenZ (received r) = buffer_size b - 4) ->
    kstep (MkKSys k st ws) (MkKSys (body_done b r k).2 (st ++ received r) ws)
| KsWriterIdle timeout k st ws :
    kstep (MkKSys k st ws) (MkKSys (set_writer_idle_handler timeout k).2 st ws)
| KsReaderIdle timeout k st ws :
    kstep (MkKSys k st ws) (MkKSys (set_reader_idle_handler timeout k).2 st ws)
| KsRelease b k st ws :
    kstep (MkKSys k st ws) (MkKSys (release_buffer b k).2 st ws)
| KsShutdown k st ws :
    kstep (MkKSys k st ws) (MkKSys (conn_shutdown k).2 st ws).

Definition ks_init : ksys := MkKSys (conn_connect (Val tt) new_Connection).2 [] [].

Definition kreachable (s : ksys) : Prop := rtc kstep ks_init s.

(** ** Reads *)

Definition header_buffer : BinaryBuffer := MkBinaryBuffer (vector_resize 4 []) 0 0.
Definition body_buffer (n : Z) : BinaryBuffer := MkBinaryBuffer (vector_resize (4 + n) (be_encode 4 n)) 4 0.

(** The bytes received are those of the frames handed over or in the inbox, then
    those of the frame that is being read. *)
Definition stream_inv (k : Connection) (stream : list byte) : Prop :=
  exists bodies rest,
    k_delivered k ++ k_inbox k = map frame_in bodies /\
    Forall (fun body => lenZ body + 4 <= UINT32_MAX) bodies /\
    stream = concat (map m_bytes (map frame_in bodies)) ++ rest /\
    match k_reading k with
    | Some (RHeader b) => b = header_buffer /\ rest = []
    | Some (RBody b) => exists n, 0 <= n /\ n + 4 <= UINT32_MAX /\ b = body_buffer n /\ rest = be_encode 4 n
    | None => True
    end.

Definition rinv (k : Connection) (stream : list byte) : Prop :=
  pool_ok k /\ (k_pending_read k <> None -> k_inbox k = []) /\ stream_inv k stream.

Lemma rinv_same k k' st : same_reads k k' -> rinv k st -> rinv k' st.
Proof.
  intros (E1 & E2 & E3 & E4 & Hp) (Hpool & Hpend & Hst). split; [auto|].
  unfold stream_inv. now rewrite E1, E2, E3, E4.
Qed.

Lemma chain_run k :
  pool_ok k ->
  start_async_read_chain k =
    (Val tt, set_k_reading (Some (RHeader header_buffer)) (set_k_pool (tail (k_pool k)) k)).
Proof.
  intros Hp. unfold start_async_read_chain, allocate_buffer. unfold pool_ok in Hp.
  destruct (k_pool k) as [|b pool] eqn:E; unfold mbind, ST_bind; simpl; rewrite E; [done|].
  apply Forall_cons in Hp as [-> _]. done.
Qed.

Lemma rinv_conn_read p k st : rinv k st -> rinv (conn_read p k).2 st.
Proof.
  intros (Hpool & Hpend & bodies & rest & Hd & Hb & Hst & Hr).
  unfold conn_read. unfold mbind at 1, ST_bind at 1. cbn [st_get]. destruct (k_pending_read k) as [p'|] eqn:Ep.
  { eapply rinv_same; [now apply (emit_reads (KRead p (Throw _)))|].
    split; [done|]. split; [now rewrite Ep|]. now exists bodies, rest. }
  destruct (k_inbox k) as [|b inbox] eqn:Ei.
  - destruct (k_failed k).
    + eapply rinv_same; [now apply (emit_reads (KRead p (Throw _)))|].
      split; [done|]. split; [now rewrite Ep|]. exists bodies, rest. now rewrite Ei.
    + split; [done|]. split; [done|]. exists bodies, rest. simpl. rewrite Ei. done.
  - split; [done|]. split; [now simpl; rewrite Ep|]. exists bodies, rest. simpl.
    destruct (emit_views (KRead p (Val b)) k) as (E & _). unfold k_delivered in *. simpl in *. rewrite E.
    now rewrite <- app_assoc.
Qed.

Lemma rinv_read_failed ec k st :
  rinv k st -> k_reading k = None -> rinv (read_failed ec k).2 st.
Proof.
  intros (Hpool & Hpend & bodies & rest & Hd & Hb & Hst & Hr) Ek.
  unfold read_failed. unfold mbind at 1, ST_bind at 1. cbn [st_get]. destruct (k_pending_read k) as [p'|] eqn:Ep.
  - destruct (emit_reads (KRead p' (Throw (IOException ec))) eq_refl k) as (E1 & _).
    split; [done|]. split; [now simpl|]. exists bodies, rest. simpl. rewrite Ek.
    unfold k_delivered in *. simpl in *. rewrite E1. done.
  - split; [done|]. split; [simpl; now rewrite Ep|]. exists bodies, rest. simpl. now rewrite Ek.
Qed.

Lemma reader_idle_run k : exists k', start_reader_idle_monitoring k = (Val tt, k') /\ same_reads k k'.
Proof.
  pose proof (proj1 reader_idle_both k) as Hs. unfold start_reader_idle_monitoring, mbind, ST_bind in *. cbn [st_get] in *.
  destruct (k_reader_idle k); eexists; (split; [reflexivity | exact Hs]).
Qed.

Lemma header_run bytes :
  lenZ bytes = 4 ->
  let n := be_decode bytes in
  0 <= n /\ bytes = be_encode 4 n /\
  (size ← read_uint; buffer_resize (4 + size)) (fill_from 0 bytes header_buffer) =
    if UINT32_MAX <? 4 + n then (Throw (InvalidInputException MAX_SIZE_MESSAGE), MkBinaryBuffer bytes 4 0)
    else (Val tt, body_buffer n).
Proof.
  intros Hl n. pose proof (be_decode_range bytes) as Hr. fold n in Hr.
  assert (bytes = be_encode 4 n) as En.
  { symmetry. apply be_encode_decode. unfold lenZ in Hl. lia. }
  split; [lia|]. split; [done|]. change (fill_from 0 bytes header_buffer) with (MkBinaryBuffer bytes 0 0).
  assert (read_uint (MkBinaryBuffer bytes 0 0) = (Val n, MkBinaryBuffer bytes 4 0)) as E.
  { unfold read_uint. erewrite ST_bind_Val.
    2: { apply read_raw_ok; [|unfold_words; lia|unfold buffer_size; simpl; lia].
         unfold buf_wf, buffer_size. simpl. unfold_words. lia. }
    unfold remaining. simpl m_read_cursor. rewrite dropZ_0. simpl m_bytes.
    rewrite <- (app_nil_r bytes) at 1. rewrite <- Hl, takeZ_app. unfold advance. simpl. rewrite Hl. done. }
  rewrite (ST_bind_Val _ _ _ _ _ E). unfold buffer_resize. destruct (_ <? _); [done|].
  unfold body_buffer. rewrite <- En. done.
Qed.

Lemma rinv_header b r k st :
  rinv k st -> k_reading k = Some (RHeader b) -> (is_val r = true -> lenZ (received r) = 4) ->
  rinv (header_done b r k).2 (st ++ received r).
Proof.
  intros (Hpool & Hpend & bodies & rest & Hd & Hb & Hst & Hr) Ek Hlen. rewrite Ek in Hr. destruct Hr as [-> ->].
  assert (rinv (set_k_reading None k) (st ++ received r)) as Hi.
  { split; [done|]. split; [done|]. exists bodies, (received r). rewrite app_nil_r in Hst. now rewrite Hst. }
  unfold header_done. rewrite (ST_bind_Val _ _ _ tt (set_k_reading None k)) by done. destruct r as [bytes|ec].
  2: { now apply rinv_read_failed. }
  simpl in Hlen, Hi. specialize (Hlen eq_refl). destruct (header_run bytes Hlen) as (Hn & En & Eh).
  destruct (reader_idle_run (set_k_reading None k)) as (k2 & E2 & Hs2).
  rewrite (ST_bind_Val _ _ _ _ _ E2), Eh. pose proof (rinv_same _ _ _ Hs2 Hi) as Hi2.
  destruct (Z.ltb_spec UINT32_MAX (4 + be_decode bytes)); [exact Hi2|].
  destruct Hs2 as (E3 & E4 & E5 & E6 & Hp2).
  split; [now apply Hp2|]. split; [simpl; now rewrite E4, E5|].
  exists bodies, bytes. simpl. unfold k_delivered in *. simpl in *. rewrite E3, E4.
  split; [done|]. split; [done|]. rewrite app_nil_r in Hst. split; [now rewrite Hst|].
  exists (be_decode bytes). split; [done|]. split; [lia|]. split; [done | exact En].
Qed.

Lemma body_fill n bytes : 0 <= n -> lenZ bytes = n -> fill_from 4 bytes (body_buffer n) = frame_in bytes.
Proof.
  intros Hn <-. unfold fill_from, body_buffer, frame_in, with_bytes. simpl. f_equal. f_equal.
  unfold vector_resize. rewrite resize_ge by (rewrite length_be_encode; lia).
  pose proof (takeZ_app (be_encode 4 (lenZ bytes)) (replicate (Z.to_nat (4 + lenZ bytes) - length (be_encode 4 (lenZ bytes))) x00)) as E.
  now rewrite lenZ_be_encode in E.
Qed.

Lemma rinv_body b r k st :
  rinv k st -> k_reading k = Some (RBody b) -> (is_val r = true -> lenZ (received r) = buffer_size b - 4) ->
  rinv (body_done b r k).2 (st ++ received r).
Proof.
  intros (Hpool & Hpend & bodies & rest & Hd & Hb & Hst & Hr) Ek Hlen. rewrite Ek in Hr.
  destruct Hr as (n & Hn & Hmax & -> & ->).
  unfold body_done. rewrite (ST_bind_Val _ _ _ tt (set_k_reading None k)) by done. destruct r as [bytes|ec].
  2: { simpl. rewrite app_nil_r. apply rinv_read_failed; [|done]. split; [done|]. split; [done|].
       now exists bodies, (be_encode 4 n). }
  simpl in Hlen. specialize (Hlen eq_refl). simpl received.
  assert (lenZ bytes = n) as Hl.
  { rewrite Hlen. unfold buffer_size, body_buffer, vector_resize, lenZ. simpl. rewrite length_resize. lia. }
  destruct (reader_idle_run (set_k_reading None k)) as (k2 & E2 & (E3 & E4 & E5 & E6 & Hp2)).
  rewrite (ST_bind_Val _ _ _ _ _ E2), (body_fill n bytes Hn Hl). unfold mbind at 1, ST_bind at 1. cbn [st_get].
  assert (exists k3, (match k_pending_read k2 with
      | Some promise => k_emit (KRead promise (Val (frame_in bytes))) ;; st_modify (set_k_pending_read None)
      | None => st_modify (fun k => set_k_inbox (k_inbox k ++ [frame_in bytes]) k) end : KM unit) k2 = (Val tt, k3) /\
    pool_ok k3 /\ (k_pending_read k3 <> None -> k_inbox k3 = []) /\
    k_delivered k3 ++ k_inbox k3 = k_delivered k ++ k_inbox k ++ [frame_in bytes]) as (k3 & Ek3 & H1 & H2 & H3).
  { destruct (k_pending_read k2) as [p|] eqn:Ep; eexists; (split; [reflexivity|]).
    - split; [now apply Hp2|]. split; [done|].
      destruct (emit_views (KRead p (Val (frame_in bytes))) k2) as (E & _). unfold k_delivered in *. simpl in *.
      rewrite E, E3, E4. rewrite E5 in Ep. rewrite Hpend by congruence. now rewrite app_nil_r.
    - split; [now apply Hp2|]. split; [simpl; now rewrite Ep|]. unfold k_delivered in *. simpl. now rewrite E3, E4. }
  rewrite (ST_bind_Val _ _ _ _ _ Ek3), chain_run by done. split; [now apply Forall_tail|]. split; [done|].
  exists (bodies ++ [bytes]), []. simpl. unfold k_delivered in *. simpl. rewrite H3, app_assoc, Hd, map_app.
  split; [done|]. split; [apply Forall_app; split; [done | repeat constructor; lia]|].
  split; [|done]. rewrite Hst, !map_app, concat_app. simpl. rewrite !app_nil_r, <- Hl. now rewrite <- !app_assoc.
Qed.

(** ** Writes *)

Definition bytes_of (entries : list OutboxEntry) : list byte := concat (map asio_buffer entries).

Lemma bytes_of_app l1 l2 : bytes_of (l1 ++ l2) = bytes_of l1 ++ bytes_of l2.
Proof. unfold bytes_of. now rewrite map_app, concat_app. Qed.

Definition winv (k : Connection) (ws : list OutboxEntry) : Prop :=
  k_written k ++ map fst (k_outbox k) = map fst ws /\
  k_submitted k ++ bytes_of (drop (k_sending k) (k_outbox k)) = bytes_of ws /\
  (k_sending k <= length (k_outbox k))%nat /\
  (k_sending k = 0%nat -> k_outbox k = []).

Lemma winv_same k k' ws : same_writes k k' -> winv k ws -> winv k' ws.
Proof. intros (E1 & E2 & E3 & E4). unfold winv. now rewrite E1, E2, E3, E4. Qed.

(** Everything in the outbox is handed to the socket. *)
Lemma send_outbox_run k :
  let k' := (send_outbox k).2 in
  k_written k' = k_written k /\ k_outbox k' = k_outbox k /\ k_sending k' = length (k_outbox k) /\
  k_submitted k' = k_submitted k ++ bytes_of (k_outbox k).
Proof.
  destruct (emit_views (KSubmit (map asio_buffer (k_outbox k))) k) as (_ & E1 & E2).
  unfold k_written, k_submitted in *. simpl in *. rewrite app_nil_r in E1. now repeat split.
Qed.

Lemma winv_write p b k ws : winv k ws -> winv (conn_write p b k).2 (ws ++ [(p, b)]).
Proof.
  intros (H1 & H2 & H3 & H4). unfold conn_write. unfold mbind at 1, ST_bind at 1. cbn [st_modify].
  unfold new_OutboxEntry. set (k1 := set_k_outbox (k_outbox k ++ [(p, b)]) k). unfold mbind at 1, ST_bind at 1. cbn [st_get].
  unfold winv. rewrite map_app, <- H1, bytes_of_app, <- H2.
  destruct (Z.eqb_spec (lenZ (k_outbox k1)) 1) as [El|El].
  - assert (k_outbox k = []) as Eo.
    { apply lenZ_0_nil. unfold k1 in El. simpl in El. rewrite lenZ_app in El. change (lenZ [(p, b)]) with 1 in El. lia. }
    destruct (send_outbox_run k1) as (E1 & E2 & E3 & E4). rewrite E1, E2, E3, E4. unfold k1. simpl.
    rewrite Eo. simpl. split; [now rewrite app_nil_r|]. split; [|split; [lia | lia]].
    rewrite drop_nil. change (bytes_of []) with (@nil byte). now rewrite !app_nil_r.
  - simpl. rewrite map_app. unfold k1. simpl.
    assert (k_outbox k <> []) as Hne by (intros E; apply El; unfold k1; simpl; now rewrite E).
    split; [now rewrite app_assoc|]. split; [|split].
    + rewrite drop_app_le by done. now rewrite bytes_of_app, app_assoc.
    + rewrite length_app. lia.
    + intros E. now apply H4 in E.
Qed.

Lemma settle_run ec n k :
  (n <= length (k_outbox k))%nat ->
  exists k', settle_outbox ec n k = (Val tt, k') /\
    k_written k' = k_written k ++ map fst (take n (k_outbox k)) /\ k_outbox k' = drop n (k_outbox k) /\
    k_submitted k' = k_submitted k /\ k_sending k' = k_sending k.
Proof.
  revert k. induction n as [|n IH]; intros k Hn.
  { exists k. split; [done|]. rewrite take_0, drop_0, app_nil_r. done. }
  cbn [settle_outbox]. unfold mbind at 1, ST_bind at 1. cbn [st_get].
  destruct (k_outbox k) as [|[p b] outbox] eqn:Eo; [simpl in Hn; lia|].
  set (r := match ec with None => Val tt | Some m => Throw (IOException m) end).
  destruct (emit_views (KWritten p r) k) as (_ & Ew & Es).
  set (k1 := set_k_events (k_events k ++ [KWritten p r]) k) in *.
  rewrite (ST_bind_Val _ _ _ tt k1) by now destruct ec.
  pose proof (release_writes b k1) as (F1 & F2 & F3 & F4). set (k2 := (release_buffer b k1).2) in *.
  rewrite (ST_bind_Val _ _ _ tt k2) by done.
  rewrite (ST_bind_Val _ _ _ tt (set_k_outbox outbox k2)) by done.
  destruct (IH (set_k_outbox outbox k2)) as (k' & E & G1 & G2 & G3 & G4); [simpl in *; lia|].
  exists k'. split; [done|]. rewrite G1, G2, G3, G4. simpl.
  change (k_written (set_k_outbox outbox k2)) with (k_written k2).
  change (k_submitted (set_k_outbox outbox k2)) with (k_submitted k2). rewrite F1, F2, F4, Ew, Es. simpl.
  rewrite app_nil_r, <- app_assoc. done.
Qed.

Lemma winv_write_done ec k ws : winv k ws -> winv (write_done ec k).2 ws.
Proof.
  intros (H1 & H2 & H3 & H4). unfold write_done. unfold mbind at 1, ST_bind at 1. cbn [st_get].
  rewrite (ST_bind_Val _ _ _ tt (set_k_sending 0 k)) by done.
  destruct (settle_run ec (k_sending k) (set_k_sending 0 k) H3) as (k1 & E & G1 & G2 & G3 & G4).
  rewrite (ST_bind_Val _ _ _ _ _ E).
  assert (exists k2, start_writer_idle_monitoring k1 = (Val tt, k2) /\ same_writes k1 k2) as (k2 & E2 & (F1 & F2 & F3 & F4)).
  { pose proof (proj2 writer_idle_both k1) as Hs. unfold start_writer_idle_monitoring, mbind, ST_bind in *. cbn [st_get] in *.
    destruct (k_writer_idle k1); eexists; (split; [reflexivity | exact Hs]). }
  rewrite (ST_bind_Val _ _ _ _ _ E2). unfold mbind at 1, ST_bind at 1. cbn [st_get].
  assert (k_written k2 ++ map fst (k_outbox k2) = map fst ws) as W1.
  { rewrite F1, F3, G1, G2, <- app_assoc, <- map_app, take_drop. exact H1. }
  assert (k_submitted k2 ++ bytes_of (k_outbox k2) = bytes_of ws) as W2 by (rewrite F2, F3, G2, G3; exact H2).
  unfold winv. destruct (bool_decide_reflect (k_outbox k2 = [])) as [Ee|Ee].
  - simpl. rewrite F4, G4. simpl. split; [done|]. split; [done|]. split; [lia | done].
  - destruct (send_outbox_run k2) as (D1 & D2 & D3 & D4). rewrite D1, D2, D3, D4. split; [done|].
    rewrite drop_all. change (bytes_of []) with (@nil byte). rewrite app_nil_r. split; [done|]. split; [lia|].
    intros E0. now apply length_zero_iff_nil in E0.
Qed.

(** ** Every interleaving *)

Lemma idle_handlers_both timeout :
  (preserves same_reads (set_writer_idle_handler timeout) /\ preserves same_writes (set_writer_idle_handler timeout)) /\
  (preserves same_reads (set_reader_idle_handler timeout) /\ preserves same_writes (set_reader_idle_handler timeout)).
Proof.
  split; split; (apply preserves_bind; [apply _ | now apply preserves_modify |]); intros _;
    apply writer_idle_both || apply reader_idle_both.
Qed.

Lemma shutdown_both : preserves same_reads conn_shutdown /\ preserves same_writes conn_shutdown.
Proof. split; unfold conn_shutdown; auto with preserves. Qed.

Definition kinv (s : ksys) : Prop := rinv (ks_conn s) (ks_stream s) /\ winv (ks_conn s) (ks_writes s).

Lemma kinv_same k k' st ws :
  same_reads k k' -> same_writes k k' -> kinv (MkKSys k st ws) -> kinv (MkKSys k' st ws).
Proof. intros Hr Hw [Hi Hj]. split; [eapply rinv_same | eapply winv_same]; eassumption. Qed.

Lemma kinv_step s s' : kinv s -> kstep s s' -> kinv s'.
Proof.
  intros Hs Hk. revert Hs.
  destruct Hk as [p b k st ws|ec k st ws Hw|p k st ws|b r k st ws Ek Hl|b r k st ws Ek Hl|t k st ws|t k st ws|b k st ws|k st ws];
    intros Hs; pose proof Hs as [Hr Hj]; simpl in Hr, Hj.
  - split; simpl; [eapply rinv_same; [apply conn_write_reads | done] | now apply winv_write].
  - split; simpl; [eapply rinv_same; [apply write_done_reads | done] | now apply winv_write_done].
  - split; simpl; [now apply rinv_conn_read | eapply winv_same; [apply conn_read_writes | done]].
  - split; simpl; [now apply rinv_header | eapply winv_same; [apply header_done_writes | done]].
  - split; simpl; [now apply rinv_body | eapply winv_same; [apply body_done_writes | done]].
  - eapply kinv_same; [apply idle_handlers_both | apply idle_handlers_both | done].
  - eapply kinv_same; [apply idle_handlers_both | apply idle_handlers_both | done].
  - eapply kinv_same; [apply release_reads | apply release_writes | done].
  - eapply kinv_same; [apply shutdown_both | apply shutdown_both | done].
Qed.

Lemma kinv_reachable s : kreachable s -> kinv s.
Proof.
  intros Hr. unfold kreachable in Hr. cut (kinv ks_init).
  - induction Hr; eauto using kinv_step.
  - split; [|by repeat split]. split; [constructor|]. split; [done|]. exists [], []. by repeat split.
Qed.

(** C12: whatever the order of the handlers, the bytes received are cut into
    frames without loss, duplication or reordering: the buffers handed to reads,
    in order, then those waiting in the inbox, are the frames of the stream, each
    with its length prefix read past; only a frame that is being read, or that a
    failure cut short, is missing.  A read waits only when no frame does. *)
Theorem connection_reads_stream s :
  kreachable s ->
  let k := ks_conn s in
  exists bodies rest,
    k_delivered k ++ k_inbox k = map frame_in bodies /\
    ks_stream s = concat (map (fun body => be_encode 4 (lenZ body) ++ body) bodies) ++ rest /\
    (forall b, k_reading k = Some (RHeader b) -> rest = []) /\
    (k_pending_read k <> None -> k_inbox k = []).
Proof.
  intros Hr. destruct (kinv_reachable s Hr) as [(_ & Hp & bodies & rest & Hd & _ & Hs & Hrest) _].
  exists bodies, rest. split; [done|]. rewrite Hs, map_map. split; [done|]. split; [|done].
  intros b Eb. rewrite Eb in Hrest. apply Hrest.
Qed.

(** C27: the buffers of the calls of [write] reach the socket in the order of the
    calls, and the promises are kept in that order, each once; a write
    is in progress whenever something is left to write. *)
Theorem connection_writes_fifo s :
  kreachable s ->
  let k := ks_conn s in
  k_written k ++ map fst (k_outbox k) = map fst (ks_writes s) /\
  k_submitted k ++ bytes_of (drop (k_sending k) (k_outbox k)) = bytes_of (ks_writes s) /\
  (k_outbox k <> [] -> (0 < k_sending k)%nat).
Proof.
  intros Hr k. destruct (kinv_reachable s Hr) as [_ (H1 & H2 & H3 & H4)]. fold k in H1, H2, H3, H4.
  split; [done|]. split; [done|]. intros Hne. destruct (k_sending k); [now destruct Hne; apply H4 | lia].
Qed.

(** A frame whose length prefix is so large that the buffer cannot hold it
    together with its prefix makes the handler of asio throw. *)
Theorem oversized_frame_escapes :
  (header_done header_buffer (Val [xff; xff; xff; xfc]) new_Connection).1 =
    Throw (InvalidInputException MAX_SIZE_MESSAGE).
Proof. vm_compute. reflexivity. Qed.

(** ** A run *)

Definition example_reads : ksys :=
  let k0 := ks_conn ks_init in
  let k1 := (conn_read 0 k0).2 in
  let k2 := (header_done header_buffer (Val [x00; x00; x00; x02]) k1).2 in
  let k3 := (conn_write 5 (frame_in [x61]) k2).2 in
  let k4 := (body_done (body_buffer 2) (Val [x68; x69]) k3).2 in
  let k5 := (write_done None k4).2 in
  MkKSys k5 ([x00; x00; x00; x02] ++ [x68; x69]) [(5%nat, frame_in [x61])].

Lemma example_reads_reachable : kreachable example_reads.
Proof.
  unfold kreachable, ks_init. eapply rtc_l; [apply (KsRead 0)|].
  eapply rtc_l; [eapply (KsHeader header_buffer (Val [x00; x00; x00; x02])); vm_compute; reflexivity|].
  eapply rtc_l; [apply (KsWrite 5 (frame_in [x61]))|].
  eapply rtc_l; [eapply (KsBody (body_buffer 2) (Val [x68; x69])); vm_compute; reflexivity|].
  eapply rtc_l; [apply (KsWriteDone None); vm_compute; lia|]. apply rtc_refl.
Qed.

Lemma connection_reads_stream_witness :
  k_delivered (ks_conn example_reads) = [frame_in [x68; x69]] /\
  exists bodies rest,
    k_delivered (ks_conn example_reads) ++ k_inbox (ks_conn example_reads) = map frame_in bodies /\
    ks_stream example_reads = concat (map (fun body => be_encode 4 (lenZ body) ++ body) bodies) ++ rest /\
    (forall b, k_reading (ks_conn example_reads) = Some (RHeader b) -> rest = []) /\
    (k_pending_read (ks_conn example_reads) <> None -> k_inbox (ks_conn example_reads) = []).
Proof.
  split; [vm_compute; reflexivity|]. exact (connection_reads_stream example_reads example_reads_reachable).
Defined.

Lemma connection_writes_fifo_witness :
  k_written (ks_conn example_reads) = [5%nat] /\
  k_submitted (ks_conn example_reads) ++ bytes_of (drop (k_sending (ks_conn example_reads)) (k_outbox (ks_conn example_reads)))
    = [x00; x00; x00; x01; x61].
Proof.
  split; [vm_compute; reflexivity|].
  exact (proj1 (proj2 (connection_writes_fifo example_reads example_reads_reachable))).
Defined.
