(* ===== verification/ConnectionSetup.v ===== *)
(** * Establishing a connection

    Models the rest of [connection.{h,cpp}]: [create], the constructor with its
    [SslAdapter], and [connect].  The resolver, the socket and OpenSSL are the
    class [Network]; a TLS context is kept as data, so that what a handshake is
    asked to check can be stated. *)

From stdpp Require Import pretty.
From S2P Require Import Prelude Words OrdMap Types BinaryBuffer Connection ConnectionStreams.

(** ** TLS contexts *)

Inductive ssl_option := default_workarounds | no_tlsv1 | no_tlsv1_1.
Inductive verify_mode := verify_none | verify_peer.

(** [sc_verify_callback]: the host of [host_name_verification]. *)
Record ssl_context := MkSslContext {
  sc_options : list ssl_option;
  sc_default_verify_paths : bool;
  sc_verify_mode : verify_mode;
  sc_verify_callback : option string
}.

(** A context as asio creates it verifies nothing. *)
Definition tls_client : ssl_context := MkSslContext [] false verify_none None.

Definition set_options (options : list ssl_option) (c : ssl_context) : ssl_context :=
  MkSslContext (sc_options c ++ options) (sc_default_verify_paths c) (sc_verify_mode c) (sc_verify_callback c).
Definition set_default_verify_paths (c : ssl_context) : ssl_context :=
  MkSslContext (sc_options c) true (sc_verify_mode c) (sc_verify_callback c).
Definition set_verify_mode (mode : verify_mode) (c : ssl_context) : ssl_context :=
  MkSslContext (sc_options c) (sc_default_verify_paths c) mode (sc_verify_callback c).
Definition set_verify_callback (host : string) (c : ssl_context) : ssl_context :=
  MkSslContext (sc_options c) (sc_default_verify_paths c) (sc_verify_mode c) (Some host).

(** The stream is made over the socket from the context; it keeps the settings
    that the context had then. *)
Record SslAdapter := MkSslAdapter {
  sa_context : ssl_context;
  sa_stream : ssl_context
}.

Definition new_SslAdapter (host : string) (verify_host : bool) : SslAdapter :=
  let context := set_options [default_workarounds; no_tlsv1; no_tlsv1_1] tls_client in
  let context :=
    if verify_host
    then set_verify_callback host (set_verify_mode verify_peer (set_default_verify_paths context))
    else context in
  MkSslAdapter context context.

(** ** The connection and its address *)

Record ConnectionSetup := MkConnectionSetup {
  cs_host : string;
  cs_port : Z;
  cs_ssl : option SslAdapter;
  cs_connection : Connection
}.

(** [Connection::create]. *)
Definition create_connection (host : string) (port : Z) (use_ssl verify_host : bool) : ConnectionSetup :=
  MkConnectionSetup host port (if use_ssl then Some (new_SslAdapter host verify_host) else None) new_Connection.

(** ** The network

    What fails throws [system_error], known by its text. *)

Class Network (N : Type) := {
  endpoint : Type;
  net_resolve : string -> string -> ST N string (list endpoint);
  net_connect : list endpoint -> ST N string unit;
  net_no_delay : bool -> ST N string unit;
  net_keep_alive : bool -> ST N string unit;
  net_handshake : ssl_context -> ST N string unit
}.

Section connect.
Context {N : Type} `{!Network N}.

(** The body of the [try] of [connect]. *)
Definition establish (s : ConnectionSetup) : ST N string unit :=
  endpoints ← net_resolve (cs_host s) (pretty (cs_port s));
  net_connect endpoints ;;
  net_no_delay true ;;
  net_keep_alive true ;;
  match cs_ssl s with
  | Some ssl => net_handshake (sa_stream ssl)
  | None => mret tt
  end.

Definition connection_connect (s : ConnectionSetup) (w : N) : outcome exn unit * ConnectionSetup * N :=
  let '(established, w) := establish s w in
  let '(o, k) := conn_connect established (cs_connection s) in
  (o, MkConnectionSetup (cs_host s) (cs_port s) (cs_ssl s) k, w).

End connect.

(** ** What is asked of the network *)

Inductive net_call :=
| CallResolve (host service : string)
| CallConnect
| CallNoDelay (on : bool)
| CallKeepAlive (on : bool)
| CallHandshake (context : ssl_context).

Section recording.
Context {N : Type} `{!Network N}.

Definition recording {A} (call : net_call) (m : ST N string A) : ST (N * list net_call) string A := fun s =>
  let '(o, w) := m s.1 in (o, (w, s.2 ++ [call])).

(** A network that also lists the calls. *)
#[export] Instance RecordedNetwork : Network (N * list net_call) := {
  endpoint := endpoint;
  net_resolve host service := recording (CallResolve host service) (net_resolve host service);
  net_connect endpoints := recording CallConnect (net_connect endpoints);
  net_no_delay on := recording (CallNoDelay on) (net_no_delay on);
  net_keep_alive on := recording (CallKeepAlive on) (net_keep_alive on);
  net_handshake context := recording (CallHandshake context) (net_handshake context)
}.

(** The calls of a connection that succeeds. *)
Definition connect_plan (s : ConnectionSetup) : list net_call :=
  [CallResolve (cs_host s) (pretty (cs_port s)); CallConnect; CallNoDelay true; CallKeepAlive true] ++
  match cs_ssl s with Some ssl => [CallHandshake (sa_stream ssl)] | None => [] end.

(** [m] makes the calls of [plan] in order, up to the first that fails. *)
Definition follows {A} (plan : list net_call) (m : ST (N * list net_call) string A) : Prop :=
  forall w calls, exists made,
    (m (w, calls)).2.2 = calls ++ made /\ made `prefix_of` plan /\
    (is_val (m (w, calls)).1 = true -> made = plan).

Lemma follows_recording {A} call (m : ST N string A) : follows [call] (recording call m).
Proof. intros w calls. unfold recording. simpl. destruct (m w) as [o w']. by exists [call]. Qed.

Lemma follows_ret : follows [] (mret tt : ST (N * list net_call) string unit).
Proof. intros w calls. exists []. simpl. by rewrite app_nil_r. Qed.

Lemma follows_bind {A B} plan1 plan2 (m : ST (N * list net_call) string A) (f : A -> ST (N * list net_call) string B) :
  follows plan1 m -> (forall a, follows plan2 (f a)) -> follows (plan1 ++ plan2) (m ≫= f).
Proof.
  intros Hm Hf w calls. unfold mbind, ST_bind. destruct (Hm w calls) as (made & E & Hp & Hv).
  destruct (m (w, calls)) as [[a|e] [w1 calls1]]; simpl in *; subst calls1.
  - specialize (Hv eq_refl) as ->. destruct (Hf a w1 (calls ++ plan1)) as (made & E & Hp2 & Hv). exists (plan1 ++ made).
    rewrite app_assoc. split; [done|]. split; [by apply prefix_app | intros H; by rewrite Hv].
  - exists made. split; [done|]. split; [by apply prefix_app_r | done].
Qed.

Lemma establish_follows s : follows (connect_plan s) (establish (N := N * list net_call) s).
Proof.
  unfold establish, connect_plan.
  apply (follows_bind [_]); [apply follows_recording|]. intros endpoints.
  apply (follows_bind [_]); [apply follows_recording|]. intros _.
  apply (follows_bind [_]); [apply follows_recording|]. intros _.
  apply (follows_bind [_]); [apply follows_recording|]. intros _.
  destruct (cs_ssl s); [apply follows_recording | apply follows_ret].
Qed.

End recording.

(** What [context] makes a handshake check. *)
Definition modern_tls (context : ssl_context) : Prop :=
  no_tlsv1 ∈ sc_options context /\ no_tlsv1_1 ∈ sc_options context.
Definition verifies_host (host : string) (context : ssl_context) : Prop :=
  sc_default_verify_paths context = true /\ sc_verify_mode context = verify_peer /\
  sc_verify_callback context = Some host.

(** C34: a connection is established by resolving its host and port, connecting,
    setting the socket's options and, with TLS, a handshake, in this order and
    up to the first step that fails.  When [connect] returns all were made, the
    reading of frames has begun, and if TLS was asked for the last one was a
    handshake that refuses TLS 1.0 and 1.1 and, if the host is to be verified,
    checks the peer's certificate against the very host that was resolved; when
    it throws, it throws [IOException] and the connection is as it was created,
    failed and without a read under way. *)
Theorem connect_establishes {N} `{!Network N} host port use_ssl verify_host (w : N) o s w' calls :
  let s0 := create_connection host port use_ssl verify_host in
  connection_connect s0 (w, []) = (o, s, (w', calls)) ->
  calls `prefix_of` connect_plan s0 /\
  match o with
  | Val _ =>
      calls = connect_plan s0 /\ k_failed (cs_connection s) = false /\
      k_reading (cs_connection s) = Some (RHeader header_buffer) /\
      (use_ssl = true -> exists context,
         last calls = Some (CallHandshake context) /\ modern_tls context /\
         (verify_host = true -> verifies_host host context))
  | Throw e => (exists what, e = IOException what) /\ cs_connection s = new_Connection
  end.
Proof.
  intros s0 E. unfold connection_connect in E. destruct (establish_follows s0 w []) as (made & Ec & Hp & Hv).
  destruct (establish s0 (w, [])) as [r [w1 calls1]]. simpl in Ec, Hv. subst calls1.
  destruct r as [[]|what]; simpl in E; injection E as <- <- <- <-; (split; [done|]); simpl; [|by eauto].
  specialize (Hv eq_refl) as ->. split; [done|]. split; [done|]. split; [done|]. intros ->. simpl.
  eexists. split; [reflexivity|]. destruct verify_host; (split; [split; simpl; set_solver|]); [|done].
  intros _. by repeat split.
Qed.

(** A network whose state tells whether handshakes succeed. *)
#[export] Instance SwitchedNetwork : Network bool := {
  endpoint := nat;
  net_resolve _ _ := mret [1%nat];
  net_connect _ := mret tt;
  net_no_delay _ := mret tt;
  net_keep_alive _ := mret tt;
  net_handshake _ := fun up => (if up : bool then Val tt else Throw "certificate verify failed", up)
}.

Lemma connect_establishes_witness :
  (connection_connect (create_connection "rabbit" 5551 true true) (false, [])).1.1 =
    Throw (IOException "certificate verify failed") /\
  exists context, verifies_host "rabbit" context /\
    (connection_connect (create_connection "rabbit" 5551 true true) (true, [])).2.2 =
      [CallResolve "rabbit" "5551"; CallConnect; CallNoDelay true; CallKeepAlive true; CallHandshake context].
Proof.
  split; [reflexivity|].
  destruct (connection_connect (create_connection "rabbit" 5551 true true) (true, [])) as [[o s] [w calls]] eqn:E.
  pose proof (connect_establishes "rabbit" 5551 true true true o s w calls E) as [_ H].
  vm_compute in E. injection E as <- <- <- <-. destruct H as (_ & _ & _ & H).
  destruct (H eq_refl) as (context & Hl & _ & Hv). exists context. split; [by apply Hv|].
  simpl in Hl. injection Hl as <-. reflexivity.
Defined.
