(* ===== verification/Client.v ===== *)
(** * The client

    Models [include/hareflow/detail/client_impl.{h,hpp}] and
    [src/client_impl.cpp]: sending frames and requests, the operations of the
    protocol, and the handling of the frames that arrive.

    The connection is behind an interface: [c_io] is what the future of a
    write yields at the moment; what happens while a thread waits for a
    response, for the tune frame or for the connection is a parameter of the
    section.  [c_events] records what the outside observes: the buffers handed
    to the connection, the calls of the listeners, the responses completed. *)

From stdpp Require Import pretty.
From S2P Require Import Prelude Words OrdMap Types BinaryBuffer ClientCommands ServerCommands ClientFrames ServerFrames Messages.

(** ** Version negotiation *)

Definition SUPPORTED_COMMAND_VERSIONS : list CommandVersion :=
  [MkCommandVersion (key_value KeyDeliver) 1 2].

Definition digit_value (b : byte) : option Z :=
  let v := byte_to_Z b - 48 in if (0 <=? v) && (v <=? 9) then Some v else None.

(** The longest prefix of digits, its value, and the rest. *)
Fixpoint scan_digits (l : list byte) (acc : Z) (any : bool) : Z * bool * list byte :=
  match l with
  | b :: l' => match digit_value b with
               | Some d => scan_digits l' (acc * 10 + d) true
               | None => (acc, any, l)
               end
  | [] => (acc, any, [])
  end.

(** [std::from_chars] into an [unsigned int]: [None] on an error code. *)
Definition from_chars_uint (l : list byte) : option (Z * list byte) :=
  let '(v, any, rest) := scan_digits l 0 false in
  if any && (v <=? UINT32_MAX) then Some (v, rest) else None.

Definition skip_dot (l : list byte) : option (list byte) :=
  match l with b :: l' => if decide (b = x2e) then Some l' else None | [] => None end.

Definition parse_version (s : string) : option (Z * Z * Z) :=
  '(major, rest) ← from_chars_uint (str_bytes s);
  rest ← skip_dot rest;
  '(minor, rest) ← from_chars_uint rest;
  rest ← skip_dot rest;
  '(patch, _) ← from_chars_uint rest;
  Some (major, minor, patch).

(** [version >= std::array{3, 11, 0}], lexicographic. *)
Definition version_at_least (v : Z * Z * Z) (w : Z * Z * Z) : bool :=
  let '(a, b, c) := v in
  let '(x, y, z) := w in
  (x <? a) || ((a =? x) && ((y <? b) || ((b =? y) && (z <=? c)))).

Definition supports_command_versions_exchange (server_properties : Properties) : bool :=
  match om_find "version"%string server_properties with
  | None => false
  | Some s => match parse_version s with
              | Some v => version_at_least v (3, 11, 0)
              | None => false
              end
  end.

Definition compute_effective_port (port : Z) (use_ssl : bool) : Z :=
  if port =? 0 then (if use_ssl then 5551 else 5552) else port.

Definition MAX_REFERENCE_LENGTH : Z := 256.

Definition DEFAULT_CLIENT_PROPERTIES : Properties :=
  om_insert_all
    [("product", "Hareflow: A RabbitMQ Stream C++ Client"); ("platform", "C++"); ("version", "0.3.0");
     ("license", "Apache License Version 2.0"); ("source", "https://github.com/coveooss/hareflow")]%string [].

Definition negociate_value (client server : Z) : Z :=
  if (client =? 0) || (server =? 0) then Z.max client server else Z.min client server.

(** ** State *)

Inductive ClientStatus := CInitialized | CStarting | CStarted | CStopping.

#[export] Instance ClientStatus_eq_dec : EqDecision ClientStatus.
Proof. solve_decision. Defined.

(** Which listeners are set. *)
Record ClientConfig := MkClientConfig {
  cfg_user : string;
  cfg_password : string;
  cfg_virtual_host : string;
  cfg_requested_heartbeat : Z;
  cfg_requested_max_frame_size : Z;
  cfg_client_properties : Properties;
  cfg_chunk_listener : bool;
  cfg_message_listener : bool;
  cfg_publish_confirm_listener : bool;
  cfg_publish_error_listener : bool;
  cfg_metadata_listener : bool;
  cfg_credit_error_listener : bool;
  cfg_shutdown_listener : bool
}.

Inductive client_event :=
| CEvWrite (bytes : list byte)
| CEvChunk (subscription_id : Z) (ctx : ChunkContext)
| CEvMessage (subscription_id : Z) (ctx : ChunkContext) (offset : Z) (message : Message)
| CEvPublishConfirm (publisher_id publishing_id : Z)
| CEvPublishError (publisher_id publishing_id code : Z)
| CEvMetadata (stream : string) (code : Z)
| CEvCreditError (subscription_id code : Z)
| CEvIdleHandlers (writer reader : Z)
| CEvComplete (correlation_id : Z) (response : ServerFrame)
| CEvRequestFailed (correlation_id : Z)
| CEvConnectionShutdown
| CEvShutdown (reason : ShutdownReason).

Record Client := MkClient {
  c_heartbeat : Z;
  c_max_frame_size : Z;
  c_server_properties : Properties;
  c_connection_properties : Properties;
  c_correlation_sequence : Z;
  c_status : ClientStatus;
  c_tuned : bool;
  c_outstanding : gset Z;
  c_io : outcome exn unit;
  c_events : list client_event
}.

Definition with_heartbeat (x : Z) (c : Client) : Client :=
  MkClient x (c_max_frame_size c) (c_server_properties c) (c_connection_properties c)
           (c_correlation_sequence c) (c_status c) (c_tuned c) (c_outstanding c) (c_io c)
           (c_events c).
Definition with_max_frame_size (x : Z) (c : Client) : Client :=
  MkClient (c_heartbeat c) x (c_server_properties c) (c_connection_properties c)
           (c_correlation_sequence c) (c_status c) (c_tuned c) (c_outstanding c) (c_io c)
           (c_events c).
Definition with_server_properties (x : Properties) (c : Client) : Client :=
  MkClient (c_heartbeat c) (c_max_frame_size c) x (c_connection_properties c)
           (c_correlation_sequence c) (c_status c) (c_tuned c) (c_outstanding c) (c_io c)
           (c_events c).
Definition with_connection_properties (x : Properties) (c : Client) : Client :=
  MkClient (c_heartbeat c) (c_max_frame_size c) (c_server_properties c) x
           (c_correlation_sequence c) (c_status c) (c_tuned c) (c_outstanding c) (c_io c)
           (c_events c).
Definition with_correlation_sequence (x : Z) (c : Client) : Client :=
  MkClient (c_heartbeat c) (c_max_frame_size c) (c_server_properties c)
           (c_connection_properties c) x (c_status c) (c_tuned c) (c_outstanding c) (c_io c)
           (c_events c).
Definition with_status (x : ClientStatus) (c : Client) : Client :=
  MkClient (c_heartbeat c) (c_max_frame_size c) (c_server_properties c)
           (c_connection_properties c) (c_correlation_sequence c) x (c_tuned c)
           (c_outstanding c) (c_io c) (c_events c).
Definition with_tuned (x : bool) (c : Client) : Client :=
  MkClient (c_heartbeat c) (c_max_frame_size c) (c_server_properties c)
           (c_connection_properties c) (c_correlation_sequence c) (c_status c) x
           (c_outstanding c) (c_io c) (c_events c).
Definition with_outstanding (x : gset Z) (c : Client) : Client :=
  MkClient (c_heartbeat c) (c_max_frame_size c) (c_server_properties c)
           (c_connection_properties c) (c_correlation_sequence c) (c_status c) (c_tuned c) x
           (c_io c) (c_events c).
Definition with_io (x : outcome exn unit) (c : Client) : Client :=
  MkClient (c_heartbeat c) (c_max_frame_size c) (c_server_properties c)
           (c_connection_properties c) (c_correlation_sequence c) (c_status c) (c_tuned c)
           (c_outstanding c) x (c_events c).
Definition with_events (x : list client_event) (c : Client) : Client :=
  MkClient (c_heartbeat c) (c_max_frame_size c) (c_server_properties c)
           (c_connection_properties c) (c_correlation_sequence c) (c_status c) (c_tuned c)
           (c_outstanding c) (c_io c) x.

Abbreviation CM A := (ST Client exn A).

Definition emit (ev : client_event) : CM unit :=
  st_modify (fun c => with_events (c_events c ++ [ev]) c).

(** The result of a computation on a local buffer. *)
Definition on_buffer {A} (m : BM A) (b : BinaryBuffer) : CM A :=
  match (m b).1 with Val a => mret a | Throw e => st_throw e end.

(** [catch (const StreamException&)]. *)
Definition client_catch {A} (m : CM A) (h : exn -> CM A) : CM A :=
  st_catch m (fun e => if is_StreamException e then h e else st_throw e).

Definition client_frame_size_message (max_frame_size : Z) : string :=
  String.append "Maximum frame size exceeded (" (String.append (pretty max_frame_size) ")").

Definition max_frame_size : CM Z := st_gets c_max_frame_size.

(** ** Sending frames

    [allocate_buffer] takes a buffer from the pool, where buffers are cleared,
    or a new one, and reserves [frame_size] bytes. *)

Definition frame_buffer {T} `{Serializable T} (frame : T) : BM unit :=
  let frame_data_size := serialized_size frame in
  let frame_size := frame_data_size + 4 in
  buffer_reserve frame_size ;;
  write_uint (wrap32 frame_data_size) ;;
  serialize frame.

(** The value is that of the future that [write] returns. *)
Definition send_frame {T} `{Serializable T} (frame : T) : CM (outcome exn unit) :=
  c ← st_get;
  let frame_size := serialized_size frame + 4 in
  if (0 <? c_max_frame_size c) && (c_max_frame_size c <? frame_size)
  then st_throw (InvalidInputException (client_frame_size_message (c_max_frame_size c)))
  else
    match frame_buffer frame empty_buffer with
    | (Throw e, _) => st_throw e
    | (Val _, b) => emit (CEvWrite (m_bytes b)) ;; mret (c_io c)
    end.

(** ** Outstanding requests *)

Definition complete_outstanding_request (corr : Z) (response : ServerFrame) : CM unit :=
  c ← st_get;
  if bool_decide (corr ∈ c_outstanding c) then
    emit (CEvComplete corr response) ;;
    st_modify (fun c => with_outstanding (c_outstanding c ∖ {[corr]}) c)
  else mret tt.

Definition drop_outstanding_request (corr : Z) : CM unit :=
  st_modify (fun c => with_outstanding (c_outstanding c ∖ {[corr]}) c).

Definition fail_all_outstanding_requests : CM unit :=
  c ← st_get;
  st_iter (fun corr => emit (CEvRequestFailed corr)) (elements (c_outstanding c)) ;;
  st_modify (with_outstanding ∅).

(** [++m_correlation_sequence]. *)
Definition next_correlation : CM Z :=
  c ← st_get;
  let corr := wrap32 (c_correlation_sequence c + 1) in
  st_put (with_correlation_sequence corr c) ;;
  mret corr.

Section client.
Context {K : Type} `{Codec K}.
Context (cfg : ClientConfig) (codec : K).
(** What a thread finds when it waits: the response of its request or an
    exception (a timeout included), the tune frame, the connection. *)
Context (await : Z -> CM ServerFrame) (await_tune : CM unit) (connect : CM unit).

Definition new_Client : Client :=
  MkClient (cfg_requested_heartbeat cfg) (cfg_requested_max_frame_size cfg) [] [] 0 CInitialized false ∅
           (Val tt) [].

Definition m_client_properties : Properties :=
  om_merge DEFAULT_CLIENT_PROPERTIES (cfg_client_properties cfg).

(** Registering fails when the id is still in use: its future was retrieved. *)
Definition send_request {T} `{ClientRequestOrResponse T} (request : T) : CM unit :=
  c ← st_get;
  if bool_decide (req_correlation_id request ∈ c_outstanding c) then st_throw FutureError
  else
    st_put (with_outstanding ({[req_correlation_id request]} ∪ c_outstanding c) c) ;;
    r ← send_frame request;
    match r with Val _ => mret tt | Throw e => st_throw e end.

(** [cast] is the [dynamic_cast] to the type of the response. *)
Definition send_request_wait_response {T R} `{ClientRequestOrResponse T}
    (cast : ServerFrame -> option R) (request : T) : CM R :=
  untyped ← client_catch (send_request request ;; await (req_correlation_id request))
              (fun e => drop_outstanding_request (req_correlation_id request) ;; st_throw e);
  match cast untyped with
  | Some response => mret response
  | None => st_throw (StreamException "Unexpected type for response object")
  end.

Definition send_request_check_response_code {T R} `{ClientRequestOrResponse T, HasResponseCode R}
    (cast : ServerFrame -> option R) (request : T) : CM R :=
  response ← send_request_wait_response cast request;
  if get_response_code response =? rc_value Ok then mret response
  else st_throw (ResponseErrorException (get_response_code response)).

Definition cast_generic (f : ServerFrame) : option GenericResponse :=
  match f with SGeneric r => Some r | _ => None end.
Definition cast_open (f : ServerFrame) : option OpenResponse :=
  match f with SOpen r => Some r | _ => None end.
Definition cast_metadata (f : ServerFrame) : option MetadataResponse :=
  match f with SMetadata r => Some r | _ => None end.
Definition cast_handshake (f : ServerFrame) : option SaslHandshakeResponse :=
  match f with SSaslHandshake r => Some r | _ => None end.
Definition cast_authenticate (f : ServerFrame) : option SaslAuthenticateResponse :=
  match f with SSaslAuthenticate r => Some r | _ => None end.
Definition cast_peer_properties (f : ServerFrame) : option PeerPropertiesResponse :=
  match f with SPeerProperties r => Some r | _ => None end.
Definition cast_query_offset (f : ServerFrame) : option QueryOffsetResponse :=
  match f with SQueryOffset r => Some r | _ => None end.
Definition cast_query_sequence (f : ServerFrame) : option QueryPublisherSequenceResponse :=
  match f with SQueryPublisherSequence r => Some r | _ => None end.
Definition cast_versions (f : ServerFrame) : option ExchangeCommandVersionsResponse :=
  match f with SExchangeVersions r => Some r | _ => None end.

(** A request whose answer is only a code. *)
Definition simple_request {T} `{ClientRequestOrResponse T} (mk : Z -> T) : CM unit :=
  corr ← next_correlation;
  _ ← send_request_check_response_code cast_generic (mk corr);
  mret tt.

(** ** The operations of the protocol *)

(** [brokers.at(reference)]; the port is cut to 16 bits. *)
Definition metadata_brokers (bs : list MetadataBroker) : omap Z Broker :=
  om_insert_all (map (fun b => (mb_reference b, MkBroker (mb_host b) (wrap16 (mb_port b)))) bs) [].

Definition METADATA_INCOHERENT : exn :=
  StreamException "Incoherent results returned by server, failed to compute metadata".

Fixpoint brokers_at (brokers : omap Z Broker) (references : list Z) : option (list Broker) :=
  match references with
  | [] => Some []
  | r :: rs => b ← om_find r brokers; bs ← brokers_at brokers rs; Some (b :: bs)
  end.

(** [Broker leader;] leaves the port of a stream in error indeterminate; the
    model has 0. *)
Definition stream_metadata (brokers : omap Z Broker) (s : MetadataStream) : option StreamMetadata :=
  if ms_code s =? rc_value Ok then
    leader ← om_find (ms_leader s) brokers;
    replicas ← brokers_at brokers (ms_replicas s);
    Some (MkStreamMetadata (ms_stream_name s) (ms_code s) leader replicas)
  else Some (MkStreamMetadata (ms_stream_name s) (ms_code s) (MkBroker EmptyString 0) []).

Fixpoint metadata_result (brokers : omap Z Broker) (ss : list MetadataStream) (acc : StreamMetadataSet) :
  outcome exn StreamMetadataSet :=
  match ss with
  | [] => Val acc
  | s :: ss =>
      match stream_metadata brokers s with
      | Some m => metadata_result brokers ss (metadata_emplace m acc)
      | None => Throw METADATA_INCOHERENT
      end
  end.

Definition metadata (streams : list string) : CM StreamMetadataSet :=
  corr ← next_correlation;
  response ← send_request_wait_response cast_metadata (MkMetadataRequest corr streams);
  match metadata_result (metadata_brokers (MetadataResp_brokers response))
          (MetadataResp_stream_metadata response) [] with
  | Val result => mret result
  | Throw e => st_throw e
  end.

Definition check_reference (reference : string) : CM unit :=
  if MAX_REFERENCE_LENGTH <? str_size reference
  then st_throw (InvalidInputException "Reference max size exceeded") else mret tt.

Definition declare_publisher (publisher_id : Z) (publisher_reference stream : string) : CM unit :=
  check_reference publisher_reference ;;
  simple_request (fun corr => MkDeclarePublisherRequest corr publisher_id publisher_reference stream).

Definition delete_publisher (publisher_id : Z) : CM unit :=
  simple_request (fun corr => MkDeletePublisherRequest corr publisher_id).

(** A queried value, absent when the broker has none. *)
Definition queried (code value : Z) : CM (option Z) :=
  if code =? rc_value Ok then mret (Some value)
  else if code =? rc_value NoOffset then mret None
  else st_throw (ResponseErrorException code).

Definition query_publisher_sequence (publisher_reference stream : string) : CM (option Z) :=
  check_reference publisher_reference ;;
  corr ← next_correlation;
  response ← send_request_wait_response cast_query_sequence
               (MkQueryPublisherSequenceRequest corr publisher_reference stream);
  queried (QueryPublisherSequenceResp_response_code response) (QueryPublisherSequenceResp_sequence response).

Definition store_offset (reference stream : string) (offset : Z) : CM unit :=
  check_reference reference ;;
  _ ← send_frame (MkStoreOffsetCommand reference stream offset);
  mret tt.

Definition query_offset (reference stream : string) : CM (option Z) :=
  check_reference reference ;;
  corr ← next_correlation;
  response ← send_request_wait_response cast_query_offset (MkQueryOffsetRequest corr reference stream);
  queried (QueryOffsetResp_response_code response) (QueryOffsetResp_offset response).

Definition create_stream (stream : string) (arguments : Properties) : CM unit :=
  simple_request (fun corr => MkCreateRequest corr stream arguments).

Definition delete_stream (stream : string) : CM unit :=
  simple_request (fun corr => MkDeleteRequest corr stream).

Definition subscribe (subscription_id : Z) (stream : string) (offset : OffsetSpecification) (credit : Z)
    (properties : Properties) : CM unit :=
  simple_request (fun corr => MkSubscribeRequest corr subscription_id stream offset credit properties).

Definition unsubscribe (subscription_id : Z) : CM unit :=
  simple_request (fun corr => MkUnsubscribeRequest corr subscription_id).

Definition credit (subscription_id n : Z) : CM unit :=
  _ ← send_frame (MkCreditCommand subscription_id n);
  mret tt.

Definition publish (publisher_id publishing_id : Z) (message : Message) : CM unit :=
  match codec_encode codec message with
  | Throw e => st_throw e
  | Val encoded =>
      _ ← send_frame (MkPublishCommand publisher_id [MkPublishMessage publishing_id encoded]);
      mret tt
  end.

(** The loop of [publish_encoded]: [batch] and [size] are [message_batch] and
    [current_size]. *)
Fixpoint publish_loop (publisher_id : Z) (messages batch : list PublishMessage) (size : Z) : CM unit :=
  match messages with
  | [] =>
      if bool_decide (batch = []) then mret tt
      else _ ← send_frame (MkPublishCommand publisher_id batch); mret tt
  | m :: messages =>
      c ← st_get;
      let added_size := PublishMessage_serialized_size m in
      if (0 <? c_max_frame_size c) && (c_max_frame_size c <? size + added_size) then
        _ ← send_frame (MkPublishCommand publisher_id batch);
        publish_loop publisher_id messages [m] (BASE_SERIALIZED_SIZE + added_size)
      else publish_loop publisher_id messages (batch ++ [m]) (size + added_size)
  end.

Definition publish_encoded (publisher_id : Z) (messages : list PublishMessage) : CM unit :=
  publish_loop publisher_id messages [] BASE_SERIALIZED_SIZE.

(** ** Start and stop *)

Definition client_shutdown (reason : option ShutdownReason) : CM unit :=
  emit CEvConnectionShutdown ;;
  fail_all_outstanding_requests ;;
  match reason with
  | Some r => if cfg_shutdown_listener cfg then emit (CEvShutdown r) else mret tt
  | None => mret tt
  end.

Definition client_exchange (s : ClientStatus) : CM ClientStatus :=
  c ← st_get; st_put (with_status s c) ;; mret (c_status c).

Definition client_compare_exchange (expected desired : ClientStatus) : CM bool :=
  c ← st_get;
  if decide (c_status c = expected) then st_put (with_status desired c) ;; mret true else mret false.

Definition peer_properties : CM Properties :=
  corr ← next_correlation;
  response ← send_request_check_response_code cast_peer_properties
               (MkPeerPropertiesRequest corr m_client_properties);
  mret (PeerPropertiesResp_properties response).

Definition sasl_handshake : CM (list string) :=
  corr ← next_correlation;
  response ← send_request_check_response_code cast_handshake (MkSaslHandshakeRequest corr);
  mret (SaslHandshakeResp_mechanisms response).

Definition sasl_blob (user password : string) : list byte :=
  [x00] ++ str_bytes user ++ [x00] ++ str_bytes password.

Definition authenticate : CM unit :=
  mechanisms ← sasl_handshake;
  if negb (bool_decide ("PLAIN"%string ∈ (mechanisms : list string)))
  then st_throw (StreamException "Server does not support PLAIN authentication")
  else
    corr ← next_correlation;
    _ ← send_request_check_response_code cast_authenticate
          (MkSaslAuthenticateRequest corr "PLAIN" (sasl_blob (cfg_user cfg) (cfg_password cfg)));
    mret tt.

Definition open_connection : CM Properties :=
  corr ← next_correlation;
  response ← send_request_check_response_code cast_open (MkOpenRequest corr (cfg_virtual_host cfg));
  mret (OpenResp_connection_properties response).

Definition maybe_exchange_command_versions : CM unit :=
  c ← st_get;
  if negb (supports_command_versions_exchange (c_server_properties c)) then mret tt
  else
    st_catch
      (corr ← next_correlation;
       _ ← send_request_check_response_code cast_versions
             (MkExchangeCommandVersionsRequest corr SUPPORTED_COMMAND_VERSIONS);
       mret tt)
      (fun e => match response_error_code e with Some _ => mret tt | None => st_throw e end).

(** [stop] once the status is exchanged. *)
Definition close_request : CM unit :=
  client_catch (simple_request (fun corr => MkClientCloseRequest corr (rc_value Ok) "OK")) (fun _ => mret tt).

Definition client_stop : CM unit :=
  previous ← client_exchange CStopping;
  if bool_decide (previous = CStopping) then mret tt
  else if bool_decide (previous = CStarted) then
    close_request ;;
    client_shutdown (Some ClientInitiated)
  else client_shutdown None.

(** [start] from the connection, which the frame thread now reads, to the last
    request. *)
Definition client_setup : CM unit :=
  props ← peer_properties;
  st_modify (with_server_properties props) ;;
  authenticate ;;
  await_tune ;;
  props ← open_connection;
  st_modify (with_connection_properties props) ;;
  maybe_exchange_command_versions.

Definition client_start : CM unit :=
  ok ← client_compare_exchange CInitialized CStarting;
  if negb (ok : bool) then st_throw (StreamException "Invalid state, did you try calling start() twice?")
  else
    client_catch
      (connect ;;
       client_setup ;;
       ok ← client_compare_exchange CStarting CStarted;
       if ok : bool then mret tt
       else st_throw (StreamException "Client was stopped while start was ongoing"))
      (fun e => client_stop ;; st_throw e).

(** ** Frames that arrive *)

Definition handle_response {T} `{ServerRequestOrResponse T} (con : T -> ServerFrame) (b : BinaryBuffer) :
  CM unit :=
  response ← on_buffer deserialize b;
  complete_outstanding_request (get_correlation_id response) (con response).

Definition handle_close (b : BinaryBuffer) : CM unit :=
  request ← on_buffer deserialize b;
  _ ← send_frame (MkClientCloseResponse (ServerClose_correlation_id request) (rc_value Ok));
  st_throw (ServerCloseException "Server requested close").

Fixpoint deliver_messages (subscription_id : Z) (ctx : ChunkContext) (offset : Z) (ms : list (list byte)) :
  CM unit :=
  match ms with
  | [] => mret tt
  | encoded :: ms =>
      match codec_decode codec encoded (lenZ encoded) with
      | Throw e => st_throw e
      | Val message =>
          emit (CEvMessage subscription_id ctx offset message) ;;
          deliver_messages subscription_id ctx (wrap64 (offset + 1)) ms
      end
  end.

Definition handle_deliver (version : Z) (b : BinaryBuffer) : CM unit :=
  if negb (cfg_chunk_listener cfg) && negb (cfg_message_listener cfg) then mret tt
  else
    command ← on_buffer (DeliverCommand_read_body version) b;
    let chunk := Deliver_chunk command in
    let ctx := MkChunkContext (ch_timestamp chunk) (ch_offset chunk) (ch_nb_entries chunk)
                              (Deliver_committed_chunk_id command) in
    (if cfg_chunk_listener cfg then emit (CEvChunk (Deliver_subscription_id command) ctx) else mret tt) ;;
    if negb (cfg_message_listener cfg) then mret tt
    else deliver_messages (Deliver_subscription_id command) ctx (ch_offset chunk) (Deliver_messages command).

Definition client_publish_confirm (b : BinaryBuffer) : CM unit :=
  if negb (cfg_publish_confirm_listener cfg) then mret tt
  else
    command ← on_buffer deserialize b;
    st_iter (fun id => emit (CEvPublishConfirm (PublishConfirm_publisher_id command) id))
            (PublishConfirm_sequences command).

Definition client_publish_error (b : BinaryBuffer) : CM unit :=
  if negb (cfg_publish_error_listener cfg) then mret tt
  else
    command ← on_buffer deserialize b;
    st_iter (fun e => emit (CEvPublishError (PublishError_publisher_id command) (pe_sequence e) (pe_code e)))
            (PublishError_publishing_errors command).

(** The promise is set once; a second [set_value] throws. *)
Definition set_tuned : CM unit :=
  c ← st_get;
  if c_tuned c then st_throw FutureError else st_put (with_tuned true c).

Definition handle_tune (b : BinaryBuffer) : CM unit :=
  command ← on_buffer deserialize b;
  c ← st_get;
  let heartbeat := negociate_value (wrap32 (c_heartbeat c)) (ServerTune_heartbeat command) in
  let max_frame_size := negociate_value (c_max_frame_size c) (ServerTune_frame_size command) in
  st_put (with_heartbeat heartbeat (with_max_frame_size max_frame_size c)) ;;
  _ ← send_frame (MkClientTuneCommand max_frame_size heartbeat);
  (if heartbeat =? 0 then mret tt else emit (CEvIdleHandlers heartbeat (heartbeat * 2))) ;;
  set_tuned.

Definition client_metadata_update (b : BinaryBuffer) : CM unit :=
  command ← on_buffer deserialize b;
  let code := MetadataUpdate_response_code command in
  if negb (code =? rc_value StreamNotAvailable) then st_throw (ResponseErrorException code)
  else if cfg_metadata_listener cfg then emit (CEvMetadata (MetadataUpdate_stream_name command) code)
  else mret tt.

Definition handle_credit (b : BinaryBuffer) : CM unit :=
  if negb (cfg_credit_error_listener cfg) then mret tt
  else
    command ← on_buffer deserialize b;
    emit (CEvCreditError (CreditError_subscription_id command) (CreditError_response_code command)).

Definition handle_heartbeat (b : BinaryBuffer) : CM unit := mret tt.

(** The reader idle handler. *)
Definition heartbeat_timeout : CM unit :=
  ok ← client_compare_exchange CStarted CStopping;
  if ok : bool then client_shutdown (Some HeartbeatTimeout) else mret tt.

(** [FRAME_HANDLERS]. *)
Definition FRAME_HANDLERS (key version : Z) : option (BinaryBuffer -> CM unit) :=
  let at_ k v := (key =? key_value k) && (version =? v) in
  if at_ KeySubscribe 1 then Some (handle_response SGeneric)
  else if at_ KeyUnsubscribe 1 then Some (handle_response SGeneric)
  else if at_ KeyDeclarePublisher 1 then Some (handle_response SGeneric)
  else if at_ KeyDeletePublisher 1 then Some (handle_response SGeneric)
  else if at_ KeyCreate 1 then Some (handle_response SGeneric)
  else if at_ KeyDelete 1 then Some (handle_response SGeneric)
  else if at_ KeyOpen 1 then Some (handle_response SOpen)
  else if at_ KeyMetadata 1 then Some (handle_response SMetadata)
  else if at_ KeySaslHandshake 1 then Some (handle_response SSaslHandshake)
  else if at_ KeySaslAuthenticate 1 then Some (handle_response SSaslAuthenticate)
  else if at_ KeyPeerProperties 1 then Some (handle_response SPeerProperties)
  else if at_ KeyQueryOffset 1 then Some (handle_response SQueryOffset)
  else if at_ KeyQueryPublisherSequence 1 then Some (handle_response SQueryPublisherSequence)
  else if at_ KeyExchangeCommandVersions 1 then Some (handle_response SExchangeVersions)
  else if at_ KeyClose 1 then Some handle_close
  else if at_ KeyPublishConfirm 1 then Some client_publish_confirm
  else if at_ KeyDeliver 1 then Some (handle_deliver 1)
  else if at_ KeyDeliver 2 then Some (handle_deliver 2)
  else if at_ KeyPublishError 1 then Some client_publish_error
  else if at_ KeyMetadataUpdate 1 then Some client_metadata_update
  else if at_ KeyTune 1 then Some handle_tune
  else if at_ KeyCredit 1 then Some handle_credit
  else if at_ KeyHeartbeat 1 then Some handle_heartbeat
  else None.

(** [{:#04x}]: at least two digits. *)
Definition format_hex04 (n : Z) : string :=
  String.append (if n <? 16 then "0x0" else "0x") (hex_digits 4 n "").

Definition unsupported_message (key version : Z) : string :=
  String.append "Unsupported command " (String.append (format_hex04 key)
    (String.append " at version " (pretty version))).

Definition read_frame_header : BM (Z * Z) :=
  key ← read_ushort; version ← read_ushort; mret (key, version).

(** The [try] block of the loop for a frame that was read: [Some] a reason to
    leave the loop. *)
Definition handle_frame_body (b : BinaryBuffer) : CM (option ShutdownReason) :=
  match read_frame_header b with
  | (Throw e, _) => st_throw e
  | (Val (key, version), b) =>
      let is_response := negb (Z.land key 0x8000 =? 0) in
      let key := Z.land key 0x7FFF in
      c ← st_get;
      if negb (bool_decide (c_status c = CStopping)) then
        match FRAME_HANDLERS key version with
        | Some handler => handler b ;; mret None
        | None => st_throw (StreamException (unsupported_message key version))
        end
      else if is_response && (key =? key_value KeyClose) then
        handle_response SGeneric b ;; mret (Some ClientInitiated)
      else mret None
  end.

(** One turn of the loop.  [incoming] is what the future of [read] yields.
    A thrown value is an exception that no [catch] clause of the loop names. *)
Definition handle_frame (incoming : outcome exn BinaryBuffer) : CM (option ShutdownReason) :=
  st_catch
    (match incoming with Val b => handle_frame_body b | Throw e => st_throw e end)
    (fun e => match e with
              | ServerCloseException _ => mret (Some ServerInitiated)
              | IOException _ => mret (Some Unknown)
              | _ => if is_StreamException e then mret None else st_throw e
              end).

(** What follows the loop. *)
Definition frames_ended (reason : ShutdownReason) : CM unit :=
  ok ← client_compare_exchange CStarted CStopping;
  if ok : bool then client_shutdown (Some reason) else mret tt.

(** The loop, on the frames that arrive in turn. *)
Fixpoint handle_frames (incoming : list (outcome exn BinaryBuffer)) : CM (option ShutdownReason) :=
  match incoming with
  | [] => mret None
  | f :: incoming =>
      r ← handle_frame f;
      match r with
      | Some reason => frames_ended reason ;; mret (Some reason)
      | None => handle_frames incoming
      end
  end.

End client.
