(* ===== verification/ClientParameters.v ===== *)
(** * The parameters of a client

    Models [include/hareflow/client_parameters.h] and [src/client_parameters.cpp],
    and what the constructor of [ClientImpl] takes from them.  Durations are
    counts of their unit, here seconds.  A listener is a [std::function]: empty,
    or bound to a function of the object that creates the client. *)

From S2P Require Import Prelude Words OrdMap Types BinaryBuffer ClientCommands ServerCommands ClientFrames ServerFrames Messages Client Fluent.

(** The targets that the library binds, of the [self]-th producer or consumer,
    and those of a user. *)
Inductive Callback :=
| LocatorShutdown
| ProducerPublishConfirm (self : nat)
| ProducerPublishError (self : nat)
| ProducerMetadataUpdate (self : nat)
| ProducerShutdown (self : nat)
| ConsumerMessage (self : nat)
| ConsumerMetadataUpdate (self : nat)
| ConsumerShutdown (self : nat)
| ConsumerChunkCredit (self : nat)
| UserCallback (n : nat).

#[export] Instance Callback_eq_dec : EqDecision Callback.
Proof. solve_decision. Defined.

Section parameters.
Context {C : Type}.

(** [m_codec] is a pointer, [None] when it is null. *)
Record ClientParameters := MkClientParameters {
  cp_host : string;
  cp_port : Z;
  cp_use_ssl : bool;
  cp_verify_host : bool;
  cp_user : string;
  cp_password : string;
  cp_virtual_host : string;
  cp_requested_heartbeat : Z;
  cp_requested_max_frame_size : Z;
  cp_rpc_timeout : Z;
  cp_codec : option C;
  cp_client_properties : Properties;
  cp_chunk_listener : option Callback;
  cp_message_listener : option Callback;
  cp_publish_confirm_listener : option Callback;
  cp_publish_error_listener : option Callback;
  cp_metadata_listener : option Callback;
  cp_credit_error_listener : option Callback;
  cp_shutdown_listener : option Callback
}.

(** The initializers of the members; [qpid] is a new [QpidProtonCodec]. *)
Definition default_ClientParameters (qpid : C) : ClientParameters :=
  MkClientParameters "localhost" 0 false true "guest" "guest" "/" 60 (1024 * 1024) 10 (Some qpid) [] None None None None None None None.

Implicit Types p : ClientParameters.

(** ** Getters *)

Definition get_host p : string := cp_host p.
Definition get_port p : Z := cp_port p.
Definition get_use_ssl p : bool := cp_use_ssl p.
Definition get_verify_host p : bool := cp_verify_host p.
Definition get_user p : string := cp_user p.
Definition get_password p : string := cp_password p.
Definition get_virtual_host p : string := cp_virtual_host p.
Definition get_requested_heartbeat p : Z := cp_requested_heartbeat p.
Definition get_requested_max_frame_size p : Z := cp_requested_max_frame_size p.
Definition get_rpc_timeout p : Z := cp_rpc_timeout p.
Definition get_codec p : option C := cp_codec p.
Definition get_client_properties p : Properties := cp_client_properties p.
Definition get_chunk_listener p : option Callback := cp_chunk_listener p.
Definition get_message_listener p : option Callback := cp_message_listener p.
Definition get_publish_confirm_listener p : option Callback := cp_publish_confirm_listener p.
Definition get_publish_error_listener p : option Callback := cp_publish_error_listener p.
Definition get_metadata_listener p : option Callback := cp_metadata_listener p.
Definition get_credit_error_listener p : option Callback := cp_credit_error_listener p.
Definition get_shutdown_listener p : option Callback := cp_shutdown_listener p.

(** ** Setters *)

Definition with_host (host : string) p : ClientParameters :=
  MkClientParameters host (cp_port p) (cp_use_ssl p) (cp_verify_host p) (cp_user p) (cp_password p)
    (cp_virtual_host p) (cp_requested_heartbeat p) (cp_requested_max_frame_size p) (cp_rpc_timeout
    p) (cp_codec p) (cp_client_properties p) (cp_chunk_listener p) (cp_message_listener p)
    (cp_publish_confirm_listener p) (cp_publish_error_listener p) (cp_metadata_listener p)
    (cp_credit_error_listener p) (cp_shutdown_listener p).
Definition with_port (port : Z) p : ClientParameters :=
  MkClientParameters (cp_host p) port (cp_use_ssl p) (cp_verify_host p) (cp_user p) (cp_password p)
    (cp_virtual_host p) (cp_requested_heartbeat p) (cp_requested_max_frame_size p) (cp_rpc_timeout
    p) (cp_codec p) (cp_client_properties p) (cp_chunk_listener p) (cp_message_listener p)
    (cp_publish_confirm_listener p) (cp_publish_error_listener p) (cp_metadata_listener p)
    (cp_credit_error_listener p) (cp_shutdown_listener p).
Definition with_use_ssl (use_ssl : bool) p : ClientParameters :=
  MkClientParameters (cp_host p) (cp_port p) use_ssl (cp_verify_host p) (cp_user p) (cp_password p)
    (cp_virtual_host p) (cp_requested_heartbeat p) (cp_requested_max_frame_size p) (cp_rpc_timeout
    p) (cp_codec p) (cp_client_properties p) (cp_chunk_listener p) (cp_message_listener p)
    (cp_publish_confirm_listener p) (cp_publish_error_listener p) (cp_metadata_listener p)
    (cp_credit_error_listener p) (cp_shutdown_listener p).
Definition with_verify_host (verify_host : bool) p : ClientParameters :=
  MkClientParameters (cp_host p) (cp_port p) (cp_use_ssl p) verify_host (cp_user p) (cp_password p)
    (cp_virtual_host p) (cp_requested_heartbeat p) (cp_requested_max_frame_size p) (cp_rpc_timeout
    p) (cp_codec p) (cp_client_properties p) (cp_chunk_listener p) (cp_message_listener p)
    (cp_publish_confirm_listener p) (cp_publish_error_listener p) (cp_metadata_listener p)
    (cp_credit_error_listener p) (cp_shutdown_listener p).
Definition with_user (user : string) p : ClientParameters :=
  MkClientParameters (cp_host p) (cp_port p) (cp_use_ssl p) (cp_verify_host p) user (cp_password p)
    (cp_virtual_host p) (cp_requested_heartbeat p) (cp_requested_max_frame_size p) (cp_rpc_timeout
    p) (cp_codec p) (cp_client_properties p) (cp_chunk_listener p) (cp_message_listener p)
    (cp_publish_confirm_listener p) (cp_publish_error_listener p) (cp_metadata_listener p)
    (cp_credit_error_listener p) (cp_shutdown_listener p).
Definition with_password (password : string) p : ClientParameters :=
  MkClientParameters (cp_host p) (cp_port p) (cp_use_ssl p) (cp_verify_host p) (cp_user p) password
    (cp_virtual_host p) (cp_requested_heartbeat p) (cp_requested_max_frame_size p) (cp_rpc_timeout
    p) (cp_codec p) (cp_client_properties p) (cp_chunk_listener p) (cp_message_listener p)
    (cp_publish_confirm_listener p) (cp_publish_error_listener p) (cp_metadata_listener p)
    (cp_credit_error_listener p) (cp_shutdown_listener p).
Definition with_virtual_host (virtual_host : string) p : ClientParameters :=
  MkClientParameters (cp_host p) (cp_port p) (cp_use_ssl p) (cp_verify_host p) (cp_user p)
    (cp_password p) virtual_host (cp_requested_heartbeat p) (cp_requested_max_frame_size p)
    (cp_rpc_timeout p) (cp_codec p) (cp_client_properties p) (cp_chunk_listener p)
    (cp_message_listener p) (cp_publish_confirm_listener p) (cp_publish_error_listener p)
    (cp_metadata_listener p) (cp_credit_error_listener p) (cp_shutdown_listener p).
Definition with_requested_heartbeat (requested_heartbeat : Z) p : ClientParameters :=
  MkClientParameters (cp_host p) (cp_port p) (cp_use_ssl p) (cp_verify_host p) (cp_user p)
    (cp_password p) (cp_virtual_host p) requested_heartbeat (cp_requested_max_frame_size p)
    (cp_rpc_timeout p) (cp_codec p) (cp_client_properties p) (cp_chunk_listener p)
    (cp_message_listener p) (cp_publish_confirm_listener p) (cp_publish_error_listener p)
    (cp_metadata_listener p) (cp_credit_error_listener p) (cp_shutdown_listener p).
Definition with_requested_max_frame_size (requested_max_frame_size : Z) p : ClientParameters :=
  MkClientParameters (cp_host p) (cp_port p) (cp_use_ssl p) (cp_verify_host p) (cp_user p)
    (cp_password p) (cp_virtual_host p) (cp_requested_heartbeat p) requested_max_frame_size
    (cp_rpc_timeout p) (cp_codec p) (cp_client_properties p) (cp_chunk_listener p)
    (cp_message_listener p) (cp_publish_confirm_listener p) (cp_publish_error_listener p)
    (cp_metadata_listener p) (cp_credit_error_listener p) (cp_shutdown_listener p).
Definition with_rpc_timeout (rpc_timeout : Z) p : ClientParameters :=
  MkClientParameters (cp_host p) (cp_port p) (cp_use_ssl p) (cp_verify_host p) (cp_user p)
    (cp_password p) (cp_virtual_host p) (cp_requested_heartbeat p) (cp_requested_max_frame_size p)
    rpc_timeout (cp_codec p) (cp_client_properties p) (cp_chunk_listener p) (cp_message_listener p)
    (cp_publish_confirm_listener p) (cp_publish_error_listener p) (cp_metadata_listener p)
    (cp_credit_error_listener p) (cp_shutdown_listener p).
Definition with_codec (codec : option C) p : ClientParameters :=
  MkClientParameters (cp_host p) (cp_port p) (cp_use_ssl p) (cp_verify_host p) (cp_user p)
    (cp_password p) (cp_virtual_host p) (cp_requested_heartbeat p) (cp_requested_max_frame_size p)
    (cp_rpc_timeout p) codec (cp_client_properties p) (cp_chunk_listener p) (cp_message_listener p)
    (cp_publish_confirm_listener p) (cp_publish_error_listener p) (cp_metadata_listener p)
    (cp_credit_error_listener p) (cp_shutdown_listener p).
Definition with_client_properties (client_properties : Properties) p : ClientParameters :=
  MkClientParameters (cp_host p) (cp_port p) (cp_use_ssl p) (cp_verify_host p) (cp_user p)
    (cp_password p) (cp_virtual_host p) (cp_requested_heartbeat p) (cp_requested_max_frame_size p)
    (cp_rpc_timeout p) (cp_codec p) client_properties (cp_chunk_listener p) (cp_message_listener p)
    (cp_publish_confirm_listener p) (cp_publish_error_listener p) (cp_metadata_listener p)
    (cp_credit_error_listener p) (cp_shutdown_listener p).
Definition with_chunk_listener (chunk_listener : option Callback) p : ClientParameters :=
  MkClientParameters (cp_host p) (cp_port p) (cp_use_ssl p) (cp_verify_host p) (cp_user p)
    (cp_password p) (cp_virtual_host p) (cp_requested_heartbeat p) (cp_requested_max_frame_size p)
    (cp_rpc_timeout p) (cp_codec p) (cp_client_properties p) chunk_listener (cp_message_listener p)
    (cp_publish_confirm_listener p) (cp_publish_error_listener p) (cp_metadata_listener p)
    (cp_credit_error_listener p) (cp_shutdown_listener p).
Definition with_message_listener (message_listener : option Callback) p : ClientParameters :=
  MkClientParameters (cp_host p) (cp_port p) (cp_use_ssl p) (cp_verify_host p) (cp_user p)
    (cp_password p) (cp_virtual_host p) (cp_requested_heartbeat p) (cp_requested_max_frame_size p)
    (cp_rpc_timeout p) (cp_codec p) (cp_client_properties p) (cp_chunk_listener p) message_listener
    (cp_publish_confirm_listener p) (cp_publish_error_listener p) (cp_metadata_listener p)
    (cp_credit_error_listener p) (cp_shutdown_listener p).
Definition with_publish_confirm_listener (publish_confirm_listener : option Callback) p : ClientParameters :=
  MkClientParameters (cp_host p) (cp_port p) (cp_use_ssl p) (cp_verify_host p) (cp_user p)
    (cp_password p) (cp_virtual_host p) (cp_requested_heartbeat p) (cp_requested_max_frame_size p)
    (cp_rpc_timeout p) (cp_codec p) (cp_client_properties p) (cp_chunk_listener p)
    (cp_message_listener p) publish_confirm_listener (cp_publish_error_listener p)
    (cp_metadata_listener p) (cp_credit_error_listener p) (cp_shutdown_listener p).
Definition with_publish_error_listener (publish_error_listener : option Callback) p : ClientParameters :=
  MkClientParameters (cp_host p) (cp_port p) (cp_use_ssl p) (cp_verify_host p) (cp_user p)
    (cp_password p) (cp_virtual_host p) (cp_requested_heartbeat p) (cp_requested_max_frame_size p)
    (cp_rpc_timeout p) (cp_codec p) (cp_client_properties p) (cp_chunk_listener p)
    (cp_message_listener p) (cp_publish_confirm_listener p) publish_error_listener
    (cp_metadata_listener p) (cp_credit_error_listener p) (cp_shutdown_listener p).
Definition with_metadata_listener (metadata_listener : option Callback) p : ClientParameters :=
  MkClientParameters (cp_host p) (cp_port p) (cp_use_ssl p) (cp_verify_host p) (cp_user p)
    (cp_password p) (cp_virtual_host p) (cp_requested_heartbeat p) (cp_requested_max_frame_size p)
    (cp_rpc_timeout p) (cp_codec p) (cp_client_properties p) (cp_chunk_listener p)
    (cp_message_listener p) (cp_publish_confirm_listener p) (cp_publish_error_listener p)
    metadata_listener (cp_credit_error_listener p) (cp_shutdown_listener p).
Definition with_credit_error_listener (credit_error_listener : option Callback) p : ClientParameters :=
  MkClientParameters (cp_host p) (cp_port p) (cp_use_ssl p) (cp_verify_host p) (cp_user p)
    (cp_password p) (cp_virtual_host p) (cp_requested_heartbeat p) (cp_requested_max_frame_size p)
    (cp_rpc_timeout p) (cp_codec p) (cp_client_properties p) (cp_chunk_listener p)
    (cp_message_listener p) (cp_publish_confirm_listener p) (cp_publish_error_listener p)
    (cp_metadata_listener p) credit_error_listener (cp_shutdown_listener p).
Definition with_shutdown_listener (shutdown_listener : option Callback) p : ClientParameters :=
  MkClientParameters (cp_host p) (cp_port p) (cp_use_ssl p) (cp_verify_host p) (cp_user p)
    (cp_password p) (cp_virtual_host p) (cp_requested_heartbeat p) (cp_requested_max_frame_size p)
    (cp_rpc_timeout p) (cp_codec p) (cp_client_properties p) (cp_chunk_listener p)
    (cp_message_listener p) (cp_publish_confirm_listener p) (cp_publish_error_listener p)
    (cp_metadata_listener p) (cp_credit_error_listener p) shutdown_listener.

(** ** Calls *)

Inductive parameters_call :=
| WithHost (host : string)
| WithPort (port : Z)
| WithUseSsl (use_ssl : bool)
| WithVerifyHost (verify_host : bool)
| WithUser (user : string)
| WithPassword (password : string)
| WithVirtualHost (virtual_host : string)
| WithRequestedHeartbeat (requested_heartbeat : Z)
| WithRequestedMaxFrameSize (requested_max_frame_size : Z)
| WithRpcTimeout (rpc_timeout : Z)
| WithCodec (codec : option C)
| WithClientProperties (client_properties : Properties)
| WithChunkListener (chunk_listener : option Callback)
| WithMessageListener (message_listener : option Callback)
| WithPublishConfirmListener (publish_confirm_listener : option Callback)
| WithPublishErrorListener (publish_error_listener : option Callback)
| WithMetadataListener (metadata_listener : option Callback)
| WithCreditErrorListener (credit_error_listener : option Callback)
| WithShutdownListener (shutdown_listener : option Callback).

Definition parameters_setter (c : parameters_call) : Setter ClientParameters :=
  match c with
  | WithHost x => total (with_host x)
  | WithPort x => total (with_port x)
  | WithUseSsl x => total (with_use_ssl x)
  | WithVerifyHost x => total (with_verify_host x)
  | WithUser x => total (with_user x)
  | WithPassword x => total (with_password x)
  | WithVirtualHost x => total (with_virtual_host x)
  | WithRequestedHeartbeat x => total (with_requested_heartbeat x)
  | WithRequestedMaxFrameSize x => total (with_requested_max_frame_size x)
  | WithRpcTimeout x => total (with_rpc_timeout x)
  | WithCodec x => total (with_codec x)
  | WithClientProperties x => total (with_client_properties x)
  | WithChunkListener x => total (with_chunk_listener x)
  | WithMessageListener x => total (with_message_listener x)
  | WithPublishConfirmListener x => total (with_publish_confirm_listener x)
  | WithPublishErrorListener x => total (with_publish_error_listener x)
  | WithMetadataListener x => total (with_metadata_listener x)
  | WithCreditErrorListener x => total (with_credit_error_listener x)
  | WithShutdownListener x => total (with_shutdown_listener x)
  end.

(** The overloads for rvalues. *)

Definition with_host_rvalue (host : string) : ST (Object ClientParameters) exn ClientParameters :=
  rvalue_call (total (with_host host)).
Definition with_port_rvalue (port : Z) : ST (Object ClientParameters) exn ClientParameters :=
  rvalue_call (total (with_port port)).
Definition with_use_ssl_rvalue (use_ssl : bool) : ST (Object ClientParameters) exn ClientParameters :=
  rvalue_call (total (with_use_ssl use_ssl)).
Definition with_verify_host_rvalue (verify_host : bool) : ST (Object ClientParameters) exn ClientParameters :=
  rvalue_call (total (with_verify_host verify_host)).
Definition with_user_rvalue (user : string) : ST (Object ClientParameters) exn ClientParameters :=
  rvalue_call (total (with_user user)).
Definition with_password_rvalue (password : string) : ST (Object ClientParameters) exn ClientParameters :=
  rvalue_call (total (with_password password)).
Definition with_virtual_host_rvalue (virtual_host : string) : ST (Object ClientParameters) exn ClientParameters :=
  rvalue_call (total (with_virtual_host virtual_host)).
Definition with_requested_heartbeat_rvalue (requested_heartbeat : Z) : ST (Object ClientParameters) exn ClientParameters :=
  rvalue_call (total (with_requested_heartbeat requested_heartbeat)).
Definition with_requested_max_frame_size_rvalue (requested_max_frame_size : Z) : ST (Object ClientParameters) exn ClientParameters :=
  rvalue_call (total (with_requested_max_frame_size requested_max_frame_size)).
Definition with_rpc_timeout_rvalue (rpc_timeout : Z) : ST (Object ClientParameters) exn ClientParameters :=
  rvalue_call (total (with_rpc_timeout rpc_timeout)).
Definition with_codec_rvalue (codec : option C) : ST (Object ClientParameters) exn ClientParameters :=
  rvalue_call (total (with_codec codec)).
Definition with_client_properties_rvalue (client_properties : Properties) : ST (Object ClientParameters) exn ClientParameters :=
  rvalue_call (total (with_client_properties client_properties)).
Definition with_chunk_listener_rvalue (chunk_listener : option Callback) : ST (Object ClientParameters) exn ClientParameters :=
  rvalue_call (total (with_chunk_listener chunk_listener)).
Definition with_message_listener_rvalue (message_listener : option Callback) : ST (Object ClientParameters) exn ClientParameters :=
  rvalue_call (total (with_message_listener message_listener)).
Definition with_publish_confirm_listener_rvalue (publish_confirm_listener : option Callback) : ST (Object ClientParameters) exn ClientParameters :=
  rvalue_call (total (with_publish_confirm_listener publish_confirm_listener)).
Definition with_publish_error_listener_rvalue (publish_error_listener : option Callback) : ST (Object ClientParameters) exn ClientParameters :=
  rvalue_call (total (with_publish_error_listener publish_error_listener)).
Definition with_metadata_listener_rvalue (metadata_listener : option Callback) : ST (Object ClientParameters) exn ClientParameters :=
  rvalue_call (total (with_metadata_listener metadata_listener)).
Definition with_credit_error_listener_rvalue (credit_error_listener : option Callback) : ST (Object ClientParameters) exn ClientParameters :=
  rvalue_call (total (with_credit_error_listener credit_error_listener)).
Definition with_shutdown_listener_rvalue (shutdown_listener : option Callback) : ST (Object ClientParameters) exn ClientParameters :=
  rvalue_call (total (with_shutdown_listener shutdown_listener)).

Definition parameters_setter_rvalue (c : parameters_call) : ST (Object ClientParameters) exn ClientParameters :=
  match c with
  | WithHost x => with_host_rvalue x
  | WithPort x => with_port_rvalue x
  | WithUseSsl x => with_use_ssl_rvalue x
  | WithVerifyHost x => with_verify_host_rvalue x
  | WithUser x => with_user_rvalue x
  | WithPassword x => with_password_rvalue x
  | WithVirtualHost x => with_virtual_host_rvalue x
  | WithRequestedHeartbeat x => with_requested_heartbeat_rvalue x
  | WithRequestedMaxFrameSize x => with_requested_max_frame_size_rvalue x
  | WithRpcTimeout x => with_rpc_timeout_rvalue x
  | WithCodec x => with_codec_rvalue x
  | WithClientProperties x => with_client_properties_rvalue x
  | WithChunkListener x => with_chunk_listener_rvalue x
  | WithMessageListener x => with_message_listener_rvalue x
  | WithPublishConfirmListener x => with_publish_confirm_listener_rvalue x
  | WithPublishErrorListener x => with_publish_error_listener_rvalue x
  | WithMetadataListener x => with_metadata_listener_rvalue x
  | WithCreditErrorListener x => with_credit_error_listener_rvalue x
  | WithShutdownListener x => with_shutdown_listener_rvalue x
  end.

#[export, refine] Instance ClientParameters_Fluent : Fluent ClientParameters parameters_call := {|
  setter := parameters_setter;
  setter_rvalue := parameters_setter_rvalue
|}.
Proof. now intros [] o. Defined.

(** ** What [ClientImpl] makes of its parameters *)

Definition is_set (l : option Callback) : bool := bool_decide (l <> None).

(** The members that the constructor initializes from the parameters. *)
Definition client_config p : ClientConfig :=
  MkClientConfig (get_user p) (get_password p) (get_virtual_host p) (get_requested_heartbeat p)
    (get_requested_max_frame_size p) (get_client_properties p)
    (is_set (get_chunk_listener p)) (is_set (get_message_listener p))
    (is_set (get_publish_confirm_listener p)) (is_set (get_publish_error_listener p))
    (is_set (get_metadata_listener p)) (is_set (get_credit_error_listener p))
    (is_set (get_shutdown_listener p)).

(** The arguments of [Connection::create]: host, port, TLS, verification. *)
Definition connection_arguments p : string * Z * bool * bool :=
  (get_host p, compute_effective_port (get_port p) (get_use_ssl p), get_use_ssl p, get_verify_host p).

End parameters.
Arguments ClientParameters : clear implicits.
Arguments parameters_call : clear implicits.
