(* ===== verification/ClientCreate.v ===== *)
(** * Creating a client

    Models [Client::create], [ClientImpl::create] and the constructor of
    [src/client_impl.cpp] as it is written: it takes the parameters by value and
    moves most members out of them, through the getters of
    [src/client_parameters.cpp] that return references. *)

From S2P Require Import Prelude Words OrdMap Types BinaryBuffer ClientCommands ServerCommands ClientFrames ServerFrames Messages Client Connection ConnectionStreams ConnectionSetup ClientParameters.

(** ** The getters that return references *)

Section references.
Context {C : Type}.

Definition host_ref : reference (ClientParameters C) string := MkReference get_host with_host.
Definition user_ref : reference (ClientParameters C) string := MkReference get_user with_user.
Definition password_ref : reference (ClientParameters C) string := MkReference get_password with_password.
Definition virtual_host_ref : reference (ClientParameters C) string := MkReference get_virtual_host with_virtual_host.
Definition client_properties_ref : reference (ClientParameters C) Properties :=
  MkReference get_client_properties with_client_properties.
Definition chunk_listener_ref : reference (ClientParameters C) (option Callback) :=
  MkReference get_chunk_listener with_chunk_listener.
Definition message_listener_ref : reference (ClientParameters C) (option Callback) :=
  MkReference get_message_listener with_message_listener.
Definition publish_confirm_listener_ref : reference (ClientParameters C) (option Callback) :=
  MkReference get_publish_confirm_listener with_publish_confirm_listener.
Definition publish_error_listener_ref : reference (ClientParameters C) (option Callback) :=
  MkReference get_publish_error_listener with_publish_error_listener.
Definition metadata_listener_ref : reference (ClientParameters C) (option Callback) :=
  MkReference get_metadata_listener with_metadata_listener.
Definition credit_error_listener_ref : reference (ClientParameters C) (option Callback) :=
  MkReference get_credit_error_listener with_credit_error_listener.
Definition shutdown_listener_ref : reference (ClientParameters C) (option Callback) :=
  MkReference get_shutdown_listener with_shutdown_listener.

(** ** The constructor *)

(** The members that do not change, the client's state, and its connection. *)
Record CreatedClient := MkCreatedClient {
  cr_config : ClientConfig;
  cr_rpc_timeout : Z;
  cr_codec : option C;
  cr_listeners : list (option Callback);
  cr_client : Client;
  cr_connection : ConnectionSetup
}.

(** [moved] is what moving from a member leaves in it. *)
Context (moved : forall A : Type, A -> A).

Definition construct_client : ST (ClientParameters C) exn CreatedClient :=
  user ← move_out (moved _) user_ref;
  password ← move_out (moved _) password_ref;
  virtual_host ← move_out (moved _) virtual_host_ref;
  rpc_timeout ← st_gets get_rpc_timeout;
  heartbeat ← st_gets get_requested_heartbeat;
  max_frame_size ← st_gets get_requested_max_frame_size;
  codec ← st_gets get_codec;
  chunk ← move_out (moved _) chunk_listener_ref;
  message ← move_out (moved _) message_listener_ref;
  confirm ← move_out (moved _) publish_confirm_listener_ref;
  error ← move_out (moved _) publish_error_listener_ref;
  metadata ← move_out (moved _) metadata_listener_ref;
  credit_error ← move_out (moved _) credit_error_listener_ref;
  shutdown ← move_out (moved _) shutdown_listener_ref;
  properties ← move_out (moved _) client_properties_ref;
  host ← move_out (moved _) host_ref;
  port ← st_gets get_port;
  use_ssl ← st_gets get_use_ssl;
  verify_host ← st_gets get_verify_host;
  let config := MkClientConfig user password virtual_host heartbeat max_frame_size properties (is_set chunk)
                  (is_set message) (is_set confirm) (is_set error) (is_set metadata) (is_set credit_error) (is_set shutdown) in
  mret (MkCreatedClient config rpc_timeout codec [chunk; message; confirm; error; metadata; credit_error; shutdown]
          (new_Client config) (create_connection host (compute_effective_port port use_ssl) use_ssl verify_host)).

(** [ClientImpl::create]; [Client::create] calls it. *)
Definition create_client (parameters : ClientParameters C) : outcome exn CreatedClient := (construct_client parameters).1.

(** The same, read off the parameters. *)
Definition client_of_parameters (p : ClientParameters C) : CreatedClient :=
  let '(host, port, use_ssl, verify_host) := connection_arguments p in
  MkCreatedClient (client_config p) (get_rpc_timeout p) (get_codec p)
    [get_chunk_listener p; get_message_listener p; get_publish_confirm_listener p; get_publish_error_listener p;
     get_metadata_listener p; get_credit_error_listener p; get_shutdown_listener p]
    (new_Client (client_config p)) (create_connection host port use_ssl verify_host).

End references.

(** Whatever moving leaves behind, creating a client yields what the
    parameters say: no member is read after it was moved from, every listener
    ends up in its own member, and the connection gets the host with the port
    and the TLS settings that go with it. *)
Theorem create_client_equivalent {C} (moved : forall A : Type, A -> A) (p : ClientParameters C) :
  create_client moved p = Val (client_of_parameters p).
Proof. by destruct p. Qed.
