(* ===== verification/ClientSending.v ===== *)
(** * What the client sends

    Theorems on the sending half of [Client]: the bytes of a frame on the wire,
    the splitting of a publication into frames, the negotiation of versions and
    limits, and the result of a metadata request. *)

From S2P Require Import Prelude Words OrdMap Types BinaryBuffer ClientCommands ServerCommands ClientFrames ServerFrames Messages Client.

(** ** One frame *)

(** The frame fits the negotiated maximum; the length prefix counts. *)
Definition fits (max_frame_size : Z) (size : Z) : Prop := 0 < max_frame_size -> size + 4 <= max_frame_size.

Definition wire (f : ClientFrame) : list byte := be_encode 4 (serialized_size f) ++ frame_bytes f.

Lemma serialized_size_nonneg f : 0 <= serialized_size (f : ClientFrame).
Proof. rewrite <- lenZ_frame_bytes. apply lenZ_nonneg. Qed.

Lemma frame_buffer_writes f :
  frame_valid f -> serialized_size f + 4 <= UINT32_MAX ->
  frame_buffer f empty_buffer = (Val tt, append (wire f) empty_buffer).
Proof.
  intros Hv Hs. pose proof (serialized_size_nonneg f). unfold frame_buffer, buffer_reserve.
  rewrite (proj2 (Z.ltb_ge _ _)) by lia. erewrite ST_bind_Val by reflexivity.
  rewrite wrap_small by (unfold_words; lia).
  apply (writes_seq (write_uint (serialized_size f)) (serialize f));
    [apply writes_uint | now apply writes_frame | apply empty_at_end|].
  autorewrite with len. rewrite lenZ_frame_bytes. change (buffer_size empty_buffer) with 0. lia.
Qed.

(** A valid frame is either rejected, without effect, because with its
    length prefix it exceeds the negotiated maximum, or handed to the connection
    as one buffer: four bytes with the size of the rest, then the frame. *)
Theorem send_frame_wire f c :
  frame_valid f -> serialized_size f + 4 <= UINT32_MAX ->
  send_frame f c =
    if (0 <? c_max_frame_size c) && (c_max_frame_size c <? serialized_size f + 4)
    then (Throw (InvalidInputException (client_frame_size_message (c_max_frame_size c))), c)
    else (Val (c_io c), with_events (c_events c ++ [CEvWrite (wire f)]) c).
Proof.
  intros Hv Hs. unfold send_frame. unfold mbind at 1, ST_bind at 1. cbn [st_get].
  destruct (_ && _); [done|]. now rewrite frame_buffer_writes.
Qed.

Definition example_client_config : ClientConfig :=
  MkClientConfig "guest" "guest" "/" 60 1048576 [] true true true true true true true.

Lemma send_frame_wire_witness :
  send_frame subscribe_example (new_Client example_client_config) =
    (Val (Val tt), with_events [CEvWrite (wire subscribe_example)] (new_Client example_client_config)).
Proof.
  apply (send_frame_wire subscribe_example (new_Client example_client_config));
    [apply subscribe_example_valid | vm_compute; congruence].
Defined.

(** ** A publication *)

Definition publish_size (batch : list PublishMessage) : Z := serialized_size (MkPublishCommand 0 batch).

Lemma publish_size_id id batch : serialized_size (MkPublishCommand id batch) = publish_size batch.
Proof. reflexivity. Qed.

Lemma publish_size_snoc batch m :
  publish_size (batch ++ [m]) = publish_size batch + PublishMessage_serialized_size m.
Proof.
  unfold publish_size. simpl. unfold PublishCommand_body_size. simpl.
  rewrite serialized_size_array_app, serialized_size_array_cons, serialized_size_array_nil. lia.
Qed.

Lemma publish_size_nil : publish_size [] = BASE_SERIALIZED_SIZE.
Proof. reflexivity. Qed.

Definition send_publish (id : Z) (batch : list PublishMessage) : CM unit :=
  _ ← send_frame (MkPublishCommand id batch); mret tt.

Lemma send_publish_seq id batch (k : CM unit) c :
  (send_publish id batch ;; k) c =
  match send_frame (MkPublishCommand id batch) c with
  | (Val _, c') => k c'
  | (Throw e, c') => (Throw e, c')
  end.
Proof. unfold send_publish, mbind, ST_bind. now destruct (send_frame _ c) as [[]]. Qed.

Lemma send_frame_keeps_max {T} `{Serializable T} (f : T) c :
  c_max_frame_size (send_frame f c).2 = c_max_frame_size c.
Proof.
  unfold send_frame. unfold mbind at 1, ST_bind at 1. cbn [st_get]. destruct (_ && _); [done|].
  now destruct (frame_buffer f empty_buffer) as [[]].
Qed.

(** Each message would fit a frame of its own, by the measure of the loop. *)
Definition each_fits (max_frame_size : Z) (m : PublishMessage) : Prop :=
  0 < max_frame_size -> publish_size [m] <= max_frame_size.

Definition batch_fits (max_frame_size : Z) (batch : list PublishMessage) : Prop :=
  batch <> [] /\ (0 < max_frame_size -> publish_size batch <= max_frame_size).

Lemma publish_loop_batches id messages batch max :
  exists batches, concat batches = batch ++ messages /\
    (Forall (each_fits max) messages -> (batch = [] \/ batch_fits max batch) ->
       Forall (batch_fits max) batches) /\
    forall c, c_max_frame_size c = max ->
      publish_loop id messages batch (publish_size batch) c = st_iter (send_publish id) batches c.
Proof.
  revert batch. induction messages as [|m messages IH]; intros batch.
  - destruct (decide (batch = [])) as [->|Hne].
    + exists []. done.
    + exists [batch]. rewrite app_nil_r. simpl. rewrite app_nil_r. split; [done|]. split.
      * intros _ [|Hb]; [done|]. auto.
      * intros c _. simpl. rewrite bool_decide_false by done. unfold send_publish.
        unfold mbind, ST_bind. now destruct (send_frame _ c) as [[]].
  - destruct ((0 <? max) && (max <? publish_size batch + PublishMessage_serialized_size m)) eqn:E.
    + destruct (IH [m]) as (bs & Hc & Hf & Hr). exists (batch :: bs). split; [|split].
      * simpl. now rewrite Hc.
      * intros Hall Hb. apply Forall_cons in Hall as [Hm Hall]. bool_to_prop. constructor.
        -- destruct Hb as [->|Hb]; [|done]. specialize (Hm ltac:(lia)).
           rewrite <- publish_size_snoc in *. simpl in *. lia.
        -- apply Hf; [done|]. right. split; [done|]. apply Hm.
      * intros c Hmax. simpl. unfold mbind at 1, ST_bind at 1. cbn [st_get]. rewrite Hmax, E.
        pose proof (send_frame_keeps_max (MkPublishCommand id batch) c) as Hk.
        cbn [st_iter]. rewrite send_publish_seq. unfold mbind, ST_bind.
        destruct (send_frame _ c) as [[r|e] c1]; [|done].
        simpl in *. rewrite <- (Hr c1) by congruence.
        rewrite (publish_size_snoc [] m : publish_size [m] = _). reflexivity.
    + destruct (IH (batch ++ [m])) as (bs & Hc & Hf & Hr). exists bs. split; [|split].
      * rewrite Hc, <- app_assoc. done.
      * intros Hall Hb. apply Forall_cons in Hall as [Hm Hall]. apply Hf; [done|]. right.
        split; [now destruct batch|]. intros Hpos. rewrite publish_size_snoc.
        apply andb_false_iff in E as [E|E]; bool_to_prop; lia.
      * intros c Hmax. simpl. unfold mbind at 1, ST_bind at 1. cbn [st_get]. rewrite Hmax, E.
        rewrite <- publish_size_snoc. now apply Hr.
Qed.


Definition example_bytes (n : nat) : PublishMessage := MkPublishMessage (Z.of_nat n) (replicate n x61).

Definition small_client (max : Z) : Client := with_max_frame_size max (new_Client example_client_config).

(** The measure of [publish_encoded] leaves out the length prefix that
    [send_frame] counts, and the first message is not looked at apart: two
    messages that the client sends without complaint one by one are
    refused, with nothing sent, when they are published together and their frame
    is within four bytes of the maximum; and a first message too large for any
    frame makes the client send an empty [Publish] frame before it throws. *)
Theorem publish_encoded_refused :
  let c := small_client 57 in
  let ms := [example_bytes 12; example_bytes 12] in
  let refused := Throw (InvalidInputException (client_frame_size_message 57)) in
  (forall m, m ∈ ms -> is_val (publish_encoded 0 [m] c).1 = true) /\
  publish_encoded 0 ms c = (refused, c) /\
  publish_encoded 0 [example_bytes 64] c =
    (refused, with_events [CEvWrite (wire (FPublish (MkPublishCommand 0 [])))] c).
Proof.
  split; [|vm_compute; done]. intros m Hm.
  apply elem_of_cons in Hm as [->|Hm]; [vm_compute; reflexivity|].
  apply elem_of_cons in Hm as [->|Hm]; [vm_compute; reflexivity | inversion Hm].
Qed.

(** ** Version of the broker *)

Definition digits_ok (ds : list byte) : Prop := ds <> [] /\ Forall (fun b => digit_value b <> None) ds.
Definition digits_value (ds : list byte) : Z :=
  fold_left (fun acc b => acc * 10 + default 0 (digit_value b)) ds 0.
Definition no_digit_ahead (l : list byte) : Prop :=
  match l with b :: _ => digit_value b = None | [] => True end.

Lemma scan_digits_app ds rest acc any :
  Forall (fun b => digit_value b <> None) ds -> no_digit_ahead rest ->
  scan_digits (ds ++ rest) acc any =
    (fold_left (fun acc b => acc * 10 + default 0 (digit_value b)) ds acc,
     any || negb (bool_decide (ds = [])), rest).
Proof.
  intros Hds Hrest. revert acc any. induction Hds as [|b ds Hb Hds IH]; intros acc any; simpl.
  - rewrite orb_false_r. destruct rest as [|b rest]; simpl in *; [done|]. now rewrite Hrest.
  - destruct (digit_value b) as [d|]; [|done]. rewrite IH. simpl. rewrite orb_true_r. reflexivity.
Qed.

Lemma from_chars_uint_app ds rest :
  digits_ok ds -> no_digit_ahead rest ->
  from_chars_uint (ds ++ rest) =
    if digits_value ds <=? UINT32_MAX then Some (digits_value ds, rest) else None.
Proof.
  intros [Hne Hds] Hrest. unfold from_chars_uint. rewrite scan_digits_app by done. simpl.
  now rewrite bool_decide_false.
Qed.

(** The version check reads the leading triple of the broker's version,
    whatever suffix follows, and compares it with 3.11.0 component by component
    as numbers. *)
Theorem supports_exchange_spec props s major minor patch suffix :
  om_find "version"%string props = Some s ->
  str_bytes s = major ++ x2e :: minor ++ x2e :: patch ++ suffix ->
  digits_ok major -> digits_ok minor -> digits_ok patch -> no_digit_ahead suffix ->
  digits_value major <= UINT32_MAX -> digits_value minor <= UINT32_MAX -> digits_value patch <= UINT32_MAX ->
  supports_command_versions_exchange props = true <->
    3 < digits_value major \/
    (digits_value major = 3 /\ (11 < digits_value minor \/
      (digits_value minor = 11 /\ 0 <= digits_value patch))).
Proof.
  intros Hf Hs Ha Hb Hc Hsuf La Lb Lc. unfold supports_command_versions_exchange. rewrite Hf.
  unfold parse_version. rewrite Hs. rewrite from_chars_uint_app by done.
  rewrite (proj2 (Z.leb_le _ _) La). simpl. rewrite from_chars_uint_app by done.
  rewrite (proj2 (Z.leb_le _ _) Lb). simpl. rewrite from_chars_uint_app by done.
  rewrite (proj2 (Z.leb_le _ _) Lc). simpl.
  rewrite !orb_true_iff, !andb_true_iff, !Z.ltb_lt, !Z.eqb_eq, orb_true_iff, andb_true_iff, Z.ltb_lt, Z.eqb_eq, Z.leb_le.
  tauto.
Qed.

Lemma supports_exchange_spec_witness :
  supports_command_versions_exchange [("version", "3.13.0-rc.1")]%string = true <->
    3 < 3 \/ (3 = 3 /\ (11 < 13 \/ (13 = 11 /\ 0 <= 0))).
Proof.
  apply (supports_exchange_spec [("version", "3.13.0-rc.1")]%string "3.13.0-rc.1"
           [x33] [x31; x33] [x30] [x2d; x72; x63; x2e; x31]);
    try reflexivity; try (vm_compute; congruence);
    (split; [discriminate | repeat constructor; vm_compute; congruence]).
Defined.

(** ** Metadata *)

Definition references (s : MetadataStream) : list Z := ms_leader s :: ms_replicas s.

Definition stream_named (name : string) (ss : list MetadataStream) : option MetadataStream :=
  head (filter (fun s => ms_stream_name s = name) ss).

Lemma brokers_at_None brokers rs :
  brokers_at brokers rs = None -> exists r, r ∈ rs /\ om_find r brokers = None.
Proof.
  induction rs as [|r rs IH]; simpl; [done|]. destruct (om_find r brokers) eqn:E; simpl.
  - destruct (brokers_at brokers rs); [done|]. intros _. destruct (IH eq_refl) as (r' & ? & ?).
    exists r'. split; [now right | done].
  - intros _. exists r. split; [left | done].
Qed.

Lemma stream_metadata_None brokers s :
  stream_metadata brokers s = None ->
  ms_code s = rc_value Ok /\ exists r, r ∈ references s /\ om_find r brokers = None.
Proof.
  unfold stream_metadata, references. destruct (Z.eqb_spec (ms_code s) (rc_value Ok)); [|done].
  destruct (om_find (ms_leader s) brokers) eqn:E; simpl.
  - destruct (brokers_at brokers (ms_replicas s)) eqn:Eb; [done|]. intros _. split; [done|].
    apply brokers_at_None in Eb as (r & ? & ?). exists r. split; [now right | done].
  - intros _. split; [done|]. exists (ms_leader s). split; [left | done].
Qed.

Lemma stream_metadata_name brokers s m :
  stream_metadata brokers s = Some m -> sm_stream_name m = ms_stream_name s.
Proof.
  unfold stream_metadata. destruct (_ =? _); [|by intros [= <-]].
  destruct (om_find _ _); simpl; [|done]. destruct (brokers_at _ _); simpl; [|done]. by intros [= <-].
Qed.

Lemma metadata_result_find brokers ss acc result name :
  om_sorted acc -> metadata_result brokers ss acc = Val result ->
  om_sorted result /\
  om_find name result =
    match om_find name acc with
    | Some m => Some m
    | None => s ← stream_named name ss; stream_metadata brokers s
    end.
Proof.
  revert acc. induction ss as [|s ss IH]; intros acc Hs E; simpl in E.
  - injection E as ->. split; [done|]. now destruct (om_find name result).
  - destruct (stream_metadata brokers s) as [m|] eqn:Em; [|done].
    pose proof (stream_metadata_name _ _ _ Em) as Hname. unfold metadata_emplace in E.
    destruct (IH (om_insert (sm_stream_name m) m acc)) as [Hsr Hf]; [now apply om_insert_sorted|done|].
    split; [done|]. rewrite Hf. unfold stream_named. rewrite filter_cons. destruct (decide (ms_stream_name s = name)) as [En|En].
    + rewrite <- En, <- Hname, om_find_insert_eq by done. simpl. rewrite Em.
      now destruct (om_find (sm_stream_name m) acc).
    + rewrite om_find_insert_ne by congruence. done.
Qed.

(** The result of a metadata request: if it succeeds, it maps each stream of
    the response to the entry built from its first occurrence, with the broker
    that each reference names, and has no other stream; it fails, with the
    exception that calls the response incoherent, only if a stream with code
    [Ok] refers to a broker that the response does not list. *)
Theorem metadata_result_spec brokers ss :
  match metadata_result brokers ss [] with
  | Val result => forall name,
      om_find name result = (s ← stream_named name ss; stream_metadata brokers s)
  | Throw e => e = METADATA_INCOHERENT /\
      exists s, s ∈ ss /\ ms_code s = rc_value Ok /\ exists r, r ∈ references s /\ om_find r brokers = None
  end.
Proof.
  destruct (metadata_result brokers ss []) as [result|e] eqn:E.
  - intros name. apply (metadata_result_find brokers ss [] result name); [constructor | done].
  - revert E. generalize (@nil (string * StreamMetadata)). induction ss as [|s ss IH]; intros acc E; simpl in E; [done|].
    destruct (stream_metadata brokers s) as [m|] eqn:Em.
    + apply IH in E as (-> & s' & Hin & Hr). split; [done|]. exists s'. split; [now right | done].
    + injection E as <-. split; [done|]. apply stream_metadata_None in Em as [Hok Hr].
      exists s. split; [left | done].
Qed.

(** ** Limits *)

(** The negotiated value of a limit, where 0 means none, is the smaller of
    the two when both sides set one, the one that is set when one side does,
    and none only when neither does. *)
Lemma negociate_value_spec client server :
  is_u32 client -> is_u32 server ->
  is_u32 (negociate_value client server) /\
  negociate_value client server = negociate_value server client /\
  (negociate_value client server = 0 <-> client = 0 /\ server = 0) /\
  (client <> 0 -> negociate_value client server <= client) /\
  (server <> 0 -> negociate_value client server <= server) /\
  (negociate_value client server = client \/ negociate_value client server = server).
Proof.
  unfold negociate_value, is_uint. intros Hc Hs.
  destruct (Z.eqb_spec client 0), (Z.eqb_spec server 0); simpl; repeat split; lia.
Qed.
