(* ===== verification/ClientReceiving.v ===== *)
(** * What the client does with the frames it receives

    Theorems on the receiving half of [Client]: no byte sequence makes the frame
    thread read out of bounds, notifications reach the listeners exactly as they
    were sent, with consecutive offsets for the messages of a delivery, up to the
    first one that the codec cannot decode, and responses complete the requests
    they belong to. *)

From S2P Require Import Prelude Words OrdMap Types BinaryBuffer ClientCommands ServerCommands ClientFrames ServerFrames Messages Client ClientSending.

(** ** Safety of the frame thread *)

(** The exceptions that the loop handles. *)
Inductive handled (e : exn) : Prop :=
| handled_stream (Hs : is_StreamException e = true)
| handled_close what (Hs : e = ServerCloseException what).

(** [calm m]: [m] throws only such exceptions and leaves the tune promise. *)
Definition calm {A} (m : CM A) : Prop :=
  forall c, c_tuned (m c).2 = c_tuned c /\
  match (m c).1 with Val _ => True | Throw e => handled e end.

Lemma calm_ret {A} (a : A) : calm (mret a).
Proof. now intros c. Qed.

Lemma calm_throw {A} e : handled e -> calm (st_throw e : CM A).
Proof. now intros He c. Qed.

Lemma calm_bind {A B} (m : CM A) (f : A -> CM B) : calm m -> (forall a, calm (f a)) -> calm (m ≫= f).
Proof.
  intros Hm Hf c. destruct (Hm c) as [Ht He]. unfold mbind, ST_bind.
  destruct (m c) as [[a|e] c1]; simpl in *; [|done]. destruct (Hf a c1) as [Ht' He'].
  split; [congruence | done].
Qed.

Lemma calm_emit ev : calm (emit ev).
Proof. now intros c. Qed.

Lemma calm_iter {X} (f : X -> CM unit) xs : (forall x, calm (f x)) -> calm (st_iter f xs).
Proof. intros Hf. induction xs; [apply calm_ret|]. now apply calm_bind. Qed.

Lemma calm_on_buffer {A} (m : BM A) (P : A -> Prop) b : parses m P -> buf_wf b -> calm (on_buffer m b).
Proof.
  intros Hm Hwf c. specialize (Hm b Hwf). unfold on_buffer. destruct (m b) as [[a|e] b']; simpl; [done|].
  split; [done|]. left. apply Hm.
Qed.

Lemma frame_buffer_throws {T} `{Serializable T} (f : T) e b :
  keeps_wf (serialize f) -> frame_buffer f empty_buffer = (Throw e, b) -> is_StreamException e = true.
Proof.
  intros Hf E. assert (keeps_wf (frame_buffer f)) as Hk.
  { unfold frame_buffer. apply keeps_wf_bind; [auto with keeps|]. intros _.
    apply keeps_wf_bind; [apply keeps_wf_write_raw|]. now intros _. }
  destruct (Hk empty_buffer (proj1 empty_at_end)) as [_ Ht]. now rewrite E in Ht.
Qed.

Lemma calm_send_frame {T} `{Serializable T} (f : T) : keeps_wf (serialize f) -> calm (send_frame f).
Proof.
  intros Hf c. unfold send_frame, mbind, ST_bind. cbn [st_get].
  destruct (_ && _); simpl; [split; [done | now left]|].
  destruct (frame_buffer f empty_buffer) as [[u|e] b] eqn:E; simpl; [done|].
  split; [done|]. left. eapply frame_buffer_throws; eassumption.
Qed.

Lemma calm_modify f : (forall c, c_tuned (f c) = c_tuned c) -> calm (st_modify f).
Proof. intros Hf c. split; [apply Hf | done]. Qed.

Lemma calm_complete corr f : calm (complete_outstanding_request corr f).
Proof.
  intros c. unfold complete_outstanding_request, mbind, ST_bind. cbn [st_get].
  now destruct (bool_decide _).
Qed.

Create HintDb calm.
#[export] Hint Resolve calm_ret calm_emit calm_iter calm_complete : calm.
#[export] Hint Extern 1 (calm (_ ≫= _)) => apply calm_bind; [|intros ?] : calm.
#[export] Hint Extern 2 (calm (if ?b then _ else _)) => destruct b : calm.

Section receiving.
Context {K : Type} `{CodecDecodes K}.
Context (cfg : ClientConfig) (codec : K).

(** The parser of each class is safe on its own. *)
Lemma parses_kind_object {T} (m : BM T) (con : T -> ServerFrame) :
  parses (c ← m; mret (con c)) server_typed -> parses m (fun c => server_typed (con c)).
Proof.
  intros Hm b Hwf. specialize (Hm b Hwf). unfold mbind, ST_bind in Hm. now destruct (m b) as [[a|e] b'].
Qed.

Lemma calm_response {T} `{ServerRequestOrResponse T} (con : T -> ServerFrame) k b :
  deserialize_kind k = (c ← deserialize; mret (con c)) -> buf_wf b -> calm (handle_response con b).
Proof.
  intros Hk Hwf. apply calm_bind; [|auto with calm].
  eapply calm_on_buffer; [|done]. apply parses_kind_object with (con := con). rewrite <- Hk.
  apply deserialize_kind_parses.
Qed.

Lemma calm_deliver_messages sub ctx offset ms : calm (deliver_messages codec sub ctx offset ms).
Proof.
  revert offset. induction ms as [|m ms IH]; intros offset; simpl; [apply calm_ret|].
  destruct (codec_decode codec m (lenZ m)) as [msg|e] eqn:E; [auto with calm|].
  apply calm_throw. left. eapply decode_throws, E.
Qed.

Lemma calm_deliver version b : buf_wf b -> calm (handle_deliver cfg codec version b).
Proof.
  intros Hwf. unfold handle_deliver. destruct (_ && _); [apply calm_ret|].
  apply calm_bind; [eapply calm_on_buffer; [apply parses_deliver | done]|]. intros command.
  apply calm_bind; [auto with calm|]. intros _. destruct (negb _); [apply calm_ret|].
  apply calm_deliver_messages.
Qed.

Lemma calm_object {T} (m : BM T) (con : T -> ServerFrame) k b :
  deserialize_kind k = (c ← m; mret (con c)) -> buf_wf b -> calm (on_buffer m b).
Proof.
  intros Hk Hwf. eapply calm_on_buffer; [|done]. apply parses_kind_object with (con := con).
  rewrite <- Hk. apply deserialize_kind_parses.
Qed.

(** The tune promise is set by the tune frame only; [FutureError] is what a
    second one throws. *)
Lemma tune_throws b c e :
  buf_wf b -> (handle_tune b c).1 = Throw e -> handled e \/ (e = FutureError /\ c_tuned c = true).
Proof.
  intros Hwf. unfold handle_tune.
  pose proof (calm_object deserialize STune KindTune b eq_refl Hwf c) as Hb.
  unfold mbind at 1, ST_bind at 1. destruct (on_buffer deserialize b c) as [[cmd|e'] c1]; simpl in Hb.
  2: { intros [= ->]. left. apply Hb. }
  destruct Hb as [Ht _]. unfold mbind at 1 2, ST_bind at 1 2. cbn [st_get st_put].
  set (c2 := with_heartbeat _ _). set (frame := MkClientTuneCommand _ _).
  unfold mbind at 1, ST_bind at 1.
  destruct (calm_send_frame frame (keeps_wf_serialize (FTune frame)) c2) as [Ht2 He].
  destruct (send_frame frame c2) as [[r|e'] c3]; simpl in *; [|intros [= ->]; now left].
  assert (c_tuned c3 = c_tuned c) as Ht3 by congruence.
  unfold set_tuned, mbind, ST_bind.
  destruct (_ =? 0); simpl; rewrite ?Ht3; destruct (c_tuned c) eqn:E; simpl; intros [= <-]; auto.
Qed.

Lemma calm_close b : buf_wf b -> calm (handle_close b).
Proof.
  intros Hwf. unfold handle_close. apply calm_bind; [apply (calm_object _ SClose KindClose); [done | done]|].
  intros r. set (frame := MkClientCloseResponse _ _).
  apply calm_bind; [apply calm_send_frame, (keeps_wf_serialize (FCloseResponse frame))|].
  intros _. apply calm_throw. by eapply handled_close.
Qed.

(** The safety of [handle_response], by the class of the response. *)
Ltac calm_response_tac b Hwf :=
  let by_kind con k := exact (calm_response con k b eq_refl Hwf) in
  lazymatch goal with
  | |- calm (handle_response SGeneric _) => by_kind SGeneric KindGeneric
  | |- calm (handle_response SOpen _) => by_kind SOpen KindOpen
  | |- calm (handle_response SMetadata _) => by_kind SMetadata KindMetadata
  | |- calm (handle_response SSaslHandshake _) => by_kind SSaslHandshake KindSaslHandshake
  | |- calm (handle_response SSaslAuthenticate _) => by_kind SSaslAuthenticate KindSaslAuthenticate
  | |- calm (handle_response SPeerProperties _) => by_kind SPeerProperties KindPeerProperties
  | |- calm (handle_response SQueryOffset _) => by_kind SQueryOffset KindQueryOffset
  | |- calm (handle_response SQueryPublisherSequence _) => by_kind SQueryPublisherSequence KindQueryPublisherSequence
  | |- calm (handle_response SExchangeVersions _) => by_kind SExchangeVersions KindExchangeVersions
  end.

Lemma handler_throws key version handler b c e :
  FRAME_HANDLERS cfg codec key version = Some handler -> buf_wf b -> (handler b c).1 = Throw e ->
  handled e \/ (e = FutureError /\ c_tuned c = true).
Proof.
  intros Hh Hwf. unfold FRAME_HANDLERS in Hh.
  assert (forall m : CM unit, calm m -> (m c).1 = Throw e -> handled e \/ (e = FutureError /\ c_tuned c = true)) as Hcalm.
  { intros m Hm E. destruct (Hm c) as [_ He]. rewrite E in He. now left. }
  repeat match type of Hh with
    (if ?x then _ else _) = Some _ => destruct x; [injection Hh as <- | ] end; [..|done].
  all: try (apply Hcalm; calm_response_tac b Hwf).
  all: try solve [now apply tune_throws].
  all: apply Hcalm.
  - now apply calm_close.
  - unfold client_publish_confirm. destruct (negb _); [apply calm_ret|].
    apply calm_bind; [apply (calm_object _ SPublishConfirm KindPublishConfirm); done | auto with calm].
  - now apply calm_deliver.
  - now apply calm_deliver.
  - unfold client_publish_error. destruct (negb _); [apply calm_ret|].
    apply calm_bind; [apply (calm_object _ SPublishError KindPublishError); done | auto with calm].
  - unfold client_metadata_update. apply calm_bind; [apply (calm_object _ SMetadataUpdate KindMetadataUpdate); done|].
    intros r. destruct (negb _); [apply calm_throw; now left | auto with calm].
  - unfold handle_credit. destruct (negb _); [apply calm_ret|].
    apply calm_bind; [apply (calm_object _ SCreditError KindCreditError); done | auto with calm].
  - apply calm_ret.
Qed.

Lemma read_frame_header_parses : parses read_frame_header (fun _ => True).
Proof. unfold read_frame_header. parse_members. done. Qed.

Lemma frame_body_throws b c e :
  buf_wf b -> (handle_frame_body cfg codec b c).1 = Throw e ->
  handled e \/ (e = FutureError /\ c_tuned c = true).
Proof.
  intros Hwf. unfold handle_frame_body. pose proof (read_frame_header_parses b Hwf) as Hp.
  destruct (read_frame_header b) as [[[key version]|e'] b'] eqn:Eh; destruct Hp as (Eb & Hc & He).
  2: { intros [= ->]. left. now left. }
  assert (buf_wf b') as Hwf' by (rewrite Eb; now apply with_read_cursor_wf).
  unfold mbind at 1, ST_bind at 1. cbn [st_get]. destruct (negb _).
  - destruct (FRAME_HANDLERS _ _ _ _) as [handler|] eqn:Eh'; [|intros [= <-]; left; now left].
    unfold mbind, ST_bind. pose proof (handler_throws _ _ _ b' c e Eh' Hwf') as Ht.
    destruct (handler b' c) as [[u|e'] c']; [done|].
    intros [= ->]. now apply Ht.
  - destruct (_ && _); [|done].
    destruct (calm_response SGeneric KindGeneric b' eq_refl Hwf' c) as [_ Ht].
    unfold mbind, ST_bind. destruct (handle_response SGeneric b' c) as [[u|e'] c']; [done|].
    simpl in *. intros [= ->]. now left.
Qed.

(** C15: the frame thread survives any frame: whatever bytes a frame of the
    server holds, handling it does not read out of bounds and every exception
    is handled by the loop; the one exception that escapes it is the
    [std::future_error] of a second tune frame. *)
Theorem handle_frame_safe b c e :
  buf_wf b -> (handle_frame cfg codec (Val b) c).1 = Throw e -> e = FutureError /\ c_tuned c = true.
Proof.
  intros Hwf E. unfold handle_frame, st_catch in E. pose proof (frame_body_throws b c) as Ht.
  destruct (handle_frame_body cfg codec b c) as [[r|e'] c']; [done|].
  destruct (Ht e' Hwf eq_refl) as [[Hs|w ->]|[-> Hc]]; [|done|].
  - destruct e'; try done; rewrite Hs in E; done.
  - simpl in E. injection E as <-. done.
Qed.

End receiving.

(** ** What the listeners are told *)

(** The key and version a frame that is not a response arrives with. *)
Definition notification_key (f : ServerFrame) : option (CommandKey * Z) :=
  match f with
  | SPublishConfirm _ => Some (KeyPublishConfirm, 1)
  | SPublishError _ => Some (KeyPublishError, 1)
  | SDeliver d => Some (KeyDeliver, match Deliver_committed_chunk_id d with Some _ => 2 | None => 1 end)
  | SCreditError _ => Some (KeyCredit, 1)
  | SMetadataUpdate _ => Some (KeyMetadataUpdate, 1)
  | _ => None
  end.

Definition chunk_context (d : DeliverCommand) : ChunkContext :=
  MkChunkContext (ch_timestamp (Deliver_chunk d)) (ch_offset (Deliver_chunk d))
                 (ch_nb_entries (Deliver_chunk d)) (Deliver_committed_chunk_id d).

(** The messages in front of the first one that does not decode, and the
    exception of that one. *)
Fixpoint decoded `{Codec K} (codec : K) (ms : list (list byte)) : list Message :=
  match ms with
  | [] => []
  | m :: ms => match codec_decode codec m (lenZ m) with Val x => x :: decoded codec ms | Throw _ => [] end
  end.

Fixpoint undecodable `{Codec K} (codec : K) (ms : list (list byte)) : option exn :=
  match ms with
  | [] => None
  | m :: ms => match codec_decode codec m (lenZ m) with Val _ => undecodable codec ms | Throw e => Some e end
  end.

(** The messages of a chunk have consecutive offsets, from that of the chunk. *)
Definition message_events `{Codec K} (codec : K) (d : DeliverCommand) : list client_event :=
  imap (fun i m => CEvMessage (Deliver_subscription_id d) (chunk_context d)
                     (wrap64 (ch_offset (Deliver_chunk d) + Z.of_nat i)) m)
       (decoded codec (Deliver_messages d)).

Definition when {A} (b : bool) (l : list A) : list A := if b then l else [].

Definition notifications `{Codec K} (cfg : ClientConfig) (codec : K) (f : ServerFrame) : list client_event :=
  match f with
  | SPublishConfirm (MkPublishConfirmCommand id seqs) =>
      when (cfg_publish_confirm_listener cfg) (map (CEvPublishConfirm id) seqs)
  | SPublishError (MkPublishErrorCommand id errs) =>
      when (cfg_publish_error_listener cfg) (map (fun e => CEvPublishError id (pe_sequence e) (pe_code e)) errs)
  | SDeliver d =>
      when (cfg_chunk_listener cfg) [CEvChunk (Deliver_subscription_id d) (chunk_context d)]
      ++ when (cfg_message_listener cfg) (message_events codec d)
  | SCreditError (MkCreditErrorCommand code id) =>
      when (cfg_credit_error_listener cfg) [CEvCreditError id code]
  | SMetadataUpdate (MkMetadataUpdateCommand code name) =>
      when (cfg_metadata_listener cfg && (code =? rc_value StreamNotAvailable)) [CEvMetadata name code]
  | _ => []
  end.

(** The exception that ends the handler of a valid notification, if one does: the
    first message that does not decode, or the code of a metadata update that
    is not about the availability of the stream. *)
Definition notification_failure `{Codec K} (cfg : ClientConfig) (codec : K) (f : ServerFrame) : option exn :=
  match f with
  | SDeliver d => if cfg_message_listener cfg then undecodable codec (Deliver_messages d) else None
  | SMetadataUpdate (MkMetadataUpdateCommand code _) =>
      if code =? rc_value StreamNotAvailable then None else Some (ResponseErrorException code)
  | _ => None
  end.

Definition frame_with_key (key version : Z) (f : ServerFrame) : list byte :=
  be_encode 2 key ++ be_encode 2 version ++ server_bytes f.

(** [emits m evs]: [m] succeeds and notifies [evs], nothing else. *)
Definition emits (m : CM unit) (evs : list client_event) : Prop :=
  forall c, m c = (Val tt, with_events (c_events c ++ evs) c).

Lemma emits_ret : emits (mret tt) [].
Proof. intros c. rewrite app_nil_r. now destruct c. Qed.

Lemma emits_seq m1 m2 evs1 evs2 : emits m1 evs1 -> emits m2 evs2 -> emits (m1 ;; m2) (evs1 ++ evs2).
Proof.
  intros H1 H2 c. rewrite (ST_bind_Val _ _ _ _ _ (H1 c)), H2. simpl. now rewrite app_assoc.
Qed.

Lemma emits_when (b : bool) m evs : emits m evs -> emits (if b then m else mret tt) (when b evs).
Proof. intros Hm. destruct b; [done | apply emits_ret]. Qed.

Lemma emits_unless (b : bool) m evs : emits m evs -> emits (if negb b then mret tt else m) (when b evs).
Proof. intros Hm. destruct b; [done | apply emits_ret]. Qed.

Lemma emits_iter {X} (f : X -> client_event) xs : emits (st_iter (fun x => emit (f x)) xs) (map f xs).
Proof.
  induction xs as [|x xs IH]; [apply emits_ret|]. now apply (emits_seq _ _ [f x] (map f xs)).
Qed.

(** [ends m evs o]: [m] notifies [evs], nothing else, and then throws [o] if that
    is an exception. *)
Definition ends (m : CM unit) (evs : list client_event) (o : option exn) : Prop :=
  forall c, m c = (match o with None => Val tt | Some e => Throw e end, with_events (c_events c ++ evs) c).

Lemma ends_seq m1 m2 evs1 evs2 o : emits m1 evs1 -> ends m2 evs2 o -> ends (m1 ;; m2) (evs1 ++ evs2) o.
Proof.
  intros H1 H2 c. rewrite (ST_bind_Val _ _ _ _ _ (H1 c)), H2. simpl. now rewrite app_assoc.
Qed.

Lemma ends_throw e : ends (st_throw e) [] (Some e).
Proof. intros c. rewrite app_nil_r. now destruct c. Qed.

Lemma deliver_messages_ends `{Codec K} (codec : K) sub ctx offset ms :
  ends (deliver_messages codec sub ctx (wrap64 offset) ms)
       (imap (fun i m => CEvMessage sub ctx (wrap64 (offset + Z.of_nat i)) m) (decoded codec ms)) (undecodable codec ms).
Proof.
  revert offset. induction ms as [|m ms IH]; intros offset; [exact emits_ret|].
  simpl. destruct (codec_decode codec m (lenZ m)) as [x|e]; [|apply ends_throw]. simpl. rewrite Z.add_0_r.
  apply (ends_seq _ _ [_]); [done|]. rewrite wrap_add_l.
  erewrite imap_ext; [apply IH|]. intros i y _. simpl. do 2 f_equal. lia.
Qed.

(** ** From the bytes of a frame to its handler *)

(** The read cursor of [b] is in front of [bs], which more may follow. *)
Definition holds (b : BinaryBuffer) (bs : list byte) : Prop :=
  buf_wf b /\ m_read_cursor b <= buffer_size b /\ exists rest, remaining b = bs ++ rest.

Lemma reads_frame_header key version :
  is_u16 key -> is_u16 version ->
  reads read_frame_header (be_encode 2 key ++ be_encode 2 version) (key, version).
Proof. intros Hk Hv. unfold read_frame_header. solve_reads. Qed.

Lemma holds_advance b bs1 bs2 : holds b (bs1 ++ bs2) -> holds (advance (lenZ bs1) b) bs2.
Proof.
  intros (Hwf & Hc & rest & E). rewrite <- app_assoc in E.
  assert (m_read_cursor b + lenZ bs1 <= buffer_size b) as Hle.
  { apply (f_equal lenZ) in E. unfold remaining, buffer_size in *. destruct Hwf as (_ & Hr & _).
    rewrite lenZ_dropZ, !lenZ_app in E by lia. pose proof (lenZ_nonneg bs1).
    pose proof (lenZ_nonneg bs2). pose proof (lenZ_nonneg rest). lia. }
  pose proof (lenZ_nonneg bs1). split; [apply advance_wf; (done || lia)|].
  split; [done|]. exists rest. now apply remaining_advance.
Qed.

Lemma on_buffer_reads {A} (m : BM A) bs a b : reads m bs a -> holds b bs -> on_buffer m b = mret a.
Proof. intros Hm (Hwf & Hc & rest & E). unfold on_buffer. now rewrite (Hm b rest). Qed.

Lemma on_buffer_object {T} (m : BM T) (con : T -> ServerFrame) x b :
  (forall y, con y = con x -> y = x) ->
  deserialize_kind (server_kind (con x)) = (c ← m; mret (con c)) ->
  server_valid (con x) -> holds b (server_bytes (con x)) -> on_buffer m b = mret x.
Proof.
  intros Hinj Hk Hv (Hwf & Hc & rest & E). pose proof (reads_server_frame _ Hv b rest Hwf Hc E) as H.
  rewrite Hk in H. unfold on_buffer. unfold mbind, ST_bind in H.
  destruct (m b) as [[y|e] b']; [|discriminate]. injection H as Hy _. now rewrite (Hinj y Hy).
Qed.

(** Closed facts on keys and versions. *)
Ltac u16 := solve [done | vm_compute; split; congruence].

Section dispatch.
Context {K : Type} `{Codec K}.
Context (cfg : ClientConfig) (codec : K).

(** A frame of a live client reaches the handler of its key and version. *)
Lemma handle_frame_dispatch key version handler bs b c :
  is_u16 key -> is_u16 version -> c_status c <> CStopping ->
  FRAME_HANDLERS cfg codec (Z.land key 0x7FFF) version = Some handler ->
  holds b (be_encode 2 key ++ be_encode 2 version ++ bs) ->
  exists b', holds b' bs /\
    handle_frame_body cfg codec b c = (handler b' ;; mret None) c.
Proof.
  intros Hk Hv Hs Hh Hb. rewrite app_assoc in Hb. eexists. split; [exact (holds_advance _ _ _ Hb)|].
  destruct Hb as (Hwf & Hc & rest & E). rewrite <- app_assoc in E. unfold handle_frame_body.
  rewrite (reads_frame_header key version Hk Hv b (bs ++ rest) Hwf Hc E).
  unfold mbind at 1, ST_bind at 1. cbn [st_get]. rewrite bool_decide_false by done. simpl negb. cbn match.
  now rewrite Hh.
Qed.

(** What the loop does with an exception of a handler: it goes on, unless it is
    an I/O error or a close of the server, which end it. *)
Definition loop_result (o : option exn) : outcome exn (option ShutdownReason) :=
  match o with
  | None => Val None
  | Some (IOException _) => Val (Some Unknown)
  | Some (ServerCloseException _) => Val (Some ServerInitiated)
  | Some e => if is_StreamException e then Val None else Throw e
  end.

Lemma handle_frame_ends key version handler bs b c evs o :
  is_u16 key -> is_u16 version -> c_status c <> CStopping ->
  FRAME_HANDLERS cfg codec (Z.land key 0x7FFF) version = Some handler ->
  (forall b', holds b' bs -> ends (handler b') evs o) ->
  holds b (be_encode 2 key ++ be_encode 2 version ++ bs) ->
  handle_frame cfg codec (Val b) c = (loop_result o, with_events (c_events c ++ evs) c).
Proof.
  intros Hk Hv Hs Hh He Hb.
  destruct (handle_frame_dispatch key version handler bs b c Hk Hv Hs Hh Hb) as (b' & Hb' & E).
  unfold handle_frame, st_catch. rewrite E. unfold mbind, ST_bind. rewrite (He b' Hb' c).
  destruct o as [e|]; [|done]. now destruct e.
Qed.

End dispatch.

Lemma message_events_end `{Codec K} (codec : K) d :
  is_u64 (ch_offset (Deliver_chunk d)) ->
  ends (deliver_messages codec (Deliver_subscription_id d) (chunk_context d) (ch_offset (Deliver_chunk d))
          (Deliver_messages d)) (message_events codec d) (undecodable codec (Deliver_messages d)).
Proof.
  intros Ho. pose proof (deliver_messages_ends codec (Deliver_subscription_id d) (chunk_context d)
    (ch_offset (Deliver_chunk d)) (Deliver_messages d)) as Hd. now rewrite wrap_small in Hd.
Qed.

Lemma deliver_ends `{Codec K} cfg (codec : K) d b :
  server_valid (SDeliver d) -> holds b (server_bytes (SDeliver d)) ->
  ends (handle_deliver cfg codec match Deliver_committed_chunk_id d with Some _ => 2 | None => 1 end b)
       (notifications cfg codec (SDeliver d)) (notification_failure cfg codec (SDeliver d)).
Proof.
  intros Hv Hb. unfold handle_deliver, notifications, notification_failure.
  rewrite (on_buffer_reads _ _ d b (reads_deliver d Hv) Hb).
  assert (ends (deliver_messages codec (Deliver_subscription_id d) (chunk_context d)
            (ch_offset (Deliver_chunk d)) (Deliver_messages d)) (message_events codec d)
            (undecodable codec (Deliver_messages d))) as Hm
    by (apply message_events_end; destruct d, Hv as [(_ & _ & Hc & _) _]; apply Hc).
  destruct (cfg_chunk_listener cfg), (cfg_message_listener cfg); [| | |exact emits_ret];
    (apply (ends_seq _ _ (when _ _)); [first [apply emits_ret | done]|]); first [exact Hm | exact emits_ret].
Qed.

(** A handler that reads its command first. *)
Lemma emits_after_read {T} (m : BM T) (con : T -> ServerFrame) x (k : T -> CM unit) b evs :
  (forall y, con y = con x -> y = x) ->
  deserialize_kind (server_kind (con x)) = (c ← m; mret (con c)) ->
  server_valid (con x) -> holds b (server_bytes (con x)) ->
  emits (k x) evs -> emits (command ← on_buffer m b; k command) evs.
Proof. intros Hinj Hk Hv Hb He. now rewrite (on_buffer_object m con x b). Qed.

Lemma metadata_update_other cfg code name b c :
  server_valid (SMetadataUpdate (MkMetadataUpdateCommand code name)) -> code <> rc_value StreamNotAvailable ->
  holds b (server_bytes (SMetadataUpdate (MkMetadataUpdateCommand code name))) ->
  client_metadata_update cfg b c = (Throw (ResponseErrorException code), c).
Proof.
  intros Hv Hc Hb. unfold client_metadata_update.
  rewrite (on_buffer_object _ SMetadataUpdate (MkMetadataUpdateCommand code name) b); [|congruence|done..].
  unfold mbind, ST_bind, mret, ST_ret. cbn [MetadataUpdate_response_code].
  now rewrite (proj2 (Z.eqb_neq _ _)).
Qed.

(** What a notification does to a live client. *)
Lemma frame_notifies `{Codec K} cfg (codec : K) f key version b c :
  server_valid f -> notification_key f = Some (key, version) -> c_status c <> CStopping ->
  holds b (frame_with_key (key_value key) version f) ->
  handle_frame cfg codec (Val b) c =
    (loop_result (notification_failure cfg codec f), with_events (c_events c ++ notifications cfg codec f) c).
Proof.
  intros Hv Hk Hs Hb. destruct f as [x|x| |x|x| | |x| | | | | | | |]; try discriminate;
    apply (inj Some) in Hk; injection Hk as <- <-.
  - eapply (handle_frame_ends _ _ (key_value KeyPublishConfirm) 1 (client_publish_confirm cfg)); [u16..| |exact Hb].
    intros b' Hb'. destruct x. apply emits_unless.
    eapply (emits_after_read _ SPublishConfirm); [congruence|done..|]. apply (emits_iter (CEvPublishConfirm _)).
  - eapply (handle_frame_ends _ _ (key_value KeyPublishError) 1 (client_publish_error cfg)); [u16..| |exact Hb].
    intros b' Hb'. destruct x. apply emits_unless.
    eapply (emits_after_read _ SPublishError); [congruence|done..|]. apply (emits_iter (fun e => CEvPublishError _ _ _)).
  - pose proof (fun b' => deliver_ends cfg codec x b' Hv) as Hd. destruct (Deliver_committed_chunk_id x) as [id|].
    + now eapply (handle_frame_ends _ _ (key_value KeyDeliver) 2 (handle_deliver cfg codec 2)); [u16..|exact Hd|exact Hb].
    + now eapply (handle_frame_ends _ _ (key_value KeyDeliver) 1 (handle_deliver cfg codec 1)); [u16..|exact Hd|exact Hb].
  - eapply (handle_frame_ends _ _ (key_value KeyCredit) 1 (handle_credit cfg)); [u16..| |exact Hb].
    intros b' Hb'. destruct x. apply emits_unless. eapply (emits_after_read _ SCreditError); [congruence|done..].
  - destruct x as [code name].
    eapply (handle_frame_ends _ _ (key_value KeyMetadataUpdate) 1 (client_metadata_update cfg)); [u16..| |exact Hb].
    intros b' Hb'. unfold notifications, notification_failure.
    destruct (Z.eqb_spec code (rc_value StreamNotAvailable)) as [->|Hc].
    + eapply (emits_after_read _ SMetadataUpdate); [congruence|done..|]. rewrite andb_true_r. now apply emits_when.
    + intros c'. rewrite (metadata_update_other cfg code name b' c' Hv Hc Hb'), andb_false_r. cbn [when].
      rewrite app_nil_r. now destruct c'.
Qed.

(** C22: in a client that is not stopping, with any codec, a valid delivery,
    confirmation, publish error, credit error or metadata update is told to the
    listeners that are set exactly as sent: every publishing id of a
    confirmation, in order; the chunk of a delivery; then its messages,
    decoded, each once and in order, with consecutive offsets from the chunk's,
    all of them when all decode and otherwise those in front of the first that
    does not.  Nothing else of the client changes, and the frame loop goes on
    unless that failure is an I/O error. *)
Theorem notifications_exact `{Codec K} cfg (codec : K) f key version b c :
  server_valid f -> notification_key f = Some (key, version) -> c_status c <> CStopping ->
  holds b (frame_with_key (key_value key) version f) ->
  handle_frame cfg codec (Val b) c =
    (loop_result (notification_failure cfg codec f), with_events (c_events c ++ notifications cfg codec f) c).
Proof. apply frame_notifies. Qed.

(** A codec that does not know one body. *)
Inductive PickyCodec := MkPickyCodec (unknown : list byte).

Definition picky_decode (c : PickyCodec) (data : list byte) (data_size : Z) : outcome exn Message :=
  let 'MkPickyCodec unknown := c in
  if bool_decide (data = unknown) then Throw (StreamException "unknown body") else RawCodec_decode data data_size.

#[export] Instance PickyCodec_Codec : Codec PickyCodec := {|
  codec_encode _ := RawCodec_encode;
  codec_decode := picky_decode
|}.

(** Of the two messages of the chunk, with offsets 40 and 41, the second does not
    decode. *)
Definition picky_codec : PickyCodec := MkPickyCodec (default [] (Deliver_messages deliver_example !! 1%nat)).

Lemma notifications_exact_witness :
  let b := append (frame_with_key 8 2 (SDeliver deliver_example)) empty_buffer in
  length (notifications example_client_config picky_codec (SDeliver deliver_example)) = 2%nat /\
  length (notifications example_client_config MkRawCodec (SDeliver deliver_example)) = 3%nat /\
  handle_frame example_client_config picky_codec (Val b) (new_Client example_client_config) =
    (Val None, with_events (notifications example_client_config picky_codec (SDeliver deliver_example))
                 (new_Client example_client_config)).
Proof.
  split; [vm_compute; reflexivity|]. split; [vm_compute; reflexivity|].
  assert (loop_result (notification_failure example_client_config picky_codec (SDeliver deliver_example)) = Val None) as E
    by (vm_compute; reflexivity). rewrite <- E.
  apply (notifications_exact example_client_config picky_codec (SDeliver deliver_example) KeyDeliver 2
    (append (frame_with_key 8 2 (SDeliver deliver_example)) empty_buffer) (new_Client example_client_config)).
  - split; [|split; [repeat constructor; vm_compute; congruence | reflexivity]].
    repeat split; vm_compute; congruence.
  - reflexivity.
  - vm_compute. congruence.
  - split; [repeat split; vm_compute; congruence|]. split; [vm_compute; congruence|].
    exists []. vm_compute. reflexivity.
Defined.

(** ** Responses *)

(** The requests whose responses are of a class. *)
Definition response_keys (k : ServerKind) : list CommandKey :=
  match k with
  | KindGeneric => [KeySubscribe; KeyUnsubscribe; KeyDeclarePublisher; KeyDeletePublisher; KeyCreate; KeyDelete]
  | KindOpen => [KeyOpen]
  | KindMetadata => [KeyMetadata]
  | KindSaslHandshake => [KeySaslHandshake]
  | KindSaslAuthenticate => [KeySaslAuthenticate]
  | KindPeerProperties => [KeyPeerProperties]
  | KindQueryOffset => [KeyQueryOffset]
  | KindQueryPublisherSequence => [KeyQueryPublisherSequence]
  | KindExchangeVersions => [KeyExchangeCommandVersions]
  | _ => []
  end.

Definition correlation_of (f : ServerFrame) : Z :=
  match f with
  | SGeneric r => GenericResp_correlation_id r
  | SOpen r => OpenResp_correlation_id r
  | SMetadata r => MetadataResp_correlation_id r
  | SSaslHandshake r => SaslHandshakeResp_correlation_id r
  | SSaslAuthenticate r => SaslAuthenticateResp_correlation_id r
  | SPeerProperties r => PeerPropertiesResp_correlation_id r
  | SQueryOffset r => QueryOffsetResp_correlation_id r
  | SQueryPublisherSequence r => QueryPublisherSequenceResp_correlation_id r
  | SExchangeVersions r => ExchangeVersionsResp_correlation_id r
  | _ => 0
  end.

(** The response [f] completes the request that waits for it, if one does. *)
Definition completed (f : ServerFrame) (c : Client) : Client :=
  if bool_decide (correlation_of f ∈ c_outstanding c)
  then with_outstanding (c_outstanding c ∖ {[correlation_of f]})
         (with_events (c_events c ++ [CEvComplete (correlation_of f) f]) c)
  else c.

Lemma complete_completed corr f c :
  correlation_of f = corr -> complete_outstanding_request corr f c = (Val tt, completed f c).
Proof.
  intros <-. unfold complete_outstanding_request, completed, mbind, ST_bind. cbn [st_get].
  now destruct (bool_decide _).
Qed.

Lemma handle_response_completes {T} `{ServerRequestOrResponse T} (con : T -> ServerFrame) x b c :
  (forall y, con y = con x -> y = x) ->
  deserialize_kind (server_kind (con x)) = (c ← deserialize; mret (con c)) ->
  correlation_of (con x) = get_correlation_id x ->
  server_valid (con x) -> holds b (server_bytes (con x)) ->
  handle_response con b c = (Val tt, completed (con x) c).
Proof.
  intros Hinj Hk Hc Hv Hb. unfold handle_response. rewrite (on_buffer_object _ con x b Hinj Hk Hv Hb).
  now apply complete_completed.
Qed.

Lemma response_frame_completes {K} `{Codec K} cfg (codec : K) key (handler : BinaryBuffer -> CM unit) f b c :
  is_u16 (Z.lor 0x8000 (key_value key)) -> c_status c <> CStopping ->
  FRAME_HANDLERS cfg codec (Z.land (Z.lor 0x8000 (key_value key)) 0x7FFF) 1 = Some handler ->
  (forall b', holds b' (server_bytes f) -> handler b' c = (Val tt, completed f c)) ->
  holds b (frame_with_key (Z.lor 0x8000 (key_value key)) 1 f) ->
  handle_frame cfg codec (Val b) c = (Val None, completed f c).
Proof.
  intros Hk Hs Hh Hc Hb.
  edestruct (handle_frame_dispatch cfg codec (Z.lor 0x8000 (key_value key)) 1 handler) as (b' & Hb' & E);
    [done | u16 | done | done | exact Hb |].
  unfold handle_frame, st_catch. rewrite E. now rewrite (ST_bind_Val _ _ _ _ _ (Hc b' Hb')).
Qed.

(** C23: in a client that is not stopping, a valid response completes the
    outstanding request of its correlation id with exactly the response sent,
    and removes that request and no other; a response nobody waits for changes
    nothing. *)
Theorem response_completes {K} `{Codec K} cfg (codec : K) f key b c :
  server_valid f -> key ∈ response_keys (server_kind f) -> c_status c <> CStopping ->
  holds b (frame_with_key (Z.lor 0x8000 (key_value key)) 1 f) ->
  handle_frame cfg codec (Val b) c = (Val None, completed f c).
Proof.
  intros Hv Hk Hs Hb.
  assert (forall handler, FRAME_HANDLERS cfg codec (Z.land (Z.lor 0x8000 (key_value key)) 0x7FFF) 1 = Some handler ->
    (forall b', holds b' (server_bytes f) -> handler b' c = (Val tt, completed f c)) ->
    handle_frame cfg codec (Val b) c = (Val None, completed f c)) as Hf.
  { intros handler Hh Hc. apply (response_frame_completes cfg codec key handler); try done. now destruct key. }
  clear Hb Hs. destruct f as [x|x|x|x|x|x|x|x|x|x|x|x|x|x|x|x]; simpl in Hk;
    repeat (apply elem_of_cons in Hk as [->|Hk]); try (now apply elem_of_nil in Hk).
  all: match goal with |- context [completed (?con ?x)] =>
         apply (Hf (handle_response con)); [reflexivity|]; intros b' Hb';
         apply (handle_response_completes con x); [congruence | reflexivity | reflexivity | done | done] end.
Qed.

Definition offset_response : ServerFrame := SQueryOffset (MkQueryOffsetResponse 7 1 42).

Lemma response_completes_witness :
  let c := with_outstanding {[7; 8]} (new_Client example_client_config) in
  let b := append (frame_with_key 0x800b 1 offset_response) empty_buffer in
  elements (c_outstanding (completed offset_response c)) = [8] /\
  c_events (completed offset_response c) = [CEvComplete 7 offset_response] /\
  handle_frame example_client_config MkRawCodec (Val b) c = (Val None, completed offset_response c).
Proof.
  split; [vm_compute; reflexivity|]. split; [vm_compute; reflexivity|].
  apply (response_completes example_client_config MkRawCodec offset_response KeyQueryOffset
    (append (frame_with_key 0x800b 1 offset_response) empty_buffer)
    (with_outstanding {[7; 8]} (new_Client example_client_config))).
  - split; [repeat split; vm_compute; congruence | done].
  - left.
  - vm_compute. congruence.
  - split; [repeat split; vm_compute; congruence|]. split; [vm_compute; congruence|].
    exists []. vm_compute. reflexivity.
Defined.

Definition tune_frame : BinaryBuffer :=
  append (be_encode 2 (key_value KeyTune) ++ be_encode 2 1
          ++ server_bytes (STune (MkServerTuneCommand 1048576 60))) empty_buffer.

(** After a second tune frame from the server, the frame thread is left by
    an exception that nothing handles. *)
Theorem second_tune_escapes :
  let c1 := (handle_frame example_client_config MkRawCodec (Val tune_frame) (new_Client example_client_config)).2 in
  (handle_frame example_client_config MkRawCodec (Val tune_frame) (new_Client example_client_config)).1 = Val None /\
  (handle_frame example_client_config MkRawCodec (Val tune_frame) c1).1 = Throw FutureError.
Proof. vm_compute. done. Qed.

Lemma handle_frame_safe_witness :
  let c1 := (handle_frame example_client_config MkRawCodec (Val tune_frame) (new_Client example_client_config)).2 in
  FutureError = FutureError /\ c_tuned c1 = true.
Proof.
  apply (handle_frame_safe example_client_config MkRawCodec tune_frame
    (handle_frame example_client_config MkRawCodec (Val tune_frame) (new_Client example_client_config)).2 FutureError).
  - repeat split; vm_compute; congruence.
  - vm_compute. reflexivity.
Defined.
