(* ===== verification/ClientLifecycle.v ===== *)
(** * The life of a client

    The status of [Client] is shared by the threads that start and stop it, the
    thread that reads frames and the idle timer of the connection.  A [task] is
    what one of them still has to do; between two accesses to the status any
    other may run.  The theorems say how often the shutdown listener, on which
    producers and consumers rely to recover, is called. *)

From S2P Require Import Prelude Words OrdMap Types BinaryBuffer ClientCommands ServerCommands ClientFrames ServerFrames Messages Client ClientSending ClientReceiving.

(** The operations that a user may call at any time. *)
Inductive client_call :=
| CallMetadata (streams : list string)
| CallDeclarePublisher (publisher_id : Z) (reference stream : string)
| CallDeletePublisher (publisher_id : Z)
| CallQueryPublisherSequence (reference stream : string)
| CallStoreOffset (reference stream : string) (offset : Z)
| CallQueryOffset (reference stream : string)
| CallCreate (stream : string) (arguments : Properties)
| CallDelete (stream : string)
| CallSubscribe (subscription_id : Z) (stream : string) (offset : OffsetSpecification) (credit : Z) (properties : Properties)
| CallUnsubscribe (subscription_id : Z)
| CallCredit (subscription_id n : Z)
| CallPublish (publisher_id publishing_id : Z) (message : Message)
| CallPublishEncoded (publisher_id : Z) (messages : list PublishMessage).

(** [TStopAborted] is a call of [stop] left by an exception that is not a
    [StreamException]. *)
Inductive task :=
| TStart
| TConnect
| TSetup
| TCommit
| TStop
| TStopping (previous : ClientStatus)
| TStopAborted
| TFrames
| TFramesEnded (reason : ShutdownReason)
| THeartbeat
| TShutdown (reason : option ShutdownReason)
| TCall (call : client_call).

Definition discard {A} (m : CM A) : CM unit := _ ← m; mret tt.

Section lifecycle.
Context {K : Type} `{Codec K}.
Context (cfg : ClientConfig) (codec : K).
Context (await : Z -> CM ServerFrame) (await_tune : CM unit) (connect : CM unit).

Definition run_call (call : client_call) : CM unit :=
  match call with
  | CallMetadata streams => discard (metadata await streams)
  | CallDeclarePublisher id reference stream => declare_publisher await id reference stream
  | CallDeletePublisher id => delete_publisher await id
  | CallQueryPublisherSequence reference stream => discard (query_publisher_sequence await reference stream)
  | CallStoreOffset reference stream offset => store_offset reference stream offset
  | CallQueryOffset reference stream => discard (query_offset await reference stream)
  | CallCreate stream arguments => create_stream await stream arguments
  | CallDelete stream => delete_stream await stream
  | CallSubscribe id stream offset credit properties => subscribe await id stream offset credit properties
  | CallUnsubscribe id => unsubscribe await id
  | CallCredit id n => credit id n
  | CallPublish id publishing_id message => publish codec id publishing_id message
  | CallPublishEncoded id messages => publish_encoded id messages
  end.

(** What a [try] block of [start] leads to. *)
Definition after {A} (r : outcome exn A) (next : list task) : list task :=
  match r with
  | Val _ => next
  | Throw e => if is_StreamException e then [TStop] else []
  end.

(** A task runs to its next access to the status; [incoming] is what the
    connection has for the frame loop.  The result holds what is left to do. *)
Definition task_step (t : task) (incoming : outcome exn BinaryBuffer) (c : Client) : Client * list task :=
  match t with
  | TStart =>
      match client_compare_exchange CInitialized CStarting c with
      | (Val true, c) => (c, [TConnect]) | (_, c) => (c, [])
      end
  | TConnect => let '(r, c) := connect c in (c, after r [TFrames; TSetup])
  | TSetup => let '(r, c) := client_setup cfg await await_tune c in (c, after r [TCommit])
  | TCommit =>
      match client_compare_exchange CStarting CStarted c with
      | (Val true, c) => (c, []) | (_, c) => (c, [TStop])
      end
  | TStop =>
      match client_exchange CStopping c with
      | (Val previous, c) => (c, [TStopping previous]) | (_, c) => (c, [])
      end
  | TStopping previous =>
      if bool_decide (previous = CStopping) then (c, [])
      else if bool_decide (previous = CStarted) then
        let '(r, c) := close_request await c in
        (c, match r with Val _ => [TShutdown (Some ClientInitiated)] | Throw _ => [TStopAborted] end)
      else (c, [TShutdown None])
  | TStopAborted => (c, [TStopAborted])
  | TFrames =>
      match handle_frame cfg codec incoming c with
      | (Val None, c) => (c, [TFrames])
      | (Val (Some reason), c) => (c, [TFramesEnded reason])
      | (Throw _, c) => (c, [])
      end
  | TFramesEnded reason =>
      match client_compare_exchange CStarted CStopping c with
      | (Val true, c) => (c, [TShutdown (Some reason)]) | (_, c) => (c, [])
      end
  | THeartbeat =>
      match client_compare_exchange CStarted CStopping c with
      | (Val true, c) => (c, [TShutdown (Some HeartbeatTimeout)]) | (_, c) => (c, [])
      end
  | TShutdown reason => ((client_shutdown cfg reason c).2, [])
  | TCall call => ((run_call call c).2, [])
  end.

(** *** The tasks are the code *)

(** Tasks run one after the other, the frame thread and dead threads apart. *)
Fixpoint run_alone (n : nat) (ts : list task) (c : Client) : Client :=
  match n, ts with
  | S n, (TFrames | TStopAborted) :: ts => run_alone n ts c
  | S n, t :: ts =>
      let '(c, next) := task_step t (Throw (IOException EmptyString)) c in run_alone n (next ++ ts) c
  | _, _ => c
  end.

Lemma run_alone_nil n c : run_alone n [] c = c.
Proof. now destruct n. Qed.

Lemma run_alone_step n t c :
  t <> TFrames -> t <> TStopAborted ->
  run_alone (S n) [t] c =
  let '(c, next) := task_step t (Throw (IOException EmptyString)) c in run_alone n next c.
Proof. intros Ht Ha. destruct t; try done; cbn [run_alone]; case_step; now rewrite app_nil_r. Qed.

Lemma run_alone_frames n ts c : run_alone (S n) (TFrames :: ts) c = run_alone n ts c.
Proof. done. Qed.

Lemma shutdown_alone n reason c : run_alone (S n) [TShutdown reason] c = (client_shutdown cfg reason c).2.
Proof. rewrite run_alone_step by done. apply run_alone_nil. Qed.

Lemma stop_alone n c : run_alone (S (S (S n))) [TStop] c = (client_stop cfg await c).2.
Proof.
  rewrite run_alone_step by done. cbn [task_step]. unfold client_stop, client_exchange, mbind at 1 3, ST_bind at 1 3.
  unfold mbind, ST_bind. cbn [st_get st_put mret ST_ret]. rewrite run_alone_step by done. cbn [task_step].
  destruct (bool_decide (c_status c = CStopping)); [apply run_alone_nil|].
  destruct (bool_decide (c_status c = CStarted)); [|now rewrite shutdown_alone].
  destruct (close_request await _) as [[[]|e] c']; [now rewrite shutdown_alone | exact (run_alone_nil n c')].
Qed.

(** What follows an exception in [start]. *)
Lemma start_failed_alone n e c :
  run_alone (S (S (S n))) (after (Throw e : outcome exn unit) []) c =
  ((fun e => if is_StreamException e then client_stop cfg await ;; st_throw e else st_throw e) e c : outcome exn unit * Client).2.
Proof.
  cbn [after]. cbv beta. destruct (is_StreamException e); [|apply run_alone_nil].
  rewrite stop_alone. unfold mbind, ST_bind. now destruct (client_stop cfg await c) as [[]].
Qed.

(** [start], with what it throws left out. *)
Lemma start_alone c : run_alone 8 [TStart] c = (client_start cfg await await_tune connect c).2.
Proof.
  rewrite run_alone_step by done. unfold client_start, client_catch, st_catch. cbn [task_step].
  unfold mbind at 1, ST_bind at 1.
  destruct (client_compare_exchange CInitialized CStarting c) as [[[]|e] c0]; [|apply run_alone_nil..].
  rewrite run_alone_step by done. cbn [negb task_step]. unfold mbind at 1, ST_bind at 1.
  destruct (connect c0) as [[[]|e] c1]; [|apply (start_failed_alone 3)].
  cbn [after]. rewrite run_alone_frames, run_alone_step by done. cbn [task_step]. unfold mbind at 1, ST_bind at 1.
  destruct (client_setup cfg await await_tune c1) as [[[]|e] c2]; [|apply (start_failed_alone 1)].
  cbn [after]. rewrite run_alone_step by done. cbn [task_step]. unfold mbind at 1, ST_bind at 1.
  unfold client_compare_exchange, mbind at 1 3, ST_bind at 1 3. cbn [st_get].
  destruct (decide _); [apply run_alone_nil|].
  apply (start_failed_alone 0 (StreamException _)).
Qed.

Lemma frames_ended_alone n reason c : run_alone (S (S n)) [TFramesEnded reason] c = (frames_ended cfg reason c).2.
Proof.
  rewrite run_alone_step by done. cbn [task_step]. unfold frames_ended. unfold mbind at 1, ST_bind at 1.
  destruct (client_compare_exchange _ _ c) as [[[]|e] c']; [apply shutdown_alone | apply run_alone_nil..].
Qed.

Lemma heartbeat_alone n c : run_alone (S (S n)) [THeartbeat] c = (heartbeat_timeout cfg c).2.
Proof.
  rewrite run_alone_step by done. cbn [task_step]. unfold heartbeat_timeout. unfold mbind at 1, ST_bind at 1.
  destruct (client_compare_exchange _ _ c) as [[[]|e] c']; [apply shutdown_alone | apply run_alone_nil..].
Qed.

(** *** Computations that leave the status and the shutdown listener alone *)

Definition is_shutdown (ev : client_event) : bool := match ev with CEvShutdown _ => true | _ => false end.

(** How often the shutdown listener was called. *)
Definition shutdowns (c : Client) : nat := length (List.filter is_shutdown (c_events c)).

Definition same (c c' : Client) : Prop := c_status c' = c_status c /\ shutdowns c' = shutdowns c.

#[global] Instance same_preorder : PreOrder same.
Proof.
  split; [now intros c|]. intros c1 c2 c3 [E1 E2] [E3 E4]. split; congruence.
Qed.

Abbreviation steady := (preserves same).

Lemma steady_client_catch {A} (m : CM A) h : steady m -> (forall e, steady (h e)) -> steady (client_catch m h).
Proof. intros Hm Hh. apply (preserves_catch same); [done|]. intros e. destruct (is_StreamException e); [done | apply (preserves_throw same)]. Qed.

Lemma steady_emit ev : is_shutdown ev = false -> steady (emit ev).
Proof.
  intros He c. split; [done|]. unfold shutdowns. simpl. rewrite List.filter_app. simpl. rewrite He.
  now rewrite app_nil_r.
Qed.

Lemma steady_on_buffer {A} (m : BM A) b : steady (on_buffer m b).
Proof. intros c. unfold on_buffer. now destruct (m b).1. Qed.

Lemma steady_send_frame {T} `{Serializable T} (f : T) : steady (send_frame f).
Proof.
  apply (preserves_get same). intros c. destruct (_ && _); [done|].
  destruct (frame_buffer f empty_buffer) as [[u|e] b]; [|done]. now apply (steady_emit (CEvWrite _)).
Qed.

Lemma steady_drop corr : steady (drop_outstanding_request corr).
Proof. now apply (preserves_modify same). Qed.

Lemma steady_complete corr f : steady (complete_outstanding_request corr f).
Proof.
  apply (preserves_get same). intros c. destruct (bool_decide _); [|done].
  apply (preserves_bind same); [now apply steady_emit|]. intros _. now apply (preserves_modify same).
Qed.

Lemma steady_fail_all : steady fail_all_outstanding_requests.
Proof.
  apply (preserves_get same). intros c. apply (preserves_bind same); [|intros _; now apply (preserves_modify same)].
  apply (preserves_iter same). intros x. now apply steady_emit.
Qed.

Lemma steady_next_correlation : steady next_correlation.
Proof. now apply (preserves_get same). Qed.

Lemma steady_deliver_messages sub ctx offset ms : steady (deliver_messages codec sub ctx offset ms).
Proof.
  revert offset. induction ms as [|m ms IH]; intros offset; simpl; [apply (preserves_ret same)|].
  destruct (codec_decode codec m (lenZ m)); [|apply (preserves_throw same)].
  apply (preserves_bind same); [now apply steady_emit | done].
Qed.

Lemma steady_publish_loop id messages batch size : steady (publish_loop id messages batch size).
Proof.
  revert batch size. induction messages as [|m messages IH]; intros batch size; simpl.
  - apply (preserves_if same); [apply (preserves_ret same)|]. apply (preserves_bind same); [apply steady_send_frame|]. intros _. apply (preserves_ret same).
  - apply (preserves_get same). intros c. destruct (_ && _); [|apply IH].
    apply (preserves_bind same); [apply steady_send_frame|]. intros _. apply IH.
Qed.

Lemma steady_tune b : steady (handle_tune b).
Proof.
  apply (preserves_bind same); [apply steady_on_buffer|]. intros cmd. apply (preserves_get same). intros c.
  apply (preserves_put same); [done|].
  apply (preserves_bind same); [apply steady_send_frame|]. intros _.
  apply (preserves_bind same); [apply (preserves_if same); [apply (preserves_ret same) | now apply steady_emit]|]. intros _.
  apply (preserves_get same). intros c'. now destruct (c_tuned c').
Qed.

Create HintDb steady.
#[local] Hint Resolve steady_on_buffer steady_send_frame steady_drop steady_complete
  steady_next_correlation steady_deliver_messages steady_publish_loop steady_tune : steady.
#[local] Hint Extern 1 (steady (emit _)) => apply steady_emit; reflexivity : steady.
#[local] Hint Extern 1 (steady (st_modify _)) => apply (preserves_modify same); done : steady.
#[local] Hint Extern 1 (steady (client_catch _ _)) => apply steady_client_catch; [|intros ?] : steady.

Lemma steady_handler key version handler b :
  FRAME_HANDLERS cfg codec key version = Some handler -> steady (handler b).
Proof.
  intros Hh. unfold FRAME_HANDLERS in Hh.
  repeat match type of Hh with
    (if ?x then _ else _) = Some _ => destruct x; [injection Hh as <- | ] end; [..|done].
  all: try solve [unfold handle_response; auto with preserves steady].
  all: unfold handle_close, client_publish_confirm, handle_deliver, client_publish_error, client_metadata_update,
    handle_credit, handle_heartbeat; auto 10 with preserves steady.
Qed.

Lemma steady_handle_frame incoming : steady (handle_frame cfg codec incoming).
Proof.
  apply (preserves_catch same).
  - destruct incoming as [b|e]; [|apply (preserves_throw same)]. unfold handle_frame_body.
    destruct (read_frame_header b) as [[[key version]|e] b']; [|apply (preserves_throw same)].
    apply (preserves_get same). intros c. destruct (negb _).
    + destruct (FRAME_HANDLERS _ _ _ _) as [handler|] eqn:E; [|done].
      apply (preserves_bind same); [eapply steady_handler, E|]. auto with preserves steady.
    + destruct (_ && _); [|done]. unfold handle_response. apply (preserves_bind same); auto with preserves steady.
  - intros e. destruct e; auto with preserves steady.
Qed.

(** What happens to the client while a thread waits for a response, the tune
    frame or the connection, the tasks of the other threads apart. *)
Context (Hawait : forall corr, steady (await corr)) (Htune : steady await_tune) (Hconnect : steady connect).

Lemma steady_wait_response {T R} `{ClientRequestOrResponse T} (cast : ServerFrame -> option R) (request : T) :
  steady (send_request_wait_response await cast request).
Proof.
  unfold send_request_wait_response, send_request. apply (preserves_bind same); [|auto with preserves steady].
  apply steady_client_catch; [|auto with preserves steady]. apply (preserves_bind same); [|auto].
  apply (preserves_get same). intros c. destruct (bool_decide _); [done|].
  apply (preserves_put same); [done|]. auto with preserves steady.
Qed.

Lemma steady_check_response {T R} `{ClientRequestOrResponse T, HasResponseCode R}
    (cast : ServerFrame -> option R) (request : T) : steady (send_request_check_response_code await cast request).
Proof. apply (preserves_bind same); [apply steady_wait_response | auto with preserves steady]. Qed.

Lemma steady_simple_request {T} `{ClientRequestOrResponse T} (mk : Z -> T) : steady (simple_request await mk).
Proof. apply (preserves_bind same); [auto with preserves steady|]. intros corr. apply (preserves_bind same); [apply steady_check_response | auto with preserves steady]. Qed.

#[local] Hint Resolve steady_wait_response steady_check_response steady_simple_request : steady.

Lemma steady_call call : steady (run_call call).
Proof.
  destruct call; simpl; unfold discard, metadata, declare_publisher, query_publisher_sequence, query_offset,
    store_offset, publish, check_reference, queried; auto 10 with preserves steady.
  all: unfold delete_publisher, create_stream, delete_stream, subscribe, unsubscribe, Client.credit, publish_encoded;
    auto with preserves steady.
Qed.

Lemma steady_setup : steady (client_setup cfg await await_tune).
Proof.
  unfold client_setup, peer_properties, authenticate, sasl_handshake, open_connection.
  repeat (apply (preserves_bind same); [auto 10 with preserves steady|]; intros ?).
  apply (preserves_get same). intros c. destruct (negb _); [done|].
  apply (preserves_catch same); [auto with preserves steady|]. auto with preserves steady.
Qed.

Lemma steady_close_request : steady (close_request await).
Proof. unfold close_request. auto with preserves steady. Qed.

(** *** Interleavings *)

Record lstate := MkLState {
  ls_client : Client;
  ls_tasks : list task;
  ls_started : bool
}.

(** What may begin at any time: calls of the user, and the idle timer. *)
Definition spontaneous (t : task) : bool :=
  match t with TStart | TStop | THeartbeat | TCall _ => true | _ => false end.

Definition ls_init : lstate := MkLState (new_Client cfg) [] false.

(** [ls_started] remembers that the client was once started. *)
Inductive lstep : lstate -> lstate -> Prop :=
| LBegin t s :
    spontaneous t = true ->
    lstep s (MkLState (ls_client s) (t :: ls_tasks s) (ls_started s))
| LRun t ts ts' incoming c started c' next :
    task_step t incoming c = (c', next) ->
    lstep (MkLState c (ts ++ t :: ts') started)
          (MkLState c' (next ++ ts ++ ts') (started || bool_decide (c_status c' = CStarted))).

Definition lreachable (s : lstate) : Prop := rtc lstep ls_init s.

(** The calls of the listener that a task owes. *)
Definition owes (t : task) : nat :=
  match t with
  | TStopping CStarted | TStopAborted | TShutdown (Some _) => 1
  | _ => 0
  end.

Definition owed (ts : list task) : nat := sum_list_with owes ts.

Lemma owed_app ts ts' : owed (ts ++ ts') = (owed ts + owed ts')%nat.
Proof. apply sum_list_with_app. Qed.

Definition stopped (c : Client) (started : bool) : nat :=
  if started && bool_decide (c_status c = CStopping) then 1%nat else 0%nat.

Definition linv (s : lstate) : Prop :=
  (shutdowns (ls_client s) + owed (ls_tasks s) = stopped (ls_client s) (ls_started s))%nat /\
  (c_status (ls_client s) = CStarted -> ls_started s = true) /\
  (ls_started s = true -> c_status (ls_client s) = CStarted \/ c_status (ls_client s) = CStopping).

Context (Hlistener : cfg_shutdown_listener cfg = true).

Lemma fail_all_returns c : (fail_all_outstanding_requests c).1 = Val tt.
Proof.
  unfold fail_all_outstanding_requests. unfold mbind at 1, ST_bind at 1. cbn [st_get].
  now rewrite (ST_bind_Val _ _ _ _ _ (emits_iter CEvRequestFailed _ c)).
Qed.

Lemma shutdown_counts reason c :
  c_status (client_shutdown cfg reason c).2 = c_status c /\
  shutdowns (client_shutdown cfg reason c).2 = (shutdowns c + owes (TShutdown reason))%nat.
Proof.
  assert (exists c1, same c c1 /\ client_shutdown cfg reason c =
    match reason with Some r => emit (CEvShutdown r) c1 | None => (Val tt, c1) end) as (c1 & [E1 E2] & ->).
  { unfold client_shutdown. set (c0 := with_events (c_events c ++ [CEvConnectionShutdown]) c).
    exists (fail_all_outstanding_requests c0).2. split.
    - transitivity c0; [exact (steady_emit CEvConnectionShutdown eq_refl c) | apply steady_fail_all].
    - rewrite (ST_bind_Val _ _ _ tt c0) by done.
      rewrite (ST_bind_Val _ _ _ tt (fail_all_outstanding_requests c0).2);
        [|rewrite <- (fail_all_returns c0); apply surjective_pairing].
      rewrite Hlistener. now destruct reason. }
  destruct reason; simpl; [|split; [done | lia]]. split; [done|].
  rewrite <- E2. unfold shutdowns. simpl. rewrite List.filter_app, length_app. simpl. lia.
Qed.

(** [started_to_stopping] is 1 when the status went from started to stopping. *)
Definition started_to_stopping (c c' : Client) : nat :=
  if bool_decide (c_status c = CStarted) && bool_decide (c_status c' = CStopping) then 1%nat else 0%nat.

Definition status_moves (c c' : Client) : Prop :=
  c_status c' = c_status c \/ c_status c' = CStopping \/
  (c_status c = CInitialized /\ c_status c' = CStarting) \/
  (c_status c = CStarting /\ c_status c' = CStarted).

(** Each task moves the status along, and takes over the calls it owed. *)
Definition task_ok (t : task) (c : Client) (p : Client * list task) : Prop :=
  status_moves c p.1 /\
  (shutdowns p.1 + owed p.2 = shutdowns c + owes t + started_to_stopping c p.1)%nat.

Lemma same_no_move c c' : same c c' -> started_to_stopping c c' = 0%nat.
Proof. intros [E _]. unfold started_to_stopping. rewrite E. now destruct (c_status c). Qed.

Lemma task_ok_same t c c' next : same c c' -> owed next = owes t -> task_ok t c (c', next).
Proof.
  intros Hs Ho. unfold task_ok. simpl. rewrite (same_no_move c c' Hs). destruct Hs as [E1 E2].
  split; [now left | lia].
Qed.

Lemma task_ok_cas t c expected desired (next_true next_false : list task) :
  status_moves (with_status expected c) (with_status desired c) -> owes t = 0%nat -> owed next_false = 0%nat ->
  owed next_true = started_to_stopping (with_status expected c) (with_status desired c) ->
  task_ok t c match client_compare_exchange expected desired c with
              | (Val true, c) => (c, next_true) | (_, c) => (c, next_false) end.
Proof.
  intros Hm Ht Hf Hn. unfold client_compare_exchange, mbind, ST_bind. cbn [st_get].
  destruct (decide (c_status c = expected)) as [<-|Hne]; simpl; [|apply task_ok_same; congruence || done].
  assert (with_status (c_status c) c = c) as Ec by now destruct c. rewrite Ec in *. split; [done|].
  simpl. change (shutdowns (with_status desired c)) with (shutdowns c). lia.
Qed.

Lemma owed_after {A} (r : outcome exn A) next : owed next = 0%nat -> owed (after r next) = 0%nat.
Proof. intros Hn. destruct r; simpl; [done|]. now destruct (is_StreamException e). Qed.

Lemma task_step_ok t incoming c : task_ok t c (task_step t incoming c).
Proof.
  destruct t; cbn [task_step].
  - apply task_ok_cas; [|done..]. right; right; now left.
  - pose proof (Hconnect c) as Hq. destruct (connect c) as [r c']. apply task_ok_same; [done|]. now apply owed_after.
  - pose proof (steady_setup c) as Hq. destruct (client_setup _ _ _ c) as [r c'].
    apply task_ok_same; [done|]. now apply owed_after.
  - apply task_ok_cas; [|done..]. right; right; now right.
  - split; [right; now left|]. simpl. unfold started_to_stopping. simpl.
    change (shutdowns (with_status CStopping c)) with (shutdowns c). destruct (c_status c); simpl; lia.
  - destruct previous; simpl; try now apply task_ok_same.
    pose proof (steady_close_request c) as Hq. destruct (close_request await c) as [[[]|e] c'];
      now apply task_ok_same.
  - now apply task_ok_same.
  - pose proof (steady_handle_frame incoming c) as Hq.
    destruct (handle_frame cfg codec incoming c) as [[[reason|]|e] c']; now apply task_ok_same.
  - apply task_ok_cas; [|done..]. right; now left.
  - apply task_ok_cas; [|done..]. right; now left.
  - destruct (shutdown_counts reason c) as [E1 E2]. split; [now left|].
    cbn [fst snd]. rewrite E2. unfold started_to_stopping. rewrite E1.
    change (owed []) with 0%nat. destruct (c_status c); simpl; lia.
  - apply task_ok_same; [apply steady_call | done].
Qed.

Lemma linv_step s s' : linv s -> lstep s s' -> linv s'.
Proof.
  intros Hs Hl. revert Hs. destruct Hl as [t s0 Ht|t ts ts' incoming c started c' next E]; intros Hs.
  - destruct t; discriminate || exact Hs.
  - pose proof (task_step_ok t incoming c) as [Hm Hc]. rewrite E in Hm, Hc. simpl in Hm, Hc.
    destruct Hs as (Hn & Hst & Hss). unfold linv, stopped in *. simpl in *.
    rewrite !owed_app in *. simpl in Hn. fold (owed ts') in Hn.
    unfold started_to_stopping in Hc. unfold status_moves in Hm.
    destruct (c_status c) eqn:Es, (c_status c') eqn:Es', started; simpl in *;
      try (destruct Hm as [?|[?|[[? ?]|[? ?]]]]; discriminate);
      try (destruct (Hss eq_refl); discriminate); try (specialize (Hst eq_refl); discriminate);
      (split; [lia|]; split; intros; auto; discriminate).
Qed.

Lemma linv_reachable s : lreachable s -> linv s.
Proof.
  intros Hr. unfold lreachable in Hr. cut (linv ls_init).
  - induction Hr; eauto using linv_step.
  - split; [done|]. split; discriminate.
Qed.

(** C18: however the calls of [start] and [stop], the frame thread, the idle timer
    and the other operations interleave, the shutdown listener is called at most
    once, only for a client that was started, and only when it is stopping; once
    no thread has the call before it, it was called exactly when the client
    was started and then left. *)
Theorem shutdown_notified_once s :
  lreachable s ->
  let c := ls_client s in
  (shutdowns c <= 1)%nat /\
  (shutdowns c = 1%nat -> ls_started s = true /\ c_status c = CStopping) /\
  (owed (ls_tasks s) = 0%nat ->
   shutdowns c = if ls_started s && bool_decide (c_status c = CStopping) then 1%nat else 0%nat).
Proof.
  intros Hr c. destruct (linv_reachable s Hr) as (Hn & _ & _). fold c in Hn. unfold stopped in Hn.
  destruct (ls_started s), (bool_decide_reflect (c_status c = CStopping)); simpl in *;
    (split; [lia|]; split; [|lia]); auto; lia.
Qed.

(** A run of the system, step by step. *)
Inductive laction :=
| ABegin (t : task)
| ARun (i : nat) (incoming : outcome exn BinaryBuffer).

Definition lrun (a : laction) (s : lstate) : lstate :=
  match a with
  | ABegin t =>
      if spontaneous t then MkLState (ls_client s) (t :: ls_tasks s) (ls_started s) else s
  | ARun i incoming =>
      match ls_tasks s !! i with
      | Some t =>
          let '(c, next) := task_step t incoming (ls_client s) in
          MkLState c (next ++ take i (ls_tasks s) ++ drop (S i) (ls_tasks s))
                   (ls_started s || bool_decide (c_status c = CStarted))
      | None => s
      end
  end.

Definition lexec (script : list laction) (s : lstate) : lstate := fold_left (fun s a => lrun a s) script s.

Lemma lrun_steps a s : rtc lstep s (lrun a s).
Proof.
  destruct a as [t|i incoming]; simpl.
  - destruct (spontaneous t) eqn:Ht; [|done]. now apply rtc_once, LBegin.
  - destruct (ls_tasks s !! i) as [t|] eqn:Et; [|done].
    destruct (task_step t incoming (ls_client s)) as [c next] eqn:E. apply rtc_once.
    destruct s as [c0 ts started]. simpl in *. rewrite <- (take_drop_middle ts i t Et) at 1. now eapply LRun, E.
Qed.

Lemma lexec_reachable script s : lreachable s -> lreachable (lexec script s).
Proof.
  revert s. induction script as [|a script IH]; intros s Hs; [done|]. simpl. apply IH.
  unfold lreachable. etransitivity; [exact Hs | apply lrun_steps].
Qed.

End lifecycle.

(** ** Concrete runs *)

Definition example_response (corr : Z) : ServerFrame :=
  if corr =? 1 then SPeerProperties (MkPeerPropertiesResponse corr 1 [])
  else if corr =? 2 then SSaslHandshake (MkSaslHandshakeResponse corr 1 ["PLAIN"%string])
  else if corr =? 3 then SSaslAuthenticate (MkSaslAuthenticateResponse corr 1 [])
  else if corr =? 4 then SOpen (MkOpenResponse corr 1 [])
  else SGeneric (MkGenericResponse corr 1).

(** A broker that answers every request at once. *)
Definition example_await (corr : Z) : CM ServerFrame :=
  complete_outstanding_request corr (example_response corr) ;; mret (example_response corr).

Lemma example_await_steady corr : preserves same (example_await corr).
Proof. apply (preserves_bind same); [apply steady_complete|]. intros _. apply (preserves_ret same). Qed.

Definition example_init : lstate := ls_init example_client_config.
Definition example_exec (script : list laction) : lstate :=
  lexec example_client_config MkRawCodec example_await (mret tt) (mret tt) script example_init.

(** Start, stop while the connection fails. *)
Definition stop_script : list laction :=
  let io := Throw (IOException "reset") in
  [ABegin TStart; ARun 0 io; ARun 0 io; ARun 1 io; ARun 0 io; ABegin TStop; ARun 0 io; ARun 1 io; ARun 0 io;
   ARun 0 io; ARun 0 io].

Lemma shutdown_notified_once_witness :
  let s := example_exec stop_script in
  ls_tasks s = [] /\ ls_started s = true /\ c_status (ls_client s) = CStopping /\ shutdowns (ls_client s) = 1%nat.
Proof.
  split; [vm_compute; reflexivity|]. split; [vm_compute; reflexivity|]. split; [vm_compute; reflexivity|].
  apply (shutdown_notified_once example_client_config MkRawCodec example_await (mret tt) (mret tt)
           example_await_steady (preserves_ret same tt) (preserves_ret same tt) eq_refl (example_exec stop_script)).
  - apply lexec_reachable. apply rtc_refl.
  - vm_compute. reflexivity.
Defined.

(** The frame thread that sees the connection fail before [start] has set
    the status to started ends without telling anybody: the client becomes
    started, no thread reads from the connection and the shutdown listener is
    not called. *)
Theorem lost_while_starting_not_notified :
  exists s, lreachable example_client_config MkRawCodec example_await (mret tt) (mret tt) s /\
    c_status (ls_client s) = CStarted /\ ls_tasks s = [] /\ shutdowns (ls_client s) = 0%nat.
Proof.
  set (io := Throw (IOException "reset") : outcome exn BinaryBuffer).
  exists (example_exec [ABegin TStart; ARun 0 io; ARun 0 io; ARun 1 io; ARun 1 io; ARun 0 io; ARun 0 io]).
  split; [apply lexec_reachable, rtc_refl | vm_compute; done].
Qed.
