(* ===== verification/ClientTeardown.v ===== *)
(** * The destructor of a client and the thread that handles frames

    Models the threads of [ClientImpl::stop], [ClientImpl::~ClientImpl] and
    [ClientImpl::handle_frames] of [src/client_impl.cpp].  The frame thread waits
    for the futures of [Connection::read]; the destructor joins it, unless it
    runs on it.  The futures are completed by handlers of the connection's
    strand, which run one at a time: what the destructor does depends on where
    the last reference to the client is dropped, and on whether a listener that
    the frame thread is in waits for a mutex held there.  On the frame thread
    itself the reference is dropped in the shutdown listener, as the listeners of
    the library do. *)

From S2P Require Import Prelude Words OrdMap Types BinaryBuffer Connection ConnectionStreams.

(** Where the destructor runs: in the shutdown listener called by the frame
    thread, in the one called by the reader's idle handler, or anywhere else. *)
Inductive executor := FrameThread | Strand | OtherThread.

#[export] Instance executor_eq_dec : EqDecision executor.
Proof. solve_decision. Defined.

(** The statements of [shutdown] and of the end of [handle_frames], and whether one
    is on a member of the client. *)
Inductive client_stmt :=
| StExchangeStatus
| StLog
| StConnectionShutdown
| StFailRequests
| StCallListener.

#[export] Instance client_stmt_eq_dec : EqDecision client_stmt.
Proof. solve_decision. Defined.

Definition touches (s : client_stmt) : bool :=
  match s with StLog => false | StExchangeStatus | StConnectionShutdown | StFailRequests | StCallListener => true end.

Definition shutdown_body : list client_stmt := [StConnectionShutdown; StFailRequests; StCallListener].

(** [handle_frames] after its loop, with [shutdown] in place of its call. *)
Definition frames_tail : list client_stmt := [StExchangeStatus; StLog] ++ shutdown_body.

(** What is left once the listener returns. *)
Fixpoint after_listener (stmts : list client_stmt) : list client_stmt :=
  match stmts with
  | [] => []
  | StCallListener :: rest => rest
  | _ :: rest => after_listener rest
  end.

(** The frame thread: before its [p]-th call of [read]; waiting for its future; in
    the handler of the frame that it got, or in a listener called there, which
    may want the mutex of the producer, the consumer or the environment
    ([locks]); after the loop, at the exchange of [m_status]; in the destructor,
    which the listener called by its own [shutdown] runs; after the return of that
    listener, with the statements that are left; at its end. *)
Inductive frame_pc :=
| FCall (p : nat)
| FReading (p : nat)
| FHandling (p : nat) (locks : bool)
| FTail
| FDestructor
| FReturning (rest : list client_stmt)
| FEnded.

(** Whether what the thread does next is on a member of the client. *)
Definition frame_uses (f : frame_pc) : bool :=
  match f with
  | FCall _ | FReading _ | FHandling _ _ | FTail | FDestructor => true
  | FReturning rest => existsb touches rest
  | FEnded => false
  end.

#[export] Instance frame_pc_eq_dec : EqDecision frame_pc.
Proof. solve_decision. Defined.

(** Before [Connection::shutdown], which [ClientImpl::shutdown] calls: the one whose
    listener drops the client, or the one of the destructor's own [stop]; at
    [join]; at [detach]; returned. *)
Inductive teardown_pc := TdShutdown | TdJoin | TdDetach | TdReturned.

#[export] Instance teardown_pc_eq_dec : EqDecision teardown_pc.
Proof. solve_decision. Defined.

(** [td_joinable] is [m_frame_handling_thread.joinable()]. *)
Record teardown := MkTeardown {
  td_connection : Connection;
  td_frame : frame_pc;
  td_joinable : bool;
  td_pc : teardown_pc
}.

(** What the future of a read holds, if it is ready. *)
Definition result_of (p : nat) (ev : conn_event) : list (outcome exn BinaryBuffer) :=
  match ev with KRead q r => if decide (p = q) then [r] else [] | _ => [] end.
Definition read_result (p : nat) (k : Connection) : option (outcome exn BinaryBuffer) :=
  head (flat_map (result_of p) (k_events k)).

(** [held]: the thread that runs the destructor holds the mutex that listeners
    take. *)
Section teardown.
Context (on : executor) (held : bool).

(** While the destructor runs in a handler of the strand no other one does. *)
Definition strand_free (td : teardown) : bool := negb (bool_decide (on = Strand)) || bool_decide (td_pc td = TdReturned).

(** [Connection::shutdown], which dispatches to the strand: at once on the strand
    itself, else when it is free. *)
Definition teardown_shutdown (td : teardown) : option teardown :=
  if bool_decide (td_pc td = TdShutdown) then
    Some (MkTeardown (conn_shutdown (td_connection td)).2 (td_frame td) (td_joinable td)
            (if bool_decide (on = FrameThread) then TdDetach else TdJoin))
  else None.

(** The socket is closed, and the read under way ends with an error. *)
Definition read_aborted (ec : string) (td : teardown) : option teardown :=
  if strand_free td && negb (bool_decide (td_pc td = TdShutdown)) then
    match k_reading (td_connection td) with
    | Some (RHeader b) =>
        Some (MkTeardown (header_done b (Throw ec) (td_connection td)).2 (td_frame td) (td_joinable td) (td_pc td))
    | Some (RBody b) =>
        Some (MkTeardown (body_done b (Throw ec) (td_connection td)).2 (td_frame td) (td_joinable td) (td_pc td))
    | None => None
    end
  else None.

(** [handle_frames] of a client that is stopping.  A handler that was called before
    goes on unless it waits for the mutex; it returns or throws, and an
    exception may end the loop ([over]).  A frame that arrives now is skipped, but
    the response to the close request ends the loop ([over]).  After the loop
    the exchange of [m_status] finds a client that is stopping.  The thread
    whose own [shutdown] called the listener goes through what is left. *)
Definition frame_step (over : bool) (td : teardown) : option teardown :=
  let goes k f := Some (MkTeardown k f (td_joinable td) (td_pc td)) in
  match td_frame td with
  | FCall p => if strand_free td then goes (conn_read p (td_connection td)).2 (FReading p) else None
  | FReading p =>
      match read_result p (td_connection td) with
      | None => None
      | Some (Throw _) => goes (td_connection td) FTail
      | Some (Val _) => goes (td_connection td) (if over then FTail else FCall (S p))
      end
  | FHandling p locks =>
      if locks && held && negb (bool_decide (td_pc td = TdReturned)) then None
      else goes (td_connection td) (if over then FTail else FCall (S p))
  | FTail => goes (td_connection td) FEnded
  | FReturning (_ :: rest) => goes (td_connection td) (FReturning rest)
  | FReturning [] => goes (td_connection td) FEnded
  | FDestructor | FEnded => None
  end.

Definition join_step (td : teardown) : option teardown :=
  if bool_decide (td_pc td = TdJoin) && bool_decide (td_frame td = FEnded)
  then Some (MkTeardown (td_connection td) FEnded false TdReturned) else None.

(** [detach], on the frame thread: the destructor returns into the listener and
    from there into [shutdown] and [handle_frames]. *)
Definition detach_step (td : teardown) : option teardown :=
  if bool_decide (td_pc td = TdDetach)
  then Some (MkTeardown (td_connection td) (FReturning (after_listener frames_tail)) false TdReturned) else None.

Inductive teardown_step : teardown -> teardown -> Prop :=
| TdsShutdown td td' : teardown_shutdown td = Some td' -> teardown_step td td'
| TdsAborted ec td td' : read_aborted ec td = Some td' -> teardown_step td td'
| TdsFrame over td td' : frame_step over td = Some td' -> teardown_step td td'
| TdsJoin td td' : join_step td = Some td' -> teardown_step td td'
| TdsDetach td td' : detach_step td = Some td' -> teardown_step td td'.

(** ** The invariant

    A read is pending only for the frame thread, while the connection reads. *)

Definition fresh_from (p : nat) (k : Connection) : Prop := forall q, (p <= q)%nat -> read_result q k = None.

Record reads_ok (k : Connection) (frame : frame_pc) : Prop := MkReadsOk {
  ro_live : k_failed k = false -> k_reading k <> None;
  ro_pending q : k_pending_read k = Some q -> frame = FReading q /\ k_reading k <> None /\ read_result q k = None;
  ro_frame : match frame with
             | FCall p => fresh_from p k
             | FReading p => fresh_from (S p) k /\ (k_pending_read k = Some p \/ read_result p k <> None)
             | FHandling p _ => fresh_from (S p) k
             | FTail | FDestructor | FReturning _ | FEnded => True
             end
}.

Definition teardown_ok (td : teardown) : Prop :=
  reads_ok (td_connection td) (td_frame td) /\
  (td_frame td = FDestructor <-> on = FrameThread /\ td_pc td <> TdReturned) /\
  (td_pc td = TdJoin -> on <> FrameThread) /\ (td_pc td = TdDetach -> on = FrameThread) /\
  (td_pc td = TdReturned -> td_joinable td = false /\ frame_uses (td_frame td) = false) /\
  (forall rest, td_frame td = FReturning rest -> td_pc td = TdReturned).

(** The destructor begins. *)
Definition teardown_begins (td : teardown) : Prop :=
  td_pc td = TdShutdown /\ td_joinable td = true /\ reads_ok (td_connection td) (td_frame td) /\
  (td_frame td = FDestructor <-> on = FrameThread) /\ (forall rest, td_frame td <> FReturning rest).

Lemma teardown_begins_ok td : teardown_begins td -> teardown_ok td.
Proof.
  intros (Epc & _ & Hr & Hf & Hn). unfold teardown_ok. rewrite Epc, Hf. split_and!; [done | | done..|by intros rest ?%Hn]. by intuition.
Qed.

(** A bound on the steps that are left: those of the frame thread, which has the
    inbox to go through, the read under way and the destructor's. *)
Definition frame_measure (k : Connection) (frame : frame_pc) : nat :=
  match frame with
  | FCall _ => 3 * length (k_inbox k) + 4
  | FReading p =>
      match read_result p k with
      | Some (Val _) => 3 * length (k_inbox k) + 5
      | Some (Throw _) => 2
      | None => 3
      end
  | FHandling _ _ => 3 * length (k_inbox k) + 5
  | FDestructor => S (S (length (after_listener frames_tail)))
  | FTail => 1
  | FReturning rest => S (length rest)
  | FEnded => 0
  end.

Definition teardown_measure (td : teardown) : nat :=
  frame_measure (td_connection td) (td_frame td) +
  match k_reading (td_connection td) with Some _ => 1 | None => 0 end +
  match td_pc td with TdShutdown => 2 | TdJoin | TdDetach => 1 | TdReturned => 0 end.

Lemma read_result_emit p ev k :
  read_result p (set_k_events (k_events k ++ [ev]) k) =
  match read_result p k with Some r => Some r | None => head (result_of p ev) end.
Proof.
  unfold read_result. simpl. rewrite flat_map_app. simpl. rewrite app_nil_r.
  by destruct (flat_map (result_of p) (k_events k)).
Qed.

Lemma result_of_read p q r : head (result_of p (KRead q r)) = if decide (p = q) then Some r else None.
Proof. unfold result_of. by destruct (decide (p = q)). Qed.

(** The connection after its shutdown reads as before. *)
Lemma shutdown_reads_ok k frame :
  reads_ok k frame ->
  reads_ok (conn_shutdown k).2 frame /\ frame_measure (conn_shutdown k).2 frame = frame_measure k frame /\
  k_reading (conn_shutdown k).2 = k_reading k.
Proof.
  intros [H1 H2 H3]. assert (forall p, read_result p (conn_shutdown k).2 = read_result p k) as Er.
  { intros p. change (read_result p (set_k_events (k_events k ++ [KCloseSocket]) k) = read_result p k).
    rewrite read_result_emit. simpl. by destruct (read_result p k). }
  split; [|split; [|done]].
  - constructor; [done | |].
    + intros q Hq. rewrite Er. by apply H2.
    + destruct frame; try done; unfold fresh_from; setoid_rewrite Er; done.
  - unfold frame_measure. destruct frame; try done. by rewrite Er.
Qed.

(** The failure of the read under way. *)
Definition failed_connection (ec : string) (k : Connection) : Connection := (read_failed ec (set_k_reading None k)).2.

Lemma aborted_reads_ok ec k frame :
  reads_ok k frame -> k_reading k <> None ->
  reads_ok (failed_connection ec k) frame /\
  (frame_measure (failed_connection ec k) frame <= frame_measure k frame)%nat /\
  k_reading (failed_connection ec k) = None.
Proof.
  intros [H1 H2 H3] Hr. unfold failed_connection, read_failed, mbind, ST_bind. simpl.
  destruct (k_pending_read k) as [q|] eqn:Eq; simpl.
  - destruct (H2 q eq_refl) as (-> & _ & Hn). destruct H3 as [Hfresh _].
    match goal with |- reads_ok ?x _ /\ _ => set (k' := x) end.
    assert (forall p, read_result p k' = match read_result p k with Some r => Some r | None => if decide (p = q) then Some (Throw (IOException ec)) else None end) as Er.
    { intros p. pose proof (read_result_emit p (KRead q (Throw (IOException ec))) k) as E. by rewrite result_of_read in E. }
    split; [|split; [|done]].
    + constructor; simpl; [done | done|]. split; [|right; rewrite Er, Hn, decide_True by done; done].
      intros p Hp. rewrite Er, Hfresh, decide_False by lia. done.
    + simpl. rewrite Er, Hn, decide_True by done. lia.
  - split; [|split; [|done]].
    + constructor; simpl; [done | by rewrite Eq|]. destruct frame; try done.
      destruct H3 as [Hf [H3|H3]]; [done|]. by split; [|right].
    + by destruct frame.
Qed.

(** A call of [read]. *)
Lemma read_reads_ok p k :
  reads_ok k (FCall p) ->
  reads_ok (conn_read p k).2 (FReading p) /\
  (frame_measure (conn_read p k).2 (FReading p) < frame_measure k (FCall p))%nat /\
  k_reading (conn_read p k).2 = k_reading k.
Proof.
  intros [H1 H2 H3]. simpl in H3. pose proof (H3 p (le_n p)) as Hn. unfold conn_read, mbind, ST_bind. simpl.
  assert (forall r q, read_result q (set_k_events (k_events k ++ [KRead p r]) k) =
          match read_result q k with Some r => Some r | None => if decide (q = p) then Some r else None end) as Er.
  { intros r q. by rewrite read_result_emit, result_of_read. }
  assert (forall r, fresh_from (S p) (set_k_events (k_events k ++ [KRead p r]) k)) as Hf.
  { intros r q Hq. rewrite Er, H3, decide_False by lia. done. }
  destruct (k_pending_read k) as [q|] eqn:Eq; [by destruct (H2 q eq_refl)|].
  destruct (k_inbox k) as [|b inbox] eqn:Ei; [destruct (k_failed k) eqn:Ef|]; simpl.
  - specialize (Er (Throw (IOException "Connection failed unexpectedly")) p). rewrite Hn, decide_True in Er by done.
    split; [|split; [|done]]; [|by rewrite Er; lia]. constructor; simpl; [by rewrite Ef | by rewrite Eq|].
    split; [apply Hf | right; by rewrite Er].
  - change (read_result p (set_k_pending_read (Some p) k)) with (read_result p k). rewrite Hn.
    split; [|split; [lia | done]]. constructor; simpl; [by rewrite Ef in * |by intros q [= <-]; auto|].
    split; [|by left]. intros q Hq. by apply H3; lia.
  - specialize (Er (Val b) p). rewrite Hn, decide_True in Er by done.
    match goal with |- reads_ok ?x _ /\ _ => set (k' := x) end.
    assert (read_result p k' = Some (Val b)) as Er' by exact Er.
    split; [|split; [|done]]; [|by simpl; rewrite Er'; simpl; lia]. constructor; simpl; [done | by rewrite Eq|].
    split; [apply (Hf (Val b)) | right; by rewrite Er'].
Qed.

Lemma aborted_connection ec td td' :
  read_aborted ec td = Some td' ->
  strand_free td = true /\ k_reading (td_connection td) <> None /\
  td' = MkTeardown (failed_connection ec (td_connection td)) (td_frame td) (td_joinable td) (td_pc td).
Proof.
  unfold read_aborted. destruct (strand_free td); [|done]. destruct (bool_decide _); [done|]. simpl.
  destruct (k_reading (td_connection td)) as [[b|b]|]; intros E; by simplify_eq.
Qed.

(** The members of the system, without the connection's handlers. *)
Ltac td_simpl := cbn [td_connection td_frame td_joinable td_pc].

(** A step of the frame thread. *)
Lemma frame_step_ok over td td' :
  teardown_ok td -> frame_step over td = Some td' -> teardown_ok td' /\ (teardown_measure td' < teardown_measure td)%nat.
Proof.
  intros (Hr & Hd & Hj & Ht & Hret & Hfr) E.
  assert (forall k f, Some (MkTeardown k f (td_joinable td) (td_pc td)) = Some td' ->
    frame_uses (td_frame td) = true -> td_frame td <> FDestructor -> f <> FDestructor -> (forall rest, f <> FReturning rest) ->
    reads_ok k f -> k_reading k = k_reading (td_connection td) ->
    (frame_measure k f < frame_measure (td_connection td) (td_frame td))%nat ->
    teardown_ok td' /\ (teardown_measure td' < teardown_measure td)%nat) as Hgo.
  { intros k f Ef Hu Hnd Hf1 Hf2 Hk Ek Hm. apply (inj Some) in Ef. subst td'. unfold teardown_ok, teardown_measure. td_simpl.
    rewrite Ek. split; [|lia]. split_and!; [done | | done | done | |by intros rest ?%Hf2].
    - split; [done|]. intros Hx. by apply Hd in Hx.
    - intros Epc. destruct (Hret Epc) as [_ Hx]. congruence. }
  unfold frame_step in E. destruct (td_frame td) as [p|p|p locks| | |rest|] eqn:Ef; [| | | |done | |done].
  - destruct (strand_free td); [|done]. destruct (read_reads_ok p _ Hr) as (Hr' & Hm & Ek).
    eapply Hgo; [exact E | done..| exact Hr' | exact Ek | exact Hm].
  - destruct Hr as [G1 G2 [G3 G4]].
    assert (forall f, read_result p (td_connection td) <> None -> (f = FTail \/ f = FCall (S p)) -> reads_ok (td_connection td) f) as Hok.
    { intros f Hne Hf. constructor; [done | |by destruct Hf as [->| ->]].
      intros q Hq. destruct (G2 q Hq) as ([= <-] & _ & Hn). by destruct Hne. }
    destruct (read_result p (td_connection td)) as [[b|e]|] eqn:Er; [| |done].
    + destruct over; (eapply Hgo; [exact E | done..| apply Hok; [done | auto] | done | simpl; rewrite Er; lia]).
    + eapply Hgo; [exact E | done..| apply Hok; [done | auto] | done | simpl; rewrite Er; lia].
  - destruct (_ && _); [done|]. destruct Hr as [G1 G2 G3].
    assert (forall f, f = FTail \/ f = FCall (S p) -> reads_ok (td_connection td) f) as Hok.
    { intros f Hf. constructor; [done | |by destruct Hf as [->| ->]]. intros q Hq. by destruct (G2 q Hq) as ([=] & _). }
    destruct over; (eapply Hgo; [exact E | done..| apply Hok; auto | done | simpl; lia]).
  - destruct Hr as [G1 G2 G3]. eapply Hgo; [exact E | done..| | done | simpl; lia].
    constructor; [done | |done]. intros q Hq. by destruct (G2 q Hq) as ([=] & _).
  - pose proof (Hfr rest eq_refl) as Epc. destruct (Hret Epc) as [Hnj Hu].
    assert (forall f, (f = FEnded \/ exists rest', f = FReturning rest') -> reads_ok (td_connection td) f) as Hok.
    { intros f Hf. destruct Hr as [G1 G2 G3]. constructor; [done | |by destruct Hf as [->|[? ->]]].
      intros q Hq. by destruct (G2 q Hq) as ([=] & _). }
    unfold teardown_ok, teardown_measure. rewrite Ef.
    destruct rest as [|s rest]; apply (inj Some) in E; subst td'; td_simpl; rewrite Epc; (split; [|simpl; lia]);
      (split_and!; [apply Hok; eauto | by split; [|intros [_ ?]] | done..| |done]); intros _; split; [done..|].
    simpl in Hu. by apply orb_false_iff in Hu as [_ Hu].
Qed.

Lemma teardown_step_ok td td' :
  teardown_ok td -> teardown_step td td' -> teardown_ok td' /\ (teardown_measure td' < teardown_measure td)%nat.
Proof.
  intros Hok Hs. pose proof Hok as (Hr & Hd & Hj & Ht & Hret & Hfr). unfold teardown_ok, teardown_measure.
  destruct Hs as [td td' E|ec td td' E|over td td' E|td td' E|td td' E].
  - unfold teardown_shutdown in E. case_bool_decide as Epc; [|done]. apply (inj Some) in E; subst td'. td_simpl. rewrite Epc in *.
    destruct (shutdown_reads_ok _ _ Hr) as (Hr' & Em & Ek). rewrite Em, Ek. case_bool_decide as Eon.
    + split; [|lia]. split_and!; [done | | done | done | done | by intros ? ?%Hfr]. rewrite Hd. by split; intros [? _].
    + split; [|lia]. split_and!; [done | | done | done | done | by intros ? ?%Hfr]. rewrite Hd. by split; intros [? _].
  - apply aborted_connection in E as (_ & Hk & ->). td_simpl.
    destruct (aborted_reads_ok ec _ _ Hr Hk) as (Hr' & Hm & Ek). rewrite Ek.
    split; [done|]. destruct (k_reading (td_connection td)); [lia | done].
  - by eapply frame_step_ok.
  - unfold join_step in E. case_bool_decide as Epc; [|done]. case_bool_decide as Ef; [|done]. simpl in E.
    apply (inj Some) in E; subst td'. simpl. rewrite Epc, Ef in *. simpl. split; [|lia].
    split_and!; [done | split; [done | by intros [_ ?]] | done..].
  - unfold detach_step in E. case_bool_decide as Epc; [|done]. apply (inj Some) in E; subst td'. simpl. rewrite Epc in *.
    assert (td_frame td = FDestructor) as Ef by (apply Hd; split; [by apply Ht | done]). rewrite Ef. simpl.
    split; [|lia]. split_and!; [|split; [done | by intros [_ ?]] | done..]. destruct Hr as [G1 G2 G3]. constructor; [done | | done].
    intros q Hq. destruct (G2 q Hq) as (H & _). congruence.
Qed.

Lemma teardown_progress td :
  on <> Strand -> held = false -> teardown_ok td -> td_pc td <> TdReturned -> exists td', teardown_step td td'.
Proof.
  intros Hon Hheld (Hr & Hd & Hj & _ & _ & Hfr) Hpc.
  assert (strand_free td = true) as Hfree by (unfold strand_free; by rewrite (bool_decide_false _ Hon)).
  destruct (td_pc td) eqn:Epc; [| | |done].
  - eexists. apply TdsShutdown. unfold teardown_shutdown. by rewrite Epc.
  - destruct (td_frame td) as [p|p|p locks| | |rest|] eqn:Ef.
    + eexists. apply (TdsFrame false). unfold frame_step. by rewrite Ef, Hfree.
    + destruct Hr as [G1 G2 [_ [G|G]]].
      * destruct (G2 p G) as (_ & Hk & _). destruct (k_reading (td_connection td)) as [[b|b]|] eqn:Ek; [| |done];
          eexists; apply (TdsAborted ""); unfold read_aborted; by rewrite Hfree, Epc, Ek.
      * destruct (read_result p (td_connection td)) as [[b|e]|] eqn:Er; [| |done];
          eexists; apply (TdsFrame false); unfold frame_step; by rewrite Ef, Er.
    + eexists. apply (TdsFrame false). unfold frame_step. by rewrite Ef, Hheld, andb_false_r.
    + eexists. apply (TdsFrame false). unfold frame_step. by rewrite Ef.
    + destruct (proj1 Hd eq_refl) as [Eon _]. by destruct (Hj eq_refl).
    + by specialize (Hfr rest eq_refl).
    + eexists. apply TdsJoin. unfold join_step. by rewrite Epc, Ef.
  - eexists. apply TdsDetach. unfold detach_step. by rewrite Epc.
Qed.

End teardown.


(** With the mutex held, the destructor joins a frame thread that waits for it in a
    listener, and never returns. *)
Theorem held_mutex_destructor_deadlocks on td p :
  teardown_begins on td -> td_frame td = FHandling p true ->
  forall td', rtc (teardown_step on true) td td' ->
    td_pc td' <> TdReturned /\ td_frame td' = FHandling p true.
Proof.
  intros Hb Hf td' Hr. pose proof Hb as (Epc & _).
  assert (td_pc td <> TdReturned) as Hpc by (by rewrite Epc). apply teardown_begins_ok in Hb. clear Epc.
  revert Hb Hpc Hf. induction Hr as [td|td1 td2 td3 Hs _ IH]; intros Hok Hpc Hf; [done|].
  destruct (teardown_step_ok on true td1 td2 Hok Hs) as [Hok2 _].
  enough (td_pc td2 <> TdReturned /\ td_frame td2 = FHandling p true) as [H1 H2] by auto. clear IH Hok2.
  destruct Hok as (_ & Hd & _ & Ht & _). destruct Hs as [x y E|ec x y E|over x y E|x y E|x y E].
  - unfold teardown_shutdown in E. case_bool_decide; [|done]. apply (inj Some) in E. subst y. simpl. by case_bool_decide.
  - by apply aborted_connection in E as (_ & _ & ->).
  - unfold frame_step in E. by rewrite Hf, (bool_decide_false _ Hpc) in E.
  - unfold join_step in E. by rewrite Hf, andb_false_r in E.
  - unfold detach_step in E. case_bool_decide as Ed; [|done].
    assert (td_frame x = FDestructor) by (apply Hd; split; [by apply Ht | done]). congruence.
Qed.

(** A client that waits for a frame. *)
Definition idle_connection : Connection := (conn_read 0 (conn_connect (Val tt) new_Connection).2).2.

Lemma idle_reads_ok : reads_ok idle_connection (FReading 0).
Proof.
  constructor; [by vm_compute | |].
  - intros q Hq. vm_compute in Hq. injection Hq as <-. by vm_compute.
  - split; [|by left]. intros q Hq. by destruct q.
Qed.

(** One that has a frame left in the inbox. *)
Definition busy_connection : Connection :=
  let k := (conn_connect (Val tt) new_Connection).2 in
  let k := (header_done header_buffer (Val [x00; x00; x00; x00]) k).2 in
  (body_done (body_buffer 0) (Val []) k).2.


(** C40: a client whose last reference is dropped by the reader's idle handler is
    never destroyed.  The listener of [HeartbeatTimeout] runs on the strand of
    the connection, and [ProducerImpl::handle_shutdown],
    [ConsumerImpl::handle_shutdown] and
    [EnvironmentImpl::handle_locator_shutdown] reset their pointer to the
    client in it, with their mutex; the destructor then joins the frame thread,
    which waits for a read that only a handler of that same strand can fail.
    Whatever happens, the destructor does not return and the frame thread goes
    on waiting, and once it is at [join] no step of any thread is possible. *)
Theorem heartbeat_destructor_deadlocks held td p :
  teardown_begins Strand td -> td_frame td = FReading p -> k_pending_read (td_connection td) = Some p ->
  forall td', rtc (teardown_step Strand held) td td' ->
    td_pc td' <> TdReturned /\ td_frame td' = FReading p /\
    (td_pc td' = TdJoin -> forall td'', ~ teardown_step Strand held td' td'').
Proof.
  intros (Epc & _ & Hr & _) Ef Ep td' Hrun.
  assert (read_result p (td_connection td) = None) as Er by (by apply (ro_pending _ _ Hr)).
  assert (forall x, td_pc x = TdJoin -> td_frame x = FReading p -> read_result p (td_connection x) = None ->
                    forall y, ~ teardown_step Strand held x y) as Hstuck.
  { intros x Ex Efx Erx y Hs. destruct Hs as [x y E|ec x y E|close x y E|x y E|x y E].
    - unfold teardown_shutdown in E. by rewrite Ex in E.
    - apply aborted_connection in E as (E & _). unfold strand_free in E. by rewrite Ex in E.
    - unfold frame_step in E. by rewrite Efx, Erx in E.
    - unfold join_step in E. by rewrite Ex, Efx in E.
    - unfold detach_step in E. by rewrite Ex in E. }
  destruct Hrun as [|td1 td2 td' Hs Hrun]; [by rewrite Epc|].
  assert (td_pc td2 = TdJoin /\ td_frame td2 = FReading p /\ read_result p (td_connection td2) = None) as (E1 & E2 & E3).
  { destruct Hs as [x y E|ec x y E|close x y E|x y E|x y E].
    - unfold teardown_shutdown in E. rewrite Epc in E. simpl in E. apply (inj Some) in E. subst y. split; [done|]. split; [done|].
      change (read_result p (set_k_events (k_events (td_connection x) ++ [KCloseSocket]) (td_connection x)) = None).
      by rewrite read_result_emit, Er.
    - apply aborted_connection in E as (E & _). unfold strand_free in E. by rewrite Epc in E.
    - unfold frame_step in E. by rewrite Ef, Er in E.
    - unfold join_step in E. by rewrite Epc in E.
    - unfold detach_step in E. by rewrite Epc in E. }
  destruct Hrun as [|td2 td3 td' Hs2 Hrun]; [|by destruct (Hstuck td2 E1 E2 E3 td3)].
  rewrite E1. split; [done|]. split; [done|]. intros _. by apply Hstuck.
Qed.

Lemma heartbeat_destructor_deadlocks_witness :
  exists td, teardown_step Strand true (MkTeardown idle_connection (FReading 0) true TdShutdown) td /\
    td_pc td = TdJoin /\ forall td', ~ teardown_step Strand true td td'.
Proof.
  eexists. split; [apply TdsShutdown; reflexivity|]. split; [reflexivity|].
  refine (proj2 (proj2 (heartbeat_destructor_deadlocks true (MkTeardown idle_connection (FReading 0) true TdShutdown) 0 _ _ _ _ _)) _);
    try reflexivity.
  - split; [reflexivity|]. split; [reflexivity|]. split; [exact idle_reads_ok | done].
  - apply rtc_once, TdsShutdown. reflexivity.
Defined.
