(* ===== verification/Scheduler.v ===== *)
(** * The background scheduler

    Models [include/hareflow/detail/background_scheduler.h] and
    [src/background_scheduler.cpp]: a bounded pool of threads, started on demand
    and stopped when idle, and a queue for the tasks that find no thread.

    A task is named by a number.  Each definition is what happens under
    [m_mutex]; a task runs, without the mutex, between [worker_begin],
    [worker_wake] or [worker_finish] and the next [worker_finish]. *)

From S2P Require Import Prelude Words.

(** Where a thread is in [run_work_thread]: not running, before the lock, in the
    task, in [wait_for]. *)
Inductive worker_pc := WStopped | WStarting | WRunning | WWaiting.

#[export] Instance worker_pc_eq_dec : EqDecision worker_pc.
Proof. solve_decision. Defined.

Record WorkThread := MkWorkThread {
  wt_running : bool;
  wt_current_task : option nat;
  wt_pc : worker_pc
}.

(** [bs_finished] records the tasks that were run. *)
Record BackgroundScheduler := MkBackgroundScheduler {
  bs_work_threads : list WorkThread;
  bs_task_overflow : list nat;
  bs_quitting : bool;
  bs_finished : list nat
}.

(** [hardware] is [std::thread::hardware_concurrency()]. *)
Definition new_BackgroundScheduler (max_nb_threads hardware : Z) : BackgroundScheduler :=
  let n := if max_nb_threads =? 0 then Z.max hardware 1 else max_nb_threads in
  MkBackgroundScheduler (replicate (Z.to_nat n) (MkWorkThread false None WStopped)) [] false [].

Definition set_threads (ts : list WorkThread) (s : BackgroundScheduler) : BackgroundScheduler :=
  MkBackgroundScheduler ts (bs_task_overflow s) (bs_quitting s) (bs_finished s).
Definition set_overflow (q : list nat) (s : BackgroundScheduler) : BackgroundScheduler :=
  MkBackgroundScheduler (bs_work_threads s) q (bs_quitting s) (bs_finished s).
Definition set_quitting (s : BackgroundScheduler) : BackgroundScheduler :=
  MkBackgroundScheduler (bs_work_threads s) (bs_task_overflow s) true (bs_finished s).
Definition set_finished (l : list nat) (s : BackgroundScheduler) : BackgroundScheduler :=
  MkBackgroundScheduler (bs_work_threads s) (bs_task_overflow s) (bs_quitting s) l.

Definition set_thread (i : nat) (t : WorkThread) (s : BackgroundScheduler) : BackgroundScheduler :=
  set_threads (<[i := t]> (bs_work_threads s)) s.

Definition is_idle (t : WorkThread) : bool := wt_running t && bool_decide (wt_current_task t = None).
Definition is_stopped (t : WorkThread) : bool := negb (wt_running t).

(** The index of the first element with a property. *)
Fixpoint find_index {A} (f : A -> bool) (l : list A) : option nat :=
  match l with
  | [] => None
  | x :: l => if f x then Some 0%nat else S <$> find_index f l
  end.

(** The first idle thread, else the first stopped one; the flag tells whether it
    is started. *)
Definition find_available_thread (s : BackgroundScheduler) : option nat * bool :=
  match find_index is_idle (bs_work_threads s) with
  | Some i => (Some i, true)
  | None => (find_index is_stopped (bs_work_threads s), false)
  end.

(** Joining the thread that stopped before waits only for its last instructions. *)
Definition start_thread (i : nat) (s : BackgroundScheduler) : BackgroundScheduler :=
  match bs_work_threads s !! i with
  | Some t => set_thread i (MkWorkThread true (wt_current_task t) WStarting) s
  | None => s
  end.

Definition assign_task (i : nat) (task : nat) (s : BackgroundScheduler) : BackgroundScheduler :=
  match bs_work_threads s !! i with
  | Some t => set_thread i (MkWorkThread (wt_running t) (Some task) (wt_pc t)) s
  | None => s
  end.

Definition run_task (task : nat) (s : BackgroundScheduler) : BackgroundScheduler :=
  match find_available_thread s with
  | (Some i, started) => assign_task i task (if started : bool then s else start_thread i s)
  | (None, _) => set_overflow (bs_task_overflow s ++ [task]) s
  end.

(** The head of the loop, with the mutex. *)
Definition worker_loop (stop_thread : bool) (t : WorkThread) : WorkThread :=
  if stop_thread then MkWorkThread false (wt_current_task t) WStopped
  else MkWorkThread (wt_running t) (wt_current_task t)
         (if bool_decide (wt_current_task t = None) then WWaiting else WRunning).

(** [run_work_thread] up to the first task or wait. *)
Definition worker_begin (i : nat) (s : BackgroundScheduler) : option BackgroundScheduler :=
  t ← bs_work_threads s !! i;
  if bool_decide (wt_pc t = WStarting) then Some (set_thread i (worker_loop (bs_quitting s) t) s) else None.

(** The task is over: take the next one, if there is one; then [wait_for], which
    returns at once when there is something to do. *)
Definition worker_finish (i : nat) (s : BackgroundScheduler) : option BackgroundScheduler :=
  t ← bs_work_threads s !! i;
  done ← wt_current_task t;
  if bool_decide (wt_pc t = WRunning) then
    let s := set_finished (bs_finished s ++ [done]) s in
    let '(next, overflow) :=
      match bs_task_overflow s with x :: q => (Some x, q) | [] => (None, []) end in
    let t := MkWorkThread (wt_running t) next (wt_pc t) in
    Some (set_thread i (worker_loop (bs_quitting s) t) (set_overflow overflow s))
  else None.

(** [wait_for] returns because its condition holds. *)
Definition worker_wake (i : nat) (s : BackgroundScheduler) : option BackgroundScheduler :=
  t ← bs_work_threads s !! i;
  if bool_decide (wt_pc t = WWaiting) && (bs_quitting s || negb (bool_decide (wt_current_task t = None)))
  then Some (set_thread i (worker_loop (bs_quitting s) t) s)
  else None.

(** [wait_for] times out, and its condition does not hold. *)
Definition worker_timeout (i : nat) (s : BackgroundScheduler) : option BackgroundScheduler :=
  t ← bs_work_threads s !! i;
  if bool_decide (wt_pc t = WWaiting) && negb (bs_quitting s) && bool_decide (wt_current_task t = None)
  then Some (set_thread i (worker_loop true t) s)
  else None.

(** ** Every use of the pool *)

Record sched_sys := MkSchedSys {
  ss_scheduler : BackgroundScheduler;
  ss_submitted : list nat
}.

Inductive sched_step : sched_sys -> sched_sys -> Prop :=
| SchRun task s l : sched_step (MkSchedSys s l) (MkSchedSys (run_task task s) (l ++ [task]))
| SchBegin i s s' l : worker_begin i s = Some s' -> sched_step (MkSchedSys s l) (MkSchedSys s' l)
| SchFinish i s s' l : worker_finish i s = Some s' -> sched_step (MkSchedSys s l) (MkSchedSys s' l)
| SchWake i s s' l : worker_wake i s = Some s' -> sched_step (MkSchedSys s l) (MkSchedSys s' l)
| SchTimeout i s s' l : worker_timeout i s = Some s' -> sched_step (MkSchedSys s l) (MkSchedSys s' l)
| SchQuit s l : sched_step (MkSchedSys s l) (MkSchedSys (set_quitting s) l).

Definition sched_reachable (max_nb_threads hardware : Z) (s : sched_sys) : Prop :=
  rtc sched_step (MkSchedSys (new_BackgroundScheduler max_nb_threads hardware) []) s.

Definition task_of (t : WorkThread) : list nat := option_list (wt_current_task t).
Definition current_tasks (s : BackgroundScheduler) : list nat := flat_map task_of (bs_work_threads s).

Definition busy (t : WorkThread) : Prop := wt_running t = true /\ wt_current_task t <> None.

Definition thread_ok (t : WorkThread) : Prop :=
  (wt_running t = false -> wt_current_task t = None) /\
  (wt_running t = false <-> wt_pc t = WStopped) /\
  (wt_pc t = WRunning -> wt_current_task t <> None).

Definition pool_inv (s : BackgroundScheduler) : Prop :=
  Forall thread_ok (bs_work_threads s) /\ (bs_task_overflow s <> [] -> Forall busy (bs_work_threads s)).

Definition sched_inv (s : sched_sys) : Prop :=
  let sch := ss_scheduler s in
  bs_quitting sch = false ->
  ss_submitted s ≡ₚ bs_finished sch ++ current_tasks sch ++ bs_task_overflow sch /\ pool_inv sch.

Lemma set_thread_tasks i t t' s :
  bs_work_threads s !! i = Some t ->
  current_tasks (set_thread i t' s) ++ task_of t ≡ₚ current_tasks s ++ task_of t'.
Proof.
  apply (flat_map_insert task_of).
Qed.

(** A thread that keeps its task. *)
Lemma set_thread_same_tasks i t t' s :
  bs_work_threads s !! i = Some t -> wt_current_task t' = wt_current_task t ->
  current_tasks (set_thread i t' s) ≡ₚ current_tasks s.
Proof.
  intros E Et. pose proof (set_thread_tasks i t t' s E) as H. unfold task_of in H. rewrite Et in H.
  now apply Permutation_app_inv_r in H.
Qed.

Lemma pool_inv_thread i t s :
  pool_inv s -> thread_ok t -> (bs_task_overflow s <> [] -> busy t) -> pool_inv (set_thread i t s).
Proof.
  intros [Ht Hb] Hok Hbt. split; simpl.
  - now apply Forall_insert.
  - intros Ho. apply Forall_insert; auto.
Qed.

Lemma worker_loop_ok stop t :
  thread_ok t -> (stop = true -> wt_current_task t = None) -> wt_running t = true -> thread_ok (worker_loop stop t).
Proof.
  intros (H1 & H2 & H3) Hs Hr. destruct stop; simpl; unfold worker_loop; repeat split; simpl; auto; try congruence.
  - now destruct (bool_decide _).
  - destruct (bool_decide_reflect (wt_current_task t = None)); [discriminate | done].
Qed.

Lemma worker_loop_busy t : busy t -> busy (worker_loop false t).
Proof. intros [H1 H2]. done. Qed.

Lemma find_index_Some {A} (f : A -> bool) l i : find_index f l = Some i -> exists x, l !! i = Some x /\ f x = true.
Proof.
  revert i. induction l as [|x l IH]; intros i; simpl; [discriminate|]. destruct (f x) eqn:E.
  - intros [= <-]. eauto.
  - destruct (find_index f l) as [j|]; [|discriminate]. intros [= <-]. now apply IH.
Qed.

Lemma find_index_None {A} (f : A -> bool) l : find_index f l = None -> Forall (fun x => f x = false) l.
Proof.
  induction l as [|x l IH]; simpl; [constructor|]. destruct (f x) eqn:E; [discriminate|].
  destruct (find_index f l); [discriminate|]. auto.
Qed.

(** A thread without a task gets one. *)
Lemma assigned i t task pc s :
  pool_inv s -> bs_work_threads s !! i = Some t -> wt_current_task t = None -> pc <> WStopped ->
  let t' := MkWorkThread true (Some task) pc in
  current_tasks (set_thread i t' s) ≡ₚ current_tasks s ++ [task] /\ pool_inv (set_thread i t' s).
Proof.
  intros Hi E Ec Hpc t'. split.
  - pose proof (set_thread_tasks i t t' s E) as H. unfold task_of in H. rewrite Ec in H. simpl in H.
    now rewrite app_nil_r in H.
  - apply pool_inv_thread; [done| |done]. split; [done|]. split; [|done]. simpl. split; [done | intros ->; done].
Qed.

Lemma run_task_inv task s l : sched_inv (MkSchedSys s l) -> sched_inv (MkSchedSys (run_task task s) (l ++ [task])).
Proof.
  intros Hi Hq. unfold run_task, find_available_thread in *. simpl in *.
  assert (bs_quitting s = false) as Hq'.
  { destruct (find_index is_idle (bs_work_threads s)) as [i|].
    - unfold assign_task in Hq. now destruct (_ !! i).
    - destruct (find_index is_stopped (bs_work_threads s)) as [i|]; [|exact Hq].
      unfold assign_task, start_thread in Hq. destruct (bs_work_threads s !! i); simpl in Hq; now destruct (_ !! i). }
  destruct (Hi Hq') as [Hp Hinv]. clear Hi Hq. rewrite Hp. pose proof Hinv as [Hok Hbusy].
  destruct (find_index is_idle (bs_work_threads s)) as [i|] eqn:E1.
  - apply find_index_Some in E1 as (t & Et & Hid). unfold is_idle in Hid. apply andb_prop in Hid as [Hr Hc].
    apply bool_decide_eq_true in Hc. unfold assign_task. rewrite Et, Hr.
    assert (thread_ok t) as (_ & Hs & _) by (eapply Forall_lookup_1; eauto).
    assert (wt_pc t <> WStopped) as Hpc by (intros E; apply Hs in E; congruence).
    destruct (assigned i t task (wt_pc t) s Hinv Et Hc Hpc) as [Hp' Hi']. split; [|done]. simpl. rewrite Hp'.
    solve_Permutation.
  - destruct (find_index is_stopped (bs_work_threads s)) as [i|] eqn:E2.
    + apply find_index_Some in E2 as (t & Et & Hst). apply negb_true_iff in Hst.
      assert (thread_ok t) as (Hnone & _) by (eapply Forall_lookup_1; eauto). specialize (Hnone Hst).
      unfold start_thread. rewrite Et. unfold assign_task. simpl.
      rewrite list_lookup_insert_eq by (eapply lookup_lt_Some, Et). unfold set_thread, set_threads. simpl.
      rewrite list_insert_insert_eq.
      destruct (assigned i t task WStarting s Hinv Et Hnone) as [Hp' Hi']; [done|].
      split; [|exact Hi']. unfold set_thread, set_threads in Hp'. rewrite Hp'. solve_Permutation.
    + apply find_index_None in E1, E2. split; [simpl; solve_Permutation|]. split; [exact Hok|]. intros _. simpl.
      apply Forall_forall. intros t Ht. rewrite Forall_forall in E1, E2. specialize (E1 t Ht). specialize (E2 t Ht).
      apply negb_false_iff in E2. split; [done|]. unfold is_idle in E1. rewrite E2 in E1. simpl in E1.
      now apply bool_decide_eq_false in E1.
Qed.

Lemma running_of_pc t : thread_ok t -> wt_pc t <> WStopped -> wt_running t = true.
Proof. intros (_ & Hs & _) Hpc. destruct (wt_running t); [done|]. now destruct Hpc; apply Hs. Qed.

(** A thread goes to its task, or waits. *)
Lemma worker_loop_inv i t s l :
  sched_inv (MkSchedSys s l) -> bs_work_threads s !! i = Some t -> wt_pc t <> WStopped ->
  sched_inv (MkSchedSys (set_thread i (worker_loop (bs_quitting s) t) s) l).
Proof.
  intros Hi Et Hpc Hq. simpl in *. destruct (Hi Hq) as [Hp Hinv]. simpl in *. rewrite Hq.
  assert (thread_ok t) as Hok by (eapply Forall_lookup_1; [apply Hinv | exact Et]).
  split.
  - rewrite Hp, (set_thread_same_tasks i t _ s Et) by done. done.
  - apply pool_inv_thread; [done | apply worker_loop_ok; auto using running_of_pc; done|].
    intros Ho. apply worker_loop_busy. eapply Forall_lookup_1; [apply Hinv, Ho | exact Et].
Qed.

Lemma worker_timeout_inv i s s' l :
  sched_inv (MkSchedSys s l) -> worker_timeout i s = Some s' -> sched_inv (MkSchedSys s' l).
Proof.
  unfold worker_timeout. intros Hi E. destruct (bs_work_threads s !! i) as [t|] eqn:Et; [|discriminate]. simpl in E.
  destruct (bool_decide_reflect (wt_pc t = WWaiting)) as [Hpc|]; [|discriminate].
  destruct (bs_quitting s) eqn:Hq; [discriminate|].
  destruct (bool_decide_reflect (wt_current_task t = None)) as [Hc|]; [|discriminate]. injection E as <-.
  intros _. destruct (Hi Hq) as [Hp Hinv]. simpl in *.
  assert (thread_ok t) as Hok by (eapply Forall_lookup_1; [apply Hinv | exact Et]).
  split; [rewrite Hp, (set_thread_same_tasks i t _ s Et) by done; done|].
  apply pool_inv_thread; [done | apply (worker_loop_ok true t); [done | done | apply running_of_pc; [done | now rewrite Hpc]]|].
  intros Ho. destruct Hinv as [_ Hb]. specialize (Hb Ho). pose proof (Forall_lookup_1 _ _ _ _ Hb Et) as [_ Hne]. done.
Qed.

Lemma worker_finish_inv i s s' l :
  sched_inv (MkSchedSys s l) -> worker_finish i s = Some s' -> sched_inv (MkSchedSys s' l).
Proof.
  unfold worker_finish. intros Hi E. destruct (bs_work_threads s !! i) as [t|] eqn:Et; [|discriminate]. simpl in E.
  destruct (wt_current_task t) as [d|] eqn:Ec; [|discriminate]. simpl in E.
  destruct (bool_decide_reflect (wt_pc t = WRunning)) as [Hpc|]; [|discriminate].
  destruct (match bs_task_overflow s with [] => _ | _ => _ end) as [next overflow] eqn:En. injection E as <-.
  intros Hq. simpl in Hq. destruct (Hi Hq) as [Hp Hinv]. simpl in *. rewrite Hq.
  assert (thread_ok t) as Hok by (eapply Forall_lookup_1; [apply Hinv | exact Et]).
  assert (wt_running t = true) as Hr by (apply running_of_pc; [done | now rewrite Hpc]).
  set (t' := worker_loop false (MkWorkThread (wt_running t) next (wt_pc t))).
  assert (thread_ok t') as Hok'.
  { unfold t', worker_loop. simpl. rewrite Hr. split; [done|]. simpl. destruct (bool_decide_reflect (next = None)); done. }
  split.
  - pose proof (set_thread_tasks i t t' s Et) as H. unfold task_of at 1 in H. rewrite Ec in H. simpl in H.
    change (current_tasks (set_thread i t' (set_overflow overflow (set_finished (bs_finished s ++ [d]) s))))
      with (current_tasks (set_thread i t' s)).
    assert (bs_task_overflow s ≡ₚ task_of t' ++ overflow) as Ho
      by (destruct (bs_task_overflow s); injection En as <- <-; done).
    transitivity (bs_finished s ++ (current_tasks s ++ task_of t') ++ overflow).
    + rewrite Hp, Ho. solve_Permutation.
    + rewrite <- H. solve_Permutation.
  - destruct Hinv as [Ht Hb]. apply pool_inv_thread; [|done|].
    + split; [done|]. simpl. intros Hne. apply Hb. intros E. rewrite E in En. injection En as _ <-. done.
    + simpl. intros Hne. split; [done|]. simpl. destruct (bs_task_overflow s); injection En as <- <-; done.
Qed.

Lemma sched_inv_step s s' : sched_inv s -> sched_step s s' -> sched_inv s'.
Proof.
  intros Hs Hl. revert Hs. destruct Hl as [task s l|i s s' l E|i s s' l E|i s s' l E|i s s' l E|s l]; intros Hs.
  - now apply run_task_inv.
  - unfold worker_begin in E. destruct (bs_work_threads s !! i) as [t|] eqn:Et; [|discriminate]. simpl in E.
    destruct (bool_decide_reflect (wt_pc t = WStarting)) as [Hpc|]; [|discriminate]. injection E as <-.
    apply worker_loop_inv; [done | done | now rewrite Hpc].
  - eapply worker_finish_inv; eassumption.
  - unfold worker_wake in E. destruct (bs_work_threads s !! i) as [t|] eqn:Et; [|discriminate]. simpl in E.
    destruct (bool_decide_reflect (wt_pc t = WWaiting)) as [Hpc|]; [|discriminate].
    destruct (_ && _); [|discriminate]. injection E as <-. apply worker_loop_inv; [done | done | now rewrite Hpc].
  - eapply worker_timeout_inv; eassumption.
  - discriminate.
Qed.

Lemma stopped_pool_tasks m : flat_map task_of (replicate m (MkWorkThread false None WStopped)) = [].
Proof. induction m as [|m IH]; [reflexivity | exact IH]. Qed.

Lemma sched_inv_reachable n h s : sched_reachable n h s -> sched_inv s.
Proof.
  intros Hr. unfold sched_reachable in Hr. cut (sched_inv (MkSchedSys (new_BackgroundScheduler n h) [])).
  - induction Hr; eauto using sched_inv_step.
  - intros _. split; [|split; [apply Forall_replicate; by repeat split | done]].
    unfold current_tasks, new_BackgroundScheduler. cbn [ss_scheduler bs_work_threads bs_finished bs_task_overflow].
    now rewrite stopped_pool_tasks.
Qed.

(** The step of its thread that a task waits for. *)
Definition worker_advances (i : nat) (s : BackgroundScheduler) : Prop :=
  is_Some (worker_begin i s) \/ is_Some (worker_finish i s) \/ is_Some (worker_wake i s).

(** C36: until the scheduler is destroyed, no task is lost and none is run twice:
    the tasks submitted are those that were run, those of a thread and those
    in the queue; tasks queue only while every thread of the pool has one; and a
    thread with a task can always go on, so that no wakeup is missed. *)
Theorem scheduler_no_loss n h s :
  sched_reachable n h s ->
  let sch := ss_scheduler s in
  bs_quitting sch = false ->
  ss_submitted s ≡ₚ bs_finished sch ++ current_tasks sch ++ bs_task_overflow sch /\
  (bs_task_overflow sch <> [] -> Forall busy (bs_work_threads sch)) /\
  (forall i t, bs_work_threads sch !! i = Some t -> wt_current_task t <> None -> worker_advances i sch).
Proof.
  intros Hr sch Hq. destruct (sched_inv_reachable n h s Hr Hq) as [Hp [Hok Hb]]. split; [done|]. split; [done|].
  intros i t Et Hc. fold sch in Hok. pose proof (Forall_lookup_1 _ _ _ _ Hok Et) as (H1 & H2 & _).
  unfold worker_advances, worker_begin, worker_finish, worker_wake. rewrite Et. simpl.
  destruct (wt_current_task t) as [d|] eqn:Ed; [|done]. simpl. destruct (wt_pc t) eqn:Epc.
  - specialize (H1 (proj2 H2 eq_refl)). congruence.
  - left. rewrite bool_decide_true by done. by eexists.
  - right; left. rewrite bool_decide_true by done. destruct (match bs_task_overflow sch with [] => _ | _ => _ end). by eexists.
  - right; right. rewrite bool_decide_true by done. simpl. rewrite orb_true_r. by eexists.
Qed.

Definition example_pool : BackgroundScheduler :=
  run_task 3 (run_task 2 (run_task 1 (new_BackgroundScheduler 2 8))).

Lemma scheduler_no_loss_witness :
  bs_task_overflow example_pool = [3%nat] /\
  [1; 2; 3]%nat ≡ₚ bs_finished example_pool ++ current_tasks example_pool ++ bs_task_overflow example_pool.
Proof.
  split; [reflexivity|].
  apply (scheduler_no_loss 2 8 (MkSchedSys example_pool [1; 2; 3]%nat)); [|reflexivity].
  eapply rtc_l; [apply (SchRun 1)|]. eapply rtc_l; [apply (SchRun 2)|]. eapply rtc_l; [apply (SchRun 3)|].
  apply rtc_refl.
Defined.
