(* ===== verification/SchedulerShutdown.v ===== *)
(** * The destructor of the background scheduler

    Models [BackgroundScheduler::~BackgroundScheduler] of
    [src/background_scheduler.cpp]: it sets [m_quitting], then joins the threads
    one after the other, while they go on with [run_work_thread].  No member
    function is called any more once a destructor has begun. *)

From S2P Require Import Prelude Words Scheduler.

(** At the [j]-th turn of the loop, or returned. *)
Inductive destructor_pc := AtThread (j : nat) | Returned.

Record shutdown_sys := MkShutdownSys {
  sd_scheduler : BackgroundScheduler;
  sd_pc : destructor_pc
}.

Definition destructor_begin (s : BackgroundScheduler) : shutdown_sys := MkShutdownSys (set_quitting s) (AtThread 0).

Definition thread_stopped (t : WorkThread) : bool := bool_decide (wt_pc t = WStopped).

(** One turn of the loop; [None]: [join] waits for the thread. *)
Definition destructor_turn (sys : shutdown_sys) : option shutdown_sys :=
  match sd_pc sys with
  | Returned => None
  | AtThread j =>
      match bs_work_threads (sd_scheduler sys) !! j with
      | None => Some (MkShutdownSys (sd_scheduler sys) Returned)
      | Some t => if thread_stopped t then Some (MkShutdownSys (sd_scheduler sys) (AtThread (S j))) else None
      end
  end.

Inductive shutdown_step : shutdown_sys -> shutdown_sys -> Prop :=
| SdBegin i s s' pc : worker_begin i s = Some s' -> shutdown_step (MkShutdownSys s pc) (MkShutdownSys s' pc)
| SdFinish i s s' pc : worker_finish i s = Some s' -> shutdown_step (MkShutdownSys s pc) (MkShutdownSys s' pc)
| SdWake i s s' pc : worker_wake i s = Some s' -> shutdown_step (MkShutdownSys s pc) (MkShutdownSys s' pc)
| SdTimeout i s s' pc : worker_timeout i s = Some s' -> shutdown_step (MkShutdownSys s pc) (MkShutdownSys s' pc)
| SdTurn sys sys' : destructor_turn sys = Some sys' -> shutdown_step sys sys'.

(** The tasks that threads are in the middle of. *)
Definition begun_task (t : WorkThread) : list nat := if decide (wt_pc t = WRunning) then task_of t else [].
Definition begun_tasks (s : BackgroundScheduler) : list nat := flat_map begun_task (bs_work_threads s).

(** ** What holds while the destructor runs *)

Definition runs_a_task (t : WorkThread) : Prop := wt_pc t = WRunning -> wt_current_task t <> None.

(** [done]: the tasks run or begun when the destructor was called. *)
Record shutdown_inv (done : list nat) (n : nat) (sys : shutdown_sys) : Prop := MkShutdownInv {
  si_quitting : bs_quitting (sd_scheduler sys) = true;
  si_threads : Forall runs_a_task (bs_work_threads (sd_scheduler sys));
  si_length : length (bs_work_threads (sd_scheduler sys)) = n;
  si_done : bs_finished (sd_scheduler sys) ++ begun_tasks (sd_scheduler sys) ≡ₚ done;
  si_joined : Forall (fun t => wt_pc t = WStopped)
                match sd_pc sys with
                | AtThread j => take j (bs_work_threads (sd_scheduler sys))
                | Returned => bs_work_threads (sd_scheduler sys)
                end;
  si_turn : match sd_pc sys with AtThread j => (j <= n)%nat | Returned => True end
}.

(** The threads that still run, the turns that are left and the return. *)
Definition shutdown_measure (sys : shutdown_sys) : nat :=
  length (filter (fun t => wt_pc t <> WStopped) (bs_work_threads (sd_scheduler sys))) +
  match sd_pc sys with AtThread j => S (length (bs_work_threads (sd_scheduler sys)) - j) | Returned => 0 end.

Lemma filter_insert_stops (l : list WorkThread) i x y :
  l !! i = Some x -> wt_pc x <> WStopped -> wt_pc y = WStopped ->
  length (filter (fun t => wt_pc t <> WStopped) l) = S (length (filter (fun t => wt_pc t <> WStopped) (<[i := y]> l))).
Proof.
  intros E Hx Hy. rewrite insert_take_drop by (eapply lookup_lt_Some, E).
  rewrite <- (take_drop_middle _ _ _ E) at 1. rewrite !filter_app, !filter_cons, !length_app.
  rewrite decide_True by done. rewrite decide_False by (rewrite Hy; tauto). simpl. lia.
Qed.

(** A thread that runs stops; [done_now] is what it ran to the end. *)
Definition thread_stops (s s' : BackgroundScheduler) : Prop :=
  exists i t t' done_now overflow,
    bs_work_threads s !! i = Some t /\ wt_pc t <> WStopped /\ wt_pc t' = WStopped /\ begun_task t = done_now /\
    s' = set_thread i t' (set_overflow overflow (set_finished (bs_finished s ++ done_now) s)).

Lemma worker_stops i s s' :
  bs_quitting s = true ->
  worker_begin i s = Some s' \/ worker_finish i s = Some s' \/ worker_wake i s = Some s' \/ worker_timeout i s = Some s' ->
  thread_stops s s'.
Proof.
  intros Hq H. unfold thread_stops, begun_task, worker_begin, worker_finish, worker_wake, worker_timeout in *. rewrite Hq in H.
  exists i. destruct (bs_work_threads s !! i) as [t|] eqn:Et; [|by destruct H as [H|[H|[H|H]]]; simpl in H]. simpl in H. exists t.
  destruct H as [H|[H|[H|H]]].
  - case_bool_decide as Hpc; [|done]. injection H as <-. eexists (worker_loop true t), [], (bs_task_overflow s). rewrite Hpc.
    split_and!; [done.. |]. destruct s. simpl in *. by rewrite app_nil_r, Hq.
  - destruct (wt_current_task t) as [d|] eqn:Ec; [|done]. simpl in H. case_bool_decide as Hpc; [|done].
    destruct (match bs_task_overflow s with [] => _ | _ => _ end) as [next overflow]. injection H as <-.
    eexists (worker_loop true _), [d], overflow. rewrite Hpc. unfold task_of. rewrite Ec. split_and!; [done.. |].
    simpl. rewrite Hq. reflexivity.
  - case_bool_decide as Hpc; [|done]. simpl in H. injection H as <-. eexists (worker_loop true t), [], (bs_task_overflow s). rewrite Hpc.
    split_and!; [done.. |]. destruct s. simpl in *. by rewrite app_nil_r, Hq.
  - by rewrite andb_false_r in H.
Qed.

Lemma thread_stops_inv done n s s' pc :
  shutdown_inv done n (MkShutdownSys s pc) -> thread_stops s s' ->
  shutdown_inv done n (MkShutdownSys s' pc) /\
  (shutdown_measure (MkShutdownSys s' pc) < shutdown_measure (MkShutdownSys s pc))%nat.
Proof.
  intros [Hq Ht Hl Hd Hj Hn] (i & t & t' & now & overflow & Et & Hpc & Hpc' & Hb & ->). simpl in *.
  assert (begun_task t' = []) as Hb' by (unfold begun_task; rewrite Hpc'; done).
  split.
  - constructor; simpl; [done | | by rewrite length_insert | | |done].
    + apply Forall_insert; [done|]. unfold runs_a_task. by rewrite Hpc'.
    + rewrite <- Hd. unfold begun_tasks. simpl. pose proof (flat_map_insert begun_task _ _ _ t' Et) as Hf.
      rewrite Hb', app_nil_r, Hb in Hf. rewrite <- Hf. solve_Permutation.
    + destruct pc as [j|]; [|by apply Forall_insert]. apply Forall_lookup. intros m x [Hx Hm]%lookup_take_Some.
      apply list_lookup_insert_Some in Hx as [(-> & <- & _)|[_ Hx]]; [done|].
      apply (Forall_lookup_1 _ _ m x Hj), lookup_take_Some. done.
  - unfold shutdown_measure. simpl. rewrite (filter_insert_stops _ _ _ _ Et Hpc Hpc'), length_insert. lia.
Qed.

Lemma destructor_turn_inv done n sys sys' :
  shutdown_inv done n sys -> destructor_turn sys = Some sys' ->
  shutdown_inv done n sys' /\ (shutdown_measure sys' < shutdown_measure sys)%nat.
Proof.
  intros [Hq Ht Hl Hd Hj Hn] E. destruct sys as [s [j|]]; [|done]. unfold destructor_turn, shutdown_measure in *. simpl in *.
  destruct (bs_work_threads s !! j) as [t|] eqn:Et.
  - unfold thread_stopped in E. case_bool_decide as Hpc; [|done]. injection E as <-.
    pose proof (lookup_lt_Some _ _ _ Et). split; [|simpl; lia]. constructor; simpl; [done.. | | lia].
    rewrite (take_S_r _ _ _ Et). apply Forall_app. by repeat constructor.
  - injection E as <-. split; [|simpl; lia]. constructor; simpl; try done.
    apply lookup_ge_None in Et. by rewrite take_ge in Hj.
Qed.

Lemma shutdown_step_inv done n sys sys' :
  shutdown_inv done n sys -> shutdown_step sys sys' ->
  shutdown_inv done n sys' /\ (shutdown_measure sys' < shutdown_measure sys)%nat.
Proof.
  intros Hi Hs. destruct Hs as [i s s' pc E|i s s' pc E|i s s' pc E|i s s' pc E|sys sys' E];
    try (by eapply destructor_turn_inv);
    (apply thread_stops_inv; [done|]); (eapply (worker_stops i); [apply Hi | tauto]).
Qed.

Lemma shutdown_progress done n sys :
  shutdown_inv done n sys -> sd_pc sys <> Returned -> exists sys', shutdown_step sys sys'.
Proof.
  intros [Hq Ht Hl Hd Hj Hn] Hpc. destruct sys as [s [j|]]; [|done]. simpl in *.
  destruct (bs_work_threads s !! j) as [t|] eqn:Et.
  - pose proof (Forall_lookup_1 _ _ _ _ Ht Et) as Hrun. destruct (wt_pc t) eqn:Epc.
    + eexists. apply SdTurn. unfold destructor_turn, thread_stopped. simpl. by rewrite Et, bool_decide_true.
    + eexists. apply (SdBegin j). unfold worker_begin. rewrite Et. simpl. by rewrite bool_decide_true.
    + destruct (wt_current_task t) as [d|] eqn:Ec; [|by destruct Hrun].
      destruct (worker_finish j s) as [s'|] eqn:E; [eexists; by apply (SdFinish j)|]. exfalso. revert E.
      unfold worker_finish. rewrite Et. simpl. rewrite Ec. simpl. rewrite bool_decide_true by done.
      by destruct (match bs_task_overflow s with [] => _ | _ => _ end).
    + eexists. apply (SdWake j). unfold worker_wake. rewrite Et. simpl. by rewrite bool_decide_true, Hq.
  - eexists. apply SdTurn. unfold destructor_turn. simpl. by rewrite Et.
Qed.

Lemma destructor_begin_inv n h s l :
  sched_reachable n h (MkSchedSys s l) -> bs_quitting s = false ->
  shutdown_inv (bs_finished s ++ begun_tasks s) (length (bs_work_threads s)) (destructor_begin s).
Proof.
  intros Hr Hq. destruct (sched_inv_reachable n h _ Hr Hq) as [_ [Hok _]]. simpl in Hok.
  constructor; simpl; [done | | done | done | constructor | lia].
  eapply Forall_impl; [exact Hok|]. intros t (_ & _ & H). exact H.
Qed.

(** C37: the destructor of the scheduler returns.  From any state of the pool,
    however its threads and the destructor interleave, there are at most two
    steps per thread and one more, and as long as the destructor has not
    returned one of them is possible: no [join] waits for ever.  When it returns,
    every thread has stopped, the tasks that had begun were run to their end,
    and no other task was begun: those still queued are dropped. *)
Theorem scheduler_destructor_returns n h s l :
  sched_reachable n h (MkSchedSys s l) -> bs_quitting s = false ->
  (forall k sys, nsteps shutdown_step k (destructor_begin s) sys -> (k <= 2 * length (bs_work_threads s) + 1)%nat) /\
  (forall sys, rtc shutdown_step (destructor_begin s) sys ->
     (sd_pc sys <> Returned -> exists sys', shutdown_step sys sys') /\
     (sd_pc sys = Returned ->
        Forall (fun t => wt_pc t = WStopped) (bs_work_threads (sd_scheduler sys)) /\
        bs_finished (sd_scheduler sys) ≡ₚ bs_finished s ++ begun_tasks s)).
Proof.
  intros Hr Hq. pose proof (destructor_begin_inv n h s l Hr Hq) as Hi. split.
  - intros k sys Hk.
    assert (shutdown_measure (destructor_begin s) <= 2 * length (bs_work_threads s) + 1)%nat.
    { unfold shutdown_measure. simpl. pose proof (length_filter (fun t => wt_pc t <> WStopped) (bs_work_threads s)). lia. }
    cut (k + shutdown_measure sys <= shutdown_measure (destructor_begin s))%nat; [lia|]. clear H.
    revert Hi. induction Hk as [|k x y z Hs Hk IH]; intros Hi; [done|].
    destruct (shutdown_step_inv _ _ _ _ Hi Hs) as [Hi' Hlt]. specialize (IH Hi'). lia.
  - intros sys Hrun. assert (shutdown_inv (bs_finished s ++ begun_tasks s) (length (bs_work_threads s)) sys) as Hi'.
    { revert Hi. induction Hrun as [|x y z Hs Hrun IH]; [done|]. intros Hi. by apply IH, (shutdown_step_inv _ _ _ _ Hi Hs). }
    split; [by apply (shutdown_progress _ _ _ Hi')|]. intros Hpc. destruct Hi' as [_ _ _ Hd Hj _]. rewrite Hpc in Hj.
    split; [done|]. rewrite <- Hd. replace (begun_tasks (sd_scheduler sys)) with (@nil nat); [by rewrite app_nil_r|].
    unfold begun_tasks. clear -Hj. induction Hj as [|t ts Ht Hj IH]; [done|]. simpl. rewrite <- IH.
    unfold begun_task. by rewrite Ht.
Qed.

(** Two threads, one in its task, and a third task queued. *)
Definition busy_pool : BackgroundScheduler := default example_pool (worker_begin 0 example_pool).

Lemma busy_pool_shutdown : exists sys, rtc shutdown_step (destructor_begin busy_pool) sys /\ sd_pc sys = Returned.
Proof.
  eexists. split.
  - eapply rtc_l; [apply (SdFinish 0); vm_compute; reflexivity|].
    eapply rtc_l; [apply SdTurn; vm_compute; reflexivity|].
    eapply rtc_l; [apply (SdBegin 1); vm_compute; reflexivity|].
    eapply rtc_l; [apply SdTurn; vm_compute; reflexivity|].
    eapply rtc_l; [apply SdTurn; vm_compute; reflexivity|]. apply rtc_refl.
  - reflexivity.
Qed.

Lemma scheduler_destructor_returns_witness :
  begun_tasks busy_pool = [1%nat] /\ bs_task_overflow busy_pool = [3%nat] /\
  exists sys, rtc shutdown_step (destructor_begin busy_pool) sys /\ bs_finished (sd_scheduler sys) ≡ₚ [1%nat].
Proof.
  split; [reflexivity|]. split; [reflexivity|]. destruct busy_pool_shutdown as (sys & Hrun & Hpc). exists sys. split; [exact Hrun|].
  apply (scheduler_destructor_returns 2 8 busy_pool [1; 2; 3]%nat); [|reflexivity | exact Hrun | exact Hpc].
  eapply rtc_l; [apply (SchRun 1)|]. eapply rtc_l; [apply (SchRun 2)|]. eapply rtc_l; [apply (SchRun 3)|].
  eapply rtc_l; [apply (SchBegin 0); vm_compute; reflexivity|]. apply rtc_refl.
Defined.
