(* ===== verification/Tasks.v ===== *)
(** * Tasks that can be scheduled again

    Models [include/hareflow/detail/reschedulable_task.h] and
    [src/reschedulable_task.cpp]: [AsyncTask], whose members belong to a strand,
    and [ReschedulableTask], whose state is shared, under a mutex, by the
    threads that schedule it, the strand and the thread of the background
    scheduler that runs the function.  Producers and consumers rely on
    [destroy]: once it has returned, the function does not run.

    Each definition is one critical section or one handler of the strand.  The
    timer is asio's: a wait that was started may end with success at any time,
    and cancelling it comes too late when its handler is already queued, so
    that [at_waits] counts the waits that may still succeed. *)

From S2P Require Import Prelude Words.

(** A handler posted to the strand; [HDestroy] belongs to the [i]-th call of
    [destroy]. *)
Inductive strand_handler := HNow | HAfter (delay : Z) | HCancel | HDestroy (i : nat).

(** Where an invocation is: handed to the scheduler, or in the function. *)
Inductive invocation_pc := IQueued | IFunction.

#[export] Instance invocation_pc_eq_dec : EqDecision invocation_pc.
Proof. solve_decision. Defined.

(** Where a call of [destroy] is: before its first critical section, waiting for
    the strand, before its second one, waiting for an invocation, before its
    last one, returned. *)
Inductive destroy_pc := DBegin | DStrand | DCurrent | DWait (invocation : nat) | DEnd | DReturned.

(** [t_invocations] are the invocations that have not ended, with their number;
    [t_started] counts the calls of the function, [t_triggers] those of the
    lambda given to [AsyncTask] that were counted. *)
Record Task := MkTask {
  at_function : bool;
  at_queue : list strand_handler;
  at_waits : nat;
  t_destroyed : bool;
  t_pending : Z;
  t_current : option nat;
  t_async_task : bool;
  t_invocations : list (nat * invocation_pc);
  t_next : nat;
  t_started : Z;
  t_triggers : Z;
  t_destroys : list destroy_pc
}.

Definition new_Task : Task := MkTask true [] 0 false 0 None true [] 0 0 0 [].

Definition set_strand (function : bool) (queue : list strand_handler) (waits : nat) (t : Task) : Task :=
  MkTask function queue waits (t_destroyed t) (t_pending t) (t_current t)
         (t_async_task t) (t_invocations t) (t_next t) (t_started t) (t_triggers t) (t_destroys t).
Definition set_destroys (destroyed : bool) (destroys : list destroy_pc) (t : Task) : Task :=
  MkTask (at_function t) (at_queue t) (at_waits t) destroyed (t_pending t) (t_current t)
         (t_async_task t) (t_invocations t) (t_next t) (t_started t) (t_triggers t) destroys.
Definition clear_async_task (t : Task) : Task :=
  MkTask (at_function t) (at_queue t) (at_waits t) (t_destroyed t) (t_pending t) (t_current t)
         false (t_invocations t) (t_next t) (t_started t) (t_triggers t) (t_destroys t).

Definition post (h : strand_handler) (t : Task) : Task :=
  set_strand (at_function t) (at_queue t ++ [h]) (at_waits t) t.

(** ** Scheduling *)

Definition schedule_now (t : Task) : Task :=
  if t_async_task t && negb (t_destroyed t) then post HNow t else t.

Definition schedule_after (delay : Z) (t : Task) : Task :=
  if t_async_task t && negb (t_destroyed t) then post (HAfter delay) t else t.

Definition cancel (t : Task) : Task := if t_async_task t then post HCancel t else t.

(** ** Invocations *)

(** The lambda that the constructor gives to [AsyncTask]. *)
Definition trigger (t : Task) : Task :=
  if t_destroyed t then t
  else
    let pending := t_pending t + 1 in
    if (pending =? 1) && bool_decide (t_current t = None) then
      MkTask (at_function t) (at_queue t) (at_waits t) (t_destroyed t) pending (Some (t_next t))
             (t_async_task t) (t_invocations t ++ [(t_next t, IQueued)]) (S (t_next t)) (t_started t) (t_triggers t + 1) (t_destroys t)
    else
      MkTask (at_function t) (at_queue t) (at_waits t) (t_destroyed t) pending (t_current t)
             (t_async_task t) (t_invocations t) (t_next t) (t_started t) (t_triggers t + 1) (t_destroys t).

(** The head of the loop of an invocation, when it begins and when the function
    returns: call the function again, or end. *)
Definition invocation_turn (n : nat) (t : Task) : option Task :=
  i ← list_find (fun x : nat * invocation_pc => x.1 = n) (t_invocations t);
  Some (if negb (t_destroyed t) && (0 <? t_pending t) then
      MkTask (at_function t) (at_queue t) (at_waits t) (t_destroyed t) (t_pending t - 1) (t_current t)
             (t_async_task t) (<[i.1 := (n, IFunction)]> (t_invocations t)) (t_next t) (t_started t + 1) (t_triggers t) (t_destroys t)
    else
      MkTask (at_function t) (at_queue t) (at_waits t) (t_destroyed t) (t_pending t) None
             (t_async_task t) (delete i.1 (t_invocations t)) (t_next t) (t_started t) (t_triggers t) (t_destroys t)).

(** ** The strand

    [left] of the waits cannot be cancelled any more. *)

Definition run_function (t : Task) : Task := if at_function t then trigger t else t.

Definition strand_step (left : nat) (t : Task) : option Task :=
  match at_queue t with
  | [] => None
  | h :: queue =>
      let left := Nat.min left (at_waits t) in
      Some match h with
           | HNow => run_function (set_strand (at_function t) queue left t)
           | HAfter _ =>
               if at_function t then set_strand true queue (S left) t
               else set_strand false queue (at_waits t) t
           | HCancel => set_strand (at_function t) queue left t
           | HDestroy i =>
               set_destroys (t_destroyed t) (<[i := DCurrent]> (t_destroys t)) (set_strand false queue left t)
           end
  end.

(** A wait ends with success. *)
Definition timer_step (t : Task) : option Task :=
  match at_waits t with
  | O => None
  | S waits => Some (run_function (set_strand (at_function t) (at_queue t) waits t))
  end.

(** ** destroy *)

Definition destroy_step (i : nat) (t : Task) : option Task :=
  pc ← t_destroys t !! i;
  let go pc := <[i := pc]> (t_destroys t) in
  match pc with
  | DBegin =>
      if t_async_task t then Some (post (HDestroy i) (set_destroys true (go DStrand) t))
      else Some (set_destroys (t_destroyed t) (go DReturned) t)
  | DStrand => None
  | DCurrent =>
      Some (set_destroys (t_destroyed t) (go match t_current t with Some n => DWait n | None => DEnd end) t)
  | DWait n =>
      if bool_decide (n ∈ (t_invocations t).*1) then None
      else Some (set_destroys (t_destroyed t) (go DEnd) t)
  | DEnd => Some (clear_async_task (set_destroys (t_destroyed t) (go DReturned) t))
  | DReturned => None
  end.

(** ** Every use of a task *)

Inductive tstep : Task -> Task -> Prop :=
| TsNow t : tstep t (schedule_now t)
| TsAfter delay t : tstep t (schedule_after delay t)
| TsCancel t : tstep t (cancel t)
| TsDestroyCall t : tstep t (set_destroys (t_destroyed t) (t_destroys t ++ [DBegin]) t)
| TsDestroy i t t' : destroy_step i t = Some t' -> tstep t t'
| TsStrand left t t' : strand_step left t = Some t' -> tstep t t'
| TsTimer t t' : timer_step t = Some t' -> tstep t t'
| TsTurn n t t' : invocation_turn n t = Some t' -> tstep t t'.

Definition task_reachable (t : Task) : Prop := rtc tstep new_Task t.

(** ** The invariant *)

Definition destroy_inv (destroyed : bool) (current : option nat) (async_task : bool) (pc : destroy_pc) : Prop :=
  match pc with
  | DBegin => True
  | DStrand | DCurrent => destroyed = true
  | DWait n => destroyed = true /\ (current = None \/ current = Some n)
  | DEnd => destroyed = true /\ current = None
  | DReturned => async_task = false
  end.

Record tinv (t : Task) : Prop := MkTInv {
  ti_current : match t_current t with
               | Some n => exists pc, t_invocations t = [(n, pc)]
               | None => t_invocations t = []
               end;
  ti_count : t_triggers t = t_started t + t_pending t;
  ti_pending : 0 <= t_pending t;
  ti_served : t_destroyed t = false -> 0 < t_pending t -> t_current t <> None;
  ti_async : t_async_task t = false -> t_destroyed t = true /\ t_current t = None;
  ti_destroys : Forall (destroy_inv (t_destroyed t) (t_current t) (t_async_task t)) (t_destroys t);
  ti_queue i : HDestroy i ∈ at_queue t -> t_destroyed t = true
}.

Lemma tinv_strand f q w t :
  tinv t -> (forall i, HDestroy i ∈ q -> t_destroyed t = true) -> tinv (set_strand f q w t).
Proof. intros [] Hq. now constructor. Qed.

Lemma tinv_post h t : tinv t -> (forall i, h = HDestroy i -> t_destroyed t = true) -> tinv (post h t).
Proof.
  intros Ht Hh. apply tinv_strand; [done|]. intros i Hi. apply elem_of_app in Hi as [Hi|Hi].
  - eapply ti_queue; eassumption.
  - apply list_elem_of_singleton in Hi. eauto.
Qed.

(** While nothing is destroyed, calls of [destroy] have not begun. *)
Lemma destroy_inv_alive current current' async_task ds :
  async_task = true ->
  Forall (destroy_inv false current async_task) ds -> Forall (destroy_inv false current' async_task) ds.
Proof.
  intros -> H. eapply Forall_impl; [exact H|]. intros [] Hd; simpl in *; try done; now destruct Hd.
Qed.

Lemma tinv_trigger t : tinv t -> tinv (trigger t).
Proof.
  intros Ht. unfold trigger. destruct (t_destroyed t) eqn:Ed; [done|]. destruct Ht as [Hc Hn Hp Hs Ha Hd Hq]. rewrite Ed in *.
  assert (t_async_task t = true) as Eas by (destruct (t_async_task t); [done|]; now destruct (Ha eq_refl)).
  destruct (Z.eqb_spec (t_pending t + 1) 1) as [E|E]; simpl.
  - destruct (bool_decide_reflect (t_current t = None)) as [Ec|Ec].
    + rewrite Ec in Hc. constructor; simpl; rewrite ?Hc, ?Ed; try lia; try done; [by eexists | congruence|].
      eapply destroy_inv_alive; [done | exact Hd].
    + constructor; simpl; rewrite ?Ed; try lia; try done.
  - constructor; simpl; rewrite ?Ed; try lia; try done. intros _ _. apply Hs; [done | lia].
Qed.

Lemma tinv_run_function t : tinv t -> tinv (run_function t).
Proof. intros Ht. unfold run_function. destruct (at_function t); [now apply tinv_trigger | done]. Qed.

Lemma tinv_destroys t ds :
  tinv t -> Forall (destroy_inv (t_destroyed t) (t_current t) (t_async_task t)) ds ->
  tinv (set_destroys (t_destroyed t) ds t).
Proof. intros [] Hd. now constructor. Qed.

Lemma tinv_go i pc t :
  tinv t -> destroy_inv (t_destroyed t) (t_current t) (t_async_task t) pc ->
  tinv (set_destroys (t_destroyed t) (<[i := pc]> (t_destroys t)) t).
Proof. intros Ht Hpc. apply tinv_destroys; [done|]. apply Forall_insert; [apply Ht | done]. Qed.

(** Once the flag is set, what was true of a call of [destroy] stays true. *)
Lemma destroy_inv_flag b current async_task pc :
  destroy_inv b current async_task pc -> destroy_inv true current async_task pc.
Proof. destruct pc; simpl; tauto. Qed.

Lemma tinv_destroy_step i t t' : tinv t -> destroy_step i t = Some t' -> tinv t'.
Proof.
  intros Ht E. unfold destroy_step in E. destruct (t_destroys t !! i) as [pc|] eqn:Ei; [|discriminate]. simpl in E.
  pose proof (Forall_lookup_1 _ _ _ _ (ti_destroys t Ht) Ei) as Hpc. destruct pc as [| | |n| |]; try discriminate; simpl in Hpc.
  - destruct (t_async_task t) eqn:Ea; injection E as <-; [|now apply tinv_go].
    apply tinv_post; [|done]. destruct Ht as [Hc Hn Hp Hs Ha Hd Hq]. constructor; try done; simpl.
    + rewrite Ea. discriminate.
    + apply Forall_insert; [|done]. eapply Forall_impl; [exact Hd|]. intros pc. apply destroy_inv_flag.
  - injection E as <-. apply tinv_go; [done|]. destruct (t_current t); simpl; auto.
  - case_bool_decide as Hin; [discriminate|]. injection E as <-. apply tinv_go; [done|]. simpl. split; [apply Hpc|].
    destruct Hpc as [_ [H|H]]; [done|]. destruct Ht as [Hc _ _ _ _ _ _]. rewrite H in Hc. destruct Hc as [pc Hc].
    destruct Hin. rewrite Hc. left.
  - injection E as <-. destruct Ht as [Hc Hn Hp Hs Ha Hd Hq]. constructor; try done. simpl.
    apply Forall_insert; [|done]. eapply Forall_impl; [exact Hd|]. intros [] H; simpl in *; tauto.
Qed.

Lemma tinv_turn n t t' : tinv t -> invocation_turn n t = Some t' -> tinv t'.
Proof.
  intros [Hc Hn Hp Hs Ha Hd Hq] E. unfold invocation_turn in E.
  destruct (list_find _ (t_invocations t)) as [[i x]|] eqn:Ef; [|discriminate]. simpl in E.
  apply list_find_Some in Ef as (Ei & Ex & _). destruct (t_current t) as [m|] eqn:Ec; [|now rewrite Hc in Ei].
  destruct Hc as [pc Hc]. rewrite Hc in Ei. destruct i as [|i]; [|discriminate]. injection Ei as <-. simpl in Ex. subst m.
  destruct (negb (t_destroyed t) && (0 <? t_pending t)) eqn:Eg; injection E as <-.
  - bool_to_prop. constructor; simpl; rewrite ?Ec, ?Hc; try lia; try done. simpl. by eexists.
  - constructor; simpl; rewrite ?Hc; try done.
    + intros Ed Hpos. rewrite Ed in Eg. simpl in Eg. bool_to_prop. lia.
    + intros E. now destruct (Ha E).
    + eapply Forall_impl; [exact Hd|]. intros []; simpl; tauto.
Qed.

Lemma tinv_strand_step left t t' : tinv t -> strand_step left t = Some t' -> tinv t'.
Proof.
  intros Ht E. unfold strand_step in E. pose proof (ti_queue t Ht) as Hq.
  destruct (at_queue t) as [|h queue]; [discriminate|]. injection E as <-.
  assert (forall i, HDestroy i ∈ queue -> t_destroyed t = true) as Hq' by (intros i Hi; apply (Hq i); now right).
  destruct h as [|delay| |i].
  - now apply tinv_run_function, tinv_strand.
  - destruct (at_function t); now apply tinv_strand.
  - now apply tinv_strand.
  - apply (tinv_go i DCurrent (set_strand false queue _ t)); [now apply tinv_strand|]. simpl. apply (Hq i). left.
Qed.

Lemma tinv_step t t' : tinv t -> tstep t t' -> tinv t'.
Proof.
  intros Ht Hs. revert Ht. destruct Hs as [t|delay t|t|t|i t t' E|left t t' E|t t' E|n t t' E]; intros Ht.
  - unfold schedule_now. destruct (_ && _); [now apply tinv_post | done].
  - unfold schedule_after. destruct (_ && _); [now apply tinv_post | done].
  - unfold cancel. destruct (t_async_task t); [now apply tinv_post | done].
  - apply tinv_destroys; [done|]. apply Forall_app. split; [apply Ht | now repeat constructor].
  - eapply tinv_destroy_step; eassumption.
  - eapply tinv_strand_step; eassumption.
  - unfold timer_step in E. destruct (at_waits t); [discriminate|]. injection E as <-.
    apply tinv_run_function, tinv_strand; [done | apply Ht].
  - eapply tinv_turn; eassumption.
Qed.

Lemma trigger_started t : t_started (trigger t) = t_started t.
Proof. unfold trigger. destruct (t_destroyed t); [done|]. now destruct (_ && _). Qed.

(** Only a turn of an invocation calls the function. *)
Lemma no_invocation_no_start t t' : t_invocations t = [] -> tstep t t' -> t_started t' = t_started t.
Proof.
  intros Hi Hs. destruct Hs as [t|delay t|t|t|i t t' E|left t t' E|t t' E|n t t' E].
  - unfold schedule_now. now destruct (_ && _).
  - unfold schedule_after. now destruct (_ && _).
  - unfold cancel. now destruct (t_async_task t).
  - done.
  - unfold destroy_step in E. destruct (t_destroys t !! i) as [[]|]; try discriminate; simpl in E;
      repeat case_match; simplify_eq; done.
  - unfold strand_step in E. destruct (at_queue t) as [|[] queue]; try discriminate; injection E as <-; try done.
    + unfold run_function. case_match; [now rewrite trigger_started | done].
    + now destruct (at_function t).
  - unfold timer_step in E. destruct (at_waits t); [discriminate|]. injection E as <-.
    unfold run_function. case_match; [now rewrite trigger_started | done].
  - unfold invocation_turn in E. now rewrite Hi in E.
Qed.

Lemma tinv_reachable t : task_reachable t -> tinv t.
Proof.
  intros Hr. unfold task_reachable in Hr. cut (tinv new_Task).
  - induction Hr; eauto using tinv_step.
  - constructor; simpl; try done. intros i Hi. now apply elem_of_nil in Hi.
Qed.

(** C35: at most one invocation of the function is under way; every trigger that
    is counted is served by one call of the function, and as long as the task is
    not destroyed a trigger that waits has an invocation to serve it; and once a
    call of [destroy] has returned, no invocation is under way, and no step of
    any thread calls the function again. *)
Theorem task_invocations t :
  task_reachable t ->
  (length (t_invocations t) <= 1)%nat /\
  t_triggers t = t_started t + t_pending t /\
  (t_destroyed t = false -> 0 < t_pending t -> t_invocations t <> []) /\
  (DReturned ∈ t_destroys t ->
   t_invocations t = [] /\ forall t', tstep t t' -> t_started t' = t_started t).
Proof.
  intros Hr. destruct (tinv_reachable t Hr) as [Hc Hn Hp Hs Ha Hd Hq]. split; [|split; [done|split]].
  - destruct (t_current t); [destruct Hc as [pc ->] | rewrite Hc]; simpl; lia.
  - intros Ed Hpos. specialize (Hs Ed Hpos). destruct (t_current t); [|done]. destruct Hc as [pc ->]. done.
  - intros Hret. rewrite Forall_forall in Hd. specialize (Hd _ Hret). simpl in Hd. destruct (Ha Hd) as [Ed Ec].
    rewrite Ec in Hc. split; [done|]. intros t' Hstep. eapply no_invocation_no_start; eassumption.
Qed.

(** ** A scheduled task runs

    [armed]: the task was scheduled and its function has not been called since.
    [healthy]: nobody destroyed or cancelled it. *)

Definition armed (t : Task) : Prop :=
  HNow ∈ at_queue t \/ (exists delay, HAfter delay ∈ at_queue t) \/ (0 < at_waits t)%nat \/ 0 < t_pending t.

Definition schedules (h : strand_handler) : bool := match h with HNow | HAfter _ => true | _ => false end.

Record healthy (t : Task) : Prop := MkHealthy {
  h_function : at_function t = true;
  h_alive : t_destroyed t = false;
  h_async : t_async_task t = true;
  h_queue : Forall (fun h => schedules h = true) (at_queue t);
  h_destroys : t_destroys t = []
}.

(** The steps of a task that nobody destroys or cancels; the first component
    tells whether the function is called. *)
Inductive quiet_tstep : bool -> Task -> Task -> Prop :=
| QtStrand left t t' : strand_step left t = Some t' -> quiet_tstep false t t'
| QtTimer t t' : timer_step t = Some t' -> quiet_tstep false t t'
| QtCall n t t' : invocation_turn n t = Some t' -> t_started t' = t_started t + 1 -> quiet_tstep true t t'
| QtEnd n t t' : invocation_turn n t = Some t' -> t_started t' = t_started t -> quiet_tstep false t t'.

Lemma quiet_tstep_tstep b t t' : quiet_tstep b t t' -> tstep t t'.
Proof. intros []; eauto using tstep. Qed.

Lemma healthy_new : healthy new_Task.
Proof. now constructor. Qed.

Lemma schedule_now_healthy t : healthy t -> healthy (schedule_now t) /\ armed (schedule_now t).
Proof.
  intros [Hf Ha Hs Hq Hd]. unfold schedule_now, armed. rewrite Hs, Ha. simpl. split; [|left; set_solver].
  constructor; simpl; try done. now apply Forall_app; split; [|repeat constructor].
Qed.

Lemma schedule_after_healthy delay t : healthy t -> healthy (schedule_after delay t) /\ armed (schedule_after delay t).
Proof.
  intros [Hf Ha Hs Hq Hd]. unfold schedule_after, armed. rewrite Hs, Ha. simpl.
  split; [|right; left; exists delay; set_solver].
  constructor; simpl; try done. now apply Forall_app; split; [|repeat constructor].
Qed.

Lemma trigger_healthy t : healthy t -> tinv t -> healthy (trigger t) /\ armed (trigger t).
Proof.
  intros [Hf Ha Hs Hq Hd] Hi. unfold trigger, armed. rewrite Ha. pose proof (ti_pending t Hi).
  destruct (_ && _); (split; [now constructor | right; right; right; simpl; lia]).
Qed.

(** Until the function is called, an armed task stays armed. *)
Lemma quiet_tstep_armed b t t' :
  healthy t -> tinv t -> quiet_tstep b t t' -> healthy t' /\ (armed t -> b = true \/ armed t').
Proof.
  intros Hh Hi Hs. pose proof Hh as [Hf Ha Has Hq Hd]. destruct Hs as [left t t' E|t t' E|n t t' E El|n t t' E El].
  - unfold strand_step in E. destruct (at_queue t) as [|h queue] eqn:Eq; [discriminate|]. injection E as <-.
    apply Forall_cons in Hq as [Hsch Hq].
    assert (forall f w, tinv (set_strand f queue w t)) as Hti.
    { intros f w. apply tinv_strand; [done|]. intros i Hin. apply (ti_queue t Hi i). rewrite Eq. now right. }
    destruct h as [|delay| |i]; try discriminate.
    + destruct (trigger_healthy (set_strand (at_function t) queue (Nat.min left (at_waits t)) t)); [now constructor | apply Hti|].
      unfold run_function. simpl. rewrite Hf in *. auto.
    + rewrite Hf. split; [now constructor|]. intros _. right. right; right; left. simpl. lia.
  - unfold timer_step in E. destruct (at_waits t) as [|w]; [discriminate|]. injection E as <-.
    destruct (trigger_healthy (set_strand (at_function t) (at_queue t) w t)); [now constructor | |].
    + apply tinv_strand; [done | apply Hi].
    + unfold run_function. simpl. rewrite Hf in *. auto.
  - unfold invocation_turn in E. destruct (list_find _ (t_invocations t)) as [[i x]|]; [|discriminate]. simpl in E.
    destruct (negb _ && _); injection E as <-; (split; [now constructor | auto]).
  - unfold invocation_turn in E. destruct (list_find _ (t_invocations t)) as [[i x]|]; [|discriminate]. simpl in E.
    destruct (negb _ && _); injection E as <-; (split; [now constructor|]); [simpl in El; lia|].
    intros Har. now right.
Qed.

Abbreviation silent_tsteps := (rtc (quiet_tstep false)).

Lemma pending_calls t :
  healthy t -> tinv t -> 0 < t_pending t -> exists t', quiet_tstep true t t'.
Proof.
  intros [Hf Ha Hs Hq Hd] Hi Hp. pose proof (ti_served t Hi Ha Hp) as Hc. pose proof (ti_current t Hi) as Hcur.
  destruct (t_current t) as [n|]; [|done]. destruct Hcur as [pc Hinv].
  eexists. apply (QtCall n); [|shelve]. unfold invocation_turn. rewrite Hinv. simpl. rewrite decide_True by done. simpl.
  rewrite Ha. simpl. rewrite (proj2 (Z.ltb_lt 0 (t_pending t))) by done. reflexivity.
  Unshelve. reflexivity.
Qed.

Lemma trigger_pending t : healthy t -> tinv t -> 0 < t_pending (trigger t).
Proof.
  intros [Hf Ha Hs Hq Hd] Hi. unfold trigger. rewrite Ha. pose proof (ti_pending t Hi). destruct (_ && _); simpl; lia.
Qed.

Lemma waiting_calls t :
  healthy t -> tinv t -> (0 < at_waits t)%nat -> exists t1 t2, silent_tsteps t t1 /\ quiet_tstep true t1 t2.
Proof.
  intros Hh Hi Hw. destruct (at_waits t) as [|w] eqn:Ew; [lia|].
  assert (quiet_tstep false t (run_function (set_strand (at_function t) (at_queue t) w t))) as Hs
    by (apply QtTimer; unfold timer_step; now rewrite Ew).
  pose proof (tinv_step _ _ Hi (quiet_tstep_tstep _ _ _ Hs)) as Hi'.
  destruct (quiet_tstep_armed _ _ _ Hh Hi Hs) as [Hh' _].
  destruct (pending_calls _ Hh' Hi') as [t2 Ht2]; [|eauto using rtc_once].
  unfold run_function. simpl. rewrite (h_function t Hh). apply trigger_pending.
  - destruct Hh. now constructor.
  - apply tinv_strand; [done | apply Hi].
Qed.

Lemma armed_calls t :
  healthy t -> tinv t -> armed t -> exists t1 t2, silent_tsteps t t1 /\ quiet_tstep true t1 t2.
Proof.
  intros Hh Hi Har. destruct (decide (0 < t_pending t)) as [Hp|Hp].
  { destruct (pending_calls t Hh Hi Hp) as [t2 Ht2]. eauto using rtc_refl. }
  destruct (decide (0 < at_waits t)%nat) as [Hw|Hw]; [now apply waiting_calls|].
  destruct (at_queue t) as [|h queue] eqn:Eq.
  { unfold armed in Har. rewrite Eq in Har. destruct Har as [H|[[d H]|[H|H]]]; [now apply elem_of_nil in H.. | done | done]. }
  destruct (strand_step 0 t) as [t1|] eqn:E; [|unfold strand_step in E; now rewrite Eq in E].
  pose proof (QtStrand 0 t t1 E) as Hs. pose proof (tinv_step _ _ Hi (quiet_tstep_tstep _ _ _ Hs)) as Hi1.
  destruct (quiet_tstep_armed _ _ _ Hh Hi Hs) as [Hh1 Ha1].
  assert (0 < t_pending t1 \/ (0 < at_waits t1)%nat) as [Hp1|Hw1].
  { pose proof Hh as [Hf Ha _ Hq _]. rewrite Eq in Hq. apply Forall_cons in Hq as [Hsch Hq].
    unfold strand_step in E. rewrite Eq in E. injection E as <-. destruct h as [|delay| |i]; try discriminate.
    - left. unfold run_function. simpl. rewrite Hf. apply trigger_pending.
      + destruct Hh. now constructor.
      + apply tinv_strand; [done|]. intros i Hin. apply (ti_queue t Hi i). rewrite Eq. now right.
    - right. rewrite Hf. simpl. lia. }
  - destruct (pending_calls t1 Hh1 Hi1 Hp1) as [t2 Ht2]. eauto using rtc_once.
  - destruct (waiting_calls t1 Hh1 Hi1 Hw1) as (t2 & t3 & H1 & H2). eauto using rtc_l.
Qed.

(** Everything that happens to a task that is never destroyed nor cancelled. *)
Inductive owner_step : Task -> Task -> Prop :=
| OwNow t : owner_step t (schedule_now t)
| OwAfter delay t : owner_step t (schedule_after delay t)
| OwQuiet b t t' : quiet_tstep b t t' -> owner_step t t'.

Definition owner_reachable (t : Task) : Prop := rtc owner_step new_Task t.

Lemma owner_step_inv t t' : healthy t -> tinv t -> owner_step t t' -> healthy t' /\ tinv t'.
Proof.
  intros Hh Hi Hs. revert Hh Hi. destruct Hs as [t0|delay t0|b t0 t1 Hs]; intros Hh Hi.
  - split; [now apply schedule_now_healthy | apply (tinv_step _ _ Hi), TsNow].
  - split; [now apply schedule_after_healthy | apply (tinv_step _ _ Hi), TsAfter].
  - split; [apply (quiet_tstep_armed b t0 t1); done | eapply (tinv_step _ _ Hi), quiet_tstep_tstep, Hs].
Qed.

Lemma owner_reachable_inv t : owner_reachable t -> healthy t /\ tinv t.
Proof.
  intros Hr. unfold owner_reachable in Hr. cut (healthy new_Task /\ tinv new_Task).
  - induction Hr as [|x y z Hs Hr IH]; [done|]. intros [Hh Hi]. eapply IH, owner_step_inv; eassumption.
  - split; [apply healthy_new | apply tinv_reachable, rtc_refl].
Qed.

Lemma armed_post h t : armed t -> armed (post h t).
Proof.
  unfold armed, post. simpl. intros [H|[[d H]|H]]; [left | right; left; exists d | right; right; done]; set_solver.
Qed.

Lemma armed_schedules t delay : armed t -> armed (schedule_now t) /\ armed (schedule_after delay t).
Proof.
  intros H. unfold schedule_now, schedule_after. destruct (_ && _); auto using armed_post.
Qed.

(** A task that is scheduled is run: after [schedule_now] or
    [schedule_after] it stays armed whatever happens to it until its function
    is called, also when it is scheduled again, and whenever it is armed the strand, the timer
    and the thread of the scheduler can take it to a call of the function. *)
Theorem scheduled_task_runs t :
  owner_reachable t ->
  (forall delay, armed (schedule_now t) /\ armed (schedule_after delay t)) /\
  (forall t', armed t -> owner_step t t' -> armed t' \/ t_started t' = t_started t + 1) /\
  (armed t -> exists t1 t2, silent_tsteps t t1 /\ quiet_tstep true t1 t2 /\ t_started t2 = t_started t1 + 1).
Proof.
  intros Hr. destruct (owner_reachable_inv t Hr) as [Hh Hi]. split; [|split].
  - intros delay. split; [apply schedule_now_healthy, Hh | apply schedule_after_healthy, Hh].
  - intros t' Har Hs. clear Hr. revert Hh Hi Har. destruct Hs as [t0|delay t0|b t0 t1 Hs]; intros Hh Hi Har.
    + left. apply (armed_schedules t0 0 Har).
    + left. apply (armed_schedules t0 delay Har).
    + destruct (quiet_tstep_armed _ _ _ Hh Hi Hs) as [_ H]. destruct (H Har) as [->|H']; [right | now left].
      now inversion Hs.
  - intros Har. destruct (armed_calls t Hh Hi Har) as (t1 & t2 & H1 & H2). exists t1, t2.
    repeat split; [done | done | now inversion H2].
Qed.

(** Scheduled twice, the second time while a wait is under way. *)
Definition rescheduled_task : Task := schedule_now (set_strand true [] 1 new_Task).

Lemma scheduled_task_runs_witness :
  armed rescheduled_task /\
  exists t1 t2, silent_tsteps rescheduled_task t1 /\ quiet_tstep true t1 t2 /\ t_started t2 = t_started t1 + 1.
Proof.
  assert (owner_reachable rescheduled_task) as Hr.
  { unfold owner_reachable. eapply rtc_l; [apply (OwAfter 5)|].
    eapply rtc_l; [apply (OwQuiet false), (QtStrand 0); reflexivity|]. apply rtc_once, OwNow. }
  assert (armed rescheduled_task) as Ha by (left; vm_compute; left).
  split; [exact Ha | apply (scheduled_task_runs rescheduled_task Hr), Ha].
Defined.

(** Two triggers, a destruction while the function runs, and its end. *)
Definition example_task : option Task :=
  let t := schedule_now (schedule_now new_Task) in
  t ← strand_step 0 t;
  t ← strand_step 0 t;
  t ← invocation_turn 0 t;
  let t := set_destroys (t_destroyed t) (t_destroys t ++ [DBegin]) t in
  t ← destroy_step 0 t;
  t ← strand_step 0 t;
  t ← destroy_step 0 t;
  t ← invocation_turn 0 t;
  t ← destroy_step 0 t;
  destroy_step 0 t.

Lemma example_task_reachable t : example_task = Some t -> task_reachable t.
Proof.
  intros E. unfold task_reachable. do 2 (eapply rtc_l; [apply TsNow|]).
  eapply rtc_l; [apply (TsStrand 0); vm_compute; reflexivity|].
  eapply rtc_l; [apply (TsStrand 0); vm_compute; reflexivity|].
  eapply rtc_l; [apply (TsTurn 0); vm_compute; reflexivity|].
  eapply rtc_l; [apply TsDestroyCall|].
  eapply rtc_l; [apply (TsDestroy 0); vm_compute; reflexivity|].
  eapply rtc_l; [apply (TsStrand 0); vm_compute; reflexivity|].
  eapply rtc_l; [apply (TsDestroy 0); vm_compute; reflexivity|].
  eapply rtc_l; [apply (TsTurn 0); vm_compute; reflexivity|].
  eapply rtc_l; [apply (TsDestroy 0); vm_compute; reflexivity|].
  eapply rtc_l; [apply (TsDestroy 0); vm_compute; reflexivity|].
  vm_compute in E. injection E as <-. apply rtc_refl.
Qed.

Definition finished_task : Task := MkTask false [] 0 true 1 None false [] 1 1 2 [DReturned].

Lemma task_invocations_witness :
  example_task = Some finished_task /\
  t_invocations finished_task = [] /\ forall t', tstep finished_task t' -> t_started t' = 1.
Proof.
  split; [vm_compute; reflexivity|].
  apply (task_invocations finished_task); [|left]. apply example_task_reachable. vm_compute. reflexivity.
Defined.
