(* ===== verification/TaskHandles.v ===== *)
(** * The objects of type ReschedulableTask

    The rest of [src/reschedulable_task.cpp].  A [ReschedulableTask] owns, through
    a [unique_ptr], the state that [Tasks] models; the lambdas that the strand and
    the scheduler run hold a raw pointer to that state.  So a state must not be
    freed while one of them can still run: constructors, moves and the destructor
    are modelled here over a heap of states, and [destroy], which the destructor
    and the assignment wait for, is shown to return. *)

From S2P Require Import Prelude Words Tasks.

(** ** destroy returns *)

(** What a task does once nobody calls it: its strand, its timer, its
    invocations and the calls of [destroy] under way. *)
Inductive internal_tstep : Task -> Task -> Prop :=
| ItDestroy i t t' : destroy_step i t = Some t' -> internal_tstep t t'
| ItStrand left t t' : strand_step left t = Some t' -> internal_tstep t t'
| ItTimer t t' : timer_step t = Some t' -> internal_tstep t t'
| ItTurn n t t' : invocation_turn n t = Some t' -> internal_tstep t t'.

Lemma internal_tstep_tstep t t' : internal_tstep t t' -> tstep t t'.
Proof. intros []; eauto using tstep. Qed.

(** The calls of [destroy] that have a handler in the queue. *)
Definition destroy_of (h : strand_handler) : list nat := match h with HDestroy i => [i] | _ => [] end.
Definition queued_destroys (t : Task) : list nat := flat_map destroy_of (at_queue t).

(** Past the strand, the lambda given to [AsyncTask] is gone. *)
Definition past_strand (pc : destroy_pc) : bool :=
  match pc with DCurrent | DWait _ | DEnd => true | _ => false end.

Record dinv (t : Task) : Prop := MkDInv {
  di_nodup : NoDup (queued_destroys t);
  di_queued i : i ∈ queued_destroys t <-> t_destroys t !! i = Some DStrand;
  di_lambda : Forall (fun pc => past_strand pc = true -> at_function t = false) (t_destroys t);
  di_async : t_async_task t = false -> at_function t = false
}.

Lemma dinv_new : dinv new_Task.
Proof. constructor; simpl; [constructor | | constructor | done]. intros i. split; [intros H; by apply elem_of_nil in H | done]. Qed.

(** Steps that leave the strand's queue and the calls of [destroy] alone. *)
Lemma dinv_same t t' :
  dinv t -> at_queue t' = at_queue t -> t_destroys t' = t_destroys t -> at_function t' = at_function t ->
  t_async_task t' = t_async_task t -> dinv t'.
Proof.
  intros [H1 H2 H3 H4] Eq Ed Ef Ea.
  constructor; unfold queued_destroys in *; rewrite ?Eq, ?Ed, ?Ef, ?Ea; auto.
Qed.

Lemma dinv_queue q w t :
  dinv t -> flat_map destroy_of q = queued_destroys t -> dinv (set_strand (at_function t) q w t).
Proof. intros [H1 H2 H3 H4] Eq. constructor; unfold queued_destroys in *; simpl; rewrite ?Eq; auto. Qed.

Lemma dinv_post h t : dinv t -> destroy_of h = [] -> dinv (post h t).
Proof.
  intros Hd Hh. apply dinv_queue; [done|]. rewrite flat_map_app. simpl. by rewrite Hh, !app_nil_r.
Qed.

Lemma trigger_same t :
  at_queue (trigger t) = at_queue t /\ t_destroys (trigger t) = t_destroys t /\
  at_function (trigger t) = at_function t /\ t_async_task (trigger t) = t_async_task t.
Proof. unfold trigger. destruct (t_destroyed t); [done|]. by destruct (_ && _). Qed.

Lemma dinv_run_function t : dinv t -> dinv (run_function t).
Proof.
  intros Hd. unfold run_function. destruct (at_function t) eqn:Ef; [|done].
  destruct (trigger_same t) as (E1 & E2 & E3 & E4). by eapply dinv_same.
Qed.

(** A call of [destroy] that is not at the strand goes on. *)
Lemma dinv_go i pc pc' b t :
  dinv t -> t_destroys t !! i = Some pc -> pc <> DStrand -> pc' <> DStrand ->
  (past_strand pc' = true -> at_function t = false) -> dinv (set_destroys b (<[i := pc']> (t_destroys t)) t).
Proof.
  intros [H1 H2 H3 H4] Ei Hpc Hpc' Hf. constructor; simpl; [done | | by apply Forall_insert | done].
  intros j. change (queued_destroys _) with (queued_destroys t). rewrite H2. destruct (decide (i = j)) as [<-|Hne].
  - rewrite list_lookup_insert_eq by (eapply lookup_lt_Some, Ei). rewrite Ei. split; intros [= ->]; done.
  - by rewrite list_lookup_insert_ne.
Qed.

Lemma dinv_clear t : dinv t -> (exists i, t_destroys t !! i = Some DEnd) -> dinv (clear_async_task t).
Proof.
  intros [H1 H2 H3 H4] [i Ei]. constructor; try done. intros _. simpl. by apply (Forall_lookup_1 _ _ _ _ H3 Ei).
Qed.

Lemma dinv_destroy_step i t t' : dinv t -> destroy_step i t = Some t' -> dinv t'.
Proof.
  intros Hd E. unfold destroy_step in E. destruct (t_destroys t !! i) as [pc|] eqn:Ei; [|done]. simpl in E.
  pose proof Hd as [H1 H2 H3 H4]. pose proof (Forall_lookup_1 _ _ _ _ H3 Ei) as Hf. simpl in Hf.
  destruct pc as [| | |n| |]; try done.
  - destruct (t_async_task t) eqn:Ea; injection E as <-; [|by eapply dinv_go].
    assert (i ∉ queued_destroys t) as Hni by (rewrite H2, Ei; done).
    pose proof (lookup_lt_Some _ _ _ Ei) as Hlt.
    constructor; unfold queued_destroys, post in *; simpl; rewrite ?flat_map_app; simpl; [| | |by rewrite Ea].
    + apply NoDup_app. split; [done|]. split; [|apply NoDup_singleton].
      intros j Hj. rewrite list_elem_of_singleton. by intros ->.
    + intros j. rewrite elem_of_app, list_elem_of_singleton, H2. destruct (decide (i = j)) as [<-|Hne].
      * rewrite list_lookup_insert_eq by done. split; [done | by right].
      * rewrite list_lookup_insert_ne by done. split; [intros [H|H]; [done | by destruct Hne] | by left].
    + apply Forall_insert; [done | by simpl].
  - injection E as <-. eapply dinv_go; [done | done | done | by destruct (t_current t)|]. by intros _; apply Hf.
  - case_bool_decide; [done|]. injection E as <-. eapply dinv_go; [done | done | done | done | by intros _; apply Hf].
  - injection E as <-.
    assert (dinv (set_destroys (t_destroyed t) (<[i := DReturned]> (t_destroys t)) t)) as [G1 G2 G3 G4] by (by eapply dinv_go).
    constructor; try done. intros _. simpl. by apply Hf.
Qed.

Lemma dinv_strand_step left t t' : dinv t -> strand_step left t = Some t' -> dinv t'.
Proof.
  intros Hd E. unfold strand_step in E. pose proof Hd as [H1 H2 H3 H4]. unfold queued_destroys in *.
  destruct (at_queue t) as [|h queue] eqn:Eq; [done|]. injection E as <-.
  destruct h as [|delay| |i]; simpl in H1, H2.
  - apply dinv_run_function, dinv_queue; [done|]. unfold queued_destroys. by rewrite Eq.
  - destruct (at_function t) eqn:Ef; rewrite <- Ef; (apply dinv_queue; [done|]); unfold queued_destroys; by rewrite Eq.
  - apply dinv_queue; [done|]. unfold queued_destroys. by rewrite Eq.
  - apply NoDup_cons in H1 as [Hni H1]. assert (t_destroys t !! i = Some DStrand) as Ei by (apply H2; left).
    pose proof (lookup_lt_Some _ _ _ Ei) as Hlt.
    constructor; unfold queued_destroys; simpl; [done | | | done].
    + intros j. specialize (H2 j). rewrite elem_of_cons in H2. destruct (decide (i = j)) as [<-|Hne].
      * rewrite list_lookup_insert_eq by done. split; [done | discriminate].
      * rewrite list_lookup_insert_ne by done. rewrite <- H2. split; [by right | intros [H|H]; [by destruct Hne | done]].
    + apply Forall_insert; [|done]. eapply Forall_impl; [exact H3|]. done.
Qed.

Lemma dinv_step t t' : dinv t -> tstep t t' -> dinv t'.
Proof.
  intros Hd Hs. revert Hd. destruct Hs as [t|delay t|t|t|i t t' E|left t t' E|t t' E|n t t' E]; intros Hd.
  - unfold schedule_now. destruct (_ && _); [by apply dinv_post | done].
  - unfold schedule_after. destruct (_ && _); [by apply dinv_post | done].
  - unfold cancel. destruct (t_async_task t); [by apply dinv_post | done].
  - destruct Hd as [H1 H2 H3 H4]. constructor; simpl; [done | | apply Forall_app; by repeat constructor | done].
    intros j. change (queued_destroys _) with (queued_destroys t). rewrite H2, lookup_app_Some. split; [by left|].
    intros [H|[_ H]]; [done|]. by destruct (j - _)%nat.
  - by eapply dinv_destroy_step.
  - by eapply dinv_strand_step.
  - unfold timer_step in E. destruct (at_waits t); [done|]. injection E as <-. by apply dinv_run_function, dinv_queue.
  - unfold invocation_turn in E. destruct (list_find _ (t_invocations t)) as [[i x]|]; [|done]. simpl in E.
    injection E as <-. by destruct (negb _ && _); eapply dinv_same.
Qed.

Lemma dinv_reachable t : task_reachable t -> dinv t.
Proof. intros Hr. unfold task_reachable in Hr. pose proof dinv_new as Hd. revert Hd. induction Hr; eauto using dinv_step. Qed.

(** A bound on the steps of a task that is being destroyed. *)
Definition destroy_rank (pc : destroy_pc) : nat :=
  match pc with DBegin => 8 | DStrand => 5 | DCurrent => 3 | DWait _ => 2 | DEnd => 1 | DReturned => 0 end.

Definition destroy_measure (t : Task) : nat :=
  2 * length (at_queue t) + at_waits t + length (t_invocations t) + sum_list (map destroy_rank (t_destroys t)).

Lemma sum_list_insert (f : destroy_pc -> nat) l i x y :
  l !! i = Some x -> (sum_list (map f (<[i := y]> l)) + f x = sum_list (map f l) + f y)%nat.
Proof.
  revert i. induction l as [|z l IH]; intros i E; [done|]. destruct i as [|i]; simpl in *.
  - injection E as ->. lia.
  - specialize (IH i E). lia.
Qed.

Lemma trigger_destroyed t : t_destroyed t = true -> run_function t = t.
Proof. intros E. unfold run_function, trigger. rewrite E. by destruct (at_function t). Qed.

Lemma internal_tstep_measure t t' :
  dinv t -> t_destroyed t = true -> internal_tstep t t' ->
  t_destroyed t' = true /\ (destroy_measure t' < destroy_measure t)%nat.
Proof.
  intros Hd Ed Hs. destruct Hs as [i t t' E|left t t' E|t t' E|n t t' E]; unfold destroy_measure.
  - unfold destroy_step in E. destruct (t_destroys t !! i) as [pc|] eqn:Ei; [|done]. simpl in E.
    destruct pc as [| | |n| |]; try done.
    + destruct (t_async_task t); injection E as <-; simpl; rewrite ?length_app; (split; [done|]).
      * pose proof (sum_list_insert destroy_rank _ _ _ DStrand Ei). simpl in *. lia.
      * pose proof (sum_list_insert destroy_rank _ _ _ DReturned Ei). simpl in *. lia.
    + injection E as <-. split; [done|]. simpl. set (pc := match t_current t with Some n => _ | None => _ end).
      pose proof (sum_list_insert destroy_rank _ _ _ pc Ei). assert (destroy_rank pc <= 2)%nat by (unfold pc; destruct (t_current t); simpl; lia).
      simpl in *. lia.
    + case_bool_decide; [done|]. injection E as <-. split; [done|]. simpl.
      pose proof (sum_list_insert destroy_rank _ _ _ DEnd Ei). simpl in *. lia.
    + injection E as <-. split; [done|]. simpl. pose proof (sum_list_insert destroy_rank _ _ _ DReturned Ei). simpl in *. lia.
  - unfold strand_step in E. pose proof (di_queued t Hd) as Hq. unfold queued_destroys in Hq.
    destruct (at_queue t) as [|h queue]; [done|]. injection E as <-. destruct h as [|delay| |i].
    + rewrite trigger_destroyed by done. simpl. split; [done | lia].
    + destruct (at_function t); simpl; (split; [done | lia]).
    + simpl. split; [done | lia].
    + assert (t_destroys t !! i = Some DStrand) as Ei by (apply Hq; simpl; left).
      pose proof (sum_list_insert destroy_rank _ _ _ DCurrent Ei). simpl in *. split; [done | lia].
  - unfold timer_step in E. destruct (at_waits t) as [|w] eqn:Ew; [done|]. injection E as <-.
    rewrite trigger_destroyed by done. simpl. split; [done | lia].
  - unfold invocation_turn in E. destruct (list_find _ (t_invocations t)) as [[i x]|] eqn:Ef; [|done]. simpl in E.
    rewrite Ed in E. simpl in E. injection E as <-. simpl. split; [done|].
    apply list_find_Some in Ef as (Ei & _). rewrite length_delete by (by eexists).
    pose proof (lookup_lt_Some _ _ _ Ei). lia.
Qed.

Lemma destroy_progress t i pc :
  dinv t -> t_destroys t !! i = Some pc -> pc <> DReturned -> exists t', internal_tstep t t'.
Proof.
  intros Hd Ei Hpc. destruct (destroy_step i t) as [t'|] eqn:E; [by eauto using internal_tstep|].
  unfold destroy_step in E. rewrite Ei in E. simpl in E. destruct pc as [| | |n| |]; try done.
  - by destruct (t_async_task t).
  - apply (di_queued t Hd) in Ei. unfold queued_destroys in Ei.
    destruct (strand_step 0 t) as [t'|] eqn:Es; [by eauto using internal_tstep|].
    unfold strand_step in Es. destruct (at_queue t); [|done]. by apply elem_of_nil in Ei.
  - case_bool_decide as Hin; [|done]. apply list_elem_of_fmap in Hin as ([m x] & -> & Hin).
    destruct (invocation_turn m t) as [t'|] eqn:Et; [by eauto using internal_tstep|].
    unfold invocation_turn in Et. destruct (list_find (fun x : nat * invocation_pc => x.1 = m) (t_invocations t)) as [x'|] eqn:Ef; [done|].
    exfalso. rewrite list_find_None, Forall_forall in Ef. by apply (Ef _ Hin).
Qed.

(** C17: [destroy] returns.  Once the flag is set, and whatever was queued, armed
    or running, the strand, the timer, the invocations and the calls of [destroy]
    take no more than [destroy_measure] steps together, in any order; and as
    long as a call of [destroy] has not returned one of these steps is
    possible, so that it can only be held up by the function itself. *)
Theorem destroy_returns t :
  task_reachable t -> t_destroyed t = true ->
  (forall k t', nsteps internal_tstep k t t' -> (k <= destroy_measure t)%nat) /\
  (forall t', rtc internal_tstep t t' ->
     (forall i pc, t_destroys t' !! i = Some pc -> pc <> DReturned -> exists t'', internal_tstep t' t'')).
Proof.
  intros Hr Ed. split.
  - intros k t' Hk. cut (k + destroy_measure t' <= destroy_measure t)%nat; [lia|].
    apply dinv_reachable in Hr. revert Hr Ed. induction Hk as [|k x y z Hs Hk IH]; intros Hd Ed; [done|].
    destruct (internal_tstep_measure x y Hd Ed Hs) as [Ed' Hlt].
    specialize (IH (dinv_step _ _ Hd (internal_tstep_tstep _ _ Hs)) Ed'). lia.
  - intros t' Hrun i pc Ei Hpc. apply (destroy_progress t' i pc); [|done..].
    apply dinv_reachable. unfold task_reachable in Hr |- *. transitivity t; [exact Hr|]. apply (rtc_subrel internal_tstep); [|exact Hrun].
    exact internal_tstep_tstep.
Qed.

(** A task destroyed while its function runs, with a trigger pending. *)
Definition dying_task : Task :=
  default new_Task (
    t ← strand_step 0 (schedule_now new_Task);
    t ← invocation_turn 0 t;
    destroy_step 0 (set_destroys (t_destroyed t) (t_destroys t ++ [DBegin]) (schedule_after 5 t))).

Lemma dying_task_reachable : task_reachable dying_task.
Proof.
  unfold task_reachable. eapply rtc_l; [apply TsNow|].
  eapply rtc_l; [apply (TsStrand 0); vm_compute; reflexivity|].
  eapply rtc_l; [apply (TsTurn 0); vm_compute; reflexivity|].
  eapply rtc_l; [apply (TsAfter 5)|]. eapply rtc_l; [apply TsDestroyCall|].
  eapply rtc_l; [apply (TsDestroy 0); vm_compute; reflexivity|]. apply rtc_refl.
Qed.

Lemma destroy_returns_witness :
  t_destroys dying_task = [DStrand] /\ t_invocations dying_task = [(0%nat, IFunction)] /\
  destroy_measure dying_task = 10%nat /\
  forall k t', nsteps internal_tstep k dying_task t' -> (k <= 10)%nat.
Proof.
  split; [reflexivity|]. split; [reflexivity|]. split; [reflexivity|].
  exact (proj1 (destroy_returns dying_task dying_task_reachable eq_refl)).
Defined.

(** ** The objects

    An object is known by its place in [hp_handles], which holds [m_state]: the
    number of the state it owns, or [None] for a null pointer.  [hp_freed] are
    the states that were freed. *)

Record task_heap := MkTaskHeap {
  hp_handles : list (option nat);
  hp_states : list Task;
  hp_freed : list nat
}.

(** [m_state] of an object. *)
Definition m_state (h : nat) (hp : task_heap) : option nat := mjoin (hp_handles hp !! h).

Definition valid (h : nat) (hp : task_heap) : bool := bool_decide (m_state h hp <> None).

(** A member function that returns at once on a null pointer. *)
Definition on_state (f : Task -> Task) (h : nat) (hp : task_heap) : task_heap :=
  match m_state h hp with
  | Some i => MkTaskHeap (hp_handles hp) (alter f i (hp_states hp)) (hp_freed hp)
  | None => hp
  end.

Definition handle_schedule_now : nat -> task_heap -> task_heap := on_state schedule_now.
Definition handle_schedule_after (delay : Z) : nat -> task_heap -> task_heap := on_state (schedule_after delay).
Definition handle_cancel : nat -> task_heap -> task_heap := on_state cancel.

(** The call of [destroy]; it has returned when [destroy_returned]. *)
Definition handle_destroy : nat -> task_heap -> task_heap :=
  on_state (fun t => set_destroys (t_destroyed t) (t_destroys t ++ [DBegin]) t).

Definition all_returned (t : Task) : bool :=
  bool_decide (t_destroys t <> []) && forallb (fun pc => match pc with DReturned => true | _ => false end) (t_destroys t).

Definition destroy_returned (h : nat) (hp : task_heap) : bool :=
  match m_state h hp ≫= fun i => hp_states hp !! i with Some t => all_returned t | None => true end.

(** [ReschedulableTask() = default]. *)
Definition default_construct (hp : task_heap) : task_heap :=
  MkTaskHeap (hp_handles hp ++ [None]) (hp_states hp) (hp_freed hp).

(** The constructor with a function. *)
Definition construct (hp : task_heap) : task_heap :=
  MkTaskHeap (hp_handles hp ++ [Some (length (hp_states hp))]) (hp_states hp ++ [new_Task]) (hp_freed hp).

(** The move constructor; [destroy] finds the null pointer of a new object. *)
Definition move_construct (other : nat) (hp : task_heap) : task_heap :=
  MkTaskHeap (<[other := None]> (hp_handles hp) ++ [m_state other hp]) (hp_states hp) (hp_freed hp).

(** [m_state = x]: the state that was owned is freed. *)
Definition reset_state (h : nat) (x : option nat) (hp : task_heap) : task_heap :=
  MkTaskHeap (<[h := x]> (hp_handles hp)) (hp_states hp) (hp_freed hp ++ option_list (m_state h hp)).

(** The destructor after its call of [destroy]; [None]: it waits. *)
Definition destruct_handle (h : nat) (hp : task_heap) : option task_heap :=
  if destroy_returned h hp then Some (reset_state h None hp) else None.

(** The move assignment, after its call of [destroy]. *)
Definition move_assign (h other : nat) (hp : task_heap) : option task_heap :=
  if bool_decide (h = other) then Some hp
  else if destroy_returned h hp then
    let hp' := reset_state h (m_state other hp) hp in
    Some (MkTaskHeap (<[other := None]> (hp_handles hp')) (hp_states hp') (hp_freed hp'))
  else None.

(** Everything that happens to the objects and to their states, freed or not. *)
Inductive heap_step : task_heap -> task_heap -> Prop :=
| HpDefault hp : heap_step hp (default_construct hp)
| HpConstruct hp : heap_step hp (construct hp)
| HpMove other hp : (other < length (hp_handles hp))%nat -> heap_step hp (move_construct other hp)
| HpNow h hp : heap_step hp (handle_schedule_now h hp)
| HpAfter delay h hp : heap_step hp (handle_schedule_after delay h hp)
| HpCancel h hp : heap_step hp (handle_cancel h hp)
| HpDestroy h hp : heap_step hp (handle_destroy h hp)
| HpDestruct h hp hp' :
    (h < length (hp_handles hp))%nat -> destruct_handle h hp = Some hp' -> heap_step hp hp'
| HpAssign h other hp hp' :
    (h < length (hp_handles hp))%nat -> (other < length (hp_handles hp))%nat ->
    move_assign h other hp = Some hp' -> heap_step hp hp'
| HpInternal i t t' hp :
    hp_states hp !! i = Some t -> internal_tstep t t' ->
    heap_step hp (MkTaskHeap (hp_handles hp) (<[i := t']> (hp_states hp)) (hp_freed hp)).

Definition heap_reachable (hp : task_heap) : Prop := rtc heap_step (MkTaskHeap [] [] []) hp.

(** ** Ownership *)

(** What can still follow the raw pointer to a state: an invocation, a call of
    [destroy], or the lambda that the strand and the timer run. *)
Inductive can_access (t : Task) : Prop :=
| CaTurn n t' : invocation_turn n t = Some t' -> can_access t
| CaDestroy i t' : destroy_step i t = Some t' -> can_access t
| CaLambda : at_function t = true -> can_access t.

Record heap_inv (hp : task_heap) : Prop := MkHeapInv {
  hi_owned : flat_map option_list (hp_handles hp) ++ hp_freed hp ≡ₚ seq 0 (length (hp_states hp));
  hi_reachable : Forall task_reachable (hp_states hp);
  hi_freed i t : i ∈ hp_freed hp -> hp_states hp !! i = Some t -> all_returned t = true
}.

Lemma all_returned_true t :
  all_returned t = true -> DReturned ∈ t_destroys t /\ Forall (eq DReturned) (t_destroys t).
Proof.
  unfold all_returned. intros [Hne Hall]%andb_prop. apply bool_decide_eq_true in Hne. rewrite forallb_forall in Hall.
  assert (Forall (eq DReturned) (t_destroys t)) as Hf.
  { apply Forall_forall. intros pc Hpc. specialize (Hall pc (proj1 (list_elem_of_In _ _) Hpc)). by destruct pc. }
  split; [|done]. destruct (t_destroys t) as [|pc ds]; [done|]. apply Forall_cons in Hf as [<- _]. left.
Qed.

(** A state whose calls of [destroy] have returned is left alone. *)
Lemma all_returned_dead t :
  task_reachable t -> all_returned t = true ->
  at_function t = false /\ t_invocations t = [] /\ queued_destroys t = [].
Proof.
  intros Hr Ha. apply all_returned_true in Ha as [Hin Hall].
  pose proof (tinv_reachable t Hr) as [Hc _ _ _ Has Hds _]. pose proof (dinv_reachable t Hr) as [_ Hq _ Hf].
  rewrite Forall_forall in Hds. specialize (Hds _ Hin). simpl in Hds. destruct (Has Hds) as [_ Ec]. rewrite Ec in Hc.
  split; [by apply Hf|]. split; [done|]. destruct (queued_destroys t) as [|i l]; [done|].
  assert (t_destroys t !! i = Some DStrand) as Ei by (apply Hq; left).
  by pose proof (Forall_lookup_1 _ _ _ _ Hall Ei).
Qed.

Lemma returned_no_destroy i t t' : all_returned t = true -> destroy_step i t = Some t' -> False.
Proof.
  intros [_ Hall]%all_returned_true. unfold destroy_step. destruct (t_destroys t !! i) as [pc|] eqn:Ei; [|done]. simpl.
  pose proof (Forall_lookup_1 _ _ _ _ Hall Ei) as <-. done.
Qed.

Lemma dead_step t t' :
  task_reachable t -> all_returned t = true -> internal_tstep t t' -> t_destroys t' = t_destroys t.
Proof.
  intros Hr Ha Hs. destruct (all_returned_dead t Hr Ha) as (Ef & Ei & Eq). destruct Hs as [i t t' E|left t t' E|t t' E|n t t' E].
  - by destruct (returned_no_destroy i t t' Ha E).
  - unfold strand_step in E. unfold queued_destroys in Eq. destruct (at_queue t) as [|h queue]; [done|].
    injection E as <-. unfold run_function. simpl. rewrite Ef. destruct h; done.
  - unfold timer_step in E. destruct (at_waits t); [done|]. injection E as <-. unfold run_function. simpl. by rewrite Ef.
  - unfold invocation_turn in E. by rewrite Ei in E.
Qed.

Lemma dead_no_access t : task_reachable t -> all_returned t = true -> ~ can_access t.
Proof.
  intros Hr Ha. destruct (all_returned_dead t Hr Ha) as (Ef & Ei & _). intros [n t' E|i t' E|E].
  - unfold invocation_turn in E. by rewrite Ei in E.
  - by apply (returned_no_destroy i t t').
  - congruence.
Qed.

Lemma m_state_lookup h hp : (h < length (hp_handles hp))%nat -> hp_handles hp !! h = Some (m_state h hp).
Proof. intros [x E]%lookup_lt_is_Some. unfold m_state. by rewrite E. Qed.

(** The states are those of the handles and those freed. *)
Lemma owned_state h i hp : heap_inv hp -> m_state h hp = Some i -> i ∉ hp_freed hp.
Proof.
  intros [Ho _ _] E Hf. unfold m_state in E. destruct (hp_handles hp !! h) as [x|] eqn:Eh; [|done]. simpl in E. subst x.
  assert (NoDup (flat_map option_list (hp_handles hp) ++ hp_freed hp)) as Hn by (rewrite Ho; apply NoDup_seq).
  apply NoDup_app in Hn as (_ & Hn & _). apply (Hn i); [|done].
  apply list_elem_of_In, in_flat_map. exists (Some i). split; [|by left]. by eapply list_elem_of_In, list_elem_of_lookup_2.
Qed.

Lemma heap_inv_on_state f h hp :
  (forall t, tstep t (f t)) -> heap_inv hp -> heap_inv (on_state f h hp).
Proof.
  intros Hf Hi. unfold on_state. destruct (m_state h hp) as [i|] eqn:E; [|done]. pose proof (owned_state h i hp Hi E) as Hni.
  destruct Hi as [Ho Hr Hfr]. constructor; simpl.
  - by rewrite length_alter.
  - apply Forall_alter; [done|]. intros t _ Ht. unfold task_reachable in *. by eapply rtc_r.
  - intros j t Hj. rewrite list_lookup_alter_ne; [by apply Hfr|]. by intros ->.
Qed.

(** An object gives up the state it owned, which is freed. *)
Lemma owned_reset h x hp :
  (h < length (hp_handles hp))%nat ->
  flat_map option_list (hp_handles (reset_state h x hp)) ++ hp_freed (reset_state h x hp) ≡ₚ
  option_list x ++ flat_map option_list (hp_handles hp) ++ hp_freed hp.
Proof.
  intros Hlt. simpl. pose proof (flat_map_insert option_list _ _ _ x (m_state_lookup h hp Hlt)) as Hp.
  rewrite (Permutation_app_comm (hp_freed hp)), app_assoc, Hp. solve_Permutation.
Qed.

Lemma freed_reset h x hp j t :
  heap_inv hp -> destroy_returned h hp = true -> j ∈ hp_freed (reset_state h x hp) -> hp_states hp !! j = Some t ->
  all_returned t = true.
Proof.
  intros Hi Hd Hj Et. simpl in Hj. apply elem_of_app in Hj as [Hj|Hj]; [by eapply hi_freed|].
  unfold destroy_returned in Hd. destruct (m_state h hp) as [i|]; [|by apply elem_of_nil in Hj].
  apply list_elem_of_singleton in Hj as ->. simpl in Hd. by rewrite Et in Hd.
Qed.

Lemma heap_inv_step hp hp' : heap_inv hp -> heap_step hp hp' -> heap_inv hp'.
Proof.
  intros Hi Hs. revert Hi. destruct Hs as [hp|hp|other hp Hlt|h hp|delay h hp|h hp|h hp|h hp hp' Hlt E|h other hp hp' Hlt Hlt' E|i t t' hp Et Hs];
    intros Hi; pose proof Hi as [Ho Hr Hf].
  - constructor; simpl; [|done | done]. rewrite flat_map_app. simpl. by rewrite app_nil_r.
  - constructor; simpl.
    + rewrite flat_map_app, length_app, seq_app. simpl. rewrite <- Ho. solve_Permutation.
    + apply Forall_app. split; [done|]. apply Forall_singleton, rtc_refl.
    + intros i t Hin Et. assert (i ∈ seq 0 (length (hp_states hp))) as Hlt by (rewrite <- Ho; set_solver).
      apply elem_of_seq in Hlt. rewrite lookup_app_l in Et by lia. by eapply Hf.
  - constructor; simpl; [|done | done]. rewrite <- Ho, flat_map_app. simpl. rewrite app_nil_r.
    pose proof (flat_map_insert option_list _ _ _ None (m_state_lookup other hp Hlt)) as Hp. rewrite app_nil_r in Hp.
    by rewrite Hp.
  - apply heap_inv_on_state; [apply TsNow | done].
  - apply heap_inv_on_state; [apply TsAfter | done].
  - apply heap_inv_on_state; [apply TsCancel | done].
  - apply heap_inv_on_state; [apply TsDestroyCall | done].
  - unfold destruct_handle in E. destruct (destroy_returned h hp) eqn:Ed; [|done]. injection E as <-.
    constructor; [|done|]; [|intros j t; by apply (freed_reset h None hp)]. by rewrite owned_reset.
  - unfold move_assign in E. case_bool_decide as Hne; [by simplify_eq|].
    destruct (destroy_returned h hp) eqn:Ed; [|done]. injection E as <-.
    constructor; [|done|]; [|intros j t; by apply (freed_reset h (m_state other hp) hp)].
    pose proof (owned_reset h (m_state other hp) hp Hlt) as Hp. simpl in Hp |- *.
    assert (<[h := m_state other hp]> (hp_handles hp) !! other = Some (m_state other hp)) as Eo
      by (rewrite list_lookup_insert_ne by done; by apply m_state_lookup).
    pose proof (flat_map_insert option_list _ _ _ None Eo) as Hq. rewrite app_nil_r in Hq. rewrite <- Ho.
    apply (Permutation_app_inv_l (option_list (m_state other hp))). rewrite <- Hp, <- Hq. solve_Permutation.
  - assert (task_reachable t) as Ht by (by eapply Forall_lookup_1). constructor; simpl; [by rewrite length_insert| |].
    + apply Forall_insert; [done|]. unfold task_reachable in *. eapply rtc_r; [exact Ht | by apply internal_tstep_tstep].
    + intros j x Hj Ex. apply list_lookup_insert_Some in Ex as [(-> & <- & _)|[_ Ex]]; [|by eapply Hf].
      pose proof (Hf j t Hj Et) as Ha. pose proof (dead_step t t' Ht Ha Hs) as Eds. unfold all_returned. by rewrite Eds.
Qed.

Lemma heap_inv_reachable hp : heap_reachable hp -> heap_inv hp.
Proof.
  intros Hr. unfold heap_reachable in Hr. cut (heap_inv (MkTaskHeap [] [] [])).
  - induction Hr; eauto using heap_inv_step.
  - constructor; [done | constructor|]. intros i t Hi. by apply elem_of_nil in Hi.
Qed.

(** C16: the state of a task is owned by one object and freed once: at any time
    the states that objects own and those that were freed are together all the
    states that were made, each counted once, through every constructor, move,
    assignment and destruction.  And a state that was freed is not used: no
    object refers to it, and neither an invocation, nor a call of [destroy], nor
    the lambda of the strand can follow the raw pointer any more, now or after
    any further step. *)
Theorem task_state_ownership hp :
  heap_reachable hp ->
  flat_map option_list (hp_handles hp) ++ hp_freed hp ≡ₚ seq 0 (length (hp_states hp)) /\
  (forall i t, i ∈ hp_freed hp -> hp_states hp !! i = Some t ->
     (forall h, m_state h hp <> Some i) /\ ~ can_access t).
Proof.
  intros Hr. pose proof (heap_inv_reachable hp Hr) as Hi. pose proof Hi as [Ho Hre Hf]. split; [done|].
  intros i t Hin Et. split; [intros h E; by apply (owned_state h i hp Hi E)|].
  apply dead_no_access; [by eapply Forall_lookup_1 | by eapply Hf].
Qed.

(** A default object, a task that is moved into it and scheduled, and its
    destruction. *)
Lemma destructed_heap :
  exists hp t, heap_reachable hp /\ hp_handles hp = [None; None] /\ hp_freed hp = [0%nat] /\ hp_states hp !! 0%nat = Some t.
Proof.
  eexists _, _. split.
  - unfold heap_reachable. eapply rtc_l; [apply HpDefault|]. eapply rtc_l; [apply HpConstruct|].
    eapply rtc_l; [eapply (HpAssign 0 1); [vm_compute; lia | vm_compute; lia | vm_compute; reflexivity]|].
    eapply rtc_l; [apply (HpNow 0)|]. eapply rtc_l; [apply (HpDestroy 0)|].
    eapply rtc_l; [eapply (HpInternal 0); [vm_compute; reflexivity | eapply (ItDestroy 0); vm_compute; reflexivity]|].
    do 2 (eapply rtc_l; [eapply (HpInternal 0); [vm_compute; reflexivity | eapply (ItStrand 0); vm_compute; reflexivity]|]).
    do 2 (eapply rtc_l; [eapply (HpInternal 0); [vm_compute; reflexivity | eapply (ItDestroy 0); vm_compute; reflexivity]|]).
    eapply rtc_l; [eapply (HpDestruct 0); [vm_compute; lia | vm_compute; reflexivity]|]. apply rtc_refl.
  - split; [reflexivity|]. split; reflexivity.
Qed.

Lemma task_state_ownership_witness :
  exists hp t, heap_reachable hp /\ hp_handles hp = [None; None] /\ hp_freed hp = [0%nat] /\
    hp_states hp !! 0%nat = Some t /\ ~ can_access t.
Proof.
  destruct destructed_heap as (hp & t & Hr & Eh & Ef & Et).
  exists hp, t. split; [exact Hr|]. split; [exact Eh|]. split; [exact Ef|]. split; [exact Et|].
  apply (task_state_ownership hp Hr) with (i := 0%nat); [rewrite Ef; left | exact Et].
Defined.
