(* ===== verification/TaskThrows.v ===== *)
(** * Tasks whose function throws

    The loop of an invocation in [src/reschedulable_task.cpp] has no handler: when
    [function()] throws, the exception goes to the future that the background
    scheduler made for the invocation, and the statement that clears
    [current_invocation] is not reached.  [tstep] of [Tasks] has the functions
    that return; this file adds the ones that throw, and what [destroy] does
    with such a future. *)

From S2P Require Import Prelude Words Tasks.

(** [th_failed]: the invocations whose future holds an exception; [th_rethrown]: the
    calls of [destroy] that [current_invocation.get()] has left with it. *)
Record throwing := MkThrowing {
  th_task : Task;
  th_failed : list nat;
  th_rethrown : list nat
}.

(** The function throws in the [n]-th invocation: the invocation is over, and it
    stays the current one. *)
Definition invocation_throw (n : nat) (t : Task) : option Task :=
  i ← list_find (fun x : nat * invocation_pc => x = (n, IFunction)) (t_invocations t);
  Some (MkTask (at_function t) (at_queue t) (at_waits t) (t_destroyed t) (t_pending t) (t_current t)
          (t_async_task t) (delete i.1 (t_invocations t)) (t_next t) (t_started t) (t_triggers t) (t_destroys t)).

(** The [i]-th call of [destroy] is at [get()] of a future that holds an exception,
    which leaves it there: the statements after [get()] do not run. *)
Definition rethrows (failed : list nat) (i : nat) (t : Task) : bool :=
  match t_destroys t !! i with Some (DWait n) => bool_decide (n ∈ failed) | _ => false end.

Inductive throwing_step : throwing -> throwing -> Prop :=
| ThTask t f r t' :
    tstep t t' -> (forall i, rethrows f i t = true -> rethrows f i t' = true) ->
    throwing_step (MkThrowing t f r) (MkThrowing t' f r)
| ThThrow n t f r t' :
    invocation_throw n t = Some t' -> throwing_step (MkThrowing t f r) (MkThrowing t' (f ++ [n]) r)
| ThRethrow i t f r :
    rethrows f i t = true -> i ∉ r -> throwing_step (MkThrowing t f r) (MkThrowing t f (r ++ [i])).

Definition throwing_reachable (th : throwing) : Prop := rtc throwing_step (MkThrowing new_Task [] []) th.

(** ** After a throw

    The invocation that threw is the current one for ever, so that no trigger hands
    another one to the scheduler; and no call of [destroy] gets past it. *)

Definition past_get (pc : destroy_pc) : Prop := match pc with DEnd | DReturned => True | _ => False end.

Record dead (n : nat) (t : Task) : Prop := MkDead {
  de_current : t_current t = Some n;
  de_invocations : t_invocations t = [];
  de_async : t_async_task t = true;
  de_destroys : Forall (fun pc => pc = DBegin \/ pc = DStrand \/ pc = DCurrent \/ pc = DWait n) (t_destroys t)
}.

Definition throwing_inv (th : throwing) : Prop :=
  match th_failed th with
  | [] => task_reachable (th_task th) /\ th_rethrown th = []
  | [n] => dead n (th_task th)
  | _ => False
  end.

Lemma throw_dead n t t' : tinv t -> invocation_throw n t = Some t' -> dead n t'.
Proof.
  intros [Hc _ _ _ Ha Hd _] E. unfold invocation_throw in E.
  destruct (list_find _ (t_invocations t)) as [[i x]|] eqn:Ef; [|done]. simpl in E. apply (inj Some) in E. subst t'.
  apply list_find_Some in Ef as (Ei & -> & _). destruct (t_current t) as [m|] eqn:Ec; [|by rewrite Hc in Ei].
  destruct Hc as [pc Hc]. rewrite Hc in Ei. destruct i; [|done]. simplify_eq/=.
  assert (t_async_task t = true) as Eas by (destruct (t_async_task t); [done|]; by destruct (Ha eq_refl)).
  constructor; simpl; [done | by rewrite Hc | done|].
  eapply Forall_impl; [exact Hd|]. intros [] H; simpl in H; rewrite ?Eas in H; try (by auto); destruct H as [_ H]; [|done].
  destruct H as [H|H]; [done|]. injection H as ->. auto.
Qed.

Lemma trigger_dead n t : dead n t -> dead n (trigger t).
Proof.
  intros [Hc Hi Ha Hd]. unfold trigger. destruct (t_destroyed t); [done|].
  rewrite (bool_decide_false (t_current t = None)) by (by rewrite Hc). rewrite andb_false_r. by constructor.
Qed.

Lemma run_function_dead n t : dead n t -> dead n (run_function t).
Proof. intros Hd. unfold run_function. destruct (at_function t); [by apply trigger_dead | done]. Qed.

Lemma set_strand_dead n f q w t : dead n t -> dead n (set_strand f q w t).
Proof. intros []. by constructor. Qed.

Lemma destroy_dead n i t t' :
  dead n t -> destroy_step i t = Some t' -> (rethrows [n] i t = true -> rethrows [n] i t' = true) -> dead n t'.
Proof.
  intros [Hc Hi Ha Hd] E Hr. unfold destroy_step in E. destruct (t_destroys t !! i) as [pc|] eqn:Ep; [|done]. simpl in E.
  assert (forall b pc', pc' = DBegin \/ pc' = DStrand \/ pc' = DCurrent \/ pc' = DWait n ->
            dead n (set_destroys b (<[i := pc']> (t_destroys t)) t)) as Hgo.
  { intros b pc' Hpc. constructor; simpl; try done. by apply Forall_insert. }
  pose proof (Forall_lookup_1 _ _ _ _ Hd Ep) as Hpc. destruct Hpc as [->|[->|[->| ->]]].
  - rewrite Ha in E. simplify_eq. apply set_strand_dead, Hgo. auto.
  - done.
  - rewrite Hc in E. simplify_eq. apply Hgo. auto.
  - rewrite Hi in E. rewrite bool_decide_false in E by (by intros ?%elem_of_nil). simplify_eq. exfalso.
    unfold rethrows in Hr. rewrite Ep, bool_decide_true in Hr by set_solver. simpl in Hr.
    rewrite list_lookup_insert_eq in Hr by (by eapply lookup_lt_Some). by specialize (Hr eq_refl).
Qed.

(** No step of a dead task calls the function or revives it. *)
Lemma tstep_dead n t t' :
  dead n t -> tstep t t' -> (forall i, rethrows [n] i t = true -> rethrows [n] i t' = true) -> dead n t'.
Proof.
  intros Hd Hs Hr. destruct Hs as [t|delay t|t|t|i t t' E|left t t' E|t t' E|m t t' E].
  - unfold schedule_now. destruct (_ && _); [by apply set_strand_dead | done].
  - unfold schedule_after. destruct (_ && _); [by apply set_strand_dead | done].
  - unfold cancel. destruct (t_async_task t); [by apply set_strand_dead | done].
  - destruct Hd. constructor; simpl; try done. apply Forall_app. split; [done|]. by apply Forall_singleton; left.
  - eapply destroy_dead; [exact Hd | exact E | apply Hr].
  - unfold strand_step in E. destruct (at_queue t) as [|h queue]; [done|]. apply (inj Some) in E. subst t'.
    destruct h as [|delay| |i]; [by apply run_function_dead, set_strand_dead | | by apply set_strand_dead|].
    + destruct (at_function t); by apply set_strand_dead.
    + destruct Hd as [Hc Hi Ha Hd]. constructor; simpl; try done. apply Forall_insert; [done | auto].
  - unfold timer_step in E. destruct (at_waits t); [done|]. apply (inj Some) in E. subst t'.
    by apply run_function_dead, set_strand_dead.
  - unfold invocation_turn in E. by rewrite (de_invocations n t Hd) in E.
Qed.

Lemma throwing_step_inv th th' : throwing_inv th -> throwing_step th th' -> throwing_inv th'.
Proof.
  intros Hi Hs. destruct Hs as [t f r t' Hs Hr|n t f r t' E|i t f r E Hn]; unfold throwing_inv in *; simpl in *.
  - destruct f as [|n [|]]; [|by eapply tstep_dead|done]. destruct Hi as [Ht ->]. split; [|done]. by eapply rtc_r.
  - destruct f as [|m [|]]; simpl; [|exfalso|done].
    + destruct Hi as [Ht _]. eapply throw_dead; [by apply tinv_reachable | exact E].
    + unfold invocation_throw in E. by rewrite (de_invocations m t Hi) in E.
  - destruct f as [|n [|]]; [exfalso|done..]. unfold rethrows in E. by repeat case_match.
Qed.

Lemma throwing_reachable_inv th : throwing_reachable th -> throwing_inv th.
Proof.
  intros Hr. unfold throwing_reachable in Hr. cut (throwing_inv (MkThrowing new_Task [] [])); [|split; [apply rtc_refl | done]].
  induction Hr; eauto using throwing_step_inv.
Qed.

Lemma dead_not_started n t t' : dead n t -> tstep t t' -> t_started t' = t_started t.
Proof. intros Hd. by apply no_invocation_no_start, (de_invocations n). Qed.

(** The calls of [destroy] that a task whose function threw makes end with the
    exception. *)
Lemma dead_destroys n t i pc : dead n t -> t_destroys t !! i = Some pc -> ~ past_get pc.
Proof.
  intros Hd E. pose proof (Forall_lookup_1 _ _ _ _ (de_destroys n t Hd) E) as H. intros Hp. destruct H as [->|[->|[->| ->]]]; exact Hp.
Qed.

(** C25: a task whose function has thrown never runs again.  As long as nothing was
    thrown the task is one of [task_reachable]; at most one invocation throws, and
    from then on, in every interleaving, whatever is scheduled is counted as
    pending and is not served: the function is not called any more.  A call of
    [destroy] waits, at most, for that invocation's future, and [get()] rethrows
    the exception: no call of [destroy] returns any more, and one that is at
    [get()] and has not been left yet can be left with the exception. *)
Theorem throwing_task_dies th :
  throwing_reachable th ->
  (th_failed th = [] -> task_reachable (th_task th) /\ th_rethrown th = []) /\
  (th_failed th <> [] ->
   (exists n, th_failed th = [n]) /\
   forall th', rtc throwing_step th th' ->
     t_started (th_task th') = t_started (th_task th) /\ th_failed th' = th_failed th /\
     (forall i pc, t_destroys (th_task th') !! i = Some pc -> ~ past_get pc) /\
     (forall i n, t_destroys (th_task th') !! i = Some (DWait n) -> i ∉ th_rethrown th' ->
        throwing_step th' (MkThrowing (th_task th') (th_failed th') (th_rethrown th' ++ [i])))).
Proof.
  intros Hr. pose proof (throwing_reachable_inv th Hr) as Hi. unfold throwing_inv in Hi. split.
  { intros E. by rewrite E in Hi. }
  intros Hne. destruct (th_failed th) as [|n [|]] eqn:Ef; [done| |done]. split; [by exists n|]. clear Hne.
  intros th' Hrun. assert (throwing_inv th' /\ t_started (th_task th') = t_started (th_task th) /\ th_failed th' = [n]) as (Hi' & Es & Ef').
  { clear Hr. assert (throwing_inv th) as Hth by (unfold throwing_inv; by rewrite Ef). clear Hi.
    induction Hrun as [th|x y z Hs _ IH]; [done|]. pose proof (throwing_step_inv x y Hth Hs) as Hy.
    assert (t_started (th_task y) = t_started (th_task x) /\ th_failed y = [n]) as [E1 E2].
    { unfold throwing_inv in Hth. rewrite Ef in Hth. destruct Hs as [t f r t' Hs _|m t f r t' E|i t f r _ _]; simpl in *; subst.
      - split; [by eapply dead_not_started | done].
      - unfold invocation_throw in E. by rewrite (de_invocations n t Hth) in E.
      - done. }
    destruct (IH E2 Hy) as (? & Es & ?). split_and!; [done | by rewrite Es | done]. }
  unfold throwing_inv in Hi'. rewrite Ef' in Hi'. split_and!; [done | done | intros i pc; by apply (dead_destroys n)|].
  intros i m Hm Hnr. destruct th' as [t' f' r']. simpl in *. subst f'. constructor; [|done].
  unfold rethrows. rewrite Hm. pose proof (Forall_lookup_1 _ _ _ _ (de_destroys n t' Hi') Hm) as H.
  destruct H as [H|[H|[H|H]]]; try done. injection H as ->. apply bool_decide_true. set_solver.
Qed.

(** Scheduled once, and the function throws. *)
Lemma throwing_task_dies_witness :
  exists th, th_failed th = [0%nat] /\ (exists n, th_failed th = [n]) /\ t_pending (th_task th) = 0.
Proof.
  assert (throwing_reachable (MkThrowing (MkTask true [] 0 false 0 (Some 0%nat) true [] 1 1 1 []) [0%nat] [])) as Hr.
  { eapply rtc_l; [eapply (ThTask _ _ _ (schedule_now new_Task)); [apply TsNow | done]|].
    eapply rtc_l; [eapply ThTask; [eapply (TsStrand 0); reflexivity | done]|].
    eapply rtc_l; [eapply ThTask; [eapply (TsTurn 0); reflexivity | done]|].
    apply rtc_once. apply (ThThrow 0). reflexivity. }
  eexists. split; [|split]; [| exact (proj1 (proj2 (throwing_task_dies _ Hr) ltac:(done))) | ]; reflexivity.
Defined.
