(* ===== verification/TaskFamily.v ===== *)
(** * The tasks of one object

    A producer or a consumer has several tasks, which its critical sections
    schedule.  [K] names them, [Call] is what can be called on one; the calls
    that a section recorded are handed over to the tasks when it ends. *)

From stdpp Require Import functions.
From S2P Require Import Prelude Words Tasks.

Section family.
Context {K Call : Type} `{EqDecision K}.
(** What a call does to its task, and whether it schedules it. *)
Context (apply_call : Call -> Task -> Task) (schedules_task : Call -> bool).

Abbreviation TS := (K -> Task).
Implicit Types ts : TS.

Definition hand_over (calls : list (K * Call)) ts : TS :=
  fold_left (fun ts kc => <[kc.1 := apply_call kc.2 (ts kc.1)]> ts) calls ts.

Definition all_healthy ts : Prop := forall k, healthy (ts k) /\ tinv (ts k).

(** A call is one of the task's owner: it keeps it healthy and armed. *)
Class OwnerCalls := {
  oc_healthy call t : healthy t -> tinv t -> healthy (apply_call call t) /\ tinv (apply_call call t);
  oc_armed call t : armed t -> armed (apply_call call t);
  oc_schedules call t : schedules_task call = true -> healthy t -> armed (apply_call call t)
}.

Context `{!OwnerCalls}.

Lemma hand_over_healthy calls ts : all_healthy ts -> all_healthy (hand_over calls ts).
Proof.
  revert ts. induction calls as [|[k call] calls IH]; intros ts Hts; [done|]. apply IH. intros k'. simpl.
  unfold insert, fn_insert. destruct (decide (k = k')) as [<-|]; [apply oc_healthy; apply Hts | apply Hts].
Qed.

Lemma hand_over_armed calls ts k : armed (ts k) -> armed (hand_over calls ts k).
Proof.
  revert ts. induction calls as [|[k' call] calls IH]; intros ts Hts; [done|]. apply IH. simpl.
  unfold insert, fn_insert. destruct (decide (k' = k)) as [<-|]; [by apply oc_armed | done].
Qed.

Lemma hand_over_schedules calls ts k call :
  all_healthy ts -> (k, call) ∈ calls -> schedules_task call = true -> armed (hand_over calls ts k).
Proof.
  revert ts. induction calls as [|[k' call'] calls IH]; intros ts Hts Hin Hc; [by apply elem_of_nil in Hin|].
  apply elem_of_cons in Hin as [[= <- <-]|Hin].
  - apply (hand_over_armed calls (<[k := apply_call call (ts k)]> ts)). rewrite fn_lookup_insert.
    apply oc_schedules; [done | apply Hts].
  - apply IH; [|done..]. apply (hand_over_healthy [(k', call')]), Hts.
Qed.

Lemma new_healthy : all_healthy (fun _ => new_Task).
Proof. intros k. split; [apply healthy_new | apply tinv_reachable, rtc_refl]. Qed.

Lemma insert_healthy k t ts : all_healthy ts -> healthy t -> tinv t -> all_healthy (<[k := t]> ts).
Proof. intros Hts Hh Hi k'. unfold insert, fn_insert. destruct (decide (k = k')); [done | apply Hts]. Qed.

Lemma insert_armed k k' t ts : armed (ts k') -> (k = k' -> armed t) -> armed ((<[k := t]> ts : TS) k').
Proof. intros Ha Ht. unfold insert, fn_insert. destruct (decide (k = k')); auto. Qed.

(** A step of one task: all stay healthy, and those that were armed stay so, but
    for the one whose function is called. *)
Lemma task_step b k t ts :
  all_healthy ts -> quiet_tstep b (ts k) t ->
  all_healthy (<[k := t]> ts) /\
  forall k', armed (ts k') -> (k = k' /\ b = true) \/ armed ((<[k := t]> ts : TS) k').
Proof.
  intros Hts Hs. destruct (Hts k) as [Hh Hi]. destruct (quiet_tstep_armed _ _ _ Hh Hi Hs) as [Hh' Ha]. split.
  - apply insert_healthy; [done | done | eapply tinv_step, quiet_tstep_tstep; eassumption].
  - intros k' Hk'. unfold insert, fn_insert. destruct (decide (k = k')) as [<-|]; [|by right]. destruct (Ha Hk') as [->|]; auto.
Qed.

End family.
Arguments OwnerCalls {Call} _ _.
