(* ===== verification/Environment.v ===== *)
(** * The environment

    Models [include/hareflow/detail/environment_impl.h] and
    [src/environment_impl.cpp]: the locator, a client over which streams are
    created, deleted and looked up; the choice of the broker for the client of
    a producer or a consumer; and the recovery of the locator.  Every critical
    section of [m_mutex] is one definition; [EnvironmentSystem] interleaves
    them.

    Clients are behind the interface [EnvironmentClients] and are named by
    numbers.  The members of [EnvironmentImpl] that never change are [EConfig]. *)

From S2P Require Import Prelude Words OrdMap Types Messages Client Fluent ClientParameters Tasks.

(** ** What the environment needs from clients *)

Class EnvironmentClients (C W : Type) := {
  ec_create : ClientParameters C -> W -> nat * W;
  ec_start : nat -> ST W exn unit;
  ec_stop : nat -> ST W exn unit;
  ec_metadata : nat -> list string -> ST W exn StreamMetadataSet;
  ec_create_stream : nat -> string -> Properties -> ST W exn unit;
  ec_delete_stream : nat -> string -> ST W exn unit
}.

Record EConfig (C : Type) := MkEConfig {
  ev_hosts : list string;
  ev_recovery_retry_delay : Z;
  ev_client_parameters : ClientParameters C
}.
Arguments MkEConfig {C}.
Arguments ev_hosts {C}.
Arguments ev_recovery_retry_delay {C}.
Arguments ev_client_parameters {C}.

(** [e_drawn] counts the numbers taken from the random generator. *)
Record EState (W : Type) := MkEState {
  e_reconnect_task : Task;
  e_locator : option nat;
  e_producers : gset nat;
  e_consumers : gset nat;
  e_drawn : nat;
  e_world : W
}.
Arguments MkEState {W}.
Arguments e_reconnect_task {W}.
Arguments e_locator {W}.
Arguments e_producers {W}.
Arguments e_consumers {W}.
Arguments e_drawn {W}.
Arguments e_world {W}.

Definition LOCATOR_NOT_AVAILABLE : exn := StreamException "Locator not available".

Definition NB_RETRIES : nat := 3.

(** The [catch] clauses of [locator_operation]. *)
Definition is_retried (e : exn) : bool := is_TimeoutException e || is_IOException e.

Section environment.
Context {C W : Type} `{EnvironmentClients C W}.
Context (cfg : EConfig C).
(** The numbers that the random generator yields. *)
Context (generator : nat -> nat).
(** What other threads do while one waits for the locator. *)
Context (await_locator : EState W -> EState W).

Abbreviation ES := (EState W).
Abbreviation EM A := (ST ES exn A).
Implicit Types e : ES.

Definition put_reconnect_task (x : Task) e : ES :=
  MkEState x (e_locator e) (e_producers e) (e_consumers e) (e_drawn e) (e_world e).
Definition put_locator (x : option nat) e : ES :=
  MkEState (e_reconnect_task e) x (e_producers e) (e_consumers e) (e_drawn e) (e_world e).
Definition put_producers (x : gset nat) e : ES :=
  MkEState (e_reconnect_task e) (e_locator e) x (e_consumers e) (e_drawn e) (e_world e).
Definition put_consumers (x : gset nat) e : ES :=
  MkEState (e_reconnect_task e) (e_locator e) (e_producers e) x (e_drawn e) (e_world e).
Definition put_drawn (x : nat) e : ES :=
  MkEState (e_reconnect_task e) (e_locator e) (e_producers e) (e_consumers e) x (e_world e).
Definition put_eworld (x : W) e : ES :=
  MkEState (e_reconnect_task e) (e_locator e) (e_producers e) (e_consumers e) (e_drawn e) x.

(** A call through the interface. *)
Definition ecall {A} (m : ST W exn A) : EM A := fun e =>
  let '(r, w) := m (e_world e) in (r, put_eworld w e).

Definition ecatch {A} (m : EM A) (h : exn -> EM A) : EM A :=
  st_catch m (fun ex => if is_StreamException ex then h ex else st_throw ex).

(** [*candidates.begin()] is undefined when there is no candidate; the
    distribution takes a number of the generator to its range. *)
Definition select_randomly {A} (candidates : list A) : EM A :=
  e ← st_get;
  if 1 <? lenZ candidates then
    st_put (put_drawn (S (e_drawn e)) e) ;;
    match candidates !! (generator (e_drawn e) `mod` length candidates)%nat with
    | Some x => mret x
    | None => st_throw UndefinedBehaviour
    end
  else match candidates with x :: _ => mret x | [] => st_throw UndefinedBehaviour end.

Definition client_create (p : ClientParameters C) : EM nat := fun e =>
  let '(c, w) := ec_create p (e_world e) in (Val c, put_eworld w e).

(** ** Registration *)

Definition register_producer (producer : nat) : EM unit :=
  st_modify (fun e => put_producers ({[producer]} ∪ e_producers e) e).
Definition unregister_producer (producer : nat) : EM unit :=
  st_modify (fun e => put_producers (e_producers e ∖ {[producer]}) e).
Definition register_consumer (consumer : nat) : EM unit :=
  st_modify (fun e => put_consumers ({[consumer]} ∪ e_consumers e) e).
Definition unregister_consumer (consumer : nat) : EM unit :=
  st_modify (fun e => put_consumers (e_consumers e ∖ {[consumer]}) e).

(** ** Operations on the locator

    One turn of the loop waits for the locator and runs the operation on it;
    [more] turns may follow.  The wait returns at once when there is a locator. *)

Definition wait_locator : EM (option nat) :=
  e ← st_get;
  (if bool_decide (e_locator e = None) then st_modify await_locator else mret tt) ;;
  e ← st_get;
  mret (e_locator e).

Fixpoint locator_attempts {A} (more : nat) (operation : nat -> EM A) : EM A :=
  let again ex := match more with O => st_throw ex | S more => locator_attempts more operation end in
  client ← wait_locator;
  match client with
  | None => again LOCATOR_NOT_AVAILABLE
  | Some c => st_catch (operation c) (fun ex => if is_retried ex then again ex else st_throw ex)
  end.

Definition locator_operation {A} (operation : nat -> EM A) : EM A :=
  locator_attempts (NB_RETRIES - 1) operation.

(** The set is in the order of the names; the code takes its first element. *)
Definition fetch_stream_metadata (c : nat) (stream : string) : EM StreamMetadata :=
  metadata_set ← ecall (ec_metadata c [stream]);
  match metadata_set with
  | [] => st_throw (ResponseErrorException (rc_value StreamDoesNotExist))
  | (_, metadata) :: _ =>
      if metadata_get_response_code metadata =? rc_value Ok then mret metadata
      else st_throw (ResponseErrorException (metadata_get_response_code metadata))
  end.

Definition producer_host (stream : string) (c : nat) : EM string :=
  metadata ← fetch_stream_metadata c stream;
  mret (broker_get_host (get_leader metadata)).

Definition consumer_host (stream : string) (c : nat) : EM string :=
  metadata ← fetch_stream_metadata c stream;
  if negb (bool_decide (get_replicas metadata = [])) then
    replica ← select_randomly (get_replicas metadata);
    mret (broker_get_host replica)
  else mret (broker_get_host (get_leader metadata)).

Definition get_producer_client (stream : string) (parameters : ClientParameters C) : EM nat :=
  host ← locator_operation (producer_host stream);
  client_create (with_host host parameters).

Definition get_consumer_client (stream : string) (parameters : ClientParameters C) : EM nat :=
  host ← locator_operation (consumer_host stream);
  client_create (with_host host parameters).

Definition env_delete_stream (stream : string) : EM unit :=
  locator_operation (fun c => ecall (ec_delete_stream c stream)).

(** ** What producers and consumers read *)

Definition get_recovery_retry_delay : Z := ev_recovery_retry_delay cfg.
Definition get_base_client_parameters : ClientParameters C := ev_client_parameters cfg.
Definition env_get_codec : option C := get_codec (ev_client_parameters cfg).

(** ** The locator *)

Definition get_locator_client : EM nat :=
  host ← select_randomly (ev_hosts cfg);
  client_create (with_shutdown_listener (Some LocatorShutdown) (with_host host get_base_client_parameters)).

Definition task_now : EM unit := st_modify (fun e => put_reconnect_task (schedule_now (e_reconnect_task e)) e).
Definition task_after (delay : Z) : EM unit :=
  st_modify (fun e => put_reconnect_task (schedule_after delay (e_reconnect_task e)) e).

(** [m_locator = nullptr], under [m_mutex]: [returns] says whether the destructor of
    the client that it held, if there was one and no one else refers to it, does;
    [drop_may_block] is when it may not. *)
Definition handle_locator_shutdown (returns : bool) (reason : ShutdownReason) : EM unit :=
  if negb (bool_decide (reason = ClientInitiated)) then
    e ← st_get;
    st_put (put_locator None e) ;;
    (match e_locator e with Some _ => if returns then mret tt else st_throw NeverReturns | None => mret tt end) ;;
    task_now
  else mret tt.

(** Under [m_mutex]. *)
Definition locator_missing : EM bool := st_gets (fun e => bool_decide (e_locator e = None)).

(** The [try] block and its [catch] clause, once [get_locator_client] has
    returned. *)
Definition connect_locator (c : nat) : EM unit := ecall (ec_start c).
Definition install_locator (c : nat) : EM unit := st_modify (put_locator (Some c)).
Definition locator_failed (c : nat) : EM unit :=
  ecall (ec_stop c) ;;
  task_after (ev_recovery_retry_delay cfg).

Definition env_reconnect_to_server : EM unit :=
  missing ← locator_missing;
  if negb (missing : bool) then mret tt
  else
    c ← get_locator_client;
    ecatch (connect_locator c ;; install_locator c) (fun _ => locator_failed c).

(** ** Construction and destruction *)

Definition new_environment (w : W) : ES := MkEState new_Task None ∅ ∅ 0 w.

(** The constructor; when it throws, the members are destroyed, and with them
    the locator, whose destructor stops it. *)
Definition environment_constructor : EM unit :=
  c ← get_locator_client;
  install_locator c ;;
  connect_locator c.

Definition environment_create (w : W) : outcome exn ES * W :=
  match environment_constructor (new_environment w) with
  | (Val _, e) => (Val e, e_world e)
  | (Throw ex, e) =>
      (Throw ex, match e_locator e with Some c => (ec_stop c (e_world e)).2 | None => e_world e end)
  end.

(** [destroy_task] is the return of [m_reconnect_locator_task.destroy()];
    [producer_alive] is what [weak_ptr::lock] finds.  The order of the sets is
    that of addresses, the model takes that of [elements]. *)
Definition environment_destructor (destroy_task : EM unit) (producer_alive consumer_alive : nat -> bool)
    (stop_producer stop_consumer : nat -> EM unit) : EM unit :=
  destroy_task ;;
  e ← st_get;
  (match e_locator e with Some c => ecall (ec_stop c) | None => mret tt end) ;;
  st_iter (fun p => if producer_alive p then stop_producer p else mret tt) (elements (e_producers e)) ;;
  st_iter (fun q => if consumer_alive q then stop_consumer q else mret tt) (elements (e_consumers e)).

(** ** The broker of a client *)

Lemma select_randomly_in {A} (candidates : list A) e :
  candidates <> [] ->
  exists x n, select_randomly candidates e = (Val x, put_drawn n e) /\ x ∈ candidates.
Proof.
  intros Hne. unfold select_randomly, mbind at 1, ST_bind at 1. cbn [st_get].
  destruct (1 <? lenZ candidates) eqn:E.
  - assert (generator (e_drawn e) `mod` length candidates < length candidates)%nat as Hlt
      by (apply Nat.mod_upper_bound; now destruct candidates).
    apply lookup_lt_is_Some in Hlt as [x Hx]. exists x, (S (e_drawn e)).
    split; [|eapply list_elem_of_lookup_2, Hx]. unfold mbind, ST_bind, st_put. now rewrite Hx.
  - destruct candidates as [|x l]; [done|]. exists x, (e_drawn e). split; [now destruct e | left].
Qed.

Lemma wait_locator_Val e : exists e1, wait_locator e = (Val (e_locator e1), e1).
Proof.
  unfold wait_locator, mbind, ST_bind. cbn [st_get]. destruct (bool_decide _); [by exists (await_locator e) | by exists e].
Qed.

(** A turn of the loop that another follows: there was no locator, or the
    operation on it failed with a time-out or an I/O error. *)
Definition failed_turn {A} (operation : nat -> EM A) e e' : Prop :=
  exists l e1, wait_locator e = (Val l, e1) /\
  match l with
  | None => e' = e1
  | Some c => exists ex, operation c e1 = (Throw ex, e') /\ (is_TimeoutException ex = true \/ is_IOException ex = true)
  end.

(** The turn of the operation that decides, in the state that the wait for the
    locator leaves: [None] when there was no locator. *)
Definition last_turn {A} (operation : nat -> EM A) e (l : option nat) e1 : Prop :=
  exists e0, rtc (failed_turn operation) e e0 /\ wait_locator e0 = (Val l, e1) /\ e_locator e1 = l.

Lemma last_turn_here {A} (operation : nat -> EM A) e e1 :
  wait_locator e = (Val (e_locator e1), e1) -> last_turn operation e (e_locator e1) e1.
Proof. intros Ew. exists e. repeat split; [apply rtc_refl | exact Ew]. Qed.

Lemma last_turn_later {A} (operation : nat -> EM A) e e2 l e1 :
  failed_turn operation e e2 -> last_turn operation e2 l e1 -> last_turn operation e l e1.
Proof. intros Hf (e0 & H1 & H2). exists e0. split; [eapply rtc_l; eassumption | exact H2]. Qed.

(** An operation on the locator returns what its last turn returned, and throws
    what it threw, or that there was no locator. *)
Lemma locator_attempts_inv {A} more (operation : nat -> EM A) e r e' :
  locator_attempts more operation e = (r, e') ->
  exists l e1, last_turn operation e l e1 /\
  match l with Some c => operation c e1 = (r, e') | None => r = Throw LOCATOR_NOT_AVAILABLE end.
Proof.
  revert e. induction more as [|more IH]; intros e; cbn [locator_attempts];
    destruct (wait_locator_Val e) as [e1 Ew]; rewrite (ST_bind_Val _ _ _ _ _ Ew);
    pose proof (last_turn_here operation e e1 Ew) as Hl; destruct (e_locator e1) as [c|] eqn:El.
  - unfold st_catch. destruct (operation c e1) as [[a|ex] e2] eqn:Eo; [intros [= <- <-]; by exists (Some c), e1|].
    destruct (is_retried ex); intros [= <- <-]; by exists (Some c), e1.
  - intros [= <- <-]. by exists None, e1.
  - unfold st_catch. destruct (operation c e1) as [[a|ex] e2] eqn:Eo; [intros [= <- <-]; by exists (Some c), e1|].
    destruct (is_retried ex) eqn:Er; [|intros [= <- <-]; by exists (Some c), e1].
    intros (l & e3 & H1 & H2)%IH. exists l, e3. split; [|exact H2]. eapply last_turn_later; [|exact H1].
    exists (Some c), e1. split; [exact Ew|]. exists ex. split; [exact Eo|]. by apply orb_prop.
  - intros (l & e3 & H1 & H2)%IH. exists l, e3. split; [|exact H2]. eapply last_turn_later; [|exact H1]. by exists None, e1.
Qed.

(** The answer of the locator for a stream that it knows. *)
Definition answered (stream : string) (l : nat) (w : W) (m : StreamMetadata) (w1 : W) : Prop :=
  exists name rest, ec_metadata l [stream] w = (Val ((name, m) :: rest), w1) /\ sm_response_code m = rc_value Ok.

(** The exception of a lookup that finds no broker: the one of the request, that
    the stream does not exist when the answer has no stream, and otherwise the
    code of its first stream. *)
Definition refused (stream : string) (l : nat) (w : W) (ex : exn) : Prop :=
  match (ec_metadata l [stream] w).1 with
  | Throw ex' => ex = ex'
  | Val [] => ex = ResponseErrorException (rc_value StreamDoesNotExist)
  | Val ((_, m) :: _) => sm_response_code m <> rc_value Ok /\ ex = ResponseErrorException (sm_response_code m)
  end.

Lemma fetch_stream_metadata_inv l stream e r e' :
  fetch_stream_metadata l stream e = (r, e') ->
  match r with
  | Val m => exists w1, answered stream l (e_world e) m w1 /\ e' = put_eworld w1 e
  | Throw ex => refused stream l (e_world e) ex
  end.
Proof.
  unfold fetch_stream_metadata, refused, ecall, mbind, ST_bind.
  destruct (ec_metadata l [stream] (e_world e)) as [[set|ex] w1] eqn:Em.
  - destruct set as [|[name m] rest]; [by intros [= <- <-]|].
    unfold metadata_get_response_code. destruct (Z.eqb_spec (sm_response_code m) (rc_value Ok)) as [Ec|Ec]; intros [= <- <-].
    + exists w1. split; [|done]. now exists name, rest.
    + by split.
  - by intros [= <- <-].
Qed.

(** A broker of [brokers m] for the metadata [m] that the locator answered in the
    last turn, or why there is none. *)
Definition located (stream : string) (p : ClientParameters C) (brokers : StreamMetadata -> list Broker)
    (host : nat -> EM string) e (r : outcome exn nat) (e' : ES) : Prop :=
  exists l e1, last_turn host e l e1 /\
  match l, r with
  | Some l, Val c =>
      exists m w1 b, answered stream l (e_world e1) m w1 /\
        b ∈ brokers m /\ ec_create (with_host (br_host b) p) w1 = (c, e_world e')
  | Some l, Throw ex => refused stream l (e_world e1) ex
  | None, r => r = Throw LOCATOR_NOT_AVAILABLE
  end.

Lemma located_create stream p brokers (host : nat -> EM string) e :
  (forall l e1 r e2, host l e1 = (r, e2) ->
     match r with
     | Val h => exists m w1 b, answered stream l (e_world e1) m w1 /\ b ∈ brokers m /\ h = br_host b /\ e_world e2 = w1
     | Throw ex => refused stream l (e_world e1) ex
     end) ->
  let '(r, e') := (h ← locator_operation host; client_create (with_host h p)) e in
  located stream p brokers host e r e'.
Proof.
  intros Hh. unfold mbind, ST_bind. destruct (locator_operation host e) as [r e2] eqn:E.
  apply locator_attempts_inv in E as (l & e1 & Hl & E). destruct r as [h|ex].
  - destruct l as [l|]; [|discriminate]. apply Hh in E as (m & w1 & b & Ha & Hb & -> & Ew).
    unfold client_create. destruct (ec_create _ (e_world e2)) as [c w] eqn:Ec. subst w1. exists (Some l), e1. split; [done|].
    by exists m, (e_world e2), b.
  - exists l, e1. split; [done|]. destruct l as [l|]; [by apply Hh in E | congruence].
Qed.

(** The replicas serve consumers; a stream without replicas has its leader. *)
Definition consumer_brokers (m : StreamMetadata) : list Broker :=
  if bool_decide (sm_replicas m = []) then [sm_leader m] else sm_replicas m.

(** C28: a producer gets a client of the leader of its stream, and a consumer one
    of a replica, or of the leader when there is no replica, as the locator
    answered in the last attempt, with every other parameter as it was given;
    otherwise the call throws what that attempt's request threw, exactly the
    code that the broker answered for the stream, [StreamDoesNotExist] when it
    answered for no stream, or that there is no locator.  The attempts before
    found no locator, or failed with a time-out or an I/O error. *)
Theorem get_client_broker stream p e :
  (let '(r, e') := get_producer_client stream p e in
   located stream p (fun m => [sm_leader m]) (producer_host stream) e r e') /\
  (let '(r, e') := get_consumer_client stream p e in
   located stream p consumer_brokers (consumer_host stream) e r e').
Proof.
  split; apply located_create; intros l e1 r e2 E.
  - unfold producer_host in E. apply ST_bind_inv in E as [(m & e3 & Ef & E)|(ex & Ef & ->)];
      apply fetch_stream_metadata_inv in Ef; [|exact Ef]. destruct Ef as (w1 & Ha & ->). injection E as <- <-.
    exists m, w1, (sm_leader m). repeat split; [done | left].
  - unfold consumer_host in E. apply ST_bind_inv in E as [(m & e3 & Ef & E)|(ex & Ef & ->)];
      apply fetch_stream_metadata_inv in Ef; [|exact Ef]. destruct Ef as (w1 & Ha & ->). unfold get_replicas in E.
    destruct (bool_decide_reflect (sm_replicas m = [])) as [Hr|Hr]; cbn [negb] in E.
    + injection E as <- <-. exists m, w1, (sm_leader m). unfold consumer_brokers. rewrite bool_decide_true by done.
      repeat split; [done | left].
    + destruct (select_randomly_in (sm_replicas m) (put_eworld w1 e1) Hr) as (b & n & Es & Hb).
      rewrite (ST_bind_Val _ _ _ _ _ Es) in E. injection E as <- <-. exists m, w1, b. unfold consumer_brokers.
      rewrite bool_decide_false by done. repeat split; done.
Qed.

End environment.
