(* ===== verification/EnvironmentSystem.v ===== *)
(** * The environment under concurrency

    Any number of threads run operations on the locator while clients are lost,
    the shutdown listener is called and the reconnection task runs.  Each step
    of [estep] is one critical section of [Environment], one step of the task
    ([Tasks]) or something that happens behind the interface of the clients. *)

From S2P Require Import Prelude Words OrdMap Types Messages Client Fluent ClientParameters Tasks Environment.

(** ** The operations that the environment runs on its locator *)

Inductive locator_call :=
| LookupProducer (stream : string)
| LookupConsumer (stream : string)
| LocatorCreate (stream : string) (properties : Properties)
| LocatorDelete (stream : string).

(** Where a call of [locator_operation] is: in the wait of a turn, in the
    operation, returned. *)
Inductive locator_pc :=
| LWait (turn : nat)
| LRun (turn : nat) (c : nat)
| LDone (r : outcome exn string).

(** [lc_steps], [lc_expired] and [lc_results] record the steps of the call, its
    waits that timed out and what its attempts yielded. *)
Record lcall := MkLCall {
  lc_call : locator_call;
  lc_pc : locator_pc;
  lc_steps : nat;
  lc_expired : nat;
  lc_results : list (outcome exn string)
}.

(** Where an invocation of [reconnect_to_server] is. *)
Inductive reconnect_pc := RConnect | RInstall (c : nat) | RFailed (c : nat).

(** ** What is said of clients that are lost

    [ec_lost c w]: the connection of the client is gone, so that no request on
    it succeeds any more. *)
Class LosableClients (C W : Type) `{EnvironmentClients C W} := {
  ec_lost : nat -> W -> Prop;
  ec_lost_create c p w : ec_lost c w -> ec_lost c (ec_create p w).2;
  ec_lost_start c d w : ec_lost c w -> ec_lost c (ec_start d w).2;
  ec_lost_stop c d w : ec_lost c w -> ec_lost c (ec_stop d w).2;
  ec_lost_metadata c d streams w : ec_lost c w -> ec_lost c (ec_metadata d streams w).2;
  ec_lost_create_stream c d stream properties w : ec_lost c w -> ec_lost c (ec_create_stream d stream properties w).2;
  ec_lost_delete_stream c d stream w : ec_lost c w -> ec_lost c (ec_delete_stream d stream w).2;
  ec_metadata_fails c streams w : ec_lost c w -> is_val (ec_metadata c streams w).1 = false;
  ec_create_stream_fails c stream properties w : ec_lost c w -> is_val (ec_create_stream c stream properties w).1 = false;
  ec_delete_stream_fails c stream w : ec_lost c w -> is_val (ec_delete_stream c stream w).1 = false
}.

Section system.
Context {C W : Type} `{LosableClients C W}.
Context (cfg : EConfig C) (generator : nat -> nat).

Abbreviation ES := (EState W).
Abbreviation EM A := (ST ES exn A).
Implicit Types (e : ES) (k : lcall) (w : W).

Definition no_host (m : EM unit) : EM string := m ;; mret EmptyString.

Definition run_locator_call (call : locator_call) (c : nat) : EM string :=
  match call with
  | LookupProducer stream => producer_host stream c
  | LookupConsumer stream => consumer_host generator stream c
  | LocatorCreate stream properties => no_host (ecall (ec_create_stream c stream properties))
  | LocatorDelete stream => no_host (ecall (ec_delete_stream c stream))
  end.

(** ** One call *)

Definition next_turn (turn : nat) (ex : exn) : locator_pc :=
  if (NB_RETRIES <=? turn)%nat then LDone (Throw ex) else LWait (S turn).

Definition after_attempt (turn : nat) (r : outcome exn string) : locator_pc :=
  match r with
  | Val a => LDone (Val a)
  | Throw ex => if is_retried ex then next_turn turn ex else LDone (Throw ex)
  end.

(** A step of a call; [None] when it has returned, or waits and the delay has
    not [expired]. *)
Definition call_step (expired : bool) k e : option (lcall * ES) :=
  match lc_pc k with
  | LWait turn =>
      match e_locator e with
      | Some c => Some (MkLCall (lc_call k) (LRun turn c) (S (lc_steps k)) (lc_expired k) (lc_results k), e)
      | None =>
          if expired
          then Some (MkLCall (lc_call k) (next_turn turn LOCATOR_NOT_AVAILABLE) (S (lc_steps k)) (S (lc_expired k)) (lc_results k), e)
          else None
      end
  | LRun turn c =>
      let '(r, e') := run_locator_call (lc_call k) c e in
      Some (MkLCall (lc_call k) (after_attempt turn r) (S (lc_steps k)) (lc_expired k) (lc_results k ++ [r]), e')
  | LDone _ => None
  end.

Definition new_call (call : locator_call) : lcall := MkLCall call (LWait 1) 0 0 [].

(** *** The steps are the code *)

(** A call that no other thread interrupts: a wait without a locator times out. *)
Fixpoint run_call_alone (n : nat) k e : lcall * ES :=
  match n with
  | O => (k, e)
  | S n => match call_step true k e with Some (k', e') => run_call_alone n k' e' | None => (k, e) end
  end.

Lemma run_call_alone_done n k e r : lc_pc k = LDone r -> run_call_alone n k e = (k, e).
Proof. intros E. destruct n; [done|]. cbn [run_call_alone]. unfold call_step. now rewrite E. Qed.

Lemma wait_locator_id e : wait_locator id e = (Val (e_locator e), e).
Proof. unfold wait_locator, mbind, ST_bind. cbn [st_get]. now destruct (bool_decide _). Qed.

Lemma next_turn_more more ex :
  (more < NB_RETRIES)%nat ->
  next_turn (NB_RETRIES - more) ex = match more with O => LDone (Throw ex) | S more => LWait (NB_RETRIES - more) end.
Proof.
  unfold next_turn, NB_RETRIES. intros Hm. destruct more as [|more]; [done|].
  rewrite (proj2 (Nat.leb_gt 3 _)) by lia. f_equal. lia.
Qed.

Lemma locator_attempts_alone more n call steps expired results e :
  (more < NB_RETRIES)%nat -> (2 * S more <= n)%nat ->
  let '(r, e') := locator_attempts id more (run_locator_call call) e in
  exists k, run_call_alone n (MkLCall call (LWait (NB_RETRIES - more)) steps expired results) e = (k, e') /\ lc_pc k = LDone r.
Proof.
  revert n e steps expired results. induction more as [|more IH]; intros n e steps expired results Hm Hn;
    destruct n as [|[|n]]; try lia; cbn [locator_attempts]; rewrite (ST_bind_Val _ _ _ _ _ (wait_locator_id e));
    cbn [run_call_alone]; unfold call_step at 1; cbn [lc_pc lc_call lc_steps lc_expired lc_results];
    destruct (e_locator e) as [c|] eqn:El; cbv beta iota.
  - unfold call_step, st_catch. cbn [lc_pc lc_call]. destruct (run_locator_call call c e) as [[a|ex] e1].
    + rewrite (run_call_alone_done _ _ _ (Val a)) by done. by eexists.
    + destruct (is_retried ex) eqn:Er; simpl; rewrite Er, (run_call_alone_done _ _ _ (Throw ex)) by done; by eexists.
  - cbn. by eexists.
  - unfold call_step, st_catch. cbn [lc_pc lc_call]. destruct (run_locator_call call c e) as [[a|ex] e1].
    + rewrite (run_call_alone_done _ _ _ (Val a)) by done. by eexists.
    + cbn [after_attempt]. destruct (is_retried ex) eqn:Er.
      * rewrite next_turn_more by done. apply IH; lia.
      * rewrite (run_call_alone_done _ _ _ (Throw ex)) by done. by eexists.
  - rewrite next_turn_more by done. apply (IH (S n)); lia.
Qed.

(** A call that runs alone is [locator_operation]. *)
Lemma locator_operation_alone call e :
  let '(r, e') := locator_operation id (run_locator_call call) e in
  exists k, run_call_alone 6 (new_call call) e = (k, e') /\ lc_pc k = LDone r.
Proof. apply (locator_attempts_alone 2 6 call 0 0 [] e); unfold NB_RETRIES; lia. Qed.

(** *** How often a call tries, and what it returns *)

(** An attempt that ended in a time-out or in an I/O error. *)
Definition retried (r : outcome exn string) : Prop :=
  exists what, r = Throw (TimeoutException what) \/ r = Throw (IOException what).

Lemma retried_throw ex : is_retried ex = true <-> retried (Throw ex).
Proof.
  split; [|by intros (what & [[= ->]|[= ->]])]. unfold is_retried, retried. destruct ex; try discriminate; eauto.
Qed.

(** Turns used so far. *)
Definition turns k : nat := (lc_expired k + length (lc_results k))%nat.

Definition call_ok k : Prop :=
  match lc_pc k with
  | LWait turn =>
      (turns k = turn - 1 /\ 1 <= turn <= NB_RETRIES /\ lc_steps k <= 2 * (turn - 1))%nat /\
      Forall retried (lc_results k)
  | LRun turn _ =>
      (turns k = turn - 1 /\ 1 <= turn <= NB_RETRIES /\ lc_steps k <= 2 * (turn - 1) + 1)%nat /\
      Forall retried (lc_results k)
  | LDone r =>
      (turns k <= NB_RETRIES /\ lc_steps k <= 2 * NB_RETRIES)%nat /\
      ((r = Throw LOCATOR_NOT_AVAILABLE /\ turns k = NB_RETRIES /\ (0 < lc_expired k)%nat /\ Forall retried (lc_results k)) \/
       (exists before, lc_results k = before ++ [r] /\ Forall retried before /\ (retried r -> turns k = NB_RETRIES)))
  end.

Lemma call_step_ok expired k e k' e' : call_ok k -> call_step expired k e = Some (k', e') -> call_ok k'.
Proof.
  unfold call_step, call_ok at 1. destruct (lc_pc k) as [turn|turn c|r] eqn:Epc; intros Hk E; [| |discriminate].
  - destruct Hk as [(Ht & Hr & Hs) Hf]. destruct (e_locator e) as [c|].
    + injection E as <- <-. unfold call_ok, turns. simpl. unfold turns in Ht. split; [lia | done].
    + destruct expired; [|discriminate]. injection E as <- <-.
      unfold call_ok, next_turn, turns in *. cbn [lc_pc lc_results lc_expired lc_steps].
      destruct (Nat.leb_spec NB_RETRIES turn); (split; [lia|]); [|done].
      left. repeat split; [lia | lia | done].
  - destruct Hk as [(Ht & Hb & Hs) Hf]. destruct (run_locator_call (lc_call k) c e) as [o e1]. injection E as <- <-.
    unfold call_ok, turns, after_attempt, next_turn in *. cbn [lc_pc lc_results lc_expired lc_steps].
    rewrite length_app. simpl length.
    destruct o as [a|ex]; [|destruct (is_retried ex) eqn:Er; [destruct (Nat.leb_spec NB_RETRIES turn)|]].
    + split; [lia|]. right. eexists. repeat split; [done|]. intros (what & [E|E]); discriminate.
    + split; [lia|]. right. eexists. repeat split; [done | lia].
    + split; [lia|]. apply Forall_app. split; [done|]. constructor; [by apply retried_throw | constructor].
    + split; [lia|]. right. eexists. repeat split; [done|]. intros Hret%retried_throw. congruence.
Qed.

Lemma new_call_ok call : call_ok (new_call call).
Proof. unfold call_ok, turns. simpl. unfold NB_RETRIES. split; [lia | constructor]. Qed.

(** ** The system

    [es_live] are the locators that were started and not lost, [es_notify] the
    calls of the shutdown listener that are to come, each with the client that
    makes it, and [es_wedged] tells that one of them waits for ever in the
    destructor of the locator it dropped: it holds [m_mutex], and no thread
    that needs the mutex takes a step any more. *)

Record esys := MkESys {
  es_env : ES;
  es_calls : list lcall;
  es_invocation : option reconnect_pc;
  es_live : gset nat;
  es_notify : list (nat * ShutdownReason);
  es_wedged : bool
}.

Definition keeps_lost w w' : Prop := forall c, ec_lost c w -> ec_lost c w'.

(** A step of the call that takes [m_mutex]: the wait for the locator. *)
Definition locks_mutex k : bool := match lc_pc k with LWait _ => true | _ => false end.

Inductive estep : esys -> esys -> Prop :=
| ECall call e ks i l n wd :
    estep (MkESys e ks i l n wd) (MkESys e (ks ++ [new_call call]) i l n wd)
| ECallStep j expired k k' e e' ks i l n wd :
    ks !! j = Some k -> wd && locks_mutex k = false -> call_step expired k e = Some (k', e') ->
    estep (MkESys e ks i l n wd) (MkESys e' (<[j := k']> ks) i l n wd)
| ERegisterProducer p e ks i l n :
    estep (MkESys e ks i l n false) (MkESys (register_producer p e).2 ks i l n false)
| EUnregisterProducer p e ks i l n :
    estep (MkESys e ks i l n false) (MkESys (unregister_producer p e).2 ks i l n false)
| ERegisterConsumer q e ks i l n :
    estep (MkESys e ks i l n false) (MkESys (register_consumer q e).2 ks i l n false)
| EUnregisterConsumer q e ks i l n :
    estep (MkESys e ks i l n false) (MkESys (unregister_consumer q e).2 ks i l n false)
| ETaskStrand left t e ks i l n wd :
    strand_step left (e_reconnect_task e) = Some t ->
    estep (MkESys e ks i l n wd) (MkESys (put_reconnect_task t e) ks i l n wd)
| ETaskTimer t e ks i l n wd :
    timer_step (e_reconnect_task e) = Some t ->
    estep (MkESys e ks i l n wd) (MkESys (put_reconnect_task t e) ks i l n wd)
| ETaskEnd m t e ks l n wd :
    invocation_turn m (e_reconnect_task e) = Some t -> t_started t = t_started (e_reconnect_task e) ->
    estep (MkESys e ks None l n wd) (MkESys (put_reconnect_task t e) ks None l n wd)
| EReconnectBegin m t e ks l n :
    invocation_turn m (e_reconnect_task e) = Some t -> t_started t = t_started (e_reconnect_task e) + 1 ->
    estep (MkESys e ks None l n false)
          (MkESys (put_reconnect_task t e) ks
                  (if bool_decide (e_locator e = None) then Some RConnect else None) l n false)
| EReconnectConnected c e e1 e2 ks l n wd :
    get_locator_client cfg generator e = (Val c, e1) -> connect_locator c e1 = (Val tt, e2) ->
    estep (MkESys e ks (Some RConnect) l n wd) (MkESys e2 ks (Some (RInstall c)) ({[c]} ∪ l) n wd)
| EReconnectRefused c e e1 e2 ex ks l n wd :
    get_locator_client cfg generator e = (Val c, e1) -> connect_locator c e1 = (Throw ex, e2) ->
    is_StreamException ex = true ->
    estep (MkESys e ks (Some RConnect) l n wd) (MkESys e2 ks (Some (RFailed c)) l n wd)
| EReconnectInstall c e ks l n :
    estep (MkESys e ks (Some (RInstall c)) l n false) (MkESys (install_locator c e).2 ks None l n false)
| EReconnectFailed c e e' ks l n wd :
    locator_failed cfg c e = (Val tt, e') ->
    estep (MkESys e ks (Some (RFailed c)) l n wd) (MkESys e' ks None l n wd)
| ELost c reason w e ks i l n wd :
    c ∈ l -> keeps_lost (e_world e) w -> ec_lost c w -> reason <> ClientInitiated ->
    estep (MkESys e ks i l n wd) (MkESys (put_eworld w e) ks i (l ∖ {[c]}) (n ++ [(c, reason)]) wd)
| ENotify c reason returns n1 n2 e ks i l :
    returns = true \/ drop_may_block c reason (e_locator e) = true ->
    estep (MkESys e ks i l (n1 ++ (c, reason) :: n2) false)
          (let '(r, e') := handle_locator_shutdown returns reason e in MkESys e' ks i l (n1 ++ n2) (negb (is_val r)))
| EWorld w e ks i l n wd :
    keeps_lost (e_world e) w -> estep (MkESys e ks i l n wd) (MkESys (put_eworld w e) ks i l n wd).

(** After the constructor. *)
Definition einitial w (s : esys) : Prop :=
  exists e c, environment_constructor cfg generator (new_environment w) = (Val tt, e) /\
    e_locator e = Some c /\ s = MkESys e [] None {[c]} [] false.

Lemma created_initial w w' e c :
  environment_create cfg generator w = (Val e, w') -> e_locator e = Some c -> einitial w (MkESys e [] None {[c]} [] false).
Proof.
  unfold environment_create. intros Ec El. exists e, c. split; [|now split].
  destruct (environment_constructor cfg generator (new_environment w)) as [[[]|ex] e1]; [|discriminate].
  now injection Ec as ->.
Qed.

Definition ereachable (s : esys) : Prop := exists w s0, einitial w s0 /\ rtc estep s0 s.

(** ** What leaves the task and the locator alone *)

Definition same_env e e' : Prop :=
  e_reconnect_task e' = e_reconnect_task e /\ e_locator e' = e_locator e /\ keeps_lost (e_world e) (e_world e').

#[global] Instance same_env_preorder : PreOrder same_env.
Proof.
  split; [intros e; repeat split; by intros c|]. intros e1 e2 e3 (H1 & H2 & H3) (H4 & H5 & H6).
  split; [congruence|]. split; [congruence|]. intros c Hc. auto.
Qed.

Lemma same_env_eq e e' :
  e_reconnect_task e' = e_reconnect_task e -> e_locator e' = e_locator e -> e_world e' = e_world e -> same_env e e'.
Proof. intros E1 E2 E3. split; [done|]. split; [done|]. intros c. now rewrite E3. Qed.

Lemma same_env_ecall {A} (m : ST W exn A) : (forall c w, ec_lost c w -> ec_lost c (m w).2) -> preserves same_env (ecall m).
Proof.
  intros Hm e. unfold ecall. destruct (m (e_world e)) as [r w] eqn:E. split; [done|]. split; [done|].
  intros c Hc. specialize (Hm c (e_world e) Hc). now rewrite E in Hm.
Qed.

Lemma same_env_select {A} (candidates : list A) : preserves same_env (select_randomly generator candidates).
Proof.
  apply (preserves_get same_env). intros e. destruct (1 <? _).
  - apply (preserves_put same_env); [by apply same_env_eq|]. destruct (_ !! _); [apply (preserves_ret same_env) | apply (preserves_throw same_env)].
  - destruct candidates; [apply (preserves_throw same_env) | apply (preserves_ret same_env)].
Qed.

Lemma same_env_create p : preserves same_env (client_create p).
Proof.
  intros e. unfold client_create. destruct (ec_create p (e_world e)) as [c w] eqn:E. split; [done|]. split; [done|].
  intros d Hd. pose proof (ec_lost_create d p (e_world e) Hd) as Hl. now rewrite E in Hl.
Qed.

#[local] Hint Resolve same_env_select same_env_create : preserves.
#[local] Hint Extern 1 (preserves same_env (ecall _)) => apply same_env_ecall; intros ? ? ?; eauto using
  ec_lost_start, ec_lost_stop, ec_lost_metadata, ec_lost_create_stream, ec_lost_delete_stream : preserves.
#[local] Hint Extern 2 (preserves _ (match ?x with [] => _ | _ :: _ => _ end)) => destruct x as [|[? ?] ?] : preserves.

Lemma same_env_fetch c stream : preserves same_env (fetch_stream_metadata c stream).
Proof. unfold fetch_stream_metadata. auto with preserves. Qed.

#[local] Hint Resolve same_env_fetch : preserves.

Lemma same_env_call call c : preserves same_env (run_locator_call call c).
Proof. destruct call; simpl; unfold producer_host, consumer_host, no_host; auto with preserves. Qed.

Lemma same_env_locator : preserves same_env (get_locator_client cfg generator).
Proof. unfold get_locator_client. auto with preserves. Qed.

Lemma same_env_connect c : preserves same_env (connect_locator c).
Proof. unfold connect_locator. auto with preserves. Qed.

Lemma call_step_same expired k e k' e' : call_step expired k e = Some (k', e') -> same_env e e'.
Proof.
  unfold call_step. destruct (lc_pc k) as [turn|turn c|r]; [| |discriminate].
  - destruct (e_locator e); [|destruct expired; [|discriminate]]; by intros [= _ <-].
  - pose proof (same_env_call (lc_call k) c e) as Hs. destruct (run_locator_call (lc_call k) c e) as [r e1].
    now intros [= _ <-].
Qed.

(** A request on a lost client fails. *)
Lemma call_fails call c e : ec_lost c (e_world e) -> is_val (run_locator_call call c e).1 = false.
Proof.
  intros Hl. destruct call as [stream|stream|stream properties|stream]; simpl;
    unfold producer_host, consumer_host, fetch_stream_metadata, no_host, ecall, mbind, ST_bind.
  1-2: pose proof (ec_metadata_fails c [stream] (e_world e) Hl) as Hf; now destruct (ec_metadata c [stream] (e_world e)) as [[a|ex] w].
  - pose proof (ec_create_stream_fails c stream properties (e_world e) Hl) as Hf.
    now destruct (ec_create_stream c stream properties (e_world e)) as [[a|ex] w].
  - pose proof (ec_delete_stream_fails c stream (e_world e) Hl) as Hf.
    now destruct (ec_delete_stream c stream (e_world e)) as [[a|ex] w].
Qed.

(** ** The invariant *)

Record einv (s : esys) : Prop := MkEInv {
  ei_healthy : healthy (e_reconnect_task (es_env s));
  ei_tinv : tinv (e_reconnect_task (es_env s));
  ei_calls : Forall call_ok (es_calls s);
  ei_recovery : es_wedged s = false -> e_locator (es_env s) = None ->
    armed (e_reconnect_task (es_env s)) \/ es_invocation s <> None;
  ei_wedged : es_wedged s = true -> e_locator (es_env s) = None
}.

Lemma einv_same e e' ks i i' l l' n n' wd :
  same_env e e' -> (i <> None -> i' <> None) -> einv (MkESys e ks i l n wd) -> einv (MkESys e' ks i' l' n' wd).
Proof.
  intros (Et & El & _) Hi [H1 H2 H3 H4 H5]. constructor; simpl in *; rewrite ?Et, ?El; try done.
  intros Hw E. destruct (H4 Hw E); auto.
Qed.

Lemma einv_task b t e ks i i' l n wd :
  quiet_tstep b (e_reconnect_task e) t -> (b = true -> e_locator e = None -> i' <> None) ->
  (i <> None -> i' <> None) ->
  einv (MkESys e ks i l n wd) -> einv (MkESys (put_reconnect_task t e) ks i' l n wd).
Proof.
  intros Hs Hb Hi [H1 H2 H3 H4 H5]. simpl in *. destruct (quiet_tstep_armed _ _ _ H1 H2 Hs) as [Hh Ha].
  constructor; simpl; try done; [eapply tinv_step, quiet_tstep_tstep; eassumption|].
  intros Hw E. destruct (H4 Hw E) as [Har|Hne]; [|auto]. destruct (Ha Har) as [->|]; auto.
Qed.

Lemma einv_armed t e e' ks ks' i' l l' n n' i wd wd' :
  einv (MkESys e ks i l n wd) -> e_reconnect_task e' = t -> healthy t -> tinv t -> armed t -> ks' = ks ->
  (wd' = true -> e_locator e' = None) ->
  einv (MkESys e' ks' i' l' n' wd').
Proof. intros [H1 H2 H3 H4 H5] Et Hh Ht Ha -> Hw. constructor; simpl in *; rewrite ?Et; auto. Qed.

Lemma einv_notify returns reason e ks i l n n' :
  einv (MkESys e ks i l n false) ->
  einv (let '(r, e') := handle_locator_shutdown returns reason e in MkESys e' ks i l n' (negb (is_val r))).
Proof.
  intros Hi. unfold handle_locator_shutdown. destruct (bool_decide (reason = ClientInitiated)).
  { apply (einv_same e e ks i i l l n n' false) in Hi; [exact Hi | by apply same_env_eq | done]. }
  assert (einv (MkESys (put_reconnect_task (schedule_now (e_reconnect_task e)) (put_locator None e)) ks i l n' false)) as Hnow.
  { destruct (schedule_now_healthy _ (ei_healthy _ Hi)) as [Hh Ha].
    eapply einv_armed; [exact Hi | reflexivity | exact Hh | | exact Ha | done | done].
    eapply tinv_step; [exact (ei_tinv _ Hi) | apply TsNow]. }
  destruct Hi as [H1 H2 H3 H4 H5]. simpl in *. unfold mbind, ST_bind. cbn [st_get st_put].
  destruct (e_locator e); [|exact Hnow]. destruct returns; [exact Hnow|]. by constructor.
Qed.

Lemma einv_step s s' : einv s -> estep s s' -> einv s'.
Proof.
  intros Hi Hs. revert Hi. destruct Hs as
    [call e ks i l n wd|j expired k k' e e' ks i l n wd Ek Hwd E|p e ks i l n|p e ks i l n|q e ks i l n|q e ks i l n
    |left t e ks i l n wd E|t e ks i l n wd E|m t e ks l n wd E Es|m t e ks l n E Es
    |c e e1 e2 ks l n wd E1 E2|c e e1 e2 ex ks l n wd E1 E2 _|c e ks l n|c e e' ks l n wd E
    |c reason w e ks i l n wd Hc Hw Hl Hr|c reason returns n1 n2 e ks i l _|w e ks i l n wd Hw]; intros Hi.
  - destruct Hi as [H1 H2 H3 H4 H5]. constructor; simpl in *; try done. apply Forall_app. split; [done|].
    apply Forall_singleton, new_call_ok.
  - apply (einv_same e e' ks i i l l n n) in Hi; [|eapply call_step_same, E | done].
    destruct Hi as [H1 H2 H3 H4 H5]. constructor; simpl in *; try done. apply Forall_insert; [done|].
    eapply call_step_ok; [|exact E]. eapply Forall_lookup_1; [exact H3 | exact Ek].
  - eapply (einv_same e _ ks i i); [by apply same_env_eq | done | exact Hi].
  - eapply (einv_same e _ ks i i); [by apply same_env_eq | done | exact Hi].
  - eapply (einv_same e _ ks i i); [by apply same_env_eq | done | exact Hi].
  - eapply (einv_same e _ ks i i); [by apply same_env_eq | done | exact Hi].
  - by apply (einv_task false t e ks i i l n wd (QtStrand left _ _ E)).
  - by apply (einv_task false t e ks i i l n wd (QtTimer _ _ E)).
  - by apply (einv_task false t e ks None None l n wd (QtEnd m _ _ E Es)).
  - apply (einv_task true t e ks None _ l n false (QtCall m _ _ E Es)); [|done | done].
    intros _ El. now rewrite bool_decide_true.
  - eapply einv_same; [|by intros _|exact Hi]. pose proof (same_env_locator e) as S1. rewrite E1 in S1.
    pose proof (same_env_connect c e1) as S2. rewrite E2 in S2. etransitivity; eassumption.
  - eapply einv_same; [|by intros _|exact Hi]. pose proof (same_env_locator e) as S1. rewrite E1 in S1.
    pose proof (same_env_connect c e1) as S2. rewrite E2 in S2. etransitivity; eassumption.
  - destruct Hi as [H1 H2 H3 H4 H5]. by constructor.
  - unfold locator_failed, ecall, mbind, ST_bind in E. destruct (ec_stop c (e_world e)) as [[[]|ex] w]; [|discriminate].
    injection E as <-. destruct (schedule_after_healthy (ev_recovery_retry_delay cfg) _ (ei_healthy _ Hi)) as [Hh Ha].
    eapply einv_armed; [exact Hi | reflexivity | exact Hh | | exact Ha | done | exact (ei_wedged _ Hi)].
    eapply tinv_step; [exact (ei_tinv _ Hi) | apply TsAfter].
  - eapply (einv_same e _ ks i i); [done | done | exact Hi].
  - by eapply einv_notify.
  - eapply (einv_same e _ ks i i); [done | done | exact Hi].
Qed.

Lemma einv_reachable s : ereachable s -> einv s.
Proof.
  intros (w & s0 & (e & c & Ec & El & ->) & Hr). cut (einv (MkESys e [] None {[c]} [] false)).
  - induction Hr; eauto using einv_step.
  - assert (e_reconnect_task e = new_Task) as Et.
    { unfold environment_constructor in Ec. apply ST_bind_inv in Ec as [(d & e1 & E1 & Ec)|(ex & _ & [=])].
      apply ST_bind_inv in Ec as [([] & e2 & E2 & Ec)|(ex & _ & [=])]. injection E2 as <-.
      pose proof (same_env_locator (new_environment w)) as (S1 & _). rewrite E1 in S1.
      pose proof (same_env_connect d (put_locator (Some d) e1)) as (S2 & _). rewrite Ec in S2. simpl in *. congruence. }
    constructor; simpl; rewrite ?Et, ?El; [apply healthy_new | apply tinv_reachable, rtc_refl | constructor | done | done].
Qed.

(** ** The mutex that is held for ever *)

(** While the mutex is held for ever, it stays so, nobody gets a locator, and a
    call that waits for it does not move. *)
Lemma wedged_step s s' :
  es_wedged s = true -> estep s s' ->
  es_wedged s' = true /\
  (forall j k, es_calls s !! j = Some k -> locks_mutex k = true -> es_calls s' !! j = Some k).
Proof.
  intros Hw Hs. destruct Hs as
    [call e ks i l n wd|j expired k k' e e' ks i l n wd Ek Hwd E|p e ks i l n|p e ks i l n|q e ks i l n|q e ks i l n
    |left t e ks i l n wd E|t e ks i l n wd E|m t e ks l n wd E Es|m t e ks l n E Es
    |c e e1 e2 ks l n wd E1 E2|c e e1 e2 ex ks l n wd E1 E2 _|c e ks l n|c e e' ks l n wd E
    |c reason w e ks i l n wd Hc Hl Hll Hr|c reason returns n1 n2 e ks i l _|w e ks i l n wd Hl];
    cbn [es_wedged es_calls] in *; subst; try done.
  - split; [done|]. intros j k Hk _. by apply lookup_app_l_Some.
  - split; [done|]. intros j' k1 Hk1 Hl. destruct (decide (j' = j)) as [->|Hne]; [|by rewrite list_lookup_insert_ne].
    rewrite Ek in Hk1. injection Hk1 as <-. by rewrite Hl in Hwd.
Qed.

Lemma wedged_for_ever s s' :
  es_wedged s = true -> rtc estep s s' ->
  es_wedged s' = true /\
  (forall j k, es_calls s !! j = Some k -> locks_mutex k = true -> es_calls s' !! j = Some k).
Proof.
  intros Hw Hr. revert Hw. induction Hr as [s|s1 s2 s3 Hs _ IH]; intros Hw; [done|].
  destruct (wedged_step s1 s2 Hw Hs) as [H1 H2]. destruct (IH H1) as [H3 H4]. split; [done|]. eauto.
Qed.


(** ** Recovery *)

Definition locator_parameters (host : string) : ClientParameters C :=
  with_shutdown_listener (Some LocatorShutdown) (with_host host (get_base_client_parameters cfg)).

(** The brokers accept a new locator. *)
Definition brokers_accept : Prop :=
  forall host w, host ∈ ev_hosts cfg ->
    let '(c, w1) := ec_create (locator_parameters host) w in (ec_start c w1).1 = Val tt.

Lemma silent_steps t t' e ks l n :
  rtc (quiet_tstep false) t t' ->
  rtc estep (MkESys (put_reconnect_task t e) ks None l n false) (MkESys (put_reconnect_task t' e) ks None l n false).
Proof.
  induction 1 as [|t t1 t2 Hs _ IH]; [done|]. eapply rtc_l; [|exact IH].
  change (put_reconnect_task t1 e) with (put_reconnect_task t1 (put_reconnect_task t e)).
  inversion Hs; subst; [eapply ETaskStrand | eapply ETaskTimer | eapply ETaskEnd]; eauto.
Qed.

Lemma connect_recovers e ks l n :
  ev_hosts cfg <> [] -> brokers_accept ->
  exists s', rtc estep (MkESys e ks (Some RConnect) l n false) s' /\ e_locator (es_env s') <> None.
Proof.
  intros Hh Ha. destruct (select_randomly_in generator (ev_hosts cfg) e Hh) as (host & m & Es & Hin).
  specialize (Ha host (e_world e) Hin). destruct (ec_create (locator_parameters host) (e_world e)) as [c w1] eqn:Ec.
  destruct (ec_start c w1) as [r w2] eqn:Est. simpl in Ha. subst r.
  eexists. split.
  - eapply rtc_l; [eapply (EReconnectConnected c)|eapply rtc_once, EReconnectInstall].
    + unfold get_locator_client. rewrite (ST_bind_Val _ _ _ _ _ Es). unfold client_create. cbn [e_world put_drawn].
      fold (locator_parameters host). rewrite Ec. reflexivity.
    + unfold connect_locator, ecall. cbn [e_world put_eworld]. rewrite Est. reflexivity.
  - done.
Qed.

Lemma armed_recovers e ks l n :
  einv (MkESys e ks None l n false) -> armed (e_reconnect_task e) -> e_locator e = None ->
  ev_hosts cfg <> [] -> brokers_accept ->
  exists s', rtc estep (MkESys e ks None l n false) s' /\ e_locator (es_env s') <> None.
Proof.
  intros [H1 H2 _ _ _] Ha El Hh Hb. simpl in *. destruct (armed_calls _ H1 H2 Ha) as (t1 & t2 & Hs & Hc).
  destruct (connect_recovers (put_reconnect_task t2 (put_reconnect_task t1 e)) ks l n Hh Hb) as (s' & Hs' & Hl).
  exists s'. split; [|done]. replace e with (put_reconnect_task (e_reconnect_task e) e) by now destruct e.
  etransitivity; [apply silent_steps, Hs|]. eapply rtc_l; [|exact Hs'].
  inversion Hc as [| |m t t' E Es|]; subst.
  pose proof (EReconnectBegin m t2 (put_reconnect_task t1 e) ks l n E Es) as Hstep. simpl in Hstep.
  now rewrite bool_decide_true in Hstep.
Qed.


(** ** A locator that was lost before it was installed *)

(** The locator is lost, and no notification of it is to come. *)
Definition stale (c : nat) (s : esys) : Prop :=
  e_locator (es_env s) = Some c /\ ec_lost c (e_world (es_env s)) /\
  es_live s = ∅ /\ es_notify s = [] /\ es_invocation s = None /\ es_wedged s = false.

(** A call fails, as far as it got. *)
Definition failing (c : nat) k : Prop :=
  match lc_pc k with LWait _ => True | LRun _ d => d = c | LDone r => is_val r = false end.

Lemma call_step_failing expired c k e k' e' :
  e_locator e = Some c -> ec_lost c (e_world e) -> failing c k -> call_step expired k e = Some (k', e') -> failing c k'.
Proof.
  unfold failing, call_step. intros El Hl Hk. destruct (lc_pc k) as [turn|turn d|r]; [| |discriminate].
  - rewrite El. by intros [= <- _].
  - subst d. pose proof (call_fails (lc_call k) c e Hl) as Hf. destruct (run_locator_call (lc_call k) c e) as [[a|ex] e1]; [done|].
    intros [= <- _]. simpl. destruct (is_retried ex); [|done]. unfold next_turn. by destruct (_ <=? _)%nat.
Qed.

Lemma stale_same c e e' ks ks' : same_env e e' -> stale c (MkESys e ks None ∅ [] false) -> stale c (MkESys e' ks' None ∅ [] false).
Proof. intros (_ & El & Hk) (H1 & H2 & _). repeat split; simpl in *; [congruence | auto]. Qed.

Lemma stale_step c s s' :
  stale c s -> Forall (failing c) (es_calls s) -> estep s s' -> stale c s' /\ Forall (failing c) (es_calls s').
Proof.
  intros Hst Hf Hs. pose proof Hst as (El & Hl & Elive & En & Ei & Ew). destruct Hs as
    [call e ks i l n wd|j expired k k' e e' ks i l n wd Ek Hwd E|p e ks i l n|p e ks i l n|q e ks i l n|q e ks i l n
    |left t e ks i l n wd E|t e ks i l n wd E|m t e ks l n wd E Es|m t e ks l n E Es
    |c' e e1 e2 ks l n wd E1 E2|c' e e1 e2 ex ks l n wd E1 E2 _|c' e ks l n|c' e e' ks l n wd E
    |c' reason w e ks i l n wd Hc Hw Hl' Hr|c' reason returns n1 n2 e ks i l _|w e ks i l n wd Hw]; simpl in *; subst; try done.
  - split; [done|]. apply Forall_app. split; [done|]. by apply Forall_singleton.
  - split; [eapply stale_same; [eapply call_step_same, E | exact Hst]|]. apply Forall_insert; [done|].
    eapply call_step_failing; [exact El | exact Hl | | exact E]. eapply Forall_lookup_1; eassumption.
  - split; [|done]. unfold stale. simpl. rewrite bool_decide_false by congruence. done.
  - by destruct n1.
  - split; [|done]. repeat split; simpl; auto.
Qed.

Lemma stale_forever c s s' :
  stale c s -> Forall (failing c) (es_calls s) -> rtc estep s s' -> stale c s' /\ Forall (failing c) (es_calls s').
Proof. intros Hs Hf Hr. revert Hs Hf. induction Hr as [|x y z Hs Hr IH]; [done|]. intros H1 H2. apply IH; eapply stale_step; eassumption. Qed.

End system.

(** ** Clients of a broker that always accepts *)

Record ready_clients := MkReady { ready_next : nat; ready_lost : gset nat }.

Definition ready_request {A} (a : A) (c : nat) : ST ready_clients exn A := fun w =>
  (if bool_decide (c ∈ ready_lost w) then Throw (IOException "Connection reset") else Val a, w).

#[local] Instance ready_EnvironmentClients : EnvironmentClients unit ready_clients := {|
  ec_create _ w := (ready_next w, MkReady (S (ready_next w)) (ready_lost w));
  ec_start _ := mret tt;
  ec_stop _ := mret tt;
  ec_metadata c _ := ready_request [] c;
  ec_create_stream c _ _ := ready_request tt c;
  ec_delete_stream c _ := ready_request tt c
|}.

#[local, refine] Instance ready_LosableClients : LosableClients unit ready_clients := {| ec_lost c w := c ∈ ready_lost w |}.
Proof. all: simpl; intros; unfold ready_request in *; simpl; try done; by rewrite bool_decide_true. Defined.

Definition ready_config : EConfig unit := MkEConfig ["rabbit-0"%string] 5000 (default_ClientParameters tt).

Definition ready_environment : EState ready_clients :=
  (environment_constructor ready_config id (new_environment (MkReady 0 ∅))).2.

Lemma ready_initial : einitial ready_config id (MkReady 0 ∅) (MkESys ready_environment [] None {[0%nat]} [] false).
Proof. exists ready_environment, 0%nat. vm_compute. done. Qed.

(** The first locator has just been lost and its listener called. *)
Definition recovering : EState ready_clients :=
  (handle_locator_shutdown true Unknown (put_eworld (MkReady 1 {[0%nat]}) ready_environment)).2.

Lemma recovering_reachable : ereachable ready_config id (MkESys recovering [] None ({[0%nat]} ∖ {[0%nat]}) [] false).
Proof.
  exists (MkReady 0 ∅), (MkESys ready_environment [] None {[0%nat]} [] false). split; [apply ready_initial|].
  eapply rtc_l; [apply (ELost ready_config id 0 Unknown (MkReady 1 {[0%nat]}))|].
  - set_solver.
  - intros c. simpl. set_solver.
  - simpl. set_solver.
  - done.
  - apply rtc_once. exact (ENotify ready_config id 0 Unknown true [] [] (put_eworld (MkReady 1 {[0%nat]}) ready_environment) [] None _ (or_introl eq_refl)).
Qed.


(** The heartbeat of the first locator timed out, and its listener waits in the
    destructor. *)
Definition wedged_environment : EState ready_clients :=
  (handle_locator_shutdown false HeartbeatTimeout (put_eworld (MkReady 1 {[0%nat]}) ready_environment)).2.

Lemma wedged_reachable : ereachable ready_config id (MkESys wedged_environment [] None ({[0%nat]} ∖ {[0%nat]}) [] true).
Proof.
  exists (MkReady 0 ∅), (MkESys ready_environment [] None {[0%nat]} [] false). split; [apply ready_initial|].
  eapply rtc_l; [apply (ELost ready_config id 0 HeartbeatTimeout (MkReady 1 {[0%nat]}))|].
  - set_solver.
  - intros c. simpl. set_solver.
  - simpl. set_solver.
  - done.
  - apply rtc_once. exact (ENotify ready_config id 0 HeartbeatTimeout false [] [] (put_eworld (MkReady 1 {[0%nat]}) ready_environment) [] None _ (or_intror eq_refl)).
Qed.

