(* ===== verification/ClientStack.v ===== *)
(** * The clients of an environment

    [World] holds the clients that were created, with their parameters.  It
    implements [EnvironmentClients] by the operations of [Client], and
    [LosableClients]: a client whose connection failed and whose frame thread
    has ended stays so, and no request on it succeeds. *)

From S2P Require Import Prelude Words OrdMap Types BinaryBuffer ClientCommands ServerCommands ClientFrames ServerFrames Messages Client ClientSending ClientReceiving ClientLifecycle Fluent ClientParameters Tasks Environment EnvironmentSystem.

(** ** Clients *)

Record World (C : Type) := MkWorld {
  w_clients : gmap nat (ClientParameters C * Client);
  w_next : nat
}.
Arguments MkWorld {C}.
Arguments w_clients {C}.
Arguments w_next {C}.

Section clients.
Context {C : Type}.
(** The parameters of a client that was never created. *)
Context (base : ClientParameters C).
Context (await : Z -> CM ServerFrame) (await_tune : CM unit) (connect : CM unit).

Abbreviation WM A := (ST (World C) exn A).
Implicit Types w : World C.

Definition entry_at (i : nat) w : ClientParameters C * Client :=
  default (base, new_Client (client_config base)) (w_clients w !! i).
Definition client_at (i : nat) w : Client := (entry_at i w).2.
Definition parameters_at (i : nat) w : ClientParameters C := (entry_at i w).1.

Definition put_client_at (i : nat) (c : Client) w : World C :=
  MkWorld (<[i := (parameters_at i w, c)]> (w_clients w)) (w_next w).

(** A call of a member function of the [i]-th client. *)
Definition on_client {A} (i : nat) (m : ClientConfig -> CM A) : WM A := fun w =>
  let '(r, c) := m (client_config (parameters_at i w)) (client_at i w) in
  (r, put_client_at i c w).

(** [ClientImpl::create]. *)
Definition create_client (p : ClientParameters C) w : nat * World C :=
  (w_next w, MkWorld (<[w_next w := (p, new_Client (client_config p))]> (w_clients w)) (S (w_next w))).

#[export] Instance client_EnvironmentClients : EnvironmentClients C (World C) := {|
  ec_create := create_client;
  ec_start i := on_client i (fun cfg => client_start cfg await await_tune connect);
  ec_stop i := on_client i (fun cfg => client_stop cfg await);
  ec_metadata i streams := on_client i (fun _ => metadata await streams);
  ec_create_stream i stream properties := on_client i (fun _ => create_stream await stream properties);
  ec_delete_stream i stream := on_client i (fun _ => delete_stream await stream)
|}.

(** *** Lost clients *)

(** The connection is closed: writes fail, nobody waits for a response. *)
Definition dead (c : Client) : Prop :=
  c_status c = CStopping /\ c_outstanding c = ∅ /\ exists what, c_io c = Throw (IOException what).

Definition lost (i : nat) w : Prop := (i < w_next w)%nat /\ dead (client_at i w).

Lemma singleton_difference (x : Z) : ({[x]} ∪ ∅) ∖ {[x]} = (∅ : gset Z).
Proof. now rewrite union_empty_r_L, difference_diag_L. Qed.

Lemma dead_request {T R} `{ClientRequestOrResponse T} (cast : ServerFrame -> option R) (request : T) c :
  keeps_wf (serialize request) -> dead c ->
  exists e c', send_request_wait_response await cast request c = (Throw e, c') /\ dead c'.
Proof.
  intros Hwf (Hs & Ho & what & Hio). unfold send_request_wait_response.
  cut (exists e c', (send_request request ;; await (req_correlation_id request)) c = (Throw e, c') /\
         is_StreamException e = true /\ c_status c' = CStopping /\ c_io c' = c_io c /\
         c_outstanding c' = {[req_correlation_id request]} ∪ ∅).
  - intros (e & c' & E & He & Hs' & Hio' & Ho'). exists e, (with_outstanding (c_outstanding c' ∖ {[req_correlation_id request]}) c').
    split.
    + apply ST_bind_Throw. unfold client_catch, st_catch. rewrite E, He. reflexivity.
    + split; [done|]. split; [simpl; rewrite Ho'; apply singleton_difference | exists what; simpl; congruence].
  - unfold send_request. set (c1 := with_outstanding ({[req_correlation_id request]} ∪ c_outstanding c) c).
    assert (exists e c2, (r ← send_frame request; match r with Val _ => mret tt | Throw e => st_throw e end) c1 = (Throw e, c2) /\
              is_StreamException e = true /\ c_status c2 = c_status c1 /\ c_io c2 = c_io c1 /\ c_outstanding c2 = c_outstanding c1)
      as (e & c2 & E & He & H1 & H2 & H3).
    { unfold send_frame, mbind, ST_bind. cbn [st_get]. destruct (_ && _); [by eexists _, _|].
      destruct (frame_buffer request empty_buffer) as [[u|e] b] eqn:Eb.
      - exists (IOException what). simpl. rewrite Hio. by eexists.
      - eexists _, _. split; [reflexivity|]. split; [exact (frame_buffer_throws request e b Hwf Eb) | done]. }
    exists e, c2. split; [|rewrite H1, H2, H3; simpl; rewrite Ho; done].
    unfold mbind at 1, ST_bind at 1. unfold mbind at 1, ST_bind at 1. cbn [st_get]. rewrite Ho, bool_decide_false by set_solver.
    unfold mbind at 1, ST_bind at 1. cbn [st_put]. rewrite <- Ho. fold c1. now rewrite E.
Qed.

Lemma dead_next_correlation c : dead c -> exists corr c', next_correlation c = (Val corr, c') /\ dead c'.
Proof.
  intros Hd. set (corr := wrap32 (c_correlation_sequence c + 1)).
  exists corr, (with_correlation_sequence corr c). split; [reflexivity | exact Hd].
Qed.

Lemma dead_metadata streams c : dead c -> exists e c', metadata await streams c = (Throw e, c') /\ dead c'.
Proof.
  intros Hd. destruct (dead_next_correlation c Hd) as (corr & c1 & E1 & Hd1). unfold metadata.
  rewrite (ST_bind_Val _ _ _ _ _ E1).
  destruct (dead_request cast_metadata (MkMetadataRequest corr streams) c1
              (keeps_wf_serialize (FMetadata (MkMetadataRequest corr streams))) Hd1) as (e & c2 & E2 & Hd2).
  exists e, c2. split; [now apply ST_bind_Throw | done].
Qed.

Lemma dead_simple {T} `{ClientRequestOrResponse T} (mk : Z -> T) c :
  (forall corr, keeps_wf (serialize (mk corr))) -> dead c ->
  exists e c', simple_request await mk c = (Throw e, c') /\ dead c'.
Proof.
  intros Hwf Hd. destruct (dead_next_correlation c Hd) as (corr & c1 & E1 & Hd1). unfold simple_request.
  rewrite (ST_bind_Val _ _ _ _ _ E1).
  destruct (dead_request cast_generic (mk corr) c1 (Hwf corr) Hd1) as (e & c2 & E2 & Hd2).
  exists e, c2. split; [|done]. apply ST_bind_Throw. unfold send_request_check_response_code. now apply ST_bind_Throw.
Qed.

Lemma dead_start cfg c : dead c -> dead (client_start cfg await await_tune connect c).2.
Proof.
  intros (Hs & Hd). unfold client_start, client_compare_exchange, mbind, ST_bind. cbn [st_get].
  rewrite decide_False by congruence. done.
Qed.

Lemma dead_stop cfg c : dead c -> dead (client_stop cfg await c).2.
Proof.
  intros (Hs & Hd). unfold client_stop.
  rewrite (ST_bind_Val (client_exchange CStopping) _ c (c_status c) (with_status CStopping c) eq_refl).
  rewrite bool_decide_true by done. done.
Qed.

(** What is sent without waiting for an answer leaves a dead client dead. *)
Definition stays_dead (c c' : Client) : Prop := dead c -> dead c'.

#[export] Instance stays_dead_preorder : PreOrder stays_dead.
Proof. split; [by intros c Hd | intros c1 c2 c3 H1 H2 Hd; auto]. Qed.

Lemma dead_send {T} `{Serializable T} (frame : T) : preserves stays_dead (send_frame frame).
Proof.
  intros c. unfold send_frame, mbind, ST_bind. cbn [st_get]. destruct (_ && _); [done|].
  destruct (frame_buffer _ empty_buffer) as [[u|e] b]; intros Hd; exact Hd.
Qed.

(** Whatever is done to a client, a lost one stays lost. *)
Lemma lost_on_client {A} i j (m : ClientConfig -> CM A) w :
  (forall cfg c, dead c -> dead (m cfg c).2) -> lost i w -> lost i (on_client j m w).2.
Proof.
  intros Hm [Hi Hd]. unfold on_client. destruct (m _ (client_at j w)) as [r c] eqn:E. split; [exact Hi|].
  unfold client_at, entry_at, put_client_at. simpl. destruct (decide (i = j)) as [->|Hne].
  - rewrite lookup_insert_eq. simpl. specialize (Hm (client_config (parameters_at j w)) (client_at j w) Hd). now rewrite E in Hm.
  - now rewrite lookup_insert_ne by done.
Qed.

Lemma fails_on_client {A} i (m : ClientConfig -> CM A) w :
  (forall cfg c, dead c -> exists e c', m cfg c = (Throw e, c') /\ dead c') -> lost i w ->
  is_val (on_client i m w).1 = false.
Proof.
  intros Hm [_ Hd]. unfold on_client. destruct (Hm (client_config (parameters_at i w)) (client_at i w) Hd) as (e & c & E & _).
  now rewrite E.
Qed.

#[export, refine] Instance client_LosableClients : LosableClients C (World C) := {| ec_lost := lost |}.
Proof.
  all: cbn [ec_create ec_start ec_stop ec_metadata ec_create_stream ec_delete_stream client_EnvironmentClients].
  - intros i p w [Hi Hd]. unfold create_client, lost, client_at, entry_at in *. simpl. split; [lia|].
    now rewrite lookup_insert_ne by lia.
  - intros i j w. apply lost_on_client. intros cfg c. apply dead_start.
  - intros i j w. apply lost_on_client. intros cfg c. apply dead_stop.
  - intros i j streams w. apply lost_on_client. intros cfg c Hd. destruct (dead_metadata streams c Hd) as (e & c' & -> & Hd'). done.
  - intros i j stream properties w. apply lost_on_client. intros cfg c Hd.
    destruct (dead_simple (fun corr => MkCreateRequest corr stream properties) c
                (fun corr => keeps_wf_serialize (FCreate (MkCreateRequest corr stream properties))) Hd) as (e & c' & E & Hd').
    unfold create_stream. now rewrite E.
  - intros i j stream w. apply lost_on_client. intros cfg c Hd.
    destruct (dead_simple (fun corr => MkDeleteRequest corr stream) c
                (fun corr => keeps_wf_serialize (FDelete (MkDeleteRequest corr stream))) Hd) as (e & c' & E & Hd').
    unfold delete_stream. now rewrite E.
  - intros i streams w. apply fails_on_client. intros cfg c. apply dead_metadata.
  - intros i stream properties w. apply fails_on_client. intros cfg c.
    apply (dead_simple (fun corr => MkCreateRequest corr stream properties)).
    intros corr. exact (keeps_wf_serialize (FCreate (MkCreateRequest corr stream properties))).
  - intros i stream w. apply fails_on_client. intros cfg c.
    apply (dead_simple (fun corr => MkDeleteRequest corr stream)).
    intros corr. exact (keeps_wf_serialize (FDelete (MkDeleteRequest corr stream))).
Defined.

End clients.
