(* ===== verification/Semaphore.v ===== *)
(** * The counting semaphore and its permits

    Models [include/hareflow/detail/semaphore.h].  Every member function runs
    under the semaphore's mutex, so it is one atomic step; a wait on the
    condition variable is a step that is not enabled ([None]) until its
    predicate holds.  [Permit] is a move-only handle: its objects live in a
    store of slots, each holding whether [m_semaphore] is set. *)

From S2P Require Import Prelude Words Types.

Record Semaphore := MkSemaphore {
  m_available : Z;
  sem_destroyed : bool
}.

Definition new_Semaphore (desired : Z) : Semaphore := MkSemaphore desired false.

(** ** The semaphore *)

Definition SEMAPHORE_DESTROYED : exn := SemaphoreDestroyedException "Semaphore was destroyed".

(** The predicate of the waits. *)
Definition acquire_ready (s : Semaphore) : bool := (0 <? m_available s) || sem_destroyed s.

Definition take_permit (s : Semaphore) : Semaphore :=
  MkSemaphore (wrap32 (m_available s - 1)) (sem_destroyed s).

Definition acquire (s : Semaphore) : option (outcome exn unit * Semaphore) :=
  if acquire_ready s then
    Some (if sem_destroyed s then (Throw SEMAPHORE_DESTROYED, s) else (Val tt, take_permit s))
  else None.

(** [expired]: whether the duration has elapsed.  [wait_for] returns the value
    of its predicate. *)
Definition try_acquire_for (expired : bool) (s : Semaphore) :
  option (outcome exn (option unit) * Semaphore) :=
  let acquired := acquire_ready s in
  if acquired || expired then
    Some (if sem_destroyed s then (Throw SEMAPHORE_DESTROYED, s)
          else if negb acquired then (Val None, s)
          else (Val (Some tt), take_permit s))
  else None.

Definition sem_destroy (s : Semaphore) : Semaphore := MkSemaphore (m_available s) true.

Definition release (s : Semaphore) : Semaphore :=
  MkSemaphore (wrap32 (m_available s + 1)) (sem_destroyed s).

(** ** Permits *)

Record PermitStore := MkPermitStore {
  ps_semaphore : Semaphore;
  ps_permits : gmap nat bool
}.

Definition permit_release (held : bool) (s : Semaphore) : Semaphore := if held then release s else s.

Inductive permit_op :=
| PermitDefault (p : nat)
| PermitAcquire (p : nat)
| PermitTryAcquire (expired : bool) (p : nat)
| PermitMove (p q : nat)
| PermitMoveAssign (p q : nat)
| PermitDestroy (p : nat)
| SemaphoreDestroy.

(** One operation of some thread.  [None]: it waits, or the program that would
    call it is not legal C++ (it constructs an object twice, or uses one that
    does not exist). *)
Definition permit_step (op : permit_op) (st : PermitStore) : option PermitStore :=
  let s := ps_semaphore st in
  let ps := ps_permits st in
  match op with
  | PermitDefault p =>
      if ps !! p is Some _ then None else Some (MkPermitStore s (<[p := false]> ps))
  | PermitAcquire p =>
      if ps !! p is Some _ then None else
      '(r, s') ← acquire s;
      Some (MkPermitStore s' match r with Val tt => <[p := true]> ps | Throw _ => ps end)
  | PermitTryAcquire expired p =>
      if ps !! p is Some _ then None else
      '(r, s') ← try_acquire_for expired s;
      Some (MkPermitStore s' match r with Val (Some tt) => <[p := true]> ps | _ => ps end)
  | PermitMove p q =>
      if ps !! p is Some _ then None else
      held ← ps !! q;
      Some (MkPermitStore s (<[p := held]> (<[q := false]> ps)))
  | PermitMoveAssign p q =>
      held_p ← ps !! p;
      held_q ← ps !! q;
      if decide (p = q) then Some st
      else Some (MkPermitStore (permit_release held_p s) (<[q := false]> (<[p := held_q]> ps)))
  | PermitDestroy p =>
      held ← ps !! p;
      Some (MkPermitStore (permit_release held s) (delete p ps))
  | SemaphoreDestroy => Some (MkPermitStore (sem_destroy s) ps)
  end.

Fixpoint permit_steps (ops : list permit_op) (st : PermitStore) : option PermitStore :=
  match ops with
  | [] => Some st
  | op :: ops => st' ← permit_step op st; permit_steps ops st'
  end.

(** ** Conservation of permits *)

Definition permit_value (held : bool) : Z := if held then 1 else 0.
Definition held_permits (ps : gmap nat bool) : Z := map_fold (fun _ b n => permit_value b + n) 0 ps.

Lemma held_insert_fresh p b ps :
  ps !! p = None -> held_permits (<[p := b]> ps) = permit_value b + held_permits ps.
Proof.
  intros Hp. unfold held_permits. rewrite map_fold_insert_L; [done| |done].
  intros. lia.
Qed.

Lemma held_delete p b ps :
  ps !! p = Some b -> held_permits ps = permit_value b + held_permits (delete p ps).
Proof.
  intros Hp. rewrite <- (insert_delete_id ps p b Hp) at 1.
  apply held_insert_fresh, lookup_delete_eq.
Qed.

Lemma held_insert p b old ps :
  ps !! p = Some old ->
  held_permits (<[p := b]> ps) = permit_value b - permit_value old + held_permits ps.
Proof.
  intros Hp. rewrite (held_delete p old ps Hp), <- insert_delete_eq.
  rewrite held_insert_fresh by apply lookup_delete_eq. lia.
Qed.

Lemma held_nonneg ps : 0 <= held_permits ps.
Proof.
  unfold held_permits. apply (map_fold_weak_ind (fun n _ => 0 <= n)); [lia|].
  intros ? [] ? ? ? ?; simpl; lia.
Qed.

Definition conserved (desired : Z) (st : PermitStore) : Prop :=
  0 <= m_available (ps_semaphore st) /\
  m_available (ps_semaphore st) + held_permits (ps_permits st) = desired.

Lemma release_available s :
  0 <= m_available s < UINT32_MAX -> m_available (release s) = m_available s + 1.
Proof. intros. apply wrap_small. unfold UINT32_MAX, is_uint in *. lia. Qed.

Lemma permit_release_available held s :
  0 <= m_available s -> m_available s + permit_value held <= UINT32_MAX ->
  m_available (permit_release held s) = m_available s + permit_value held.
Proof. destruct held; simpl; intros; [apply release_available | ]; lia. Qed.

Lemma acquire_inv s r s' :
  acquire s = Some (r, s') ->
  (r = Throw SEMAPHORE_DESTROYED /\ s' = s) \/ (r = Val tt /\ 0 < m_available s /\ s' = take_permit s).
Proof.
  unfold acquire, acquire_ready. destruct (Z.ltb_spec 0 (m_available s)), (sem_destroyed s); simpl;
    intros [= <- <-]; auto.
Qed.

Lemma try_acquire_for_inv expired s r s' :
  try_acquire_for expired s = Some (r, s') ->
  (r <> Val (Some tt) /\ s' = s) \/ (r = Val (Some tt) /\ 0 < m_available s /\ s' = take_permit s).
Proof.
  unfold try_acquire_for, acquire_ready.
  destruct (Z.ltb_spec 0 (m_available s)), (sem_destroyed s), expired; simpl;
    intros [= <- <-]; auto; left; done.
Qed.

Lemma permit_step_conserved desired op st st' :
  desired <= UINT32_MAX -> conserved desired st -> permit_step op st = Some st' -> conserved desired st'.
Proof.
  intros Hd [H0 Hc] E. destruct st as [s ps]. unfold conserved in *. simpl in *.
  pose proof (held_nonneg ps). destruct op as [p|p|ex p|p q|p q|p|]; simpl in E.
  - destruct (ps !! p) eqn:Ep; [done|]. injection E as <-. simpl. rewrite held_insert_fresh; simpl; auto with lia.
  - destruct (ps !! p) eqn:Ep; [done|]. destruct (acquire s) as [[r s']|] eqn:Ea; [|done].
    injection E as <-. apply acquire_inv in Ea as [[-> ->]|(-> & Hpos & ->)]; simpl; [lia|].
    rewrite held_insert_fresh by done. rewrite wrap_small by (unfold UINT32_MAX, is_uint in *; lia). simpl. lia.
  - destruct (ps !! p) eqn:Ep; [done|]. destruct (try_acquire_for ex s) as [[r s']|] eqn:Ea; [|done].
    injection E as <-. apply try_acquire_for_inv in Ea as [[Hr ->]|(-> & Hpos & ->)]; simpl.
    + destruct r as [[[]|]|]; simpl; [done|lia|lia].
    + rewrite held_insert_fresh by done. rewrite wrap_small by (unfold UINT32_MAX, is_uint in *; lia). simpl. lia.
  - destruct (ps !! p) eqn:Ep; [done|]. destruct (ps !! q) as [b|] eqn:Eq; [|done]. injection E as <-. simpl.
    assert (p <> q) by congruence. rewrite held_insert_fresh by now rewrite lookup_insert_ne.
    rewrite (held_insert _ _ _ _ Eq). simpl. lia.
  - destruct (ps !! p) as [bp|] eqn:Ep; [|done]. destruct (ps !! q) as [bq|] eqn:Eq; [|done].
    destruct (decide (p = q)); injection E as <-; simpl; [done|].
    rewrite (held_insert q false bq) by now rewrite lookup_insert_ne.
    rewrite (held_insert _ _ _ _ Ep). pose proof (held_delete _ _ _ Ep).
    pose proof (held_nonneg (delete p ps)). rewrite permit_release_available by lia.
    destruct bp; simpl in *; lia.
  - destruct (ps !! p) as [b|] eqn:Ep; [|done]. injection E as <-. simpl.
    pose proof (held_delete _ _ _ Ep). pose proof (held_nonneg (delete p ps)).
    rewrite permit_release_available by lia. destruct b; simpl in *; lia.
  - injection E as <-. simpl. lia.
Qed.

(** Permits are conserved: whatever legal sequence of acquisitions, moves,
    destructions and shutdowns threads perform, the permits available and the
    permits held by live [Permit] objects add up to the initial count, so the
    counter neither wraps nor exceeds that count. *)
Theorem permits_conserved desired ops st :
  is_u32 desired ->
  permit_steps ops (MkPermitStore (new_Semaphore desired) ∅) = Some st ->
  0 <= m_available (ps_semaphore st) <= desired /\
  m_available (ps_semaphore st) + held_permits (ps_permits st) = desired.
Proof.
  intros Hd. assert (conserved desired (MkPermitStore (new_Semaphore desired) ∅)) as Hinit.
  { unfold conserved. simpl. unfold held_permits. rewrite map_fold_empty. unfold is_uint in Hd. lia. }
  revert Hinit. generalize (MkPermitStore (new_Semaphore desired) ∅).
  induction ops as [|op ops IH]; intros st0 Hc E; simpl in E.
  - injection E as ->. destruct Hc. pose proof (held_nonneg (ps_permits st)). lia.
  - destruct (permit_step op st0) as [st1|] eqn:E1; [|done]. simpl in E.
    apply (IH st1); [|done]. apply (permit_step_conserved desired op st0); [|done|done].
    unfold UINT32_MAX, is_uint in *. lia.
Qed.

Definition permits_example : list permit_op :=
  [PermitAcquire 0; PermitDefault 1; PermitMoveAssign 1 0; PermitMoveAssign 1 1; PermitAcquire 2;
   PermitTryAcquire true 3; PermitDestroy 0; PermitMove 4 1; PermitDestroy 4; PermitDestroy 1].

Lemma permits_conserved_witness :
  exists st, permit_steps permits_example (MkPermitStore (new_Semaphore 2) ∅) = Some st /\
  0 <= m_available (ps_semaphore st) <= 2 /\
  m_available (ps_semaphore st) + held_permits (ps_permits st) = 2.
Proof.
  eexists. split; [vm_compute; reflexivity|].
  apply (permits_conserved 2 permits_example); vm_compute; [split; congruence | reflexivity].
Defined.

(** A waiting acquisition is woken by a release and by a shutdown, and
    after a shutdown every acquisition ends with the destroyed exception
    without taking a permit. *)
Theorem acquire_progress s :
  0 <= m_available s < UINT32_MAX ->
  (exists r, acquire (release s) = Some r) /\
  acquire (sem_destroy s) = Some (Throw SEMAPHORE_DESTROYED, sem_destroy s) /\
  (forall expired,
    try_acquire_for expired (sem_destroy s) = Some (Throw SEMAPHORE_DESTROYED, sem_destroy s)) /\
  (exists r, try_acquire_for true s = Some r).
Proof.
  intros Hs. unfold acquire, try_acquire_for, acquire_ready. rewrite release_available by done. simpl.
  rewrite !orb_true_r. simpl. rewrite (proj2 (Z.ltb_lt _ _)) by lia. simpl.
  repeat split; eauto.
Qed.

Lemma acquire_progress_witness :
  (exists r, acquire (release (new_Semaphore 0)) = Some r) /\
  acquire (sem_destroy (new_Semaphore 0)) = Some (Throw SEMAPHORE_DESTROYED, sem_destroy (new_Semaphore 0)) /\
  (forall expired, try_acquire_for expired (sem_destroy (new_Semaphore 0)) =
    Some (Throw SEMAPHORE_DESTROYED, sem_destroy (new_Semaphore 0))) /\
  (exists r, try_acquire_for true (new_Semaphore 0) = Some r).
Proof. apply acquire_progress. vm_compute. split; congruence. Defined.
