(* ===== verification/Accumulator.v ===== *)
(** * The accumulator of outgoing messages

    Models [include/hareflow/detail/accumulator.h] and [src/accumulator.cpp]: a
    bounded queue in which [send] leaves messages and from which a batch takes
    all of them.  [add] gives the mutex up while it waits for space, so it is
    two atomic steps: [add_prepare], up to the wait, and [add_commit], which is
    enabled when the predicate of the wait holds. *)

From stdpp Require Import pretty.
From S2P Require Import Prelude Words OrdMap Types BinaryBuffer ClientCommands Messages.

(** [am_confirmation_handler] names the handler, [None] for an empty
    [std::function]; the message owns one enqueue permit. *)
Record AccumulatedMessage := MkAccumulatedMessage {
  am_publishing_id : Z;
  am_publish_time : Z;
  am_message : Message;
  am_encoded_message : list byte;
  am_confirmation_handler : option nat
}.

#[export] Instance AccumulatedMessage_eq_dec : EqDecision AccumulatedMessage.
Proof. solve_decision. Defined.

Record Accumulator := MkAccumulator {
  m_capacity : Z;
  m_max_frame_size : Z;
  m_pending : list AccumulatedMessage;
  acc_destroyed : bool
}.

Definition new_Accumulator (capacity : Z) : Accumulator := MkAccumulator capacity 0 [] false.

Definition with_pending (p : list AccumulatedMessage) (a : Accumulator) : Accumulator :=
  MkAccumulator (m_capacity a) (m_max_frame_size a) p (acc_destroyed a).

Definition frame_size_message (max_frame_size : Z) : string :=
  String.append "Maximum frame size exceeded (" (String.append (pretty max_frame_size) ")").

Definition ACCUMULATOR_DESTROYED : exn := AccumulatorDestroyedException "Accumulator was destroyed".

Section accumulator.
Context {C : Type} `{Codec C}.

Definition add_prepare (codec : C) (now publishing_id : Z) (message : Message)
    (confirmation_handler : option nat) (a : Accumulator) : outcome exn AccumulatedMessage :=
  encoded ← codec_encode codec message;
  if (0 <? m_max_frame_size a) &&
     (m_max_frame_size a <?
        BASE_SERIALIZED_SIZE + PublishMessage_serialized_size (MkPublishMessage publishing_id encoded))
  then Throw (InvalidInputException (frame_size_message (m_max_frame_size a)))
  else Val (MkAccumulatedMessage publishing_id now message encoded confirmation_handler).

Definition add_commit (accumulated : AccumulatedMessage) (a : Accumulator) :
  option (outcome exn bool * Accumulator) :=
  if (lenZ (m_pending a) <? m_capacity a) || acc_destroyed a then
    Some (if acc_destroyed a then (Throw ACCUMULATOR_DESTROYED, a)
          else let a' := with_pending (m_pending a ++ [accumulated]) a in
               (Val (lenZ (m_pending a') =? m_capacity a'), a'))
  else None.

(** A call that no other thread interrupts. *)
Definition add (codec : C) (now publishing_id : Z) (message : Message)
    (confirmation_handler : option nat) (a : Accumulator) : option (outcome exn bool * Accumulator) :=
  match add_prepare codec now publishing_id message confirmation_handler a with
  | Throw e => Some (Throw e, a)
  | Val accumulated => add_commit accumulated a
  end.

End accumulator.

Definition extract_all (a : Accumulator) : list AccumulatedMessage * Accumulator :=
  (m_pending a, with_pending [] a).

Definition set_max_frame_size (max_frame_size : Z) (a : Accumulator) : Accumulator :=
  MkAccumulator (m_capacity a) max_frame_size (m_pending a) (acc_destroyed a).

Definition acc_destroy (a : Accumulator) : Accumulator :=
  MkAccumulator (m_capacity a) (m_max_frame_size a) (m_pending a) true.

(** ** Sequences of atomic steps *)

Inductive acc_op :=
| AccCommit (m : AccumulatedMessage)
| AccExtract
| AccSetMax (n : Z)
| AccDestroy.

(** The state, the messages whose [add] returned, and the batches taken, both in
    order. *)
Record acc_run := MkAccRun {
  ar_acc : Accumulator;
  ar_added : list AccumulatedMessage;
  ar_batches : list (list AccumulatedMessage)
}.

Definition acc_step (op : acc_op) (r : acc_run) : option acc_run :=
  match op with
  | AccCommit m =>
      '(res, a) ← add_commit m (ar_acc r);
      Some (MkAccRun a (ar_added r ++ if is_val res then [m] else []) (ar_batches r))
  | AccExtract =>
      let '(batch, a) := extract_all (ar_acc r) in
      Some (MkAccRun a (ar_added r) (ar_batches r ++ [batch]))
  | AccSetMax n => Some (MkAccRun (set_max_frame_size n (ar_acc r)) (ar_added r) (ar_batches r))
  | AccDestroy => Some (MkAccRun (acc_destroy (ar_acc r)) (ar_added r) (ar_batches r))
  end.

Fixpoint acc_steps (ops : list acc_op) (r : acc_run) : option acc_run :=
  match ops with
  | [] => Some r
  | op :: ops => r' ← acc_step op r; acc_steps ops r'
  end.

(** ** A bounded queue that loses nothing *)

Lemma add_commit_inv m a r a' :
  add_commit m a = Some (r, a') ->
  (r = Throw ACCUMULATOR_DESTROYED /\ a' = a /\ acc_destroyed a = true) \/
  (r = Val (lenZ (m_pending a ++ [m]) =? m_capacity a) /\ a' = with_pending (m_pending a ++ [m]) a /\
   lenZ (m_pending a) < m_capacity a /\ acc_destroyed a = false).
Proof.
  unfold add_commit. destruct (Z.ltb_spec (lenZ (m_pending a)) (m_capacity a)), (acc_destroyed a) eqn:Ed; simpl;
    intros [= <- <-]; auto.
Qed.

Definition acc_inv (capacity : Z) (r : acc_run) : Prop :=
  m_capacity (ar_acc r) = capacity /\
  lenZ (m_pending (ar_acc r)) <= capacity /\
  Forall (fun b => lenZ b <= capacity) (ar_batches r) /\
  concat (ar_batches r) ++ m_pending (ar_acc r) = ar_added r.

Lemma acc_step_inv capacity op r r' :
  0 <= capacity -> acc_inv capacity r -> acc_step op r = Some r' -> acc_inv capacity r'.
Proof.
  intros H0 (Hc & Hp & Hb & Hall) E. destruct r as [a added batches]. unfold acc_inv in *. simpl in *.
  destruct op as [m| |n|]; simpl in E.
  - destruct (add_commit m a) as [[res a']|] eqn:Ea; [|done]. injection E as <-. simpl.
    apply add_commit_inv in Ea as [(-> & -> & _)|(-> & -> & Hlt & _)]; simpl.
    + rewrite app_nil_r. auto.
    + rewrite lenZ_app, lenZ_cons, lenZ_nil, app_assoc, Hall. repeat split; auto; lia.
  - injection E as <-. simpl. rewrite lenZ_nil, app_nil_r. repeat split; auto.
    + apply Forall_app. auto.
    + rewrite concat_app. simpl. now rewrite app_nil_r.
  - injection E as <-. auto.
  - injection E as <-. auto.
Qed.

(** The accumulator is a bounded queue that loses, duplicates and reorders
    nothing: after any sequence of atomic steps of its users, at most
    [capacity] messages wait, no batch is larger than that, and the batches
    taken so far followed by the waiting messages are exactly the messages
    whose [add] succeeded, in the order of their insertion. *)
Theorem accumulator_fifo capacity ops r :
  0 <= capacity ->
  acc_steps ops (MkAccRun (new_Accumulator capacity) [] []) = Some r ->
  lenZ (m_pending (ar_acc r)) <= capacity /\
  Forall (fun b => lenZ b <= capacity) (ar_batches r) /\
  concat (ar_batches r) ++ m_pending (ar_acc r) = ar_added r.
Proof.
  intros H0. assert (acc_inv capacity (MkAccRun (new_Accumulator capacity) [] [])) as Hinit.
  { unfold acc_inv. simpl. rewrite lenZ_nil. auto. }
  revert Hinit. generalize (MkAccRun (new_Accumulator capacity) [] []).
  induction ops as [|op ops IH]; intros r0 Hi E; simpl in E.
  - injection E as ->. apply Hi.
  - destruct (acc_step op r0) as [r1|] eqn:E1; [|done]. apply (IH r1); [|done].
    now apply (acc_step_inv capacity op r0).
Qed.

Definition example_message (id : Z) : AccumulatedMessage :=
  MkAccumulatedMessage id 0 (MkMessage [x61] []) [x61] None.

Lemma accumulator_fifo_witness :
  exists r,
    acc_steps [AccCommit (example_message 0); AccCommit (example_message 1); AccExtract;
               AccCommit (example_message 2)] (MkAccRun (new_Accumulator 2) [] []) = Some r /\
    lenZ (m_pending (ar_acc r)) <= 2 /\ Forall (fun b => lenZ b <= 2) (ar_batches r) /\
    concat (ar_batches r) ++ m_pending (ar_acc r) = ar_added r.
Proof.
  eexists. split; [vm_compute; reflexivity|].
  eapply (accumulator_fifo 2 [AccCommit (example_message 0); AccCommit (example_message 1); AccExtract;
                              AccCommit (example_message 2)]); [lia | vm_compute; reflexivity].
Defined.

(** an uninterrupted [add] behaves as documented on every branch: it
    rejects a message whose codec fails or whose [Publish] frame would exceed
    the maximum without touching the queue, waits when the queue is full, fails
    when the accumulator was destroyed, and otherwise appends the message and
    returns whether the queue became full. *)
Lemma add_spec {C} `{Codec C} (codec : C) now id msg handler a :
  add codec now id msg handler a =
    match codec_encode codec msg with
    | Throw e => Some (Throw e, a)
    | Val encoded =>
        let m := MkAccumulatedMessage id now msg encoded handler in
        if (0 <? m_max_frame_size a) &&
           (m_max_frame_size a <? serialized_size (MkPublishCommand 0 [MkPublishMessage id encoded]))
        then Some (Throw (InvalidInputException (frame_size_message (m_max_frame_size a))), a)
        else if acc_destroyed a then Some (Throw ACCUMULATOR_DESTROYED, a)
        else if lenZ (m_pending a) <? m_capacity a
        then Some (Val (lenZ (m_pending a) + 1 =? m_capacity a), with_pending (m_pending a ++ [m]) a)
        else None
    end.
Proof.
  unfold add, add_prepare, mbind, outcome_bind. destruct (codec_encode codec msg) as [encoded|e]; [|done].
  replace (serialized_size (MkPublishCommand 0 [MkPublishMessage id encoded]))
    with (BASE_SERIALIZED_SIZE + PublishMessage_serialized_size (MkPublishMessage id encoded)).
  - destruct (_ && _); [done|]. unfold add_commit. destruct (acc_destroyed a) eqn:Ed; simpl.
    + now rewrite orb_true_r.
    + rewrite orb_false_r. destruct (_ <? _); [|done]. now rewrite lenZ_app.
  - unfold BASE_SERIALIZED_SIZE. simpl. unfold PublishCommand_body_size. simpl.
    rewrite serialized_size_array_cons, serialized_size_array_nil. lia.
Qed.
