(* ===== verification/Producer.v ===== *)
(** * The producer

    Models [include/hareflow/detail/producer_impl.h] and [src/producer_impl.cpp].
    The producer's public calls, the listeners its client invokes and its
    background tasks run on different threads and share its state under
    [m_mutex], the accumulator's mutex and the semaphore's mutex.  Every
    critical section is one definition here; [ProducerSystem] interleaves them.

    Calls of the client and of the environment go through the interface
    [ClientWorld].  The state also records what the outside can observe: the
    calls made on the background tasks, the messages accepted by [send], and
    what became of each.  [p_delivering] and [p_retired] are the messages held
    by local variables of running functions: taken out of [m_unconfirmed] with
    the handler still to be called, and done with but not yet destroyed (the
    destruction of a message releases its enqueue permit). *)

From S2P Require Import Prelude Words OrdMap Types BinaryBuffer ClientCommands Messages Semaphore Accumulator.

Inductive Status := Initialized | Starting | Started | Stopped.

#[export] Instance Status_eq_dec : EqDecision Status.
Proof. solve_decision. Defined.

Record ProducerConfig := MkProducerConfig {
  pc_name : string;
  pc_stream : string;
  pc_batch_size : Z;
  pc_batch_publishing_delay : Z;
  pc_max_unconfirmed : Z;
  pc_confirm_timeout : Z;
  pc_enqueue_timeout : Z;
  pc_recovery_retry_delay : Z
}.

Inductive ProducerTask :=
| BatchPublishTask | ConfirmTimeoutTask | ReconnectTask | DelayedReconnectTask | StreamDeletedTask.

#[export] Instance ProducerTask_eq_dec : EqDecision ProducerTask.
Proof. solve_decision. Defined.

Inductive TaskCall := ScheduleNow | ScheduleAfter (delay : Z) | TaskDestroy.

(** Durations in milliseconds; [timeout / 2] truncates towards zero. *)
Definition get_confirm_check_delay (timeout : Z) : Z := Z.min 1000 (Z.max 1 (timeout ÷ 2)).

(** ** What the producer needs from the environment and from a client

    A client is named by a number; [W] is the state of everything behind the
    interface, and [cw_changes] what other threads may do to it meanwhile.  The
    law says that publishing reports failure only as a [StreamException], which
    [publish_batch] relies on to keep its messages. *)
Class ClientWorld (W : Type) := {
  cw_register_producer : ST W exn unit;
  cw_unregister_producer : ST W exn unit;
  cw_get_producer_client : string -> ST W exn nat;
  cw_start : nat -> ST W exn unit;
  cw_stop : nat -> ST W exn unit;
  cw_max_frame_size : nat -> W -> Z;
  cw_query_publisher_sequence : nat -> string -> string -> ST W exn (option Z);
  cw_declare_publisher : nat -> Z -> string -> string -> ST W exn unit;
  cw_delete_publisher : nat -> Z -> ST W exn unit;
  cw_publish_encoded : nat -> Z -> list PublishMessage -> ST W exn unit;
  cw_changes : W -> W -> Prop;
  cw_publish_throws c id ms w e w' :
    cw_publish_encoded c id ms w = (Throw e, w') -> is_StreamException e = true
}.

Section producer.
Context {W : Type} `{ClientWorld W} {C : Type} `{Codec C}.
Context (cfg : ProducerConfig) (codec : C).

Record PState := MkPState {
  p_status : Status;
  p_next_publishing_id : Z;
  p_accumulator : Accumulator;
  p_semaphore : Semaphore;
  p_unconfirmed : gmap Z AccumulatedMessage;
  p_client : option nat;
  p_world : W;
  p_task_calls : list (ProducerTask * TaskCall);
  p_accepted : list AccumulatedMessage;
  p_delivering : list (AccumulatedMessage * ConfirmationStatus);
  p_settled : list (AccumulatedMessage * ConfirmationStatus);
  p_retired : list AccumulatedMessage;
  p_dropped : list AccumulatedMessage;
  p_confirms : list Z
}.

Definition set_status (x : Status) (p : PState) : PState :=
  MkPState x (p_next_publishing_id p) (p_accumulator p) (p_semaphore p) (p_unconfirmed p)
           (p_client p) (p_world p) (p_task_calls p) (p_accepted p) (p_delivering p)
           (p_settled p) (p_retired p) (p_dropped p) (p_confirms p).
Definition set_next_publishing_id (x : Z) (p : PState) : PState :=
  MkPState (p_status p) x (p_accumulator p) (p_semaphore p) (p_unconfirmed p) (p_client p)
           (p_world p) (p_task_calls p) (p_accepted p) (p_delivering p) (p_settled p)
           (p_retired p) (p_dropped p) (p_confirms p).
Definition set_accumulator (x : Accumulator) (p : PState) : PState :=
  MkPState (p_status p) (p_next_publishing_id p) x (p_semaphore p) (p_unconfirmed p)
           (p_client p) (p_world p) (p_task_calls p) (p_accepted p) (p_delivering p)
           (p_settled p) (p_retired p) (p_dropped p) (p_confirms p).
Definition set_semaphore (x : Semaphore) (p : PState) : PState :=
  MkPState (p_status p) (p_next_publishing_id p) (p_accumulator p) x (p_unconfirmed p)
           (p_client p) (p_world p) (p_task_calls p) (p_accepted p) (p_delivering p)
           (p_settled p) (p_retired p) (p_dropped p) (p_confirms p).
Definition set_unconfirmed (x : gmap Z AccumulatedMessage) (p : PState) : PState :=
  MkPState (p_status p) (p_next_publishing_id p) (p_accumulator p) (p_semaphore p) x
           (p_client p) (p_world p) (p_task_calls p) (p_accepted p) (p_delivering p)
           (p_settled p) (p_retired p) (p_dropped p) (p_confirms p).
Definition set_client (x : option nat) (p : PState) : PState :=
  MkPState (p_status p) (p_next_publishing_id p) (p_accumulator p) (p_semaphore p)
           (p_unconfirmed p) x (p_world p) (p_task_calls p) (p_accepted p) (p_delivering p)
           (p_settled p) (p_retired p) (p_dropped p) (p_confirms p).
Definition set_world (x : W) (p : PState) : PState :=
  MkPState (p_status p) (p_next_publishing_id p) (p_accumulator p) (p_semaphore p)
           (p_unconfirmed p) (p_client p) x (p_task_calls p) (p_accepted p) (p_delivering p)
           (p_settled p) (p_retired p) (p_dropped p) (p_confirms p).
Definition set_task_calls (x : list (ProducerTask * TaskCall)) (p : PState) : PState :=
  MkPState (p_status p) (p_next_publishing_id p) (p_accumulator p) (p_semaphore p)
           (p_unconfirmed p) (p_client p) (p_world p) x (p_accepted p) (p_delivering p)
           (p_settled p) (p_retired p) (p_dropped p) (p_confirms p).
Definition set_accepted (x : list AccumulatedMessage) (p : PState) : PState :=
  MkPState (p_status p) (p_next_publishing_id p) (p_accumulator p) (p_semaphore p)
           (p_unconfirmed p) (p_client p) (p_world p) (p_task_calls p) x (p_delivering p)
           (p_settled p) (p_retired p) (p_dropped p) (p_confirms p).
Definition set_delivering (x : list (AccumulatedMessage * ConfirmationStatus)) (p : PState) : PState :=
  MkPState (p_status p) (p_next_publishing_id p) (p_accumulator p) (p_semaphore p)
           (p_unconfirmed p) (p_client p) (p_world p) (p_task_calls p) (p_accepted p) x
           (p_settled p) (p_retired p) (p_dropped p) (p_confirms p).
Definition set_settled (x : list (AccumulatedMessage * ConfirmationStatus)) (p : PState) : PState :=
  MkPState (p_status p) (p_next_publishing_id p) (p_accumulator p) (p_semaphore p)
           (p_unconfirmed p) (p_client p) (p_world p) (p_task_calls p) (p_accepted p)
           (p_delivering p) x (p_retired p) (p_dropped p) (p_confirms p).
Definition set_retired (x : list AccumulatedMessage) (p : PState) : PState :=
  MkPState (p_status p) (p_next_publishing_id p) (p_accumulator p) (p_semaphore p)
           (p_unconfirmed p) (p_client p) (p_world p) (p_task_calls p) (p_accepted p)
           (p_delivering p) (p_settled p) x (p_dropped p) (p_confirms p).
Definition set_dropped (x : list AccumulatedMessage) (p : PState) : PState :=
  MkPState (p_status p) (p_next_publishing_id p) (p_accumulator p) (p_semaphore p)
           (p_unconfirmed p) (p_client p) (p_world p) (p_task_calls p) (p_accepted p)
           (p_delivering p) (p_settled p) (p_retired p) x (p_confirms p).
Definition set_confirms (x : list Z) (p : PState) : PState :=
  MkPState (p_status p) (p_next_publishing_id p) (p_accumulator p) (p_semaphore p)
           (p_unconfirmed p) (p_client p) (p_world p) (p_task_calls p) (p_accepted p)
           (p_delivering p) (p_settled p) (p_retired p) (p_dropped p) x.

(** [ProducerImpl]'s constructor. *)
Definition new_Producer (w : W) : PState :=
  MkPState Initialized 0 (new_Accumulator (pc_batch_size cfg)) (new_Semaphore (pc_max_unconfirmed cfg))
           ∅ None w [] [] [] [] [] [] [].

Abbreviation PM A := (ST PState exn A).

(** A call through the interface. *)
Definition onW {A} (m : ST W exn A) : PM A := fun p =>
  let '(r, w) := m (p_world p) in (r, set_world w p).

(** [try { m } catch (const StreamException& e) { h(e) }]. *)
Definition catch_stream {A} (m : PM A) (h : exn -> PM A) : PM A :=
  st_catch m (fun e => if is_StreamException e then h e else st_throw e).

Definition task_call (t : ProducerTask) (c : TaskCall) : PM unit :=
  st_modify (fun p => set_task_calls (p_task_calls p ++ [(t, c)]) p).

Definition batch_publish_valid : bool := negb (pc_batch_publishing_delay cfg =? 0).
Definition confirm_timeout_valid : bool := negb (pc_confirm_timeout cfg =? 0).

Definition publisher_id : Z := 0.

Definition PRODUCER_STOPPED : exn := ProducerException ProducerStopped "Producer is stopped".

(** ** start *)

(** [m_status.compare_exchange_strong]. *)
Definition compare_exchange (expected desired : Status) : PM bool :=
  p ← st_get;
  if decide (p_status p = expected) then st_put (set_status desired p) ;; mret true else mret false.

Definition get_client : PM nat := onW (cw_get_producer_client (pc_stream cfg)).

Definition start_begin : PM unit :=
  ok ← compare_exchange Initialized Starting;
  if ok : bool then mret tt else st_throw (StreamException "Invalid status for start request").

(** Under [m_mutex]. *)
Definition start_connect : PM unit :=
  onW cw_register_producer ;;
  c ← get_client;
  st_modify (set_client (Some c)) ;;
  onW (cw_start c) ;;
  st_modify (fun p => set_accumulator
    (set_max_frame_size (cw_max_frame_size c (p_world p)) (p_accumulator p)) p) ;;
  (if bool_decide (pc_name cfg = EmptyString) then mret tt
   else last_published ← onW (cw_query_publisher_sequence c (pc_name cfg) (pc_stream cfg));
        st_modify (set_next_publishing_id
          match last_published with Some n => wrap64 (n + 1) | None => 0 end)) ;;
  onW (cw_declare_publisher c publisher_id (pc_name cfg) (pc_stream cfg)) ;;
  (if batch_publish_valid then task_call BatchPublishTask (ScheduleAfter (pc_batch_publishing_delay cfg))
   else mret tt) ;;
  (if confirm_timeout_valid
   then task_call ConfirmTimeoutTask (ScheduleAfter (get_confirm_check_delay (pc_confirm_timeout cfg)))
   else mret tt).

Definition start_finish : PM unit :=
  ok ← compare_exchange Starting Started;
  if ok : bool then mret tt else st_throw (StreamException "Producer was stopped while start was ongoing").

Definition start : PM unit := start_begin ;; start_connect ;; start_finish.

(** ** publish_batch *)

Definition to_publish (m : AccumulatedMessage) : PublishMessage :=
  MkPublishMessage (am_publishing_id m) (am_encoded_message m).

(** [m_unconfirmed.emplace]: a message whose publishing id is taken is dropped
    with the local vector. *)
Definition emplace_unconfirmed (m : AccumulatedMessage) : PM unit :=
  st_modify (fun p =>
    match p_unconfirmed p !! am_publishing_id m with
    | None => set_unconfirmed (<[am_publishing_id m := m]> (p_unconfirmed p)) p
    | Some _ => set_retired (p_retired p ++ [m]) (set_dropped (p_dropped p ++ [m]) p)
    end).

Definition publish_batch : PM unit :=
  p ← st_get;
  if negb (bool_decide (p_status p = Started)) then mret tt else
  let '(messages, accumulator) := extract_all (p_accumulator p) in
  st_modify (set_accumulator accumulator) ;;
  (if bool_decide (messages = []) then mret tt else
   (match p_client p with
    | None => mret tt
    | Some c =>
        catch_stream (onW (cw_publish_encoded c publisher_id (map to_publish messages)))
                     (fun _ => mret tt)
    end) ;;
   st_iter emplace_unconfirmed messages) ;;
  (if batch_publish_valid then task_call BatchPublishTask (ScheduleAfter (pc_batch_publishing_delay cfg))
   else mret tt).

(** ** send

    The critical sections of [send]; the two waits are the steps that can be
    disabled.  A failure after the acquisition destroys the permit. *)

Definition next_publishing_id : PM Z :=
  p ← st_get;
  st_put (set_next_publishing_id (wrap64 (p_next_publishing_id p + 1)) p) ;;
  mret (p_next_publishing_id p).

Definition send_check : PM unit :=
  p ← st_get;
  if bool_decide (p_status p = Started) then mret tt else st_throw PRODUCER_STOPPED.

Definition release_permit : PM unit := st_modify (fun p => set_semaphore (release (p_semaphore p)) p).

(** The [catch] clauses of [send]. *)
Definition send_exception (e : exn) : exn :=
  match e with
  | SemaphoreDestroyedException _ | AccumulatorDestroyedException _ => PRODUCER_STOPPED
  | _ => e
  end.

Definition send_acquire (expired : bool) (p : PState) : option (outcome exn unit * PState) :=
  if pc_enqueue_timeout cfg =? 0 then
    '(r, s) ← acquire (p_semaphore p);
    Some (r, set_semaphore s p)
  else
    '(r, s) ← try_acquire_for expired (p_semaphore p);
    Some (match r with
          | Val (Some tt) => Val tt
          | Val None => Throw (ProducerException MessageEnqueuingFailed "Enqueueing message timeout")
          | Throw e => Throw e
          end, set_semaphore s p).

Definition send_prepare (now id : Z) (msg : Message) (handler : option nat) : PM AccumulatedMessage :=
  p ← st_get;
  match add_prepare codec now id msg handler (p_accumulator p) with
  | Val m => mret m
  | Throw e => release_permit ;; st_throw e
  end.

Definition send_commit (m : AccumulatedMessage) (p : PState) : option (outcome exn bool * PState) :=
  '(r, a) ← add_commit m (p_accumulator p);
  Some match r with
       | Val full => (Val full, set_accepted (p_accepted p ++ [m]) (set_accumulator a p))
       | Throw e => (release_permit ;; st_throw e) p
       end.

(** A call of [send] that no other thread interrupts; [None]: it waits. *)
Definition send (now : Z) (expired : bool) (id : Z) (msg : Message) (handler : option nat) (p : PState) :
  option (outcome exn unit * PState) :=
  match send_check p with
  | (Throw e, p) => Some (Throw e, p)
  | (Val _, p) =>
      '(r, p) ← send_acquire expired p;
      match r with
      | Throw e => Some (Throw (send_exception e), p)
      | Val _ =>
          match send_prepare now id msg handler p with
          | (Throw e, p) => Some (Throw (send_exception e), p)
          | (Val m, p) =>
              '(r, p) ← send_commit m p;
              match r with
              | Throw e => Some (Throw (send_exception e), p)
              | Val full => Some (if full : bool then publish_batch p else (Val tt, p))
              end
          end
      end
  end.

Definition flush : PM unit := send_check ;; publish_batch.

(** ** Confirmations *)

Definition status_of (m : AccumulatedMessage) (publishing_id : Z) (confirmed : bool) (code : Z) :
  ConfirmationStatus := MkConfirmationStatus publishing_id (am_message m) confirmed code.

(** Under [m_mutex]: take the message out of the map. *)
Definition take_unconfirmed (publishing_id : Z) (confirmed : bool) (code : Z) : PM unit :=
  st_modify (fun p =>
    match p_unconfirmed p !! publishing_id with
    | Some m => set_delivering (p_delivering p ++ [(m, status_of m publishing_id confirmed code)])
                  (set_unconfirmed (delete publishing_id (p_unconfirmed p)) p)
    | None => p
    end).

Definition handle_publish_confirm (publishing_id : Z) : PM unit :=
  st_modify (fun p => set_confirms (p_confirms p ++ [publishing_id]) p) ;;
  take_unconfirmed publishing_id true (rc_value Ok).

Definition handle_publish_error (publishing_id code : Z) : PM unit :=
  take_unconfirmed publishing_id false code.

(** The prefix of the sorted map that is not newer than the threshold. *)
Fixpoint timed_out_prefix (threshold : Z) (sorted : omap Z AccumulatedMessage) :
  omap Z AccumulatedMessage :=
  match sorted with
  | [] => []
  | (id, m) :: sorted =>
      if threshold <? am_publish_time m then [] else (id, m) :: timed_out_prefix threshold sorted
  end.

(** [std::map{m_unconfirmed.begin(), m_unconfirmed.end()}]. *)
Definition sorted_unconfirmed (p : PState) : omap Z AccumulatedMessage :=
  om_insert_all (map_to_list (p_unconfirmed p)) [].

(** Under [m_mutex]. *)
Definition collect_timed_out (now : Z) : PM unit :=
  p ← st_get;
  let timed_out := timed_out_prefix (now - pc_confirm_timeout cfg) (sorted_unconfirmed p) in
  let error_code := pec_value match p_client p with
                              | None => ProducerNotAvailable | Some _ => ConfirmTimeout end in
  st_put (set_unconfirmed (fold_left (fun u im => delete im.1 u) timed_out (p_unconfirmed p))
    (set_delivering (p_delivering p ++
       map (fun im => (im.2, status_of im.2 (am_publishing_id im.2) false error_code)) timed_out) p)).

(** Call the handlers of the messages taken out after the first [n], in order. *)
Definition deliver_from (n : nat) : PM unit :=
  st_modify (fun p =>
    let ready := drop n (p_delivering p) in
    set_delivering (take n (p_delivering p))
      (set_settled (p_settled p ++ ready) (set_retired (p_retired p ++ map fst ready) p))).

Definition reschedule_confirm_timeout : PM unit :=
  task_call ConfirmTimeoutTask (ScheduleAfter (get_confirm_check_delay (pc_confirm_timeout cfg))).

(** A run of the task that no other thread interrupts. *)
Definition check_confirm_timeout (now : Z) : PM unit :=
  n ← st_gets (fun p => length (p_delivering p));
  collect_timed_out now ;;
  deliver_from n ;;
  reschedule_confirm_timeout.

(** Call the handler, if there is one, of the [i]-th message that was taken out. *)
Definition deliver (i : nat) (p : PState) : option PState :=
  '(m, s) ← p_delivering p !! i;
  Some (set_delivering (delete i (p_delivering p))
          (set_settled (p_settled p ++ [(m, s)]) (set_retired (p_retired p ++ [m]) p))).

(** Destroy the [i]-th message that is done with. *)
Definition retire (i : nat) (p : PState) : option PState :=
  _ ← p_retired p !! i;
  Some (set_retired (delete i (p_retired p)) (set_semaphore (release (p_semaphore p)) p)).

(** The calls of confirmation handlers: each settled message with a handler. *)
Definition handler_calls (p : PState) : list (nat * ConfirmationStatus) :=
  concat (map (fun ms : AccumulatedMessage * ConfirmationStatus =>
    match am_confirmation_handler ms.1 with Some h => [(h, ms.2)] | None => [] end) (p_settled p)).

(** ** stop *)

Definition fail_message (code : Z) (id : Z) (m : AccumulatedMessage) : PM unit :=
  st_modify (fun p => set_settled (p_settled p ++ [(m, status_of m id false code)])
                        (set_retired (p_retired p ++ [m]) p)).

(** Under [m_mutex].  The order of an [unordered_map] is unspecified; the model
    takes that of [map_to_list]. *)
Definition fail_all_unconfirmed (code : Z) : PM unit :=
  p ← st_get;
  st_iter (fun im => fail_message code im.1 im.2) (map_to_list (p_unconfirmed p)) ;;
  st_modify (set_unconfirmed ∅) ;;
  p ← st_get;
  let '(messages, accumulator) := extract_all (p_accumulator p) in
  st_modify (set_accumulator accumulator) ;;
  st_iter (fun m => fail_message code (am_publishing_id m) m) messages.

Definition destroy_tasks : PM unit :=
  task_call BatchPublishTask TaskDestroy ;; task_call ConfirmTimeoutTask TaskDestroy ;;
  task_call DelayedReconnectTask TaskDestroy ;; task_call ReconnectTask TaskDestroy.

(** [m_status.exchange(Stopped) != Stopped]. *)
Definition stop_exchange : PM bool :=
  p ← st_get;
  st_put (set_status Stopped p) ;;
  mret (negb (bool_decide (p_status p = Stopped))).

Definition stop_accumulator : PM unit :=
  st_modify (fun p => set_accumulator (acc_destroy (p_accumulator p)) p).

Definition stop_semaphore : PM unit :=
  st_modify (fun p => set_semaphore (sem_destroy (p_semaphore p)) p).

(** [std::move(m_client)], under [m_mutex]. *)
Definition take_client : PM (option nat) :=
  p ← st_get; st_put (set_client None p) ;; mret (p_client p).

Definition stop_client (client : option nat) : PM unit :=
  match client with
  | None => mret tt
  | Some c =>
      catch_stream (onW (cw_delete_publisher c publisher_id)) (fun _ => mret tt) ;;
      onW (cw_stop c)
  end.

Definition internal_stop (code : Z) : PM unit :=
  destroy_tasks ;;
  first ← stop_exchange;
  if first : bool then
    stop_accumulator ;;
    stop_semaphore ;;
    client ← take_client;
    stop_client client ;;
    fail_all_unconfirmed code ;;
    onW cw_unregister_producer
  else mret tt.

Definition stop : PM unit :=
  task_call StreamDeletedTask TaskDestroy ;;
  internal_stop (pec_value ProducerStopped).

(** ** Recovery *)

Definition handle_metadata_update (stream : string) : PM unit :=
  if bool_decide (stream = pc_stream cfg) then task_call DelayedReconnectTask ScheduleNow else mret tt.

(** [m_client = nullptr], under [m_mutex]: [returns] says whether the destructor of
    the client that it held, if there was one and no one else refers to it, does;
    [drop_may_block] is when it may not. *)
Definition handle_shutdown (returns : bool) (reason : ShutdownReason) : PM unit :=
  p ← st_get;
  if negb (bool_decide (reason = ClientInitiated)) && bool_decide (p_status p = Started) then
    dropped ← take_client;
    (match dropped with Some _ => if returns then mret tt else st_throw NeverReturns | None => mret tt end) ;;
    task_call ReconnectTask ScheduleNow
  else mret tt.

(** Under [m_mutex]: [None] when there is nothing to do. *)
Definition delayed_take : PM (option (option nat)) :=
  p ← st_get;
  if negb (bool_decide (p_status p = Started)) then mret None
  else c ← take_client; mret (Some c).

Definition delayed_stop (client : option nat) : PM unit :=
  match client with Some c => onW (cw_stop c) | None => mret tt end ;;
  task_call ReconnectTask (ScheduleAfter (pc_recovery_retry_delay cfg)).

Definition delayed_reconnect : PM unit :=
  taken ← delayed_take;
  match taken with Some client => delayed_stop client | None => mret tt end.

Definition reconnect_needed : PM bool :=
  p ← st_get;
  mret (negb (bool_decide (p_client p <> None) || negb (bool_decide (p_status p = Started)))).

(** The loop of the resend: [batch] is [encoded_messages], published and
    cleared when it reaches the batch size. *)
Fixpoint resend (c : nat) (sorted : omap Z AccumulatedMessage) (batch : list PublishMessage) : PM unit :=
  match sorted with
  | [] =>
      if bool_decide (batch = []) then mret tt else onW (cw_publish_encoded c publisher_id batch)
  | (id, m) :: sorted =>
      let batch := batch ++ [MkPublishMessage id (am_encoded_message m)] in
      if lenZ batch =? pc_batch_size cfg
      then onW (cw_publish_encoded c publisher_id batch) ;; resend c sorted []
      else resend c sorted batch
  end.

(** Outside the mutex: a new client, connected and declared. *)
Definition reconnect_connect (c : nat) : PM unit :=
  onW (cw_start c) ;;
  onW (cw_declare_publisher c publisher_id (pc_name cfg) (pc_stream cfg)).

(** Under [m_mutex]. *)
Definition reconnect_resend (c : nat) : PM unit :=
  p ← st_get;
  if negb (bool_decide (p_status p = Started)) then onW (cw_stop c) else
  resend c (sorted_unconfirmed p) [] ;;
  st_modify (set_client (Some c)).

(** The [catch] clause: [client] is what [get_client] had returned, if it had. *)
Definition reconnect_failed (client : option nat) (e : exn) : PM unit :=
  match client with Some c => onW (cw_stop c) | None => mret tt end ;;
  if bool_decide (response_error_code e = Some (rc_value StreamDoesNotExist))
  then task_call StreamDeletedTask ScheduleNow
  else task_call ReconnectTask (ScheduleAfter (pc_recovery_retry_delay cfg)).

Definition reconnect_to_server : PM unit :=
  needed ← reconnect_needed;
  if negb (needed : bool) then mret tt else
  client ← catch_stream (c ← get_client; mret (Some c)) (fun e => reconnect_failed None e ;; mret None);
  match client with
  | None => mret tt
  | Some c => catch_stream (reconnect_connect c ;; reconnect_resend c) (reconnect_failed (Some c))
  end.

End producer.
