(* ===== verification/ProducerSystem.v ===== *)
(** * The producer under concurrency

    Interleaves the critical sections of [Producer]: any number of threads call
    [send] and [stop], while the client's listeners and the background tasks
    run.  The theorems account for every enqueue permit and for every message
    that [send] accepted, in every reachable state. *)

From S2P Require Import Prelude Words OrdMap Types BinaryBuffer ClientCommands Messages Semaphore Accumulator Producer.

(** A call of [send]: where it is, with its locals. *)
Inductive send_pc :=
| SendAcquire (id : Z) (msg : Message) (handler : option nat)
| SendPrepare (id : Z) (msg : Message) (handler : option nat)
| SendCommit (m : AccumulatedMessage)
| SendPublish
| SendDone (r : outcome exn unit).

(** A call of [internal_stop]. *)
Inductive stop_pc :=
| StopTasks (code : Z)
| StopExchange (code : Z)
| StopAccumulator (code : Z)
| StopSemaphore (code : Z)
| StopTake (code : Z)
| StopClient (code : Z) (client : option nat)
| StopFail (code : Z)
| StopUnregister
| StopDone (r : outcome exn unit).

Section producer_system.
Context {W : Type} `{ClientWorld W} {C : Type} `{Codec C}.
Context (cfg : ProducerConfig) (codec : C).

Abbreviation PS := (@PState W).

Definition send_call (id : Z) (msg : Message) (handler : option nat) (p : PS) : send_pc :=
  match (send_check p).1 with
  | Val _ => SendAcquire id msg handler
  | Throw e => SendDone (Throw e)
  end.

(** One critical section of a [send]; [None]: it waits or has ended. *)
Definition send_step (now : Z) (expired : bool) (pc : send_pc) (p : PS) : option (send_pc * PS) :=
  match pc with
  | SendAcquire id msg handler =>
      '(r, p') ← send_acquire cfg expired p;
      Some (match r with
            | Val _ => SendPrepare id msg handler
            | Throw e => SendDone (Throw (send_exception e)) end, p')
  | SendPrepare id msg handler =>
      let '(r, p') := send_prepare codec now id msg handler p in
      Some (match r with Val m => SendCommit m | Throw e => SendDone (Throw (send_exception e)) end, p')
  | SendCommit m =>
      '(r, p') ← send_commit m p;
      Some (match r with
            | Val full => if full : bool then SendPublish else SendDone (Val tt)
            | Throw e => SendDone (Throw (send_exception e)) end, p')
  | SendPublish => let '(r, p') := publish_batch cfg p in Some (SendDone r, p')
  | SendDone _ => None
  end.

Definition stop_step (pc : stop_pc) (p : PS) : option (stop_pc * PS) :=
  match pc with
  | StopTasks code => Some (StopExchange code, (destroy_tasks p).2)
  | StopExchange code =>
      let '(r, p') := stop_exchange p in
      Some (match r with Val true => StopAccumulator code | _ => StopDone (Val tt) end, p')
  | StopAccumulator code => Some (StopSemaphore code, (stop_accumulator p).2)
  | StopSemaphore code => Some (StopTake code, (stop_semaphore p).2)
  | StopTake code =>
      let '(r, p') := take_client p in
      Some (StopClient code match r with Val c => c | Throw _ => None end, p')
  | StopClient code client =>
      let '(r, p') := stop_client client p in
      Some (match r with Val _ => StopFail code | Throw e => StopDone (Throw e) end, p')
  | StopFail code => Some (StopUnregister, (fail_all_unconfirmed code p).2)
  | StopUnregister => let '(r, p') := onW cw_unregister_producer p in Some (StopDone r, p')
  | StopDone _ => None
  end.

(** The critical sections of the other threads; a world step is anything that
    happens behind the interface. *)
Inductive other_step : PS -> PS -> Prop :=
| other_start_begin p : other_step p (start_begin p).2
| other_start_connect p : other_step p (start_connect cfg p).2
| other_start_finish p : other_step p (start_finish p).2
| other_publish p : other_step p (publish_batch cfg p).2
| other_confirm id p : other_step p (handle_publish_confirm id p).2
| other_error id code p : other_step p (handle_publish_error id code p).2
| other_timeout now p : other_step p (collect_timed_out cfg now p).2
| other_reschedule p : other_step p (reschedule_confirm_timeout cfg p).2
| other_deliver i p p' : deliver i p = Some p' -> other_step p p'
| other_retire i p p' : retire i p = Some p' -> other_step p p'
| other_metadata stream p : other_step p (handle_metadata_update cfg stream p).2
| other_shutdown returns reason p : other_step p (handle_shutdown returns reason p).2
| other_delayed_take p : other_step p (delayed_take p).2
| other_delayed_stop client p : other_step p (delayed_stop cfg client p).2
| other_get_client p : other_step p (get_client cfg p).2
| other_connect c p : other_step p (reconnect_connect cfg c p).2
| other_resend c p : other_step p (reconnect_resend cfg c p).2
| other_failed c e p : other_step p (reconnect_failed cfg c e p).2
| other_world w p : cw_changes (p_world p) w -> other_step p (set_world w p).

(** [sys_failed]: whether some [internal_stop] has run [fail_all_unconfirmed]. *)
Record psys := MkPsys {
  sys_p : PS;
  sys_sends : list send_pc;
  sys_stops : list stop_pc;
  sys_failed : bool
}.

Definition is_fail (pc : stop_pc) : bool := match pc with StopFail _ => true | _ => false end.

Inductive pstep : psys -> psys -> Prop :=
| step_send p sends stops f id msg handler :
    pstep (MkPsys p sends stops f) (MkPsys p (sends ++ [send_call id msg handler p]) stops f)
| step_send_next p sends stops f msg handler id p' :
    next_publishing_id p = (Val id, p') ->
    pstep (MkPsys p sends stops f) (MkPsys p' (sends ++ [send_call id msg handler p']) stops f)
| step_sending p sends stops f i pc pc' p' now expired :
    sends !! i = Some pc -> send_step now expired pc p = Some (pc', p') ->
    pstep (MkPsys p sends stops f) (MkPsys p' (<[i := pc']> sends) stops f)
| step_stop p sends stops f code :
    pstep (MkPsys p sends stops f) (MkPsys p sends (stops ++ [StopTasks code]) f)
| step_stopping p sends stops f i pc pc' p' :
    stops !! i = Some pc -> stop_step pc p = Some (pc', p') ->
    pstep (MkPsys p sends stops f) (MkPsys p' sends (<[i := pc']> stops) (f || is_fail pc))
| step_other p sends stops f p' :
    other_step p p' -> pstep (MkPsys p sends stops f) (MkPsys p' sends stops f).

Definition initial (w : W) : psys := MkPsys (new_Producer cfg w) [] [] false.
Definition reachable (w : W) (s : psys) : Prop := rtc pstep (initial w) s.

(** ** The accounts *)

Definition values (u : gmap Z AccumulatedMessage) : list AccumulatedMessage := (map_to_list u).*2.

(** Every accepted message is in exactly one place; [hand] are those that the
    running critical section holds. *)
Definition ledger (hand : list AccumulatedMessage) (p : PS) : Prop :=
  p_accepted p ≡ₚ hand ++ m_pending (p_accumulator p) ++ values (p_unconfirmed p)
                 ++ (p_delivering p).*1 ++ (p_settled p).*1 ++ p_dropped p.

(** Every permit is available, held by a [send] ([n] of them), or owned by a
    live message. *)
Definition permits (n : Z) (hand : list AccumulatedMessage) (p : PS) : Prop :=
  0 <= m_available (p_semaphore p) /\
  m_available (p_semaphore p) + n + lenZ hand + lenZ (m_pending (p_accumulator p))
    + lenZ (values (p_unconfirmed p)) + lenZ (p_delivering p) + lenZ (p_retired p)
  = pc_max_unconfirmed cfg.

Definition keyed (p : PS) : Prop :=
  forall id m, p_unconfirmed p !! id = Some m -> am_publishing_id m = id.

(** A status reports the message it belongs to, and confirms it only if the
    broker did. *)
Definition status_ok (p : PS) (ms : AccumulatedMessage * ConfirmationStatus) : Prop :=
  cs_publishing_id ms.2 = am_publishing_id ms.1 /\ cs_message ms.2 = am_message ms.1 /\
  (cs_confirmed ms.2 = true ->
     cs_status_code ms.2 = rc_value Ok /\ am_publishing_id ms.1 ∈ p_confirms p).

Definition statuses (p : PS) : Prop := Forall (status_ok p) (p_delivering p ++ p_settled p).

Definition drops (p : PS) : Prop :=
  p_dropped p <> [] -> ~ NoDup (map am_publishing_id (p_accepted p)).

Record pinv (n : Z) (hand : list AccumulatedMessage) (p : PS) : Prop := MkPinv {
  pinv_ledger : ledger hand p;
  pinv_permits : permits n hand p;
  pinv_keyed : keyed p;
  pinv_statuses : statuses p;
  pinv_drops : drops p
}.

(** ** Steps that leave the accounts alone *)

Definition view (p : PS) :=
  (m_pending (p_accumulator p), m_available (p_semaphore p), p_unconfirmed p, p_accepted p,
   p_delivering p, p_settled p, p_retired p, p_dropped p, p_confirms p).

Definition down (p : PS) : Prop := p_status p = Stopped.
Definition closed (p : PS) : Prop := acc_destroyed (p_accumulator p) = true.

Definition later (p p' : PS) : Prop := (down p -> down p') /\ (closed p -> closed p').
Definition quiet (p p' : PS) : Prop := view p' = view p /\ later p p'.
Definition quiet_op {A} (m : ST PS exn A) : Prop := preserves quiet m.

#[global] Instance later_preorder : PreOrder later.
Proof. split; [now intros p | intros p1 p2 p3 [] []; split; tauto]. Qed.

#[global] Instance quiet_preorder : PreOrder quiet.
Proof.
  split; [now intros p|]. intros p1 p2 p3 [E1 L1] [E2 L2].
  split; [congruence | now transitivity p2].
Qed.

Lemma pinv_quiet n hand p p' : quiet p p' -> pinv n hand p -> pinv n hand p'.
Proof.
  intros [E _] [Hl Hp Hk Hs Hd]. injection E as E1 E2 E3 E4 E5 E6 E7 E8 E9.
  unfold ledger, permits, keyed, statuses, drops in *.
  split; unfold ledger, permits, keyed, statuses, drops; rewrite ?E1, ?E2, ?E3, ?E4, ?E5, ?E6, ?E7, ?E8; try done.
  eapply Forall_impl; [exact Hs|]. unfold status_ok. now rewrite E9.
Qed.

Lemma quiet_ret {A} (a : A) : quiet_op (mret a).
Proof. now intros p. Qed.

Lemma quiet_throw {A} e : quiet_op (st_throw e : ST PS exn A).
Proof. now intros p. Qed.

Lemma quiet_bind {A B} (m : ST PS exn A) (f : A -> ST PS exn B) :
  quiet_op m -> (forall a, quiet_op (f a)) -> quiet_op (m ≫= f).
Proof. apply (preserves_bind quiet). Qed.

Lemma quiet_catch {A} (m : ST PS exn A) h :
  quiet_op m -> (forall e, quiet_op (h e)) -> quiet_op (catch_stream m h).
Proof.
  intros Hm Hh. apply (preserves_catch quiet); [done|]. intros e.
  destruct (is_StreamException e); [apply Hh | apply (preserves_throw quiet)].
Qed.

Lemma quiet_get {A} (f : PS -> ST PS exn A) :
  (forall p, quiet p (f p p).2) -> quiet_op (p ← st_get; f p).
Proof. intros Hf p. apply Hf. Qed.

Lemma quiet_onW {A} (m : ST W exn A) : quiet_op (onW m).
Proof. intros p. unfold onW. now destruct (m (p_world p)). Qed.

Lemma quiet_modify f : (forall p, quiet p (f p)) -> quiet_op (st_modify f : ST PS exn unit).
Proof. intros Hf p. apply Hf. Qed.

Lemma quiet_task_call t c : quiet_op (task_call t c : ST PS exn unit).
Proof. now apply quiet_modify. Qed.

End producer_system.

Create HintDb quiet.
#[export] Hint Resolve quiet_ret quiet_throw quiet_onW quiet_task_call : quiet.
#[export] Hint Extern 1 (quiet_op (_ ≫= _)) => apply quiet_bind : quiet.
#[export] Hint Extern 1 (quiet_op (catch_stream _ _)) => apply quiet_catch : quiet.
#[export] Hint Extern 1 (quiet_op (st_modify _)) => now apply quiet_modify : quiet.
#[export] Hint Extern 2 (quiet_op (match ?x with _ => _ end)) => destruct x : quiet.

Section producer_quiet.
Context {W : Type} `{ClientWorld W}.
Context (cfg : ProducerConfig).
Abbreviation PS := (@PState W).
Implicit Types p : (@PState W).

Lemma quiet_compare_exchange s s' : s <> Stopped -> quiet_op (compare_exchange s s' : ST PS exn bool).
Proof.
  intros Hs. apply quiet_get. intros p. destruct (decide (p_status p = s)) as [<-|]; [|done].
  split; [done|]. split; [|done]. intros Hd. now destruct Hs.
Qed.

Lemma quiet_start_begin : quiet_op (start_begin : ST PS exn unit).
Proof. apply quiet_bind; [now apply quiet_compare_exchange|]. intros []; auto with quiet. Qed.

Lemma quiet_start_finish : quiet_op (start_finish : ST PS exn unit).
Proof. apply quiet_bind; [now apply quiet_compare_exchange|]. intros []; auto with quiet. Qed.

Lemma quiet_start_connect : quiet_op (start_connect cfg : ST PS exn unit).
Proof. unfold start_connect, get_client. auto 20 with quiet. Qed.

Lemma quiet_take_client : quiet_op (take_client : ST PS exn (option nat)).
Proof. now apply quiet_get. Qed.

Lemma quiet_delayed_take : quiet_op (delayed_take : ST PS exn (option (option nat))).
Proof.
  apply quiet_get. intros p. destruct (negb _); [done|].
  apply quiet_bind; [apply quiet_take_client|]. auto with quiet.
Qed.

Lemma quiet_delayed_stop client : quiet_op (delayed_stop cfg client : ST PS exn unit).
Proof. unfold delayed_stop. auto with quiet. Qed.

Lemma quiet_resend c sorted batch : quiet_op (resend cfg c sorted batch : ST PS exn unit).
Proof.
  revert batch. induction sorted as [|[id m] sorted IH]; intros batch; simpl; auto with quiet.
Qed.

Lemma quiet_reconnect_resend c : quiet_op (reconnect_resend cfg c : ST PS exn unit).
Proof.
  apply quiet_get. intros p. destruct (negb _); [apply quiet_onW|].
  apply quiet_bind; [apply quiet_resend | auto with quiet].
Qed.

Lemma quiet_reconnect_connect c : quiet_op (reconnect_connect cfg c : ST PS exn unit).
Proof. unfold reconnect_connect. auto with quiet. Qed.

Lemma quiet_reconnect_failed c e : quiet_op (reconnect_failed cfg c e : ST PS exn unit).
Proof. unfold reconnect_failed. auto with quiet. Qed.

Lemma quiet_shutdown returns reason : quiet_op (handle_shutdown returns reason : ST PS exn unit).
Proof.
  apply quiet_get. intros p. destruct (_ && _); [|done].
  apply quiet_bind; [apply quiet_take_client|]. intros [c|]; [destruct returns|]; apply quiet_bind; auto with quiet.
Qed.

Lemma quiet_metadata stream : quiet_op (handle_metadata_update cfg stream : ST PS exn unit).
Proof. unfold handle_metadata_update. auto with quiet. Qed.

Lemma quiet_destroy_tasks : quiet_op (destroy_tasks : ST PS exn unit).
Proof. unfold destroy_tasks. auto 10 with quiet. Qed.

Lemma quiet_stop_client c : quiet_op (stop_client c : ST PS exn unit).
Proof. unfold stop_client. auto with quiet. Qed.

Lemma quiet_next_id : quiet_op (next_publishing_id : ST PS exn Z).
Proof. now apply quiet_get. Qed.

(** ** Critical sections that move messages *)

Lemma values_insert u id m :
  u !! id = None -> values (<[id := m]> u) ≡ₚ m :: values u.
Proof. intros Hu. unfold values. now rewrite map_to_list_insert. Qed.

Lemma values_delete u id m : u !! id = Some m -> values u ≡ₚ m :: values (delete id u).
Proof. intros Hu. unfold values. now rewrite <- (map_to_list_delete u id m) by done. Qed.

Lemma perm_lenZ {A} (l k : list A) : l ≡ₚ k -> lenZ l = lenZ k.
Proof. intros E. unfold lenZ. now rewrite E. Qed.

Lemma dup_ids m m' (l rest : list AccumulatedMessage) :
  l ≡ₚ m :: m' :: rest -> am_publishing_id m = am_publishing_id m' -> ~ NoDup (map am_publishing_id l).
Proof.
  intros E Eid. rewrite E. simpl. rewrite Eid. intros Hnd.
  apply NoDup_cons in Hnd as [Hnin _]. apply Hnin. constructor.
Qed.

(** After [fail_all_unconfirmed] nothing is left, and nothing comes back. *)
Definition frozen (p : PS) : Prop :=
  down p /\ closed p /\ m_pending (p_accumulator p) = [] /\ p_unconfirmed p = ∅.

(** A critical section that takes the accounts from one shape to another, and
    never undoes a stop. *)
Definition moves (n : Z) (hand : list AccumulatedMessage) (n' : Z) (hand' : list AccumulatedMessage)
    (p p' : PS) : Prop :=
  (pinv cfg n hand p -> pinv cfg n' hand' p') /\ later p p' /\ (frozen p -> frozen p').

Lemma quiet_moves n hand p p' : quiet p p' -> moves n hand n hand p p'.
Proof.
  intros Hq. split; [now apply pinv_quiet|]. destruct Hq as [E L]. split; [done|].
  injection E as E1 _ E3 _ _ _ _ _ _. destruct L as [L1 L2]. unfold frozen. rewrite E1, E3. tauto.
Qed.

Lemma quiet_op_moves {A} n hand (m : ST PS exn A) p : quiet_op m -> moves n hand n hand p (m p).2.
Proof. intros Hm. apply quiet_moves, Hm. Qed.

Lemma moves_trans n1 h1 n2 h2 n3 h3 p1 p2 p3 :
  moves n1 h1 n2 h2 p1 p2 -> moves n2 h2 n3 h3 p2 p3 -> moves n1 h1 n3 h3 p1 p3.
Proof.
  intros (M1 & L1 & F1) (M2 & L2 & F2). split; [auto|]. split; [|auto].
  split; destruct L1, L2; auto.
Qed.

Definition emplaced (m : AccumulatedMessage) (p : PS) : PS := (emplace_unconfirmed m p).2.

Lemma pinv_emplace n m hand p :
  pinv cfg n (m :: hand) p -> pinv cfg n hand (emplaced m p).
Proof.
  unfold emplaced, emplace_unconfirmed. intros [Hl Hp Hk Hs Hd]. simpl.
  destruct (p_unconfirmed p !! am_publishing_id m) as [m'|] eqn:E; split; try done.
  - unfold ledger in *. simpl. rewrite Hl. solve_Permutation.
  - unfold permits in *. simpl. lenZ_lia.
  - intros _. simpl. apply (dup_ids m m' _ (hand ++ m_pending (p_accumulator p)
      ++ values (delete (am_publishing_id m) (p_unconfirmed p))
      ++ (p_delivering p).*1 ++ (p_settled p).*1 ++ p_dropped p)); [|symmetry; now apply Hk].
    unfold ledger in Hl. rewrite Hl, (values_delete _ _ _ E). solve_Permutation.
  - unfold ledger in *. simpl. rewrite Hl, (values_insert _ _ _ E). solve_Permutation.
  - unfold permits in *. simpl. rewrite (perm_lenZ _ _ (values_insert _ _ m E)). lenZ_lia.
  - intros id m'. simpl. rewrite lookup_insert_Some. intros [[<- <-]|[_ Hm]]; [done | now apply Hk].
Qed.

Lemma emplace_all_run ms p :
  st_iter emplace_unconfirmed ms p = (Val tt, fold_left (fun p m => emplaced m p) ms p).
Proof. revert p. induction ms as [|m ms IH]; intros p; [done|]. apply IH. Qed.

Lemma emplaced_later m p : later p (emplaced m p).
Proof. unfold emplaced, emplace_unconfirmed. simpl. now destruct (p_unconfirmed p !! _). Qed.

Lemma emplace_all_moves n ms p :
  (pinv cfg n ms p -> pinv cfg n [] (fold_left (fun p m => emplaced m p) ms p)) /\
  later p (fold_left (fun p m => emplaced m p) ms p).
Proof.
  revert p. induction ms as [|m ms IH]; intros p; simpl; [done|].
  destruct (IH (emplaced m p)) as [IH1 IH2]. split.
  - intros Hi. now apply IH1, pinv_emplace.
  - transitivity (emplaced m p); [apply emplaced_later | done].
Qed.

(** The law of the interface: a failed publication is caught. *)
Lemma publish_caught c ms (p : PS) :
  exists w, catch_stream (onW (cw_publish_encoded c publisher_id ms)) (fun _ => mret tt) p
            = (Val tt, set_world w p).
Proof.
  unfold catch_stream, st_catch, onW.
  destruct (cw_publish_encoded c publisher_id ms (p_world p)) as [[[]|e] w] eqn:E; [by eexists|].
  rewrite (cw_publish_throws _ _ _ _ _ _ E). by eexists.
Qed.

Lemma pinv_extract n (p : PS) :
  pinv cfg n [] p ->
  pinv cfg n (m_pending (p_accumulator p)) (set_accumulator (with_pending [] (p_accumulator p)) p).
Proof.
  intros [Hl Hp Hk Hs Hd]. split; try done. unfold permits in *. simpl. lenZ_lia.
Qed.

(** What a batch does: everything that waited is published through the client,
    if there is one, and becomes unconfirmed. *)
Definition batched (w : W) (p : PS) : PS :=
  fold_left (fun p m => emplaced m p) (m_pending (p_accumulator p))
    (set_world w (set_accumulator (with_pending [] (p_accumulator p)) p)).

Definition batch_rescheduled (p : PS) : PS :=
  ((if batch_publish_valid cfg
    then task_call BatchPublishTask (ScheduleAfter (pc_batch_publishing_delay cfg)) else mret tt) p).2.

Lemma set_world_accumulator p a : set_world (p_world p) (set_accumulator a p) = set_accumulator a p.
Proof. now destruct p. Qed.

Lemma batch_publish_quiet p c :
  exists w, (match c with
   | Some c => catch_stream (onW (cw_publish_encoded c publisher_id
                 (map to_publish (m_pending (p_accumulator p))))) (fun _ => mret tt)
   | None => mret tt
   end) (set_accumulator (with_pending [] (p_accumulator p)) p)
   = (Val tt, set_world w (set_accumulator (with_pending [] (p_accumulator p)) p)).
Proof.
  destruct c as [c|]; [apply publish_caught|]. exists (p_world p). now destruct p.
Qed.

Lemma publish_batch_run p :
  (p_status p <> Started /\ publish_batch cfg p = (Val tt, p)) \/
  (p_status p = Started /\ exists w, publish_batch cfg p = (Val tt, batch_rescheduled (batched w p))).
Proof.
  destruct (decide (p_status p = Started)) as [Es|Hn]; [right | left]; (split; [done|]);
    unfold publish_batch; unfold mbind at 1, ST_bind at 1; cbn [st_get negb];
    [|now rewrite bool_decide_false].
  rewrite bool_decide_true by done. destruct (batch_publish_quiet p (p_client p)) as [w Ew].
  cbn [negb extract_all]. unfold mbind, ST_bind, st_modify.
  destruct (bool_decide_reflect (m_pending (p_accumulator p) = [])) as [E0|].
  - exists (p_world p). unfold batched. rewrite E0, set_world_accumulator. unfold batch_rescheduled.
    now destruct (batch_publish_valid cfg).
  - exists w. rewrite Ew, emplace_all_run. unfold batch_rescheduled. now destruct (batch_publish_valid cfg).
Qed.

Lemma batch_rescheduled_quiet p : quiet p (batch_rescheduled p).
Proof. unfold batch_rescheduled. now destruct (batch_publish_valid cfg). Qed.

Lemma moves_publish_batch n p : moves n [] n [] p (publish_batch cfg p).2.
Proof.
  destruct (publish_batch_run p) as [[_ ->]|[Es [w ->]]]; simpl; [now apply quiet_moves|].
  pose proof (batch_rescheduled_quiet (batched w p)) as Hq.
  set (p1 := set_world w (set_accumulator (with_pending [] (p_accumulator p)) p)).
  destruct (emplace_all_moves n (m_pending (p_accumulator p)) p1) as [M L].
  assert (quiet (set_accumulator (with_pending [] (p_accumulator p)) p) p1) as Hw by done.
  split; [|split].
  - intros Hp. eapply pinv_quiet; [exact Hq|]. apply M, (pinv_quiet _ _ _ _ _ Hw), pinv_extract, Hp.
  - transitivity (batched w p); [exact L | apply Hq].
  - intros [Hd _]. unfold down in Hd. congruence.
Qed.

(** *** Confirmations *)

(** Taking a message out of the map, with a status that is right for it. *)
Lemma pinv_take n p id m confirmed code :
  p_unconfirmed p !! id = Some m ->
  (confirmed = true -> code = rc_value Ok /\ id ∈ p_confirms p) ->
  pinv cfg n [] p ->
  pinv cfg n [] (set_delivering (p_delivering p ++ [(m, status_of m id confirmed code)])
                  (set_unconfirmed (delete id (p_unconfirmed p)) p)).
Proof.
  intros E Hc [Hl Hp Hk Hs Hd]. pose proof (Hk _ _ E) as Hid. split.
  - unfold ledger in *. simpl. rewrite Hl, (values_delete _ _ _ E), fmap_app. simpl. solve_Permutation.
  - unfold permits in *. simpl. rewrite (perm_lenZ _ _ (values_delete _ _ _ E)) in Hp. lenZ_lia.
  - intros id' m'. simpl. rewrite lookup_delete_Some. intros [_ Hm]. now apply Hk.
  - unfold statuses in *. simpl. rewrite !Forall_app in *. destruct Hs as [Hs1 Hs2]. split; [|done].
    split; [done|]. constructor; [|constructor]. split; [done|]. split; [done|]. simpl. now rewrite Hid.
  - done.
Qed.

Lemma moves_take n p id confirmed code :
  (confirmed = true -> code = rc_value Ok /\ id ∈ p_confirms p) ->
  moves n [] n [] p (take_unconfirmed id confirmed code p).2.
Proof.
  intros Hc. unfold take_unconfirmed. simpl. destruct (p_unconfirmed p !! id) as [m|] eqn:E; [|now apply quiet_moves].
  split; [now apply pinv_take|]. split; [done|].
  intros (_ & _ & _ & Hu). rewrite Hu in E. done.
Qed.

Lemma pinv_confirms n p ids :
  pinv cfg n [] p -> pinv cfg n [] (set_confirms (p_confirms p ++ ids) p).
Proof.
  intros [Hl Hp Hk Hs Hd]. split; try done. eapply Forall_impl; [exact Hs|].
  intros ms (H1 & H2 & H3). split; [done|]. split; [done|]. intros Hc. destruct (H3 Hc) as [H4 H5].
  split; [done|]. simpl. apply elem_of_app. auto.
Qed.

Lemma moves_confirm n id p : moves n [] n [] p (handle_publish_confirm id p).2.
Proof.
  eapply (moves_trans _ _ n []); [|apply (moves_take n (set_confirms (p_confirms p ++ [id]) p))].
  - split; [apply pinv_confirms | done].
  - intros _. split; [done|]. simpl. apply elem_of_app. right. constructor.
Qed.

(** *** Timeouts *)

Lemma om_find_lookup {V} (u : gmap Z V) id : om_find id (om_insert_all (map_to_list u) []) = u !! id.
Proof.
  rewrite om_find_insert_all by constructor. simpl. apply option_eq. intros v.
  rewrite om_find_elem by apply NoDup_fst_map_to_list. now rewrite elem_of_map_to_list.
Qed.

Lemma sorted_unconfirmed_sorted p : om_sorted (sorted_unconfirmed p).
Proof. apply om_insert_all_sorted. constructor. Qed.

Lemma elem_of_sorted_unconfirmed p id m :
  (id, m) ∈ sorted_unconfirmed p <-> p_unconfirmed p !! id = Some m.
Proof.
  rewrite <- om_find_elem by apply om_sorted_NoDup, sorted_unconfirmed_sorted.
  unfold sorted_unconfirmed. now rewrite om_find_lookup.
Qed.

Lemma timed_out_is_prefix threshold sorted :
  exists rest, sorted = timed_out_prefix threshold sorted ++ rest.
Proof.
  induction sorted as [|[id m] sorted [rest IH]]; simpl; [by exists []|].
  destruct (threshold <? am_publish_time m); [by eexists|]. exists rest. simpl. by f_equal.
Qed.

(** Taking several messages out, as the timeout does. *)
Definition take_out (code : Z) (l : omap Z AccumulatedMessage) (p : PS) : PS :=
  set_unconfirmed (fold_left (fun u im => delete im.1 u) l (p_unconfirmed p))
    (set_delivering (p_delivering p ++
       map (fun im => (im.2, status_of im.2 (am_publishing_id im.2) false code)) l) p).

Lemma take_out_cons code id m l p :
  take_out code ((id, m) :: l) p =
  take_out code l (set_delivering (p_delivering p ++ [(m, status_of m (am_publishing_id m) false code)])
                    (set_unconfirmed (delete id (p_unconfirmed p)) p)).
Proof. unfold take_out. destruct p. simpl. now rewrite <- app_assoc. Qed.

Lemma pinv_take_out n code l p :
  NoDup l.*1 -> (forall id m, (id, m) ∈ l -> p_unconfirmed p !! id = Some m) ->
  pinv cfg n [] p -> pinv cfg n [] (take_out code l p).
Proof.
  revert p. induction l as [|[id m] l IH]; intros p Hnd Hl Hi.
  - unfold take_out. simpl. eapply pinv_quiet; [|exact Hi]. unfold quiet, view. simpl.
    now rewrite app_nil_r.
  - rewrite take_out_cons. rewrite fmap_cons in Hnd. apply NoDup_cons in Hnd as [Hnin Hnd].
    assert (p_unconfirmed p !! id = Some m) as E by (apply Hl; left).
    rewrite (pinv_keyed _ _ _ _ Hi _ _ E). apply IH; [done| |now apply pinv_take].
    intros id' m' Hin. simpl. rewrite lookup_delete_ne; [apply Hl; now right|].
    intros ->. apply Hnin. now apply (list_elem_of_fmap_2 fst) in Hin.
Qed.

Lemma moves_collect n now p : moves n [] n [] p (collect_timed_out cfg now p).2.
Proof.
  unfold collect_timed_out. unfold mbind, ST_bind. simpl.
  set (code := pec_value _). set (l := timed_out_prefix _ _).
  destruct (timed_out_is_prefix (now - pc_confirm_timeout cfg) (sorted_unconfirmed p)) as [rest El].
  fold l in El. pose proof (om_sorted_NoDup _ (sorted_unconfirmed_sorted p)) as Hnd.
  assert (forall id m, (id, m) ∈ l -> p_unconfirmed p !! id = Some m) as Hl.
  { intros id m Hin. apply elem_of_sorted_unconfirmed. rewrite El. apply elem_of_app. auto. }
  split; [|split; [done|]].
  - intros Hi. apply (pinv_take_out n code l p); [|done|done].
    rewrite El, fmap_app in Hnd. now apply NoDup_app in Hnd as [Hnd _].
  - intros (H1 & H2 & H3 & H4). split; [done|]. split; [done|]. split; [done|]. simpl.
    destruct l as [|[id m] l']; [done|]. specialize (Hl id m ltac:(left)). rewrite H4 in Hl. done.
Qed.

(** *** Handlers and permits *)

Lemma delete_lookup_perm {A} (l : list A) i x : l !! i = Some x -> l ≡ₚ x :: delete i l.
Proof. apply delete_Permutation. Qed.

Lemma moves_deliver n i p p' : deliver i p = Some p' -> moves n [] n [] p p'.
Proof.
  unfold deliver. destruct (p_delivering p !! i) as [[m s]|] eqn:E; [|done]. intros [= <-].
  apply delete_lookup_perm in E. split; [|done]. intros [Hl Hp Hk Hs Hd]. split; try done.
  - unfold ledger in *. simpl. rewrite Hl. rewrite E at 1. rewrite fmap_app. simpl. solve_Permutation.
  - unfold permits in *. simpl. apply perm_lenZ in E. lenZ_lia.
  - unfold statuses in *. simpl. rewrite E in Hs at 1. rewrite !Forall_app in *. rewrite Forall_cons in Hs.
    rewrite Forall_singleton. tauto.
Qed.

Lemma moves_retire n i p p' :
  is_u32 (pc_max_unconfirmed cfg) -> 0 <= n -> retire i p = Some p' -> moves n [] n [] p p'.
Proof.
  intros Hmax Hn. unfold retire. destruct (p_retired p !! i) as [m|] eqn:E; [|done]. intros [= <-].
  apply delete_lookup_perm in E. split; [|done]. intros [Hl Hp Hk Hs Hd]. split; try done.
  unfold permits in *. apply perm_lenZ in E. simpl in *.
  rewrite wrap_small by (unfold is_uint in *; lenZ_lia). lenZ_lia.
Qed.

(** *** Stopping *)

Definition fail_pairs (code : Z) (l : list (Z * AccumulatedMessage)) :
  list (AccumulatedMessage * ConfirmationStatus) :=
  map (fun im => (im.2, status_of im.2 im.1 false code)) l.

Definition settle (l : list (AccumulatedMessage * ConfirmationStatus)) (p : PS) : PS :=
  set_settled (p_settled p ++ l) (set_retired (p_retired p ++ l.*1) p).

Lemma fail_pairs_run code l p :
  st_iter (fun im => fail_message code im.1 im.2) l p = (Val tt, settle (fail_pairs code l) p).
Proof.
  revert p. induction l as [|[id m] l IH]; intros p; simpl.
  - unfold settle. destruct p. simpl. now rewrite !app_nil_r.
  - unfold mbind, ST_bind, fail_message at 1, st_modify. rewrite IH. unfold settle. destruct p. simpl.
    now rewrite <- !app_assoc.
Qed.

Lemma fail_messages_run code ms p :
  st_iter (fun m => fail_message code (am_publishing_id m) m) ms p =
  (Val tt, settle (fail_pairs code (map (fun m => (am_publishing_id m, m)) ms)) p).
Proof.
  rewrite <- fail_pairs_run. revert p. induction ms as [|m ms IH]; intros p; simpl; [done|].
  unfold mbind, ST_bind, fail_message at 1 3, st_modify. apply IH.
Qed.

(** What [fail_all_unconfirmed] settles. *)
Definition failed_pairs (code : Z) (p : PS) : list (AccumulatedMessage * ConfirmationStatus) :=
  fail_pairs code (map_to_list (p_unconfirmed p)) ++
  fail_pairs code (map (fun m => (am_publishing_id m, m)) (m_pending (p_accumulator p))).

Lemma fail_all_run code p :
  fail_all_unconfirmed code p =
  (Val tt, settle (failed_pairs code p)
             (set_accumulator (with_pending [] (p_accumulator p)) (set_unconfirmed ∅ p))).
Proof.
  unfold fail_all_unconfirmed. unfold mbind at 1, ST_bind at 1. simpl.
  rewrite (ST_bind_Val _ _ _ _ _ (fail_pairs_run _ _ _)).
  unfold mbind, ST_bind. simpl. rewrite fail_messages_run. unfold settle, failed_pairs. destruct p. simpl.
  now rewrite fmap_app, !app_assoc.
Qed.

Lemma fail_pairs_fst code l : (fail_pairs code l).*1 = l.*2.
Proof. induction l as [|x l IH]; [done|]. simpl. f_equal. exact IH. Qed.

Lemma failed_pairs_fst code p :
  (failed_pairs code p).*1 = values (p_unconfirmed p) ++ m_pending (p_accumulator p).
Proof.
  unfold failed_pairs. rewrite fmap_app, !fail_pairs_fst. unfold values. f_equal.
  induction (m_pending (p_accumulator p)) as [|m l IH]; [done|]. simpl. f_equal. exact IH.
Qed.

Lemma failed_pairs_status code p (q : PS) :
  keyed p -> Forall (status_ok q) (failed_pairs code p).
Proof.
  intros Hk. unfold failed_pairs, fail_pairs. rewrite Forall_app, !Forall_map. split.
  - rewrite Forall_forall. intros [id m] Hin. apply elem_of_map_to_list in Hin. apply Hk in Hin.
    split; [done|]. now split.
  - apply Forall_true. now intros m.
Qed.

Lemma moves_fail_all n code p : moves n [] n [] p (fail_all_unconfirmed code p).2.
Proof.
  rewrite fail_all_run. simpl. split; [|split; [done|]].
  - intros [Hl Hp Hk Hs Hd]. pose proof (failed_pairs_fst code p) as Ef. split; try done.
    + unfold ledger in *. simpl. rewrite fmap_app, Ef, Hl. solve_Permutation.
    + unfold permits in *. simpl. rewrite Ef. change (lenZ (values ∅)) with 0. lenZ_lia.
    + unfold statuses in *. simpl. rewrite !Forall_app in *. destruct Hs. repeat split; try done.
      now apply failed_pairs_status.
  - intros (H1 & H2 & H3 & H4). done.
Qed.

Lemma fail_all_frozen code p : down p -> closed p -> frozen (fail_all_unconfirmed code p).2.
Proof. intros H1 H2. now rewrite fail_all_run. Qed.

End producer_quiet.

(** ** The invariant of the system *)

Section producer_invariant.
Context {W : Type} `{ClientWorld W} {C : Type} `{Codec C}.
Context (cfg : ProducerConfig) (codec : C).
Abbreviation PS := (@PState W).
Implicit Types p : (@PState W).

Definition held_by (pc : send_pc) : Z :=
  match pc with SendPrepare _ _ _ | SendCommit _ => 1 | _ => 0 end.

Definition held_sends (sends : list send_pc) : Z := foldr (fun pc n => held_by pc + n) 0 sends.

Lemma held_sends_app l k : held_sends (l ++ k) = held_sends l + held_sends k.
Proof. induction l; simpl; lia. Qed.

Lemma held_sends_insert l i pc pc' :
  l !! i = Some pc -> held_sends (<[i := pc']> l) = held_sends l - held_by pc + held_by pc'.
Proof.
  revert i. induction l as [|x l IH]; intros [|i] E; simpl in *; try done.
  - injection E as ->. lia.
  - rewrite (IH i E). lia.
Qed.

Lemma held_by_range pc : 0 <= held_by pc <= 1.
Proof. destruct pc; simpl; lia. Qed.

Lemma held_sends_ge l i pc : l !! i = Some pc -> held_by pc <= held_sends l.
Proof.
  assert (forall k, 0 <= held_sends k) as Hn.
  { induction k as [|x k IH]; simpl; [lia|]. pose proof (held_by_range x). lia. }
  revert i. induction l as [|x l IH]; intros [|i] E; simpl in *; try done.
  - injection E as ->. specialize (Hn l). lia.
  - specialize (IH i E). pose proof (held_by_range x). lia.
Qed.

Lemma held_sends_nonneg l : 0 <= held_sends l.
Proof. induction l as [|x k IH]; simpl; [lia|]. pose proof (held_by_range x). lia. Qed.

Lemma moves_release n p :
  is_u32 (pc_max_unconfirmed cfg) -> 1 <= n ->
  moves cfg n [] (n - 1) [] p (set_semaphore (release (p_semaphore p)) p).
Proof.
  intros Hmax Hn. split; [|done]. intros [Hl Hp Hk Hs Hd]. split; try done.
  unfold permits in *. simpl. rewrite wrap_small by (unfold is_uint in *; lenZ_lia). lenZ_lia.
Qed.

Lemma moves_take_permit n p :
  is_u32 (pc_max_unconfirmed cfg) -> 0 <= n -> 0 < m_available (p_semaphore p) ->
  moves cfg n [] (n + 1) [] p (set_semaphore (take_permit (p_semaphore p)) p).
Proof.
  intros Hmax Hn Hpos. split; [|done]. intros [Hl Hp Hk Hs Hd]. split; try done.
  unfold permits in *. simpl. rewrite wrap_small by (unfold is_uint in *; lenZ_lia). lenZ_lia.
Qed.

Lemma moves_acquire n expired p r p' :
  is_u32 (pc_max_unconfirmed cfg) -> 0 <= n -> send_acquire cfg expired p = Some (r, p') ->
  moves cfg n [] (if is_val r then n + 1 else n) [] p p'.
Proof.
  intros Hmax Hn. unfold send_acquire. destruct (_ =? 0).
  - destruct (acquire (p_semaphore p)) as [[r' s]|] eqn:E; [|done]. intros [= <- <-].
    apply acquire_inv in E as [[-> ->]|(-> & Hpos & ->)]; simpl; [now apply quiet_moves|].
    now apply moves_take_permit.
  - destruct (try_acquire_for expired (p_semaphore p)) as [[r' s]|] eqn:E; [|done]. intros [= <- <-].
    apply try_acquire_for_inv in E as [[Hr ->]|(-> & Hpos & ->)]; simpl; [|now apply moves_take_permit].
    destruct r' as [[[]|]|e]; simpl; [done|now apply quiet_moves|now apply quiet_moves].
Qed.

Lemma moves_commit n m p r p' :
  is_u32 (pc_max_unconfirmed cfg) -> 1 <= n -> send_commit m p = Some (r, p') ->
  moves cfg n [] (n - 1) [] p p'.
Proof.
  intros Hmax Hn. unfold send_commit. destruct (add_commit m (p_accumulator p)) as [[r' a]|] eqn:E; [|done].
  apply add_commit_inv in E as [(-> & -> & _)|(-> & -> & Hlt & Hopen)]; intros [= <- <-].
  - now apply moves_release.
  - split; [|split].
    + intros [Hl Hp Hk Hs Hd]. split; try done.
      * unfold ledger in *. simpl. rewrite Hl. solve_Permutation.
      * unfold permits in *. simpl. lenZ_lia.
      * intros Hdrop Hnd. apply (Hd Hdrop). simpl in Hnd. rewrite map_app in Hnd.
        now apply NoDup_app in Hnd as [Hnd _].
    + done.
    + intros (_ & Hc & _). unfold closed in Hc. congruence.
Qed.

Lemma moves_send_step n now expired pc p pc' p' :
  is_u32 (pc_max_unconfirmed cfg) -> held_by pc <= n -> 0 <= n ->
  send_step cfg codec now expired pc p = Some (pc', p') ->
  moves cfg n [] (n - held_by pc + held_by pc') [] p p'.
Proof.
  intros Hmax Hh Hn. destruct pc as [id msg h|id msg h|m| |r]; simpl in *; intros E; [| | | |done].
  - destruct (send_acquire cfg expired p) as [[r q]|] eqn:Ea; [|done]. injection E as <- <-.
    pose proof (moves_acquire n expired p r q Hmax Hn Ea) as M.
    destruct r; simpl in *; [replace (n - 0 + 1) with (n + 1) by lia | replace (n - 0 + 0) with n by lia]; done.
  - unfold send_prepare, mbind, ST_bind in E. simpl in E.
    destruct (add_prepare codec now id msg h (p_accumulator p)); injection E as <- <-; simpl.
    + replace (n - 1 + 1) with n by lia. now apply quiet_moves.
    + replace (n - 1 + 0) with (n - 1) by lia. now apply moves_release.
  - destruct (send_commit m p) as [[r q]|] eqn:Ea; [|done]. injection E as <- <-.
    apply (moves_commit n) in Ea; [|done|done].
    destruct r as [[]|]; simpl; now replace (n - 1 + 0) with (n - 1) by lia.
  - pose proof (moves_publish_batch cfg n p) as M. destruct (publish_batch cfg p) as [r q].
    injection E as <- <-. simpl. now replace (n - 0 + 0) with n by lia.
Qed.

Lemma moves_other n p p' :
  is_u32 (pc_max_unconfirmed cfg) -> 0 <= n -> other_step cfg p p' -> moves cfg n [] n [] p p'.
Proof.
  intros Hmax Hn Hstep. destruct Hstep.
  - apply quiet_op_moves, quiet_start_begin.
  - apply quiet_op_moves, quiet_start_connect.
  - apply quiet_op_moves, quiet_start_finish.
  - apply moves_publish_batch.
  - apply moves_confirm.
  - now apply moves_take.
  - apply moves_collect.
  - apply quiet_op_moves, quiet_task_call.
  - eapply moves_deliver; eassumption.
  - eapply moves_retire; eassumption.
  - apply quiet_op_moves, quiet_metadata.
  - apply quiet_op_moves, quiet_shutdown.
  - apply quiet_op_moves, quiet_delayed_take.
  - apply quiet_op_moves, quiet_delayed_stop.
  - apply quiet_op_moves, quiet_onW.
  - apply quiet_op_moves, quiet_reconnect_connect.
  - apply quiet_op_moves, quiet_reconnect_resend.
  - apply quiet_op_moves, quiet_reconnect_failed.
  - now apply quiet_moves.
Qed.

(** What the progress of a stop has established. *)
Definition stop_cond (pc : stop_pc) (p : PS) : Prop :=
  match pc with
  | StopAccumulator _ => down p
  | StopSemaphore _ | StopTake _ | StopClient _ _ | StopFail _ => down p /\ closed p
  | _ => True
  end.

Lemma stop_cond_later pc p p' : later p p' -> stop_cond pc p -> stop_cond pc p'.
Proof. intros [L1 L2]. destruct pc; simpl; tauto. Qed.

Lemma moves_stop_step n pc p pc' p' :
  stop_step pc p = Some (pc', p') ->
  moves cfg n [] n [] p p' /\ (stop_cond pc p -> stop_cond pc' p') /\
  (stop_cond pc p -> is_fail pc = true -> frozen p').
Proof.
  intros E. destruct pc as [code|code|code|code|code|code client|code| |r]; cbn [stop_step] in E.
  - injection E as <- <-. split; [now apply quiet_moves | done].
  - injection E as <- <-. split; [now apply quiet_moves|]. split; [|done]. intros _.
    now destruct (negb _).
  - injection E as <- <-. split; [now apply quiet_moves | done].
  - injection E as <- <-. split; [now apply quiet_moves | done].
  - injection E as <- <-. split; [now apply quiet_moves | done].
  - pose proof (quiet_stop_client client p) as Hq. destruct (stop_client client p) as [r q].
    injection E as <- <-. split; [now apply quiet_moves|]. split; [|done]. intros Hc.
    destruct r; [|done]. apply (stop_cond_later (StopFail code) p); [apply Hq | done].
  - injection E as <- <-. split; [exact (moves_fail_all cfg n code p)|]. split; [done|].
    intros [Hd Hc] _. exact (fail_all_frozen code p Hd Hc).
  - destruct (onW cw_unregister_producer p) as [r q] eqn:Eq. injection E as <- <-.
    pose proof (quiet_onW cw_unregister_producer p) as Hq. rewrite Eq in Hq.
    split; [now apply quiet_moves | done].
  - done.
Qed.

Record sys_inv (s : psys) : Prop := MkSysInv {
  sys_accounts : pinv cfg (held_sends (sys_sends s)) [] (sys_p s);
  sys_stopping : Forall (fun pc => stop_cond pc (sys_p s)) (sys_stops s);
  sys_frozen : sys_failed s = true -> frozen (sys_p s)
}.

Lemma sys_inv_init w : 0 <= pc_max_unconfirmed cfg -> sys_inv (initial cfg w).
Proof.
  intros Hm. split; [|constructor|done]. split; try done.
  - unfold ledger. reflexivity.
  - unfold permits. simpl. change (lenZ (values ∅)) with 0. lenZ_lia.
  - constructor.
  - intros Hd. now destruct Hd.
Qed.

Lemma sys_inv_moves s p' sends' :
  sys_inv s -> moves cfg (held_sends (sys_sends s)) [] (held_sends sends') [] (sys_p s) p' ->
  sys_inv (MkPsys p' sends' (sys_stops s) (sys_failed s)).
Proof.
  intros [Ha Hs Hf] (M & L & F). split; simpl; [auto| |auto].
  eapply Forall_impl; [exact Hs|]. intros pc. now apply stop_cond_later.
Qed.

Lemma sys_inv_step s s' :
  is_u32 (pc_max_unconfirmed cfg) -> sys_inv s -> pstep cfg codec s s' -> sys_inv s'.
Proof.
  intros Hmax Hi Hstep. pose proof (held_sends_nonneg (sys_sends s)) as Hn. destruct Hstep; simpl in *.
  - apply (sys_inv_moves _ p (sends ++ _) Hi). simpl. rewrite held_sends_app. unfold send_call.
    destruct (send_check p) as [[]]; simpl; rewrite Z.add_0_r; now apply quiet_moves.
  - apply (sys_inv_moves _ p' (sends ++ _) Hi). simpl. rewrite held_sends_app. unfold send_call.
    pose proof (quiet_next_id p) as Hq. rewrite H1 in Hq.
    destruct (send_check p') as [[]]; simpl; rewrite Z.add_0_r; now apply quiet_moves.
  - apply (sys_inv_moves _ p' (<[i := pc']> sends) Hi). simpl. rewrite (held_sends_insert _ _ _ _ H1).
    eapply moves_send_step; [done| |done|eassumption]. now apply (held_sends_ge _ i).
  - destruct Hi as [Ha Hs Hf]. split; try done. simpl in *. apply Forall_app. split; [done|].
    now constructor.
  - destruct (moves_stop_step (held_sends sends) _ _ _ _ H2) as ((M & L & F) & Hc & Hfail).
    destruct Hi as [Ha Hs Hf]. simpl in *.
    assert (stop_cond pc p) as Hpc by (rewrite Forall_lookup in Hs; eauto).
    split; simpl; [auto| |].
    + apply Forall_insert; [|auto]. eapply Forall_impl; [exact Hs|]. intros pc0. now apply stop_cond_later.
    + intros Hor. apply orb_prop in Hor as [Hor|Hor]; auto.
  - apply (sys_inv_moves _ p' sends Hi). simpl. now apply moves_other.
Qed.

Lemma sys_inv_reachable w s : is_u32 (pc_max_unconfirmed cfg) -> reachable cfg codec w s -> sys_inv s.
Proof.
  intros Hmax Hr. assert (sys_inv (initial cfg w)) as Hi by (apply sys_inv_init; unfold is_uint in Hmax; lia).
  induction Hr; [done|]. apply IHHr. eapply sys_inv_step; eassumption.
Qed.

End producer_invariant.

(** ** Running the system *)

(** The steps, named so that a schedule can be evaluated. *)
Inductive event :=
| EvSend (id : Z) (msg : Message) (handler : option nat)
| EvSendNext (msg : Message) (handler : option nat)
| EvSending (i : nat) (now : Z) (expired : bool)
| EvStop (code : Z)
| EvStopping (i : nat)
| EvStart
| EvPublish
| EvConfirm (id : Z)
| EvError (id code : Z)
| EvTimeout (now : Z)
| EvDeliver (i : nat)
| EvRetire (i : nat).

Section producer_run.
Context {W : Type} `{ClientWorld W} {C : Type} `{Codec C}.
Context (cfg : ProducerConfig) (codec : C).

Definition with_p (s : @psys W) (p : @PState W) : psys :=
  MkPsys p (sys_sends s) (sys_stops s) (sys_failed s).

Definition exec (ev : event) (s : psys) : option psys :=
  let p := sys_p s in
  match ev with
  | EvSend id msg handler =>
      Some (MkPsys p (sys_sends s ++ [send_call id msg handler p]) (sys_stops s) (sys_failed s))
  | EvSendNext msg handler =>
      match next_publishing_id p with
      | (Val id, p') =>
          Some (MkPsys p' (sys_sends s ++ [send_call id msg handler p']) (sys_stops s) (sys_failed s))
      | (Throw _, _) => None
      end
  | EvSending i now expired =>
      pc ← sys_sends s !! i;
      '(pc', p') ← send_step cfg codec now expired pc p;
      Some (MkPsys p' (<[i := pc']> (sys_sends s)) (sys_stops s) (sys_failed s))
  | EvStop code => Some (MkPsys p (sys_sends s) (sys_stops s ++ [StopTasks code]) (sys_failed s))
  | EvStopping i =>
      pc ← sys_stops s !! i;
      '(pc', p') ← stop_step pc p;
      Some (MkPsys p' (sys_sends s) (<[i := pc']> (sys_stops s)) (sys_failed s || is_fail pc))
  | EvStart => Some (with_p s (start_finish (start_connect cfg (start_begin p).2).2).2)
  | EvPublish => Some (with_p s (publish_batch cfg p).2)
  | EvConfirm id => Some (with_p s (handle_publish_confirm id p).2)
  | EvError id code => Some (with_p s (handle_publish_error id code p).2)
  | EvTimeout now => Some (with_p s (collect_timed_out cfg now p).2)
  | EvDeliver i => p' ← deliver i p; Some (with_p s p')
  | EvRetire i => p' ← retire i p; Some (with_p s p')
  end.

Fixpoint exec_all (evs : list event) (s : psys) : option psys :=
  match evs with
  | [] => Some s
  | ev :: evs => s' ← exec ev s; exec_all evs s'
  end.

Lemma exec_steps ev s s' : exec ev s = Some s' -> rtc (pstep cfg codec) s s'.
Proof.
  destruct s as [p sends stops f]. unfold with_p.
  destruct ev; cbn [exec sys_p sys_sends sys_stops sys_failed]; intros E.
  - injection E as <-. apply rtc_once. constructor.
  - destruct (next_publishing_id p) as [[id|] p'] eqn:En; [|done]. injection E as <-.
    apply rtc_once. now constructor.
  - destruct (sends !! i) as [pc|] eqn:Ei; [|done]. simpl in E.
    destruct (send_step cfg codec now expired pc p) as [[pc' p']|] eqn:Es; [|done]. injection E as <-.
    apply rtc_once. econstructor; eassumption.
  - injection E as <-. apply rtc_once. constructor.
  - destruct (stops !! i) as [pc|] eqn:Ei; [|done]. simpl in E.
    destruct (stop_step pc p) as [[pc' p']|] eqn:Es; [|done]. injection E as <-.
    apply rtc_once. econstructor; eassumption.
  - apply (inj Some) in E. subst s'.
    eapply rtc_l; [apply step_other, other_start_begin|].
    eapply rtc_l; [apply step_other, other_start_connect|]. apply rtc_once, step_other, other_start_finish.
  - apply (inj Some) in E. subst s'. apply rtc_once, step_other, other_publish.
  - apply (inj Some) in E. subst s'. apply rtc_once, step_other, other_confirm.
  - apply (inj Some) in E. subst s'. apply rtc_once, step_other, other_error.
  - apply (inj Some) in E. subst s'. apply rtc_once, step_other, other_timeout.
  - destruct (deliver i p) as [p'|] eqn:Ed; [|done]. injection E as <-.
    apply rtc_once, step_other. eapply other_deliver; eassumption.
  - destruct (retire i p) as [p'|] eqn:Ed; [|done]. injection E as <-.
    apply rtc_once, step_other. eapply other_retire; eassumption.
Qed.

Lemma exec_all_steps evs s s' : exec_all evs s = Some s' -> rtc (pstep cfg codec) s s'.
Proof.
  revert s. induction evs as [|ev evs IH]; intros s E; simpl in E; [injection E as ->; constructor|].
  destruct (exec ev s) as [s1|] eqn:E1; [|done]. transitivity s1; [now apply (exec_steps ev) | now apply IH].
Qed.

End producer_run.

(** A world in which every call succeeds and publications are recorded. *)
#[export, refine] Instance log_world : ClientWorld (list (list PublishMessage)) := {|
  cw_register_producer := mret tt;
  cw_unregister_producer := mret tt;
  cw_get_producer_client _ := mret 0%nat;
  cw_start _ := mret tt;
  cw_stop _ := mret tt;
  cw_max_frame_size _ _ := 1048576;
  cw_query_publisher_sequence _ _ _ := mret None;
  cw_declare_publisher _ _ _ _ := mret tt;
  cw_delete_publisher _ _ := mret tt;
  cw_publish_encoded _ _ ms := st_modify (fun log => log ++ [ms]);
  cw_changes _ _ := True
|}.
Proof. done. Defined.

Definition example_config : ProducerConfig := MkProducerConfig "app" "invoices" 2 0 3 30000 0 5000.

(** Two messages fill a batch, one is confirmed, a third waits in the
    accumulator, and the producer stops. *)
Definition example_events : list event :=
  let hello := MkMessage [x68; x69] [] in
  [EvStart; EvSendNext hello (Some 1%nat); EvSendNext hello None; EvSending 0 10 false; EvSending 1 10 false;
   EvSending 0 11 false; EvSending 1 12 false; EvSending 1 13 false; EvSending 0 14 false;
   EvSending 0 15 false; EvConfirm 0; EvDeliver 0; EvRetire 0;
   EvSendNext hello (Some 2%nat); EvSending 2 16 false; EvSending 2 16 false; EvSending 2 16 false;
   EvStop (pec_value ProducerStopped); EvStopping 0; EvStopping 0; EvStopping 0; EvStopping 0;
   EvStopping 0; EvStopping 0; EvStopping 0].

Definition example_run : option (@psys (list (list PublishMessage))) :=
  exec_all example_config MkRawCodec example_events (initial example_config []).

Definition example_state : psys := default (initial example_config []) example_run.

Lemma example_reachable : reachable example_config MkRawCodec [] example_state.
Proof. apply (exec_all_steps _ _ example_events). vm_compute. reflexivity. Qed.

(** ** What the producer guarantees *)

Section producer_guarantees.
Context {W : Type} `{ClientWorld W} {C : Type} `{Codec C}.
Context (cfg : ProducerConfig) (codec : C).

(** C2: no message is lost or duplicated: in every reachable state, whatever
    threads, listeners and tasks have done, the messages that [send] accepted
    are exactly those waiting in the accumulator, those unconfirmed, those
    whose handler is about to be called, those settled with a status, and those
    dropped because their publishing id was taken. *)
Theorem producer_ledger w s :
  is_u32 (pc_max_unconfirmed cfg) -> reachable cfg codec w s ->
  let p := sys_p s in
  p_accepted p ≡ₚ m_pending (p_accumulator p) ++ values (p_unconfirmed p)
                ++ (p_delivering p).*1 ++ (p_settled p).*1 ++ p_dropped p.
Proof. intros Hmax Hr. apply (pinv_ledger _ _ _ _ (sys_accounts _ _ (sys_inv_reachable _ _ _ _ Hmax Hr))). Qed.

(** C7: the limit on unconfirmed messages holds: the available permits, those
    of the running [send]s and those of the live messages add up to
    [max_unconfirmed] in every reachable state; so at most that many messages
    are unconfirmed, and once every message has been destroyed and no [send] is
    running, all permits are available again. *)
Theorem producer_backpressure w s :
  is_u32 (pc_max_unconfirmed cfg) -> reachable cfg codec w s ->
  let p := sys_p s in
  0 <= m_available (p_semaphore p) /\
  m_available (p_semaphore p) + held_sends (sys_sends s) + lenZ (m_pending (p_accumulator p))
    + lenZ (values (p_unconfirmed p)) + lenZ (p_delivering p) + lenZ (p_retired p)
  = pc_max_unconfirmed cfg.
Proof.
  intros Hmax Hr. pose proof (pinv_permits _ _ _ _ (sys_accounts _ _ (sys_inv_reachable _ _ _ _ Hmax Hr))) as Hp.
  unfold permits in Hp. change (lenZ (@nil AccumulatedMessage)) with 0 in Hp. rewrite Z.add_0_r in Hp. exact Hp.
Qed.

(** C3: exactly-once notification: when a stop has failed what was left and
    the pending handler calls are done, then, provided publishing ids were
    distinct, every message that [send] accepted has been settled exactly
    once, and none waits in the producer. *)
Theorem producer_stop_settles w s :
  is_u32 (pc_max_unconfirmed cfg) -> reachable cfg codec w s ->
  sys_failed s = true -> p_delivering (sys_p s) = [] ->
  NoDup (map am_publishing_id (p_accepted (sys_p s))) ->
  (p_settled (sys_p s)).*1 ≡ₚ p_accepted (sys_p s) /\
  m_pending (p_accumulator (sys_p s)) = [] /\ p_unconfirmed (sys_p s) = ∅.
Proof.
  intros Hmax Hr Hf Hdel Hnd. destruct (sys_inv_reachable _ _ _ _ Hmax Hr) as [[Hl _ _ _ Hd] _ Hfr].
  destruct (Hfr Hf) as (_ & _ & Hp & Hu). split; [|done].
  assert (p_dropped (sys_p s) = []) as Hdrop.
  { destruct (p_dropped (sys_p s)) eqn:E; [done|]. exfalso. apply Hd; [|done]. now rewrite E. }
  unfold ledger in Hl. rewrite Hp, Hu, Hdel, Hdrop in Hl. rewrite Hl. simpl. now rewrite app_nil_r.
Qed.

(** Notifications are truthful: every status passed to a handler carries
    the publishing id and the message of the [send] it answers, and reports the
    message as confirmed, with code [Ok], only if the broker confirmed that
    publishing id. *)
Theorem producer_status_truthful w s m st :
  is_u32 (pc_max_unconfirmed cfg) -> reachable cfg codec w s -> (m, st) ∈ p_settled (sys_p s) ->
  cs_publishing_id st = am_publishing_id m /\ cs_message st = am_message m /\
  (cs_confirmed st = true ->
     cs_status_code st = rc_value Ok /\ am_publishing_id m ∈ p_confirms (sys_p s)).
Proof.
  intros Hmax Hr Hin. destruct (sys_inv_reachable _ _ _ _ Hmax Hr) as [[_ _ _ Hs _] _ _].
  unfold statuses in Hs. rewrite Forall_app in Hs. destruct Hs as [_ Hs]. rewrite Forall_forall in Hs.
  apply (Hs _ Hin).
Qed.

End producer_guarantees.

Lemma producer_ledger_witness :
  p_accepted (sys_p example_state) ≡ₚ
    m_pending (p_accumulator (sys_p example_state)) ++ values (p_unconfirmed (sys_p example_state))
    ++ (p_delivering (sys_p example_state)).*1 ++ (p_settled (sys_p example_state)).*1
    ++ p_dropped (sys_p example_state).
Proof.
  apply (producer_ledger example_config MkRawCodec []);
    [vm_compute; split; congruence | apply example_reachable].
Defined.

Lemma producer_backpressure_witness :
  0 <= m_available (p_semaphore (sys_p example_state)) /\
  m_available (p_semaphore (sys_p example_state)) + held_sends (sys_sends example_state)
    + lenZ (m_pending (p_accumulator (sys_p example_state)))
    + lenZ (values (p_unconfirmed (sys_p example_state)))
    + lenZ (p_delivering (sys_p example_state)) + lenZ (p_retired (sys_p example_state)) = 3.
Proof.
  apply (producer_backpressure example_config MkRawCodec []);
    [vm_compute; split; congruence | apply example_reachable].
Defined.

Lemma producer_stop_settles_witness :
  (p_settled (sys_p example_state)).*1 ≡ₚ p_accepted (sys_p example_state) /\
  m_pending (p_accumulator (sys_p example_state)) = [] /\ p_unconfirmed (sys_p example_state) = ∅.
Proof.
  apply (producer_stop_settles example_config MkRawCodec []);
    [vm_compute; split; congruence | apply example_reachable | vm_compute; reflexivity
    | vm_compute; reflexivity | apply (bool_decide_unpack _); vm_compute; exact I].
Defined.

Lemma producer_status_truthful_witness :
  exists m st, (m, st) ∈ p_settled (sys_p example_state) /\ cs_confirmed st = true /\
  cs_publishing_id st = am_publishing_id m /\ cs_message st = am_message m /\
  (cs_confirmed st = true ->
     cs_status_code st = rc_value Ok /\ am_publishing_id m ∈ p_confirms (sys_p example_state)).
Proof.
  destruct (p_settled (sys_p example_state)) as [|[m st] l] eqn:E; [vm_compute in E; discriminate|].
  exists m, st. split; [left|]. split.
  - vm_compute in E. now injection E as <- <- _.
  - apply (producer_status_truthful example_config MkRawCodec []);
      [vm_compute; split; congruence | apply example_reachable | rewrite E; left].
Defined.
