(* ===== verification/ProducerRecovery.v ===== *)
(** * Resending, timing out and sending

    The behaviour of the producer's operations run one at a time: what a
    reconnection publishes, which messages a timeout check fails, what [send]
    does on each of its branches; and two runs on which the accounts of
    [ProducerSystem] show a message that is not handled as documented. *)

From S2P Require Import Prelude Words OrdMap Types BinaryBuffer ClientCommands Messages Semaphore Accumulator Producer ProducerSystem.

Section producer_recovery.
Context {W : Type} `{ClientWorld W} {C : Type} `{Codec C}.
Context (cfg : ProducerConfig) (codec : C).
Implicit Types p : (@PState W).

(** ** Resending *)

Definition resent (sorted : omap Z AccumulatedMessage) : list PublishMessage :=
  map (fun im => MkPublishMessage im.1 (am_encoded_message im.2)) sorted.

Definition publish_all (c : nat) (batches : list (list PublishMessage)) : ST PState exn unit :=
  st_iter (fun b => onW (cw_publish_encoded c publisher_id b)) batches.

Definition batch_ok (b : list PublishMessage) : Prop := 0 < lenZ b <= pc_batch_size cfg.

Lemma resend_batches c sorted batch :
  lenZ batch < pc_batch_size cfg ->
  exists batches, concat batches = batch ++ resent sorted /\ Forall batch_ok batches /\
    forall p, resend cfg c sorted batch p = publish_all c batches p.
Proof.
  revert batch. induction sorted as [|[id m] sorted IH]; intros batch Hb; simpl.
  - destruct (bool_decide_reflect (batch = [])) as [->|Hne].
    + exists []. done.
    + exists [batch]. simpl. split; [done|]. split.
      * constructor; [|constructor]. unfold batch_ok. destruct batch; [done|]. lenZ_lia.
      * intros p. unfold publish_all. simpl. unfold mbind, ST_bind.
        destruct (onW _ p) as [[[]|] ?]; done.
  - set (x := MkPublishMessage id (am_encoded_message m)).
    destruct (Z.eqb_spec (lenZ (batch ++ [x])) (pc_batch_size cfg)) as [E|Hne].
    + destruct (IH [] ltac:(lenZ_lia)) as (bs & Ec & Hbs & Hr). exists ((batch ++ [x]) :: bs). simpl.
      split; [rewrite Ec; simpl; now rewrite <- app_assoc|]. split.
      * constructor; [|done]. unfold batch_ok. lenZ_lia.
      * intros p. unfold publish_all. simpl. unfold mbind, ST_bind.
        destruct (onW _ p) as [[[]|] q]; [apply Hr | done].
    + destruct (IH (batch ++ [x]) ltac:(lenZ_lia)) as (bs & Ec & Hbs & Hr). exists bs.
      split; [rewrite Ec, <- app_assoc; done|]. done.
Qed.

(** C32: a reconnection publishes again exactly the unconfirmed messages, each
    once and in increasing order of publishing id, in non-empty batches of at
    most the batch size; only when all of them are accepted does the producer
    switch to the new client. *)
Theorem reconnect_resends c p :
  0 < pc_batch_size cfg -> p_status p = Started ->
  exists batches,
    concat batches = resent (sorted_unconfirmed p) /\ Forall batch_ok batches /\
    om_sorted (sorted_unconfirmed p) /\
    (forall id m, (id, m) ∈ sorted_unconfirmed p <-> p_unconfirmed p !! id = Some m) /\
    reconnect_resend cfg c p = (publish_all c batches ;; st_modify (set_client (Some c))) p.
Proof.
  intros Hb Hs. destruct (resend_batches c (sorted_unconfirmed p) []) as (bs & Ec & Hbs & Hr).
  { lenZ_lia. }
  exists bs. split; [done|]. split; [done|]. split; [apply sorted_unconfirmed_sorted|]. split.
  - intros id m. apply elem_of_sorted_unconfirmed.
  - unfold reconnect_resend. unfold mbind at 1, ST_bind at 1. simpl. rewrite bool_decide_true by done. simpl.
    unfold mbind, ST_bind. now rewrite Hr.
Qed.

(** ** Timeouts *)

Definition timed_out (threshold : Z) (m : AccumulatedMessage) : Prop := am_publish_time m <= threshold.

(** Messages with larger publishing ids were not sent earlier, as for the ids
    that the producer assigns. *)
Definition chronological (p : @PState W) : Prop :=
  forall id1 m1 id2 m2,
    p_unconfirmed p !! id1 = Some m1 -> p_unconfirmed p !! id2 = Some m2 ->
    id1 < id2 -> am_publish_time m1 <= am_publish_time m2.

Lemma timed_out_prefix_sound threshold sorted im :
  im ∈ timed_out_prefix threshold sorted -> im ∈ sorted /\ timed_out threshold im.2.
Proof.
  unfold timed_out. induction sorted as [|[id m] sorted IH]; simpl; [inversion 1|].
  destruct (Z.ltb_spec threshold (am_publish_time m)); [inversion 1|].
  rewrite !elem_of_cons. intros [->|Hin]; [auto|]. destruct (IH Hin). auto.
Qed.

Lemma timed_out_prefix_complete threshold sorted im :
  StronglySorted (fun a b => am_publish_time a.2 <= am_publish_time b.2) sorted ->
  im ∈ sorted -> timed_out threshold im.2 -> im ∈ timed_out_prefix threshold sorted.
Proof.
  unfold timed_out. induction 1 as [|[id m] sorted Hs IH Hall]; simpl; [inversion 1|].
  rewrite elem_of_cons. intros [->|Hin] Ht; simpl in *.
  - destruct (Z.ltb_spec threshold (am_publish_time m)); [lia | left].
  - rewrite Forall_forall in Hall. specialize (Hall _ Hin). simpl in Hall.
    destruct (Z.ltb_spec threshold (am_publish_time m)); [lia|]. right. auto.
Qed.

Lemma sorted_by_time p :
  chronological p ->
  StronglySorted (fun a b => am_publish_time a.2 <= am_publish_time b.2) (sorted_unconfirmed p).
Proof.
  intros Hc. assert (forall id m, (id, m) ∈ sorted_unconfirmed p -> p_unconfirmed p !! id = Some m) as Hin.
  { intros id m. apply elem_of_sorted_unconfirmed. }
  pose proof (sorted_unconfirmed_sorted p) as Hs. unfold om_sorted in Hs.
  induction Hs as [|[id m] l Hs IH Hall]; [constructor|]. constructor.
  - apply IH. intros id' m' Hi. apply Hin. now right.
  - rewrite Forall_forall in *. intros [id' m'] Hi. simpl. specialize (Hall _ Hi). simpl in Hall.
    apply (Hc id m id' m'); [apply Hin; left | apply Hin; now right | lia].
Qed.

Lemma lookup_fold_delete (l : omap Z AccumulatedMessage) (u : gmap Z AccumulatedMessage) id m :
  (forall im, im ∈ l -> u !! im.1 = Some im.2) ->
  fold_left (fun u im => delete im.1 u) l u !! id = Some m <-> u !! id = Some m /\ (id, m) ∉ l.
Proof.
  revert u. induction l as [|[id' m'] l IH]; intros u Hl; simpl.
  - split; [intros E; split; [done | inversion 1] | tauto].
  - pose proof (Hl (id', m') ltac:(left)) as E'. simpl in E'.
    destruct (decide (id' ∈ l.*1)) as [Hin|Hnin].
    + apply list_elem_of_fmap in Hin as ([k v] & Ek & Hin). simpl in Ek. subst k.
      pose proof (Hl (id', v) ltac:(now right)) as Ev. simpl in Ev. assert (v = m') as -> by congruence.
      assert (fold_left (fun u im => delete im.1 u) l (delete id' u) =
              fold_left (fun u im => delete im.1 u) l u) as ->.
      { clear -Hin. revert u. induction l as [|[k v] l IH]; intros u; [inversion Hin|]. simpl.
        apply elem_of_cons in Hin as [[= <- <-]|Hin]; [now rewrite delete_delete_eq|].
        rewrite delete_delete. now apply IH. }
      rewrite IH by (intros im Hi; apply Hl; now right). rewrite not_elem_of_cons.
      split; intros [? ?]; split; try done; [split; [congruence | done]|tauto].
    + rewrite IH.
      * rewrite lookup_delete_Some, not_elem_of_cons. split; [intros [[? ?] ?] | intros [? [? ?]]].
        -- split; [done|]. split; [congruence | done].
        -- split; [|done]. split; [intros ->; congruence | done].
      * intros im Hi. rewrite lookup_delete_ne; [apply Hl; now right|]. intros ->.
        apply Hnin. now apply (list_elem_of_fmap_2 fst) in Hi.
Qed.

(** A timeout check fails exactly the messages that are too old: when
    publishing ids follow the order of publication, an unconfirmed message is
    still there afterwards if and only if it was sent less than the timeout
    ago; whatever the ids, only messages that are too old are failed. *)
Theorem collect_timed_out_exact now p :
  let p' := (collect_timed_out cfg now p).2 in
  let threshold := now - pc_confirm_timeout cfg in
  (forall id m, p_unconfirmed p' !! id = Some m -> p_unconfirmed p !! id = Some m) /\
  (forall id m, p_unconfirmed p !! id = Some m -> p_unconfirmed p' !! id = None -> timed_out threshold m) /\
  (chronological p -> forall id m,
     p_unconfirmed p' !! id = Some m <-> p_unconfirmed p !! id = Some m /\ ~ timed_out threshold m).
Proof.
  intros p' threshold. set (l := timed_out_prefix threshold (sorted_unconfirmed p)).
  assert (forall im, im ∈ l -> p_unconfirmed p !! im.1 = Some im.2 /\ timed_out threshold im.2) as Hl.
  { intros [id m] Hin. apply timed_out_prefix_sound in Hin as [Hin Ht]. split; [|done].
    now apply elem_of_sorted_unconfirmed. }
  assert (forall id m, p_unconfirmed p' !! id = Some m <-> p_unconfirmed p !! id = Some m /\ (id, m) ∉ l) as Hp'.
  { intros id m. change (p_unconfirmed p') with
      (fold_left (fun u im => delete im.1 u) l (p_unconfirmed p)).
    apply lookup_fold_delete. intros im Hi. now apply Hl. }
  split; [|split].
  - intros id m E. now apply Hp' in E as [E _].
  - intros id m E En. destruct (decide ((id, m) ∈ l)) as [Hin|Hnin]; [now apply Hl in Hin as [_ Ht]|].
    assert (p_unconfirmed p' !! id = Some m) by now apply Hp'. congruence.
  - intros Hc id m. rewrite Hp'. split; intros [E Hn]; split; try done.
    + intros Ht. apply Hn, timed_out_prefix_complete; [now apply sorted_by_time| |done].
      now apply elem_of_sorted_unconfirmed.
    + intros Hin. apply Hn. now apply Hl in Hin as [_ Ht].
Qed.

(** ** Sending *)

Lemma emplace_all_accepted ms p :
  p_accepted (fold_left (fun p m => emplaced m p) ms p) = p_accepted p.
Proof.
  revert p. induction ms as [|m ms IH]; intros p; simpl; [done|]. rewrite IH.
  unfold emplaced, emplace_unconfirmed. simpl. now destruct (p_unconfirmed p !! _).
Qed.

(** [publish_batch] reports no failure: what the client throws is caught. *)
Lemma publish_batch_returns p :
  (publish_batch cfg p).1 = Val tt /\ p_accepted (publish_batch cfg p).2 = p_accepted p.
Proof.
  destruct (publish_batch_run cfg p) as [[_ ->]|[_ [w ->]]]; [done|]. split; [done|]. simpl.
  transitivity (p_accepted (batched w p)); [|unfold batched; now rewrite emplace_all_accepted].
  unfold batch_rescheduled. now destruct (batch_publish_valid cfg).
Qed.

Lemma release_taken p :
  0 < m_available (p_semaphore p) <= UINT32_MAX ->
  set_semaphore (release (take_permit (p_semaphore p))) (set_semaphore (take_permit (p_semaphore p)) p) = p.
Proof.
  intros Ha. destruct p as [st nx acc [av de] un cl wo ta ac dl se re dr co]. simpl in *.
  unfold set_semaphore, release, take_permit. simpl. do 2 f_equal.
  unfold UINT32_MAX in Ha. rewrite (wrap_small 32 (av - 1)) by (unfold is_uint; lia).
  rewrite wrap_small by (unfold is_uint; lia). lia.
Qed.

Lemma send_acquire_inv expired p r p' :
  send_acquire cfg expired p = Some (r, p') ->
  match r with
  | Val _ => 0 < m_available (p_semaphore p) /\ p' = set_semaphore (take_permit (p_semaphore p)) p
  | Throw e => p' = p /\ (e = SEMAPHORE_DESTROYED \/
                 e = ProducerException MessageEnqueuingFailed "Enqueueing message timeout")
  end.
Proof.
  assert (set_semaphore (p_semaphore p) p = p) as Hid by now destruct p.
  unfold send_acquire. destruct (_ =? 0).
  - destruct (acquire (p_semaphore p)) as [[r' s]|] eqn:E; [|done]. intros [= <- <-].
    apply acquire_inv in E as [[-> ->]|(-> & Hpos & ->)]; auto.
  - destruct (try_acquire_for expired (p_semaphore p)) as [[r' s]|] eqn:E; [|done]. intros [= <- <-].
    pose proof E as E'. apply try_acquire_for_inv in E as [[Hr ->]|(-> & Hpos & ->)]; [|done].
    unfold try_acquire_for in E'. destruct r' as [[[]|]|e]; simpl; [done|auto|].
    destruct (_ || _); [|done]. destruct (sem_destroyed _); [injection E' as <-; auto|].
    destruct (negb _); discriminate.
Qed.

(** C33: [send] either accepts the message or leaves no trace: if it throws,
    the producer is exactly as before, its permit given back, and the exception
    is a [ProducerException], the rejection of an oversized message, or the
    codec's; if it returns, the message, with its id, its handler and its
    encoding, is the newest accepted one. *)
Theorem send_atomic now expired id msg handler p r p' :
  0 <= m_available (p_semaphore p) <= UINT32_MAX ->
  send cfg codec now expired id msg handler p = Some (r, p') ->
  match r with
  | Throw e =>
      p' = p /\ (e = PRODUCER_STOPPED \/
        e = ProducerException MessageEnqueuingFailed "Enqueueing message timeout" \/
        e = InvalidInputException (frame_size_message (m_max_frame_size (p_accumulator p))) \/
        exists e', codec_encode codec msg = Throw e' /\ e = send_exception e')
  | Val _ =>
      exists encoded, codec_encode codec msg = Val encoded /\
        p_accepted p' = p_accepted p ++ [MkAccumulatedMessage id now msg encoded handler]
  end.
Proof.
  intros Ha. unfold send, send_check. unfold mbind at 1, ST_bind at 1. simpl.
  destruct (bool_decide (p_status p = Started)); simpl; [|intros [= <- <-]; auto].
  destruct (send_acquire cfg expired p) as [[[[]|e] p1]|] eqn:Ea; simpl; [| |done];
    apply send_acquire_inv in Ea.
  2: { intros [= <- <-]. destruct Ea as [-> [-> | ->]]; simpl; auto. }
  destruct Ea as [Hpos ->].
  assert (set_semaphore (release (take_permit (p_semaphore p))) (set_semaphore (take_permit (p_semaphore p)) p) = p)
    as Hback by (apply release_taken; lia).
  unfold send_prepare, add_prepare. unfold mbind at 1, ST_bind at 1. simpl.
  destruct (codec_encode codec msg) as [encoded|e] eqn:Ee; simpl.
  2: { rewrite Hback. intros [= <- <-]. eauto 10. }
  destruct (_ && _); simpl; [rewrite Hback; intros [= <- <-]; auto|].
  unfold send_commit. set (m := MkAccumulatedMessage id now msg encoded handler).
  destruct (add_commit m _) as [[r' a]|] eqn:Ec; simpl; [|done]. simpl in Ec.
  apply add_commit_inv in Ec as [(-> & -> & _)|(-> & -> & _ & _)]; simpl.
  - rewrite Hback. intros [= <- <-]. auto.
  - destruct (_ =? _); [|intros [= <- <-]; eauto].
    set (p2 := set_accepted _ _). intros E. destruct (publish_batch_returns p2) as [Hr Hacc].
    destruct (publish_batch cfg p2) as [r2 p3]. injection E as <- <-. simpl in Hr, Hacc. subst r2. eauto.
Qed.

End producer_recovery.

(** ** Witnesses and two runs *)

Definition example_unconfirmed : gmap Z AccumulatedMessage :=
  list_to_map [(5, example_message 5); (3, example_message 3); (9, example_message 9)].

Definition example_started : @PState (list (list PublishMessage)) :=
  set_unconfirmed example_unconfirmed (set_status Started (new_Producer example_config [])).

Lemma reconnect_resends_witness :
  exists batches,
    concat batches = resent (sorted_unconfirmed example_started) /\
    Forall (batch_ok example_config) batches /\
    om_sorted (sorted_unconfirmed example_started) /\
    (forall id m, (id, m) ∈ sorted_unconfirmed example_started <->
                  p_unconfirmed example_started !! id = Some m) /\
    reconnect_resend example_config 4 example_started =
      (publish_all 4 batches ;; st_modify (set_client (Some 4%nat))) example_started.
Proof. apply (reconnect_resends example_config 4 example_started); [vm_compute; reflexivity | reflexivity]. Defined.

Lemma send_atomic_witness :
  exists p', send example_config MkRawCodec 10 false 0 (MkMessage [x61] []) (Some 1%nat) example_started
             = Some (Val tt, p') /\
  exists encoded, codec_encode MkRawCodec (MkMessage [x61] []) = Val encoded /\
    p_accepted p' = p_accepted example_started
                    ++ [MkAccumulatedMessage 0 10 (MkMessage [x61] []) encoded (Some 1%nat)].
Proof.
  destruct (send example_config MkRawCodec 10 false 0 (MkMessage [x61] []) (Some 1%nat) example_started)
    as [[[[]|e] p']|] eqn:E; [|vm_compute in E; discriminate|vm_compute in E; discriminate].
  exists p'. split; [done|].
  apply (send_atomic example_config MkRawCodec 10 false 0 (MkMessage [x61] []) (Some 1%nat)
           example_started (Val tt) p'); [vm_compute; split; congruence | exact E].
Defined.

Definition two_sends (id1 time1 id2 time2 : Z) : list event :=
  let hello := MkMessage [x68; x69] [] in
  [EvStart; EvSend id1 hello (Some 1%nat); EvSending 0 time1 false; EvSending 0 time1 false;
   EvSending 0 time1 false; EvSend id2 hello (Some 2%nat); EvSending 1 time2 false;
   EvSending 1 time2 false; EvSending 1 time2 false; EvSending 1 time2 false].

Definition run_state (evs : list event) : @psys (list (list PublishMessage)) :=
  default (initial example_config []) (exec_all example_config MkRawCodec evs (initial example_config [])).

Lemma run_state_reachable evs :
  bool_decide (is_Some (exec_all example_config MkRawCodec evs (initial example_config []))) = true ->
  reachable example_config MkRawCodec [] (run_state evs).
Proof.
  intros Hb. apply bool_decide_eq_true in Hb as [s E]. apply (exec_all_steps _ _ evs).
  unfold run_state. now rewrite E.
Qed.

(** Two messages sent with the same explicit publishing id while the first
    is unconfirmed: both are accepted and both are published, but when the
    producer has stopped and every call has ended, only the first handler has
    been called; the second message is dropped without a notification. *)
Theorem duplicate_id_not_notified :
  let s := run_state (two_sends 7 0 7 0 ++ [EvConfirm 7; EvDeliver 0; EvConfirm 7;
             EvStop (pec_value ProducerStopped); EvStopping 0; EvStopping 0; EvStopping 0; EvStopping 0;
             EvStopping 0; EvStopping 0; EvStopping 0; EvStopping 0]) in
  reachable example_config MkRawCodec [] s /\ sys_failed s = true /\
  p_delivering (sys_p s) = [] /\ sys_sends s = [SendDone (Val tt); SendDone (Val tt)] /\
  map am_confirmation_handler (p_accepted (sys_p s)) = [Some 1%nat; Some 2%nat] /\
  map lenZ (p_world (sys_p s)) = [2] /\
  map fst (handler_calls (sys_p s)) = [1%nat].
Proof.
  split; [apply run_state_reachable; vm_compute; reflexivity | vm_compute; auto 10].
Qed.

(** The timeout check stops at the first message, in the order of
    publishing ids, that is recent enough; with explicit ids that do not follow
    the order of publication, an unconfirmed message stays behind although its
    timeout has passed. *)
Theorem out_of_order_id_hides_timeout :
  let s := run_state (two_sends 2 0 1 100 ++ [EvTimeout 30050]) in
  reachable example_config MkRawCodec [] s /\
  exists m, p_unconfirmed (sys_p s) !! 2 = Some m /\
    timed_out (30050 - pc_confirm_timeout example_config) m /\
    p_settled (sys_p s) = [] /\ p_delivering (sys_p s) = [].
Proof.
  split; [apply run_state_reachable; vm_compute; reflexivity|].
  eexists. split; [vm_compute; reflexivity|]. vm_compute. split; [congruence | auto].
Qed.
