(* ===== verification/ProducerPublished.v ===== *)
(** * What a producer publishes

    [ProducerSystem] accounts for the messages inside the producer; this file
    says what leaves it.  The world behind [ClientWorld] is extended by the list of
    the calls of [publish_encoded], and every call of every interleaving is
    shown to carry messages that [send] accepted, encoded by the codec, in order
    and in batches of the configured size. *)

From S2P Require Import Prelude Words OrdMap Types BinaryBuffer ClientCommands Messages Semaphore Accumulator Producer ProducerSystem ProducerRecovery.

(** ** A world that lists the publications *)

Section recorded.
Context {W : Type} `{CW : ClientWorld W}.

Abbreviation log := (list (nat * list PublishMessage)).

Definition lift {A} (m : ST W exn A) : ST (W * log) exn A := fun s =>
  let '(o, w) := m s.1 in (o, (w, s.2)).

Definition recorded_publish (c : nat) (id : Z) (ms : list PublishMessage) : ST (W * log) exn unit := fun s =>
  let '(o, w) := cw_publish_encoded c id ms s.1 in (o, (w, s.2 ++ [(c, ms)])).

#[export, refine] Instance recorded_world : ClientWorld (W * log) := {|
  cw_register_producer := lift cw_register_producer;
  cw_unregister_producer := lift cw_unregister_producer;
  cw_get_producer_client stream := lift (cw_get_producer_client stream);
  cw_start c := lift (cw_start c);
  cw_stop c := lift (cw_stop c);
  cw_max_frame_size c s := cw_max_frame_size c s.1;
  cw_query_publisher_sequence c name stream := lift (cw_query_publisher_sequence c name stream);
  cw_declare_publisher c id name stream := lift (cw_declare_publisher c id name stream);
  cw_delete_publisher c id := lift (cw_delete_publisher c id);
  cw_publish_encoded := recorded_publish;
  cw_changes s s' := cw_changes s.1 s'.1 /\ s'.2 = s.2
|}.
Proof.
  intros c id ms s e s' E. unfold recorded_publish in E. destruct (cw_publish_encoded c id ms s.1) as [o w] eqn:Ew.
  injection E as -> _. by eapply cw_publish_throws.
Defined.

End recorded.

Section published.
Context {W : Type} `{CW : ClientWorld W} {C : Type} `{Codec C}.
Context (cfg : ProducerConfig) (codec : C).

Abbreviation log := (list (nat * list PublishMessage)).
Abbreviation PS := (@PState (W * log)).
Implicit Types p : PS.

Definition published p : log := (p_world p).2.
Definition unpublished (w : W) : W * log := (w, []).

(** ** What is published *)

(** [m] is what [Accumulator::add] makes of the user's message. *)
Definition encoded_ok (m : AccumulatedMessage) : Prop :=
  codec_encode codec (am_message m) = Val (am_encoded_message m).

(** New messages: a run of consecutive accepted messages, in order. *)
Definition fresh_batch (accepted : list AccumulatedMessage) (ms : list PublishMessage) : Prop :=
  exists before batch after, accepted = before ++ batch ++ after /\ ms = map to_publish batch.

(** A resend: accepted messages in the order of their ids. *)
Definition resent_batch (accepted : list AccumulatedMessage) (ms : list PublishMessage) : Prop :=
  StronglySorted Z.lt (map pm_publishing_id ms) /\
  Forall (fun pm => exists m, m ∈ accepted /\ pm = to_publish m) ms.

Definition published_ok (accepted : list AccumulatedMessage) (call : nat * list PublishMessage) : Prop :=
  call.2 <> [] /\ lenZ call.2 <= pc_batch_size cfg /\
  (fresh_batch accepted call.2 \/ resent_batch accepted call.2).

Lemma published_ok_more accepted more call : published_ok accepted call -> published_ok (accepted ++ more) call.
Proof.
  destruct call as [c ms]. unfold published_ok. simpl.
  intros (Hne & Hl & [(b & batch & a & -> & ->)|[Hs Hf]]); (split; [done|]); (split; [done|]).
  - left. exists b, batch, (a ++ more). by rewrite <- !app_assoc.
  - right. split; [done|]. eapply Forall_impl; [exact Hf|]. intros pm (m & Hm & ->). exists m. set_solver.
Qed.

Record pub_inv (p : PS) : Prop := MkPubInv {
  pub_capacity : m_capacity (p_accumulator p) = pc_batch_size cfg;
  pub_bound : lenZ (m_pending (p_accumulator p)) <= pc_batch_size cfg;
  pub_suffix : exists before, p_accepted p = before ++ m_pending (p_accumulator p);
  pub_encoded : Forall encoded_ok (p_accepted p);
  pub_log : Forall (published_ok (p_accepted p)) (published p)
}.

(** ** Operations that publish nothing *)

Definition pub_view (p : PS) :=
  (m_pending (p_accumulator p), m_capacity (p_accumulator p), p_accepted p, published p).
Definition still p p' : Prop := pub_view p' = pub_view p.
Definition still_op {A} (m : ST PS exn A) : Prop := preserves still m.

#[global] Instance still_preorder : PreOrder still.
Proof. split; [by intros p | intros p1 p2 p3 E1 E2; unfold still in *; congruence]. Qed.

Lemma pub_inv_still p p' : still p p' -> pub_inv p -> pub_inv p'.
Proof. intros E [H1 H2 H3 H4 H5]. injection E as E1 E2 E3 E4. constructor; rewrite ?E1, ?E2, ?E3, ?E4; done. Qed.

Lemma still_bind {A B} (m : ST PS exn A) (f : A -> ST PS exn B) :
  still_op m -> (forall a, still_op (f a)) -> still_op (m ≫= f).
Proof. apply (preserves_bind still). Qed.

Lemma still_catch {A} (m : ST PS exn A) h :
  still_op m -> (forall e, still_op (h e)) -> still_op (catch_stream m h).
Proof.
  intros Hm Hh. apply (preserves_catch still); [done|]. intros e.
  destruct (is_StreamException e); [apply Hh | apply (preserves_throw still)].
Qed.

Lemma still_get {A} (f : PS -> ST PS exn A) : (forall p, still p (f p p).2) -> still_op (p ← st_get; f p).
Proof. intros Hf p. apply Hf. Qed.

Lemma still_ret {A} (a : A) : still_op (mret a).
Proof. by intros p. Qed.

Lemma still_throw {A} e : still_op (st_throw e : ST PS exn A).
Proof. by intros p. Qed.

Lemma still_modify f : (forall p, still p (f p)) -> still_op (st_modify f : ST PS exn unit).
Proof. intros Hf p. apply Hf. Qed.

(** A call that the log does not record. *)
Lemma still_lift {A} (m : ST W exn A) : still_op (onW (lift m) : ST PS exn A).
Proof. intros p. unfold onW, lift. by destruct (m (p_world p).1). Qed.

Lemma still_task_call t c : still_op (task_call t c : ST PS exn unit).
Proof. by apply still_modify. Qed.

Create HintDb still.
#[local] Hint Resolve still_ret still_throw still_task_call still_lift : still.
#[local] Hint Extern 1 (still_op (_ ≫= _)) => apply still_bind : still.
#[local] Hint Extern 1 (still_op (catch_stream _ _)) => apply still_catch : still.
#[local] Hint Extern 1 (still_op (st_modify _)) => by apply still_modify : still.
#[local] Hint Extern 2 (still_op (match ?x with _ => _ end)) => destruct x : still.
#[local] Hint Extern 2 (still_op (onW _)) => apply still_lift : still.

Lemma still_start_begin : still_op (start_begin : ST PS exn unit).
Proof. apply still_bind; [apply still_get; intros p; by case_decide | auto with still]. Qed.

Lemma still_start_finish : still_op (start_finish : ST PS exn unit).
Proof. apply still_bind; [apply still_get; intros p; by case_decide | auto with still]. Qed.

Lemma still_start_connect : still_op (start_connect cfg : ST PS exn unit).
Proof. unfold start_connect, get_client. auto 20 with still. Qed.

Lemma still_take_client : still_op (take_client : ST PS exn (option nat)).
Proof. by apply still_get. Qed.

Lemma still_delayed_take : still_op (delayed_take : ST PS exn (option (option nat))).
Proof.
  apply still_get. intros p. destruct (negb _); [done|]. apply still_bind; [apply still_take_client | auto with still].
Qed.

Lemma still_delayed_stop client : still_op (delayed_stop cfg client : ST PS exn unit).
Proof. unfold delayed_stop. auto with still. Qed.

Lemma still_shutdown returns reason : still_op (handle_shutdown returns reason : ST PS exn unit).
Proof.
  apply still_get. intros p. destruct (_ && _); [|done]. apply still_bind; [apply still_take_client|].
  intros [c|]; [destruct returns|]; apply still_bind; auto with still.
Qed.

Lemma still_metadata stream : still_op (handle_metadata_update cfg stream : ST PS exn unit).
Proof. unfold handle_metadata_update. auto with still. Qed.

Lemma still_reconnect_connect c : still_op (reconnect_connect cfg c : ST PS exn unit).
Proof. unfold reconnect_connect. auto with still. Qed.

Lemma still_reconnect_failed c e : still_op (reconnect_failed cfg c e : ST PS exn unit).
Proof. unfold reconnect_failed. auto with still. Qed.

Lemma still_stop_client c : still_op (stop_client c : ST PS exn unit).
Proof. unfold stop_client. auto with still. Qed.

Lemma still_take_unconfirmed id b code : still_op (take_unconfirmed id b code : ST PS exn unit).
Proof. apply still_modify. intros p. by destruct (p_unconfirmed p !! id). Qed.

Lemma still_confirm id : still_op (handle_publish_confirm id : ST PS exn unit).
Proof. apply still_bind; [by apply still_modify | intros _; apply still_take_unconfirmed]. Qed.

Lemma still_collect now : still_op (collect_timed_out cfg now : ST PS exn unit).
Proof. by apply still_get. Qed.

Lemma still_deliver i p p' : deliver i p = Some p' -> still p p'.
Proof. unfold deliver. destruct (p_delivering p !! i) as [[m st]|]; [|done]. intros E. simpl in E. injection E as <-. done. Qed.

Lemma still_retire i p p' : retire i p = Some p' -> still p p'.
Proof. unfold retire. destruct (p_retired p !! i); [|done]. intros E. simpl in E. injection E as <-. done. Qed.

(** ** Operations that publish *)

(** Like [still], but for the calls of [l], all of which satisfy [ok]. *)
Definition publishes (ok : nat * list PublishMessage -> Prop) p p' : Prop :=
  m_pending (p_accumulator p') = m_pending (p_accumulator p) /\
  m_capacity (p_accumulator p') = m_capacity (p_accumulator p) /\ p_accepted p' = p_accepted p /\
  exists l, published p' = published p ++ l /\ Forall ok l.

#[global] Instance publishes_preorder ok : PreOrder (publishes ok).
Proof.
  split.
  - intros p. repeat split. exists []. by rewrite app_nil_r.
  - intros p1 p2 p3 (E1 & E2 & E3 & l1 & E4 & H1) (F1 & F2 & F3 & l2 & F4 & H2).
    split; [congruence|]. split; [congruence|]. split; [congruence|]. exists (l1 ++ l2).
    rewrite F4, E4, app_assoc. split; [done | by apply Forall_app].
Qed.

Lemma still_publishes ok p p' : still p p' -> publishes ok p p'.
Proof. intros E. injection E as E1 E2 E3 E4. repeat split; [done..|]. exists []. by rewrite app_nil_r. Qed.

Lemma pub_inv_publishes p p' : publishes (published_ok (p_accepted p)) p p' -> pub_inv p -> pub_inv p'.
Proof.
  intros (E1 & E2 & E3 & l & E4 & Hl) [H1 H2 H3 H4 H5]. constructor; rewrite ?E1, ?E2, ?E3, ?E4; [done..|].
  by apply Forall_app.
Qed.

Lemma publish_call c ms p :
  exists o w, onW (cw_publish_encoded c publisher_id ms) p = (o, set_world (w, published p ++ [(c, ms)]) p).
Proof.
  unfold onW. cbn [cw_publish_encoded recorded_world]. unfold recorded_publish.
  destruct (cw_publish_encoded c publisher_id ms (p_world p).1) as [o w]. by eexists _, _.
Qed.

Lemma publish_call_caught c ms p :
  exists w, catch_stream (onW (cw_publish_encoded c publisher_id ms)) (fun _ => mret tt) p =
            (Val tt, set_world (w, published p ++ [(c, ms)]) p).
Proof.
  destruct (publish_call c ms p) as (o & w & E). exists w. unfold catch_stream, st_catch. rewrite E.
  destruct o as [[]|e]; [done|]. unfold onW in E.
  destruct (cw_publish_encoded c publisher_id ms (p_world p)) as [o w'] eqn:Ew. injection E as -> _.
  by rewrite (cw_publish_throws _ _ _ _ _ _ Ew).
Qed.

Lemma publish_all_publishes ok c batches p :
  Forall (fun b => ok (c, b)) batches -> publishes ok p (publish_all c batches p).2.
Proof.
  intros Hb. revert p. induction Hb as [|b batches Hb Hbs IH]; intros p; [reflexivity|].
  unfold publish_all. cbn [st_iter]. destruct (publish_call c b p) as (o & w & E).
  assert (publishes ok p (set_world (w, published p ++ [(c, b)]) p)) as Hp.
  { repeat split. exists [(c, b)]. by split; [|repeat constructor]. }
  unfold mbind, ST_bind. rewrite E. destruct o as [[]|e]; [|done]. etransitivity; [exact Hp | apply IH].
Qed.

Lemma emplace_all_still ms p : still p (fold_left (fun p m => emplaced m p) ms p).
Proof.
  revert p. induction ms as [|m ms IH]; intros p; simpl; [done|]. etransitivity; [|apply IH].
  unfold emplaced, emplace_unconfirmed. simpl. by destruct (p_unconfirmed p !! _).
Qed.

(** What waits is published as one batch; nothing waits any more. *)
Lemma pub_inv_batch p : pub_inv p -> pub_inv (publish_batch cfg p).2.
Proof.
  intros Hi. unfold publish_batch. unfold mbind at 1, ST_bind at 1. cbn [st_get].
  case_bool_decide as Hs; [|done]. cbn [negb extract_all]. unfold mbind, ST_bind at 1. cbn [st_modify].
  set (p1 := set_accumulator (with_pending [] (p_accumulator p)) p).
  assert (pub_inv p1) as Hi1.
  { destruct Hi as [H1 H2 H3 H4 H5]. constructor; try done; simpl.
    - pose proof (lenZ_nonneg (m_pending (p_accumulator p))). lenZ_lia.
    - exists (p_accepted p). by rewrite app_nil_r. }
  assert (forall q, pub_inv q -> pub_inv ((if batch_publish_valid cfg
            then task_call BatchPublishTask (ScheduleAfter (pc_batch_publishing_delay cfg)) else mret tt) q).2) as Hend
    by (intros q Hq; destruct (batch_publish_valid cfg); [by apply (pub_inv_still q) | exact Hq]).
  case_bool_decide as Hne; [by apply Hend|].
  destruct (p_client p) as [c|].
  - destruct (publish_call_caught c (map to_publish (m_pending (p_accumulator p))) p1) as [w E].
    unfold ST_bind at 1 2. rewrite E, emplace_all_run. apply Hend.
    eapply pub_inv_still; [apply emplace_all_still|]. eapply pub_inv_publishes; [|exact Hi1].
    repeat split. eexists. split; [done|]. apply Forall_singleton. unfold published_ok. cbn [snd]. split_and!.
    + by destruct (m_pending (p_accumulator p)).
    + unfold lenZ. rewrite length_map. apply Hi.
    + left. destruct (pub_suffix p Hi) as [before E']. exists before, (m_pending (p_accumulator p)), [].
      by rewrite app_nil_r.
  - unfold ST_bind at 1 2. cbn. rewrite emplace_all_run. apply Hend.
    by eapply pub_inv_still; [apply emplace_all_still|].
Qed.

(** ** Resending *)

Lemma sublist_resent (sorted : omap Z AccumulatedMessage) batches b :
  concat batches = resent sorted -> b ∈ batches -> om_sorted sorted ->
  StronglySorted Z.lt (map pm_publishing_id b) /\ (forall pm, pm ∈ b -> pm ∈ resent sorted).
Proof.
  intros E Hb Hs. apply list_elem_of_split in Hb as (l1 & l2 & ->). rewrite concat_app in E. simpl in E. split.
  - assert (StronglySorted Z.lt (map pm_publishing_id (resent sorted))) as Hss.
    { unfold resent. rewrite map_map. simpl. clear -Hs. unfold om_sorted in Hs.
      induction Hs as [|[id m] l Hs IH Hf]; simpl; constructor; [done|]. rewrite Forall_map.
      eapply Forall_impl; [exact Hf|]. intros [id' m']. simpl. apply Z.ltb_lt. }
    rewrite <- E, !map_app in Hss. apply StronglySorted_app in Hss as (_ & _ & Hss).
    by apply StronglySorted_app in Hss as (_ & Hss & _).
  - intros pm Hpm. rewrite <- E. set_solver.
Qed.

(** What is resent was accepted: it is unconfirmed, under its own id. *)
Lemma resent_accepted p n pm :
  pinv cfg n [] p -> pm ∈ resent (sorted_unconfirmed p) -> exists m, m ∈ p_accepted p /\ pm = to_publish m.
Proof.
  intros [Hl _ Hk _ _] Hpm. unfold resent in Hpm. apply list_elem_of_fmap in Hpm as ([id m] & -> & Hin).
  apply elem_of_sorted_unconfirmed in Hin. exists m. pose proof (Hk id m Hin) as <-. split; [|done].
  unfold ledger in Hl. rewrite Hl. apply elem_of_app. right. apply elem_of_app. right. apply elem_of_app. left.
  unfold values. apply list_elem_of_fmap. exists (am_publishing_id m, m). split; [done|]. by apply elem_of_map_to_list.
Qed.

Lemma pub_inv_resend c n p :
  0 < pc_batch_size cfg -> pinv cfg n [] p -> pub_inv p -> pub_inv (reconnect_resend cfg c p).2.
Proof.
  intros Hpos Hp Hi. destruct (decide (p_status p = Started)) as [Es|Es].
  - destruct (reconnect_resends cfg c p Hpos Es) as (batches & Ec & Hok & Hsort & _ & ->).
    assert (publishes (published_ok (p_accepted p)) p (publish_all c batches p).2) as Hpub.
    { apply publish_all_publishes, Forall_forall. intros b Hb. rewrite Forall_forall in Hok. specialize (Hok b Hb).
      unfold batch_ok in Hok. destruct (sublist_resent _ _ b Ec Hb Hsort) as [Hss Hin].
      split; [by destruct b; [lenZ_lia|]|]. split; [simpl; lia|]. right. split; [done|].
      apply Forall_forall. intros pm Hpm. by eapply resent_accepted, Hin. }
    apply (pub_inv_publishes p); [|done]. unfold mbind, ST_bind. destruct (publish_all c batches p) as [[[]|e] q]; done.
  - unfold reconnect_resend. unfold mbind at 1, ST_bind at 1. cbn [st_get]. rewrite bool_decide_false by done. cbn [negb].
    eapply pub_inv_still; [|exact Hi]. apply still_lift.
Qed.

(** ** The system *)

Definition send_ok (pc : send_pc) : Prop := match pc with SendCommit m => encoded_ok m | _ => True end.

Record pub_sys (s : @psys (W * log)) : Prop := MkPubSys {
  ps_producer : pub_inv (sys_p s);
  ps_sends : Forall send_ok (sys_sends s)
}.

Lemma pub_send_acquire expired p r p' : send_acquire cfg expired p = Some (r, p') -> still p p'.
Proof.
  unfold send_acquire. destruct (_ =? 0).
  - destruct (acquire _) as [[o sem]|]; [|done]. intros E. simpl in E. injection E as <- <-. done.
  - destruct (try_acquire_for _ _) as [[o sem]|]; [|done]. intros E. simpl in E. injection E as <- <-. done.
Qed.

Lemma pub_send_prepare now id msg handler p :
  still p (send_prepare codec now id msg handler p).2 /\
  match (send_prepare codec now id msg handler p).1 with Val m => encoded_ok m | Throw _ => True end.
Proof.
  assert (send_prepare codec now id msg handler p =
          match add_prepare codec now id msg handler (p_accumulator p) with
          | Val m => (Val m, p) | Throw e => (release_permit ;; st_throw e) p end) as ->
    by (unfold send_prepare, mbind at 1, ST_bind at 1; cbn [st_get]; by destruct (add_prepare _ _ _ _ _ _)).
  destruct (add_prepare codec now id msg handler (p_accumulator p)) as [m|e] eqn:E; [|split; [reflexivity | exact I]]. split; [done|]. simpl.
  unfold add_prepare in E. unfold encoded_ok. unfold mbind, outcome_bind in E.
  destruct (codec_encode codec msg) as [encoded|e] eqn:Ee; [|done]. destruct (_ && _); [done|]. by injection E as <-.
Qed.

Lemma pub_send_commit m p r p' : encoded_ok m -> send_commit m p = Some (r, p') -> pub_inv p -> pub_inv p'.
Proof.
  intros Hm E [H1 H2 [before H3] H4 H5]. unfold send_commit in E.
  destruct (add_commit m (p_accumulator p)) as [[o a]|] eqn:Ea; [|done]. simpl in E.
  apply add_commit_inv in Ea as [(-> & -> & _)|(-> & -> & Hlt & _)]; simpl in E; injection E as <- <-.
  - by constructor; simpl; [..|exists before| |].
  - constructor; simpl; [done | lenZ_lia | | |].
    + exists before. by rewrite H3, app_assoc.
    + apply Forall_app. by repeat constructor.
    + eapply Forall_impl; [exact H5|]. intros call. apply published_ok_more.
Qed.

Lemma pub_send_step now expired pc p pc' p' :
  send_step cfg codec now expired pc p = Some (pc', p') -> send_ok pc -> pub_inv p -> pub_inv p' /\ send_ok pc'.
Proof.
  intros E Hok Hi. destruct pc as [id msg handler|id msg handler|m| |r]; cbn [send_step] in E.
  - destruct (send_acquire cfg expired p) as [[r q]|] eqn:Ea; [|done]. simpl in E. injection E as <- <-.
    split; [by eapply pub_inv_still; [eapply pub_send_acquire|] | by destruct r].
  - destruct (pub_send_prepare now id msg handler p) as [Hs He]. destruct (send_prepare codec now id msg handler p) as [r q].
    injection E as <- <-. split; [by eapply pub_inv_still|]. by destruct r.
  - destruct (send_commit m p) as [[r q]|] eqn:Ec; [|done]. simpl in E. injection E as <- <-.
    split; [by eapply pub_send_commit|]. by destruct r as [[]|].
  - pose proof (pub_inv_batch p Hi) as Hb. destruct (publish_batch cfg p) as [r q]. injection E as <- <-. done.
  - done.
Qed.

Lemma pub_fail_all code p : pub_inv p -> pub_inv (fail_all_unconfirmed code p).2.
Proof.
  intros [H1 H2 H3 H4 H5]. rewrite fail_all_run. constructor; try done; simpl.
  - pose proof (lenZ_nonneg (m_pending (p_accumulator p))). lenZ_lia.
  - exists (p_accepted p). by rewrite app_nil_r.
Qed.

Lemma pub_stop_step pc p pc' p' : stop_step pc p = Some (pc', p') -> pub_inv p -> pub_inv p'.
Proof.
  intros E Hi. destruct pc as [code|code|code|code|code|code client|code| |r]; cbn [stop_step] in E; try (injection E as _ <-).
  - by apply (pub_inv_still p).
  - by apply (pub_inv_still p).
  - by apply (pub_inv_still p).
  - by apply (pub_inv_still p).
  - by apply (pub_inv_still p).
  - pose proof (still_stop_client client p) as Hs. destruct (stop_client client p) as [r q]. injection E as _ <-.
    by apply (pub_inv_still p).
  - by apply pub_fail_all.
  - destruct (onW cw_unregister_producer p) as [r q] eqn:Eq. injection E as _ <-. apply (pub_inv_still p); [|done].
    assert (q = (onW cw_unregister_producer p).2) as -> by (by rewrite Eq). exact (still_lift _ p).
  - done.
Qed.

Lemma pub_other_step n p p' :
  0 < pc_batch_size cfg -> pinv cfg n [] p -> other_step cfg p p' -> pub_inv p -> pub_inv p'.
Proof.
  intros Hpos Hp Hs Hi. destruct Hs.
  - eapply pub_inv_still; [apply still_start_begin | done].
  - eapply pub_inv_still; [apply still_start_connect | done].
  - eapply pub_inv_still; [apply still_start_finish | done].
  - by apply pub_inv_batch.
  - eapply pub_inv_still; [apply still_confirm | done].
  - eapply pub_inv_still; [apply still_take_unconfirmed | done].
  - eapply pub_inv_still; [apply still_collect | done].
  - eapply pub_inv_still; [apply still_task_call | done].
  - eapply pub_inv_still; [by eapply still_deliver | done].
  - eapply pub_inv_still; [by eapply still_retire | done].
  - eapply pub_inv_still; [apply still_metadata | done].
  - eapply pub_inv_still; [apply still_shutdown | done].
  - eapply pub_inv_still; [apply still_delayed_take | done].
  - eapply pub_inv_still; [apply still_delayed_stop | done].
  - eapply pub_inv_still; [apply still_lift | done].
  - eapply pub_inv_still; [apply still_reconnect_connect | done].
  - by eapply pub_inv_resend.
  - eapply pub_inv_still; [apply still_reconnect_failed | done].
  - match goal with H : cw_changes _ _ |- _ => destruct H as [_ Hlog] end.
    apply (pub_inv_still p); [|done]. unfold still, pub_view, published. simpl. by rewrite Hlog.
Qed.

Lemma pub_sys_step s s' :
  0 < pc_batch_size cfg -> sys_inv cfg s -> pstep cfg codec s s' -> pub_sys s -> pub_sys s'.
Proof.
  intros Hpos Hsys Hs [Hi Hc]. pose proof (sys_accounts _ _ Hsys) as Hp. clear Hsys.
  destruct Hs as [p sends stops f id msg handler|p sends stops f msg handler id p' E|p sends stops f i pc pc' p' now expired Epc E
                 |p sends stops f code|p sends stops f i pc pc' p' Epc E|p sends stops f p' E]; cbn [sys_p sys_sends] in *.
  - split; simpl; [done|]. apply Forall_app. split; [done|]. apply Forall_singleton. unfold send_call. by destruct (send_check p) as [[]].
  - split; simpl.
    + apply (pub_inv_still p); [|done]. unfold next_publishing_id, mbind, ST_bind in E. simpl in E. by injection E as _ <-.
    + apply Forall_app. split; [done|]. apply Forall_singleton. unfold send_call. by destruct (send_check p') as [[]].
  - destruct (pub_send_step _ _ _ _ _ _ E) as [H1 H2]; [by eapply (Forall_lookup_1 send_ok) | done|]. split; simpl; [done | by apply Forall_insert].
  - by split.
  - split; simpl; [by eapply pub_stop_step | done].
  - split; simpl; [by eapply pub_other_step | done].
Qed.

Lemma pub_sys_reachable w s :
  is_u32 (pc_max_unconfirmed cfg) -> 0 < pc_batch_size cfg -> reachable cfg codec (unpublished w) s -> pub_sys s.
Proof.
  intros Hmax Hpos Hr. assert (pub_sys (initial cfg (unpublished w)) /\ sys_inv cfg (initial cfg (unpublished w))) as Hi.
  { split; [|apply sys_inv_init; unfold is_uint in Hmax; lia].
    split; [|constructor]. constructor; simpl; [done | lenZ_lia | by exists [] | constructor | constructor]. }
  induction Hr as [|x y z Hs Hr IH]; [apply Hi|]. apply IH. destruct Hi as [Hi1 Hi2].
  split; [by eapply pub_sys_step | by eapply sys_inv_step].
Qed.

(** C4: whatever the interleaving of senders, listeners, tasks and stops, and
    whatever the clients do, every publication carries messages that [send]
    accepted and nothing else: it is not empty, it is no larger than a batch,
    and it is either a run of consecutive accepted messages in the order of
    their acceptance, or a resend in increasing order of publishing ids; each
    entry is the publishing id of its message with the bytes that the codec
    makes of it. *)
Theorem producer_publishes_accepted w s :
  is_u32 (pc_max_unconfirmed cfg) -> 0 < pc_batch_size cfg -> reachable cfg codec (unpublished w) s ->
  Forall (published_ok (p_accepted (sys_p s))) (published (sys_p s)) /\
  Forall encoded_ok (p_accepted (sys_p s)).
Proof.
  intros Hmax Hpos Hr. destruct (pub_sys_reachable w s Hmax Hpos Hr) as [[H1 H2 H3 H4 H5] _]. done.
Qed.

End published.

(** The run of [example_events]. *)
Definition published_state : @psys (list (list PublishMessage) * list (nat * list PublishMessage)) :=
  default (initial example_config (unpublished []))
    (exec_all example_config MkRawCodec example_events (initial example_config (unpublished []))).

Lemma published_reachable : reachable example_config MkRawCodec (unpublished []) published_state.
Proof. apply (exec_all_steps _ _ example_events). vm_compute. reflexivity. Qed.

Lemma producer_publishes_accepted_witness :
  map (fun call => map pm_publishing_id call.2) (published (sys_p published_state)) = [[1; 0]] /\
  Forall (published_ok example_config (p_accepted (sys_p published_state))) (published (sys_p published_state)).
Proof.
  split; [vm_compute; reflexivity|].
  apply (producer_publishes_accepted example_config MkRawCodec [] published_state);
    [unfold is_uint; vm_compute; split; [discriminate | reflexivity] | vm_compute; reflexivity | exact published_reachable].
Defined.
