(* ===== verification/ProducerTasks.v ===== *)
(** * The producer with its tasks

    Adds the tasks of [Tasks] to the critical sections of [Producer], from the end
    of a successful [start] until a stop begins: the calls that a section makes on
    the tasks are handed over to them, and a section that a task runs happens
    only when the task calls its function.  So it can be shown that publication,
    the check for timeouts and the recovery always stay scheduled. *)

From stdpp Require Import functions.
From S2P Require Import Prelude Words OrdMap Types BinaryBuffer ClientCommands Messages Semaphore Accumulator Tasks TaskFamily Producer ProducerSystem.

(** Only a stop destroys a task, and there is none here. *)
Definition producer_task_apply (call : TaskCall) (t : Task) : Task :=
  match call with
  | ScheduleNow => schedule_now t
  | ScheduleAfter delay => schedule_after delay t
  | TaskDestroy => t
  end.

Definition is_task_schedule (call : TaskCall) : bool := match call with TaskDestroy => false | _ => true end.

#[export] Instance producer_calls : OwnerCalls producer_task_apply is_task_schedule.
Proof.
  split.
  - intros [|delay|] t Hh Hi; [| |done]; (eapply owner_step_inv; [exact Hh | exact Hi | constructor]).
  - intros [|delay|] t Ha; simpl; [apply (armed_schedules t 0 Ha) | apply (armed_schedules t delay Ha) | done].
  - intros [|delay|] t Hs Hh; [by apply schedule_now_healthy | by apply schedule_after_healthy | done].
Qed.

(** Where an invocation of [reconnect_to_server] is, once it is needed. *)
Inductive preconnect_pc :=
| PrGet
| PrConnect (c : nat)
| PrResend (c : nat)
| PrFailed (client : option nat) (e : exn).

Section producer_tasks.
Context {W : Type} `{ClientWorld W} {C : Type} `{Codec C}.
Context (cfg : ProducerConfig) (codec : C).

Abbreviation PS := (@PState W).
Abbreviation TS := (ProducerTask -> Task).
Implicit Types (p : PS) (ts : TS).

(** [tk_checking]: [check_confirm_timeout] is between its critical section and
    its last call; [tk_reconnect]: where [reconnect_to_server] is;
    [tk_delayed]: the client that [delayed_reconnect] has taken and stops;
    [tk_wedged]: a shutdown listener waits for ever in the destructor of the
    client that it dropped, with [m_mutex], and no section that takes the mutex
    can run any more. *)
Record tsys := MkTSys {
  tk_p : PS;
  tk_tasks : TS;
  tk_checking : bool;
  tk_reconnect : option preconnect_pc;
  tk_delayed : option (option nat);
  tk_wedged : bool
}.

(** The calls that a critical section made reach their tasks. *)
Definition handed p ts ck rc dl wd : tsys :=
  MkTSys (set_task_calls [] p) (hand_over producer_task_apply (p_task_calls p) ts) ck rc dl wd.

(** Whether the function of the task has returned. *)
Definition producer_function_over (k : ProducerTask) (s : tsys) : Prop :=
  match k with
  | ConfirmTimeoutTask => tk_checking s = false
  | ReconnectTask => tk_reconnect s = None
  | DelayedReconnectTask => tk_delayed s = None
  | _ => True
  end.

(** Of the sections of [send], the publication takes [m_mutex]. *)
Definition send_locks (pc : send_pc) : bool := match pc with SendPublish => true | _ => false end.

(** The critical sections of the threads that call [send] and [flush], and of
    the client's listeners; [true] for those that take [m_mutex]. *)
Inductive section_step : bool -> PS -> PS -> Prop :=
| SecSend now expired pc pc' p p' :
    send_step cfg codec now expired pc p = Some (pc', p') -> section_step (send_locks pc) p p'
| SecNextId p : section_step false p (next_publishing_id p).2
| SecFlush p : section_step true p (publish_batch cfg p).2
| SecConfirm id p : section_step true p (handle_publish_confirm id p).2
| SecError id code p : section_step true p (handle_publish_error id code p).2
| SecDeliver i p p' : deliver i p = Some p' -> section_step false p p'
| SecRetire i p p' : retire i p = Some p' -> section_step false p p'
| SecMetadata stream p : section_step false p (handle_metadata_update cfg stream p).2
| SecWorld w p : section_step false p (set_world w p).

Inductive tkstep : tsys -> tsys -> Prop :=
| TkSection locks p p' ts ck rc dl wd :
    section_step locks p p' -> locks && wd = false ->
    tkstep (MkTSys p ts ck rc dl wd) (handed p' ts ck rc dl wd)
| TkShutdown c reason returns p ts ck rc dl :
    returns = true \/ drop_may_block c reason (p_client p) = true ->
    tkstep (MkTSys p ts ck rc dl false)
           (let '(r, p') := handle_shutdown returns reason p in handed p' ts ck rc dl (negb (is_val r)))
| TkTask k t left p ts ck rc dl wd :
    strand_step left (ts k) = Some t \/ timer_step (ts k) = Some t ->
    tkstep (MkTSys p ts ck rc dl wd) (MkTSys p (<[k := t]> ts) ck rc dl wd)
| TkTaskEnd k m t p ts ck rc dl wd :
    invocation_turn m (ts k) = Some t -> t_started t = t_started (ts k) ->
    producer_function_over k (MkTSys p ts ck rc dl wd) ->
    tkstep (MkTSys p ts ck rc dl wd) (MkTSys p (<[k := t]> ts) ck rc dl wd)
| TkBatch m t p ts ck rc dl :
    invocation_turn m (ts BatchPublishTask) = Some t -> t_started t = t_started (ts BatchPublishTask) + 1 ->
    tkstep (MkTSys p ts ck rc dl false) (handed (publish_batch cfg p).2 (<[BatchPublishTask := t]> ts) ck rc dl false)
| TkCheck now m t p ts rc dl :
    invocation_turn m (ts ConfirmTimeoutTask) = Some t -> t_started t = t_started (ts ConfirmTimeoutTask) + 1 ->
    tkstep (MkTSys p ts false rc dl false)
           (handed (collect_timed_out cfg now p).2 (<[ConfirmTimeoutTask := t]> ts) true rc dl false)
| TkChecked p ts rc dl wd :
    tkstep (MkTSys p ts true rc dl wd) (handed (reschedule_confirm_timeout cfg p).2 ts false rc dl wd)
| TkDelayed m t taken p p' ts ck rc :
    invocation_turn m (ts DelayedReconnectTask) = Some t -> t_started t = t_started (ts DelayedReconnectTask) + 1 ->
    delayed_take p = (Val taken, p') ->
    tkstep (MkTSys p ts ck rc None false) (MkTSys p' (<[DelayedReconnectTask := t]> ts) ck rc taken false)
| TkDelayedStop client p p' ts ck rc wd :
    delayed_stop cfg client p = (Val tt, p') ->
    tkstep (MkTSys p ts ck rc (Some client) wd) (handed p' ts ck rc None wd)
| TkReconnect m t p ts ck dl :
    invocation_turn m (ts ReconnectTask) = Some t -> t_started t = t_started (ts ReconnectTask) + 1 ->
    tkstep (MkTSys p ts ck None dl false)
           (MkTSys p (<[ReconnectTask := t]> ts) ck
              (match (reconnect_needed p).1 with Val true => Some PrGet | _ => None end) dl false)
| TkGotClient c p p' ts ck dl wd :
    get_client cfg p = (Val c, p') ->
    tkstep (MkTSys p ts ck (Some PrGet) dl wd) (handed p' ts ck (Some (PrConnect c)) dl wd)
| TkNoClient e p p' ts ck dl wd :
    get_client cfg p = (Throw e, p') -> is_StreamException e = true ->
    tkstep (MkTSys p ts ck (Some PrGet) dl wd) (handed p' ts ck (Some (PrFailed None e)) dl wd)
| TkConnected c p p' ts ck dl wd :
    reconnect_connect cfg c p = (Val tt, p') ->
    tkstep (MkTSys p ts ck (Some (PrConnect c)) dl wd) (handed p' ts ck (Some (PrResend c)) dl wd)
| TkNotConnected c e p p' ts ck dl wd :
    reconnect_connect cfg c p = (Throw e, p') -> is_StreamException e = true ->
    tkstep (MkTSys p ts ck (Some (PrConnect c)) dl wd) (handed p' ts ck (Some (PrFailed (Some c) e)) dl wd)
| TkResent c p p' ts ck dl :
    reconnect_resend cfg c p = (Val tt, p') ->
    tkstep (MkTSys p ts ck (Some (PrResend c)) dl false) (handed p' ts ck None dl false)
| TkNotResent c e p p' ts ck dl :
    reconnect_resend cfg c p = (Throw e, p') -> is_StreamException e = true ->
    tkstep (MkTSys p ts ck (Some (PrResend c)) dl false) (handed p' ts ck (Some (PrFailed (Some c) e)) dl false)
| TkFailed client e p p' ts ck dl wd :
    reconnect_failed cfg client e p = (Val tt, p') ->
    tkstep (MkTSys p ts ck (Some (PrFailed client e)) dl wd) (handed p' ts ck None dl wd).

Lemma section_tkstep locks s p' :
  section_step locks (tk_p s) p' -> locks && tk_wedged s = false ->
  tkstep s (handed p' (tk_tasks s) (tk_checking s) (tk_reconnect s) (tk_delayed s) (tk_wedged s)).
Proof. destruct s. apply TkSection. Qed.

(** After [start]. *)
Definition tk_initial w (s : tsys) : Prop :=
  exists p, start cfg (new_Producer cfg w) = (Val tt, p) /\ s = handed p (fun _ => new_Task) false None None false.

Definition tk_reachable (s : tsys) : Prop := exists w s0, tk_initial w s0 /\ rtc tkstep s0 s.

(** ** Sections that leave the status and the client *)

Definition steady p p' : Prop := p_status p' = p_status p /\ p_client p' = p_client p.

#[global] Instance steady_preorder : PreOrder steady.
Proof. split; [done|]. intros p1 p2 p3 [] []. split; congruence. Qed.

Lemma steady_onW {A} (m : ST W exn A) : preserves steady (onW m).
Proof. intros p. unfold onW. by destruct (m (p_world p)). Qed.

Lemma steady_catch {A} (m : ST PS exn A) h :
  preserves steady m -> (forall e, preserves steady (h e)) -> preserves steady (catch_stream m h).
Proof.
  intros Hm Hh. apply (preserves_catch steady); [done|]. intros e.
  destruct (is_StreamException e); [apply Hh | apply (preserves_throw steady)].
Qed.

#[local] Hint Resolve steady_onW : preserves.
#[local] Hint Extern 1 (preserves steady (st_modify _)) => by apply (preserves_modify steady) : preserves.
#[local] Hint Extern 1 (preserves steady (catch_stream _ _)) => apply steady_catch; [|intros ?] : preserves.

Lemma steady_emplace_all ms p : steady p (fold_left (fun p m => emplaced m p) ms p).
Proof.
  revert p. induction ms as [|m ms IH]; intros p; simpl; [done|]. etransitivity; [|apply IH].
  unfold emplaced, emplace_unconfirmed. simpl. by destruct (p_unconfirmed p !! _).
Qed.

Lemma steady_publish_batch : preserves steady (publish_batch cfg : ST PS exn unit).
Proof.
  intros p. destruct (publish_batch_run cfg p) as [[_ ->]|[_ [w ->]]]; [done|]. simpl.
  transitivity (batched w p); [|unfold batch_rescheduled; by destruct (batch_publish_valid cfg)].
  unfold batched. etransitivity; [|apply steady_emplace_all]. done.
Qed.

Lemma steady_send_step now expired pc p pc' p' : send_step cfg codec now expired pc p = Some (pc', p') -> steady p p'.
Proof.
  intros E. destruct pc as [id msg handler|id msg handler|m| |r]; cbn [send_step] in E; [| | | |done].
  - destruct (send_acquire cfg expired p) as [[r q]|] eqn:Ea; [|done]. simpl in E. injection E as _ <-.
    unfold send_acquire in Ea. destruct (_ =? 0); [destruct (acquire _) as [[]|] | destruct (try_acquire_for _ _) as [[]|]];
      simpl in Ea; try done; by injection Ea as _ <-.
  - assert (preserves steady (send_prepare codec now id msg handler : ST PS exn _)) as Hp.
    { apply (preserves_get steady). intros q. by destruct (add_prepare _ _ _ _ _ _). }
    specialize (Hp p). destruct (send_prepare codec now id msg handler p) as [r q]. by injection E as _ <-.
  - destruct (send_commit m p) as [[r q]|] eqn:Ec; [|done]. simpl in E. injection E as _ <-.
    unfold send_commit in Ec. destruct (add_commit m _) as [[o a]|]; [|done]. simpl in Ec. destruct o; by injection Ec as _ <-.
  - pose proof (steady_publish_batch p) as Hp. destruct (publish_batch cfg p) as [r q]. by injection E as _ <-.
Qed.

Lemma steady_section locks p p' : section_step locks p p' -> steady p p'.
Proof.
  intros [now expired pc pc' q q' E|q|q|id q|id code q|i q q' E|i q q' E|stream q|w q].
  - by eapply steady_send_step.
  - done.
  - apply steady_publish_batch.
  - unfold handle_publish_confirm, take_unconfirmed. unfold mbind, ST_bind. simpl. by destruct (p_unconfirmed q !! id).
  - unfold handle_publish_error, take_unconfirmed. simpl. by destruct (p_unconfirmed q !! id).
  - unfold deliver in E. destruct (p_delivering q !! i) as [[m st]|]; [|done]. simpl in E. by injection E as <-.
  - unfold retire in E. destruct (p_retired q !! i); [|done]. simpl in E. by injection E as <-.
  - unfold handle_metadata_update. by destruct (bool_decide _).
  - done.
Qed.

(** ** The invariant *)

Definition recovering (s : tsys) : Prop :=
  armed (tk_tasks s ReconnectTask) \/ armed (tk_tasks s StreamDeletedTask) \/
  tk_reconnect s <> None \/ tk_delayed s <> None.

Record tk_inv (s : tsys) : Prop := MkTkInv {
  tk_started : p_status (tk_p s) = Started;
  tk_handed : p_task_calls (tk_p s) = [];
  tk_healthy : all_healthy (tk_tasks s);
  tk_batch : batch_publish_valid cfg = true -> armed (tk_tasks s BatchPublishTask);
  tk_timeout : confirm_timeout_valid cfg = true -> armed (tk_tasks s ConfirmTimeoutTask) \/ tk_checking s = true;
  tk_recovering : p_client (tk_p s) = None -> recovering s
}.

Lemma armed_handed calls ts k : armed (ts k) -> armed (hand_over producer_task_apply calls ts k).
Proof. apply (hand_over_armed producer_task_apply is_task_schedule). Qed.

Lemma scheduled_handed p ts k call :
  all_healthy ts -> (k, call) ∈ p_task_calls p -> is_task_schedule call = true ->
  armed (hand_over producer_task_apply (p_task_calls p) ts k).
Proof. apply (hand_over_schedules producer_task_apply is_task_schedule). Qed.

(** A section that keeps the status, from tasks that are armed or that it
    schedules. *)
Lemma tk_inv_handed p' ts ck rc dl wd :
  p_status p' = Started -> all_healthy ts ->
  (batch_publish_valid cfg = true ->
     armed (ts BatchPublishTask) \/ exists d, (BatchPublishTask, ScheduleAfter d) ∈ p_task_calls p') ->
  (confirm_timeout_valid cfg = true ->
     armed (ts ConfirmTimeoutTask) \/ ck = true \/ exists d, (ConfirmTimeoutTask, ScheduleAfter d) ∈ p_task_calls p') ->
  (p_client p' = None ->
     recovering (MkTSys p' ts ck rc dl wd) \/
     exists k call, (k = ReconnectTask \/ k = StreamDeletedTask) /\ is_task_schedule call = true /\ (k, call) ∈ p_task_calls p') ->
  tk_inv (handed p' ts ck rc dl wd).
Proof.
  intros Hs Hts Hb Hc Hr. constructor; simpl; [done | done | | | |].
  - by apply (hand_over_healthy producer_task_apply is_task_schedule).
  - intros Hv. destruct (Hb Hv) as [Ha|[d Hin]]; [by apply armed_handed | by eapply scheduled_handed].
  - intros Hv. destruct (Hc Hv) as [Ha|[Hck|[d Hin]]]; [left; by apply armed_handed | by right | left; by eapply scheduled_handed].
  - intros Hn. destruct (Hr Hn) as [[Ha|[Ha|Ha]]|(k & call & Hk & Hcall & Hin)].
    + left. by apply armed_handed.
    + right; left. by apply armed_handed.
    + by right; right.
    + pose proof (scheduled_handed p' ts k call Hts Hin Hcall) as Ha. destruct Hk as [->| ->]; [by left | by right; left].
Qed.

Lemma tk_inv_steady p p' ts ck rc dl wd :
  steady p p' -> tk_inv (MkTSys p ts ck rc dl wd) -> tk_inv (handed p' ts ck rc dl wd).
Proof.
  intros [E1 E2] [H1 H2 H3 H4 H5 H6]. simpl in *. apply tk_inv_handed; [congruence | done | auto | | ].
  - intros Hv. destruct (H5 Hv); auto.
  - intros Hn. left. apply H6. congruence.
Qed.

(** The reconnection goes on. *)
Lemma tk_inv_going p p' ts ck rc rc' dl wd :
  steady p p' -> rc' <> None -> tk_inv (MkTSys p ts ck rc dl wd) -> tk_inv (handed p' ts ck rc' dl wd).
Proof.
  intros [E1 E2] Hrc [H1 H2 H3 H4 H5 H6]. simpl in *. apply tk_inv_handed; [congruence | done | auto | | ].
  - intros Hv. destruct (H5 Hv); auto.
  - intros _. left. by right; right; left.
Qed.

(** A step of a task: if its function is called, what the task was armed for is
    now up to the section that it runs. *)
Lemma tk_inv_task b k t p ts ck rc dl wd :
  quiet_tstep b (ts k) t -> tk_inv (MkTSys p ts ck rc dl wd) ->
  all_healthy (<[k := t]> ts) /\
  forall k', armed (ts k') -> (k = k' /\ b = true) \/ armed ((<[k := t]> ts : TS) k').
Proof. intros Hs [_ _ Hh _ _ _]. by apply task_step. Qed.

Lemma tk_inv_silent k t p ts ck rc dl wd :
  quiet_tstep false (ts k) t -> tk_inv (MkTSys p ts ck rc dl wd) -> tk_inv (MkTSys p (<[k := t]> ts) ck rc dl wd).
Proof.
  intros Hs Hi. destruct (tk_inv_task _ _ _ _ _ _ _ _ _ Hs Hi) as [Hts Ha]. destruct Hi as [H1 H2 H3 H4 H5 H6]. simpl in *.
  assert (forall k', armed (ts k') -> armed ((<[k := t]> ts : TS) k')) as Ha' by (intros k' Hk; by destruct (Ha k' Hk) as [[_ [=]]|]).
  constructor; simpl; [done | done | done | auto | |].
  - intros Hv. destruct (H5 Hv); auto.
  - intros Hn. destruct (H6 Hn) as [Hr|[Hr|Hr]]; simpl in Hr; [left; by apply Ha' | right; left; by apply Ha' | by right; right].
Qed.

(** ** The sections that tasks run *)

Lemma publish_reschedules p :
  p_status p = Started -> batch_publish_valid cfg = true ->
  (BatchPublishTask, ScheduleAfter (pc_batch_publishing_delay cfg)) ∈ p_task_calls (publish_batch cfg p).2.
Proof.
  intros Es Hv. destruct (publish_batch_run cfg p) as [[Hn _]|[_ [w ->]]]; [done|]. simpl.
  unfold batch_rescheduled. rewrite Hv. simpl. set_solver.
Qed.

Lemma tk_inv_batch m t p ts ck rc dl wd :
  invocation_turn m (ts BatchPublishTask) = Some t -> t_started t = t_started (ts BatchPublishTask) + 1 ->
  tk_inv (MkTSys p ts ck rc dl wd) -> tk_inv (handed (publish_batch cfg p).2 (<[BatchPublishTask := t]> ts) ck rc dl wd).
Proof.
  intros Et Es Hi. destruct (tk_inv_task true BatchPublishTask t p ts ck rc dl wd) as [Hts Ha]; [by eapply QtCall | done|].
  destruct Hi as [H1 H2 H3 H4 H5 H6]. simpl in *. destruct (steady_publish_batch p) as [E1 E2].
  apply tk_inv_handed; [congruence | done | | |].
  - intros Hv. right. eexists. by apply publish_reschedules.
  - intros Hv. destruct (H5 Hv) as [Hc|Hc]; [|by right; left]. destruct (Ha _ Hc) as [[[=] _]|]; by left.
  - intros Hn. rewrite E2 in Hn. left. destruct (H6 Hn) as [Hr|[Hr|Hr]]; simpl in Hr.
    + destruct (Ha _ Hr) as [[[=] _]|]; by left.
    + destruct (Ha _ Hr) as [[[=] _]|]; by right; left.
    + by right; right.
Qed.

Lemma tk_inv_check now m t p ts rc dl wd :
  invocation_turn m (ts ConfirmTimeoutTask) = Some t -> t_started t = t_started (ts ConfirmTimeoutTask) + 1 ->
  tk_inv (MkTSys p ts false rc dl wd) ->
  tk_inv (handed (collect_timed_out cfg now p).2 (<[ConfirmTimeoutTask := t]> ts) true rc dl wd).
Proof.
  intros Et Es Hi. destruct (tk_inv_task true ConfirmTimeoutTask t p ts false rc dl wd) as [Hts Ha]; [by eapply QtCall | done|].
  destruct Hi as [H1 H2 H3 H4 H5 H6]. simpl in *.
  apply tk_inv_handed; [done | done | | by right; left |].
  - intros Hv. destruct (Ha _ (H4 Hv)) as [[[=] _]|]; by left.
  - intros Hn. left. destruct (H6 Hn) as [Hr|[Hr|Hr]]; simpl in Hr.
    + destruct (Ha _ Hr) as [[[=] _]|]; by left.
    + destruct (Ha _ Hr) as [[[=] _]|]; by right; left.
    + by right; right.
Qed.

Lemma tk_inv_taken m t taken p p' ts ck rc wd :
  invocation_turn m (ts DelayedReconnectTask) = Some t -> t_started t = t_started (ts DelayedReconnectTask) + 1 ->
  delayed_take p = (Val taken, p') ->
  tk_inv (MkTSys p ts ck rc None wd) -> tk_inv (MkTSys p' (<[DelayedReconnectTask := t]> ts) ck rc taken wd).
Proof.
  intros Et Es E Hi. destruct (tk_inv_task true DelayedReconnectTask t p ts ck rc None wd) as [Hts Ha]; [by eapply QtCall | done|].
  destruct Hi as [H1 H2 H3 H4 H5 H6]. simpl in *. unfold delayed_take, mbind at 1, ST_bind at 1 in E. cbn [st_get] in E.
  rewrite bool_decide_true in E by done. injection E as <- <-.
  constructor; simpl; [done | done | done | | |].
  - intros Hv. by destruct (Ha _ (H4 Hv)) as [[[=] _]|].
  - intros Hv. destruct (H5 Hv) as [Hc|Hc]; [|by right]. destruct (Ha _ Hc) as [[[=] _]|]; by left.
  - intros _. by do 3 right.
Qed.

Lemma tk_inv_delayed client p p' ts ck rc wd :
  delayed_stop cfg client p = (Val tt, p') ->
  tk_inv (MkTSys p ts ck rc (Some client) wd) -> tk_inv (handed p' ts ck rc None wd).
Proof.
  intros E [H1 H2 H3 H4 H5 H6]. simpl in *. unfold delayed_stop in E.
  apply ST_bind_inv in E as [([] & p1 & E1 & E)|(e & _ & [=])].
  assert (steady p p1) as [S1 S2].
  { destruct client as [c|]; [|by injection E1 as <-]. pose proof (steady_onW (cw_stop c) p) as Hs. by rewrite E1 in Hs. }
  injection E as <-. apply tk_inv_handed; simpl; [congruence | done | auto | |].
  - intros Hv. destruct (H5 Hv); auto.
  - intros _. right. eexists _, _. split; [by left|]. split; [|apply elem_of_app; right; left]. done.
Qed.

(** A shutdown listener that returns. *)
Lemma tk_inv_shutdown returns reason p p' ts ck rc dl wd :
  handle_shutdown returns reason p = (Val tt, p') ->
  tk_inv (MkTSys p ts ck rc dl wd) -> tk_inv (handed p' ts ck rc dl wd).
Proof.
  intros E Hi. unfold handle_shutdown in E. unfold mbind at 1, ST_bind at 1 in E. cbn [st_get] in E.
  destruct (_ && _); [|injection E as <-; by apply (tk_inv_steady p)].
  assert (p' = set_task_calls (p_task_calls p ++ [(ReconnectTask, ScheduleNow)]) (set_client None p)) as ->.
  { unfold take_client, mbind, ST_bind in E. cbn in E.
    destruct (p_client p), returns; cbn in E; first [discriminate E | by injection E as <-]. }
  destruct Hi as [H1 H2 H3 H4 H5 H6]. simpl in *. apply tk_inv_handed; simpl; [done | done | auto | |].
  - intros Hv. destruct (H5 Hv); auto.
  - intros _. right. exists ReconnectTask, ScheduleNow. split; [by left|]. split; [done | apply elem_of_app; right; left].
Qed.

Lemma tk_inv_reconnect m t p ts ck dl wd :
  invocation_turn m (ts ReconnectTask) = Some t -> t_started t = t_started (ts ReconnectTask) + 1 ->
  tk_inv (MkTSys p ts ck None dl wd) ->
  tk_inv (MkTSys p (<[ReconnectTask := t]> ts) ck (match (reconnect_needed p).1 with Val true => Some PrGet | _ => None end) dl wd).
Proof.
  intros Et Es Hi. destruct (tk_inv_task true ReconnectTask t p ts ck None dl wd) as [Hts Ha]; [by eapply QtCall | done|].
  destruct Hi as [H1 H2 H3 H4 H5 H6]. cbn [tk_p tk_tasks tk_checking] in *. constructor; cbn [tk_p tk_tasks tk_checking]; [done | done | done | | |].
  - intros Hv. by destruct (Ha _ (H4 Hv)) as [[[=] _]|].
  - intros Hv. destruct (H5 Hv) as [Hc|Hc]; [|by right]. destruct (Ha _ Hc) as [[[=] _]|]; by left.
  - intros Hn. right; right; left. simpl. rewrite Hn, H1. done.
Qed.

Lemma failed_schedules client e p p' :
  reconnect_failed cfg client e p = (Val tt, p') ->
  steady p p' /\ exists k call, (k = ReconnectTask \/ k = StreamDeletedTask) /\ is_task_schedule call = true /\ (k, call) ∈ p_task_calls p'.
Proof.
  unfold reconnect_failed. intros E. apply ST_bind_inv in E as [([] & p1 & E1 & E)|(e' & _ & [=])].
  assert (steady p p1) as [S1 S2].
  { destruct client as [c|]; [|by injection E1 as <-]. pose proof (steady_onW (cw_stop c) p) as Hs. by rewrite E1 in Hs. }
  destruct (bool_decide _); injection E as <-; (split; [done|]).
  - exists StreamDeletedTask, ScheduleNow. simpl. split; [by right|]. split; [done | set_solver].
  - exists ReconnectTask, (ScheduleAfter (pc_recovery_retry_delay cfg)). simpl. split; [by left|]. split; [done | set_solver].
Qed.

Lemma steady_resend c sorted batch : preserves steady (resend cfg c sorted batch : ST PS exn unit).
Proof. revert batch. induction sorted as [|[id m] sorted IH]; intros batch; simpl; auto with preserves. Qed.

Lemma resent_client c p p' :
  p_status p = Started -> reconnect_resend cfg c p = (Val tt, p') -> p_status p' = Started /\ p_client p' = Some c.
Proof.
  intros Es E. unfold reconnect_resend in E. unfold mbind at 1, ST_bind at 1 in E. cbn [st_get] in E.
  rewrite bool_decide_true in E by done. cbn [negb] in E. apply ST_bind_inv in E as [([] & p1 & E1 & E)|(e & _ & [=])].
  injection E as <-. simpl. split; [|done].
  destruct (steady_resend c (sorted_unconfirmed p) [] p) as [Hs _]. rewrite E1 in Hs. simpl in Hs. congruence.
Qed.

Lemma resend_throws_steady c e p p' :
  p_status p = Started -> reconnect_resend cfg c p = (Throw e, p') -> steady p p'.
Proof.
  intros Es E. unfold reconnect_resend in E. unfold mbind at 1, ST_bind at 1 in E. cbn [st_get] in E.
  rewrite bool_decide_true in E by done. cbn [negb] in E. apply ST_bind_inv in E as [([] & p1 & E1 & E)|(e' & E1 & _)]; [done|].
  pose proof (steady_resend c (sorted_unconfirmed p) [] p) as Hs. by rewrite E1 in Hs.
Qed.

Lemma tk_inv_step s s' : tk_inv s -> tkstep s s' -> tk_wedged s' = false -> tk_inv s'.
Proof.
  intros Hi Hs. revert Hi. destruct Hs as
    [locks p p' ts ck rc dl wd Hsec Hl|c reason returns p ts ck rc dl Hret|k t left p ts ck rc dl wd Et|k m t p ts ck rc dl wd Et Es Hf
    |m t p ts ck rc dl Et Es|now m t p ts rc dl Et Es|p ts rc dl wd|m t taken p p' ts ck rc Et Es E|client p p' ts ck rc wd E
    |m t p ts ck dl Et Es|c p p' ts ck dl wd E|e p p' ts ck dl wd E He
    |c p p' ts ck dl wd E|c e p p' ts ck dl wd E He|c p p' ts ck dl E|c e p p' ts ck dl E He|client e p p' ts ck dl wd E];
    intros Hi Hw.
  - eapply tk_inv_steady; [by eapply steady_section | exact Hi].
  - destruct (handle_shutdown returns reason p) as [[[]|ex] p'] eqn:E; [|discriminate Hw]. by eapply tk_inv_shutdown.
  - apply tk_inv_silent; [|exact Hi]. destruct Et; [by eapply QtStrand | by eapply QtTimer].
  - apply tk_inv_silent; [|exact Hi]. by eapply QtEnd.
  - by eapply tk_inv_batch.
  - by eapply tk_inv_check.
  - destruct Hi as [H1 H2 H3 H4 H5 H6]. simpl in *. apply tk_inv_handed; [done | done | auto | |].
    + intros _. right; right. exists (get_confirm_check_delay (pc_confirm_timeout cfg)). simpl. set_solver.
    + intros Hn. left. by apply H6.
  - by eapply tk_inv_taken.
  - by eapply tk_inv_delayed.
  - by eapply tk_inv_reconnect.
  - eapply tk_inv_going; [|done | exact Hi]. pose proof (steady_onW (cw_get_producer_client (pc_stream cfg)) p) as Hst.
    unfold get_client in E. by rewrite E in Hst.
  - eapply tk_inv_going; [|done | exact Hi]. pose proof (steady_onW (cw_get_producer_client (pc_stream cfg)) p) as Hst.
    unfold get_client in E. by rewrite E in Hst.
  - eapply tk_inv_going; [|done | exact Hi].
    assert (preserves steady (reconnect_connect cfg c : ST PS exn unit)) as Hst by (unfold reconnect_connect; auto with preserves).
    specialize (Hst p). by rewrite E in Hst.
  - eapply tk_inv_going; [|done | exact Hi].
    assert (preserves steady (reconnect_connect cfg c : ST PS exn unit)) as Hst by (unfold reconnect_connect; auto with preserves).
    specialize (Hst p). by rewrite E in Hst.
  - destruct Hi as [H1 H2 H3 H4 H5 H6]. simpl in *. destruct (resent_client c p p' H1 E) as [Es' Ec].
    apply tk_inv_handed; [done | done | auto | | by rewrite Ec]. intros Hv. destruct (H5 Hv); auto.
  - eapply tk_inv_going; [by eapply resend_throws_steady; [apply (tk_started _ Hi) | exact E] | done | exact Hi].
  - destruct (failed_schedules client e p p' E) as [[E1 E2] Hsch]. destruct Hi as [H1 H2 H3 H4 H5 H6]. simpl in *.
    apply tk_inv_handed; [congruence | done | auto | |by right]. intros Hv. destruct (H5 Hv); auto.
Qed.

Lemma emplace_all_pending ms p w a :
  m_pending (p_accumulator (fold_left (fun p m => emplaced m p) ms (set_world w (set_accumulator (with_pending [] a) p)))) = [].
Proof.
  assert (forall q, p_accumulator (fold_left (fun p m => emplaced m p) ms q) = p_accumulator q) as E.
  { induction ms as [|m ms IH]; intros q; simpl; [done|]. rewrite IH. unfold emplaced, emplace_unconfirmed. simpl.
    by destruct (p_unconfirmed q !! _). }
  by rewrite E.
Qed.

(** ** start arms the tasks *)

Lemma start_connect_schedules p p' :
  start_connect cfg p = (Val tt, p') ->
  p_client p' <> None /\
  (batch_publish_valid cfg = true -> (BatchPublishTask, ScheduleAfter (pc_batch_publishing_delay cfg)) ∈ p_task_calls p') /\
  (confirm_timeout_valid cfg = true ->
     (ConfirmTimeoutTask, ScheduleAfter (get_confirm_check_delay (pc_confirm_timeout cfg))) ∈ p_task_calls p').
Proof.
  unfold start_connect. intros E.
  apply ST_bind_inv in E as [([] & p1 & _ & E)|(e & _ & [=])].
  apply ST_bind_inv in E as [(c & p2 & _ & E)|(e & _ & [=])].
  apply ST_bind_inv in E as [([] & p3 & E3 & E)|(e & _ & [=])]. injection E3 as <-.
  apply ST_bind_inv in E as [([] & p4 & E4 & E)|(e & _ & [=])].
  apply ST_bind_inv in E as [([] & p5 & E5 & E)|(e & _ & [=])]. injection E5 as <-.
  apply ST_bind_inv in E as [([] & p6 & E6 & E)|(e & _ & [=])].
  apply ST_bind_inv in E as [([] & p7 & E7 & E)|(e & _ & [=])].
  apply ST_bind_inv in E as [([] & p8 & E8 & E)|(e & _ & [=])].
  assert (p_client p7 = Some c) as Ec.
  { pose proof (steady_onW (cw_start c) (set_client (Some c) p2)) as [_ S4]. rewrite E4 in S4.
    assert (p_client p6 = Some c) as Ec6.
    { destruct (bool_decide _); [by injection E6 as <-|].
      apply ST_bind_inv in E6 as [(lp & pq & E6 & E6')|(e & _ & [=])]. injection E6' as <-. simpl.
      pose proof (steady_onW (cw_query_publisher_sequence c (pc_name cfg) (pc_stream cfg))
        (set_accumulator (set_max_frame_size (cw_max_frame_size c (p_world p4)) (p_accumulator p4)) p4)) as [_ S6].
      rewrite E6 in S6. simpl in *. congruence. }
    pose proof (steady_onW (cw_declare_publisher c publisher_id (pc_name cfg) (pc_stream cfg)) p6) as [_ S7].
    rewrite E7 in S7. simpl in S7. congruence. }
  destruct (batch_publish_valid cfg); injection E8 as <-;
    (destruct (confirm_timeout_valid cfg); injection E as <-); simpl; rewrite Ec; (split; [done|]);
    (split; intros Hv); try done; set_solver.
Qed.

Lemma tk_inv_initial w s : tk_initial w s -> tk_inv s.
Proof.
  intros (p & E & ->). unfold start in E. apply ST_bind_inv in E as [([] & p1 & _ & E)|(e & _ & [=])].
  apply ST_bind_inv in E as [([] & p2 & E2 & E)|(e & _ & [=])]. apply start_connect_schedules in E2 as (Hc & Hb & Ht).
  unfold start_finish, compare_exchange, mbind, ST_bind in E. cbn [st_get] in E. case_decide; [|done]. injection E as <-.
  apply tk_inv_handed; simpl; [done | apply new_healthy | | | by intros Hn].
  - intros Hv. right. eexists. by apply Hb.
  - intros Hv. right; right. eexists. by apply Ht.
Qed.

(** *** A mutex that is held for ever *)

Definition stuck (s : tsys) : Prop := tk_wedged s = true /\ p_client (tk_p s) = None.

Lemma unlocked_section p p' : section_step false p p' -> p_unconfirmed p' = p_unconfirmed p.
Proof.
  intros Hs. inversion Hs as [now expired pc pc' q q' E Hl|q|q|id q|id code q|i q q' E|i q q' E|stream q|w q]; subst.
  - destruct pc as [id msg handler|id msg handler|m| |r]; [| | |discriminate|discriminate]; cbn [send_step] in E.
    + destruct (send_acquire cfg expired p) as [[r q]|] eqn:Ea; [|done]. simpl in E. injection E as _ <-.
      unfold send_acquire in Ea. destruct (_ =? 0); [destruct (acquire _) as [[]|] | destruct (try_acquire_for _ _) as [[]|]];
        simpl in Ea; try done; by injection Ea as _ <-.
    + unfold send_prepare, mbind, ST_bind in E. cbn [st_get] in E.
      destruct (add_prepare _ _ _ _ _ _); by injection E as _ <-.
    + destruct (send_commit m p) as [[r q]|] eqn:Ec; [|done]. simpl in E. injection E as _ <-.
      unfold send_commit in Ec. destruct (add_commit m _) as [[o a]|]; [|done]. simpl in Ec. destruct o; by injection Ec as _ <-.
  - done.
  - unfold deliver in E. destruct (p_delivering p !! i) as [[m st]|]; [|done]. simpl in E. by injection E as <-.
  - unfold retire in E. destruct (p_retired p !! i); [|done]. simpl in E. by injection E as <-.
  - unfold handle_metadata_update. by destruct (bool_decide _).
  - done.
Qed.

Definition same_messages p p' : Prop := p_client p' = p_client p /\ p_unconfirmed p' = p_unconfirmed p.

#[local] Instance same_messages_preorder : PreOrder same_messages.
Proof. split; [done|]. intros p1 p2 p3 [] []. split; congruence. Qed.

Lemma same_messages_onW {A} (m : ST W exn A) : preserves same_messages (onW m).
Proof. intros p. unfold onW. by destruct (m (p_world p)). Qed.
#[local] Hint Resolve same_messages_onW : preserves.
#[local] Hint Extern 1 (preserves same_messages (st_modify _)) => by apply (preserves_modify same_messages) : preserves.

Lemma same_messages_run {A} (m : ST PS exn A) p r p' : preserves same_messages m -> m p = (r, p') -> same_messages p p'.
Proof. intros Hm E. specialize (Hm p). by rewrite E in Hm. Qed.

Lemma stuck_step s s' :
  stuck s -> tkstep s s' -> stuck s' /\ p_unconfirmed (tk_p s') = p_unconfirmed (tk_p s).
Proof.
  intros [Hw Hc] Hs.
  assert (tk_wedged s' = true /\ same_messages (tk_p s) (tk_p s')) as (H1 & H2 & H3);
    [|by split; [split; [|congruence]|]].
  destruct Hs as
    [locks p p' ts ck rc dl wd Hsec Hl| | | | | | |m t taken p p' ts ck rc Et Es E|client p p' ts ck rc wd E
    | |c p p' ts ck dl wd E|e p p' ts ck dl wd E He
    |c p p' ts ck dl wd E|c e p p' ts ck dl wd E He|c p p' ts ck dl E|c e p p' ts ck dl E He|client e p p' ts ck dl wd E];
    simpl in Hw, Hc; try discriminate; (split; [exact Hw|]); cbn [tk_p handed]; try done.
  - subst wd. rewrite andb_true_r in Hl. subst locks. split; [apply (steady_section _ _ _ Hsec) | exact (unlocked_section _ _ Hsec)].
  - eapply (same_messages_run (delayed_stop cfg client)) in E; [exact E|]. unfold delayed_stop, task_call. auto with preserves.
  - eapply (same_messages_run (get_client cfg)) in E; [exact E|]. unfold get_client. auto with preserves.
  - eapply (same_messages_run (get_client cfg)) in E; [exact E|]. unfold get_client. auto with preserves.
  - eapply (same_messages_run (reconnect_connect cfg c)) in E; [exact E|]. unfold reconnect_connect. auto with preserves.
  - eapply (same_messages_run (reconnect_connect cfg c)) in E; [exact E|]. unfold reconnect_connect. auto with preserves.
  - eapply (same_messages_run (reconnect_failed cfg client e)) in E; [exact E|]. unfold reconnect_failed, task_call. auto with preserves.
Qed.

Lemma stuck_for_ever s s' :
  stuck s -> rtc tkstep s s' -> stuck s' /\ p_unconfirmed (tk_p s') = p_unconfirmed (tk_p s).
Proof.
  intros Hst Hr. revert Hst. induction Hr as [s|s1 s2 s3 Hs _ IH]; intros Hst; [done|].
  destruct (stuck_step _ _ Hst Hs) as [H1 E1]. destruct (IH H1) as [H2 E2]. split; [done | congruence].
Qed.

(** The one step that leaves the mutex locked. *)
Lemma wedging_step s s' :
  tk_wedged s = false -> tkstep s s' -> tk_wedged s' = true ->
  p_client (tk_p s') = None /\
  exists c reason, reason <> ClientInitiated /\ drop_may_block c reason (p_client (tk_p s)) = true.
Proof.
  intros Hw Hs Hw'. destruct Hs as
    [ |c reason returns p ts ck rc dl Hret| | | | | | | | | | | | | | | ]; cbn [tk_wedged handed] in *; try congruence.
  unfold handle_shutdown, take_client, mbind, ST_bind in *. cbn in *. destruct (bool_decide_reflect (reason = ClientInitiated)) as [|Hr];
    cbn [negb andb] in *; [discriminate|]. destruct (bool_decide (p_status p = Started)); [|discriminate].
  destruct (p_client p) as [d|]; [|discriminate]. destruct returns; [discriminate|]. split; [done|].
  exists c, reason. destruct Hret as [[=]|Hret]. done.
Qed.

Lemma tk_inv_reachable s : tk_reachable s -> if tk_wedged s then stuck s else tk_inv s.
Proof.
  intros (w & s0 & Hi & Hr). assert (tk_wedged s0 = false) as Ew by (by destruct Hi as (p & _ & ->)).
  apply tk_inv_initial in Hi. assert (if tk_wedged s0 then stuck s0 else tk_inv s0) as Hg by (by rewrite Ew). clear Ew Hi.
  induction Hr as [|s1 s2 s3 Hs _ IH]; [done|]. apply IH. clear IH. destruct (tk_wedged s1) eqn:E1.
  - destruct (stuck_step _ _ Hg Hs) as [Hst _]. by rewrite (proj1 Hst).
  - destruct (tk_wedged s2) eqn:E2; [|by eapply tk_inv_step]. split; [done|]. by eapply wedging_step.
Qed.

(** ** An armed task runs *)

Lemma silent_tksteps k t t' p ts ck rc dl wd :
  rtc (quiet_tstep false) t t' -> ts k = t -> producer_function_over k (MkTSys p ts ck rc dl wd) ->
  exists ts', rtc tkstep (MkTSys p ts ck rc dl wd) (MkTSys p ts' ck rc dl wd) /\ ts' k = t'.
Proof.
  intros Hs. revert ts. induction Hs as [t|t t1 t2 Hs _ IH]; intros ts Et Hf; [by exists ts|].
  destruct (IH (<[k := t1]> ts)) as (ts' & Hr & Et'); [apply fn_lookup_insert | by destruct k|]. exists ts'. split; [|done].
  eapply rtc_l; [|exact Hr]. subst t. inversion Hs; subst.
  - eapply TkTask. left. eassumption.
  - eapply (TkTask _ _ 0). by right.
  - by eapply TkTaskEnd.
Qed.

(** The task's function is called next, in the same state of the producer. *)
Lemma armed_calls_task k p ts ck rc dl wd :
  tk_inv (MkTSys p ts ck rc dl wd) -> armed (ts k) -> producer_function_over k (MkTSys p ts ck rc dl wd) ->
  exists ts' m t, rtc tkstep (MkTSys p ts ck rc dl wd) (MkTSys p ts' ck rc dl wd) /\
    invocation_turn m (ts' k) = Some t /\ t_started t = t_started (ts' k) + 1.
Proof.
  intros Hi Ha Hf. destruct (tk_healthy _ Hi k) as [Hh Ht]. simpl in Hh, Ht.
  destruct (armed_calls _ Hh Ht Ha) as (t1 & t2 & Hs & Hcall).
  destruct (silent_tksteps k _ t1 p ts ck rc dl wd Hs eq_refl Hf) as (ts' & Hr & Et). subst t1.
  inversion Hcall as [| |m t t' E Es|]; subst. by exists ts', m, t2.
Qed.

Lemma reschedule_handed p ts rc dl :
  tk_inv (MkTSys p ts true rc dl false) ->
  exists ts', tkstep (MkTSys p ts true rc dl false) (MkTSys p ts' false rc dl false) /\ tk_inv (MkTSys p ts' false rc dl false) /\ armed (ts' ConfirmTimeoutTask).
Proof.
  intros Hi. assert (set_task_calls [] (reschedule_confirm_timeout cfg p).2 = p) as Ep.
  { pose proof (tk_handed _ Hi) as E. simpl in E. destruct p. simpl in *. by subst. }
  pose proof (TkChecked p ts rc dl false) as Hs. pose proof (tk_inv_step _ _ Hi Hs eq_refl) as Hi'. unfold handed in Hs, Hi'.
  rewrite Ep in Hs, Hi'. eexists. split; [exact Hs|]. split; [exact Hi'|].
  eapply (scheduled_handed (reschedule_confirm_timeout cfg p).2 ts ConfirmTimeoutTask
           (ScheduleAfter (get_confirm_check_delay (pc_confirm_timeout cfg))));
    [apply (tk_healthy _ Hi) | simpl; set_solver | done].
Qed.


End producer_tasks.

(** A producer that publishes every 100 ms, with one message waiting. *)
Definition delayed_config : ProducerConfig := MkProducerConfig "app" "invoices" 10 100 3 30000 0 5000.

Definition delayed_start : tsys :=
  handed (start delayed_config (new_Producer delayed_config [])).2 (fun _ => new_Task) false None None false.

Definition waiting_message : AccumulatedMessage := MkAccumulatedMessage 0 7 (MkMessage [x61] []) [x61] None.

Definition waiting_state : PState :=
  set_accepted [waiting_message]
    (set_accumulator (with_pending [waiting_message] (p_accumulator (tk_p delayed_start))) (tk_p delayed_start)).

Definition delayed_waiting : tsys :=
  handed waiting_state (tk_tasks delayed_start) (tk_checking delayed_start) (tk_reconnect delayed_start)
    (tk_delayed delayed_start) (tk_wedged delayed_start).

Lemma delayed_waiting_reachable : tk_reachable delayed_config MkRawCodec delayed_waiting.
Proof.
  exists [], delayed_start. split.
  - exists (start delayed_config (new_Producer delayed_config [])).2. split; [vm_compute; reflexivity | reflexivity].
  - apply rtc_once, (section_tkstep _ _ false); [|reflexivity].
    apply (SecSend _ _ 0 false (SendCommit waiting_message) (SendDone (Val tt))). vm_compute. reflexivity.
Qed.

