(* ===== verification/ProducerAlone.v ===== *)
(** * The producer's functions as runs of the system

    [ProducerSystem] cuts the functions of the producer into critical sections.
    Here they are put together again: run by itself, from the first section to the
    last, a function does exactly what the code says in one piece.  So the
    interleavings contain every sequential use of the producer. *)

From S2P Require Import Prelude Words OrdMap Types BinaryBuffer ClientCommands Messages Semaphore Accumulator Producer ProducerSystem.

Section alone.
Context {W : Type} `{ClientWorld W} {C : Type} `{Codec C}.
Context (cfg : ProducerConfig) (codec : C).
Abbreviation PS := (@PState W).
Implicit Types p : PS.

(** A call of [send] that nobody interrupts: at most four sections. *)
Fixpoint run_send (fuel : nat) (now : Z) (expired : bool) (pc : send_pc) p : option (outcome exn unit * PS) :=
  match pc, fuel with
  | SendDone r, _ => Some (r, p)
  | _, O => None
  | _, S fuel => '(pc', p') ← send_step cfg codec now expired pc p; run_send fuel now expired pc' p'
  end.

(** A call of [internal_stop]: at most eight. *)
Fixpoint run_stop (fuel : nat) (pc : stop_pc) p : option (outcome exn unit * PS) :=
  match pc, fuel with
  | StopDone r, _ => Some (r, p)
  | _, O => None
  | _, S fuel => '(pc', p') ← stop_step pc p; run_stop fuel pc' p'
  end.

(** A call of a listener: the handlers of the messages that it takes out. *)
Definition listener_call (listener : ST PS exn unit) : ST PS exn unit :=
  n ← st_gets (fun p => length (p_delivering p)); listener ;; deliver_from n.

(** The messages that are done with are destroyed. *)
Fixpoint retire_all (n : nat) p : PS :=
  match n with O => p | S n => retire_all n (default p (retire 0 p)) end.

Lemma run_send_prepared now expired id msg handler p :
  run_send 3 now expired (SendPrepare id msg handler) p =
  match send_prepare codec now id msg handler p with
  | (Throw e, p') => Some (Throw (send_exception e), p')
  | (Val m, p') =>
      '(r, p'') ← send_commit m p';
      match r with
      | Throw e => Some (Throw (send_exception e), p'')
      | Val full => Some (if full : bool then publish_batch cfg p'' else (Val tt, p''))
      end
  end.
Proof.
  cbn [run_send send_step]. destruct (send_prepare codec now id msg handler p) as [[m|e] p']; [|done].
  cbn [mbind option_bind run_send send_step]. destruct (send_commit m p') as [[[full|e] p'']|]; [|done | done].
  destruct full; [|done]. cbn [mbind option_bind run_send send_step]. by destruct (publish_batch cfg p'').
Qed.

Lemma send_alone now expired id msg handler p :
  run_send 4 now expired (send_call id msg handler p) p = send cfg codec now expired id msg handler p.
Proof.
  assert (send_check p = if bool_decide (p_status p = Started) then (Val tt, p) else (Throw PRODUCER_STOPPED, p)) as Ec
    by (unfold send_check, mbind, ST_bind; cbn [st_get]; by case_bool_decide).
  unfold send, send_call. rewrite Ec. destruct (bool_decide (p_status p = Started)); [|done]. cbn [fst].
  change (run_send 4 now expired (SendAcquire id msg handler) p) with
    ('(pc', p') ← send_step cfg codec now expired (SendAcquire id msg handler) p; run_send 3 now expired pc' p').
  cbn [send_step]. destruct (send_acquire cfg expired p) as [[[u|e] p']|]; [|done | done].
  cbn [mbind option_bind]. rewrite run_send_prepared. by destruct (send_prepare codec now id msg handler p').
Qed.

Lemma producer_stop_alone code p : run_stop 8 (StopTasks code) p = Some (internal_stop code p).
Proof.
  unfold internal_stop. rewrite (ST_bind_Val destroy_tasks _ p tt (destroy_tasks p).2) by done.
  change (run_stop 8 (StopTasks code) p) with (run_stop 7 (StopExchange code) (destroy_tasks p).2).
  set (p1 := (destroy_tasks p).2).
  rewrite (ST_bind_Val stop_exchange _ p1 (negb (bool_decide (p_status p1 = Stopped))) (set_status Stopped p1)) by done.
  change (run_stop 7 (StopExchange code) p1) with
    (run_stop 6 (if negb (bool_decide (p_status p1 = Stopped)) then StopAccumulator code else StopDone (Val tt)) (set_status Stopped p1)).
  destruct (negb (bool_decide (p_status p1 = Stopped))); [|done].
  set (p2 := set_status Stopped p1). rewrite (ST_bind_Val stop_accumulator _ p2 tt (stop_accumulator p2).2) by done.
  change (run_stop 6 (StopAccumulator code) p2) with (run_stop 5 (StopSemaphore code) (stop_accumulator p2).2).
  set (p3 := (stop_accumulator p2).2). rewrite (ST_bind_Val stop_semaphore _ p3 tt (stop_semaphore p3).2) by done.
  change (run_stop 5 (StopSemaphore code) p3) with (run_stop 4 (StopTake code) (stop_semaphore p3).2).
  set (p4 := (stop_semaphore p3).2). rewrite (ST_bind_Val take_client _ p4 (p_client p4) (set_client None p4)) by done.
  change (run_stop 4 (StopTake code) p4) with (run_stop 3 (StopClient code (p_client p4)) (set_client None p4)).
  set (p5 := set_client None p4). cbn [run_stop stop_step].
  destruct (stop_client (p_client p4) p5) as [[[]|e] p6] eqn:E6; cbn [mbind option_bind].
  - rewrite (ST_bind_Val _ _ _ _ _ E6), (ST_bind_Val _ _ _ _ _ (fail_all_run code p6)).
    cbn [run_stop stop_step mbind option_bind]. rewrite fail_all_run. cbn [snd].
    by destruct (onW cw_unregister_producer _) as [r p7].
  - by rewrite (ST_bind_Throw _ _ _ _ _ E6).
Qed.

(** ** The functions of the other threads *)

Abbreviation others := (rtc (other_step cfg)).

Lemma producer_start_alone p : others p (start cfg p).2.
Proof.
  unfold start. unfold mbind at 1, ST_bind at 1. eapply rtc_l; [apply other_start_begin|].
  destruct (start_begin p) as [[[]|e] p1]; [|done]. cbn [snd].
  unfold mbind, ST_bind. eapply rtc_l; [apply other_start_connect|].
  destruct (start_connect cfg p1) as [[[]|e] p2]; [|done]. cbn [snd]. apply rtc_once, other_start_finish.
Qed.

Lemma deliver_from_cons n p ms l :
  drop n (p_delivering p) = ms :: l ->
  exists p1, deliver n p = Some p1 /\ drop n (p_delivering p1) = l /\ (deliver_from n p1).2 = (deliver_from n p).2.
Proof.
  intros Ed. assert (p_delivering p !! n = Some ms) as En by (rewrite <- (Nat.add_0_r n), <- lookup_drop, Ed; done).
  unfold deliver. rewrite En. destruct ms as [m st]. simpl. eexists. split; [done|].
  assert (drop n (delete n (p_delivering p)) = l) as Ed'.
  { rewrite delete_take_drop, drop_app_length' by (rewrite length_take; apply lookup_lt_Some in En; lia).
    by rewrite <- Nat.add_1_r, <- drop_drop, Ed. }
  simpl. split; [exact Ed'|]. unfold deliver_from. simpl. rewrite Ed', Ed. simpl.
  rewrite delete_take_drop, take_app_length' by (rewrite length_take; apply lookup_lt_Some in En; lia).
  rewrite <- !app_assoc. done.
Qed.

Lemma deliver_from_alone n p : others p (deliver_from n p).2.
Proof.
  remember (drop n (p_delivering p)) as l eqn:El. revert p El. induction l as [|ms l IH]; intros p El.
  - assert ((deliver_from n p).2 = p) as ->; [|apply rtc_refl]. unfold deliver_from. simpl. rewrite <- El. simpl.
    rewrite !app_nil_r. rewrite (take_ge (p_delivering p)) by (apply (f_equal length) in El; rewrite length_drop in El; simpl in El; lia).
    by destruct p.
  - destruct (deliver_from_cons n p ms l (eq_sym El)) as (p1 & E1 & Ed & Ef). rewrite <- Ef.
    eapply rtc_l; [by eapply other_deliver | by apply IH].
Qed.

Lemma check_confirm_timeout_alone now p : others p (check_confirm_timeout cfg now p).2.
Proof.
  unfold check_confirm_timeout. unfold mbind, ST_bind. cbn [st_gets]. eapply rtc_l; [apply (other_timeout _ now)|].
  destruct (collect_timed_out cfg now p) as [[[]|e] p1]; [|done]. cbn [snd].
  etransitivity; [apply deliver_from_alone|]. cbn [deliver_from st_modify snd]. apply rtc_once, other_reschedule.
Qed.

Lemma reconnect_failed_alone client e p : others p (reconnect_failed cfg client e p).2.
Proof. apply rtc_once, other_failed. Qed.

Lemma reconnect_alone p : others p (reconnect_to_server cfg p).2.
Proof.
  unfold reconnect_to_server. unfold mbind at 1, ST_bind at 1.
  assert (exists b, reconnect_needed p = (Val b, p)) as [b ->] by (unfold reconnect_needed, mbind, ST_bind; by eexists).
  destruct b; [|done]. cbn [negb].
  unfold mbind at 1, ST_bind at 1. unfold catch_stream at 1, st_catch at 1. unfold mbind at 1, ST_bind at 1.
  eapply rtc_l; [apply other_get_client|]. destruct (get_client cfg p) as [[c|e] p1]; cbn [snd].
  - cbn [mret ST_ret]. unfold catch_stream, st_catch. unfold mbind at 1, ST_bind at 1.
    eapply rtc_l; [apply (other_connect _ c)|]. destruct (reconnect_connect cfg c p1) as [[[]|e] p2]; cbn [snd].
    + eapply rtc_l; [apply (other_resend _ c)|]. destruct (reconnect_resend cfg c p2) as [[[]|e] p3]; [done|]. cbn [snd].
      destruct (is_StreamException e); [apply reconnect_failed_alone | done].
    + destruct (is_StreamException e); [apply reconnect_failed_alone | done].
  - destruct (is_StreamException e); [|done]. unfold mbind, ST_bind.
    pose proof (reconnect_failed_alone None e p1) as Hr. by destruct (reconnect_failed cfg None e p1) as [[[]|e'] p2].
Qed.

End alone.
