(* ===== verification/ProducerSpec.v ===== *)
(** * What a producer promises

    A producer seen from outside is a bounded bag of messages.  [spec_step] is
    this machine: a message is taken in while there is room and the producer is
    open; a message that is in the bag is told to its handler, which takes it
    out, and a confirmation is told only if the broker has sent it; the producer
    closes once.  A message whose publishing id another one in the bag has can
    also be forgotten.  The system of [ProducerSystem], with its threads, tasks,
    listeners and the places a message goes through, refines it. *)

From S2P Require Import Prelude Words OrdMap Types BinaryBuffer ClientCommands Messages Semaphore Accumulator Producer ProducerSystem.

(** ** The specification *)

Record producer_spec := MkProducerSpec {
  sp_open : bool;
  sp_waiting : list AccumulatedMessage;
  sp_confirmed : list Z;
  sp_accepted : list AccumulatedMessage;
  sp_told : list (AccumulatedMessage * ConfirmationStatus);
  sp_forgotten : list AccumulatedMessage
}.

Definition spec_init : producer_spec := MkProducerSpec true [] [] [] [] [].

(** The status is about the message, and confirms it only if the broker did. *)
Definition truthful (confirmed : list Z) (m : AccumulatedMessage) (s : ConfirmationStatus) : Prop :=
  cs_publishing_id s = am_publishing_id m /\ cs_message s = am_message m /\
  (cs_confirmed s = true -> cs_status_code s = rc_value Ok /\ am_publishing_id m ∈ confirmed).

Inductive spec_step (capacity : Z) : producer_spec -> producer_spec -> Prop :=
| SpAccept m waiting waiting' cs acc told forgotten :
    lenZ waiting < capacity -> waiting' ≡ₚ m :: waiting ->
    spec_step capacity (MkProducerSpec true waiting cs acc told forgotten)
                       (MkProducerSpec true waiting' cs (acc ++ [m]) told forgotten)
| SpConfirm id open waiting cs acc told forgotten :
    spec_step capacity (MkProducerSpec open waiting cs acc told forgotten)
                       (MkProducerSpec open waiting (cs ++ [id]) acc told forgotten)
| SpTell m s open waiting waiting' cs acc told forgotten :
    waiting ≡ₚ m :: waiting' -> truthful cs m s ->
    spec_step capacity (MkProducerSpec open waiting cs acc told forgotten)
                       (MkProducerSpec open waiting' cs acc (told ++ [(m, s)]) forgotten)
| SpForget m m' open waiting waiting' cs acc told forgotten :
    waiting ≡ₚ m :: waiting' -> m' ∈ waiting' -> am_publishing_id m' = am_publishing_id m ->
    spec_step capacity (MkProducerSpec open waiting cs acc told forgotten)
                       (MkProducerSpec open waiting' cs acc told (forgotten ++ [m]))
| SpClose waiting cs acc told forgotten :
    spec_step capacity (MkProducerSpec true waiting cs acc told forgotten)
                       (MkProducerSpec false waiting cs acc told forgotten).

(** The machine accounts for every message, and never holds more than it may. *)
Lemma spec_accounts capacity a :
  0 <= capacity -> rtc (spec_step capacity) spec_init a ->
  sp_accepted a ≡ₚ sp_waiting a ++ (sp_told a).*1 ++ sp_forgotten a /\ lenZ (sp_waiting a) <= capacity.
Proof.
  intros H0 Hr. revert a Hr. apply rtc_ind_r; [split; [done | exact H0]|].
  intros a a' _ Hs [IH Hl]. destruct Hs as [m w w' cs acc told f Hlt E|id|m s o w w' cs acc told f E|m m' o w w' cs acc told f E|];
    simpl in *; [| done | | | done]; rewrite IH, ?(perm_lenZ _ _ E), ?fmap_app; rewrite ?(perm_lenZ _ _ E) in Hl;
    (split; [rewrite E; simpl; solve_Permutation | lenZ_lia]).
Qed.

(** ** The simulation *)

Section refinement.
Context {W : Type} `{ClientWorld W} {C : Type} `{Codec C}.
Context (cfg : ProducerConfig) (codec : C).
Abbreviation PS := (@PState W).
Abbreviation sstep := (spec_step (pc_max_unconfirmed cfg)).
Implicit Types (p : PS) (a : producer_spec) (hand : list AccumulatedMessage).

(** Where the messages of the bag are; [hand] are those that the running section
    holds. *)
Definition in_bag hand p : list AccumulatedMessage :=
  hand ++ m_pending (p_accumulator p) ++ values (p_unconfirmed p) ++ (p_delivering p).*1.

Record abstracts hand p a : Prop := MkAbstracts {
  ab_open : sp_open a = negb (acc_destroyed (p_accumulator p));
  ab_waiting : sp_waiting a ≡ₚ in_bag hand p;
  ab_confirmed : sp_confirmed a = p_confirms p;
  ab_accepted : sp_accepted a = p_accepted p;
  ab_told : sp_told a = p_settled p;
  ab_forgotten : sp_forgotten a = p_dropped p
}.

(** What a section does is a run of the machine. *)
Definition simulated hand hand' p p' : Prop :=
  forall a, abstracts hand p a -> exists a', rtc sstep a a' /\ abstracts hand' p' a'.

Lemma simulated_trans h1 h2 h3 p1 p2 p3 : simulated h1 h2 p1 p2 -> simulated h2 h3 p2 p3 -> simulated h1 h3 p1 p3.
Proof.
  intros S1 S2 a1 A1. destruct (S1 a1 A1) as (a2 & R1 & A2). destruct (S2 a2 A2) as (a3 & R2 & A3).
  exists a3. split; [by etrans | done].
Qed.

(** Messages change their place, and perhaps the accumulator closes. *)
Lemma simulated_silent hand hand' p p' :
  in_bag hand' p' ≡ₚ in_bag hand p ->
  (p_confirms p', p_accepted p', p_settled p', p_dropped p') = (p_confirms p, p_accepted p, p_settled p, p_dropped p) ->
  (closed p -> closed p') -> simulated hand hand' p p'.
Proof.
  intros Eb [= E1 E2 E3 E4] Hc a [A1 A2 A3 A4 A5 A6]. destruct a as [o w cs acc told forgotten]. simpl in *. unfold closed in Hc.
  destruct (acc_destroyed (p_accumulator p)) eqn:Ed, (acc_destroyed (p_accumulator p')) eqn:Ed'; simpl in *; subst;
    try (by specialize (Hc eq_refl)).
  1, 3: eexists; split; [apply rtc_refl | split; simpl; rewrite ?Ed'; first [done | congruence | by rewrite Eb]].
  eexists; split; [apply rtc_once, SpClose | split; simpl; rewrite ?Ed'; first [done | congruence | by rewrite Eb]].
Qed.

Lemma simulated_quiet hand p p' : quiet p p' -> simulated hand hand p p'.
Proof.
  intros [E [_ L]]. injection E as E1 _ E3 E4 E5 E6 E7 E8 E9. apply simulated_silent; [|congruence | done].
  unfold in_bag. by rewrite E1, E3, E5.
Qed.

Lemma simulated_quiet_op {A} hand (m : ST PS exn A) p : quiet_op m -> simulated hand hand p (m p).2.
Proof. intros Hm. apply simulated_quiet, Hm. Qed.

(** *** A batch *)

Lemma simulated_emplace n m hand p : pinv cfg n (m :: hand) p -> simulated (m :: hand) hand p (emplaced m p).
Proof.
  intros Hi. unfold emplaced, emplace_unconfirmed. simpl.
  destruct (p_unconfirmed p !! am_publishing_id m) as [m'|] eqn:E.
  - intros [o w cs acc told forgotten] [A1 A2 A3 A4 A5 A6]. simpl in *. subst. eexists. split.
    + apply rtc_once, (SpForget _ m m' _ _ (in_bag hand p)); [done | |by apply (pinv_keyed _ _ _ _ Hi)].
      unfold in_bag. rewrite (values_delete _ _ _ E). set_solver.
    + by split.
  - apply simulated_silent; [|done | done]. unfold in_bag. simpl. rewrite (values_insert _ _ _ E). solve_Permutation.
Qed.

Lemma simulated_emplace_all n ms p :
  pinv cfg n ms p -> simulated ms [] p (fold_left (fun p m => emplaced m p) ms p).
Proof.
  revert p. induction ms as [|m ms IH]; intros p Hi; simpl; [by apply simulated_quiet|].
  eapply simulated_trans; [by eapply simulated_emplace | by apply IH, pinv_emplace].
Qed.

Lemma simulated_publish_batch n p : pinv cfg n [] p -> simulated [] [] p (publish_batch cfg p).2.
Proof.
  intros Hi. destruct (publish_batch_run cfg p) as [[_ ->]|[_ [w ->]]]; [by apply simulated_quiet|]. simpl.
  eapply simulated_trans; [|apply simulated_quiet, batch_rescheduled_quiet].
  apply (simulated_trans _ (m_pending (p_accumulator p)) _ _
           (set_world w (set_accumulator (with_pending [] (p_accumulator p)) p))).
  - by apply simulated_silent.
  - apply (simulated_emplace_all n).
    by apply (pinv_quiet _ _ _ (set_accumulator (with_pending [] (p_accumulator p)) p)), pinv_extract.
Qed.

(** *** Messages that leave the map *)

Lemma simulated_take p id confirmed code : simulated [] [] p (take_unconfirmed id confirmed code p).2.
Proof.
  unfold take_unconfirmed. simpl. destruct (p_unconfirmed p !! id) as [m|] eqn:E; [|by apply simulated_quiet].
  apply simulated_silent; [|done | done]. unfold in_bag. simpl. rewrite (values_delete _ _ _ E), fmap_app. simpl.
  solve_Permutation.
Qed.

Lemma simulated_confirm id p : simulated [] [] p (handle_publish_confirm id p).2.
Proof.
  apply (simulated_trans _ [] _ _ (set_confirms (p_confirms p ++ [id]) p)); [|apply simulated_take].
  intros [o w cs acc told forgotten] [A1 A2 A3 A4 A5 A6]. simpl in *. subst.
  eexists. split; [by apply rtc_once, SpConfirm | by split].
Qed.

Lemma in_bag_take_out code l p :
  NoDup l.*1 -> (forall id m, (id, m) ∈ l -> p_unconfirmed p !! id = Some m) ->
  in_bag [] (take_out code l p) ≡ₚ in_bag [] p.
Proof.
  revert p. induction l as [|[id m] l IH]; intros p Hnd Hl.
  - unfold in_bag, take_out. simpl. by rewrite app_nil_r.
  - rewrite take_out_cons. rewrite fmap_cons in Hnd. apply NoDup_cons in Hnd as [Hnin Hnd].
    assert (p_unconfirmed p !! id = Some m) as E by (apply Hl; left).
    rewrite IH; [|done |].
    + unfold in_bag. simpl. rewrite (values_delete _ _ _ E), fmap_app. simpl. solve_Permutation.
    + intros id' m' Hin. simpl. rewrite lookup_delete_ne; [apply Hl; by right|].
      intros ->. apply Hnin. by apply (list_elem_of_fmap_2 fst) in Hin.
Qed.

Lemma simulated_collect now p : simulated [] [] p (collect_timed_out cfg now p).2.
Proof.
  destruct (timed_out_is_prefix (now - pc_confirm_timeout cfg) (sorted_unconfirmed p)) as [rest El].
  pose proof (om_sorted_NoDup _ (sorted_unconfirmed_sorted p)) as Hnd.
  apply simulated_silent; [|done | done]. apply in_bag_take_out.
  - rewrite El, fmap_app in Hnd. by apply NoDup_app in Hnd as [Hnd _].
  - intros id m Hin. apply elem_of_sorted_unconfirmed. rewrite El. apply elem_of_app. by left.
Qed.

(** *** Handlers *)

Lemma simulated_deliver n i p p' : pinv cfg n [] p -> deliver i p = Some p' -> simulated [] [] p p'.
Proof.
  intros Hi. unfold deliver. destruct (p_delivering p !! i) as [[m st]|] eqn:E; [|done]. intros [= <-].
  pose proof (pinv_statuses _ _ _ _ Hi) as Hs. unfold statuses in Hs. rewrite Forall_app in Hs. destruct Hs as [Hs _].
  pose proof (proj1 (Forall_lookup _ _) Hs _ _ E) as Hok. apply delete_lookup_perm in E.
  intros [o w cs acc told forgotten] [A1 A2 A3 A4 A5 A6]. simpl in *. subst. eexists. split.
  - apply rtc_once, (SpTell _ m st _ _ (in_bag [] (set_delivering (delete i (p_delivering p)) p))); [|exact Hok].
    rewrite A2. unfold in_bag. simpl. rewrite E at 1. simpl. solve_Permutation.
  - by split.
Qed.

(** Several messages are told one after the other. *)
Lemma tell_all (l : list (AccumulatedMessage * ConfirmationStatus)) o (w w' : list AccumulatedMessage) cs acc told forgotten :
  w ≡ₚ l.*1 ++ w' -> Forall (fun ms => truthful cs ms.1 ms.2) l ->
  exists w'', w'' ≡ₚ w' /\
    rtc sstep (MkProducerSpec o w cs acc told forgotten) (MkProducerSpec o w'' cs acc (told ++ l) forgotten).
Proof.
  revert w told. induction l as [|[m st] l IH]; intros w told E Hl.
  - exists w. rewrite app_nil_r. by split.
  - apply Forall_cons in Hl as [Hm Hl]. destruct (IH (l.*1 ++ w') (told ++ [(m, st)]) (reflexivity _) Hl) as (w'' & E' & Hr).
    exists w''. split; [done|]. rewrite <- app_assoc in Hr. by eapply rtc_l, Hr; apply SpTell.
Qed.

Lemma simulated_fail_all n code p : pinv cfg n [] p -> simulated [] [] p (fail_all_unconfirmed code p).2.
Proof.
  intros Hi. rewrite fail_all_run. simpl. pose proof (failed_pairs_fst code p) as Ef.
  intros [o w cs acc told forgotten] [A1 A2 A3 A4 A5 A6]. simpl in *. subst.
  destruct (tell_all (failed_pairs code p) (negb (acc_destroyed (p_accumulator p))) w (p_delivering p).*1 (p_confirms p)
              (p_accepted p) (p_settled p) (p_dropped p)) as (w'' & Ew & Hr).
  - rewrite A2, Ef. unfold in_bag. solve_Permutation.
  - exact (failed_pairs_status code p p (pinv_keyed _ _ _ _ Hi)).
  - eexists. split; [exact Hr|]. split; try done.
Qed.

(** *** Sending *)

(** A permit is held for the message: there is room for it. *)
Lemma simulated_commit n m p r p' :
  1 <= n -> pinv cfg n [] p -> send_commit m p = Some (r, p') -> simulated [] [] p p'.
Proof.
  intros Hn Hi. unfold send_commit. destruct (add_commit m (p_accumulator p)) as [[r' ac]|] eqn:E; [|done].
  apply add_commit_inv in E as [(-> & -> & _)|(-> & -> & Hlt & Hopen)]; intros [= <- <-]; [by apply simulated_silent|].
  intros [o w cs acc told forgotten] [A1 A2 A3 A4 A5 A6]. simpl in *. subst. rewrite Hopen. eexists. split.
  - apply rtc_once, (SpAccept _ m _ (m :: w)); [|done]. rewrite (perm_lenZ _ _ A2). unfold in_bag.
    pose proof (pinv_permits _ _ _ _ Hi) as Hp. unfold permits in Hp. lenZ_lia.
  - split; simpl; [by rewrite Hopen| |done..]. rewrite A2. unfold in_bag. simpl. solve_Permutation.
Qed.

Lemma simulated_semaphore sem p : simulated [] [] p (set_semaphore sem p).
Proof. by apply simulated_silent. Qed.

Lemma simulated_acquire expired p r p' : send_acquire cfg expired p = Some (r, p') -> simulated [] [] p p'.
Proof.
  unfold send_acquire. destruct (_ =? 0); [destruct (acquire _) as [[]|] | destruct (try_acquire_for _ _) as [[]|]];
    try done; intros [= <- <-]; apply simulated_semaphore.
Qed.

Lemma simulated_send_step n now expired pc p pc' p' :
  held_by pc <= n -> pinv cfg n [] p -> send_step cfg codec now expired pc p = Some (pc', p') -> simulated [] [] p p'.
Proof.
  intros Hh Hi. destruct pc as [id msg h|id msg h|m| |r]; simpl in *; intros E; [| | | |done].
  - destruct (send_acquire cfg expired p) as [[r q]|] eqn:Ea; [|done]. injection E as <- <-. by eapply simulated_acquire.
  - unfold send_prepare, mbind, ST_bind in E. simpl in E.
    destruct (add_prepare codec now id msg h (p_accumulator p)); injection E as <- <-; [by apply simulated_quiet|].
    apply simulated_semaphore.
  - destruct (send_commit m p) as [[r q]|] eqn:Ea; [|done]. injection E as <- <-. by eapply simulated_commit.
  - pose proof (simulated_publish_batch n p Hi) as S. destruct (publish_batch cfg p) as [r q]. by injection E as <- <-.
Qed.

(** *** The other threads *)

Lemma simulated_stop_step n pc p pc' p' : pinv cfg n [] p -> stop_step pc p = Some (pc', p') -> simulated [] [] p p'.
Proof.
  intros Hi E. destruct pc as [code|code|code|code|code|code client|code| |r]; cbn [stop_step] in E.
  1-5: injection E as <- <-; by apply simulated_silent.
  - pose proof (simulated_quiet_op [] _ p (quiet_stop_client client)) as S. destruct (stop_client client p). by injection E as <- <-.
  - injection E as <- <-. exact (simulated_fail_all n code p Hi).
  - pose proof (simulated_quiet_op [] _ p (quiet_onW cw_unregister_producer)) as S.
    destruct (onW cw_unregister_producer p) as [r q]. by injection E as <- <-.
  - done.
Qed.

Lemma simulated_other n p p' : pinv cfg n [] p -> other_step cfg p p' -> simulated [] [] p p'.
Proof.
  intros Hi Hstep. destruct Hstep.
  - apply simulated_quiet_op, quiet_start_begin.
  - apply simulated_quiet_op, quiet_start_connect.
  - apply simulated_quiet_op, quiet_start_finish.
  - by eapply simulated_publish_batch.
  - apply simulated_confirm.
  - apply simulated_take.
  - apply simulated_collect.
  - apply simulated_quiet_op, quiet_task_call.
  - by eapply simulated_deliver.
  - unfold retire in H1. destruct (p_retired p !! i); [|done]. injection H1 as <-. by apply simulated_silent.
  - apply simulated_quiet_op, quiet_metadata.
  - apply simulated_quiet_op, quiet_shutdown.
  - apply simulated_quiet_op, quiet_delayed_take.
  - apply simulated_quiet_op, quiet_delayed_stop.
  - apply simulated_quiet_op, quiet_onW.
  - apply simulated_quiet_op, quiet_reconnect_connect.
  - apply simulated_quiet_op, quiet_reconnect_resend.
  - apply simulated_quiet_op, quiet_reconnect_failed.
  - by apply simulated_quiet.
Qed.

Lemma simulated_step s s' : sys_inv cfg s -> pstep cfg codec s s' -> simulated [] [] (sys_p s) (sys_p s').
Proof.
  intros [Hi _ _] Hstep. destruct Hstep; simpl in *.
  - by apply simulated_quiet.
  - pose proof (simulated_quiet_op [] _ p quiet_next_id) as S. by rewrite H1 in S.
  - eapply simulated_send_step; [by eapply held_sends_ge | done..].
  - by apply simulated_quiet.
  - by eapply simulated_stop_step.
  - by eapply simulated_other.
Qed.

Lemma abstracts_initial w : abstracts [] (sys_p (initial cfg w)) spec_init.
Proof. by split. Qed.

End refinement.

(** C1: the producer refines its specification.  A new producer stands for the
    empty, open bag; and whatever a thread, a task or a listener does from a
    reachable state, the bag takes a run of [spec_step] that ends in the state
    the new state stands for - the same messages waiting, the same ones accepted,
    told (with the same statuses) and forgotten, in the same order.  So every
    reachable state of the producer stands for a reachable state of the
    specification. *)
Theorem producer_refines_spec {W : Type} `{ClientWorld W} {C : Type} `{Codec C} (cfg : ProducerConfig) (codec : C) w :
  is_u32 (pc_max_unconfirmed cfg) ->
  abstracts [] (sys_p (initial cfg w)) spec_init /\
  (forall s s' a, reachable cfg codec w s -> pstep cfg codec s s' -> abstracts [] (sys_p s) a ->
     exists a', rtc (spec_step (pc_max_unconfirmed cfg)) a a' /\ abstracts [] (sys_p s') a') /\
  (forall s, reachable cfg codec w s ->
     exists a, rtc (spec_step (pc_max_unconfirmed cfg)) spec_init a /\ abstracts [] (sys_p s) a).
Proof.
  intros Hmax. split; [apply abstracts_initial|]. 
  assert (forall s s' a, reachable cfg codec w s -> pstep cfg codec s s' -> abstracts [] (sys_p s) a ->
     exists a', rtc (spec_step (pc_max_unconfirmed cfg)) a a' /\ abstracts [] (sys_p s') a') as Hstep.
  { intros s s' a Hr Hs Ha. eapply simulated_step; [by eapply sys_inv_reachable | done..]. }
  split; [done|]. intros s Hr. unfold reachable in Hr. pattern s. eapply rtc_ind_r; [| |exact Hr].
  - exists spec_init. split; [done | apply abstracts_initial].
  - intros s1 s2 H12 Hs (a & Ra & Aa). destruct (Hstep s1 s2 a H12 Hs Aa) as (a' & Ra' & Aa').
    exists a'. split; [by etrans | done].
Qed.

(** A producer that took in three messages and stopped: the bag is empty and
    closed, and the three have been told. *)
Lemma producer_refines_spec_witness :
  exists a, rtc (spec_step 3) spec_init a /\ abstracts [] (sys_p example_state) a /\
    length (sp_told a) = 3%nat /\ sp_open a = false /\ length (sp_waiting a) = 0%nat.
Proof.
  destruct (producer_refines_spec example_config MkRawCodec []) as (_ & _ & Hall); [vm_compute; split; congruence|].
  destruct (Hall example_state example_reachable) as (a & Hr & Ha). exists a. split; [exact Hr|]. split; [exact Ha|].
  destruct Ha as [A1 A2 A3 A4 A5 A6]. apply Permutation_length in A2.
  rewrite A5, A1, A2. clear. split; [|split]; vm_compute; reflexivity.
Defined.
