(* ===== verification/Consumer.v ===== *)
(** * The consumer

    Models [include/hareflow/detail/consumer_impl.h] and [src/consumer_impl.cpp].
    The listeners of the client, the calls of the user and the background tasks
    share the state under [m_mutex]; every critical section is one definition.
    Calls of the client and of the environment go through the interface
    [ConsumerWorld].

    [q_accepted], [q_handled] and [q_stored] record the offsets that passed the
    filter, the calls of the message handler and the offsets that the client
    stored. *)

From S2P Require Import Prelude Words OrdMap Types.

Inductive ConsumerStatus := QInitialized | QStarting | QStarted | QStopped.

#[export] Instance ConsumerStatus_eq_dec : EqDecision ConsumerStatus.
Proof. solve_decision. Defined.

Inductive ConsumerTask := QPersistCursorTask | QReconnectTask | QDelayedReconnectTask | QStreamDeletedTask.

#[export] Instance ConsumerTask_eq_dec : EqDecision ConsumerTask.
Proof. solve_decision. Defined.

Inductive ConsumerTaskCall := QScheduleNow | QScheduleAfter (delay : Z) | QDestroy.

(** [qc_handler] tells whether [m_message_handler] is set; [qc_cursor] is the
    constructor's argument. *)
Record ConsumerConfig := MkConsumerConfig {
  qc_name : string;
  qc_stream : string;
  qc_offset : OffsetSpecification;
  qc_cursor : option AutomaticCursorConfiguration;
  qc_automatic_credits : bool;
  qc_handler : bool;
  qc_recovery_retry_delay : Z
}.

(** ** What the consumer needs from the environment and from a client

    A client is named by a number.  [qw_environment] is [get_environment],
    which throws once the environment is gone; [qw_unregister] does nothing
    then. *)
Class ConsumerWorld (W : Type) := {
  qw_environment : ST W exn unit;
  qw_register_consumer : ST W exn unit;
  qw_unregister_consumer : ST W exn unit;
  qw_get_consumer_client : string -> ST W exn nat;
  qw_start : nat -> ST W exn unit;
  qw_stop : nat -> ST W exn unit;
  qw_query_offset : nat -> string -> string -> ST W exn (option Z);
  qw_subscribe : nat -> Z -> string -> OffsetSpecification -> Z -> Properties -> ST W exn unit;
  qw_unsubscribe : nat -> Z -> ST W exn unit;
  qw_store_offset : nat -> string -> string -> Z -> ST W exn unit;
  qw_credit : nat -> Z -> Z -> ST W exn unit
}.

Section consumer.
Context {W : Type} `{ConsumerWorld W}.
Context (cfg : ConsumerConfig).

Record QState := MkQState {
  q_status : ConsumerStatus;
  q_initial : option OffsetSpecification;
  q_last_seen : option Z;
  q_since_persist : Z;
  q_client : option nat;
  q_world : W;
  q_tasks : list (ConsumerTask * ConsumerTaskCall);
  q_accepted : list Z;
  q_handled : list (MessageContext * Message);
  q_stored : list Z
}.

Definition put_status (x : ConsumerStatus) (q : QState) : QState :=
  MkQState x (q_initial q) (q_last_seen q) (q_since_persist q) (q_client q)
           (q_world q) (q_tasks q) (q_accepted q) (q_handled q) (q_stored q).
Definition put_initial (x : option OffsetSpecification) (q : QState) : QState :=
  MkQState (q_status q) x (q_last_seen q) (q_since_persist q) (q_client q)
           (q_world q) (q_tasks q) (q_accepted q) (q_handled q) (q_stored q).
Definition put_last_seen (x : option Z) (q : QState) : QState :=
  MkQState (q_status q) (q_initial q) x (q_since_persist q) (q_client q)
           (q_world q) (q_tasks q) (q_accepted q) (q_handled q) (q_stored q).
Definition put_since_persist (x : Z) (q : QState) : QState :=
  MkQState (q_status q) (q_initial q) (q_last_seen q) x (q_client q)
           (q_world q) (q_tasks q) (q_accepted q) (q_handled q) (q_stored q).
Definition put_client (x : option nat) (q : QState) : QState :=
  MkQState (q_status q) (q_initial q) (q_last_seen q) (q_since_persist q) x
           (q_world q) (q_tasks q) (q_accepted q) (q_handled q) (q_stored q).
Definition put_world (x : W) (q : QState) : QState :=
  MkQState (q_status q) (q_initial q) (q_last_seen q) (q_since_persist q) (q_client q)
           x (q_tasks q) (q_accepted q) (q_handled q) (q_stored q).
Definition put_tasks (x : list (ConsumerTask * ConsumerTaskCall)) (q : QState) : QState :=
  MkQState (q_status q) (q_initial q) (q_last_seen q) (q_since_persist q) (q_client q)
           (q_world q) x (q_accepted q) (q_handled q) (q_stored q).
Definition put_accepted (x : list Z) (q : QState) : QState :=
  MkQState (q_status q) (q_initial q) (q_last_seen q) (q_since_persist q) (q_client q)
           (q_world q) (q_tasks q) x (q_handled q) (q_stored q).
Definition put_handled (x : list (MessageContext * Message)) (q : QState) : QState :=
  MkQState (q_status q) (q_initial q) (q_last_seen q) (q_since_persist q) (q_client q)
           (q_world q) (q_tasks q) (q_accepted q) x (q_stored q).
Definition put_stored (x : list Z) (q : QState) : QState :=
  MkQState (q_status q) (q_initial q) (q_last_seen q) (q_since_persist q) (q_client q)
           (q_world q) (q_tasks q) (q_accepted q) (q_handled q) x.

Definition new_Consumer (w : W) : QState :=
  MkQState QInitialized (Some (qc_offset cfg)) None 0 None w [] [] [] [].

Abbreviation QM A := (ST QState exn A).

(** A call through the interface. *)
Definition qcall {A} (m : ST W exn A) : QM A := fun q =>
  let '(r, w) := m (q_world q) in (r, put_world w q).

Definition qcatch {A} (m : QM A) (h : exn -> QM A) : QM A :=
  st_catch m (fun e => if is_StreamException e then h e else st_throw e).

Definition qtask (t : ConsumerTask) (c : ConsumerTaskCall) : QM unit :=
  st_modify (fun q => put_tasks (q_tasks q ++ [(t, c)]) q).

Definition q_subscription_id : Z := 0.

(** [m_auto_cursor_config]: a consumer without a name has none. *)
Definition m_auto_cursor_config : option AutomaticCursorConfiguration :=
  if bool_decide (qc_name cfg = EmptyString) then None else qc_cursor cfg.

(** [m_persist_cursor_task.valid()], and its delay when it is. *)
Definition persist_task_delay : option Z :=
  c ← m_auto_cursor_config;
  if acc_force_persist_delay c =? 0 then None else Some (acc_force_persist_delay c).

Definition schedule_persist : QM unit :=
  match persist_task_delay with
  | Some delay => qtask QPersistCursorTask (QScheduleAfter delay)
  | None => mret tt
  end.

(** [*optional]: undefined without a value. *)
Definition deref {A} (o : option A) : QM A :=
  match o with Some a => mret a | None => st_throw UndefinedBehaviour end.

(** ** start *)

Definition q_compare_exchange (expected desired : ConsumerStatus) : QM bool :=
  q ← st_get;
  if decide (q_status q = expected) then st_put (put_status desired q) ;; mret true else mret false.

Definition q_get_client : QM nat := qcall (qw_get_consumer_client (qc_stream cfg)).

Definition consumer_start_begin : QM unit :=
  ok ← q_compare_exchange QInitialized QStarting;
  if ok : bool then mret tt else st_throw (StreamException "Invalid status for start request").

(** Under [m_mutex]. *)
Definition consumer_start_connect : QM unit :=
  qcall qw_environment ;;
  qcall qw_register_consumer ;;
  c ← q_get_client;
  st_modify (put_client (Some c)) ;;
  qcall (qw_start c) ;;
  (if bool_decide (qc_name cfg = EmptyString) then mret tt
   else stored_offset ← qcall (qw_query_offset c (qc_name cfg) (qc_stream cfg));
        match stored_offset with
        | Some o => st_modify (put_initial (Some (offset_offset (wrap64 (o + 1)))))
        | None => mret tt
        end) ;;
  q ← st_get;
  initial ← deref (q_initial q);
  qcall (qw_subscribe c q_subscription_id (qc_stream cfg) initial 10 []) ;;
  schedule_persist.

Definition consumer_start_finish : QM unit :=
  ok ← q_compare_exchange QStarting QStarted;
  if ok : bool then mret tt else st_throw (StreamException "Consumer was stopped while start was ongoing").

(** The mutex is held to the end. *)
Definition consumer_start : QM unit :=
  consumer_start_begin ;; consumer_start_connect ;; consumer_start_finish.

(** ** Cursor *)

(** Under [m_mutex]. *)
Definition internal_store_offset (offset : Z) : QM unit :=
  q ← st_get;
  match q_client q with
  | Some c =>
      if bool_decide (qc_name cfg = EmptyString) then mret tt
      else
        qcatch (qcall (qw_store_offset c (qc_name cfg) (qc_stream cfg) offset) ;;
                st_modify (fun q => put_since_persist 0 (put_stored (q_stored q ++ [offset]) q)))
               (fun _ => mret tt) ;;
        schedule_persist
  | None => mret tt
  end.

Definition check_started : QM unit :=
  q ← st_get;
  if bool_decide (q_status q = QStarted) then mret tt else st_throw (StreamException "Consumer is stopped").

Definition consumer_store_offset (offset : Z) : QM unit := check_started ;; internal_store_offset offset.

Definition grant_credit : QM unit :=
  check_started ;;
  q ← st_get;
  match q_client q with
  | Some c => if negb (qc_automatic_credits cfg) then qcall (qw_credit c q_subscription_id 1) else mret tt
  | None => mret tt
  end.

(** The chunk listener of the client, set with automatic credits. *)
Definition chunk_credit (c : nat) : QM unit :=
  if qc_automatic_credits cfg then qcall (qw_credit c q_subscription_id 1) else mret tt.

Definition store_current_offset : QM unit :=
  q ← st_get;
  if 0 <? q_since_persist q then
    offset ← deref (q_last_seen q);
    internal_store_offset offset
  else schedule_persist.

(** ** Messages *)

Definition persist_frequency_reached (q : QState) : bool :=
  match m_auto_cursor_config with
  | Some c => (0 <? acc_persist_frequency c) && (acc_persist_frequency c <=? q_since_persist q)
  | None => false
  end.

(** A message that precedes the offset asked for is in the chunk that holds it. *)
Definition filtered (initial : option OffsetSpecification) (offset : Z) : bool :=
  match initial with
  | Some o => os_is_offset o && (offset <? os_offset o)
  | None => false
  end.

(** The first critical section: [None] for a message that is skipped, else
    [store_offset]. *)
Definition message_accept (offset : Z) : QM (option bool) :=
  q ← st_get;
  if filtered (q_initial q) offset then mret None
  else
    let q := put_since_persist (wrap32 (q_since_persist q + 1))
               (put_last_seen (Some offset) (put_initial None (put_accepted (q_accepted q ++ [offset]) q))) in
    st_put q ;;
    mret (Some (persist_frequency_reached q)).

Definition message_call (ctx : ChunkContext) (offset : Z) (message : Message) : QM unit :=
  if qc_handler cfg then
    st_modify (fun q => put_handled (q_handled q ++
      [(MkMessageContext offset (cc_timestamp ctx) (cc_committed_chunk_id ctx), message)]) q)
  else mret tt.

(** The second critical section, when [store_offset] is set. *)
Definition message_store (offset : Z) : QM unit :=
  q ← st_get;
  match m_auto_cursor_config with
  | Some c => if acc_persist_frequency c <=? q_since_persist q then internal_store_offset offset else mret tt
  | None => st_throw UndefinedBehaviour
  end.

(** A call that no other thread interrupts. *)
Definition handle_message (ctx : ChunkContext) (offset : Z) (message : Message) : QM unit :=
  accepted ← message_accept offset;
  match accepted with
  | None => mret tt
  | Some store_offset =>
      message_call ctx offset message ;;
      if store_offset : bool then message_store offset else mret tt
  end.

(** ** stop *)

Definition q_destroy_tasks : QM unit :=
  (match persist_task_delay with Some _ => qtask QPersistCursorTask QDestroy | None => mret tt end) ;;
  qtask QDelayedReconnectTask QDestroy ;; qtask QReconnectTask QDestroy.

Definition q_stop_exchange : QM bool :=
  q ← st_get;
  st_put (put_status QStopped q) ;;
  mret (negb (bool_decide (q_status q = QStopped))).

(** [std::move(m_client)], under [m_mutex]. *)
Definition q_take_client : QM (option nat) :=
  q ← st_get; st_put (put_client None q) ;; mret (q_client q).

Definition q_unsubscribe (c : nat) : QM unit :=
  qcatch (qcall (qw_unsubscribe c q_subscription_id)) (fun _ => mret tt).

(** Under [m_mutex]. *)
Definition q_final_store (c : nat) : QM unit :=
  q ← st_get;
  match m_auto_cursor_config with
  | Some _ =>
      if 0 <? q_since_persist q then
        qcatch (offset ← deref (q_last_seen q);
                qcall (qw_store_offset c (qc_name cfg) (qc_stream cfg) offset) ;;
                st_modify (fun q => put_stored (q_stored q ++ [offset]) q))
               (fun _ => mret tt)
      else mret tt
  | None => mret tt
  end.

Definition consumer_internal_stop : QM unit :=
  q_destroy_tasks ;;
  first ← q_stop_exchange;
  if first : bool then
    client ← q_take_client;
    (match client with
     | Some c => q_unsubscribe c ;; q_final_store c ;; qcall (qw_stop c)
     | None => mret tt
     end) ;;
    qcall qw_unregister_consumer
  else mret tt.

Definition consumer_stop : QM unit :=
  qtask QStreamDeletedTask QDestroy ;; consumer_internal_stop.

(** ** Recovery *)

Definition consumer_metadata_update (stream : string) : QM unit :=
  if bool_decide (stream = qc_stream cfg) then qtask QDelayedReconnectTask QScheduleNow else mret tt.

(** [m_client = nullptr], under [m_mutex]: [returns] says whether the destructor of
    the client that it held, if there was one and no one else refers to it, does;
    [drop_may_block] is when it may not. *)
Definition consumer_shutdown (returns : bool) (reason : ShutdownReason) : QM unit :=
  if negb (bool_decide (reason = ClientInitiated)) then
    dropped ← q_take_client;
    (match dropped with Some _ => if returns then mret tt else st_throw NeverReturns | None => mret tt end) ;;
    qtask QReconnectTask QScheduleNow
  else mret tt.

(** Under [m_mutex]: [None] when there is nothing to do. *)
Definition q_delayed_take : QM (option (option nat)) :=
  q ← st_get;
  if negb (bool_decide (q_status q = QStarted)) then mret None
  else c ← q_take_client; mret (Some c).

Definition q_delayed_stop (client : option nat) : QM unit :=
  (match client with Some c => qcall (qw_stop c) | None => mret tt end) ;;
  qtask QReconnectTask (QScheduleAfter (qc_recovery_retry_delay cfg)).

Definition consumer_delayed_reconnect : QM unit :=
  taken ← q_delayed_take;
  match taken with Some client => q_delayed_stop client | None => mret tt end.

Definition q_reconnect_needed : QM bool :=
  q ← st_get;
  mret (bool_decide (q_client q = None) && bool_decide (q_status q = QStarted)).

Definition q_reconnect_connect : QM nat := qcall qw_environment ;; q_get_client.

(** Under [m_mutex]. *)
Definition q_resubscribe (c : nat) : QM unit :=
  q ← st_get;
  if negb (bool_decide (q_status q = QStarted)) then qcall (qw_stop c)
  else
    (match q_last_seen q with
     | Some o => st_modify (put_initial (Some (offset_offset (wrap64 (o + 1)))))
     | None => mret tt
     end) ;;
    q ← st_get;
    initial ← deref (q_initial q);
    qcall (qw_subscribe c q_subscription_id (qc_stream cfg) initial 10 []) ;;
    st_modify (put_client (Some c)).

(** The [catch] clause: [client] is what [get_client] had returned, if it had. *)
Definition q_reconnect_failed (client : option nat) (e : exn) : QM unit :=
  (match client with Some c => qcall (qw_stop c) | None => mret tt end) ;;
  if bool_decide (response_error_code e = Some (rc_value StreamDoesNotExist))
  then qtask QStreamDeletedTask QScheduleNow
  else qtask QReconnectTask (QScheduleAfter (qc_recovery_retry_delay cfg)).

Definition consumer_reconnect : QM unit :=
  needed ← q_reconnect_needed;
  if negb (needed : bool) then mret tt else
  client ← qcatch (c ← q_reconnect_connect; mret (Some c)) (fun e => q_reconnect_failed None e ;; mret None);
  match client with
  | None => mret tt
  | Some c => qcatch (qcall (qw_start c) ;; q_resubscribe c) (q_reconnect_failed (Some c))
  end.

End consumer.
