(* ===== verification/ConsumerSystem.v ===== *)
(** * The consumer under concurrency

    Interleaves the critical sections of [Consumer]: one call of [start], the
    frame thread that hands over messages, and, in any order and with any
    arguments, the sections of [stop], of the recovery, of the cursor and of the
    calls of the user.  [qstep] has the frame thread of one client at a time; the
    runs in which several are alive are in [ConsumerThreads], whose theorems
    rest on the lemmas of this file.  They relate the messages that the
    handler sees and the cursors that are stored to what the broker sends,
    across reconnections. *)

From S2P Require Import Prelude Words OrdMap Types Consumer.

(** Where the call of [start] is. *)
Inductive qstart_pc := QsBegin | QsConnect | QsFinish | QsDone.

(** Where the frame thread is in [handle_message]. *)
Inductive qframe_pc :=
| QfIdle
| QfCall (ctx : ChunkContext) (offset : Z) (message : Message) (store_offset : bool)
| QfStore (offset : Z).

(** The other critical sections. *)
Inductive qop :=
| QopStoreOffset (offset : Z)
| QopGrantCredit
| QopChunkCredit (c : nat)
| QopStoreCurrentOffset
| QopMetadataUpdate (stream : string)
| QopShutdown (returns : bool) (reason : ShutdownReason)
| QopDelayedTake
| QopDelayedStop (client : option nat)
| QopReconnectConnect
| QopClientStart (c : nat)
| QopReconnectFailed (client : option nat) (e : exn)
| QopDestroyTasks
| QopStopExchange
| QopTakeClient
| QopUnsubscribe (c : nat)
| QopFinalStore (c : nat)
| QopClientStop (c : nat)
| QopUnregister.

Section consumer_system.
Context {W : Type} `{ConsumerWorld W}.
Context (cfg : ConsumerConfig).

Abbreviation QS := (@QState W).
Implicit Types q : QS.

Definition run_qop (op : qop) : ST QS exn unit :=
  match op with
  | QopStoreOffset offset => consumer_store_offset cfg offset
  | QopGrantCredit => grant_credit cfg
  | QopChunkCredit c => chunk_credit cfg c
  | QopStoreCurrentOffset => store_current_offset cfg
  | QopMetadataUpdate stream => consumer_metadata_update cfg stream
  | QopShutdown returns reason => consumer_shutdown returns reason
  | QopDelayedTake => _ ← q_delayed_take; mret tt
  | QopDelayedStop client => q_delayed_stop cfg client
  | QopReconnectConnect => _ ← q_reconnect_connect cfg; mret tt
  | QopClientStart c => qcall (qw_start c)
  | QopReconnectFailed client e => q_reconnect_failed cfg client e
  | QopDestroyTasks => q_destroy_tasks cfg
  | QopStopExchange => _ ← q_stop_exchange; mret tt
  | QopTakeClient => _ ← q_take_client; mret tt
  | QopUnsubscribe c => q_unsubscribe c
  | QopFinalStore c => q_final_store cfg c
  | QopClientStop c => qcall (qw_stop c)
  | QopUnregister => qcall qw_unregister_consumer
  end.

(** The system.  [qs_session] is the offset of the next message of the
    subscription that the broker serves, if it serves one; [qs_user_offsets]
    are the arguments of the calls of [store_offset]. *)
Record qsys := MkQSys {
  qs_state : QS;
  qs_start : qstart_pc;
  qs_frame : qframe_pc;
  qs_session : option Z;
  qs_user_offsets : list Z
}.

(** What the broker promises: the messages of a subscription have consecutive
    offsets; when the offset asked for is still in the stream, the first
    message is not past it, and it may precede it, since whole chunks are sent.
    [gapless] says that every offset asked for is in the stream, and that no chunk
    is cut short by a message that the codec cannot decode or by a credit that
    cannot be granted. *)
Context (gapless : bool).

Definition may_start_at (initial : option OffsetSpecification) (n : Z) : Prop :=
  match initial with
  | Some o => 0 <= n /\ (gapless = true -> os_is_offset o = true -> n <= os_offset o)
  | None => False
  end.

Definition session_after (q : QS) (session : option Z) : Prop :=
  match session with Some n => may_start_at (q_initial q) n | None => True end.

Definition user_offset (op : qop) : list Z :=
  match op with QopStoreOffset offset => [offset] | _ => [] end.

Definition after_accept (ctx : ChunkContext) (offset : Z) (message : Message) (r : outcome exn (option bool)) :
  qframe_pc :=
  match r with Val (Some store_offset) => QfCall ctx offset message store_offset | _ => QfIdle end.

Inductive qstep : qsys -> qsys -> Prop :=
| QStepBegin q f se us :
    qstep (MkQSys q QsBegin f se us)
          (let '(r, q') := consumer_start_begin q in
           MkQSys q' (if is_val r then QsConnect else QsDone) f se us)
| QStepConnect q f us r q' session :
    consumer_start_connect cfg q = (r, q') -> session_after q' session ->
    qstep (MkQSys q QsConnect f None us)
          (MkQSys q' (if is_val r then QsFinish else QsDone) f session us)
| QStepFinish q f se us :
    qstep (MkQSys q QsFinish f se us) (MkQSys (consumer_start_finish q).2 QsDone f se us)
| QStepResubscribe c q pc f se us r q' session :
    q_resubscribe cfg c q = (r, q') ->
    session = se \/ (q_status q = QStarted /\ session_after q' session) ->
    qstep (MkQSys q pc f se us) (MkQSys q' pc f session us)
| QStepLost q pc f se us :
    qstep (MkQSys q pc f se us) (MkQSys q pc f None us)
| QStepMessage ctx message n q pc us :
    n < UINT64_MAX ->
    qstep (MkQSys q pc QfIdle (Some n) us)
          (let '(r, q') := message_accept cfg n q in
           MkQSys q' pc (after_accept ctx n message r) (Some (n + 1)) us)
| QStepSkip n m q pc us :
    gapless = false -> n < m ->
    qstep (MkQSys q pc QfIdle (Some n) us) (MkQSys q pc QfIdle (Some m) us)
| QStepCall ctx offset message store q pc se us :
    qstep (MkQSys q pc (QfCall ctx offset message store) se us)
          (MkQSys (message_call cfg ctx offset message q).2 pc (if store : bool then QfStore offset else QfIdle) se us)
| QStepStore offset q pc se us :
    qstep (MkQSys q pc (QfStore offset) se us) (MkQSys (message_store cfg offset q).2 pc QfIdle se us)
| QStepOp op q pc f se us :
    qstep (MkQSys q pc f se us) (MkQSys (run_qop op q).2 pc f se (us ++ user_offset op)).

Definition qs_init (w : W) : qsys := MkQSys (new_Consumer cfg w) QsBegin QfIdle None [].

Definition qreachable (s : qsys) : Prop := exists w, rtc qstep (qs_init w) s.

(** ** The invariant *)

(** The offsets accepted, and what is asked for next. *)
Definition offsets_inv (q : QS) : Prop :=
  q_last_seen q = last (q_accepted q) /\
  Sorted Z.lt (q_accepted q) /\
  (gapless = true -> Sorted (fun x y => y = x + 1) (q_accepted q)) /\
  match q_last_seen q with
  | None => exists o, q_initial q = Some o
  | Some l => 0 <= l < UINT64_MAX /\ (q_initial q = None \/ q_initial q = Some (offset_offset (l + 1)))
  end.

(** The broker's next message against what the consumer waits for. *)
Definition session_inv (q : QS) (session : option Z) : Prop :=
  match session with
  | None => True
  | Some n => 0 <= n /\
      match q_initial q with
      | Some o => gapless = true -> os_is_offset o = true -> n <= os_offset o
      | None => match q_last_seen q with Some l => l < n /\ (gapless = true -> n = l + 1) | None => False end
      end
  end.

Definition frame_offset (f : qframe_pc) : list Z :=
  match f with QfCall _ offset _ _ => [offset] | _ => [] end.

Definition handled_inv (q : QS) (f : qframe_pc) : Prop :=
  qc_handler cfg = true -> map (fun h => mc_offset h.1) (q_handled q) ++ frame_offset f = q_accepted q.

Definition cursor_inv (q : QS) (f : qframe_pc) (us : list Z) : Prop :=
  (0 < q_since_persist q -> q_last_seen q <> None) /\
  (forall o, o ∈ q_stored q -> o ∈ q_accepted q \/ o ∈ us) /\
  match f with
  | QfIdle => True
  | QfCall _ o _ store => o ∈ q_accepted q /\ (store = true -> m_auto_cursor_config cfg <> None)
  | QfStore o => o ∈ q_accepted q /\ m_auto_cursor_config cfg <> None
  end.

Definition before_messages (pc : qstart_pc) : bool :=
  match pc with QsBegin | QsConnect => true | _ => false end.

Definition qinv (s : qsys) : Prop :=
  let q := qs_state s in
  offsets_inv q /\ session_inv q (qs_session s) /\ handled_inv q (qs_frame s) /\
  cursor_inv q (qs_frame s) (qs_user_offsets s) /\
  (before_messages (qs_start s) = true -> q_last_seen q = None /\ qs_session s = None /\ q_status q <> QStarted) /\
  (qs_start s = QsFinish -> q_status q <> QStarted).

(** ** Sections that only store cursors *)

(** [l'] is [l] with elements of [P] after it. *)
Definition appends (P : Z -> Prop) (l l' : list Z) : Prop := exists new, l' = l ++ new /\ Forall P new.

Lemma appends_refl P l : appends P l l.
Proof. exists []. by rewrite app_nil_r. Qed.

Lemma appends_one (P : Z -> Prop) l o : P o -> appends P l (l ++ [o]).
Proof. intros Ho. exists [o]. by repeat constructor. Qed.

Lemma appends_trans P l1 l2 l3 : appends P l1 l2 -> appends P l2 l3 -> appends P l1 l3.
Proof. intros (n1 & -> & H1) (n2 & -> & H2). exists (n1 ++ n2). by rewrite app_assoc, Forall_app. Qed.

#[local] Hint Resolve appends_refl appends_one : core.

(** The messages seen and the offset asked for are untouched; what is stored was
    seen, or is in [us]. *)
Record qkeeps (us : list Z) (q q' : QS) : Prop := MkQKeeps {
  qk_initial : q_initial q' = q_initial q;
  qk_last_seen : q_last_seen q' = q_last_seen q;
  qk_accepted : q_accepted q' = q_accepted q;
  qk_handled : q_handled q' = q_handled q;
  qk_since : q_since_persist q' = q_since_persist q \/ q_since_persist q' = 0;
  qk_stored : appends (fun o => q_last_seen q = Some o \/ o ∈ us) (q_stored q) (q_stored q');
  qk_status : q_status q' = q_status q \/ q_status q' = QStopped
}.

#[local] Instance qkeeps_preorder us : PreOrder (qkeeps us).
Proof.
  split; [intros q; constructor; auto|].
  intros q1 q2 q3 [] []. constructor; try congruence; try (intuition congruence).
  rewrite qk_last_seen0 in qk_stored1. by eapply appends_trans.
Qed.

Abbreviation qsteady us := (preserves (qkeeps us)).

Section qsteady.
Context (us : list Z).

Lemma qsteady_qcatch {A} (m : ST QS exn A) h :
  qsteady us m -> (forall e, qsteady us (h e)) -> qsteady us (qcatch m h).
Proof.
  intros Hm Hh q. specialize (Hm q). unfold qcatch, st_catch. destruct (m q) as [[a|e] q1]; [done|].
  etransitivity; [exact Hm|]. destruct (is_StreamException e); [apply Hh | done].
Qed.

Lemma qsteady_qcall {A} (m : ST W exn A) : qsteady us (qcall m).
Proof. intros q. unfold qcall. destruct (m (q_world q)) as [r w]. constructor; auto. Qed.

Lemma qsteady_qtask t c : qsteady us (qtask t c).
Proof. intros q. constructor; auto. Qed.

Lemma qsteady_schedule : qsteady us (schedule_persist cfg).
Proof. unfold schedule_persist. destruct (persist_task_delay cfg); [apply qsteady_qtask | apply (preserves_ret (qkeeps _))]. Qed.

Lemma qsteady_take_client : qsteady us q_take_client.
Proof. intros q. constructor; auto. Qed.

End qsteady.

Create HintDb qsteady.
#[local] Hint Resolve qsteady_qcall qsteady_qtask qsteady_schedule qsteady_take_client : qsteady.
#[local] Hint Extern 1 (qsteady _ (qcatch _ _)) => apply qsteady_qcatch; [|intros ?] : qsteady.

(** Storing [o], which was seen or is in [us]. *)
Lemma stores_keep us o q :
  q_last_seen q = Some o \/ o ∈ us ->
  qkeeps us q (put_since_persist 0 (put_stored (q_stored q ++ [o]) q)) /\
  qkeeps us q (put_stored (q_stored q ++ [o]) q).
Proof.
  intros Ho. split; constructor; simpl; auto.
Qed.

(** A store through the interface, then the bookkeeping [k]. *)
Lemma store_call_keeps us o (m : ST W exn unit) (k : QS -> QS) q :
  q_last_seen q = Some o \/ o ∈ us ->
  (forall q', q_last_seen q' = Some o \/ o ∈ us -> qkeeps us q' (k q')) ->
  qkeeps us q (qcatch (qcall m ;; st_modify k) (fun _ => mret tt) q).2.
Proof.
  intros Ho Hk. unfold qcatch, st_catch. unfold mbind, ST_bind.
  pose proof (qsteady_qcall us m q) as Hq. destruct (qcall m q) as [[[]|e] q1]; simpl in Hq |- *.
  - etransitivity; [exact Hq|]. apply Hk. now rewrite (qk_last_seen _ _ _ Hq).
  - destruct (is_StreamException e); done.
Qed.

Lemma internal_store_keeps us o q :
  q_last_seen q = Some o \/ o ∈ us -> qkeeps us q (internal_store_offset cfg o q).2.
Proof.
  intros Ho. unfold internal_store_offset. unfold mbind at 1, ST_bind at 1. cbn [st_get].
  destruct (q_client q) as [c|]; [|done]. destruct (bool_decide _); [done|].
  unfold mbind at 1, ST_bind at 1.
  pose proof (store_call_keeps us o (qw_store_offset c (qc_name cfg) (qc_stream cfg) o)
    (fun q => put_since_persist 0 (put_stored (q_stored q ++ [o]) q)) q Ho) as Hk.
  destruct (qcatch _ _ q) as [[[]|e] q1]; simpl in Hk.
  - etransitivity; [apply Hk | apply qsteady_schedule]. intros q' Ho'. now apply stores_keep.
  - apply Hk. intros q' Ho'. now apply stores_keep.
Qed.

Lemma store_current_keeps us : qsteady us (store_current_offset cfg).
Proof.
  intros q. unfold store_current_offset. unfold mbind at 1, ST_bind at 1. cbn [st_get].
  destruct (0 <? q_since_persist q); [|apply qsteady_schedule].
  destruct (q_last_seen q) as [o|] eqn:E; [|done]. apply internal_store_keeps. now left.
Qed.

Lemma final_store_keeps us c : qsteady us (q_final_store cfg c).
Proof.
  intros q. unfold q_final_store. unfold mbind at 1, ST_bind at 1. cbn [st_get].
  destruct (m_auto_cursor_config cfg); [|done]. destruct (0 <? q_since_persist q); [|done].
  destruct (q_last_seen q) as [o|] eqn:E; [|done].
  apply (store_call_keeps us o _ (fun q => put_stored (q_stored q ++ [o]) q)); [now left|].
  intros q' Ho'. now apply stores_keep.
Qed.

Lemma user_store_keeps us o : o ∈ us -> qsteady us (consumer_store_offset cfg o).
Proof.
  intros Ho. apply (preserves_bind (qkeeps _)); [|intros _ q; apply internal_store_keeps; now right].
  apply (preserves_get (qkeeps _)). intros q. now destruct (bool_decide _).
Qed.

Lemma run_qop_keeps op q : qkeeps (user_offset op) q (run_qop op q).2.
Proof.
  revert q. change (qsteady (user_offset op) (run_qop op)).
  destruct op; simpl run_qop; auto using store_current_keeps, final_store_keeps with preserves qsteady.
  - apply user_store_keeps. left.
  - apply (preserves_bind (qkeeps _)); [|intros _]; apply (preserves_get (qkeeps _)); intros q; [now destruct (bool_decide _)|].
    destruct (q_client q); [|done]. destruct (negb _); [apply qsteady_qcall | done].
  - unfold chunk_credit. auto with preserves qsteady.
  - unfold consumer_metadata_update. auto with preserves qsteady.
  - unfold consumer_shutdown. auto 10 with preserves qsteady.
  - apply (preserves_bind (qkeeps _)); [|auto with preserves qsteady]. apply (preserves_get (qkeeps _)). intros q. destruct (negb _); [done|].
    apply (preserves_bind (qkeeps _)); auto with preserves qsteady.
  - unfold q_delayed_stop. auto with preserves qsteady.
  - unfold q_reconnect_connect, q_get_client. auto with preserves qsteady.
  - unfold q_reconnect_failed. auto with preserves qsteady.
  - unfold q_destroy_tasks. auto with preserves qsteady.
  - apply (preserves_bind (qkeeps _)); [|auto with preserves qsteady]. intros q. constructor; auto.
  - unfold q_unsubscribe. auto with preserves qsteady.
Qed.

(** ** Sections that subscribe *)

(** Only the offset asked for changes: freely as long as nothing was seen, else
    to the one after the last seen. *)
Record qasks (q q' : QS) : Prop := MkQAsks {
  qa_initial : q_initial q' = q_initial q \/
    match q_last_seen q with
    | None => exists o, q_initial q' = Some o
    | Some l => q_initial q' = Some (offset_offset (wrap64 (l + 1)))
    end;
  qa_last_seen : q_last_seen q' = q_last_seen q;
  qa_accepted : q_accepted q' = q_accepted q;
  qa_handled : q_handled q' = q_handled q;
  qa_since : q_since_persist q' = q_since_persist q;
  qa_stored : q_stored q' = q_stored q;
  qa_status : q_status q' = q_status q
}.

#[local] Instance qasks_preorder : PreOrder qasks.
Proof.
  split; [intros q; constructor; auto|].
  intros q1 q2 q3 [] []. constructor; try congruence.
  rewrite qa_last_seen0 in qa_initial1. destruct qa_initial1 as [->|]; auto.
Qed.

(** [m] only asks, from a state where nothing was seen. *)
Definition asks_first {A} (m : ST QS exn A) : Prop := forall q, q_last_seen q = None -> qasks q (m q).2.

Lemma asks_bind {A B} (m : ST QS exn A) (f : A -> ST QS exn B) :
  asks_first m -> (forall a, asks_first (f a)) -> asks_first (m ≫= f).
Proof.
  intros Hm Hf q Hq. specialize (Hm q Hq). unfold mbind, ST_bind. destruct (m q) as [[a|e] q1]; [|done].
  simpl in *. etransitivity; [exact Hm|]. apply Hf. now rewrite (qa_last_seen _ _ Hm).
Qed.

Lemma asks_get {A} (f : QS -> ST QS exn A) :
  (forall q, q_last_seen q = None -> qasks q (f q q).2) -> asks_first (q ← st_get; f q).
Proof. intros Hf q Hq. now apply Hf. Qed.

Lemma qasks_qcall {A} (m : ST W exn A) q : qasks q (qcall m q).2.
Proof. unfold qcall. destruct (m (q_world q)) as [r w]. constructor; auto. Qed.

Lemma asks_qcall {A} (m : ST W exn A) : asks_first (qcall m).
Proof. intros q _. apply qasks_qcall. Qed.

Lemma asks_schedule : asks_first (schedule_persist cfg).
Proof. intros q _. unfold schedule_persist. destruct (persist_task_delay cfg); constructor; auto. Qed.

Lemma start_connect_asks : asks_first (consumer_start_connect cfg).
Proof.
  do 3 (apply asks_bind; [apply asks_qcall|]; intros ?).
  apply asks_bind; [intros q _; constructor; auto|]. intros _.
  apply asks_bind; [apply asks_qcall|]. intros _. apply asks_bind.
  - destruct (bool_decide _); [now intros q _|]. apply asks_bind; [apply asks_qcall|]. intros [o|]; [|now intros q _].
    intros q Hq. constructor; auto. simpl. rewrite Hq. right. eauto.
  - intros _. apply asks_get. intros q Hq. destruct (q_initial q); [|done]. revert q Hq.
    apply (asks_bind (qcall _)); [apply asks_qcall|]. intros _. apply asks_schedule.
Qed.

Lemma resubscribe_asks c q : qasks q (q_resubscribe cfg c q).2.
Proof.
  unfold q_resubscribe. unfold mbind at 1, ST_bind at 1. cbn [st_get]. destruct (negb _); [apply qasks_qcall|].
  assert (exists q1, qasks q q1 /\ (match q_last_seen q with
     | Some o => st_modify (put_initial (Some (offset_offset (wrap64 (o + 1)))))
     | None => mret tt end : ST QS exn unit) q = (Val tt, q1)) as (q1 & Ha & E).
  { destruct (q_last_seen q) as [o|] eqn:Eo; eexists; (split; [|reflexivity]); [|done].
    constructor; auto. rewrite Eo. now right. }
  rewrite (ST_bind_Val _ _ _ _ _ E). etransitivity; [exact Ha|].
  unfold mbind at 1, ST_bind at 1. cbn [st_get]. destruct (q_initial q1) as [o|]; [|done].
  unfold mbind at 1, ST_bind at 1. cbn [deref mret ST_ret]. unfold mbind at 1, ST_bind at 1.
  pose proof (qasks_qcall (qw_subscribe c q_subscription_id (qc_stream cfg) o 10 []) q1) as Hs.
  destruct (qcall _ q1) as [[u|e] q2]; [|done]. etransitivity; [exact Hs|]. constructor; auto.
Qed.

(** ** The invariant is preserved *)

Lemma qinv_keeps q q' pc f se us us' :
  qinv (MkQSys q pc f se us) -> qkeeps us' q q' -> qinv (MkQSys q' pc f se (us ++ us')).
Proof.
  intros (Ho & Hs & Hh & (Hc1 & Hc2 & Hc3) & Hb & Hf) [Ei El Ea Eh Esi Est Esta].
  unfold qinv, offsets_inv, session_inv, handled_inv, cursor_inv in *. simpl in *.
  rewrite Ei, El, Ea, Eh. split; [done|]. split; [done|]. split; [done|]. split; [split; [|split]|].
  - destruct Esi as [->| ->]; [done | lia].
  - intros o Hin. rewrite elem_of_app. destruct Est as (new & Est & Hnew). rewrite Est, elem_of_app in Hin.
    destruct Hin as [H1|H1]; [destruct (Hc2 o H1); auto|]. rewrite Forall_forall in Hnew. destruct (Hnew o H1) as [H2|H2]; [left|auto].
    destruct Ho as (Hl & _). rewrite H2 in Hl. symmetry in Hl. apply last_Some in Hl as [l ->].
    apply elem_of_app. right. left.
  - done.
  - destruct Esta as [-> | ->]; [done|]. split; [intros Hpc; destruct (Hb Hpc) as (? & ? & _); done | done].
Qed.

Lemma qinv_asks q q' pc pc' f se session us :
  qinv (MkQSys q pc f se us) -> qasks q q' ->
  (session = se /\ (q_last_seen q = None -> q_initial q' = q_initial q)) \/ session_after q' session ->
  (before_messages pc' = true -> q_last_seen q = None /\ session = None /\ q_status q <> QStarted) ->
  (pc' = QsFinish -> q_status q <> QStarted) ->
  qinv (MkQSys q' pc' f session us).
Proof.
  intros (Ho & Hs & Hh & Hc & Hb & Hf) [Ei El Ea Eh Esi Est Esta] Hse Hpc1 Hpc2.
  unfold qinv, offsets_inv, session_inv, handled_inv, cursor_inv in *. simpl in *.
  rewrite El, Ea, Eh, Esi, Est, Esta. destruct Ho as (Ho1 & Ho2 & Ho3 & Ho4).
  assert (match q_last_seen q with
          | Some l => 0 <= l < UINT64_MAX /\ (q_initial q' = None \/ q_initial q' = Some (offset_offset (l + 1)))
          | None => exists o, q_initial q' = Some o end) as Hi.
  { destruct (q_last_seen q) as [l|].
    - destruct Ho4 as [Hl Ho4]. split; [done|]. destruct Ei as [->|Ei]; [done|]. right. rewrite Ei.
      rewrite wrap_small by (unfold is_uint, UINT64_MAX in *; lia). done.
    - destruct Ei as [->|Ei]; done. }
  split; [done|]. split; [|done].
  destruct session as [n|]; [|done]. destruct Hse as [[<- Hk]|Hse].
  - destruct Hs as [Hn Hs]. split; [done|]. destruct (q_last_seen q) as [l|]; [|now rewrite Hk].
    destruct Ei as [->|Ei]; [done|]. rewrite Ei. simpl. rewrite wrap_small by (unfold is_uint, UINT64_MAX in *; lia).
    intros Hr _. destruct Ho4 as (_ & [E|E]); rewrite E in Hs; [destruct Hs as [_ Hs]; specialize (Hs Hr); lia|]. now apply Hs.
  - unfold session_after, may_start_at in Hse. destruct (q_initial q') as [o|]; [|done]. exact Hse.
Qed.

Lemma resubscribe_unseen c q :
  q_last_seen q = None -> q_initial (q_resubscribe cfg c q).2 = q_initial q.
Proof.
  intros El. unfold q_resubscribe. unfold mbind at 1, ST_bind at 1. cbn [st_get]. rewrite El.
  assert (forall A (m : ST W exn A) q, q_initial (qcall m q).2 = q_initial q) as Hc
    by (intros A m q'; unfold qcall; now destruct (m (q_world q'))).
  destruct (negb _); [apply Hc|]. unfold mbind, ST_bind. cbn [mret ST_ret st_get].
  destruct (q_initial q) as [o|] eqn:Ei; [|exact Ei]. cbn [deref mret ST_ret].
  specialize (Hc _ (qw_subscribe c q_subscription_id (qc_stream cfg) o 10 []) q).
  destruct (qcall _ q) as [[u|e] q2]; simpl in *; congruence.
Qed.

Lemma Sorted_snoc_last (R : Z -> Z -> Prop) l n :
  Sorted R l -> (forall x, last l = Some x -> R x n) -> Sorted R (l ++ [n]).
Proof.
  induction l as [|x l IH]; intros Hs Hl; [repeat constructor|]. simpl. inversion Hs as [|? ? Hs' Hh]; subst.
  constructor.
  - apply IH; [done|]. intros y Hy. apply Hl. destruct l; [discriminate | exact Hy].
  - destruct l; constructor; [now apply Hl | now inversion Hh].
Qed.

(** A message that is not skipped follows the last one. *)
Lemma accepted_follows q n l :
  offsets_inv q -> session_inv q (Some n) -> filtered (q_initial q) n = false -> last (q_accepted q) = Some l ->
  l < n /\ (gapless = true -> n = l + 1).
Proof.
  intros (Hl & _ & _ & Hi) [_ Hs] Hf El. rewrite El in Hl. rewrite Hl in Hi, Hs. destruct Hi as [_ [E|E]]; rewrite E in *.
  - exact Hs.
  - simpl in Hf, Hs. apply Z.ltb_ge in Hf. split; [lia|]. intros Hr. specialize (Hs Hr eq_refl). lia.
Qed.

Lemma qinv_message ctx message n q pc us :
  n < UINT64_MAX -> qinv (MkQSys q pc QfIdle (Some n) us) ->
  qinv (let '(r, q') := message_accept cfg n q in
        MkQSys q' pc (after_accept ctx n message r) (Some (n + 1)) us).
Proof.
  intros Hn (Ho & Hs & Hh & (Hc1 & Hc2 & Hc3) & Hb & Hf). simpl in *.
  unfold message_accept. unfold mbind at 1, ST_bind at 1. cbn [st_get].
  destruct (filtered (q_initial q) n) eqn:Ef; cbn -[wrap Z.add].
  - split; [done|]. split; [|split; [done|]; split; [done|]; split; [|done]].
    + simpl. destruct Hs as [Hs1 Hs2]. split; [lia|]. unfold filtered in Ef.
      destruct (q_initial q) as [o|]; [|done]. bool_to_prop. intros _ _. lia.
    + intros Hpc. now destruct (Hb Hpc) as (_ & ? & _).
  - pose proof (fun l => accepted_follows q n l Ho Hs Ef) as Hfol. destruct Ho as (Ho1 & Ho2 & Ho3 & Ho4).
    split; [|split; [|split; [|split; [|split]]]]; simpl.
    + unfold offsets_inv. simpl. rewrite last_snoc. split; [done|].
      split; [apply Sorted_snoc_last; [done|]; intros x Hx; now apply Hfol|].
      split; [|split; [|now left]].
      * intros Hr. apply Sorted_snoc_last; [auto|]. intros x Hx. now apply Hfol.
      * destruct Hs. lia.
    + split; [destruct Hs; lia | simpl; split; [lia | done]].
    + intros Hhd. rewrite <- (Hh Hhd). simpl. now rewrite app_nil_r.
    + split; [done|]. split; [|split; [apply elem_of_app; right; left|]].
      * intros o Hin. simpl. rewrite elem_of_app. destruct (Hc2 o Hin); auto.
      * unfold persist_frequency_reached. now destruct (m_auto_cursor_config cfg).
    + intros Hpc. now destruct (Hb Hpc) as (_ & ? & _).
    + exact Hf.
Qed.

Lemma qinv_call ctx offset message (store : bool) q pc se us :
  qinv (MkQSys q pc (QfCall ctx offset message store) se us) ->
  qinv (MkQSys (message_call cfg ctx offset message q).2 pc (if store then QfStore offset else QfIdle) se us).
Proof.
  intros (Ho & Hs & Hh & (Hc1 & Hc2 & Hc3 & Hc4) & Hb & Hf). unfold message_call.
  assert (cursor_inv q (if store then QfStore offset else QfIdle) us) as Hc.
  { split; [done|]. split; [done|]. destruct store; [|done]. split; [done | now apply Hc4]. }
  destruct (qc_handler cfg) eqn:Eh; simpl; (split; [exact Ho|]; split; [exact Hs|]; split; [|done]).
  - intros _. simpl. specialize (Hh Eh). simpl in Hh. rewrite <- Hh, map_app. now destruct store; rewrite app_nil_r.
  - intros E. now rewrite Eh in E.
Qed.

Lemma qinv_store offset q pc se us :
  qinv (MkQSys q pc (QfStore offset) se us) -> qinv (MkQSys (message_store cfg offset q).2 pc QfIdle se us).
Proof.
  intros Hi. assert (offset ∈ q_accepted q) as Hin by apply Hi.
  assert (qkeeps [offset] q (message_store cfg offset q).2) as Hk.
  { unfold message_store. unfold mbind at 1, ST_bind at 1. cbn [st_get].
    destruct (m_auto_cursor_config cfg); [|done]. destruct (_ <=? _); [|done].
    apply internal_store_keeps. right. left. }
  rewrite <- (qk_accepted _ _ _ Hk) in Hin.
  destruct (qinv_keeps q _ pc _ se us _ Hi Hk) as (Ho & Hs & Hh & (Hc1 & Hc2 & _) & Hb).
  split; [done|]. split; [done|]. split; [done|]. split; [|done]. split; [done|]. split; [|done].
  intros o Ho'. destruct (Hc2 o Ho') as [|Hu]; [auto|]. simpl in Hu. apply elem_of_app in Hu as [|Hu]; [auto|].
  apply list_elem_of_singleton in Hu as ->. auto.
Qed.

Lemma compare_exchange_status expected desired q :
  exists x, (q_compare_exchange expected desired q).2 = put_status x q /\
    (x = q_status q \/ q_status q = expected /\ x = desired).
Proof.
  unfold q_compare_exchange. unfold mbind at 1, ST_bind at 1. cbn [st_get].
  destruct (decide _) as [E|]; [exists desired; auto|]. exists (q_status q). split; [now destruct q | auto].
Qed.

Lemma start_begin_status q :
  exists x, (consumer_start_begin q).2 = put_status x q /\ (x = q_status q \/ x = QStarting).
Proof.
  destruct (compare_exchange_status QInitialized QStarting q) as (x & E & Hx). exists x.
  unfold consumer_start_begin, mbind, ST_bind. destruct (q_compare_exchange _ _ q) as [[[]|e] q1]; simpl in *; tauto.
Qed.

Lemma start_finish_status q :
  exists x, (consumer_start_finish q).2 = put_status x q.
Proof.
  destruct (compare_exchange_status QStarting QStarted q) as (x & E & Hx). exists x.
  unfold consumer_start_finish, mbind, ST_bind. destruct (q_compare_exchange _ _ q) as [[[]|e] q1]; simpl in *; tauto.
Qed.

Lemma qinv_step s s' : qinv s -> qstep s s' -> qinv s'.
Proof.
  intros Hs Hl. revert Hs.
  destruct Hl as [q f se us|q f us r q' session E Hse|q f se us|c q pc f se us r q' session E Hse|q pc f se us
                 |ctx message n q pc us Hn|n m q pc us Hg Hm|ctx offset message store q pc se us|offset q pc se us|op q pc f se us];
    intros Hs.
  - destruct (start_begin_status q) as (x & E & Hx). destruct (consumer_start_begin q) as [r q1]. simpl in E. subst q1.
    destruct Hs as (Ho & Hse & Hh & Hc & Hb & Hf). destruct (Hb eq_refl) as (H1 & H2 & H3).
    split; [exact Ho|]. split; [exact Hse|]. split; [exact Hh|]. split; [exact Hc|].
    simpl in *. split; [|now destruct r]. intros _. split; [done|]. split; [done|]. destruct Hx as [->| ->]; done.
  - destruct Hs as (Ho & Hs') eqn:Eh. destruct (proj1 (proj2 (proj2 (proj2 Hs'))) eq_refl) as (H1 & H2 & H3).
    simpl in H1, H3. pose proof (start_connect_asks q H1) as Ha. rewrite E in Ha.
    apply (qinv_asks q q' QsConnect _ f None session us (conj Ho Hs') Ha); [now right|..]; destruct r; done.
  - destruct (start_finish_status q) as (x & ->).
    destruct Hs as (Ho & Hse & Hh & Hc & Hb & Hf). split; [exact Ho|]. split; [exact Hse|]. done.
  - pose proof (resubscribe_asks c q) as Ha. pose proof (resubscribe_unseen c q) as Hu. rewrite E in Ha, Hu.
    pose proof Hs as (_ & _ & _ & _ & Hb & Hf).
    apply (qinv_asks q q' pc pc f se session us Hs Ha); [tauto| |done].
    intros Hpc. destruct (Hb Hpc) as (H1 & H2 & H3). simpl in *.
    destruct Hse as [->|[H4 _]]; done.
  - destruct Hs as (Ho & Hse & Hh & Hc & Hb & Hf). split; [exact Ho|]. split; [done|]. split; [exact Hh|].
    split; [exact Hc|]. split; [|exact Hf]. intros Hpc. now destruct (Hb Hpc) as (H1 & H2 & H3).
  - now apply qinv_message.
  - destruct Hs as (Ho & [Hn Hse] & Hh & Hc & Hb & Hf). simpl in Hn, Hse. split; [exact Ho|]. split; [|split; [exact Hh|]].
    + simpl. split; [lia|]. destruct (q_initial q) as [o|]; [intros Hr; congruence|].
      destruct (q_last_seen q) as [l|]; [|done]. split; [lia | intros Hr; congruence].
    + split; [exact Hc|]. split; [|exact Hf]. intros Hpc. destruct (Hb Hpc) as (_ & [=] & _).
  - now apply qinv_call.
  - now apply qinv_store.
  - eapply qinv_keeps; [exact Hs | apply run_qop_keeps].
Qed.

Lemma qinv_reachable s : qreachable s -> qinv s.
Proof.
  intros [w Hr]. cut (qinv (qs_init w)).
  - induction Hr; eauto using qinv_step.
  - split; [|split; [done|]; split; [done|]; split; [|done]].
    + split; [done|]. split; [apply Sorted_nil|]. split; [intros _; apply Sorted_nil|]. simpl. by eexists.
    + split; [simpl; lia|]. split; [|done]. intros o Ho. now apply elem_of_nil in Ho.
Qed.

Lemma consecutive_seqZ_cons x l : Sorted (fun x y => y = x + 1) (x :: l) -> x :: l = seqZ x (lenZ (x :: l)).
Proof.
  revert x. induction l as [|y l IH]; intros x Hs; [done|]. inversion Hs as [|? ? Hs' Hh]; subst.
  inversion Hh; subst. rewrite lenZ_cons, seqZ_cons by (pose proof (lenZ_nonneg ((x + 1) :: l)); lia). f_equal.
  replace (Z.succ x) with (x + 1) by lia. replace (Z.pred _) with (lenZ ((x + 1) :: l)) by lia. now apply IH.
Qed.

Lemma consecutive_seqZ l : Sorted (fun x y => y = x + 1) l -> exists first, l = seqZ first (lenZ l).
Proof. destruct l as [|x l]; [now exists 0|]. intros Hs. exists x. now apply consecutive_seqZ_cons. Qed.

(** In such a run the handler sees the messages in increasing order of their
    offsets, each at most once, and when nothing makes a gap without one; the
    calls of the handler follow the messages accepted. *)
Lemma single_in_order s :
  qreachable s ->
  let q := qs_state s in
  StronglySorted Z.lt (q_accepted q) /\
  (gapless = true -> exists first, q_accepted q = seqZ first (lenZ (q_accepted q))) /\
  (qc_handler cfg = true -> map (fun h => mc_offset h.1) (q_handled q) ++ frame_offset (qs_frame s) = q_accepted q).
Proof.
  intros Hr. destruct (qinv_reachable s Hr) as ((_ & Hs & Hc & _) & _ & Hh & _).
  split; [apply Sorted_StronglySorted; [intros x y z; lia | done]|].
  split; [intros Hret; now apply consecutive_seqZ, Hc | exact Hh].
Qed.

(** Every cursor that is stored is the offset of a message that was accepted
    before, or an argument of the user's [store_offset]; and no optional is
    dereferenced while it is empty: there is a last offset seen when the cursor
    is due, an offset to ask for as long as none was seen, and a cursor
    configuration when the frame thread stores. *)
Lemma single_cursor_sound s :
  qreachable s ->
  let q := qs_state s in
  (forall o, o ∈ q_stored q -> o ∈ q_accepted q \/ o ∈ qs_user_offsets s) /\
  (0 < q_since_persist q -> q_last_seen q <> None) /\
  (q_last_seen q = None -> q_initial q <> None) /\
  match qs_frame s with QfStore _ => m_auto_cursor_config cfg <> None | _ => True end.
Proof.
  intros Hr. destruct (qinv_reachable s Hr) as ((_ & _ & _ & Hi) & _ & _ & (H1 & H2 & H3) & _).
  split; [exact H2|]. split; [exact H1|]. split; [|destruct (qs_frame s); tauto].
  intros El. rewrite El in Hi. destruct Hi as [o Ho]. congruence.
Qed.

(** ** Runs *)

Inductive qaction :=
| QaBegin | QaConnect (session : option Z) | QaFinish
| QaResubscribe (c : nat) (session : option Z) | QaLost
| QaMessage (ctx : ChunkContext) (message : Message) | QaCall | QaStore
| QaOp (op : qop).

Definition may_start_atb (initial : option OffsetSpecification) (session : option Z) : bool :=
  match session, initial with
  | None, _ => true
  | Some n, Some o => (0 <=? n) && (negb gapless || negb (os_is_offset o) || (n <=? os_offset o))
  | Some _, None => false
  end.

Definition qrun (a : qaction) (s : qsys) : qsys :=
  let '(MkQSys q pc f se us) := s in
  match a, pc, f, se with
  | QaBegin, QsBegin, _, _ =>
      let '(r, q') := consumer_start_begin q in MkQSys q' (if is_val r then QsConnect else QsDone) f se us
  | QaConnect session, QsConnect, _, None =>
      let '(r, q') := consumer_start_connect cfg q in
      if may_start_atb (q_initial q') session
      then MkQSys q' (if is_val r then QsFinish else QsDone) f session us else s
  | QaFinish, QsFinish, _, _ => MkQSys (consumer_start_finish q).2 QsDone f se us
  | QaResubscribe c session, _, _, _ =>
      let '(r, q') := q_resubscribe cfg c q in
      if bool_decide (q_status q = QStarted) && may_start_atb (q_initial q') session
      then MkQSys q' pc f session us else s
  | QaLost, _, _, _ => MkQSys q pc f None us
  | QaMessage ctx message, _, QfIdle, Some n =>
      if n <? UINT64_MAX then
        let '(r, q') := message_accept cfg n q in
        MkQSys q' pc (after_accept ctx n message r) (Some (n + 1)) us
      else s
  | QaCall, _, QfCall ctx offset message store, _ =>
      MkQSys (message_call cfg ctx offset message q).2 pc (if store then QfStore offset else QfIdle) se us
  | QaStore, _, QfStore offset, _ => MkQSys (message_store cfg offset q).2 pc QfIdle se us
  | QaOp op, _, _, _ => MkQSys (run_qop op q).2 pc f se (us ++ user_offset op)
  | _, _, _, _ => s
  end.

Lemma may_start_atb_spec q session : may_start_atb (q_initial q) session = true -> session_after q session.
Proof.
  unfold may_start_atb, session_after, may_start_at. destruct session as [n|]; [|done].
  destruct (q_initial q) as [o|]; [|discriminate]. intros Hb. bool_to_prop. split; [done|]. intros Hr Ho.
  rewrite Hr, Ho in *. simpl in *. lia.
Qed.

Lemma qrun_steps a s : rtc qstep s (qrun a s).
Proof.
  destruct s as [q pc f se us], a as [|session| |c session| |ctx message| | |op]; simpl.
  - destruct pc; try done. apply rtc_once, QStepBegin.
  - destruct pc; try done. destruct se; [done|]. destruct (consumer_start_connect cfg q) as [r q'] eqn:E.
    destruct (may_start_atb (q_initial q') session) eqn:Em; [|done].
    now eapply rtc_once, QStepConnect, may_start_atb_spec.
  - destruct pc; try done. apply rtc_once, QStepFinish.
  - destruct (q_resubscribe cfg c q) as [r q'] eqn:E.
    destruct (bool_decide_reflect (q_status q = QStarted)); [|done].
    destruct (may_start_atb (q_initial q') session) eqn:Em; [|done].
    eapply rtc_once, QStepResubscribe; [exact E|]. right. split; [done | now apply may_start_atb_spec].
  - apply rtc_once, QStepLost.
  - destruct f; try done. destruct se as [n|]; [|done]. destruct (Z.ltb_spec n UINT64_MAX); [|done].
    now apply rtc_once, QStepMessage.
  - destruct f; try done. apply rtc_once, QStepCall.
  - destruct f; try done. apply rtc_once, QStepStore.
  - apply rtc_once, QStepOp.
Qed.

Definition qexec (script : list qaction) (s : qsys) : qsys := fold_left (fun s a => qrun a s) script s.

Lemma qexec_steps script s : rtc qstep s (qexec script s).
Proof.
  revert s. induction script as [|a script IH]; intros s; [done|]. simpl.
  etransitivity; [apply qrun_steps | apply IH].
Qed.

(** ** Automatic persistence *)

(** The messages of a subscription, one after the other. *)
Definition handle_messages (ms : list (ChunkContext * Z * Message)) : ST QS exn unit :=
  st_iter (fun m => handle_message cfg m.1.1 m.1.2 m.2) ms.

(** The client stores every offset it is asked to. *)
Definition stores_succeed : Prop :=
  forall c name stream offset w, exists w', qw_store_offset c name stream offset w = (Val tt, w').

Lemma store_succeeds c o q :
  stores_succeed -> qc_name cfg <> EmptyString -> q_client q = Some c ->
  exists q', internal_store_offset cfg o q = (Val tt, q') /\
    q_since_persist q' = 0 /\ q_stored q' = q_stored q ++ [o] /\
    q_client q' = Some c /\ q_initial q' = q_initial q.
Proof.
  intros Hst Hn Hc. unfold internal_store_offset. unfold mbind at 1, ST_bind at 1. cbn [st_get].
  rewrite Hc, bool_decide_false by done. destruct (Hst c (qc_name cfg) (qc_stream cfg) o (q_world q)) as [w' E].
  unfold mbind at 1, ST_bind at 1, qcatch, st_catch. unfold mbind at 1, ST_bind at 1, qcall. rewrite E.
  cbn [st_modify]. unfold schedule_persist. destruct (persist_task_delay cfg); eexists; (split; [reflexivity|]); done.
Qed.

(** One message, past the filter. *)
Lemma handle_message_persists a c ctx o m q :
  stores_succeed -> m_auto_cursor_config cfg = Some a -> 0 < acc_persist_frequency a <= UINT32_MAX ->
  q_client q = Some c -> q_initial q = None -> 0 <= q_since_persist q < acc_persist_frequency a ->
  exists q', handle_message cfg ctx o m q = (Val tt, q') /\ q_client q' = Some c /\ q_initial q' = None /\
    if q_since_persist q + 1 =? acc_persist_frequency a
    then q_since_persist q' = 0 /\ q_stored q' = q_stored q ++ [o]
    else q_since_persist q' = q_since_persist q + 1 /\ q_stored q' = q_stored q.
Proof.
  intros Hst Ha Hfr Hc Hi Hs. assert (qc_name cfg <> EmptyString) as Hn.
  { intros E. unfold m_auto_cursor_config in Ha. rewrite bool_decide_true in Ha by done. discriminate. }
  set (q1 := put_since_persist (q_since_persist q + 1)
    (put_last_seen (Some o) (put_initial None (put_accepted (q_accepted q ++ [o]) q)))).
  assert (message_accept cfg o q = (Val (Some (q_since_persist q + 1 =? acc_persist_frequency a)), q1)) as Eacc.
  { unfold message_accept. unfold mbind at 1, ST_bind at 1. cbn [st_get]. rewrite Hi. cbn [filtered].
    rewrite wrap_small by (unfold is_uint, UINT32_MAX in *; lia). unfold mbind, ST_bind. cbn [st_put mret ST_ret].
    fold q1. do 3 f_equal. unfold persist_frequency_reached. rewrite Ha. cbn [q_since_persist q1 put_since_persist].
    destruct (Z.eqb_spec (q_since_persist q + 1) (acc_persist_frequency a)), (Z.ltb_spec 0 (acc_persist_frequency a)),
      (Z.leb_spec (acc_persist_frequency a) (q_since_persist q + 1)); simpl; lia || done. }
  unfold handle_message. rewrite (ST_bind_Val _ _ _ _ _ Eacc).
  assert (exists q2, message_call cfg ctx o m q1 = (Val tt, q2) /\ q_client q2 = Some c /\ q_initial q2 = None /\
    q_since_persist q2 = q_since_persist q + 1 /\ q_stored q2 = q_stored q) as (q2 & Ecall & H1 & H2 & H3 & H4).
  { unfold message_call. destruct (qc_handler cfg); eexists; (split; [reflexivity|]); done. }
  rewrite (ST_bind_Val _ _ _ _ _ Ecall).
  destruct (Z.eqb_spec (q_since_persist q + 1) (acc_persist_frequency a)) as [E|E]; [|exists q2; auto].
  unfold message_store. unfold mbind at 1, ST_bind at 1. cbn [st_get]. rewrite Ha, H3, (proj2 (Z.leb_le _ _)) by lia.
  destruct (store_succeeds c o q2 Hst Hn H1) as (q3 & -> & H5 & H6 & H7 & H8). exists q3.
  rewrite H5, H6, H7, H8, H4. auto.
Qed.

(** While the subscription runs and stores succeed, the cursor is persisted
    after every [persist_frequency] messages, neither more nor less often: over
    any number of messages the stores are the quotient, and the messages since
    the last one the remainder. *)
Theorem persist_every_frequency a c ms q :
  stores_succeed -> m_auto_cursor_config cfg = Some a -> 0 < acc_persist_frequency a <= UINT32_MAX ->
  q_client q = Some c -> q_initial q = None -> 0 <= q_since_persist q < acc_persist_frequency a ->
  let q' := (handle_messages ms q).2 in
  (handle_messages ms q).1 = Val tt /\
  q_since_persist q' = (q_since_persist q + lenZ ms) mod acc_persist_frequency a /\
  lenZ (q_stored q') = lenZ (q_stored q) + (q_since_persist q + lenZ ms) / acc_persist_frequency a.
Proof.
  intros Hst Ha Hfr. revert q. induction ms as [|m ms IH]; intros q Hc Hi Hs.
  - change (lenZ []) with 0. rewrite Z.add_0_r, Z.mod_small, Z.div_small, Z.add_0_r by lia. done.
  - unfold handle_messages in *. cbn [st_iter].
    destruct (handle_message_persists a c m.1.1 m.1.2 m.2 q Hst Ha Hfr Hc Hi Hs) as (q1 & E & Hc1 & Hi1 & Hp).
    rewrite (ST_bind_Val _ _ _ _ _ E), lenZ_cons.
    destruct (Z.eqb_spec (q_since_persist q + 1) (acc_persist_frequency a)) as [Ef|Ef]; destruct Hp as [Hp1 Hp2].
    + destruct (IH q1 Hc1 Hi1 ltac:(lia)) as (H1 & H2 & H3). split; [done|].
      replace (q_since_persist q + (1 + lenZ ms)) with (lenZ ms + 1 * acc_persist_frequency a) by lia.
      rewrite Z.mod_add, Z.div_add by lia. rewrite Hp1 in H2, H3. rewrite Z.add_0_l in H2, H3.
      split; [done|]. rewrite H3, Hp2, lenZ_app. change (lenZ [m.1.2]) with 1. lia.
    + destruct (IH q1 Hc1 Hi1 ltac:(lia)) as (H1 & H2 & H3). split; [done|].
      rewrite Z.add_assoc, <- Hp1. split; [done|]. now rewrite H3, Hp2.
Qed.

End consumer_system.

(** ** A broker, and runs against it *)

(** Every call succeeds; the subscriptions are recorded; the cursor 41 was
    stored in the past. *)
#[export] Instance example_consumer_world : ConsumerWorld (list OffsetSpecification) := {|
  qw_environment := mret tt;
  qw_register_consumer := mret tt;
  qw_unregister_consumer := mret tt;
  qw_get_consumer_client _ := fun w => (Val (length w), w);
  qw_start _ := mret tt;
  qw_stop _ := mret tt;
  qw_query_offset _ _ _ := mret (Some 41);
  qw_subscribe _ _ _ o _ _ := fun w => (Val tt, w ++ [o]);
  qw_unsubscribe _ _ := mret tt;
  qw_store_offset _ _ _ _ := mret tt;
  qw_credit _ _ _ := mret tt
|}.

Definition example_consumer : ConsumerConfig :=
  MkConsumerConfig "app" "orders" offset_first (Some (MkAutomaticCursorConfiguration 2 5000)) true true 5000.

Definition example_chunk : ChunkContext := MkChunkContext 0 40 4 None.
Definition example_message : Message := MkMessage [] [].

Definition example_message_turn : list qaction := [QaMessage example_chunk example_message; QaCall; QaStore].

Lemma persist_every_frequency_witness :
  let q := put_initial None (put_client (Some 0%nat) (new_Consumer example_consumer [])) in
  let ms := map (fun o => (example_chunk, o, example_message)) [40; 41; 42; 43; 44] in
  let q' := (handle_messages example_consumer ms q).2 in
  q_since_persist q' = 5 mod 2 /\ lenZ (q_stored q') = 5 / 2.
Proof.
  apply (persist_every_frequency example_consumer (MkAutomaticCursorConfiguration 2 5000) 0
    (map (fun o => (example_chunk, o, example_message)) [40; 41; 42; 43; 44])
    (put_initial None (put_client (Some 0%nat) (new_Consumer example_consumer [])))).
  - intros c name stream offset w. exists w. reflexivity.
  - reflexivity.
  - vm_compute. split; congruence.
  - reflexivity.
  - reflexivity.
  - vm_compute. split; congruence.
Defined.
