(* ===== verification/ConsumerSpec.v ===== *)
(** * What a consumer promises

    A consumer seen from outside takes messages from the stream, hands them to
    the handler and stores cursors.  [reader_step] is this machine: the offsets it
    takes only grow, by one when the broker keeps what is asked for; it hands over
    what it took, in that order; a cursor is the offset of a message it took, or
    one that the user asked to store.  The steps of [ConsumerSystem], with its
    reconnections, tasks and filters, are runs of it; the refinement mapping
    forgets everything else.  The refinement itself, over the system with any
    number of frame threads, is in [ConsumerThreads]. *)

From S2P Require Import Prelude Words OrdMap Types Consumer ConsumerSystem.

Record reader := MkReader {
  rd_taken : list Z;
  rd_handed : list (MessageContext * Message);
  rd_stored : list Z;
  rd_asked : list Z
}.

Definition reader_init : reader := MkReader [] [] [] [].

Definition offset_of (h : MessageContext * Message) : Z := mc_offset h.1.

Inductive reader_step (gapless : bool) : reader -> reader -> Prop :=
| RdTake n taken handed stored asked :
    (forall l, last taken = Some l -> l < n /\ (gapless = true -> n = l + 1)) ->
    reader_step gapless (MkReader taken handed stored asked) (MkReader (taken ++ [n]) handed stored asked)
| RdHand h taken handed stored asked :
    map offset_of (handed ++ [h]) `prefix_of` taken ->
    reader_step gapless (MkReader taken handed stored asked) (MkReader taken (handed ++ [h]) stored asked)
| RdStore o taken handed stored asked :
    o ∈ taken \/ o ∈ asked ->
    reader_step gapless (MkReader taken handed stored asked) (MkReader taken handed (stored ++ [o]) asked)
| RdAsk o taken handed stored asked :
    reader_step gapless (MkReader taken handed stored asked) (MkReader taken handed stored (asked ++ [o])).

(** The machine never goes back, and what it hands over is what it took so far. *)
Lemma reader_sound gapless r :
  rtc (reader_step gapless) reader_init r ->
  Sorted Z.lt (rd_taken r) /\ (gapless = true -> Sorted (fun x y => y = x + 1) (rd_taken r)) /\
  map offset_of (rd_handed r) `prefix_of` rd_taken r /\ (forall o, o ∈ rd_stored r -> o ∈ rd_taken r \/ o ∈ rd_asked r).
Proof.
  intros Hr. revert r Hr. apply rtc_ind_r; [split; [apply Sorted_nil|]; split; [intros _; apply Sorted_nil|]; split; [done | set_solver]|].
  intros r r' _ Hs (IH1 & IH2 & IH3 & IH4). destruct Hs as [n taken handed stored asked Hn|h taken handed stored asked Hp|o taken handed stored asked Ho|]; simpl in *.
  - split; [apply Sorted_snoc_last; [done | intros l Hl; by apply Hn]|].
    split; [intros Hret; apply Sorted_snoc_last; [auto | intros l Hl; by apply Hn]|].
    split; [by apply prefix_app_r|]. intros o Ho. rewrite elem_of_app. destruct (IH4 o Ho); auto.
  - done.
  - split; [done|]. split; [done|]. split; [done|]. intros o' Ho'.
    apply elem_of_app in Ho' as [Ho'|Ho']; [auto|]. by apply list_elem_of_singleton in Ho' as ->.
  - split; [done|]. split; [done|]. split; [done|]. intros o' Ho'. rewrite elem_of_app. destruct (IH4 o' Ho'); auto.
Qed.

Section refinement.
Context {W : Type} `{ConsumerWorld W}.
Context (cfg : ConsumerConfig) (gapless : bool).
Abbreviation QS := (@QState W).
Implicit Types q : QS.

(** The refinement mapping. *)
Definition seen q (us : list Z) : reader := MkReader (q_accepted q) (q_handled q) (q_stored q) us.
Definition reader_of (s : @qsys W) : reader := seen (qs_state s) (qs_user_offsets s).

Abbreviation rstep := (reader_step gapless).

Lemma store_all taken handed stored asked new :
  Forall (fun o => o ∈ taken \/ o ∈ asked) new ->
  rtc rstep (MkReader taken handed stored asked) (MkReader taken handed (stored ++ new) asked).
Proof.
  intros Hn. revert stored. induction Hn as [|o new Ho Hn IH]; intros stored; [by rewrite app_nil_r|].
  eapply rtc_l; [by apply (RdStore _ o)|]. specialize (IH (stored ++ [o])). by rewrite <- app_assoc in IH.
Qed.

Lemma ask_all taken handed stored asked new :
  rtc rstep (MkReader taken handed stored asked) (MkReader taken handed stored (asked ++ new)).
Proof.
  revert asked. induction new as [|o new IH]; intros asked; [by rewrite app_nil_r|].
  eapply rtc_l; [apply RdAsk|]. specialize (IH (asked ++ [o])). by rewrite <- app_assoc in IH.
Qed.

Lemma last_seen_taken q o : offsets_inv gapless q -> q_last_seen q = Some o -> o ∈ q_accepted q.
Proof. intros (Hl & _) E. rewrite E in Hl. symmetry in Hl. apply last_Some in Hl as [l ->]. set_solver. Qed.

(** A section that stores cursors: of messages it took, or that are asked for. *)
Lemma reader_keeps q q' us us' :
  offsets_inv gapless q -> qkeeps us' q q' -> rtc rstep (seen q us) (seen q' (us ++ us')).
Proof.
  intros Ho [_ _ Ea Eh _ Est _]. unfold seen. rewrite Ea, Eh. destruct Est as (new & -> & Hnew).
  etrans; [apply (ask_all _ _ _ us us')|]. apply store_all. eapply Forall_impl; [exact Hnew|].
  intros o [Hl|Hu]; [left; by eapply last_seen_taken | set_solver].
Qed.

Lemma reader_asks q q' us : qasks q q' -> seen q' us = seen q us.
Proof. intros [_ _ Ea Eh _ Est _]. unfold seen. by rewrite Ea, Eh, Est. Qed.

Lemma reader_message q n us :
  offsets_inv gapless q -> session_inv gapless q (Some n) -> rtc rstep (seen q us) (seen (message_accept cfg n q).2 us).
Proof.
  intros Ho Hs. unfold message_accept, mbind at 1, ST_bind at 1. cbn [st_get].
  destruct (filtered (q_initial q) n) eqn:Ef; [done|].
  apply rtc_once, (RdTake _ n). intros l Hl. by apply (accepted_follows gapless q).
Qed.

Lemma reader_call q ctx offset message store us :
  handled_inv cfg q (QfCall ctx offset message store) -> rtc rstep (seen q us) (seen (message_call cfg ctx offset message q).2 us).
Proof.
  intros Hh. unfold message_call. destruct (qc_handler cfg) eqn:E; [|done]. apply rtc_once. unfold seen. simpl.
  apply RdHand. rewrite map_app. simpl. unfold offset_of at 2. simpl. rewrite <- (Hh E). simpl. done.
Qed.

Lemma reader_step_of s s' : qinv cfg gapless s -> qstep cfg gapless s s' -> rtc rstep (reader_of s) (reader_of s').
Proof.
  intros Hs Hstep. revert Hs. unfold reader_of.
  destruct Hstep as [q f se us|q f us r q' session E Hse|q f se us|c q pc f se us r q' session E Hse|q pc f se us
                 |ctx message n q pc us Hn|n m q pc us Hg Hm|ctx offset message store q pc se us|offset q pc se us|op q pc f se us];
    intros Hi; pose proof Hi as (Ho & Hse' & Hh & (_ & _ & Hc) & Hb & _); simpl in *.
  - destruct (start_begin_status q) as (x & E & _). destruct (consumer_start_begin q) as [r q1]. simpl in *. by subst q1.
  - destruct (Hb eq_refl) as (H1 & _). pose proof (start_connect_asks cfg q H1) as Ha. rewrite E in Ha. by rewrite (reader_asks _ _ _ Ha).
  - destruct (start_finish_status q) as (x & ->). done.
  - pose proof (resubscribe_asks cfg c q) as Ha. rewrite E in Ha. by rewrite (reader_asks _ _ _ Ha).
  - done.
  - pose proof (reader_message q n us Ho Hse') as Hm. by destruct (message_accept cfg n q).
  - done.
  - by eapply reader_call.
  - destruct Hc as [Hin _]. unfold message_store, mbind at 1, ST_bind at 1. cbn [st_get].
    destruct (m_auto_cursor_config cfg); [|done]. destruct (_ <=? _); [|done].
    pose proof (internal_store_keeps cfg [offset] offset q ltac:(right; left)) as [_ _ Ea Eh _ Est _].
    unfold seen. rewrite Ea, Eh. destruct Est as (new & -> & Hnew). apply store_all. eapply Forall_impl; [exact Hnew|].
    intros o [Hl|Hu]; left; [by eapply last_seen_taken | set_solver].
  - apply reader_keeps; [done | apply run_qop_keeps].
Qed.

Lemma reader_run s s' : qinv cfg gapless s -> rtc (qstep cfg gapless) s s' -> rtc rstep (reader_of s) (reader_of s').
Proof.
  intros Hi Hr. revert Hi. induction Hr as [s|s1 s2 s3 H12 _ IH]; intros Hi; [done|].
  etrans; [by apply reader_step_of | by eapply IH, qinv_step].
Qed.

Lemma single_refines s : qreachable cfg gapless s -> rtc rstep reader_init (reader_of s).
Proof.
  intros [w Hr]. change reader_init with (reader_of (qs_init cfg w)). apply reader_run; [|done].
  apply qinv_reachable. by exists w.
Qed.

End refinement.
