(* ===== verification/ConsumerThreads.v ===== *)
(** * The consumer with the frame threads of several clients

    [reconnect_to_server] may subscribe a new client while the frame thread of an
    earlier one is still in [handle_deliver]: [delayed_reconnect] takes the client
    out before it stops it, and a reconnection that was armed before, or that a
    heartbeat time-out schedules meanwhile, finds no client.  [cstep] has one
    frame thread per subscription, any number of them alive; [cs_overlapped]
    tells whether a subscription has begun while an earlier frame thread was
    still handing over messages.  As long as none has, the runs are those of
    [ConsumerSystem], and the consumer keeps the order of the stream; afterwards it
    does so for each subscription, but may hand over messages again. *)

From S2P Require Import Prelude Words OrdMap Types Consumer ConsumerSystem ConsumerSpec.

(** The frame thread of a client, from its subscription on: [ft_session] is the
    offset of the next message that it gets, as long as it gets any, and
    [ft_log] are the offsets of the messages that were accepted from it. *)
Record fthread := MkFThread {
  ft_session : option Z;
  ft_pc : qframe_pc;
  ft_log : list Z
}.

Definition ft_live (th : fthread) : bool :=
  match ft_session th, ft_pc th with None, QfIdle => false | _, _ => true end.

Definition pending_offsets (ths : list fthread) : list Z := concat (map (fun th => frame_offset (ft_pc th)) ths).

(** ** Lists of threads *)

Lemma concat_insert {A B} (f : A -> list B) (l : list A) i x y :
  l !! i = Some x -> concat (map f (<[i := y]> l)) ++ f x ≡ₚ concat (map f l) ++ f y.
Proof.
  revert i. induction l as [|z l IH]; intros [|i] E; simpl in *; [done | done | injection E as ->; solve_Permutation |].
  rewrite <- !app_assoc, (IH i E). done.
Qed.

Lemma last_insert_last {A} (l : list A) i y : S i = length l -> last (<[i := y]> l) = Some y.
Proof.
  intros E. rewrite last_lookup, length_insert. replace (pred (length l)) with i by lia. apply list_lookup_insert_eq. lia.
Qed.

Section threads.
Context {W : Type} `{ConsumerWorld W}.
Context (cfg : ConsumerConfig) (gapless : bool).
Abbreviation QS := (@QState W).
Implicit Types (q : QS) (ths : list fthread).

Record csys := MkCSys {
  cs_state : QS;
  cs_start : qstart_pc;
  cs_threads : list fthread;
  cs_user_offsets : list Z;
  cs_overlapped : bool
}.

(** A subscription that the broker serves, from the message [n] on. *)
Definition subscribed (session : option Z) ths : list fthread :=
  match session with Some n => ths ++ [MkFThread (Some n) QfIdle []] | None => ths end.
Definition overlaps (session : option Z) ths : bool :=
  match session with Some _ => existsb ft_live ths | None => false end.

Definition logged (n : Z) (r : outcome exn (option bool)) : list Z :=
  match r with Val (Some _) => [n] | _ => [] end.

Inductive cstep : csys -> csys -> Prop :=
| CBegin q ths us ov :
    cstep (MkCSys q QsBegin ths us ov)
          (let '(r, q') := consumer_start_begin q in MkCSys q' (if is_val r then QsConnect else QsDone) ths us ov)
| CConnect q ths us ov r q' session :
    consumer_start_connect cfg q = (r, q') -> session_after gapless q' session ->
    cstep (MkCSys q QsConnect ths us ov)
          (MkCSys q' (if is_val r then QsFinish else QsDone) (subscribed session ths) us (ov || overlaps session ths))
| CFinish q ths us ov :
    cstep (MkCSys q QsFinish ths us ov) (MkCSys (consumer_start_finish q).2 QsDone ths us ov)
| CResubscribe c q pc ths us ov r q' session :
    q_resubscribe cfg c q = (r, q') ->
    session = None \/ (q_status q = QStarted /\ session_after gapless q' session) ->
    cstep (MkCSys q pc ths us ov) (MkCSys q' pc (subscribed session ths) us (ov || overlaps session ths))
| CEnd i th q pc ths us ov :
    ths !! i = Some th ->
    cstep (MkCSys q pc ths us ov) (MkCSys q pc (<[i := MkFThread None (ft_pc th) (ft_log th)]> ths) us ov)
| CMessage i ctx message n log q pc ths us ov :
    ths !! i = Some (MkFThread (Some n) QfIdle log) -> n < UINT64_MAX ->
    cstep (MkCSys q pc ths us ov)
          (let '(r, q') := message_accept cfg n q in
           MkCSys q' pc (<[i := MkFThread (Some (n + 1)) (after_accept ctx n message r) (log ++ logged n r)]> ths) us ov)
| CSkip i n m log q pc ths us ov :
    ths !! i = Some (MkFThread (Some n) QfIdle log) -> gapless = false -> n < m ->
    cstep (MkCSys q pc ths us ov) (MkCSys q pc (<[i := MkFThread (Some m) QfIdle log]> ths) us ov)
| CCall i ctx offset message store se log q pc ths us ov :
    ths !! i = Some (MkFThread se (QfCall ctx offset message store) log) ->
    cstep (MkCSys q pc ths us ov)
          (MkCSys (message_call cfg ctx offset message q).2 pc
             (<[i := MkFThread se (if store : bool then QfStore offset else QfIdle) log]> ths) us ov)
| CStore i offset se log q pc ths us ov :
    ths !! i = Some (MkFThread se (QfStore offset) log) ->
    cstep (MkCSys q pc ths us ov)
          (MkCSys (message_store cfg offset q).2 pc (<[i := MkFThread se QfIdle log]> ths) us ov)
| COp op q pc ths us ov :
    cstep (MkCSys q pc ths us ov) (MkCSys (run_qop cfg op q).2 pc ths (us ++ user_offset op) ov).

Definition cs_init (w : W) : csys := MkCSys (new_Consumer cfg w) QsBegin [] [] false.

Definition creachable (s : csys) : Prop := exists w, rtc cstep (cs_init w) s.

(** ** Without an overlap *)

(** The frame thread of the last subscription; the others are over. *)
Definition current (ths : list fthread) : qframe_pc * option Z :=
  match last ths with Some th => (ft_pc th, ft_session th) | None => (QfIdle, None) end.

Definition older_over (ths : list fthread) : Prop :=
  forall i th, ths !! i = Some th -> (S i < length ths)%nat -> ft_live th = false.

Definition single (s : csys) : qsys :=
  MkQSys (cs_state s) (cs_start s) (current (cs_threads s)).1 (current (cs_threads s)).2 (cs_user_offsets s).

Lemma not_live th : ft_live th = false -> ft_session th = None /\ ft_pc th = QfIdle.
Proof. destruct th as [[n|] [] log]; done. Qed.

(** An update of a thread is one of the current thread, or it leaves one that is
    over. *)
Lemma insert_current ths i th th' :
  older_over ths -> ths !! i = Some th ->
  (current ths = (ft_pc th, ft_session th) /\ current (<[i := th']> ths) = (ft_pc th', ft_session th') /\
   older_over (<[i := th']> ths)) \/
  (ft_live th = false /\ (ft_live th' = false -> current (<[i := th']> ths) = current ths /\ older_over (<[i := th']> ths))).
Proof.
  intros Ho Ei. pose proof (lookup_lt_Some _ _ _ Ei) as Hlt. destruct (decide (S i = length ths)) as [El|El].
  - left. assert (older_over (<[i := th']> ths)) as Ho'.
    { intros j x Hj Hlj. rewrite length_insert in Hlj. rewrite list_lookup_insert_ne in Hj by lia. by eapply Ho. }
    unfold current. rewrite last_insert_last by done. rewrite last_lookup, <- El. simpl. by rewrite Ei.
  - right. split; [eapply Ho; [exact Ei | lia]|]. intros Hd. split.
    + unfold current. rewrite !last_lookup, length_insert, list_lookup_insert_ne by lia. done.
    + intros j x Hj Hlj. rewrite length_insert in Hlj. destruct (decide (i = j)) as [<-|Hne].
      * rewrite list_lookup_insert_eq in Hj by done. by injection Hj as <-.
      * rewrite list_lookup_insert_ne in Hj by done. by eapply Ho.
Qed.

(** A new subscription, all earlier frame threads being over. *)
Lemma subscribed_current ths n :
  existsb ft_live ths = false ->
  current ths = (QfIdle, None) /\ current (subscribed (Some n) ths) = (QfIdle, Some n) /\ older_over (subscribed (Some n) ths).
Proof.
  intros Hd. assert (forall th, th ∈ ths -> ft_live th = false) as Hall.
  { intros th Hin. destruct (ft_live th) eqn:E; [|done].
    assert (existsb ft_live ths = true) as Et by (apply existsb_exists; exists th; split; [by apply list_elem_of_In | done]).
    congruence. }
  split; [|split].
  - unfold current. destruct (last ths) as [th|] eqn:El; [|done]. apply last_Some in El as [l ->].
    destruct (not_live th (Hall th ltac:(set_solver))) as [-> ->]. done.
  - unfold current, subscribed. by rewrite last_snoc.
  - intros i th Hi Hl. unfold subscribed in *. rewrite length_app in Hl. simpl in Hl. rewrite lookup_app_l in Hi by lia.
    apply Hall. eapply list_elem_of_lookup_2, Hi.
Qed.

(** A step after which no two subscriptions have overlapped is one of
    [ConsumerSystem]. *)
Lemma single_step s s' :
  older_over (cs_threads s) -> qinv cfg gapless (single s) -> cstep s s' -> cs_overlapped s' = false ->
  older_over (cs_threads s') /\ rtc (qstep cfg gapless) (single s) (single s').
Proof.
  intros Ho Hi Hs Hov. revert Ho Hi. unfold single. destruct Hs as
    [q ths us ov|q ths us ov r q' session E Hse|q ths us ov|c q pc ths us ov r q' session E Hse|i th q pc ths us ov Ei
    |i ctx message n log q pc ths us ov Ei Hn|i n m log q pc ths us ov Ei Hg Hm
    |i ctx offset message store se log q pc ths us ov Ei|i offset se log q pc ths us ov Ei|op q pc ths us ov];
    cbn [cs_state cs_start cs_threads cs_user_offsets cs_overlapped] in *; intros Ho Hi.
  - pose proof (QStepBegin cfg gapless q (current ths).1 (current ths).2 us) as Hs.
    destruct (consumer_start_begin q) as [r q']. split; [done | by apply rtc_once].
  - apply orb_false_elim in Hov as [_ Hov].
    assert ((current ths).2 = None) as En by (destruct Hi as (_ & _ & _ & _ & Hb & _); by destruct (Hb eq_refl) as (_ & ? & _)).
    rewrite En. destruct session as [n|].
    + destruct (subscribed_current ths n Hov) as (C1 & C2 & C3). split; [done|]. rewrite C1, C2.
      by apply rtc_once, QStepConnect.
    + split; [done|]. simpl. rewrite En. by apply rtc_once, QStepConnect.
  - split; [done|]. apply rtc_once, QStepFinish.
  - apply orb_false_elim in Hov as [_ Hov]. destruct session as [n|].
    + destruct Hse as [[=]|Hse]. destruct (subscribed_current ths n Hov) as (C1 & C2 & C3). split; [done|]. rewrite C1, C2.
      eapply rtc_once, QStepResubscribe; [exact E | by right].
    + split; [done|]. eapply rtc_once, QStepResubscribe; [exact E | by left].
  - destruct (insert_current ths i th (MkFThread None (ft_pc th) (ft_log th)) Ho Ei) as [(C1 & C2 & C3)|[Hl Hd]].
    + split; [done|]. rewrite C1, C2. apply rtc_once, QStepLost.
    + destruct (not_live th Hl) as [E1 E2]. destruct Hd as [C2 C3]; [by rewrite E2|]. split; [done|]. by rewrite C2.
  - pose proof (QStepMessage cfg gapless ctx message n q pc us Hn) as Hs. destruct (message_accept cfg n q) as [r q'].
    destruct (insert_current ths i _ (MkFThread (Some (n + 1)) (after_accept ctx n message r) (log ++ logged n r)) Ho Ei)
      as [(C1 & C2 & C3)|[[=] _]].
    split; [done|]. simpl. rewrite C1, C2. by apply rtc_once.
  - destruct (insert_current ths i _ (MkFThread (Some m) QfIdle log) Ho Ei) as [(C1 & C2 & C3)|[[=] _]].
    split; [done|]. rewrite C1, C2. by apply rtc_once, QStepSkip.
  - destruct (insert_current ths i _ (MkFThread se (if store : bool then QfStore offset else QfIdle) log) Ho Ei)
      as [(C1 & C2 & C3)|[Hl _]].
    + split; [done|]. rewrite C1, C2. apply rtc_once, QStepCall.
    + by destruct (not_live _ Hl) as [_ [=]].
  - destruct (insert_current ths i _ (MkFThread se QfIdle log) Ho Ei) as [(C1 & C2 & C3)|[Hl _]].
    + split; [done|]. rewrite C1, C2. apply rtc_once, QStepStore.
    + by destruct (not_live _ Hl) as [_ [=]].
  - split; [done|]. apply rtc_once, QStepOp.
Qed.

Lemma overlapped_stays s s' : cstep s s' -> cs_overlapped s = true -> cs_overlapped s' = true.
Proof.
  intros Hs Ho. destruct Hs; cbn [cs_overlapped] in *; subst; try done;
    match goal with |- context [let '(_, _) := ?x in _] => by destruct x end.
Qed.

Lemma single_reachable s :
  creachable s -> cs_overlapped s = false -> older_over (cs_threads s) /\ qreachable cfg gapless (single s).
Proof.
  intros [w Hr]. revert s Hr.
  apply (rtc_ind_r (fun s => cs_overlapped s = false -> older_over (cs_threads s) /\ qreachable cfg gapless (single s))).
  - intros _. split; [by intros i th Hi|]. exists w. apply rtc_refl.
  - intros s s' _ Hs IH Hov. destruct (cs_overlapped s) eqn:E; [by rewrite (overlapped_stays _ _ Hs E) in Hov|].
    destruct (IH eq_refl) as [Ho [w' Hq]]. destruct (single_step s s' Ho) as [Ho' Hq']; [|done..|].
    + apply qinv_reachable. by exists w'.
    + split; [done|]. exists w'. by etransitivity.
Qed.

(** ** In every run *)

(** What holds however the subscriptions overlap: the messages of each one are
    accepted in order, what is accepted comes from one of them, and what is
    handled or about to be is what was accepted. *)
Record cinv (s : csys) : Prop := MkCInv {
  ci_threads : Forall (fun th => Sorted Z.lt (ft_log th) /\
    (forall n l, ft_session th = Some n -> last (ft_log th) = Some l -> l < n)) (cs_threads s);
  ci_accepted : q_accepted (cs_state s) ≡ₚ concat (map ft_log (cs_threads s));
  ci_handled : qc_handler cfg = true ->
    map (fun h => mc_offset h.1) (q_handled (cs_state s)) ++ pending_offsets (cs_threads s) ≡ₚ q_accepted (cs_state s);
  ci_last : q_last_seen (cs_state s) = last (q_accepted (cs_state s));
  ci_stored o : o ∈ q_stored (cs_state s) -> o ∈ q_accepted (cs_state s) \/ o ∈ cs_user_offsets s;
  ci_frames : Forall (fun th => match ft_pc th with
    | QfIdle => True
    | QfCall _ o _ store => o ∈ q_accepted (cs_state s) /\ (store = true -> m_auto_cursor_config cfg <> None)
    | QfStore o => o ∈ q_accepted (cs_state s) /\ m_auto_cursor_config cfg <> None
    end) (cs_threads s);
  ci_before : before_messages (cs_start s) = true ->
    q_last_seen (cs_state s) = None /\ q_status (cs_state s) <> QStarted /\ cs_threads s = [];
  ci_since : 0 < q_since_persist (cs_state s) -> q_last_seen (cs_state s) <> None;
  ci_initial : q_last_seen (cs_state s) = None -> exists o, q_initial (cs_state s) = Some o
}.

(** A section that leaves the messages. *)
Lemma cinv_same q q' pc pc' ths us ov ov' :
  q_accepted q' = q_accepted q -> q_handled q' = q_handled q -> q_last_seen q' = q_last_seen q ->
  q_stored q' = q_stored q -> q_since_persist q' = q_since_persist q ->
  (q_last_seen q = None -> exists o, q_initial q' = Some o) ->
  (before_messages pc' = true -> q_last_seen q = None /\ q_status q' <> QStarted /\ ths = []) ->
  cinv (MkCSys q pc ths us ov) -> cinv (MkCSys q' pc' ths us ov').
Proof.
  intros Ea Eh El Est Esi Hi Hb [I1 I2 I3 I4 I5 I6 I7 I8 I9]. constructor; simpl in *; rewrite ?Ea, ?Eh, ?El, ?Est, ?Esi; done.
Qed.

(** A subscription adds a thread that has nothing yet. *)
Lemma cinv_subscribed session q pc ths us ov :
  (session <> None -> before_messages pc = false) -> cinv (MkCSys q pc ths us ov) -> cinv (MkCSys q pc (subscribed session ths) us (ov || overlaps session ths)).
Proof.
  intros Hpc [I1 I2 I3 I4 I5 I6 I7 I8 I9]. destruct session as [n|]; [|by constructor].
  constructor; simpl in *; try done; unfold pending_offsets in *.
  - apply Forall_app. split; [done|]. apply Forall_singleton. by split; [apply Sorted_nil|].
  - rewrite map_app, concat_app. simpl. by rewrite !app_nil_r.
  - rewrite map_app, concat_app. simpl. by rewrite !app_nil_r.
  - apply Forall_app. split; [done|]. by apply Forall_singleton.
  - by rewrite Hpc.
Qed.

(** A thread goes on without a message. *)
Lemma cinv_thread i th th' q pc ths us ov :
  ths !! i = Some th -> ft_log th' = ft_log th -> ft_pc th' = ft_pc th ->
  (forall n l, ft_session th' = Some n -> last (ft_log th) = Some l -> l < n) ->
  cinv (MkCSys q pc ths us ov) -> cinv (MkCSys q pc (<[i := th']> ths) us ov).
Proof.
  intros Ei El Ep Hn [I1 I2 I3 I4 I5 I6 I7 I8 I9]. constructor; simpl in *; try done.
  - apply Forall_insert; [done|]. rewrite El. split; [by apply (Forall_lookup_1 _ _ _ _ I1 Ei) | done].
  - rewrite I2. pose proof (concat_insert ft_log ths i th th' Ei) as Hc. rewrite El in Hc. by apply Permutation_app_inv_r in Hc as ->.
  - intros Hh. rewrite <- (I3 Hh). unfold pending_offsets.
    pose proof (concat_insert (fun th => frame_offset (ft_pc th)) ths i th th' Ei) as Hc. simpl in Hc. rewrite Ep in Hc.
    by apply Permutation_app_inv_r in Hc as ->.
  - apply Forall_insert; [done|]. rewrite Ep. by apply (Forall_lookup_1 _ _ _ _ I6 Ei).
  - intros Hpc. destruct (I7 Hpc) as (_ & _ & ->). discriminate Ei.
Qed.

Lemma cinv_message i ctx message n log q pc ths us ov :
  ths !! i = Some (MkFThread (Some n) QfIdle log) -> cinv (MkCSys q pc ths us ov) ->
  cinv (let '(r, q') := message_accept cfg n q in
        MkCSys q' pc (<[i := MkFThread (Some (n + 1)) (after_accept ctx n message r) (log ++ logged n r)]> ths) us ov).
Proof.
  intros Ei Hi.
  assert (forall l, last log = Some l -> l < n) as Hl by (intros l; by apply (Forall_lookup_1 _ _ _ _ (ci_threads _ Hi) Ei)).
  destruct (filtered (q_initial q) n) eqn:Ef.
  { assert (message_accept cfg n q = (Val None, q)) as E.
    { unfold message_accept, mbind, ST_bind. cbn [st_get]. by rewrite Ef. }
    rewrite E. eapply cinv_thread; [exact Ei | simpl; by rewrite app_nil_r | done | | exact Hi].
    simpl. intros m l [= <-] El. specialize (Hl l El). lia. }
  set (q1 := put_since_persist (wrap32 (q_since_persist q + 1))
               (put_last_seen (Some n) (put_initial None (put_accepted (q_accepted q ++ [n]) q)))).
  assert (message_accept cfg n q = (Val (Some (persist_frequency_reached cfg q1)), q1)) as E.
  { unfold message_accept, mbind, ST_bind. cbn [st_get]. by rewrite Ef. }
  rewrite E. destruct Hi as [I1 I2 I3 I4 I5 I6 I7 I8 I9].
  set (th' := MkFThread _ _ _).
  constructor; simpl in *.
  - apply Forall_insert; [done|]. unfold th'. simpl. destruct (Forall_lookup_1 _ _ _ _ I1 Ei) as [Hs _]. simpl in Hs. split.
    + apply Sorted_snoc_last; done.
    + intros m l [= <-]. rewrite last_snoc. intros [= <-]. lia.
  - pose proof (concat_insert ft_log ths i _ th' Ei) as Hc. simpl in Hc. rewrite I2.
    apply (Permutation_app_inv_r log). rewrite Hc. solve_Permutation.
  - intros Hh. specialize (I3 Hh). unfold pending_offsets in *.
    pose proof (concat_insert (fun th => frame_offset (ft_pc th)) ths i _ th' Ei) as Hc. simpl in Hc. rewrite app_nil_r in Hc.
    rewrite Hc, app_assoc, I3. done.
  - by rewrite last_snoc.
  - intros o Hin. rewrite elem_of_app. destruct (I5 o Hin); auto.
  - apply Forall_insert.
    + eapply Forall_impl; [exact I6|]. intros th. cbv beta. destruct (ft_pc th); [done | |]; intros [H1 H2]; (split; [apply elem_of_app; by left | done]).
    + unfold th'. simpl. split; [apply elem_of_app; right; left|]. unfold persist_frequency_reached. by destruct (m_auto_cursor_config cfg).
  - intros Hpc. destruct (I7 Hpc) as (_ & _ & ->). discriminate Ei.
  - done.
  - done.
Qed.

Lemma cinv_call i ctx offset message (store : bool) se log q pc ths us ov :
  ths !! i = Some (MkFThread se (QfCall ctx offset message store) log) -> cinv (MkCSys q pc ths us ov) ->
  cinv (MkCSys (message_call cfg ctx offset message q).2 pc
          (<[i := MkFThread se (if store then QfStore offset else QfIdle) log]> ths) us ov).
Proof.
  intros Ei [I1 I2 I3 I4 I5 I6 I7 I8 I9]. set (th' := MkFThread se (if store then _ else _) log).
  pose proof (concat_insert ft_log ths i _ th' Ei) as Hlog. apply Permutation_app_inv_r in Hlog.
  pose proof (concat_insert (fun th => frame_offset (ft_pc th)) ths i _ th' Ei) as Hpen.
  assert (frame_offset (ft_pc th') = []) as Eth by (by destruct store).
  cbv beta in Hpen. rewrite Eth, app_nil_r in Hpen. simpl in Hpen.
  destruct (Forall_lookup_1 _ _ _ _ I6 Ei) as [Hin Hst].
  assert (forall q', q_accepted q' = q_accepted q -> q_last_seen q' = q_last_seen q -> q_stored q' = q_stored q ->
    q_since_persist q' = q_since_persist q -> q_initial q' = q_initial q ->
    (qc_handler cfg = true -> map (fun h => mc_offset h.1) (q_handled q') ++ pending_offsets (<[i := th']> ths) ≡ₚ q_accepted q) ->
    cinv (MkCSys q' pc (<[i := th']> ths) us ov)) as Hq.
  { intros q' Ea El Est Esi Ein Hh. constructor; simpl in *; rewrite ?Ea, ?El, ?Est, ?Esi, ?Ein; try done.
    - apply Forall_insert; [done | exact (Forall_lookup_1 _ _ _ _ I1 Ei)].
    - by rewrite I2, Hlog.
    - apply Forall_insert; [done|]. destruct store; [|done]. split; [done | by apply Hst].
    - intros Hpc. destruct (I7 Hpc) as (_ & _ & ->). discriminate Ei. }
  unfold message_call. destruct (qc_handler cfg) eqn:Eh; simpl; apply Hq; try done.
  intros _. specialize (I3 eq_refl). simpl in I3. rewrite <- I3. cbn [q_handled put_handled]. rewrite map_app.
  unfold pending_offsets. rewrite <- Hpen. simpl. solve_Permutation.
Qed.

Lemma cinv_keeps q q' pc ths us us' ov :
  cinv (MkCSys q pc ths us ov) -> qkeeps us' q q' -> cinv (MkCSys q' pc ths (us ++ us') ov).
Proof.
  intros [I1 I2 I3 I4 I5 I6 I7 I8 I9] [Ei El Ea Eh Esi Est Esta]. constructor; simpl in *; rewrite ?Ei, ?El, ?Ea, ?Eh; try done.
  - intros o Hin. rewrite elem_of_app. destruct Est as (new & Est & Hnew). rewrite Est, elem_of_app in Hin.
    destruct Hin as [H1|H1]; [destruct (I5 o H1); auto|]. rewrite Forall_forall in Hnew. destruct (Hnew o H1) as [H2|H2]; [left|auto].
    rewrite I4 in H2. apply last_Some in H2 as [l ->]. apply elem_of_app. right. left.
  - intros Hpc. destruct (I7 Hpc) as (H1 & H2 & H3). split; [done|]. split; [|done]. by destruct Esta as [->| ->].
  - destruct Esi as [->| ->]; [done | lia].
Qed.

Lemma cinv_store i offset se log q pc ths us ov :
  ths !! i = Some (MkFThread se (QfStore offset) log) -> cinv (MkCSys q pc ths us ov) ->
  cinv (MkCSys (message_store cfg offset q).2 pc (<[i := MkFThread se QfIdle log]> ths) us ov).
Proof.
  intros Ei Hi. destruct (Forall_lookup_1 _ _ _ _ (ci_frames _ Hi) Ei) as [Hin _]. simpl in Hin.
  assert (qkeeps [offset] q (message_store cfg offset q).2) as Hk.
  { unfold message_store. unfold mbind at 1, ST_bind at 1. cbn [st_get].
    destruct (m_auto_cursor_config cfg); [|by apply qkeeps_preorder]. destruct (_ <=? _); [|by apply qkeeps_preorder].
    apply internal_store_keeps. right. left. }
  rewrite <- (qk_accepted _ _ _ Hk) in Hin.
  destruct (cinv_keeps q _ pc ths us [offset] ov Hi Hk) as [I1 I2 I3 I4 I5 I6 I7 I8 I9]. simpl in *.
  pose proof (concat_insert ft_log ths i _ (MkFThread se QfIdle log) Ei) as Hlog. apply Permutation_app_inv_r in Hlog.
  pose proof (concat_insert (fun th => frame_offset (ft_pc th)) ths i _ (MkFThread se QfIdle log) Ei) as Hpen.
  apply Permutation_app_inv_r in Hpen. constructor; simpl; try done.
  - apply Forall_insert; [done | exact (Forall_lookup_1 _ _ _ _ I1 Ei)].
  - by rewrite I2, Hlog.
  - intros Hh. unfold pending_offsets. rewrite Hpen. by apply I3.
  - intros o Ho. destruct (I5 o Ho) as [|Hu]; [auto|]. apply elem_of_app in Hu as [|Hu]; [auto|].
    apply list_elem_of_singleton in Hu as ->. auto.
  - by apply Forall_insert.
  - intros Hpc. destruct (I7 Hpc) as (_ & _ & ->). discriminate Ei.
Qed.

Lemma asks_initial q q' : qasks q q' -> q_last_seen q = None -> (exists o, q_initial q = Some o) -> exists o, q_initial q' = Some o.
Proof. intros [[->|Hi] _ _ _ _ _ _] El Ho; [done|]. by rewrite El in Hi. Qed.

Lemma cinv_step s s' : cinv s -> cstep s s' -> cinv s'.
Proof.
  intros Hi Hs. revert Hi. destruct Hs as
    [q ths us ov|q ths us ov r q' session E Hse|q ths us ov|c q pc ths us ov r q' session E Hse|i th q pc ths us ov Ei
    |i ctx message n log q pc ths us ov Ei Hn|i n m log q pc ths us ov Ei Hg Hm
    |i ctx offset message store se log q pc ths us ov Ei|i offset se log q pc ths us ov Ei|op q pc ths us ov]; intros Hi.
  - destruct (start_begin_status q) as (x & E & Hx). destruct (consumer_start_begin q) as [r q']. simpl in E. subst q'.
    destruct (ci_before _ Hi eq_refl) as (H1 & H2 & H3). simpl in *.
    eapply cinv_same; [..|exact Hi]; try done; [exact (ci_initial _ Hi)|]. intros _. simpl. by destruct Hx as [->| ->].
  - destruct (ci_before _ Hi eq_refl) as (H1 & H2 & H3). simpl in H1. pose proof (start_connect_asks cfg q H1) as Ha. rewrite E in Ha.
    apply cinv_subscribed; [by destruct r|]. pose proof Ha as [_ El Ea Eh Esi Est Esta].
    eapply cinv_same; [..|exact Hi]; try done; [|by destruct r].
    intros _. eapply asks_initial; [exact Ha | done | by apply (ci_initial _ Hi)].
  - destruct (start_finish_status q) as (x & ->).
    eapply cinv_same; [..|exact Hi]; try done. exact (ci_initial _ Hi).
  - pose proof (resubscribe_asks cfg c q) as Ha. rewrite E in Ha. pose proof Ha as [_ El Ea Eh Esi Est Esta].
    apply cinv_subscribed.
    + destruct Hse as [->|[Hst _]]; [done|]. intros _. destruct (before_messages pc) eqn:Epc; [|done].
      by destruct (ci_before _ Hi Epc) as (_ & H2 & _).
    + eapply cinv_same; [..|exact Hi]; try done.
      * intros H1. eapply asks_initial; [exact Ha | done | by apply (ci_initial _ Hi)].
      * intros Hpc. destruct (ci_before _ Hi Hpc) as (H1 & H2 & H3). simpl in *. by rewrite Esta.
  - by eapply cinv_thread.
  - by apply cinv_message.
  - eapply cinv_thread; [exact Ei | done | done | | exact Hi]. simpl. intros k l [= <-] El.
    assert (l < n) by (by apply (Forall_lookup_1 _ _ _ _ (ci_threads _ Hi) Ei)). lia.
  - by apply cinv_call.
  - by apply cinv_store.
  - eapply cinv_keeps; [exact Hi | apply run_qop_keeps].
Qed.

Lemma cinv_reachable s : creachable s -> cinv s.
Proof.
  intros [w Hr]. cut (cinv (cs_init w)); [induction Hr; eauto using cinv_step|].
  constructor; simpl; try done; [intros o Ho; by apply elem_of_nil in Ho | by eexists].
Qed.

(** ** The theorems *)

Lemma older_pending ths : older_over ths -> pending_offsets ths = frame_offset (current ths).1.
Proof.
  intros Ho. unfold pending_offsets, current. destruct (last ths) as [th|] eqn:El; [|by apply last_None in El as ->].
  apply last_Some in El as [l ->]. rewrite map_app, concat_app. simpl. rewrite app_nil_r.
  assert (concat (map (fun th => frame_offset (ft_pc th)) l) = []) as ->; [|done].
  assert (Forall (fun x => ft_live x = false) l) as Hl.
  { apply Forall_lookup. intros i x Hi. apply (Ho i); [by apply lookup_app_l_Some|]. rewrite length_app. simpl.
    apply lookup_lt_Some in Hi. lia. }
  induction Hl as [|x l Hx _ IH]; [done|]. simpl. destruct (not_live x Hx) as [_ ->]. apply IH.
  intros i y Hi Hlt. apply (Ho (S i)); [exact Hi | simpl; lia].
Qed.

(** C6: whatever the interleaving, with the frame threads of any number of clients:
    the messages accepted are those of the subscriptions, of each one in
    increasing order of their offsets and each at most once, and the handler is
    called exactly for the messages accepted, but for those that a frame thread
    is about to hand over.  As long as no subscription has begun while the frame
    thread of an earlier client was still handing over messages, the whole
    sequence is in increasing order, each message at most once, across all
    reconnections, and the handler is called in that order; and when the broker
    has every offset that is asked for, and no chunk is cut short by a message
    that does not decode or a credit that fails, without a gap. *)
Theorem consumer_in_order s :
  creachable s ->
  let q := cs_state s in
  Forall (fun th => StronglySorted Z.lt (ft_log th)) (cs_threads s) /\
  q_accepted q ≡ₚ concat (map ft_log (cs_threads s)) /\
  (qc_handler cfg = true ->
     map (fun h => mc_offset h.1) (q_handled q) ++ pending_offsets (cs_threads s) ≡ₚ q_accepted q) /\
  (cs_overlapped s = false ->
     StronglySorted Z.lt (q_accepted q) /\
     (gapless = true -> exists first, q_accepted q = seqZ first (lenZ (q_accepted q))) /\
     (qc_handler cfg = true ->
        map (fun h => mc_offset h.1) (q_handled q) ++ pending_offsets (cs_threads s) = q_accepted q)).
Proof.
  intros Hr. destruct (cinv_reachable s Hr) as [I1 I2 I3 _ _ _ _ _ _]. split; [|split; [done|split; [done|]]].
  - eapply Forall_impl; [exact I1|]. intros th [Hs _]. apply Sorted_StronglySorted; [intros x y z; lia | done].
  - intros Hov. destruct (single_reachable s Hr Hov) as [Ho Hq]. rewrite (older_pending _ Ho).
    exact (single_in_order cfg gapless _ Hq).
Qed.


(** C5: the consumer refines its specification, as long as no subscription begins
    while the frame thread of an earlier client is still handing over
    messages.  Whatever the threads, the tasks, the listeners and the broker do
    until then, what the outside sees is a run of [reader_step]: the consumer
    takes messages at growing offsets - the next one, if nothing makes a gap -,
    hands over what it took in that order, and stores cursors of what it took or
    was asked to store, across any number of lost connections and new
    subscriptions.  So every such state of the consumer is seen as a reachable
    state of the specification. *)
Theorem consumer_refines_spec s :
  creachable s -> cs_overlapped s = false ->
  rtc (reader_step gapless) reader_init (reader_of (single s)) /\
  (forall s', cstep s s' -> cs_overlapped s' = false ->
     rtc (reader_step gapless) (reader_of (single s)) (reader_of (single s'))).
Proof.
  intros Hr Hov. destruct (single_reachable s Hr Hov) as [Ho Hq]. split; [by apply (single_refines cfg)|].
  intros s' Hs Hov'. pose proof (qinv_reachable cfg gapless _ Hq) as Hi.
  destruct (single_step s s' Ho Hi Hs Hov') as [_ Hrun]. by eapply reader_run.
Qed.

(** ** Runs *)

Inductive caction :=
| CaBegin | CaConnect (session : option Z) | CaFinish
| CaResubscribe (c : nat) (session : option Z) | CaEnd (i : nat)
| CaMessage (i : nat) (ctx : ChunkContext) (message : Message) | CaCall (i : nat) | CaStore (i : nat)
| CaOp (op : qop).

Definition crun (a : caction) (s : csys) : option csys :=
  let '(MkCSys q pc ths us ov) := s in
  match a, pc with
  | CaBegin, QsBegin =>
      let '(r, q') := consumer_start_begin q in Some (MkCSys q' (if is_val r then QsConnect else QsDone) ths us ov)
  | CaConnect session, QsConnect =>
      let '(r, q') := consumer_start_connect cfg q in
      if may_start_atb gapless (q_initial q') session
      then Some (MkCSys q' (if is_val r then QsFinish else QsDone) (subscribed session ths) us (ov || overlaps session ths))
      else None
  | CaFinish, QsFinish => Some (MkCSys (consumer_start_finish q).2 QsDone ths us ov)
  | CaResubscribe c session, _ =>
      let '(r, q') := q_resubscribe cfg c q in
      if bool_decide (q_status q = QStarted) && may_start_atb gapless (q_initial q') session
      then Some (MkCSys q' pc (subscribed session ths) us (ov || overlaps session ths)) else None
  | CaEnd i, _ => th ← ths !! i; Some (MkCSys q pc (<[i := MkFThread None (ft_pc th) (ft_log th)]> ths) us ov)
  | CaMessage i ctx message, _ =>
      match ths !! i with
      | Some (MkFThread (Some n) QfIdle log) =>
          if n <? UINT64_MAX then
            let '(r, q') := message_accept cfg n q in
            Some (MkCSys q' pc (<[i := MkFThread (Some (n + 1)) (after_accept ctx n message r) (log ++ logged n r)]> ths) us ov)
          else None
      | _ => None
      end
  | CaCall i, _ =>
      match ths !! i with
      | Some (MkFThread se (QfCall ctx offset message store) log) =>
          Some (MkCSys (message_call cfg ctx offset message q).2 pc
                  (<[i := MkFThread se (if store then QfStore offset else QfIdle) log]> ths) us ov)
      | _ => None
      end
  | CaStore i, _ =>
      match ths !! i with
      | Some (MkFThread se (QfStore offset) log) =>
          Some (MkCSys (message_store cfg offset q).2 pc (<[i := MkFThread se QfIdle log]> ths) us ov)
      | _ => None
      end
  | CaOp op, _ => Some (MkCSys (run_qop cfg op q).2 pc ths (us ++ user_offset op) ov)
  | _, _ => None
  end.

Lemma crun_step a s s' : crun a s = Some s' -> cstep s s'.
Proof.
  destruct s as [q pc ths us ov], a as [|session| |c session|i|i ctx message|i|i|op]; cbn [crun].
  - destruct pc; try discriminate. pose proof (CBegin q ths us ov) as Hs. destruct (consumer_start_begin q) as [r q']. by intros [= <-].
  - destruct pc; try discriminate. destruct (consumer_start_connect cfg q) as [r q'] eqn:E.
    destruct (may_start_atb gapless (q_initial q') session) eqn:Em; [|discriminate]. intros [= <-].
    eapply CConnect; [exact E | by apply may_start_atb_spec].
  - destruct pc; try discriminate. intros [= <-]. apply CFinish.
  - destruct (q_resubscribe cfg c q) as [r q'] eqn:E. destruct (bool_decide_reflect (q_status q = QStarted)); [|discriminate].
    destruct (may_start_atb gapless (q_initial q') session) eqn:Em; [|discriminate]. intros [= <-].
    eapply CResubscribe; [exact E|]. right. split; [done | by apply may_start_atb_spec].
  - destruct (ths !! i) as [th|] eqn:Ei; [|discriminate]. intros [= <-]. by apply CEnd.
  - destruct (ths !! i) as [[[n|] [] log]|] eqn:Ei; try discriminate. destruct (Z.ltb_spec n UINT64_MAX); [|discriminate].
    pose proof (CMessage i ctx message n log q pc ths us ov Ei) as Hs. destruct (message_accept cfg n q) as [r q'].
    intros [= <-]. by apply Hs.
  - destruct (ths !! i) as [[se [|ctx offset message store|] log]|] eqn:Ei; try discriminate. intros [= <-]. by apply CCall.
  - destruct (ths !! i) as [[se [| |offset] log]|] eqn:Ei; try discriminate. intros [= <-]. by apply CStore.
  - intros [= <-]. apply COp.
Qed.

Definition cexec (script : list caction) (s : csys) : option csys := foldl (fun o a => o ≫= crun a) (Some s) script.

Lemma cexec_steps script s s' : cexec script s = Some s' -> rtc cstep s s'.
Proof.
  unfold cexec. revert s'. induction script as [|a script IH] using rev_ind; intros s'; [intros [= <-]; apply rtc_refl|].
  rewrite foldl_app. simpl. destruct (foldl _ _ script) as [s1|]; [|discriminate]. intros E%crun_step.
  eapply rtc_r; [by apply IH | exact E].
Qed.

End threads.

(** ** A recovery *)

Definition turn_of (i : nat) : list caction := [CaMessage i example_chunk example_message; CaCall i].

(** Two messages (the chunk starts before the offset asked for), a lost
    connection, a recovery whose chunk starts before the last message seen, and
    a stop. *)
Definition recovery_script : list caction :=
  [CaBegin; CaConnect (Some 41); CaFinish; CaMessage 0 example_chunk example_message] ++ turn_of 0 ++ turn_of 0
  ++ [CaStore 0; CaEnd 0; CaOp (QopShutdown true Unknown); CaOp QopReconnectConnect; CaOp (QopClientStart 1);
      CaResubscribe 1 (Some 43); CaMessage 1 example_chunk example_message]
  ++ turn_of 1 ++ turn_of 1
  ++ [CaOp QopStopExchange; CaOp QopTakeClient; CaOp (QopFinalStore 1)].

Definition recovered_state : csys :=
  default (cs_init example_consumer []) (cexec example_consumer true recovery_script (cs_init example_consumer [])).

Lemma recovered_reachable : creachable example_consumer true recovered_state.
Proof.
  exists []. apply (cexec_steps example_consumer true recovery_script).
  unfold recovered_state. destruct (cexec _ _ _ _) as [s|] eqn:E; [reflexivity|]. vm_compute in E. discriminate E.
Qed.

Lemma consumer_in_order_witness :
  let q := cs_state recovered_state in
  q_world q = [offset_offset 42; offset_offset 44] /\ q_accepted q = [42; 43; 44; 45] /\
  cs_overlapped recovered_state = false /\ StronglySorted Z.lt (q_accepted q).
Proof.
  split; [vm_compute; reflexivity|]. split; [vm_compute; reflexivity|]. split; [vm_compute; reflexivity|].
  apply (consumer_in_order example_consumer true recovered_state recovered_reachable). vm_compute. reflexivity.
Defined.


Lemma consumer_refines_spec_witness :
  rtc (reader_step true) reader_init (reader_of (single recovered_state)) /\
  rd_taken (reader_of (single recovered_state)) = [42; 43; 44; 45].
Proof.
  split; [|vm_compute; reflexivity].
  apply (consumer_refines_spec example_consumer true recovered_state recovered_reachable). vm_compute. reflexivity.
Defined.

(** ** Two subscriptions that overlap *)

(** The consumer has handled the message 42 of a chunk.  A metadata update makes
    [delayed_reconnect] take the client and wait in [stop] for its frame thread;
    meanwhile the heartbeat of that client times out, and [handle_shutdown] has the
    consumer connect at once. *)
Definition overlap_script : list caction :=
  [CaBegin; CaConnect (Some 42); CaFinish] ++ turn_of 0
  ++ [CaOp (QopMetadataUpdate "orders"); CaOp QopDelayedTake; CaOp (QopShutdown true HeartbeatTimeout);
      CaOp QopReconnectConnect; CaOp (QopClientStart 1); CaResubscribe 1 (Some 43)]
  ++ turn_of 0 ++ [CaStore 0] ++ turn_of 0 ++ turn_of 1 ++ [CaStore 1].

Definition overlapped_state : csys :=
  default (cs_init example_consumer []) (cexec example_consumer true overlap_script (cs_init example_consumer [])).

(** When a new client subscribes while the frame thread of the one before is still
    handing over the messages of a chunk, the handler sees messages twice and
    out of order, although the broker has every offset that is asked for. *)
Theorem overlapping_subscriptions_repeat :
  creachable example_consumer true overlapped_state /\ cs_overlapped overlapped_state = true /\
  map (fun h => mc_offset h.1) (q_handled (cs_state overlapped_state)) = [42; 43; 44; 43] /\
  map ft_log (cs_threads overlapped_state) = [[42; 43; 44]; [43]].
Proof.
  split; [|vm_compute; done]. exists []. apply (cexec_steps example_consumer true overlap_script).
  unfold overlapped_state. destruct (cexec _ _ _ _) as [s|] eqn:E; [reflexivity|]. vm_compute in E. discriminate E.
Qed.
