(* ===== verification/ConsumerRecovery.v ===== *)
(** * The recovery of the consumer

    Adds the tasks of [Tasks], the clients that can be lost and their shutdown
    notifications to the critical sections of [Consumer], from the end of a
    successful [start] until a stop begins.  [start] and the end of
    [reconnect_to_server] hold the mutex while they subscribe, so that a client
    which is lost meanwhile is notified after it was installed. *)

From stdpp Require Import functions.
From S2P Require Import Prelude Words OrdMap Types Tasks TaskFamily Consumer ConsumerSystem.

(** ** Clients that can be lost

    [qw_lost c w]: the connection of the client is gone. *)
Definition lost_kept {W A} (lost : nat -> W -> Prop) (m : ST W exn A) : Prop := forall c w, lost c w -> lost c (m w).2.

Class LosableWorld (W : Type) `{ConsumerWorld W} := {
  qw_lost : nat -> W -> Prop;
  qw_lost_environment : lost_kept qw_lost qw_environment;
  qw_lost_get stream : lost_kept qw_lost (qw_get_consumer_client stream);
  qw_lost_start c : lost_kept qw_lost (qw_start c);
  qw_lost_stop c : lost_kept qw_lost (qw_stop c);
  qw_lost_subscribe c id stream offset n properties : lost_kept qw_lost (qw_subscribe c id stream offset n properties);
  qw_lost_store c reference stream offset : lost_kept qw_lost (qw_store_offset c reference stream offset);
  qw_lost_credit c id n : lost_kept qw_lost (qw_credit c id n);
  qw_subscribe_fails c id stream offset n properties w :
    qw_lost c w -> is_val (qw_subscribe c id stream offset n properties w).1 = false
}.

(** Where an invocation of [reconnect_to_server] is, once it is needed. *)
Inductive qreconnect_pc :=
| RcGet
| RcStart (c : nat)
| RcSubscribe (c : nat)
| RcFailed (client : option nat) (e : exn).

(** A call of a task.  Only a stop destroys a task, and there is none here. *)
Definition task_apply (call : ConsumerTaskCall) (t : Task) : Task :=
  match call with
  | QScheduleNow => schedule_now t
  | QScheduleAfter delay => schedule_after delay t
  | QDestroy => t
  end.

Definition is_schedule (call : ConsumerTaskCall) : bool := match call with QDestroy => false | _ => true end.

#[export] Instance consumer_calls : OwnerCalls task_apply is_schedule.
Proof.
  split.
  - intros [|delay|] t Hh Hi; [| |done]; (eapply owner_step_inv; [exact Hh | exact Hi | constructor]).
  - intros [|delay|] t Ha; simpl; [apply (armed_schedules t 0 Ha) | apply (armed_schedules t delay Ha) | done].
  - intros [|delay|] t Hs Hh; [by apply schedule_now_healthy | by apply schedule_after_healthy | done].
Qed.

Section recovery.
Context {W : Type} `{LosableWorld W}.
Context (cfg : ConsumerConfig).

Abbreviation QS := (@QState W).
Abbreviation TS := (ConsumerTask -> Task).
Implicit Types (q : QS) (ts : TS).

(** [rs_live]: the clients whose loss is still to be notified; [rs_notify]: the
    notifications that wait for the mutex, each with its client; [rs_delayed]:
    what an invocation of [delayed_reconnect] has taken and is about to stop;
    [rs_wedged]: a shutdown listener waits for ever in the destructor of the
    client that it dropped, with [m_mutex], and no section that takes the mutex
    can run any more. *)
Record rsys := MkRSys {
  rs_q : QS;
  rs_tasks : TS;
  rs_reconnect : option qreconnect_pc;
  rs_delayed : option (option nat);
  rs_live : gset nat;
  rs_notify : list (nat * ShutdownReason);
  rs_wedged : bool
}.

(** The calls that a critical section made reach their tasks. *)
Definition settled q ts rc dl live notify wd : rsys :=
  MkRSys (put_tasks [] q) (hand_over task_apply (q_tasks q) ts) rc dl live notify wd.

(** The calls of the application and the listeners that leave the client. *)
Definition calm_op (op : qop) : bool :=
  match op with
  | QopStoreOffset _ | QopGrantCredit | QopChunkCredit _ | QopMetadataUpdate _ => true
  | _ => false
  end.

(** Of these, the ones that take [m_mutex]. *)
Definition op_locks (op : qop) : bool := match op with QopStoreOffset _ | QopGrantCredit => true | _ => false end.

(** Whether the function of the task has returned. *)
Definition function_over (k : ConsumerTask) (s : rsys) : Prop :=
  match k with
  | QReconnectTask => rs_reconnect s = None
  | QDelayedReconnectTask => rs_delayed s = None
  | _ => True
  end.

Definition world_keeps (w w' : W) : Prop := forall c, qw_lost c w -> qw_lost c w'.

Inductive rstep : rsys -> rsys -> Prop :=
| ROp op q ts rc dl l n wd :
    calm_op op = true -> op_locks op && wd = false ->
    rstep (MkRSys q ts rc dl l n wd) (settled (run_qop cfg op q).2 ts rc dl l n wd)
| RAccept offset q ts rc dl l n :
    rstep (MkRSys q ts rc dl l n false) (settled (message_accept cfg offset q).2 ts rc dl l n false)
| RCall ctx offset message q ts rc dl l n wd :
    rstep (MkRSys q ts rc dl l n wd) (settled (message_call cfg ctx offset message q).2 ts rc dl l n wd)
| RStore offset q ts rc dl l n :
    rstep (MkRSys q ts rc dl l n false) (settled (message_store cfg offset q).2 ts rc dl l n false)
| RTask k t left q ts rc dl l n wd :
    strand_step left (ts k) = Some t \/ timer_step (ts k) = Some t ->
    rstep (MkRSys q ts rc dl l n wd) (MkRSys q (<[k := t]> ts) rc dl l n wd)
| RTaskEnd k m t q ts rc dl l n wd :
    invocation_turn m (ts k) = Some t -> t_started t = t_started (ts k) -> function_over k (MkRSys q ts rc dl l n wd) ->
    rstep (MkRSys q ts rc dl l n wd) (MkRSys q (<[k := t]> ts) rc dl l n wd)
| RPersist m t q ts rc dl l n :
    invocation_turn m (ts QPersistCursorTask) = Some t -> t_started t = t_started (ts QPersistCursorTask) + 1 ->
    rstep (MkRSys q ts rc dl l n false)
          (settled (store_current_offset cfg q).2 (<[QPersistCursorTask := t]> ts) rc dl l n false)
| RReconnectBegin m t q ts dl l n :
    invocation_turn m (ts QReconnectTask) = Some t -> t_started t = t_started (ts QReconnectTask) + 1 ->
    rstep (MkRSys q ts None dl l n false)
          (MkRSys q (<[QReconnectTask := t]> ts)
             (match (q_reconnect_needed q).1 with Val true => Some RcGet | _ => None end) dl l n false)
| RDelayedBegin m t taken q q' ts rc l n :
    invocation_turn m (ts QDelayedReconnectTask) = Some t -> t_started t = t_started (ts QDelayedReconnectTask) + 1 ->
    q_delayed_take q = (Val taken, q') ->
    rstep (MkRSys q ts rc None l n false) (MkRSys q' (<[QDelayedReconnectTask := t]> ts) rc taken l n false)
| RDelayedStop client q q' ts rc l n wd :
    q_delayed_stop cfg client q = (Val tt, q') ->
    rstep (MkRSys q ts rc (Some client) l n wd) (settled q' ts rc None l n wd)
| RGotClient c q q' ts dl l n wd :
    q_reconnect_connect cfg q = (Val c, q') ->
    rstep (MkRSys q ts (Some RcGet) dl l n wd) (MkRSys q' ts (Some (RcStart c)) dl l n wd)
| RNoClient e q q' ts dl l n wd :
    q_reconnect_connect cfg q = (Throw e, q') -> is_StreamException e = true ->
    rstep (MkRSys q ts (Some RcGet) dl l n wd) (MkRSys q' ts (Some (RcFailed None e)) dl l n wd)
| RStarted c q q' ts dl l l' n wd :
    qcall (qw_start c) q = (Val tt, q') ->
    l' = {[c]} ∪ l \/ (qw_lost c (q_world q') /\ l' = l) ->
    rstep (MkRSys q ts (Some (RcStart c)) dl l n wd) (MkRSys q' ts (Some (RcSubscribe c)) dl l' n wd)
| RNotStarted c e q q' ts dl l n wd :
    qcall (qw_start c) q = (Throw e, q') -> is_StreamException e = true ->
    rstep (MkRSys q ts (Some (RcStart c)) dl l n wd) (MkRSys q' ts (Some (RcFailed (Some c) e)) dl l n wd)
| RResubscribed c q q' ts dl l n :
    q_resubscribe cfg c q = (Val tt, q') ->
    rstep (MkRSys q ts (Some (RcSubscribe c)) dl l n false) (MkRSys q' ts None dl l n false)
| RNotResubscribed c e q q' ts dl l n :
    q_resubscribe cfg c q = (Throw e, q') -> is_StreamException e = true ->
    rstep (MkRSys q ts (Some (RcSubscribe c)) dl l n false) (MkRSys q' ts (Some (RcFailed (Some c) e)) dl l n false)
| RFailed client e q q' ts dl l n wd :
    q_reconnect_failed cfg client e q = (Val tt, q') ->
    rstep (MkRSys q ts (Some (RcFailed client e)) dl l n wd) (settled q' ts None dl l n wd)
| RLost c reason w q ts rc dl l n wd :
    c ∈ l -> world_keeps (q_world q) w -> qw_lost c w -> reason <> ClientInitiated ->
    rstep (MkRSys q ts rc dl l n wd) (MkRSys (put_world w q) ts rc dl (l ∖ {[c]}) (n ++ [(c, reason)]) wd)
| RNotify c reason returns n1 n2 q ts rc dl l :
    returns = true \/ drop_may_block c reason (q_client q) = true ->
    rstep (MkRSys q ts rc dl l (n1 ++ (c, reason) :: n2) false)
          (let '(r, q') := consumer_shutdown returns reason q in settled q' ts rc dl l (n1 ++ n2) (negb (is_val r)))
| RWorld w q ts rc dl l n wd :
    world_keeps (q_world q) w -> rstep (MkRSys q ts rc dl l n wd) (MkRSys (put_world w q) ts rc dl l n wd).

(** After [start], whose client is subscribed. *)
Definition rinitial w (s : rsys) : Prop :=
  exists q c, consumer_start cfg (new_Consumer cfg w) = (Val tt, q) /\ q_client q = Some c /\
    s = settled q (fun _ => new_Task) None None {[c]} [] false.

Definition rreachable (s : rsys) : Prop := exists w s0, rinitial w s0 /\ rtc rstep s0 s.

(** ** Sections that leave the client *)

Definition keeps_client q q' : Prop :=
  q_status q' = q_status q /\ q_client q' = q_client q /\ world_keeps (q_world q) (q_world q').

#[global] Instance keeps_client_preorder : PreOrder keeps_client.
Proof.
  split; [by repeat split; intros c|]. intros q1 q2 q3 (H1 & H2 & H3) (H4 & H5 & H6).
  split; [congruence|]. split; [congruence|]. intros c Hc. auto.
Qed.

Lemma keeps_client_eq q q' :
  q_status q' = q_status q -> q_client q' = q_client q -> q_world q' = q_world q -> keeps_client q q'.
Proof. intros E1 E2 E3. split; [done|]. split; [done|]. intros c. now rewrite E3. Qed.

Lemma keeps_client_qcall {A} (m : ST W exn A) : lost_kept qw_lost m -> preserves keeps_client (qcall m).
Proof.
  intros Hm q. unfold qcall. destruct (m (q_world q)) as [r w] eqn:E. split; [done|]. split; [done|].
  intros c Hc. specialize (Hm c (q_world q) Hc). now rewrite E in Hm.
Qed.

Lemma keeps_client_modify f :
  (forall q, q_status (f q) = q_status q /\ q_client (f q) = q_client q /\ q_world (f q) = q_world q) ->
  preserves keeps_client (st_modify f : ST QS exn unit).
Proof. intros Hf q. destruct (Hf q) as (H1 & H2 & H3). now apply keeps_client_eq. Qed.

Lemma keeps_client_catch {A} (m : ST QS exn A) h :
  preserves keeps_client m -> (forall e, preserves keeps_client (h e)) -> preserves keeps_client (qcatch m h).
Proof.
  intros Hm Hh. apply (preserves_catch keeps_client); [done|]. intros e.
  destruct (is_StreamException e); [apply Hh | apply (preserves_throw keeps_client)].
Qed.

#[local] Hint Extern 1 (preserves keeps_client (qcall _)) => apply keeps_client_qcall;
  auto using qw_lost_environment, qw_lost_get, qw_lost_start, qw_lost_stop, qw_lost_subscribe, qw_lost_store, qw_lost_credit : preserves.
#[local] Hint Extern 1 (preserves keeps_client (st_modify _)) => now apply keeps_client_modify : preserves.
#[local] Hint Extern 1 (preserves keeps_client (qcatch _ _)) => apply keeps_client_catch; [|intros ?] : preserves.
#[local] Hint Extern 1 (preserves keeps_client (qtask _ _)) => now apply keeps_client_modify : preserves.

(** A section that reads the state first. *)
Ltac at_state :=
  apply (preserves_get keeps_client); let q := fresh "q" in intros q;
  match goal with |- keeps_client ?s (?m ?s).2 => cut (preserves keeps_client m); [let Hm := fresh in intros Hm; exact (Hm s)|] end.

Lemma keeps_client_schedule : preserves keeps_client (schedule_persist cfg).
Proof. unfold schedule_persist. auto with preserves. Qed.

Lemma keeps_client_deref {A} (o : option A) : preserves keeps_client (deref o).
Proof. unfold deref. auto with preserves. Qed.

#[local] Hint Resolve keeps_client_schedule keeps_client_deref : preserves.

Lemma keeps_client_store offset : preserves keeps_client (internal_store_offset cfg offset).
Proof. at_state. auto 10 with preserves. Qed.

#[local] Hint Resolve keeps_client_store : preserves.

Lemma keeps_client_started : preserves keeps_client (check_started : ST QS exn unit).
Proof. at_state. auto with preserves. Qed.

#[local] Hint Resolve keeps_client_started : preserves.

Lemma keeps_client_current : preserves keeps_client (store_current_offset cfg).
Proof. at_state. auto with preserves. Qed.

Lemma keeps_client_calm op : calm_op op = true -> preserves keeps_client (run_qop cfg op).
Proof.
  destruct op; try discriminate; intros _; simpl.
  - unfold consumer_store_offset. auto with preserves.
  - unfold grant_credit. apply (preserves_bind keeps_client); [auto with preserves | intros _]. at_state. auto with preserves.
  - unfold chunk_credit. auto with preserves.
  - unfold consumer_metadata_update. auto with preserves.
Qed.

Lemma keeps_client_accept offset : preserves keeps_client (message_accept cfg offset).
Proof.
  apply (preserves_get keeps_client). intros q. destruct (filtered _ _); [done|]. by apply keeps_client_eq.
Qed.

Lemma keeps_client_call ctx offset message : preserves keeps_client (message_call cfg ctx offset message).
Proof. unfold message_call. auto with preserves. Qed.

Lemma keeps_client_message_store offset : preserves keeps_client (message_store cfg offset).
Proof. at_state. auto with preserves. Qed.

Lemma keeps_client_connect : preserves keeps_client (q_reconnect_connect cfg).
Proof. unfold q_reconnect_connect, q_get_client. auto with preserves. Qed.

(** ** The invariant *)

(** Something will bring a client back, or stop the consumer whose stream is gone. *)
Definition under_recovery (s : rsys) : Prop :=
  armed (rs_tasks s QReconnectTask) \/ armed (rs_tasks s QStreamDeletedTask) \/
  rs_reconnect s <> None \/ rs_delayed s <> None.

Record recovery_inv (s : rsys) : Prop := MkRInv {
  ri_status : q_status (rs_q s) = QStarted;
  ri_tasks : all_healthy (rs_tasks s);
  ri_under_recovery : q_client (rs_q s) = None -> under_recovery s;
  ri_client c : q_client (rs_q s) = Some c -> c ∈ rs_live s \/ exists reason, (c, reason) ∈ rs_notify s;
  ri_subscribe c : rs_reconnect s = Some (RcSubscribe c) -> c ∈ rs_live s \/ qw_lost c (q_world (rs_q s));
  ri_reasons : Forall (fun cr : nat * ShutdownReason => cr.2 <> ClientInitiated) (rs_notify s)
}.

Lemma under_recovery_hand_over calls q q' ts rc dl l n l' n' wd :
  under_recovery (MkRSys q ts rc dl l n wd) -> under_recovery (MkRSys q' (hand_over task_apply calls ts) rc dl l' n' wd).
Proof. intros [Hr|[Hr|[Hr|Hr]]]; [left | right; left | by right; right; left | by do 3 right]; by apply (hand_over_armed task_apply is_schedule). Qed.

(** A section that leaves the client alone. *)
Lemma recovery_keeps q q' ts rc dl l n wd :
  keeps_client q q' -> recovery_inv (MkRSys q ts rc dl l n wd) -> recovery_inv (settled q' ts rc dl l n wd).
Proof.
  intros (E1 & E2 & Hw) [H1 H2 H3 H4 H5 H6]. constructor; simpl in *; try done.
  - congruence.
  - by apply (hand_over_healthy task_apply is_schedule).
  - rewrite E2. intros Hc. eapply under_recovery_hand_over, H3, Hc.
  - rewrite E2. apply H4.
  - intros c Hc. destruct (H5 c Hc); auto.
Qed.

Lemma recovery_moves q q' ts rc rc' dl l n wd :
  keeps_client q q' -> rc <> None -> rc' <> None -> (forall c, rc' <> Some (RcSubscribe c)) ->
  recovery_inv (MkRSys q ts rc dl l n wd) -> recovery_inv (MkRSys q' ts rc' dl l n wd).
Proof.
  intros (E1 & E2 & Hw) Hrc Hrc' Hs [H1 H2 H3 H4 H5 H6]. constructor; simpl in *; try done.
  - congruence.
  - intros _. by right; right; left.
  - rewrite E2. apply H4.
  - intros c Hc. by destruct (Hs c).
Qed.

(** A step of a task; if it calls [reconnect_to_server], the client is there or
    the invocation goes on. *)
Lemma recovery_task b k t q ts rc rc' dl l n wd :
  quiet_tstep b (ts k) t -> (b = true -> k = QReconnectTask -> q_client q = None -> rc' <> None) -> (b = true -> k <> QStreamDeletedTask) ->
  (rc <> None -> rc' = rc) -> (forall c, rc' = Some (RcSubscribe c) -> rc = rc') ->
  recovery_inv (MkRSys q ts rc dl l n wd) -> recovery_inv (MkRSys q (<[k := t]> ts) rc' dl l n wd).
Proof.
  intros Hs Hb Hd Hrc Hsub [H1 H2 H3 H4 H5 H6]. simpl in *. destruct (task_step b k t ts H2 Hs) as [Hts Harm].
  constructor; simpl; try done.
  - intros Hc. unfold under_recovery. simpl. destruct (H3 Hc) as [Hr|[Hr|[Hr|Hr]]]; simpl in Hr.
    + destruct (Harm _ Hr) as [[-> ->]|]; [right; right; left; by apply Hb | by left].
    + destruct (Harm _ Hr) as [[-> ->]|]; [by destruct (Hd eq_refl) | by right; left].
    + right; right; left. by rewrite Hrc.
    + by do 3 right.
  - intros c Hc. apply H5. by rewrite (Hsub c Hc).
Qed.

(** A section that ends by scheduling the reconnection or the stop. *)
Lemma recovery_scheduled k call q q' ts rc rc' dl dl' l n n' wd :
  recovery_inv (MkRSys q ts rc dl l n wd) -> q_status q' = q_status q -> q_client q' = None \/ keeps_client q q' ->
  world_keeps (q_world q) (q_world q') -> (k, call) ∈ q_tasks q' -> is_schedule call = true ->
  k = QReconnectTask \/ k = QStreamDeletedTask -> (rc' = rc \/ rc' = None) ->
  (n' = n \/ q_client q' = None) -> Forall (fun cr : nat * ShutdownReason => cr.2 <> ClientInitiated) n' ->
  recovery_inv (settled q' ts rc' dl' l n' wd).
Proof.
  intros [H1 H2 H3 H4 H5 H6] Es Hcl Hw Hin Hcall Hk Hrc Hn Hf. simpl in *. constructor; simpl; try done.
  - congruence.
  - by apply (hand_over_healthy task_apply is_schedule).
  - intros _. pose proof (hand_over_schedules task_apply is_schedule _ ts k call H2 Hin Hcall) as Ha. destruct Hk as [->| ->]; [by left | by right; left].
  - intros c Hc. destruct Hn as [->|Hn]; [|congruence]. destruct Hcl as [Hcl|(_ & Hcl & _)]; [congruence|]. apply H4. congruence.
  - intros c Hc. destruct Hrc as [->| ->]; [|done]. destruct (H5 c Hc); auto.
Qed.

(** ** The sections of the recovery *)

Lemma resubscribe_outcome c q r q' :
  q_status q = QStarted -> q_resubscribe cfg c q = (r, q') ->
  match r with
  | Val _ => q_status q' = QStarted /\ q_client q' = Some c /\ ~ qw_lost c (q_world q) /\ world_keeps (q_world q) (q_world q')
  | Throw _ => keeps_client q q'
  end.
Proof.
  intros Hs. unfold q_resubscribe. unfold mbind at 1, ST_bind at 1. cbn [st_get]. rewrite bool_decide_true by done. cbn [negb].
  set (q1 := match q_last_seen q with Some o => put_initial (Some (offset_offset (wrap64 (o + 1)))) q | None => q end).
  assert (keeps_client q q1) as Hk by (unfold q1; destruct (q_last_seen q); by apply keeps_client_eq).
  assert (q_world q1 = q_world q) as Ew by (unfold q1; by destruct (q_last_seen q)).
  intros E. apply ST_bind_inv in E as [([] & q2 & E2 & E)|(e & E2 & _)].
  2: { destruct (q_last_seen q); discriminate. }
  assert (q2 = q1) as -> by (unfold q1; destruct (q_last_seen q); by injection E2 as <-).
  unfold mbind at 1, ST_bind at 1 in E. cbn [st_get] in E. unfold deref in E.
  destruct (q_initial q1) as [o|]; [|by injection E as <- <-].
  rewrite (ST_bind_Val (mret o) _ q1 o q1 eq_refl) in E.
  apply ST_bind_inv in E as [([] & q2 & E3 & E)|(e & E3 & ->)].
  - injection E as <- <-. pose proof (keeps_client_qcall _ (qw_lost_subscribe c q_subscription_id (qc_stream cfg) o 10 []) q1) as Hk2.
    rewrite E3 in Hk2. assert (keeps_client q q2) as (K1 & K2 & K3) by (etransitivity; [exact Hk | exact Hk2]).
    split; [simpl; congruence|]. split; [done|]. split; [|exact K3]. intros Hl.
    pose proof (qw_subscribe_fails c q_subscription_id (qc_stream cfg) o 10 [] (q_world q1)) as Hf. rewrite Ew in Hf.
    unfold qcall in E3. rewrite Ew in E3. specialize (Hf Hl). by destruct (qw_subscribe _ _ _ _ _ _ _) as [[u|e] w].
  - pose proof (keeps_client_qcall _ (qw_lost_subscribe c q_subscription_id (qc_stream cfg) o 10 []) q1) as Hk2.
    rewrite E3 in Hk2. by etransitivity.
Qed.

Lemma stop_then_schedules client k call q q' :
  ((match client with Some c => qcall (qw_stop c) | None => mret tt end) ;; qtask k call) q = (Val tt, q') ->
  keeps_client q q' /\ (k, call) ∈ q_tasks q'.
Proof.
  intros E. split.
  - assert (preserves keeps_client ((match client with Some c => qcall (qw_stop c) | None => mret tt end) ;; qtask k call)) as Hk
      by auto with preserves.
    specialize (Hk q). by rewrite E in Hk.
  - apply ST_bind_inv in E as [([] & q1 & E1 & E)|(e & _ & [=])]. injection E as <-. simpl. set_solver.
Qed.

Lemma stop_then_schedules_accepted client k call q q' :
  ((match client with Some c => qcall (qw_stop c) | None => mret tt end) ;; qtask k call) q = (Val tt, q') ->
  q_client q' = q_client q /\ q_accepted q' = q_accepted q /\ (k, call) ∈ q_tasks q'.
Proof.
  intros E. destruct (stop_then_schedules client k call q q' E) as [(_ & K2 & _) K3]. split; [done|]. split; [|done].
  apply ST_bind_inv in E as [([] & q1 & E1 & E)|(e & _ & [=])]. injection E as <-. simpl.
  destruct client as [c|]; [|by injection E1 as <-]. unfold qcall in E1. destruct (qw_stop c (q_world q)) as [r w]. by injection E1 as _ <-.
Qed.

Lemma keeps_client_world w q : world_keeps (q_world q) w -> keeps_client q (put_world w q).
Proof. by repeat split. Qed.

Lemma recovery_installed c q q' ts dl l n wd :
  q_resubscribe cfg c q = (Val tt, q') -> recovery_inv (MkRSys q ts (Some (RcSubscribe c)) dl l n wd) -> recovery_inv (MkRSys q' ts None dl l n wd).
Proof.
  intros E [H1 H2 H3 H4 H5 H6]. simpl in *. destruct (resubscribe_outcome c q _ q' H1 E) as (R1 & R2 & R3 & R4).
  constructor; simpl; try done; [congruence|]. intros d Hd. rewrite R2 in Hd. injection Hd as <-.
  destruct (H5 c eq_refl); [by left | done].
Qed.

Lemma recovery_lost c reason w q ts rc dl l n wd :
  world_keeps (q_world q) w -> qw_lost c w -> reason <> ClientInitiated ->
  recovery_inv (MkRSys q ts rc dl l n wd) -> recovery_inv (MkRSys (put_world w q) ts rc dl (l ∖ {[c]}) (n ++ [(c, reason)]) wd).
Proof.
  intros Hw Hl Hr [H1 H2 H3 H4 H5 H6]. simpl in *. constructor; simpl; try done.
  - intros d Hd. destruct (decide (d = c)) as [->|Hne].
    + right. exists reason. apply elem_of_app. right. left.
    + destruct (H4 d Hd) as [Hin|[r Hin]]; [left; set_solver|]. right. exists r. apply elem_of_app. by left.
  - intros d Hd. destruct (decide (d = c)) as [->|Hne]; [by right|]. destruct (H5 d Hd) as [Hin|Hin]; [left; set_solver | right; auto].
  - apply Forall_app. split; [done | by apply Forall_singleton].
Qed.

Lemma recovery_taken m t taken q q' ts rc l n wd :
  invocation_turn m (ts QDelayedReconnectTask) = Some t -> t_started t = t_started (ts QDelayedReconnectTask) + 1 ->
  q_delayed_take q = (Val taken, q') ->
  recovery_inv (MkRSys q ts rc None l n wd) -> recovery_inv (MkRSys q' (<[QDelayedReconnectTask := t]> ts) rc taken l n wd).
Proof.
  intros Et Es E Hi. assert (quiet_tstep true (ts QDelayedReconnectTask) t) as Hs by (eapply QtCall; eassumption).
  apply (recovery_task true QDelayedReconnectTask t q ts rc rc None l n wd Hs) in Hi as [H1 H2 H3 H4 H5 H6]; [|done..].
  simpl in *. unfold q_delayed_take, mbind at 1, ST_bind at 1 in E. cbn [st_get] in E. rewrite bool_decide_true in E by done.
  injection E as <- <-. constructor; simpl; try done. intros _. by do 3 right.
Qed.

(** A notification that returns. *)
Lemma recovery_notified c returns reason n1 n2 q q' ts rc dl l wd :
  consumer_shutdown returns reason q = (Val tt, q') ->
  recovery_inv (MkRSys q ts rc dl l (n1 ++ (c, reason) :: n2) wd) -> recovery_inv (settled q' ts rc dl l (n1 ++ n2) wd).
Proof.
  intros E Hi. pose proof (ri_reasons _ Hi) as Hf. simpl in Hf. apply Forall_app in Hf as [Hf1 [Hr Hf2]%Forall_cons].
  assert (q' = put_tasks (q_tasks q ++ [(QReconnectTask, QScheduleNow)]) (put_client None q)) as ->.
  { unfold consumer_shutdown, q_take_client in E. rewrite bool_decide_false in E by done. unfold mbind, ST_bind in E. cbn in E.
    destruct (q_client q), returns; cbn in E; first [discriminate E | by injection E as <-]. }
  eapply (recovery_scheduled QReconnectTask QScheduleNow q);
    [exact Hi | done | by left | by intros d | simpl; apply elem_of_app; right; left | done | by left | by left | by right | by apply Forall_app].
Qed.

(** *** A mutex that is held for ever *)

Definition stuck (s : rsys) : Prop := rs_wedged s = true /\ q_client (rs_q s) = None.

Lemma consumer_stuck_step s s' : stuck s -> rstep s s' -> stuck s' /\ q_accepted (rs_q s') = q_accepted (rs_q s).
Proof.
  intros [Hw Hc] Hs.
  assert (rs_wedged s' = true /\ q_client (rs_q s') = q_client (rs_q s) /\ q_accepted (rs_q s') = q_accepted (rs_q s)) as (H1 & H2 & H3);
    [|by split; [split; [|congruence]|]].
  destruct Hs as
    [op q ts rc dl l n wd Hop Hlk| |ctx offset message q ts rc dl l n wd| | | | | | |client q q' ts rc l n wd E
    |c q q' ts dl l n wd E|e q q' ts dl l n wd E He|c q q' ts dl l l' n wd E Hl|c e q q' ts dl l n wd E He
    | | |client e q q' ts dl l n wd E| | | ]; simpl in Hw, Hc; try discriminate; (split; [exact Hw|]); cbn [rs_q settled]; try done.
  - pose proof (keeps_client_calm op Hop q) as (_ & E2 & _). pose proof (run_qop_keeps cfg op q) as Hk. split; [exact E2 | exact (qk_accepted _ _ _ Hk)].
  - unfold message_call. by destruct (qc_handler cfg).
  - unfold q_delayed_stop in E. apply stop_then_schedules_accepted in E as (K1 & K2 & K3). by split.
  - pose proof (keeps_client_connect q) as (_ & K2 & _). rewrite E in K2. split; [exact K2|].
    unfold q_reconnect_connect, q_get_client, qcall, mbind, ST_bind in E.
    destruct (qw_environment (q_world q)) as [[[]|x] w]; [|discriminate].
    cbn in E. destruct (qw_get_consumer_client _ w) as [[c'|x] w']; [|discriminate]. by injection E as _ <-.
  - pose proof (keeps_client_connect q) as (_ & K2 & _). rewrite E in K2. split; [exact K2|].
    unfold q_reconnect_connect, q_get_client, qcall, mbind, ST_bind in E. cbn [q_world put_world] in E.
    destruct (qw_environment (q_world q)) as [[[]|x] w]; [|by injection E as _ <-].
    cbn in E. destruct (qw_get_consumer_client _ w) as [[c'|x] w']; by injection E as _ <-.
  - unfold qcall in E. destruct (qw_start c (q_world q)) as [r w]. by injection E as _ <-.
  - unfold qcall in E. destruct (qw_start c (q_world q)) as [r w]. by injection E as _ <-.
  - unfold q_reconnect_failed in E. destruct (bool_decide _); apply stop_then_schedules_accepted in E as (K1 & K2 & K3); by split.
Qed.

Lemma consumer_stuck_for_ever s s' : stuck s -> rtc rstep s s' -> stuck s' /\ q_accepted (rs_q s') = q_accepted (rs_q s).
Proof.
  intros Hst Hr. revert Hst. induction Hr as [s|s1 s2 s3 Hs _ IH]; intros Hst; [done|].
  destruct (consumer_stuck_step _ _ Hst Hs) as [H1 E1]. destruct (IH H1) as [H2 E2]. split; [done | congruence].
Qed.

(** The one step that leaves the mutex locked. *)
Lemma consumer_wedging_step s s' :
  rs_wedged s = false -> rstep s s' -> rs_wedged s' = true ->
  q_client (rs_q s') = None /\
  exists c reason, (c, reason) ∈ rs_notify s /\ drop_may_block c reason (q_client (rs_q s)) = true.
Proof.
  intros Hw Hs Hw'. destruct Hs as
    [ | | | | | | | | | | | | | | | | | |c reason returns n1 n2 q ts rc dl l Hret| ]; cbn [rs_wedged settled] in *; try congruence.
  unfold consumer_shutdown, q_take_client, mbind, ST_bind in *. cbn in *.
  destruct (negb _); [|discriminate]. cbn in *. destruct (q_client q) as [d|]; [|discriminate].
  destruct returns; [discriminate|]. split; [done|]. exists c, reason. destruct Hret as [[=]|Hret].
  split; [apply elem_of_app; right; left | done].
Qed.

Lemma recovery_step s s' : recovery_inv s -> rstep s s' -> rs_wedged s' = false -> recovery_inv s'.
Proof.
  intros Hi Hs. revert Hi. destruct Hs as
    [op q ts rc dl l n wd Hop Hlk|offset q ts rc dl l n|ctx offset message q ts rc dl l n wd|offset q ts rc dl l n
    |k t left q ts rc dl l n wd Et|k m t q ts rc dl l n wd Et Es Hf|m t q ts rc dl l n Et Es
    |m t q ts dl l n Et Es|m t taken q q' ts rc l n Et Es E|client q q' ts rc l n wd E
    |c q q' ts dl l n wd E|e q q' ts dl l n wd E He|c q q' ts dl l l' n wd E Hl|c e q q' ts dl l n wd E He
    |c q q' ts dl l n E|c e q q' ts dl l n E He|client e q q' ts dl l n wd E
    |c reason w q ts rc dl l n wd Hin Hw Hl Hr|c reason returns n1 n2 q ts rc dl l Hret|w q ts rc dl l n wd Hw]; intros Hi Hwd.
  - eapply recovery_keeps, Hi. by apply keeps_client_calm.
  - eapply recovery_keeps, Hi. apply keeps_client_accept.
  - eapply recovery_keeps, Hi. apply keeps_client_call.
  - eapply recovery_keeps, Hi. apply keeps_client_message_store.
  - eapply (recovery_task false k t q ts rc rc); [|done..|exact Hi]. destruct Et; [by eapply QtStrand | by eapply QtTimer].
  - eapply (recovery_task false k t q ts rc rc); [|done..|exact Hi]. by eapply QtEnd.
  - eapply recovery_keeps; [apply keeps_client_current|].
    eapply (recovery_task true QPersistCursorTask t q ts rc rc); [by eapply QtCall|done..|exact Hi].
  - eapply (recovery_task true QReconnectTask t q ts None); [by eapply QtCall | | done | done | | exact Hi].
    + intros _ _ Hc. pose proof (ri_status _ Hi) as Hst. simpl in *. by rewrite !bool_decide_true.
    + intros c Hc. by destruct (q_reconnect_needed q) as [[[]|] q0].
  - eapply recovery_taken; eassumption.
  - apply stop_then_schedules in E as [Hk Hin].
    eapply (recovery_scheduled QReconnectTask _ q q'); [exact Hi | apply Hk | by right | apply Hk | exact Hin | done | by left | by left | by left | apply Hi].
  - pose proof (keeps_client_connect q) as Hk. rewrite E in Hk. by eapply recovery_moves; [exact Hk | .. | exact Hi].
  - pose proof (keeps_client_connect q) as Hk. rewrite E in Hk. by eapply recovery_moves; [exact Hk | .. | exact Hi].
  - pose proof (keeps_client_qcall _ (qw_lost_start c) q) as Hk. rewrite E in Hk.
    apply (recovery_moves q q' ts _ (Some (RcStart c)) dl l n wd Hk) in Hi as [H1 H2 H3 H4 H5 H6]; [|done..].
    constructor; simpl in *; try done.
    + intros _. by right; right; left.
    + intros d Hd. destruct (H4 d Hd) as [Hin|]; [|by right]. left. destruct Hl as [->|[_ ->]]; set_solver.
    + intros d [= <-]. destruct Hl as [->|[Hl _]]; [left; set_solver | by right].
  - pose proof (keeps_client_qcall _ (qw_lost_start c) q) as Hk. rewrite E in Hk. by eapply recovery_moves; [exact Hk | .. | exact Hi].
  - eapply recovery_installed; eassumption.
  - pose proof (resubscribe_outcome c q _ q' (ri_status _ Hi) E) as Hk. by eapply recovery_moves; [exact Hk | .. | exact Hi].
  - unfold q_reconnect_failed in E. destruct (bool_decide _); apply stop_then_schedules in E as [Hk Hin].
    + eapply (recovery_scheduled QStreamDeletedTask _ q q'); [exact Hi | apply Hk | by right | apply Hk | exact Hin | done | by right | by right | by left | apply Hi].
    + eapply (recovery_scheduled QReconnectTask _ q q'); [exact Hi | apply Hk | by right | apply Hk | exact Hin | done | by left | by right | by left | apply Hi].
  - by apply recovery_lost.
  - destruct (consumer_shutdown returns reason q) as [[[]|ex] q'] eqn:E; [|discriminate Hwd]. by eapply recovery_notified.
  - destruct Hi as [H1 H2 H3 H4 H5 H6]. constructor; simpl in *; try done. intros c Hc. destruct (H5 c Hc); auto.
Qed.

Lemma started_by_start q q' : consumer_start cfg q = (Val tt, q') -> q_status q' = QStarted.
Proof.
  unfold consumer_start. intros E. apply ST_bind_inv in E as [([] & q1 & _ & E)|(e & _ & [=])].
  apply ST_bind_inv in E as [([] & q2 & _ & E)|(e & _ & [=])].
  unfold consumer_start_finish, q_compare_exchange, mbind, ST_bind in E. cbn [st_get] in E.
  destruct (decide _); [by injection E as <- | discriminate].
Qed.

Lemma recovery_initial w s : rinitial w s -> recovery_inv s.
Proof.
  intros (q & c & E & Hc & ->). pose proof (new_healthy (K := ConsumerTask)) as Hh.
  constructor; simpl; try done; [by eapply started_by_start | by apply (hand_over_healthy task_apply is_schedule) | by rewrite Hc |].
  intros d Hd. left. rewrite Hc in Hd. injection Hd as <-. set_solver.
Qed.

Lemma recovery_reachable s : rreachable s -> if rs_wedged s then stuck s else recovery_inv s.
Proof.
  intros (w & s0 & Hi & Hr). assert (rs_wedged s0 = false) as Ew by (by destruct Hi as (q & c & _ & _ & ->)).
  apply recovery_initial in Hi. assert (if rs_wedged s0 then stuck s0 else recovery_inv s0) as Hg by (by rewrite Ew). clear Ew Hi.
  induction Hr as [|s1 s2 s3 Hs _ IH]; [done|]. apply IH. clear IH. destruct (rs_wedged s1) eqn:E1.
  - destruct (consumer_stuck_step _ _ Hg Hs) as [Hst _]. by rewrite (proj1 Hst).
  - destruct (rs_wedged s2) eqn:E2; [|by eapply recovery_step]. split; [done|]. by eapply consumer_wedging_step.
Qed.

(** ** An armed reconnection begins *)

Lemma silent_rsteps t t' q ts dl l n :
  rtc (quiet_tstep false) t t' -> ts QReconnectTask = t ->
  exists ts', rtc rstep (MkRSys q ts None dl l n false) (MkRSys q ts' None dl l n false) /\ ts' QReconnectTask = t'.
Proof.
  intros Hs. revert ts. induction Hs as [t|t t1 t2 Hs _ IH]; intros ts Et; [by exists ts|].
  destruct (IH (<[QReconnectTask := t1]> ts)) as (ts' & Hr & Et'); [apply fn_lookup_insert|]. exists ts'. split; [|done].
  eapply rtc_l; [|exact Hr]. subst t. inversion Hs; subst.
  - eapply RTask. left. eassumption.
  - eapply (RTask _ _ 0). by right.
  - by eapply RTaskEnd.
Qed.

Lemma armed_begins q ts dl l n :
  recovery_inv (MkRSys q ts None dl l n false) -> q_client q = None -> armed (ts QReconnectTask) ->
  exists s', rtc rstep (MkRSys q ts None dl l n false) s' /\ rs_q s' = q /\ rs_reconnect s' = Some RcGet.
Proof.
  intros [H1 H2 _ _ _ _] Hc Ha. simpl in *. destruct (H2 QReconnectTask) as [Hh Hi].
  destruct (armed_calls _ Hh Hi Ha) as (t1 & t2 & Hs & Hcall).
  destruct (silent_rsteps _ t1 q ts dl l n Hs eq_refl) as (ts1 & Hr & Et). subst t1.
  inversion Hcall as [| |m t t' E Es|]; subst.
  eexists. split; [eapply rtc_r; [exact Hr | by eapply RReconnectBegin]|]. split; [done|]. simpl.
  by rewrite !bool_decide_true.
Qed.

(** C8: a consumer that has started and that nobody stops is not left without a
    client for good: whenever it has none, its reconnection is armed or under
    way, or the stop for a deleted stream is, and an armed reconnection can
    always begin; and a client that it has is one whose loss is still to be
    notified, or whose notification is on its way.  The one exception is a
    consumer whose mutex is held for ever by a shutdown listener that waits in
    the destructor of the client it dropped, which can come from the
    notification of a heartbeat time-out, or of another client than the
    consumer's, only: it never has a client again and accepts no further
    message. *)
Theorem consumer_never_stranded s :
  rreachable s ->
  (rs_wedged s = false ->
   (q_client (rs_q s) = None -> under_recovery s) /\
   (forall c, q_client (rs_q s) = Some c -> c ∈ rs_live s \/ exists reason, (c, reason) ∈ rs_notify s) /\
   (q_client (rs_q s) = None -> armed (rs_tasks s QReconnectTask) -> rs_reconnect s = None ->
    exists s', rtc rstep s s' /\ rs_q s' = rs_q s /\ rs_reconnect s' = Some RcGet)) /\
  (rs_wedged s = false -> forall s', rstep s s' -> rs_wedged s' = true ->
   exists c reason, (c, reason) ∈ rs_notify s /\ drop_may_block c reason (q_client (rs_q s)) = true) /\
  (rs_wedged s = true -> forall s', rtc rstep s s' ->
   rs_wedged s' = true /\ q_client (rs_q s') = None /\ q_accepted (rs_q s') = q_accepted (rs_q s)).
Proof.
  intros Hr. pose proof (recovery_reachable s Hr) as Hi. split; [|split].
  - intros Hw. rewrite Hw in Hi. split; [apply Hi|]. split; [apply Hi|].
    intros Hc Ha Hn. destruct s as [q ts rc dl l n wd]. simpl in *. subst rc wd. by apply armed_begins.
  - intros Hw s' Hs Hw'. by eapply consumer_wedging_step.
  - intros Hw s' Hs. rewrite Hw in Hi. destruct (consumer_stuck_for_ever s s' Hi Hs) as [[H1 H2] H3]. done.
Qed.

End recovery.
