(* ===== verification/ConsumerCursor.v ===== *)
(** * The timer of the cursor

    [store_current_offset] is the function of the task that stores the cursor
    after some time; each run schedules the next.  When it runs while the
    client is gone and there are messages to account for, nothing does. *)

From S2P Require Import Prelude Words OrdMap Types Consumer ConsumerSystem.

Section cursor.
Context {W : Type} `{ConsumerWorld W}.
Context (cfg : ConsumerConfig) (gapless : bool) (a : AutomaticCursorConfiguration).

(** The cursor is stored by time only. *)
Context (Ha : m_auto_cursor_config cfg = Some a) (Hf : acc_persist_frequency a = 0).

Abbreviation QS := (@QState W).
Implicit Types q : QS.

Definition is_persist_call (kc : ConsumerTask * ConsumerTaskCall) : bool :=
  match kc.1 with QPersistCursorTask => true | _ => false end.

Definition persist_calls q : list (ConsumerTask * ConsumerTaskCall) := List.filter is_persist_call (q_tasks q).

(** No cursor is stored and the timer is not touched. *)
Definition cursor_idle q q' : Prop := q_stored q' = q_stored q /\ persist_calls q' = persist_calls q.

#[local] Instance cursor_idle_preorder : PreOrder cursor_idle.
Proof. split; [by intros q|]. intros q1 q2 q3 [] []. split; congruence. Qed.

(** Everything but the calls of [store_offset], the function of the timer and
    the stop. *)
Definition cursor_free (action : qaction) : bool :=
  match action with
  | QaOp (QopStoreOffset _ | QopStoreCurrentOffset | QopDestroyTasks | QopFinalStore _) => false
  | _ => true
  end.

Lemma idle_modify f :
  (forall q, q_stored (f q) = q_stored q /\ persist_calls (f q) = persist_calls q) ->
  preserves cursor_idle (st_modify f : ST QS exn unit).
Proof. intros Hm q. apply Hm. Qed.

Lemma idle_task k call : k <> QPersistCursorTask -> preserves cursor_idle (qtask k call : ST QS exn unit).
Proof.
  intros Hk. apply idle_modify. intros q. split; [done|]. unfold persist_calls. simpl. rewrite List.filter_app. simpl.
  destruct k; try done; apply app_nil_r.
Qed.

Lemma idle_qcall {A} (m : ST W exn A) : preserves cursor_idle (qcall m).
Proof. intros q. unfold qcall. by destruct (m (q_world q)). Qed.

Lemma idle_catch {A} (m : ST QS exn A) h :
  preserves cursor_idle m -> (forall e, preserves cursor_idle (h e)) -> preserves cursor_idle (qcatch m h).
Proof.
  intros Hm Hh. apply (preserves_catch cursor_idle); [done|]. intros e.
  destruct (is_StreamException e); [apply Hh | apply (preserves_throw cursor_idle)].
Qed.

Lemma idle_get {A} (f : QS -> ST QS exn A) : (forall q, preserves cursor_idle (f q)) -> preserves cursor_idle (q ← st_get; f q).
Proof. intros Hm. apply (preserves_get cursor_idle). intros q. apply Hm. Qed.

Lemma idle_put {A} q1 (m : unit -> ST QS exn A) q :
  cursor_idle q q1 -> preserves cursor_idle (m tt) -> cursor_idle q ((st_put q1 ≫= m) q).2.
Proof. intros Hq Hm. etransitivity; [exact Hq | apply Hm]. Qed.

#[local] Hint Resolve idle_qcall : preserves.
#[local] Hint Extern 1 (preserves cursor_idle (st_modify _)) => now apply idle_modify : preserves.
#[local] Hint Extern 1 (preserves cursor_idle (qtask _ _)) => now apply idle_task : preserves.
#[local] Hint Extern 1 (preserves cursor_idle (qcatch _ _)) => apply idle_catch; [|intros ?] : preserves.
#[local] Hint Extern 0 (preserves cursor_idle (st_get ≫= _)) => apply idle_get; intros ? : preserves.

Lemma idle_deref {A} (o : option A) : preserves cursor_idle (deref o).
Proof. unfold deref. auto with preserves. Qed.
#[local] Hint Resolve idle_deref : preserves.

Lemma idle_take : preserves cursor_idle (q_take_client : ST QS exn (option nat)).
Proof. apply (preserves_get cursor_idle). by intros q. Qed.
#[local] Hint Resolve idle_take : preserves.

Lemma idle_resubscribe c : preserves cursor_idle (q_resubscribe cfg c).
Proof. unfold q_resubscribe. auto 10 with preserves. Qed.

Lemma idle_started : preserves cursor_idle (check_started : ST QS exn unit).
Proof. unfold check_started. auto with preserves. Qed.
#[local] Hint Resolve idle_started : preserves.

Lemma idle_op op : cursor_free (QaOp op) = true -> preserves cursor_idle (run_qop cfg op).
Proof.
  destruct op; try discriminate; intros _; cbn [run_qop];
    unfold grant_credit, chunk_credit, consumer_metadata_update, consumer_shutdown, q_delayed_take, q_delayed_stop,
      q_reconnect_connect, q_get_client, q_reconnect_failed, q_unsubscribe; auto 10 with preserves.
Qed.

Lemma idle_accept offset : preserves cursor_idle (message_accept cfg offset).
Proof. apply (preserves_get cursor_idle). intros q. by destruct (filtered _ _). Qed.

Lemma never_reached q : persist_frequency_reached cfg q = false.
Proof. unfold persist_frequency_reached. now rewrite Ha, Hf. Qed.

(** The frame thread is not about to store. *)
Definition frame_idle (f : qframe_pc) : Prop :=
  match f with QfIdle => True | QfCall _ _ _ store => store = false | QfStore _ => False end.

Lemma idle_action action s :
  cursor_free action = true -> qs_start s = QsDone -> frame_idle (qs_frame s) ->
  cursor_idle (qs_state s) (qs_state (qrun cfg gapless action s)) /\
  qs_start (qrun cfg gapless action s) = QsDone /\ frame_idle (qs_frame (qrun cfg gapless action s)).
Proof.
  destruct s as [q pc f se us]. simpl. intros Hc -> Hfr.
  destruct action as [|session| |c session| |ctx message| | |op]; simpl; try done.
  - pose proof (idle_resubscribe c q) as Hi. destruct (q_resubscribe cfg c q) as [r q'].
    by destruct (_ && _).
  - destruct f as [|ctx' offset m store|offset]; [|done..]. destruct se as [n|]; [|done]. destruct (n <? UINT64_MAX); [|done].
    pose proof (idle_accept n q) as Hi. destruct (message_accept cfg n q) as [r q'] eqn:E. split; [exact Hi|]. split; [done|].
    simpl. unfold message_accept, mbind at 1, ST_bind at 1 in E. cbn [st_get] in E. destruct (filtered _ _); injection E as <- <-; simpl; [done|].
    apply never_reached.
  - destruct f as [|ctx' offset m store|offset]; [done| |done]. simpl in Hfr. subst store. split; [|done]. simpl. unfold message_call.
    by destruct (qc_handler cfg).
  - by destruct f.
  - split; [|done]. by apply idle_op.
Qed.

Lemma idle_script script s :
  Forall (fun action => cursor_free action = true) script -> qs_start s = QsDone -> frame_idle (qs_frame s) ->
  cursor_idle (qs_state s) (qs_state (qexec cfg gapless script s)).
Proof.
  intros Hs. revert s. induction Hs as [|action script Ha' _ IH]; intros s H1 H2; [done|].
  destruct (idle_action action s Ha' H1 H2) as (E1 & E2 & E3). etransitivity; [exact E1 | by apply IH].
Qed.

End cursor.

(** ** The run *)

Definition timed_consumer : ConsumerConfig :=
  MkConsumerConfig "app" "orders" offset_first (Some (MkAutomaticCursorConfiguration 0 5000)) true true 5000.

(** Two messages are handled, the connection is lost and the timer fires before
    the recovery. *)
Definition timer_fires_disconnected : list qaction :=
  [QaBegin; QaConnect (Some 42); QaFinish] ++ concat (replicate 2 example_message_turn) ++
  [QaLost; QaOp (QopShutdown true Unknown); QaOp QopStoreCurrentOffset].

Definition timer_lost_state : qsys := qexec timed_consumer true timer_fires_disconnected (qs_init timed_consumer []).

(** The recovery, and the next messages. *)
Definition recovered_script : list qaction :=
  [QaOp QopReconnectConnect; QaOp (QopClientStart 1); QaResubscribe 1 (Some 44)] ++ concat (replicate 3 example_message_turn).

(** When the timer of the cursor fires while the consumer has no client and
    has handled messages since the last store, the timer is not scheduled again.
    A consumer whose cursor is stored by time only then recovers, hands over
    messages for ever and never stores its cursor. *)
Theorem cursor_timer_lost :
  qreachable timed_consumer true timer_lost_state /\
  q_accepted (qs_state timer_lost_state) = [42; 43] /\ q_stored (qs_state timer_lost_state) = [] /\
  persist_calls (qs_state timer_lost_state) = [(QPersistCursorTask, QScheduleAfter 5000)] /\
  (forall script, Forall (fun action => cursor_free action = true) script ->
     let q := qs_state (qexec timed_consumer true script timer_lost_state) in
     q_stored q = [] /\ persist_calls q = [(QPersistCursorTask, QScheduleAfter 5000)]) /\
  let q := qs_state (qexec timed_consumer true recovered_script timer_lost_state) in
  q_status q = QStarted /\ q_client q = Some 1%nat /\ q_accepted q = [42; 43; 44; 45; 46].
Proof.
  split; [exists []; apply qexec_steps|]. do 3 (split; [vm_compute; reflexivity|]).
  split; [|vm_compute; done]. intros script Hs. cbv zeta.
  destruct (idle_script timed_consumer true (MkAutomaticCursorConfiguration 0 5000) eq_refl eq_refl script timer_lost_state Hs)
    as [-> ->]; vm_compute; done.
Qed.
