(* ===== verification/Builders.v ===== *)
(** * The builders

    Models [src/environment_builder.cpp], [src/producer_builder.cpp],
    [src/consumer_builder.cpp], [src/stream_creator.cpp] and their headers: the
    defaults, the checks of the arguments, and what [build] and [create] do.  A
    builder's [m_environment] is the environment in whose state [build] runs.
    [BuildersCorrect] has the theorems. *)

From stdpp Require Import pretty.
From S2P Require Import Prelude Words OrdMap Types BinaryBuffer ClientCommands Messages Client Fluent ClientParameters Tasks Environment Semaphore Accumulator Producer Consumer.

(** ** EnvironmentBuilder *)

Section environment_builder.
Context {C : Type}.

Record EnvironmentBuilder := MkEnvironmentBuilder {
  eb_m_hosts : list string;
  eb_m_recovery_retry_delay : Z;
  eb_m_client_parameters : ClientParameters C
}.

Definition default_EnvironmentBuilder (qpid : C) : EnvironmentBuilder :=
  MkEnvironmentBuilder ["localhost"%string] 5000 (default_ClientParameters qpid).

Definition eb_update (f : ClientParameters C -> ClientParameters C) (b : EnvironmentBuilder) : EnvironmentBuilder :=
  MkEnvironmentBuilder (eb_m_hosts b) (eb_m_recovery_retry_delay b) (f (eb_m_client_parameters b)).

Definition eb_host (host : string) : Setter EnvironmentBuilder := fun b =>
  Val (MkEnvironmentBuilder [host] (eb_m_recovery_retry_delay b) (eb_m_client_parameters b)).
Definition eb_hosts (hosts : list string) : Setter EnvironmentBuilder := fun b =>
  if bool_decide (hosts = [])
  then Throw (InvalidInputException "hosts must not be empty") else
  Val (MkEnvironmentBuilder hosts (eb_m_recovery_retry_delay b) (eb_m_client_parameters b)).
Definition eb_port (port : Z) : Setter EnvironmentBuilder := fun b =>
  Val (eb_update (with_port port) b).
Definition eb_use_ssl (use_ssl : bool) : Setter EnvironmentBuilder := fun b =>
  Val (eb_update (with_use_ssl use_ssl) b).
Definition eb_verify_host (verify_host : bool) : Setter EnvironmentBuilder := fun b =>
  Val (eb_update (with_verify_host verify_host) b).
Definition eb_username (username : string) : Setter EnvironmentBuilder := fun b =>
  Val (eb_update (with_user username) b).
Definition eb_password (password : string) : Setter EnvironmentBuilder := fun b =>
  Val (eb_update (with_password password) b).
Definition eb_virtual_host (virtual_host : string) : Setter EnvironmentBuilder := fun b =>
  Val (eb_update (with_virtual_host virtual_host) b).
Definition eb_requested_heartbeat (requested_heartbeat : Z) : Setter EnvironmentBuilder := fun b =>
  if requested_heartbeat <? 0
  then Throw (InvalidInputException "requested heartbeat must not be negative") else
  Val (eb_update (with_requested_heartbeat requested_heartbeat) b).
Definition eb_requested_max_frame_size (requested_max_frame_size : Z) : Setter EnvironmentBuilder := fun b =>
  Val (eb_update (with_requested_max_frame_size requested_max_frame_size) b).
Definition eb_rpc_timeout (rpc_timeout : Z) : Setter EnvironmentBuilder := fun b =>
  if rpc_timeout <=? 0
  then Throw (InvalidInputException "rpc timeout must be positive") else
  Val (eb_update (with_rpc_timeout rpc_timeout) b).
Definition eb_recovery_retry_delay (recovery_retry_delay : Z) : Setter EnvironmentBuilder := fun b =>
  if recovery_retry_delay <=? 0
  then Throw (InvalidInputException "recovery retry delay must be positive") else
  Val (MkEnvironmentBuilder (eb_m_hosts b) recovery_retry_delay (eb_m_client_parameters b)).
Definition eb_client_properties (client_properties : Properties) : Setter EnvironmentBuilder := fun b =>
  Val (eb_update (with_client_properties client_properties) b).
Definition eb_codec (codec : option C) : Setter EnvironmentBuilder := fun b =>
  if match codec with None => true | Some _ => false end
  then Throw (InvalidInputException "codec must not be null") else
  Val (eb_update (with_codec codec) b).

(** The overloads for rvalues. *)
Definition eb_host_rvalue (host : string) : ST (Object EnvironmentBuilder) exn EnvironmentBuilder :=
  rvalue_call (eb_host host).
Definition eb_hosts_rvalue (hosts : list string) : ST (Object EnvironmentBuilder) exn EnvironmentBuilder :=
  rvalue_call (eb_hosts hosts).
Definition eb_port_rvalue (port : Z) : ST (Object EnvironmentBuilder) exn EnvironmentBuilder :=
  rvalue_call (eb_port port).
Definition eb_use_ssl_rvalue (use_ssl : bool) : ST (Object EnvironmentBuilder) exn EnvironmentBuilder :=
  rvalue_call (eb_use_ssl use_ssl).
Definition eb_verify_host_rvalue (verify_host : bool) : ST (Object EnvironmentBuilder) exn EnvironmentBuilder :=
  rvalue_call (eb_verify_host verify_host).
Definition eb_username_rvalue (username : string) : ST (Object EnvironmentBuilder) exn EnvironmentBuilder :=
  rvalue_call (eb_username username).
Definition eb_password_rvalue (password : string) : ST (Object EnvironmentBuilder) exn EnvironmentBuilder :=
  rvalue_call (eb_password password).
Definition eb_virtual_host_rvalue (virtual_host : string) : ST (Object EnvironmentBuilder) exn EnvironmentBuilder :=
  rvalue_call (eb_virtual_host virtual_host).
Definition eb_requested_heartbeat_rvalue (requested_heartbeat : Z) : ST (Object EnvironmentBuilder) exn EnvironmentBuilder :=
  rvalue_call (eb_requested_heartbeat requested_heartbeat).
Definition eb_requested_max_frame_size_rvalue (requested_max_frame_size : Z) : ST (Object EnvironmentBuilder) exn EnvironmentBuilder :=
  rvalue_call (eb_requested_max_frame_size requested_max_frame_size).
Definition eb_rpc_timeout_rvalue (rpc_timeout : Z) : ST (Object EnvironmentBuilder) exn EnvironmentBuilder :=
  rvalue_call (eb_rpc_timeout rpc_timeout).
Definition eb_recovery_retry_delay_rvalue (recovery_retry_delay : Z) : ST (Object EnvironmentBuilder) exn EnvironmentBuilder :=
  rvalue_call (eb_recovery_retry_delay recovery_retry_delay).
Definition eb_client_properties_rvalue (client_properties : Properties) : ST (Object EnvironmentBuilder) exn EnvironmentBuilder :=
  rvalue_call (eb_client_properties client_properties).
Definition eb_codec_rvalue (codec : option C) : ST (Object EnvironmentBuilder) exn EnvironmentBuilder :=
  rvalue_call (eb_codec codec).

Inductive environment_call :=
| EnvHost (host : string)
| EnvHosts (hosts : list string)
| EnvPort (port : Z)
| EnvUseSsl (use_ssl : bool)
| EnvVerifyHost (verify_host : bool)
| EnvUsername (username : string)
| EnvPassword (password : string)
| EnvVirtualHost (virtual_host : string)
| EnvRequestedHeartbeat (requested_heartbeat : Z)
| EnvRequestedMaxFrameSize (requested_max_frame_size : Z)
| EnvRpcTimeout (rpc_timeout : Z)
| EnvRecoveryRetryDelay (recovery_retry_delay : Z)
| EnvClientProperties (client_properties : Properties)
| EnvCodec (codec : option C).

Definition eb_setter (c : environment_call) : Setter EnvironmentBuilder :=
  match c with
  | EnvHost host => eb_host host
  | EnvHosts hosts => eb_hosts hosts
  | EnvPort port => eb_port port
  | EnvUseSsl use_ssl => eb_use_ssl use_ssl
  | EnvVerifyHost verify_host => eb_verify_host verify_host
  | EnvUsername username => eb_username username
  | EnvPassword password => eb_password password
  | EnvVirtualHost virtual_host => eb_virtual_host virtual_host
  | EnvRequestedHeartbeat requested_heartbeat => eb_requested_heartbeat requested_heartbeat
  | EnvRequestedMaxFrameSize requested_max_frame_size => eb_requested_max_frame_size requested_max_frame_size
  | EnvRpcTimeout rpc_timeout => eb_rpc_timeout rpc_timeout
  | EnvRecoveryRetryDelay recovery_retry_delay => eb_recovery_retry_delay recovery_retry_delay
  | EnvClientProperties client_properties => eb_client_properties client_properties
  | EnvCodec codec => eb_codec codec
  end.

Definition eb_setter_rvalue (c : environment_call) : ST (Object EnvironmentBuilder) exn EnvironmentBuilder :=
  match c with
  | EnvHost host => eb_host_rvalue host
  | EnvHosts hosts => eb_hosts_rvalue hosts
  | EnvPort port => eb_port_rvalue port
  | EnvUseSsl use_ssl => eb_use_ssl_rvalue use_ssl
  | EnvVerifyHost verify_host => eb_verify_host_rvalue verify_host
  | EnvUsername username => eb_username_rvalue username
  | EnvPassword password => eb_password_rvalue password
  | EnvVirtualHost virtual_host => eb_virtual_host_rvalue virtual_host
  | EnvRequestedHeartbeat requested_heartbeat => eb_requested_heartbeat_rvalue requested_heartbeat
  | EnvRequestedMaxFrameSize requested_max_frame_size => eb_requested_max_frame_size_rvalue requested_max_frame_size
  | EnvRpcTimeout rpc_timeout => eb_rpc_timeout_rvalue rpc_timeout
  | EnvRecoveryRetryDelay recovery_retry_delay => eb_recovery_retry_delay_rvalue recovery_retry_delay
  | EnvClientProperties client_properties => eb_client_properties_rvalue client_properties
  | EnvCodec codec => eb_codec_rvalue codec
  end.

#[export, refine] Instance eb_Fluent : Fluent EnvironmentBuilder environment_call := {|
  setter := eb_setter;
  setter_rvalue := eb_setter_rvalue
|}.
Proof. now intros [] o. Defined.

(** The calls whose arguments are accepted. *)
Definition eb_good (c : environment_call) : bool :=
  match c with
  | EnvHosts hosts =>
      negb (bool_decide (hosts = []))
  | EnvRequestedHeartbeat requested_heartbeat =>
      negb (requested_heartbeat <? 0)
  | EnvRpcTimeout rpc_timeout =>
      negb (rpc_timeout <=? 0)
  | EnvRecoveryRetryDelay recovery_retry_delay =>
      negb (recovery_retry_delay <=? 0)
  | EnvCodec codec =>
      negb (match codec with None => true | Some _ => false end)
  | _ => true
  end.

Definition environment_config (b : EnvironmentBuilder) : EConfig C :=
  MkEConfig (eb_m_hosts b) (eb_m_recovery_retry_delay b) (eb_m_client_parameters b).

Definition eb_build `{EnvironmentClients C W} (generator : nat -> nat) (b : EnvironmentBuilder) (w : W) :
  outcome exn (EState W) * W :=
  environment_create (environment_config b) generator w.

Definition eb_build_rvalue `{EnvironmentClients C W} (generator : nat -> nat) (o : Object EnvironmentBuilder) (w : W) :
  (outcome exn (EState W) * W) * Object EnvironmentBuilder :=
  match o with
  | Live b => (environment_create (environment_config b) generator w, MovedFrom)
  | MovedFrom => ((Throw UndefinedBehaviour, w), MovedFrom)
  end.

End environment_builder.
Arguments EnvironmentBuilder : clear implicits.
Arguments environment_call : clear implicits.

(** ** ProducerBuilder *)

Record ProducerBuilder := MkProducerBuilder {
  pb_m_name : string;
  pb_m_stream : string;
  pb_m_batch_size : Z;
  pb_m_batch_publishing_delay : Z;
  pb_m_max_unconfirmed : Z;
  pb_m_confirm_timeout : Z;
  pb_m_enqueue_timeout : Z
}.

Definition new_ProducerBuilder : ProducerBuilder :=
  MkProducerBuilder EmptyString EmptyString 100 100 10000 30000 10000.

Definition pb_name (name : string) : Setter ProducerBuilder := fun b =>
  if 256 <=? str_size name
  then Throw (InvalidInputException "name length must not exceed 256") else
  Val (MkProducerBuilder name (pb_m_stream b) (pb_m_batch_size b) (pb_m_batch_publishing_delay b)
    (pb_m_max_unconfirmed b) (pb_m_confirm_timeout b) (pb_m_enqueue_timeout b)).
Definition pb_stream (stream : string) : Setter ProducerBuilder := fun b =>
  Val (MkProducerBuilder (pb_m_name b) stream (pb_m_batch_size b) (pb_m_batch_publishing_delay b)
    (pb_m_max_unconfirmed b) (pb_m_confirm_timeout b) (pb_m_enqueue_timeout b)).
Definition pb_batch_size (batch_size : Z) : Setter ProducerBuilder := fun b =>
  if batch_size =? 0
  then Throw (InvalidInputException "batch size must be greater than zero") else
  Val (MkProducerBuilder (pb_m_name b) (pb_m_stream b) batch_size (pb_m_batch_publishing_delay b)
    (pb_m_max_unconfirmed b) (pb_m_confirm_timeout b) (pb_m_enqueue_timeout b)).
Definition pb_batch_publishing_delay (batch_publishing_delay : Z) : Setter ProducerBuilder := fun b =>
  if batch_publishing_delay <? 0
  then Throw (InvalidInputException "batch publishing delay must not be negative") else
  Val (MkProducerBuilder (pb_m_name b) (pb_m_stream b) (pb_m_batch_size b) batch_publishing_delay
    (pb_m_max_unconfirmed b) (pb_m_confirm_timeout b) (pb_m_enqueue_timeout b)).
Definition pb_max_unconfirmed (max_unconfirmed : Z) : Setter ProducerBuilder := fun b =>
  if max_unconfirmed =? 0
  then Throw (InvalidInputException "max unconfirmed must be greater than zero") else
  Val (MkProducerBuilder (pb_m_name b) (pb_m_stream b) (pb_m_batch_size b) (pb_m_batch_publishing_delay
    b) max_unconfirmed (pb_m_confirm_timeout b) (pb_m_enqueue_timeout b)).
Definition pb_confirm_timeout (confirm_timeout : Z) : Setter ProducerBuilder := fun b =>
  if confirm_timeout <? 0
  then Throw (InvalidInputException "confirm timeout must not be negative") else
  Val (MkProducerBuilder (pb_m_name b) (pb_m_stream b) (pb_m_batch_size b) (pb_m_batch_publishing_delay
    b) (pb_m_max_unconfirmed b) confirm_timeout (pb_m_enqueue_timeout b)).
Definition pb_enqueue_timeout (enqueue_timeout : Z) : Setter ProducerBuilder := fun b =>
  if enqueue_timeout <? 0
  then Throw (InvalidInputException "enqueue timeout must not be negative") else
  Val (MkProducerBuilder (pb_m_name b) (pb_m_stream b) (pb_m_batch_size b) (pb_m_batch_publishing_delay
    b) (pb_m_max_unconfirmed b) (pb_m_confirm_timeout b) enqueue_timeout).

(** The overloads for rvalues. *)
Definition pb_name_rvalue (name : string) : ST (Object ProducerBuilder) exn ProducerBuilder :=
  rvalue_call (pb_name name).
Definition pb_stream_rvalue (stream : string) : ST (Object ProducerBuilder) exn ProducerBuilder :=
  rvalue_call (pb_stream stream).
Definition pb_batch_size_rvalue (batch_size : Z) : ST (Object ProducerBuilder) exn ProducerBuilder :=
  rvalue_call (pb_batch_size batch_size).
Definition pb_batch_publishing_delay_rvalue (batch_publishing_delay : Z) : ST (Object ProducerBuilder) exn ProducerBuilder :=
  rvalue_call (pb_batch_publishing_delay batch_publishing_delay).
Definition pb_max_unconfirmed_rvalue (max_unconfirmed : Z) : ST (Object ProducerBuilder) exn ProducerBuilder :=
  rvalue_call (pb_max_unconfirmed max_unconfirmed).
Definition pb_confirm_timeout_rvalue (confirm_timeout : Z) : ST (Object ProducerBuilder) exn ProducerBuilder :=
  rvalue_call (pb_confirm_timeout confirm_timeout).
Definition pb_enqueue_timeout_rvalue (enqueue_timeout : Z) : ST (Object ProducerBuilder) exn ProducerBuilder :=
  rvalue_call (pb_enqueue_timeout enqueue_timeout).

Inductive producer_call :=
| ProdName (name : string)
| ProdStream (stream : string)
| ProdBatchSize (batch_size : Z)
| ProdBatchPublishingDelay (batch_publishing_delay : Z)
| ProdMaxUnconfirmed (max_unconfirmed : Z)
| ProdConfirmTimeout (confirm_timeout : Z)
| ProdEnqueueTimeout (enqueue_timeout : Z).

Definition pb_setter (c : producer_call) : Setter ProducerBuilder :=
  match c with
  | ProdName name => pb_name name
  | ProdStream stream => pb_stream stream
  | ProdBatchSize batch_size => pb_batch_size batch_size
  | ProdBatchPublishingDelay batch_publishing_delay => pb_batch_publishing_delay batch_publishing_delay
  | ProdMaxUnconfirmed max_unconfirmed => pb_max_unconfirmed max_unconfirmed
  | ProdConfirmTimeout confirm_timeout => pb_confirm_timeout confirm_timeout
  | ProdEnqueueTimeout enqueue_timeout => pb_enqueue_timeout enqueue_timeout
  end.

Definition pb_setter_rvalue (c : producer_call) : ST (Object ProducerBuilder) exn ProducerBuilder :=
  match c with
  | ProdName name => pb_name_rvalue name
  | ProdStream stream => pb_stream_rvalue stream
  | ProdBatchSize batch_size => pb_batch_size_rvalue batch_size
  | ProdBatchPublishingDelay batch_publishing_delay => pb_batch_publishing_delay_rvalue batch_publishing_delay
  | ProdMaxUnconfirmed max_unconfirmed => pb_max_unconfirmed_rvalue max_unconfirmed
  | ProdConfirmTimeout confirm_timeout => pb_confirm_timeout_rvalue confirm_timeout
  | ProdEnqueueTimeout enqueue_timeout => pb_enqueue_timeout_rvalue enqueue_timeout
  end.

#[export, refine] Instance pb_Fluent : Fluent ProducerBuilder producer_call := {|
  setter := pb_setter;
  setter_rvalue := pb_setter_rvalue
|}.
Proof. now intros [] o. Defined.

(** The calls whose arguments are accepted. *)
Definition pb_good (c : producer_call) : bool :=
  match c with
  | ProdName name =>
      negb (256 <=? str_size name)
  | ProdBatchSize batch_size =>
      negb (batch_size =? 0)
  | ProdBatchPublishingDelay batch_publishing_delay =>
      negb (batch_publishing_delay <? 0)
  | ProdMaxUnconfirmed max_unconfirmed =>
      negb (max_unconfirmed =? 0)
  | ProdConfirmTimeout confirm_timeout =>
      negb (confirm_timeout <? 0)
  | ProdEnqueueTimeout enqueue_timeout =>
      negb (enqueue_timeout <? 0)
  | _ => true
  end.

Definition STREAM_MISSING : exn := InvalidInputException "stream must be specified".

(** [delay] is the environment's [get_recovery_retry_delay]. *)
Definition producer_config (delay : Z) (b : ProducerBuilder) : ProducerConfig :=
  MkProducerConfig (pb_m_name b) (pb_m_stream b) (pb_m_batch_size b) (pb_m_batch_publishing_delay b)
    (pb_m_max_unconfirmed b) (pb_m_confirm_timeout b) (pb_m_enqueue_timeout b) delay.

(** [ProducerImpl::create] and the destructor; [delay] is what the environment
    answers. *)
Definition ProducerImpl_create {W} (name stream : string) (batch_size batch_publishing_delay max_unconfirmed
    confirm_timeout enqueue_timeout delay : Z) (environment : W) : ProducerConfig * @PState W :=
  let cfg := MkProducerConfig name stream batch_size batch_publishing_delay max_unconfirmed confirm_timeout
               enqueue_timeout delay in
  (cfg, new_Producer cfg environment).

Definition ProducerImpl_destroy `{ClientWorld W} (p : @PState W) : @PState W := (stop p).2.

(** The producer, when there is one: when [start] throws, the last pointer to it
    goes away and its destructor stops it. *)
Definition pb_build `{ClientWorld W} (delay : Z) (b : ProducerBuilder) (w : W) : outcome exn unit * option (@PState W) :=
  if bool_decide (pb_m_stream b = EmptyString) then (Throw STREAM_MISSING, None)
  else
    let '(cfg, p) := ProducerImpl_create (pb_m_name b) (pb_m_stream b) (pb_m_batch_size b) (pb_m_batch_publishing_delay b)
                       (pb_m_max_unconfirmed b) (pb_m_confirm_timeout b) (pb_m_enqueue_timeout b) delay w in
    match start cfg p with
    | (Val _, p) => (Val tt, Some p)
    | (Throw e, p) => (Throw e, Some (ProducerImpl_destroy p))
    end.

Definition pb_build_rvalue `{ClientWorld W} (delay : Z) (o : Object ProducerBuilder) (w : W) :
  (outcome exn unit * option (@PState W)) * Object ProducerBuilder :=
  match o with
  | Live b => (pb_build delay b w, if bool_decide (pb_m_stream b = EmptyString) then Live b else MovedFrom)
  | MovedFrom => ((Throw UndefinedBehaviour, None), MovedFrom)
  end.

(** ** ConsumerBuilder

    [qb_m_message_handler] tells whether the handler is set. *)

Record ConsumerBuilder := MkConsumerBuilder {
  qb_m_name : string;
  qb_m_stream : string;
  qb_m_offset_specification : OffsetSpecification;
  qb_m_auto_cursor_config : option AutomaticCursorConfiguration;
  qb_m_automatic_credits : bool;
  qb_m_message_handler : bool
}.

Definition new_ConsumerBuilder : ConsumerBuilder :=
  MkConsumerBuilder EmptyString EmptyString offset_next (Some default_AutomaticCursorConfiguration) true false.

Definition qb_name (name : string) : Setter ConsumerBuilder := fun b =>
  if 256 <=? str_size name
  then Throw (InvalidInputException "name length must not exceed 256") else
  Val (MkConsumerBuilder name (qb_m_stream b) (qb_m_offset_specification b) (qb_m_auto_cursor_config b)
    (qb_m_automatic_credits b) (qb_m_message_handler b)).
Definition qb_stream (stream : string) : Setter ConsumerBuilder := fun b =>
  Val (MkConsumerBuilder (qb_m_name b) stream (qb_m_offset_specification b) (qb_m_auto_cursor_config b)
    (qb_m_automatic_credits b) (qb_m_message_handler b)).
Definition qb_offset_specification (offset_specification : OffsetSpecification) : Setter ConsumerBuilder := fun b =>
  Val (MkConsumerBuilder (qb_m_name b) (qb_m_stream b) offset_specification (qb_m_auto_cursor_config b)
    (qb_m_automatic_credits b) (qb_m_message_handler b)).
Definition qb_manual_cursor_management : Setter ConsumerBuilder := fun b =>
  Val (MkConsumerBuilder (qb_m_name b) (qb_m_stream b) (qb_m_offset_specification b) None
    (qb_m_automatic_credits b) (qb_m_message_handler b)).
Definition qb_automatic_cursor_management (cursor : AutomaticCursorConfiguration) : Setter ConsumerBuilder := fun b =>
  if acc_force_persist_delay cursor <? 0
  then Throw (InvalidInputException "force persist delay must not be negative") else
  if (acc_persist_frequency cursor =? 0) && (acc_force_persist_delay cursor =? 0)
  then Throw (InvalidInputException "Automatic cursor management requires a either a message frequency or persist delay") else
  Val (MkConsumerBuilder (qb_m_name b) (qb_m_stream b) (qb_m_offset_specification b) (Some cursor)
    (qb_m_automatic_credits b) (qb_m_message_handler b)).
Definition qb_manual_credit_management : Setter ConsumerBuilder := fun b =>
  Val (MkConsumerBuilder (qb_m_name b) (qb_m_stream b) (qb_m_offset_specification b)
    (qb_m_auto_cursor_config b) false (qb_m_message_handler b)).
Definition qb_automatic_credit_management : Setter ConsumerBuilder := fun b =>
  Val (MkConsumerBuilder (qb_m_name b) (qb_m_stream b) (qb_m_offset_specification b)
    (qb_m_auto_cursor_config b) true (qb_m_message_handler b)).
Definition qb_message_handler (message_handler : bool) : Setter ConsumerBuilder := fun b =>
  Val (MkConsumerBuilder (qb_m_name b) (qb_m_stream b) (qb_m_offset_specification b)
    (qb_m_auto_cursor_config b) (qb_m_automatic_credits b) message_handler).

(** The overloads for rvalues. *)
Definition qb_name_rvalue (name : string) : ST (Object ConsumerBuilder) exn ConsumerBuilder :=
  rvalue_call (qb_name name).
Definition qb_stream_rvalue (stream : string) : ST (Object ConsumerBuilder) exn ConsumerBuilder :=
  rvalue_call (qb_stream stream).
Definition qb_offset_specification_rvalue (offset_specification : OffsetSpecification) : ST (Object ConsumerBuilder) exn ConsumerBuilder :=
  rvalue_call (qb_offset_specification offset_specification).
Definition qb_manual_cursor_management_rvalue : ST (Object ConsumerBuilder) exn ConsumerBuilder :=
  rvalue_call qb_manual_cursor_management.
Definition qb_automatic_cursor_management_rvalue (cursor : AutomaticCursorConfiguration) : ST (Object ConsumerBuilder) exn ConsumerBuilder :=
  rvalue_call (qb_automatic_cursor_management cursor).
Definition qb_manual_credit_management_rvalue : ST (Object ConsumerBuilder) exn ConsumerBuilder :=
  rvalue_call qb_manual_credit_management.
Definition qb_automatic_credit_management_rvalue : ST (Object ConsumerBuilder) exn ConsumerBuilder :=
  rvalue_call qb_automatic_credit_management.
Definition qb_message_handler_rvalue (message_handler : bool) : ST (Object ConsumerBuilder) exn ConsumerBuilder :=
  rvalue_call (qb_message_handler message_handler).

Inductive consumer_call :=
| ConsName (name : string)
| ConsStream (stream : string)
| ConsOffsetSpecification (offset_specification : OffsetSpecification)
| ConsManualCursorManagement
| ConsAutomaticCursorManagement (cursor : AutomaticCursorConfiguration)
| ConsManualCreditManagement
| ConsAutomaticCreditManagement
| ConsMessageHandler (message_handler : bool).

Definition qb_setter (c : consumer_call) : Setter ConsumerBuilder :=
  match c with
  | ConsName name => qb_name name
  | ConsStream stream => qb_stream stream
  | ConsOffsetSpecification offset_specification => qb_offset_specification offset_specification
  | ConsManualCursorManagement => qb_manual_cursor_management
  | ConsAutomaticCursorManagement cursor => qb_automatic_cursor_management cursor
  | ConsManualCreditManagement => qb_manual_credit_management
  | ConsAutomaticCreditManagement => qb_automatic_credit_management
  | ConsMessageHandler message_handler => qb_message_handler message_handler
  end.

Definition qb_setter_rvalue (c : consumer_call) : ST (Object ConsumerBuilder) exn ConsumerBuilder :=
  match c with
  | ConsName name => qb_name_rvalue name
  | ConsStream stream => qb_stream_rvalue stream
  | ConsOffsetSpecification offset_specification => qb_offset_specification_rvalue offset_specification
  | ConsManualCursorManagement => qb_manual_cursor_management_rvalue
  | ConsAutomaticCursorManagement cursor => qb_automatic_cursor_management_rvalue cursor
  | ConsManualCreditManagement => qb_manual_credit_management_rvalue
  | ConsAutomaticCreditManagement => qb_automatic_credit_management_rvalue
  | ConsMessageHandler message_handler => qb_message_handler_rvalue message_handler
  end.

#[export, refine] Instance qb_Fluent : Fluent ConsumerBuilder consumer_call := {|
  setter := qb_setter;
  setter_rvalue := qb_setter_rvalue
|}.
Proof. now intros [] o. Defined.

(** The calls whose arguments are accepted. *)
Definition qb_good (c : consumer_call) : bool :=
  match c with
  | ConsName name =>
      negb (256 <=? str_size name)
  | ConsAutomaticCursorManagement cursor =>
      negb (acc_force_persist_delay cursor <? 0) && negb ((acc_persist_frequency cursor =? 0) && (acc_force_persist_delay cursor =? 0))
  | _ => true
  end.

Definition consumer_config (delay : Z) (b : ConsumerBuilder) : ConsumerConfig :=
  MkConsumerConfig (qb_m_name b) (qb_m_stream b) (qb_m_offset_specification b) (qb_m_auto_cursor_config b)
    (qb_m_automatic_credits b) (qb_m_message_handler b) delay.

(** [ConsumerImpl::create] and the destructor. *)
Definition ConsumerImpl_create {W} (name stream : string) (offset_specification : OffsetSpecification)
    (auto_cursor_config : option AutomaticCursorConfiguration) (automatic_credits message_handler : bool) (delay : Z)
    (environment : W) : ConsumerConfig * @QState W :=
  let cfg := MkConsumerConfig name stream offset_specification auto_cursor_config automatic_credits message_handler delay in
  (cfg, new_Consumer cfg environment).

Definition ConsumerImpl_destroy `{ConsumerWorld W} (cfg : ConsumerConfig) (q : @QState W) : @QState W :=
  (consumer_stop cfg q).2.

Definition qb_build `{ConsumerWorld W} (delay : Z) (b : ConsumerBuilder) (w : W) : outcome exn unit * option (@QState W) :=
  if bool_decide (qb_m_stream b = EmptyString) then (Throw STREAM_MISSING, None)
  else
    let '(cfg, q) := ConsumerImpl_create (qb_m_name b) (qb_m_stream b) (qb_m_offset_specification b)
                       (qb_m_auto_cursor_config b) (qb_m_automatic_credits b) (qb_m_message_handler b) delay w in
    match consumer_start cfg q with
    | (Val _, q) => (Val tt, Some q)
    | (Throw e, q) => (Throw e, Some (ConsumerImpl_destroy cfg q))
    end.

Definition qb_build_rvalue `{ConsumerWorld W} (delay : Z) (o : Object ConsumerBuilder) (w : W) :
  (outcome exn unit * option (@QState W)) * Object ConsumerBuilder :=
  match o with
  | Live b => (qb_build delay b w, if bool_decide (qb_m_stream b = EmptyString) then Live b else MovedFrom)
  | MovedFrom => ((Throw UndefinedBehaviour, None), MovedFrom)
  end.

(** ** StreamCreator *)

Inductive LeaderLocator := LeastLeaders | ClientLocal | Random.

Definition LOCATOR_TO_STRING (l : LeaderLocator) : string :=
  match l with LeastLeaders => "least-leaders" | ClientLocal => "client-local" | Random => "random" end.

Record StreamCreator := MkStreamCreator {
  sc_m_stream : string;
  sc_m_properties : Properties
}.

(** [m_properties[key] = value]. *)
Definition sc_set_property (key value : string) (b : StreamCreator) : StreamCreator :=
  MkStreamCreator (sc_m_stream b) (om_assign key value (sc_m_properties b)).

(** [std::to_string] and [fmt::format] of an integer. *)

Definition sc_stream (stream : string) : Setter StreamCreator := fun b =>
  Val (MkStreamCreator stream (sc_m_properties b)).
Definition sc_max_length (bytes : Z) : Setter StreamCreator := fun b =>
  Val (sc_set_property "max-length-bytes" (pretty bytes) b).
Definition sc_max_segment_size (bytes : Z) : Setter StreamCreator := fun b =>
  Val (sc_set_property "max-segment-size-bytes" (pretty bytes) b).
Definition sc_max_age (max_age : Z) : Setter StreamCreator := fun b =>
  Val (sc_set_property "max-age" (String.append (pretty max_age) "s") b).
Definition sc_leader_locator (leader_locator : LeaderLocator) : Setter StreamCreator := fun b =>
  Val (sc_set_property "queue-leader-locator" (LOCATOR_TO_STRING leader_locator) b).

(** The overloads for rvalues. *)
Definition sc_stream_rvalue (stream : string) : ST (Object StreamCreator) exn StreamCreator :=
  rvalue_call (sc_stream stream).
Definition sc_max_length_rvalue (bytes : Z) : ST (Object StreamCreator) exn StreamCreator :=
  rvalue_call (sc_max_length bytes).
Definition sc_max_segment_size_rvalue (bytes : Z) : ST (Object StreamCreator) exn StreamCreator :=
  rvalue_call (sc_max_segment_size bytes).
Definition sc_max_age_rvalue (max_age : Z) : ST (Object StreamCreator) exn StreamCreator :=
  rvalue_call (sc_max_age max_age).
Definition sc_leader_locator_rvalue (leader_locator : LeaderLocator) : ST (Object StreamCreator) exn StreamCreator :=
  rvalue_call (sc_leader_locator leader_locator).

Inductive creator_call :=
| CreateStream (stream : string)
| CreateMaxLength (bytes : Z)
| CreateMaxSegmentSize (bytes : Z)
| CreateMaxAge (max_age : Z)
| CreateLeaderLocator (leader_locator : LeaderLocator).

Definition sc_setter (c : creator_call) : Setter StreamCreator :=
  match c with
  | CreateStream stream => sc_stream stream
  | CreateMaxLength bytes => sc_max_length bytes
  | CreateMaxSegmentSize bytes => sc_max_segment_size bytes
  | CreateMaxAge max_age => sc_max_age max_age
  | CreateLeaderLocator leader_locator => sc_leader_locator leader_locator
  end.

Definition sc_setter_rvalue (c : creator_call) : ST (Object StreamCreator) exn StreamCreator :=
  match c with
  | CreateStream stream => sc_stream_rvalue stream
  | CreateMaxLength bytes => sc_max_length_rvalue bytes
  | CreateMaxSegmentSize bytes => sc_max_segment_size_rvalue bytes
  | CreateMaxAge max_age => sc_max_age_rvalue max_age
  | CreateLeaderLocator leader_locator => sc_leader_locator_rvalue leader_locator
  end.

#[export, refine] Instance sc_Fluent : Fluent StreamCreator creator_call := {|
  setter := sc_setter;
  setter_rvalue := sc_setter_rvalue
|}.
Proof. now intros [] o. Defined.

(** The constructor sets the default locator. *)
Definition new_StreamCreator : StreamCreator :=
  sc_set_property "queue-leader-locator" (LOCATOR_TO_STRING LeastLeaders) (MkStreamCreator EmptyString []).

Definition sc_create `{EnvironmentClients C W} (await_locator : EState W -> EState W) (b : StreamCreator) :
  ST (EState W) exn unit :=
  if bool_decide (sc_m_stream b = EmptyString)
  then st_throw (InvalidInputException "stream needs to be specified for a creator")
  else locator_operation await_locator (fun c => ecall (ec_create_stream c (sc_m_stream b) (sc_m_properties b))).

(** ** What an environment hands out

    [EnvironmentImpl::producer_builder] and the like: a builder that refers to
    the environment, which here is the argument of its [build]. *)
Definition producer_builder : ProducerBuilder := new_ProducerBuilder.
Definition consumer_builder : ConsumerBuilder := new_ConsumerBuilder.
Definition stream_creator : StreamCreator := new_StreamCreator.
