(* ===== verification/BuildersCorrect.v ===== *)
(** * What the builders build

    A chain of setters throws exactly when an argument is bad; what is built
    satisfies what the environment, the producer and the consumer rely on; a
    failed [build] leaves nothing running; and the overloads for temporaries
    agree with those for named builders. *)

From stdpp Require Import pretty.
From S2P Require Import Prelude Words OrdMap Types BinaryBuffer ClientCommands Messages Client Fluent ClientParameters Tasks Environment Semaphore Accumulator Producer ProducerSystem Consumer Builders.

(** ** Environments *)

Section environment.
Context {C : Type}.

Definition valid_environment (cfg : EConfig C) : Prop :=
  let p := ev_client_parameters cfg in
  ev_hosts cfg <> [] /\ 0 < ev_recovery_retry_delay cfg /\ 0 < get_rpc_timeout p /\
  0 <= get_requested_heartbeat p /\ get_codec p <> None.

Lemma eb_setter_valid (c : environment_call C) (b : EnvironmentBuilder C) :
  True -> valid_environment (environment_config b) ->
  match setter c b with
  | Val b' => eb_good c = true /\ valid_environment (environment_config b')
  | Throw e => eb_good c = false /\ is_InvalidInput e = true
  end.
Proof.
  intros _ (H1 & H2 & H3 & H4 & H5). destruct c; simpl; try (split; [done | by repeat split]).
  - unfold eb_hosts. case_bool_decide; by repeat split.
  - unfold eb_requested_heartbeat. destruct (Z.ltb_spec requested_heartbeat 0); repeat split; simpl; done || lia.
  - unfold eb_rpc_timeout. destruct (Z.leb_spec rpc_timeout 0); repeat split; simpl; done || lia.
  - unfold eb_recovery_retry_delay. destruct (Z.leb_spec recovery_retry_delay 0); repeat split; simpl; done || lia.
  - unfold eb_codec. destruct codec; by repeat split.
Qed.

(** C30: a chain of setters of an environment builder throws, an
    [InvalidInputException], exactly when some argument is not acceptable;
    otherwise the environment has a host to connect to, so that the choice of
    one is never undefined, positive timeout and retry delay, a heartbeat that is not negative and
    a codec. *)
Theorem environment_built_valid `{EnvironmentClients C W} (generator : nat -> nat) (qpid : C) (calls : list (environment_call C)) :
  match apply_calls calls (default_EnvironmentBuilder qpid) with
  | Val b =>
      forallb eb_good calls = true /\ valid_environment (environment_config b) /\
      forall e : EState W, exists host c e1,
        host ∈ eb_m_hosts b /\ get_locator_client (environment_config b) generator e = (Val c, e1) /\
        ec_create (with_shutdown_listener (Some LocatorShutdown) (with_host host (eb_m_client_parameters b))) (e_world e)
          = (c, e_world e1)
  | Throw ex => forallb eb_good calls = false /\ is_InvalidInput ex = true
  end.
Proof.
  pose proof (apply_calls_inv (fun b => valid_environment (environment_config b)) (fun _ => True) eb_good calls
                (default_EnvironmentBuilder qpid) eb_setter_valid ltac:(by apply Forall_true) ltac:(by repeat split)) as Hc.
  destruct (apply_calls calls _) as [b|ex]; [|done]. destruct Hc as [Hg Hv]. split; [done|]. split; [done|].
  intros e. destruct Hv as [Hne _].
  destruct (select_randomly_in generator (eb_m_hosts b) e Hne) as (host & n & Es & Hin).
  unfold get_locator_client. rewrite (ST_bind_Val _ _ _ _ _ Es). unfold client_create. simpl.
  destruct (ec_create _ (e_world e)) as [c w] eqn:Ec. by exists host, c, (put_eworld w (put_drawn n e)).
Qed.

End environment.

(** ** What a chain of calls leaves *)

(** The value of the last call that has one. *)
Fixpoint last_some {A B} (f : A -> option B) (l : list A) : option B :=
  match l with
  | [] => None
  | x :: l => match last_some f l with Some v => Some v | None => f x end
  end.

(** A member that [get] reads and that only the calls with a value of [f] set. *)
Lemma apply_calls_last `{Fluent B Call} {A} (get : B -> A) (f : Call -> option A) (calls : list Call) (b b' : B) :
  (forall c b1 b2, setter c b1 = Val b2 -> get b2 = default (get b1) (f c)) ->
  apply_calls calls b = Val b' -> get b' = default (get b) (last_some f calls).
Proof.
  intros Hf. revert b. induction calls as [|c calls IH]; intros b E; [by injection E as <-|].
  cbn [apply_calls] in E. destruct (setter c b) as [b1|ex] eqn:Es; [|discriminate E]. simpl in E.
  apply IH in E as ->. rewrite (Hf _ _ _ Es). simpl. by destruct (last_some f calls).
Qed.

(** ** Producers *)

Definition producer_stream (c : producer_call) : option string :=
  match c with ProdStream stream => Some stream | _ => None end.

Lemma pb_stream_last calls b :
  apply_calls calls new_ProducerBuilder = Val b -> pb_m_stream b = default EmptyString (last_some producer_stream calls).
Proof.
  apply (apply_calls_last pb_m_stream producer_stream). intros [] b1 b2; simpl;
    unfold pb_name, pb_stream, pb_batch_size, pb_batch_publishing_delay, pb_max_unconfirmed, pb_confirm_timeout, pb_enqueue_timeout;
    repeat case_match; by intros [= <-].
Qed.

Definition valid_producer (b : ProducerBuilder) : Prop :=
  str_size (pb_m_name b) <= 255 /\ 0 < pb_m_batch_size b /\ 0 < pb_m_max_unconfirmed b /\
  0 <= pb_m_batch_publishing_delay b /\ 0 <= pb_m_confirm_timeout b /\ 0 <= pb_m_enqueue_timeout b.

(** The argument is a [std::uint32_t]. *)
Definition pb_typed (c : producer_call) : Prop :=
  match c with ProdBatchSize n | ProdMaxUnconfirmed n => is_u32 n | _ => True end.

Lemma pb_setter_valid c b :
  pb_typed c -> valid_producer b ->
  match setter c b with
  | Val b' => pb_good c = true /\ valid_producer b'
  | Throw e => pb_good c = false /\ is_InvalidInput e = true
  end.
Proof.
  intros Ht (H1 & H2 & H3 & H4 & H5 & H6).
  destruct c; simpl in *; try unfold is_uint in Ht; unfold valid_producer; try (split; [done | by repeat split]).
  - unfold pb_name. destruct (Z.leb_spec 256 (str_size name)); repeat split; simpl; done || lia.
  - unfold pb_batch_size. destruct (Z.eqb_spec batch_size 0); repeat split; simpl; done || lia.
  - unfold pb_batch_publishing_delay. destruct (Z.ltb_spec batch_publishing_delay 0); repeat split; simpl; done || lia.
  - unfold pb_max_unconfirmed. destruct (Z.eqb_spec max_unconfirmed 0); repeat split; simpl; done || lia.
  - unfold pb_confirm_timeout. destruct (Z.ltb_spec confirm_timeout 0); repeat split; simpl; done || lia.
  - unfold pb_enqueue_timeout. destruct (Z.ltb_spec enqueue_timeout 0); repeat split; simpl; done || lia.
Qed.

Section producer.
Context {W : Type} `{ClientWorld W}.
Abbreviation PS := (@PState W).
Implicit Types p : PS.

(** What a start leaves alone: the semaphore and the queue of the accumulator. *)
Definition room p p' : Prop :=
  p_semaphore p' = p_semaphore p /\ m_capacity (p_accumulator p') = m_capacity (p_accumulator p) /\
  m_pending (p_accumulator p') = m_pending (p_accumulator p).

#[local] Instance room_preorder : PreOrder room.
Proof. split; [done|]. intros p1 p2 p3 (?&?&?) (?&?&?). repeat split; congruence. Qed.

Definition client_kept p p' : Prop := p_client p' = p_client p.

#[local] Instance client_kept_preorder : PreOrder client_kept.
Proof. split; [done|]. intros p1 p2 p3 ??. unfold client_kept in *. congruence. Qed.

Lemma onW_room {A} (m : ST W exn A) : preserves room (onW m).
Proof. intros p. unfold onW. by destruct (m (p_world p)). Qed.

Lemma onW_client {A} (m : ST W exn A) : preserves client_kept (onW m).
Proof. intros p. unfold onW. by destruct (m (p_world p)). Qed.

#[local] Hint Resolve onW_room onW_client : preserves.
#[local] Ltac keep R := apply (preserves_modify R); let Hs := fresh in (done || (intros ? Hs; exact Hs)).
#[local] Hint Extern 1 (preserves ?R (st_modify _)) => keep R : preserves.
#[local] Hint Extern 1 (preserves ?R (task_call _ _)) => keep R : preserves.

Lemma start_room cfg : preserves room (start cfg).
Proof.
  assert (forall s s', preserves room (compare_exchange s s' : ST PS exn bool)) as Hc.
  { intros s s'. apply (preserves_get room). intros p. by destruct (decide _). }
  unfold start, start_begin, start_finish, start_connect, get_client. auto 20 with preserves.
Qed.

Lemma start_connect_client cfg p u p' : start_connect cfg p = (Val u, p') -> p_client p' <> None.
Proof.
  unfold start_connect, get_client. intros E.
  apply ST_bind_inv in E as [(? & p1 & _ & E)|(? & _ & [=])].
  apply ST_bind_inv in E as [(c & p2 & _ & E)|(? & _ & [=])].
  apply ST_bind_inv in E as [(? & p3 & Em & E)|(? & _ & [=])]. injection Em as _ <-.
  match type of E with ?m _ = _ => assert (preserves client_kept m) as Hk by auto 20 with preserves end.
  specialize (Hk (set_client (Some c) p2)). rewrite E in Hk. unfold client_kept in Hk. simpl in Hk. congruence.
Qed.

Lemma start_started cfg p u p' : start cfg p = (Val u, p') -> p_status p' = Started /\ p_client p' <> None.
Proof.
  unfold start. intros E. apply ST_bind_inv in E as [(? & p1 & _ & E)|(? & _ & [=])].
  apply ST_bind_inv in E as [(? & p2 & Ec & E)|(? & _ & [=])]. apply start_connect_client in Ec.
  unfold start_finish, compare_exchange, mbind, ST_bind in E. cbn [st_get] in E.
  destruct (decide (p_status p2 = Starting)); [|discriminate]. injection E as _ <-. done.
Qed.

Definition not_stopped p p' : Prop := p_status p <> Stopped -> p_status p' <> Stopped.

#[local] Instance not_stopped_preorder : PreOrder not_stopped.
Proof. split; [intros p Hs; exact Hs|]. intros p1 p2 p3 H1 H2 Hs. apply H2, H1, Hs. Qed.

Lemma start_not_stopped cfg : preserves not_stopped (start cfg).
Proof.
  assert (forall s s', s' <> Stopped -> preserves not_stopped (compare_exchange s s' : ST PS exn bool)) as Hc.
  { intros s s' Hs. apply (preserves_get not_stopped). intros p. destruct (decide _); intros Hp; done. }
  assert (forall A (m : ST W exn A), preserves not_stopped (onW m)) as Hw.
  { intros A m p. unfold onW. destruct (m (p_world p)). intros Hp. exact Hp. }
  unfold start, start_begin, start_finish, start_connect, get_client. auto 20 with preserves.
Qed.

(** With room, [send] does not wait. *)
Lemma send_runs cfg `{Codec K} (codec : K) now expired id msg handler p :
  0 < m_available (p_semaphore p) -> m_pending (p_accumulator p) = [] -> 0 < m_capacity (p_accumulator p) ->
  is_Some (send cfg codec now expired id msg handler p).
Proof.
  intros Ha Hp Hc. unfold send, send_check, mbind at 1, ST_bind at 1. cbn [st_get].
  destruct (bool_decide (p_status p = Started)); [|by eexists]. cbn [mret ST_ret].
  unfold send_acquire, acquire, try_acquire_for, acquire_ready. rewrite (proj2 (Z.ltb_lt _ _) Ha). cbn [orb].
  destruct (pc_enqueue_timeout cfg =? 0); simpl; destruct (sem_destroyed (p_semaphore p)); simpl; try by eexists.
  all: unfold send_prepare, mbind at 1, ST_bind at 1; cbn [st_get p_accumulator set_semaphore];
    destruct (add_prepare _ _ _ _ _ _) as [m|e]; cbn [mret ST_ret]; [|by eexists];
    unfold send_commit, add_commit; cbn [p_accumulator set_semaphore]; rewrite Hp;
    rewrite (proj2 (Z.ltb_lt (lenZ []) (m_capacity _)) Hc); cbn [orb mbind option_bind];
    destruct (acc_destroyed _); by eexists.
Qed.

(** What [internal_stop] did, also when it threw on its way. *)
Definition shut p : Prop :=
  p_status p = Stopped /\ p_client p = None /\ acc_destroyed (p_accumulator p) = true /\ sem_destroyed (p_semaphore p) = true.

Definition shut_later p p' : Prop := shut p -> shut p'.

#[local] Instance shut_later_preorder : PreOrder shut_later.
Proof. split; [intros p Hs; exact Hs|]. intros p1 p2 p3 H1 H2 Hs. apply H2, H1, Hs. Qed.

Lemma onW_shut {A} (m : ST W exn A) : preserves shut_later (onW m).
Proof. intros p Hs. unfold onW. destruct (m (p_world p)). exact Hs. Qed.

#[local] Hint Resolve onW_shut : preserves.
#[local] Hint Extern 1 (preserves ?R (catch_stream _ _)) => apply (preserves_catch R); [|intros ?] : preserves.

Lemma stop_client_shut client : preserves shut_later (stop_client client : ST PS exn unit).
Proof. unfold stop_client. auto with preserves. Qed.

Lemma fail_all_shut code : preserves shut_later (fail_all_unconfirmed code : ST PS exn unit).
Proof.
  apply (preserves_get shut_later). intros p. apply (preserves_bind shut_later); [unfold fail_message; auto with preserves|]. intros _.
  apply (preserves_bind shut_later); [auto with preserves|]. intros _.
  apply (preserves_get shut_later). intros p'. destruct (extract_all (p_accumulator p')) as [ms a] eqn:E.
  injection E as <- <-. unfold mbind, ST_bind. cbn [st_modify].
  intros Hs. match goal with |- shut (st_iter ?f ?l ?q).2 => refine (preserves_iter shut_later f l _ q Hs) end.
  intros m. unfold fail_message. auto with preserves.
Qed.

Lemma stop_shut p : p_status p <> Stopped -> shut (stop p).2.
Proof.
  intros Hs. unfold stop, internal_stop.
  rewrite (ST_bind_Val (task_call StreamDeletedTask TaskDestroy) _ p tt _ eq_refl). set (p1 := set_task_calls _ p).
  rewrite (ST_bind_Val (destroy_tasks) _ p1 tt _ eq_refl). set (p2 := set_task_calls _ _).
  assert (stop_exchange p2 = (Val true, set_status Stopped p2)) as He.
  { unfold stop_exchange, mbind, ST_bind. cbn [st_get st_put]. now rewrite bool_decide_false. }
  rewrite (ST_bind_Val _ _ _ _ _ He). clearbody p2.
  rewrite (ST_bind_Val stop_accumulator _ _ tt _ eq_refl), (ST_bind_Val stop_semaphore _ _ tt _ eq_refl),
    (ST_bind_Val take_client _ _ _ _ eq_refl).
  match goal with |- shut (?m ?q).2 => cut (preserves shut_later m); [intros Hm; apply (Hm q); done|] end.
  auto using stop_client_shut, fail_all_shut with preserves.
Qed.

End producer.

(** C29: a producer builder throws an [InvalidInputException] exactly when an
    argument is bad, and [build] throws one for the stream exactly when no stream
    was given, or the last one given is empty; otherwise [build] returns a started producer with a client, which takes a
    first message without waiting for a permit or for room, or it throws what
    [start] threw and the producer is stopped, its client gone and its queues
    closed. *)
Theorem producer_built_ready `{ClientWorld W} delay (calls : list producer_call) (w : W) :
  Forall pb_typed calls ->
  match apply_calls calls new_ProducerBuilder with
  | Throw e => forallb pb_good calls = false /\ is_InvalidInput e = true
  | Val b =>
      forallb pb_good calls = true /\ valid_producer b /\
      pb_m_stream b = default EmptyString (last_some producer_stream calls) /\
      match pb_build delay b w with
      | (Val _, Some p) =>
          pb_m_stream b <> EmptyString /\ p_status p = Started /\ p_client p <> None /\
          forall (K : Type) (HK : Codec K) (codec : K) now expired id msg handler,
            is_Some (send (producer_config delay b) codec now expired id msg handler p)
      | (Throw e, Some p) =>
          pb_m_stream b <> EmptyString /\ shut p /\
          (start (producer_config delay b) (new_Producer (producer_config delay b) w)).1 = Throw e
      | (Throw e, None) => pb_m_stream b = EmptyString /\ e = STREAM_MISSING
      | (Val _, None) => False
      end
  end.
Proof.
  intros Ht.
  pose proof (apply_calls_inv valid_producer pb_typed pb_good calls new_ProducerBuilder pb_setter_valid Ht
                ltac:(repeat split; vm_compute; congruence)) as Hc.
  destruct (apply_calls calls new_ProducerBuilder) as [b|e] eqn:Eb; [|done]. destruct Hc as [Hg Hv]. do 2 (split; [done|]).
  split; [by apply pb_stream_last|].
  unfold pb_build, ProducerImpl_create, ProducerImpl_destroy. case_bool_decide as Hs; [done|].
  fold (producer_config delay b). set (cfg := producer_config delay b). cbv zeta.
  pose proof (start_room cfg (new_Producer cfg w)) as Hr. destruct (start cfg (new_Producer cfg w)) as [[u|e] p] eqn:E.
  - destruct (start_started _ _ _ _ E) as [H1 H2]. do 3 (split; [done|]). intros K HK codec now expired id msg handler.
    destruct Hr as (R1 & R2 & R3). simpl in *. destruct Hv as (_ & Hb & Hm & _).
    apply send_runs; rewrite ?R1, ?R2, ?R3; simpl; done.
  - split; [done|]. split; [|done]. apply stop_shut. pose proof (start_not_stopped cfg (new_Producer cfg w)) as Hn. rewrite E in Hn. by apply Hn.
Qed.

(** ** Consumers *)

(** Automatic cursor management stores the cursor after some number of messages
    or after some time. *)
Definition cursor_valid (c : AutomaticCursorConfiguration) : Prop :=
  0 <= acc_force_persist_delay c /\ (0 < acc_persist_frequency c \/ 0 < acc_force_persist_delay c).

Definition valid_consumer (b : ConsumerBuilder) : Prop :=
  str_size (qb_m_name b) <= 255 /\
  match qb_m_auto_cursor_config b with Some c => cursor_valid c | None => True end.

Definition qb_typed (c : consumer_call) : Prop :=
  match c with ConsAutomaticCursorManagement cursor => is_u32 (acc_persist_frequency cursor) | _ => True end.

Lemma qb_setter_valid c b :
  qb_typed c -> valid_consumer b ->
  match setter c b with
  | Val b' => qb_good c = true /\ valid_consumer b'
  | Throw e => qb_good c = false /\ is_InvalidInput e = true
  end.
Proof.
  intros Ht [H1 H2]. destruct c; simpl in *; unfold valid_consumer; try (split; [done | by repeat split]).
  - unfold qb_name. destruct (Z.leb_spec 256 (str_size name)); repeat split; simpl; done || lia.
  - unfold qb_automatic_cursor_management, is_uint in *. destruct (Z.ltb_spec (acc_force_persist_delay cursor) 0); simpl; [done|].
    destruct (Z.eqb_spec (acc_persist_frequency cursor) 0), (Z.eqb_spec (acc_force_persist_delay cursor) 0); simpl;
      unfold cursor_valid; repeat split; try done; lia.
Qed.

Definition consumer_stream (c : consumer_call) : option string :=
  match c with ConsStream stream => Some stream | _ => None end.

Lemma qb_stream_last calls b :
  apply_calls calls new_ConsumerBuilder = Val b -> qb_m_stream b = default EmptyString (last_some consumer_stream calls).
Proof.
  apply (apply_calls_last qb_m_stream consumer_stream). intros [] b1 b2; simpl;
    unfold qb_name, qb_automatic_cursor_management; repeat case_match; by intros [= <-].
Qed.

Section consumer.
Context {W : Type} `{ConsumerWorld W}.
Abbreviation QS := (@QState W).
Implicit Types q : QS.

Definition q_client_kept q q' : Prop := q_client q' = q_client q.

#[local] Instance q_client_kept_preorder : PreOrder q_client_kept.
Proof. split; [done|]. intros q1 q2 q3 ??. unfold q_client_kept in *. congruence. Qed.

Definition q_not_stopped q q' : Prop := q_status q <> QStopped -> q_status q' <> QStopped.

#[local] Instance q_not_stopped_preorder : PreOrder q_not_stopped.
Proof. split; [intros q Hs; exact Hs|]. intros q1 q2 q3 H1 H2 Hs. apply H2, H1, Hs. Qed.

Definition q_shut q : Prop := q_status q = QStopped /\ q_client q = None.
Definition q_shut_later q q' : Prop := q_shut q -> q_shut q'.

#[local] Instance q_shut_later_preorder : PreOrder q_shut_later.
Proof. split; [intros q Hs; exact Hs|]. intros q1 q2 q3 H1 H2 Hs. apply H2, H1, Hs. Qed.

(** A relation that looks only at the status and the client. *)
Lemma qcall_kept {A} (m : ST W exn A) (R : relation QS) :
  (forall q w, R q (put_world w q)) -> preserves R (qcall m).
Proof. intros HR q. unfold qcall. destruct (m (q_world q)). apply HR. Qed.

#[local] Ltac keep R := apply (preserves_modify R); let Hs := fresh in (done || (intros ? Hs; exact Hs)).
#[local] Hint Extern 1 (preserves ?R (st_modify _)) => keep R : preserves.
#[local] Hint Extern 1 (preserves ?R (qtask _ _)) => keep R : preserves.
#[local] Hint Extern 1 (preserves ?R (qcall _)) =>
  apply qcall_kept; let Hs := fresh in (done || (intros ? ? Hs; exact Hs)) : preserves.
#[local] Hint Extern 1 (preserves ?R (qcatch _ _)) => apply (preserves_catch R); [|intros ?] : preserves.
#[local] Hint Extern 1 (preserves ?R (q ← st_get; _)) => apply (preserves_get R) : preserves.

Lemma consumer_connect_client cfg q u q' : consumer_start_connect cfg q = (Val u, q') -> q_client q' <> None.
Proof.
  unfold consumer_start_connect, q_get_client. intros E.
  apply ST_bind_inv in E as [(? & q1 & _ & E)|(? & _ & [=])].
  apply ST_bind_inv in E as [(? & q2 & _ & E)|(? & _ & [=])].
  apply ST_bind_inv in E as [(c & q3 & _ & E)|(? & _ & [=])].
  apply ST_bind_inv in E as [(? & q4 & Em & E)|(? & _ & [=])]. injection Em as _ <-.
  match type of E with ?m _ = _ => assert (preserves q_client_kept m) as Hk end.
  { unfold schedule_persist. apply (preserves_bind q_client_kept); [auto with preserves|]. intros _.
    apply (preserves_bind q_client_kept); [auto with preserves|]. intros _.
    apply (preserves_get q_client_kept). intros q5. destruct (q_initial q5); [|done].
    cbn [deref]. revert q5. match goal with |- forall q5, q_client_kept q5 (?m q5).2 => change (preserves q_client_kept m) end.
    auto with preserves. }
  specialize (Hk (put_client (Some c) q3)). rewrite E in Hk. unfold q_client_kept in Hk. simpl in Hk. congruence.
Qed.

Lemma consumer_start_started cfg q u q' :
  consumer_start cfg q = (Val u, q') -> q_status q' = QStarted /\ q_client q' <> None.
Proof.
  unfold consumer_start. intros E. apply ST_bind_inv in E as [(? & q1 & _ & E)|(? & _ & [=])].
  apply ST_bind_inv in E as [(? & q2 & Ec & E)|(? & _ & [=])]. apply consumer_connect_client in Ec.
  unfold consumer_start_finish, q_compare_exchange, mbind, ST_bind in E. cbn [st_get] in E.
  destruct (decide (q_status q2 = QStarting)); [|discriminate]. injection E as _ <-. done.
Qed.

Lemma consumer_start_not_stopped cfg : preserves q_not_stopped (consumer_start cfg).
Proof.
  assert (forall s s', s' <> QStopped -> preserves q_not_stopped (q_compare_exchange s s' : ST QS exn bool)) as Hc.
  { intros s s' Hs. apply (preserves_get q_not_stopped). intros q. destruct (decide _); intros Hp; done. }
  assert (forall A (o : option A), preserves q_not_stopped (deref o : ST QS exn A)) as Hd.
  { intros A [a|]; [apply (preserves_ret q_not_stopped) | apply (preserves_throw q_not_stopped)]. }
  assert (preserves q_not_stopped (st_get : ST QS exn QS)) as Hg by (intros q Hs; exact Hs).
  unfold consumer_start, consumer_start_begin, consumer_start_finish, consumer_start_connect, q_get_client, schedule_persist.
  auto 20 with preserves.
Qed.

Lemma final_store_shut cfg c : preserves q_shut_later (q_final_store cfg c).
Proof.
  assert (forall A (o : option A), preserves q_shut_later (deref o : ST QS exn A)) as Hd.
  { intros A [a|]; [apply (preserves_ret q_shut_later) | apply (preserves_throw q_shut_later)]. }
  apply (preserves_get q_shut_later). intros q. revert q.
  assert (forall q0 : QS, preserves q_shut_later
    (match m_auto_cursor_config cfg with
     | Some _ => if 0 <? q_since_persist q0 then
         qcatch (offset ← deref (q_last_seen q0);
                 qcall (qw_store_offset c (qc_name cfg) (qc_stream cfg) offset) ;;
                 st_modify (fun q => put_stored (q_stored q ++ [offset]) q)) (fun _ => mret tt) else mret tt
     | None => mret tt end)) as Hm by auto 10 with preserves.
  intros q. apply Hm.
Qed.

Lemma consumer_stop_shut cfg q : q_status q <> QStopped -> q_shut (consumer_stop cfg q).2.
Proof.
  intros Hs. unfold consumer_stop, consumer_internal_stop.
  rewrite (ST_bind_Val (qtask QStreamDeletedTask QDestroy) _ q tt _ eq_refl). set (q1 := put_tasks _ q).
  destruct (q_destroy_tasks cfg q1) as [r q2] eqn:Ed.
  assert (r = Val tt /\ q_status q2 = q_status q) as [-> H2].
  { unfold q_destroy_tasks in Ed. destruct (persist_task_delay cfg); injection Ed as <- <-; done. }
  rewrite (ST_bind_Val _ _ _ _ _ Ed).
  assert (q_stop_exchange q2 = (Val true, put_status QStopped q2)) as He.
  { unfold q_stop_exchange, mbind, ST_bind. cbn [st_get st_put]. rewrite bool_decide_false by congruence. done. }
  rewrite (ST_bind_Val _ _ _ _ _ He), (ST_bind_Val q_take_client _ _ _ _ eq_refl).
  match goal with |- q_shut (?m ?x).2 => cut (preserves q_shut_later m); [intros Hm; apply (Hm x); done|] end.
  unfold q_unsubscribe. auto 10 using final_store_shut with preserves.
Qed.

End consumer.

(** A consumer builder throws an [InvalidInputException] exactly when an
    argument is bad, and [build] throws one for the stream exactly when no stream
    was given, or the last one given is empty; otherwise [build] returns a
    started consumer with a client, whose automatic cursor, if it has one, is
    stored after some number of messages or after some time, or it throws what
    [start] threw and the consumer is stopped without a client. *)
Theorem consumer_built_ready `{ConsumerWorld W} delay (calls : list consumer_call) (w : W) :
  Forall qb_typed calls ->
  match apply_calls calls new_ConsumerBuilder with
  | Throw e => forallb qb_good calls = false /\ is_InvalidInput e = true
  | Val b =>
      forallb qb_good calls = true /\
      qb_m_stream b = default EmptyString (last_some consumer_stream calls) /\
      match qb_build delay b w with
      | (Val _, Some q) =>
          qb_m_stream b <> EmptyString /\ q_status q = QStarted /\ q_client q <> None /\
          match m_auto_cursor_config (consumer_config delay b) with
          | Some c => 0 < acc_persist_frequency c \/ persist_task_delay (consumer_config delay b) <> None
          | None => True
          end
      | (Throw e, Some q) =>
          qb_m_stream b <> EmptyString /\ q_shut q /\
          (consumer_start (consumer_config delay b) (new_Consumer (consumer_config delay b) w)).1 = Throw e
      | (Throw e, None) => qb_m_stream b = EmptyString /\ e = STREAM_MISSING
      | (Val _, None) => False
      end
  end.
Proof.
  intros Ht.
  pose proof (apply_calls_inv valid_consumer qb_typed qb_good calls new_ConsumerBuilder qb_setter_valid Ht
                ltac:(split; [vm_compute; congruence | split; [vm_compute; congruence | left; reflexivity]])) as Hc.
  destruct (apply_calls calls new_ConsumerBuilder) as [b|e] eqn:Eb; [|done]. destruct Hc as [Hg Hv]. split; [done|].
  split; [by apply qb_stream_last|].
  unfold qb_build, ConsumerImpl_create, ConsumerImpl_destroy. case_bool_decide as Hs; [done|].
  fold (consumer_config delay b). set (cfg := consumer_config delay b). cbv zeta.
  destruct (consumer_start cfg (new_Consumer cfg w)) as [[u|e] q] eqn:E.
  - destruct (consumer_start_started _ _ _ _ E) as [H1 H2]. do 3 (split; [done|]). destruct Hv as [_ Hcur].
    unfold persist_task_delay, m_auto_cursor_config. simpl. case_bool_decide; [done|].
    destruct (qb_m_auto_cursor_config b) as [c|]; [|done]. destruct Hcur as [_ [Hf|Hd]]; [now left | right]. simpl.
    rewrite (proj2 (Z.eqb_neq _ 0)) by lia. done.
  - split; [done|]. split; [|done]. apply consumer_stop_shut. pose proof (consumer_start_not_stopped cfg (new_Consumer cfg w)) as Hn. rewrite E in Hn. by apply Hn.
Qed.

(** ** Streams *)

(** The property that a call sets, and its value. *)
Definition creator_property (c : creator_call) : option (string * string) :=
  match c with
  | CreateStream _ => None
  | CreateMaxLength bytes => Some ("max-length-bytes"%string, pretty bytes)
  | CreateMaxSegmentSize bytes => Some ("max-segment-size-bytes"%string, pretty bytes)
  | CreateMaxAge max_age => Some ("max-age"%string, String.append (pretty max_age) "s")
  | CreateLeaderLocator l => Some ("queue-leader-locator"%string, LOCATOR_TO_STRING l)
  end.

Definition creator_stream (c : creator_call) : option string :=
  match c with CreateStream stream => Some stream | _ => None end.

Definition sets_property (key : string) (c : creator_call) : option string :=
  '(k, v) ← creator_property c; if decide (key = k) then Some v else None.

Definition default_property (key : string) : option string :=
  if decide (key = "queue-leader-locator"%string) then Some "least-leaders"%string else None.

Lemma sc_setter_total c b :
  exists b', setter c b = Val b' /\
    sc_m_stream b' = default (sc_m_stream b) (creator_stream c) /\
    (om_sorted (sc_m_properties b) -> om_sorted (sc_m_properties b')) /\
    forall key, om_find key (sc_m_properties b') =
      match sets_property key c with Some v => Some v | None => om_find key (sc_m_properties b) end.
Proof.
  assert (forall k v, (om_sorted (sc_m_properties b) -> om_sorted (sc_m_properties (sc_set_property k v b))) /\
    forall key, om_find key (sc_m_properties (sc_set_property k v b)) =
      match (if decide (key = k) then Some v else None) with Some v => Some v | None => om_find key (sc_m_properties b) end) as Hp.
  { intros k v. split; [apply om_assign_sorted|]. intros key. unfold sc_set_property. simpl.
    destruct (decide (key = k)) as [->|]; [apply om_find_assign_eq | now apply om_find_assign_ne]. }
  destruct c; eexists; (split; [reflexivity|]); (split; [reflexivity|]); try apply Hp; done.
Qed.

Lemma sc_apply_calls calls b :
  exists b', apply_calls calls b = Val b' /\
    sc_m_stream b' = default (sc_m_stream b) (last_some creator_stream calls) /\
    (om_sorted (sc_m_properties b) -> om_sorted (sc_m_properties b')) /\
    forall key, om_find key (sc_m_properties b') =
      match last_some (sets_property key) calls with Some v => Some v | None => om_find key (sc_m_properties b) end.
Proof.
  revert b. induction calls as [|c calls IH]; intros b; [by exists b|].
  destruct (sc_setter_total c b) as (b1 & E1 & S1 & O1 & P1). destruct (IH b1) as (b2 & E2 & S2 & O2 & P2).
  exists b2. cbn [apply_calls last_some]. rewrite E1. simpl. split; [done|]. split; [|split; [auto|]].
  - rewrite S2, S1. now destruct (last_some creator_stream calls).
  - intros key. rewrite P2, P1. now destruct (last_some (sets_property key) calls).
Qed.

(** A stream is created, over the locator, with the name last given and with
    exactly the properties that were set, each with the value of the last call
    that set it, and the default choice of the leader when none was made; without a
    name nothing is asked of the broker. *)
Theorem stream_created `{EnvironmentClients C W} (await_locator : EState W -> EState W) (calls : list creator_call) (e : EState W) :
  exists b, apply_calls calls new_StreamCreator = Val b /\
    sc_m_stream b = default EmptyString (last_some creator_stream calls) /\
    om_sorted (sc_m_properties b) /\
    (forall key, om_find key (sc_m_properties b) =
       match last_some (sets_property key) calls with Some v => Some v | None => default_property key end) /\
    let '(r, e') := sc_create await_locator b e in
    if decide (sc_m_stream b = EmptyString) then is_val r = false /\ e' = e
    else
      let operation l := ecall (ec_create_stream l (sc_m_stream b) (sc_m_properties b)) in
      exists l e1, last_turn await_locator operation e l e1 /\
        match l with Some l => operation l e1 = (r, e') | None => r = Throw LOCATOR_NOT_AVAILABLE end.
Proof.
  destruct (sc_apply_calls calls new_StreamCreator) as (b & E & S & O & P). exists b. split; [done|]. split; [done|].
  split; [apply O; vm_compute; repeat constructor|]. split.
  { intros key. rewrite P. destruct (last_some (sets_property key) calls); [done|]. unfold default_property. simpl.
    now destruct (decide _). }
  unfold sc_create. destruct (decide (sc_m_stream b = EmptyString)) as [Hs|Hs].
  - now rewrite bool_decide_true.
  - rewrite bool_decide_false by done. destruct (locator_operation await_locator _ e) as [r e'] eqn:El.
    now apply locator_attempts_inv in El.
Qed.

(** ** The overloads *)

(** A chain on a named object and one on temporaries have the same result, and
    neither uses an object that was moved away. *)
Definition chains_agree {B Call} `{Fluent B Call} (calls : list Call) (b : B) : Prop :=
  match lvalue_chain calls (Live b) with
  | (Val _, Live b') => rvalue_chain calls b = Val b'
  | (Throw e, Live _) => rvalue_chain calls b = Throw e
  | (_, MovedFrom) => False
  end.

Lemma chains_agree_all `{Fluent B Call} (calls : list Call) (b : B) : chains_agree calls b.
Proof.
  unfold chains_agree. rewrite rvalue_chain_apply. pose proof (lvalue_chain_apply calls b) as Hl.
  destruct (apply_calls calls b) as [b'|e]; [now rewrite Hl|]. destruct Hl as [b' Hl]. now rewrite Hl.
Qed.

(** For every builder and for the parameters of a client, a chain of the
    overloads for temporaries computes what the same chain of the overloads for
    named objects computes, exceptions included; and building from a temporary
    builds what building from a named object builds. *)
Theorem overloads_agree {C} :
  (forall calls (p : ClientParameters C), chains_agree calls p) /\
  (forall calls (b : EnvironmentBuilder C), chains_agree calls b) /\
  (forall calls (b : ProducerBuilder), chains_agree calls b) /\
  (forall calls (b : ConsumerBuilder), chains_agree calls b) /\
  (forall calls (b : StreamCreator), chains_agree calls b) /\
  (forall calls (b : MessageBuilder), chains_agree calls b) /\
  (forall (W : Type) (HW : EnvironmentClients C W) generator (b : EnvironmentBuilder C) (w : W),
     (eb_build_rvalue generator (Live b) w).1 = eb_build generator b w) /\
  (forall (W : Type) (HW : ClientWorld W) delay b (w : W), (pb_build_rvalue delay (Live b) w).1 = pb_build delay b w) /\
  (forall (W : Type) (HW : ConsumerWorld W) delay b (w : W), (qb_build_rvalue delay (Live b) w).1 = qb_build delay b w) /\
  (forall b, (build_rvalue (Live b)).1 = Val (build b)).
Proof. repeat split; auto using chains_agree_all. Qed.
