(* ===== verification/UnitTests.v ===== *)
(** * The unit tests of producers and consumers

    [tests/producer.cpp] and [tests/consumer.cpp] run a producer or a consumer,
    built by its builder, against a mock of the environment and of the client.
    This file has the mock, which records the calls and answers from a script,
    the fixture, whose clock and background tasks are explicit, and every test:
    an expectation of the test that does not hold makes it [Throw].

    The tests of [tests/reschedulable_task.cpp] repeat runs of real threads to
    find a deadlock or a late call; [TaskHandles] and [Tasks] prove what they
    look for of every interleaving. *)

From stdpp Require Import functions.
From S2P Require Import Prelude Words OrdMap Types ClientCommands Messages Fluent Semaphore Accumulator Producer ProducerSystem ProducerAlone Consumer Builders.

(** ** The mock *)

Inductive mock_call :=
| MRegister
| MUnregister
| MGetClient (stream : string)
| MStart
| MStop
| MQuerySequence (publisher_reference stream : string)
| MDeclarePublisher (publisher_id : Z) (publisher_reference stream : string)
| MDeletePublisher (publisher_id : Z)
| MPublishEncoded (publisher_id : Z) (messages : list PublishMessage)
| MQueryOffset (reference stream : string)
| MSubscribe (subscription_id : Z) (stream : string) (offset : OffsetSpecification)
| MUnsubscribe (subscription_id : Z)
| MStoreOffset (reference stream : string) (offset : Z)
| MCredit (subscription_id credit : Z).

#[export] Instance PublishMessage_eq_dec : EqDecision PublishMessage.
Proof. solve_decision. Defined.

#[export] Instance mock_call_eq_dec : EqDecision mock_call.
Proof. solve_decision. Defined.

(** [mk_clients] and [mk_starts] are the [WillOnce] clauses of the functions
    that get a client and of [start], in order; the default action follows. *)
Record Mock := MkMock {
  mk_log : list mock_call;
  mk_clients : list (outcome exn unit);
  mk_starts : list (outcome exn unit);
  mk_stored : option Z;
  mk_frame_size : Z
}.

Definition nice_mock : Mock := MkMock [] [] [] None (1024 * 1024).

Definition called (c : mock_call) : ST Mock exn unit :=
  st_modify (fun m => MkMock (mk_log m ++ [c]) (mk_clients m) (mk_starts m) (mk_stored m) (mk_frame_size m)).

(** The next clause, or the default. *)
Definition next_action (l : list (outcome exn unit)) : outcome exn unit * list (outcome exn unit) :=
  match l with [] => (Val tt, []) | a :: l => (a, l) end.

Definition client_action : ST Mock exn unit := fun m =>
  let '(a, l) := next_action (mk_clients m) in
  (a, MkMock (mk_log m) l (mk_starts m) (mk_stored m) (mk_frame_size m)).

Definition start_action : ST Mock exn unit := fun m =>
  let '(a, l) := next_action (mk_starts m) in
  (a, MkMock (mk_log m) (mk_clients m) l (mk_stored m) (mk_frame_size m)).

Definition mock_get_client (stream : string) : ST Mock exn nat :=
  called (MGetClient stream) ;; client_action ;; mret 0%nat.

Definition mock_start : ST Mock exn unit := called MStart ;; start_action.

#[export, refine] Instance mock_ClientWorld : ClientWorld Mock := {|
  cw_register_producer := called MRegister;
  cw_unregister_producer := called MUnregister;
  cw_get_producer_client := mock_get_client;
  cw_start _ := mock_start;
  cw_stop _ := called MStop;
  cw_max_frame_size _ := mk_frame_size;
  cw_query_publisher_sequence _ reference stream := called (MQuerySequence reference stream) ;; st_gets mk_stored;
  cw_declare_publisher _ id reference stream := called (MDeclarePublisher id reference stream);
  cw_delete_publisher _ id := called (MDeletePublisher id);
  cw_publish_encoded _ id messages := called (MPublishEncoded id messages);
  cw_changes _ _ := True
|}.
Proof. discriminate. Defined.

#[export] Instance mock_ConsumerWorld : ConsumerWorld Mock := {|
  qw_environment := mret tt;
  qw_register_consumer := called MRegister;
  qw_unregister_consumer := called MUnregister;
  qw_get_consumer_client := mock_get_client;
  qw_start _ := mock_start;
  qw_stop _ := called MStop;
  qw_query_offset _ reference stream := called (MQueryOffset reference stream) ;; st_gets mk_stored;
  qw_subscribe _ id stream offset _ _ := called (MSubscribe id stream offset);
  qw_unsubscribe _ id := called (MUnsubscribe id);
  qw_store_offset _ reference stream offset := called (MStoreOffset reference stream offset);
  qw_credit _ id credit := called (MCredit id credit)
|}.

(** ** The fixture

    The object under test, the time, and what is scheduled: a task is idle, due
    at some time, or destroyed. *)

Inductive slot := Idle | Due (time : Z) | Destroyed.

(** What the fixture needs of the object: its tasks, the calls on them that it
    has made ([None] destroys), and what a task runs. *)
Class Tested (O K : Type) `{EqDecision K} := {
  t_kinds : list K;
  t_calls : O -> list (K * option Z);
  t_forget : O -> O;
  t_run : Z -> K -> O -> O;
  t_destroy : O -> O;
  t_mock : O -> Mock
}.

Record Fixture (O K : Type) := MkFixture {
  fx_now : Z;
  fx_slots : K -> slot;
  fx_object : O
}.
Arguments MkFixture {O K}.
Arguments fx_now {O K}.
Arguments fx_slots {O K}.
Arguments fx_object {O K}.

Section fixture.
Context {O K : Type} `{Tested O K}.

Abbreviation FX := (Fixture O K).
Abbreviation T A := (ST FX string A).

Definition EXPECT (what : string) (b : bool) : T unit := if b then mret tt else st_throw what.

Definition reschedule (now : Z) (call : option Z) (s : slot) : slot :=
  match s, call with
  | Destroyed, _ | _, None => Destroyed
  | _, Some delay => Due (now + delay)
  end.

(** The object after some step: its calls reach the tasks. *)
Definition put_object (o : O) (f : FX) : FX :=
  MkFixture (fx_now f)
    (fold_left (fun s kc => <[kc.1 := reschedule (fx_now f) kc.2 (s kc.1)]> s) (t_calls o) (fx_slots f))
    (t_forget o).

(** The task that is due first. *)
Definition earlier (s : K -> slot) (best : option (K * Z)) (k : K) : option (K * Z) :=
  match s k, best with
  | Due t, Some (_, t') => if t <? t' then Some (k, t) else best
  | Due t, None => Some (k, t)
  | _, _ => best
  end.

Definition next_due (f : FX) : option (K * Z) := fold_left (earlier (fx_slots f)) t_kinds None.

Definition run_due (k : K) (t : Z) (f : FX) : FX :=
  let now := Z.max (fx_now f) t in
  put_object (t_run now k (fx_object f)) (MkFixture now (<[k := Idle]> (fx_slots f)) (fx_object f)).

(** [future.wait_for]: the background thread runs what is due until the promise
    is set or the time is over. *)
Fixpoint wait_until (fuel : nat) (deadline : Z) (ready : O -> bool) (f : FX) : bool * FX :=
  if ready (fx_object f) then (true, f)
  else
    match fuel, next_due f with
    | S fuel, Some (k, t) => if t <=? deadline then wait_until fuel deadline ready (run_due k t f) else (false, f)
    | _, _ => (false, f)
    end.

Definition expect_ready (ms : Z) (ready : O -> bool) : T unit := fun f =>
  let '(b, f) := wait_until 100 (fx_now f + ms) ready f in
  EXPECT "future_status::ready" b f.

(** The body, then the end of the scope: the last pointer to the object goes
    away, and the expectations on the mock are checked. *)
Definition run_test (o : O) (body : T unit) (expected : list mock_call -> bool) : outcome string unit :=
  let '(r, f) := body (put_object o (MkFixture 0 (fun _ => Idle) o)) in
  _ ← r;
  if expected (mk_log (t_mock (t_destroy (fx_object f)))) then Val tt else Throw "mock expectations"%string.

End fixture.

(** How often the log has a call that satisfies [b]. *)
Definition times (b : mock_call -> bool) (log : list mock_call) : nat := length (filter (fun c => b c = true) log).

Definition is_call (c c' : mock_call) : bool := bool_decide (c = c').

Definition is_publish (test : list PublishMessage -> bool) (c : mock_call) : bool :=
  match c with MPublishEncoded _ messages => test messages | _ => false end.
Definition is_start (c : mock_call) : bool := is_call MStart c.
Definition is_get_client (c : mock_call) : bool := match c with MGetClient _ => true | _ => false end.
Definition is_store (c : mock_call) : bool := match c with MStoreOffset _ _ _ => true | _ => false end.
Definition is_subscribe (offset : OffsetSpecification -> bool) (c : mock_call) : bool :=
  match c with MSubscribe _ _ o => offset o | _ => false end.

Definition size_is (n : nat) (messages : list PublishMessage) : bool := bool_decide (length messages = n).
Definition has_id (id : Z) (messages : list PublishMessage) : bool :=
  existsb (fun m => pm_publishing_id m =? id) messages.

(** ** The producer's tests *)

Definition stream_name : string := "my-stream".
Definition publisher_name : string := "my-publisher".

Abbreviation ProducerUnderTest := (ProducerConfig * @PState Mock)%type.

Definition producer_task `{ClientWorld W} (now : Z) (k : ProducerTask) (cfg : ProducerConfig) : ST (@PState W) exn unit :=
  match k with
  | BatchPublishTask => publish_batch cfg
  | ConfirmTimeoutTask => check_confirm_timeout cfg now
  | ReconnectTask => reconnect_to_server cfg
  | DelayedReconnectTask => delayed_reconnect cfg
  | StreamDeletedTask => internal_stop (rc_value StreamDoesNotExist)
  end.

(** [op] on the producer, and what it leaves behind. *)
Definition producer_do {A} (op : ST (@PState Mock) exn A) (o : ProducerUnderTest) : outcome exn A * ProducerUnderTest :=
  let '(r, p) := op o.2 in (r, (o.1, retire_all (length (p_retired p)) p)).

Definition producer_task_delay (c : TaskCall) : option Z :=
  match c with ScheduleNow => Some 0 | ScheduleAfter delay => Some delay | TaskDestroy => None end.

#[export] Instance producer_Tested : Tested ProducerUnderTest ProducerTask := {|
  t_kinds := [StreamDeletedTask; ReconnectTask; DelayedReconnectTask; BatchPublishTask; ConfirmTimeoutTask];
  t_calls o := map (fun kc => (kc.1, producer_task_delay kc.2)) (p_task_calls o.2);
  t_forget o := (o.1, set_task_calls [] o.2);
  t_run now k o := (producer_do (producer_task now k o.1) o).2;
  t_destroy o := (producer_do stop o).2;
  t_mock o := p_world o.2
|}.

Abbreviation PT A := (ST (Fixture ProducerUnderTest ProducerTask) string A).

(** An operation of the test's thread; its exception is a result. *)
Definition perform {A} (op : ProducerConfig -> Z -> ST (@PState Mock) exn A) : PT (outcome exn A) := fun f =>
  let '(r, o) := producer_do (op (fx_object f).1 (fx_now f)) (fx_object f) in (Val r, put_object o f).

(** [send] and its wait, which the time-out ends. *)
Definition send_waiting (id : Z) (message : Message) (handler : nat) (cfg : ProducerConfig) (now : Z) :
  ST (@PState Mock) exn unit := fun p =>
  match send cfg MkRawCodec now false id message (Some handler) p with
  | Some r => r
  | None => default (Throw UndefinedBehaviour, p)
              (send cfg MkRawCodec (now + pc_enqueue_timeout cfg) true id message (Some handler) p)
  end.

Definition send_with_id (id : Z) (message : Message) (handler : nat) : PT (outcome exn unit) :=
  perform (send_waiting id message handler).

Definition send_next (message : Message) (handler : nat) : PT (outcome exn unit) :=
  perform (fun cfg now => id ← next_publishing_id; send_waiting id message handler cfg now).

Definition flush_producer : PT (outcome exn unit) := perform (fun cfg _ => flush cfg).

Definition NO_THROW {A} (m : PT (outcome exn A)) : PT unit := r ← m; EXPECT "no exception" (is_val r).
Definition THROWS {A} (test : exn -> bool) (m : PT (outcome exn A)) : PT unit :=
  r ← m; EXPECT "throws" match r with Val _ => false | Throw e => test e end.

Definition throws_producer (code : ProducerErrorCode) (e : exn) : bool :=
  match e with ProducerException c _ => bool_decide (c = code) | _ => false end.
Definition throws_invalid_input (e : exn) : bool :=
  match e with InvalidInputException _ => true | _ => false end.

Definition hello : Message := build (body_string "hello" new_MessageBuilder).

(** What handler [h] was called with. *)
Definition confirmations (h : nat) (o : ProducerUnderTest) : list ConfirmationStatus :=
  map snd (filter (fun c => c.1 = h) (handler_calls o.2)).

Definition log_of (o : ProducerUnderTest) : list mock_call := mk_log (p_world o.2).

Definition has_published (o : ProducerUnderTest) : bool := bool_decide (0 < times (is_publish (fun _ => true)) (log_of o))%nat.

(** The messages that reached the client. *)
Definition saved_messages (o : ProducerUnderTest) : list PublishMessage :=
  concat (map (fun c => match c with MPublishEncoded _ ms => ms | _ => [] end) (log_of o)).

(** [producer_builder()] and the calls of the test; [build] and the body. *)
Definition producer_test (m : Mock) (calls : list producer_call) (body : PT unit) (expected : list mock_call -> bool) :
  outcome string unit :=
  match apply_calls ([ProdStream stream_name; ProdBatchPublishingDelay 0; ProdConfirmTimeout 0; ProdEnqueueTimeout 0] ++ calls)
          new_ProducerBuilder with
  | Val b =>
      match pb_build 1 b m with
      | (Val _, Some p) => run_test (producer_config 1 b, p) body expected
      | _ => Throw "build"%string
      end
  | Throw _ => Throw "builder"%string
  end.

Definition ProducerTest_BasicStartStop : outcome string unit :=
  producer_test nice_mock [] (mret tt)
    (fun log => bool_decide (filter (fun c => is_get_client c = false) log =
       [MRegister; MStart; MDeclarePublisher 0 EmptyString stream_name; MDeletePublisher 0; MStop; MUnregister])).

Definition ProducerTest_NamedPublisher : outcome string unit :=
  producer_test (MkMock [] [] [] (Some 123) (1024 * 1024)) [ProdName publisher_name]
    (NO_THROW (send_next hello 0) ;; NO_THROW flush_producer)
    (fun log =>
       bool_decide (times (is_call (MDeclarePublisher 0 publisher_name stream_name)) log = 1%nat) &&
       bool_decide (times (is_call (MDeletePublisher 0)) log = 1%nat) &&
       bool_decide (times (is_call (MQuerySequence publisher_name stream_name)) log = 1%nat) &&
       bool_decide (times (is_publish (fun _ => true)) log = 1%nat) &&
       bool_decide (times (is_publish (fun ms => size_is 1 ms && has_id 124 ms)) log = 1%nat)).

(** [publish_encoded] is called [n] times, each time with [size] messages. *)
Definition publish_times (n size : nat) (log : list mock_call) : bool :=
  bool_decide (times (is_publish (fun _ => true)) log = n) &&
  bool_decide (times (is_publish (size_is size)) log = n).

Definition ProducerTest_MessageTooBig : outcome string unit :=
  producer_test (MkMock [] [] [] None 100) [ProdMaxUnconfirmed 1; ProdEnqueueTimeout 1000]
    (THROWS throws_invalid_input (send_next (build (body_vector (replicate 101 x00) new_MessageBuilder)) 0) ;;
     NO_THROW (send_next hello 0) ;;
     NO_THROW flush_producer)
    (publish_times 1 1).

Definition ProducerTest_PeriodicFlush : outcome string unit :=
  producer_test nice_mock [ProdBatchSize 5; ProdBatchPublishingDelay 1]
    (NO_THROW (send_next hello 0) ;; expect_ready 1000 has_published)
    (publish_times 1 1).

Definition ProducerTest_BatchFullFlush : outcome string unit :=
  producer_test nice_mock [ProdBatchSize 5]
    (st_iter (fun i => NO_THROW (send_next hello i)) (seq 0 5) ;; expect_ready 0 has_published)
    (publish_times 1 5).

Definition ProducerTest_ExplicitFlush : outcome string unit :=
  producer_test nice_mock [ProdBatchSize 5]
    (NO_THROW (send_next hello 0) ;; NO_THROW flush_producer ;; expect_ready 0 has_published)
    (publish_times 1 1).

Definition ProducerTest_ExplicitPublishingId : outcome string unit :=
  producer_test nice_mock []
    (NO_THROW (send_with_id 123 hello 0) ;;
     NO_THROW flush_producer ;;
     f ← st_get;
     EXPECT "messages" (size_is 1 (saved_messages (fx_object f)) && has_id 123 (saved_messages (fx_object f))))
    (publish_times 1 1).

Definition ProducerTest_EnqueueTimeout : outcome string unit :=
  producer_test nice_mock [ProdMaxUnconfirmed 1; ProdEnqueueTimeout 1]
    (NO_THROW (send_next hello 0) ;;
     NO_THROW flush_producer ;;
     THROWS (throws_producer MessageEnqueuingFailed) (send_next hello 1))
    (publish_times 1 1).

(** Handler [h] was called [n] times, with this status and code. *)
Definition notified (h n : nat) (confirmed : bool) (code : Z) (o : ProducerUnderTest) : bool :=
  bool_decide (length (confirmations h o) = n) &&
  forallb (fun s => eqb (cs_confirmed s) confirmed && (cs_status_code s =? code)) (confirmations h o).

Definition ProducerTest_ConfirmTimeout : outcome string unit :=
  producer_test nice_mock [ProdConfirmTimeout 1; ProdMaxUnconfirmed 1; ProdEnqueueTimeout 1000]
    (NO_THROW (send_next hello 0) ;;
     NO_THROW flush_producer ;;
     expect_ready 1000 (notified 0 1 false (pec_value ConfirmTimeout)) ;;
     NO_THROW (send_next hello 1) ;;
     NO_THROW flush_producer)
    (publish_times 2 1).

Definition ProducerTest_StopFailsUnconfirmed : outcome string unit :=
  producer_test nice_mock []
    (NO_THROW (send_next hello 0) ;;
     NO_THROW flush_producer ;;
     NO_THROW (perform (fun _ _ => stop)) ;;
     f ← st_get;
     EXPECT "invoked" (notified 0 1 false (pec_value ProducerStopped) (fx_object f)))
    (publish_times 1 1).

(** The listeners that the producer gave to the client. *)
Definition publish_confirm_listener (id : Z) : PT (outcome exn unit) := perform (fun _ _ => listener_call (handle_publish_confirm id)).
Definition publish_error_listener (id code : Z) : PT (outcome exn unit) := perform (fun _ _ => listener_call (handle_publish_error id code)).
Definition shutdown_listener (reason : ShutdownReason) : PT (outcome exn unit) :=
  perform (fun _ _ => handle_shutdown true reason).
Definition metadata_listener (stream : string) : PT (outcome exn unit) :=
  perform (fun cfg _ => handle_metadata_update cfg stream).

(** Three messages with one handler, and [answer] for each that the client got. *)
Definition propagation (answer : Z -> PT (outcome exn unit)) (confirmed : bool) (code : Z) : outcome string unit :=
  producer_test nice_mock []
    (st_iter (fun _ => NO_THROW (send_next hello 0)) (seq 0 3) ;;
     NO_THROW flush_producer ;;
     f ← st_get;
     st_iter (fun m => NO_THROW (answer (pm_publishing_id m))) (saved_messages (fx_object f)) ;;
     f ← st_get;
     EXPECT "handler" (notified 0 3 confirmed code (fx_object f)) ;;
     EXPECT "publishing id" (forallb (fun s => has_id (cs_publishing_id s) (saved_messages (fx_object f)))
                                     (confirmations 0 (fx_object f))))
    (fun log => bool_decide (times is_get_client log = 1%nat) &&
                bool_decide (times (is_publish (fun _ => true)) log = 1%nat)).

Definition ProducerTest_ConfirmPropagation : outcome string unit :=
  propagation publish_confirm_listener true (rc_value Ok).

Definition ProducerTest_ConfirmErrorPropagation : outcome string unit :=
  propagation (fun id => publish_error_listener id (rc_value StreamDoesNotExist)) false (rc_value StreamDoesNotExist).

Definition ProducerTest_ReconnectRetries : outcome string unit :=
  producer_test (MkMock [] [] [Val tt; Throw (IOException "remote host not available"); Val tt] None (1024 * 1024)) []
    (NO_THROW (shutdown_listener Unknown) ;;
     expect_ready 1000 (fun o => bool_decide (times (is_call (MDeclarePublisher 0 EmptyString stream_name)) (log_of o) = 2%nat)))
    (fun log => bool_decide (times is_start log = 3%nat) &&
                bool_decide (times (is_call (MDeclarePublisher 0 EmptyString stream_name)) log = 2%nat)).

Definition ProducerTest_ReconnectResends : outcome string unit :=
  let resent := is_publish (fun ms => size_is 1 ms && has_id 0 ms) in
  producer_test nice_mock []
    (NO_THROW (send_with_id 0 hello 0) ;;
     NO_THROW flush_producer ;;
     NO_THROW (shutdown_listener Unknown) ;;
     expect_ready 1000 (fun o => bool_decide (times resent (log_of o) = 2%nat)))
    (fun log => bool_decide (times resent log = 2%nat) &&
                bool_decide (times (is_publish (fun _ => true)) log = 2%nat)).

Definition ProducerTest_StreamDeleted : outcome string unit :=
  producer_test (MkMock [] [Val tt; Throw (ResponseErrorException (rc_value StreamDoesNotExist))] [] None (1024 * 1024)) []
    (NO_THROW (send_next hello 0) ;;
     NO_THROW (metadata_listener stream_name) ;;
     expect_ready 1000 (notified 0 1 false (rc_value StreamDoesNotExist)) ;;
     THROWS (throws_producer ProducerStopped) (send_next hello 1))
    (fun log => bool_decide (times is_get_client log = 2%nat)).

Definition producer_tests : list (outcome string unit) :=
  [ProducerTest_BasicStartStop; ProducerTest_NamedPublisher; ProducerTest_MessageTooBig; ProducerTest_PeriodicFlush;
   ProducerTest_BatchFullFlush; ProducerTest_ExplicitFlush; ProducerTest_ExplicitPublishingId; ProducerTest_EnqueueTimeout;
   ProducerTest_ConfirmTimeout; ProducerTest_StopFailsUnconfirmed; ProducerTest_ConfirmPropagation;
   ProducerTest_ConfirmErrorPropagation; ProducerTest_ReconnectRetries; ProducerTest_ReconnectResends;
   ProducerTest_StreamDeleted].

(** ** The consumer's tests *)

Definition consumer_name : string := "my-consumer".

(** [chunk_context(offset, committed_chunk_id)]. *)
Definition test_chunk_context (offset : Z) (committed_chunk_id : option Z) : ChunkContext :=
  MkChunkContext 0 offset 1 committed_chunk_id.

Abbreviation ConsumerUnderTest := (ConsumerConfig * @QState Mock)%type.

Definition consumer_task (k : ConsumerTask) (cfg : ConsumerConfig) : ST (@QState Mock) exn unit :=
  match k with
  | QPersistCursorTask => store_current_offset cfg
  | QReconnectTask => consumer_reconnect cfg
  | QDelayedReconnectTask => consumer_delayed_reconnect cfg
  | QStreamDeletedTask => consumer_internal_stop cfg
  end.

Definition consumer_task_delay (c : ConsumerTaskCall) : option Z :=
  match c with QScheduleNow => Some 0 | QScheduleAfter delay => Some delay | QDestroy => None end.

#[export] Instance consumer_Tested : Tested ConsumerUnderTest ConsumerTask := {|
  t_kinds := [QStreamDeletedTask; QReconnectTask; QDelayedReconnectTask; QPersistCursorTask];
  t_calls o := map (fun kc => (kc.1, consumer_task_delay kc.2)) (q_tasks o.2);
  t_forget o := (o.1, put_tasks [] o.2);
  t_run _ k o := (o.1, (consumer_task k o.1 o.2).2);
  t_destroy o := (o.1, (consumer_stop o.1 o.2).2);
  t_mock o := q_world o.2
|}.

Abbreviation QT A := (ST (Fixture ConsumerUnderTest ConsumerTask) string A).

Definition consumer_perform (op : ConsumerConfig -> ST (@QState Mock) exn unit) : QT unit := fun f =>
  let '(r, q) := op (fx_object f).1 (fx_object f).2 in
  EXPECT "no exception" (is_val r) (put_object ((fx_object f).1, q) f).

(** [get_message_listener()(0, chunk_context(offset), offset, message)]. *)
Definition message_listener (offset : Z) : QT unit :=
  consumer_perform (fun cfg => handle_message cfg (test_chunk_context offset None) offset hello).
Definition consumer_shutdown_listener (reason : ShutdownReason) : QT unit :=
  consumer_perform (fun _ => consumer_shutdown true reason).
Definition consumer_metadata_listener (stream : string) : QT unit :=
  consumer_perform (fun cfg => consumer_metadata_update cfg stream).

Definition consumer_log (o : ConsumerUnderTest) : list mock_call := mk_log (q_world o.2).

Definition log_has (n : nat) (b : mock_call -> bool) (o : ConsumerUnderTest) : bool :=
  bool_decide (times b (consumer_log o) = n).

Definition expect_consumed (n : nat) : QT unit :=
  f ← st_get; EXPECT "consumed" (bool_decide (length (q_handled (fx_object f).2) = n)).

Definition consumer_test (m : Mock) (calls : list consumer_call) (body : QT unit) (expected : list mock_call -> bool) :
  outcome string unit :=
  match apply_calls (ConsStream stream_name :: calls) new_ConsumerBuilder with
  | Val b =>
      match qb_build 1 b m with
      | (Val _, Some q) => run_test (consumer_config 1 b, q) body expected
      | _ => Throw "build"%string
      end
  | Throw _ => Throw "builder"%string
  end.

Definition is_offset (offset o : OffsetSpecification) : bool := bool_decide (o = offset).

Definition ConsumerTest_BasicStartStop : outcome string unit :=
  consumer_test nice_mock [] (mret tt)
    (fun log => bool_decide (filter (fun c => is_get_client c = false) log =
       [MRegister; MStart; MSubscribe 0 stream_name offset_next; MUnsubscribe 0; MStop; MUnregister])).

Definition ConsumerTest_PartiallyConsumedChunk : outcome string unit :=
  consumer_test nice_mock [ConsOffsetSpecification (offset_offset 5); ConsMessageHandler true]
    (st_iter message_listener [3; 4; 5; 6] ;;
     f ← st_get;
     EXPECT "offset" (forallb (fun cm => 5 <=? mc_offset cm.1) (q_handled (fx_object f).2)) ;;
     expect_consumed 2)
    (fun log => bool_decide (times is_get_client log = 1%nat) &&
                bool_decide (times (is_subscribe (fun _ => true)) log = 1%nat) &&
                bool_decide (times (is_subscribe (is_offset (offset_offset 5))) log = 1%nat)).

(** A named consumer: [stored] is what the broker has, [offset] what it subscribes to. *)
Definition named_consumer (stored : option Z) (offset : OffsetSpecification) : outcome string unit :=
  consumer_test (MkMock [] [] [] stored 0) [ConsName consumer_name; ConsOffsetSpecification offset_first] (mret tt)
    (fun log => bool_decide (times (is_call (MQueryOffset consumer_name stream_name)) log = 1%nat) &&
                bool_decide (times (is_subscribe (fun _ => true)) log = 1%nat) &&
                bool_decide (times (is_subscribe (is_offset offset)) log = 1%nat)).

Definition ConsumerTest_NamedConsumerStoredOffset : outcome string unit := named_consumer (Some 2) (offset_offset 3).
Definition ConsumerTest_NamedConsumerFallbackOffset : outcome string unit := named_consumer None offset_first.

(** A named consumer with this cursor configuration: [offset] is stored once. *)
Definition cursor_test (cursor : AutomaticCursorConfiguration) (body : QT unit) (offset : Z) : outcome string unit :=
  consumer_test nice_mock [ConsName consumer_name; ConsAutomaticCursorManagement cursor; ConsMessageHandler true] body
    (fun log => bool_decide (times is_get_client log = 1%nat) &&
                bool_decide (times (is_call (MQueryOffset consumer_name stream_name)) log = 1%nat) &&
                bool_decide (filter (fun c => is_store c = true) log =
                             [MStoreOffset consumer_name stream_name offset])).

Definition ConsumerTest_AutoCursorFrequency : outcome string unit :=
  cursor_test (MkAutomaticCursorConfiguration 5 0)
    (st_iter message_listener [0; 1; 2; 3; 4] ;;
     expect_ready 0 (log_has 1 (is_call (MStoreOffset consumer_name stream_name 4))) ;;
     expect_consumed 5) 4.

Definition ConsumerTest_AutoCursorForceDelay : outcome string unit :=
  cursor_test (MkAutomaticCursorConfiguration 0 1)
    (message_listener 1 ;;
     expect_ready 1000 (log_has 1 (is_call (MStoreOffset consumer_name stream_name 1))) ;;
     expect_consumed 1) 1.

Definition ConsumerTest_AutoCursorStoreOnStop : outcome string unit :=
  cursor_test (MkAutomaticCursorConfiguration 100 0)
    (message_listener 1 ;;
     consumer_perform consumer_stop ;;
     expect_ready 0 (log_has 1 (is_call (MStoreOffset consumer_name stream_name 1))) ;;
     expect_consumed 1) 1.

Definition ConsumerTest_ReconnectRetries : outcome string unit :=
  consumer_test (MkMock [] [] [Val tt; Throw (IOException "Failed to connect"); Val tt] None 0) []
    (consumer_shutdown_listener Unknown ;; expect_ready 1000 (log_has 2 (is_subscribe (fun _ => true))))
    (fun log => bool_decide (times is_start log = 3%nat) &&
                bool_decide (times (is_subscribe (fun _ => true)) log = 2%nat)).

Definition ConsumerTest_ReconnectNoLastSeen : outcome string unit :=
  consumer_test nice_mock [ConsOffsetSpecification offset_next]
    (consumer_shutdown_listener Unknown ;; expect_ready 1000 (log_has 2 (is_subscribe (is_offset offset_next))))
    (fun log => bool_decide (times (is_subscribe (fun _ => true)) log = 2%nat) &&
                bool_decide (times (is_subscribe (is_offset offset_next)) log = 2%nat)).

Definition ConsumerTest_ReconnectWithLastSeen : outcome string unit :=
  consumer_test nice_mock [ConsOffsetSpecification offset_next]
    (message_listener 1 ;;
     consumer_shutdown_listener Unknown ;;
     expect_ready 1000 (log_has 1 (is_subscribe (is_offset (offset_offset 2)))))
    (fun log => bool_decide (filter (fun c => is_subscribe (fun _ => true) c = true) log =
       [MSubscribe 0 stream_name offset_next; MSubscribe 0 stream_name (offset_offset 2)])).

Definition ConsumerTest_StreamDeleted : outcome string unit :=
  consumer_test (MkMock [] [Val tt; Throw (ResponseErrorException (rc_value StreamDoesNotExist))] [] None 0) []
    (consumer_metadata_listener stream_name ;; expect_ready 1000 (log_has 1 (is_call MUnregister)))
    (fun log => bool_decide (times is_get_client log = 2%nat) &&
                bool_decide (times (is_call MUnregister) log = 1%nat)).

Definition consumer_tests : list (outcome string unit) :=
  [ConsumerTest_BasicStartStop; ConsumerTest_PartiallyConsumedChunk; ConsumerTest_NamedConsumerStoredOffset;
   ConsumerTest_NamedConsumerFallbackOffset; ConsumerTest_AutoCursorFrequency; ConsumerTest_AutoCursorForceDelay;
   ConsumerTest_AutoCursorStoreOnStop; ConsumerTest_ReconnectRetries; ConsumerTest_ReconnectNoLastSeen;
   ConsumerTest_ReconnectWithLastSeen; ConsumerTest_StreamDeleted].

(** Every test of the repository passes on the model. *)
Theorem unit_tests_pass : Forall (eq (Val tt)) (producer_tests ++ consumer_tests).
Proof. vm_compute. repeat constructor. Qed.
