(* ===== verification/EnvironmentStack.v ===== *)
(** * Producers and consumers over an environment

    An [EnvironmentImpl] over the clients of [ClientStack] implements the
    interfaces of the producer and of the consumer, so that a message goes
    from [send] to the bytes on the wire of the client of the right broker.  The
    concrete runs at the end have a broker that answers every request; they show
    what happens when a client is lost while it is being installed. *)

From S2P Require Import Prelude Words OrdMap Types BinaryBuffer ClientCommands ServerCommands ClientFrames ServerFrames Messages Client ClientSending ClientReceiving ClientLifecycle Fluent ClientParameters Tasks Environment EnvironmentSystem Semaphore Accumulator Producer ProducerSystem Consumer Builders BuildersCorrect ClientStack.

(** [st_alive]: what [m_environment.lock()] finds. *)
Record Stack (C : Type) := MkStack {
  st_environment : EState (World C);
  st_alive : bool
}.
Arguments MkStack {C}.
Arguments st_environment {C}.
Arguments st_alive {C}.

(** The listeners of [ProducerImpl::get_client]. *)
Definition producer_parameters {C} (self : nat) (base : ClientParameters C) : ClientParameters C :=
  with_shutdown_listener (Some (ProducerShutdown self))
    (with_metadata_listener (Some (ProducerMetadataUpdate self))
      (with_publish_error_listener (Some (ProducerPublishError self))
        (with_publish_confirm_listener (Some (ProducerPublishConfirm self)) base))).

(** Those of [ConsumerImpl::get_client]. *)
Definition consumer_parameters {C} (self : nat) (automatic_credits : bool) (base : ClientParameters C) : ClientParameters C :=
  let p := with_shutdown_listener (Some (ConsumerShutdown self))
             (with_metadata_listener (Some (ConsumerMetadataUpdate self))
               (with_message_listener (Some (ConsumerMessage self)) base)) in
  if automatic_credits then with_chunk_listener (Some (ConsumerChunkCredit self)) p else p.

Section stack.
Context {C : Type} (cfg : EConfig C).
Context (generator : nat -> nat) (await_locator : EState (World C) -> EState (World C)).
Context (await : Z -> CM ServerFrame) (await_tune : CM unit) (connect : CM unit).

Abbreviation base := (get_base_client_parameters cfg).
#[local] Existing Instance client_EnvironmentClients.
#[local] Instance stack_clients : EnvironmentClients C (World C) := client_EnvironmentClients base await await_tune connect.

Abbreviation SM A := (ST (Stack C) exn A).

Definition on_environment {A} (m : ST (EState (World C)) exn A) : SM A := fun s =>
  let '(r, e) := m (st_environment s) in (r, MkStack e (st_alive s)).

Definition get_environment (what : string) : SM unit := fun s =>
  if st_alive s then (Val tt, s) else (Throw (StreamException what), s).

Definition if_environment (m : SM unit) : SM unit := fun s => if st_alive s then m s else (Val tt, s).

Definition stack_client {A} (i : nat) (m : ClientConfig -> CM A) : SM A := on_environment (ecall (on_client base i m)).

Definition PRODUCER_ORPHAN : string := "Invalid state: environment destroyed while producer is still alive".
Definition CONSUMER_ORPHAN : string := "Invalid state: environment destroyed while consumer is alive".

(** Publishing fails only with a [StreamException], whatever the messages. *)
Lemma send_publish_throws id batch c e c' :
  send_frame (MkPublishCommand id batch) c = (Throw e, c') -> is_StreamException e = true.
Proof.
  unfold send_frame. unfold mbind at 1, ST_bind at 1. cbn [st_get]. destruct (_ && _); [now intros [= <- _]|].
  destruct (frame_buffer _ empty_buffer) as [[u|e'] b] eqn:E; [discriminate|]. intros [= <- _].
  exact (frame_buffer_throws (MkPublishCommand id batch) e' b
           (keeps_wf_serialize (FPublish (MkPublishCommand id batch))) E).
Qed.

Lemma publish_loop_throws id messages batch size c e c' :
  publish_loop id messages batch size c = (Throw e, c') -> is_StreamException e = true.
Proof.
  revert batch size c. induction messages as [|m messages IH]; intros batch size c; simpl.
  - destruct (bool_decide _); [discriminate|]. intros E.
    apply ST_bind_inv in E as [(? & ? & _ & E)|(e' & E & [= ->])]; [discriminate | eapply send_publish_throws, E].
  - unfold mbind at 1, ST_bind at 1. cbn [st_get]. destruct (_ && _); [|apply IH]. intros E.
    apply ST_bind_inv in E as [(? & ? & _ & E)|(e' & E & [= ->])]; [eapply IH, E | eapply send_publish_throws, E].
Qed.

Lemma stack_client_throws {A} i (m : ClientConfig -> CM A) s e s' :
  stack_client i m s = (Throw e, s') -> exists cc c c', m cc c = (Throw e, c').
Proof.
  unfold stack_client, on_environment, ecall, on_client. destruct (m _ _) as [r c'] eqn:E. intros [= -> _]. eauto.
Qed.

(** The world of the [self]-th producer. *)
#[export, refine] Instance stack_ClientWorld (self : nat) : ClientWorld (Stack C) := {|
  cw_register_producer := get_environment PRODUCER_ORPHAN ;; on_environment (register_producer self);
  cw_unregister_producer := if_environment (on_environment (unregister_producer self));
  cw_get_producer_client stream :=
    get_environment PRODUCER_ORPHAN ;;
    on_environment (get_producer_client await_locator stream (producer_parameters self base));
  cw_start i := stack_client i (fun cc => client_start cc await await_tune connect);
  cw_stop i := stack_client i (fun cc => client_stop cc await);
  cw_max_frame_size i s := c_max_frame_size (client_at base i (e_world (st_environment s)));
  cw_query_publisher_sequence i reference stream := stack_client i (fun _ => query_publisher_sequence await reference stream);
  cw_declare_publisher i id reference stream := stack_client i (fun _ => declare_publisher await id reference stream);
  cw_delete_publisher i id := stack_client i (fun _ => delete_publisher await id);
  cw_publish_encoded i id ms := stack_client i (fun _ => publish_encoded id ms);
  cw_changes _ _ := True
|}.
Proof. intros i id ms s e s' E. apply stack_client_throws in E as (cc & c & c' & E). eapply publish_loop_throws, E. Defined.

(** The world of the [self]-th consumer. *)
#[export] Instance stack_ConsumerWorld (self : nat) (automatic_credits : bool) : ConsumerWorld (Stack C) := {|
  qw_environment := get_environment CONSUMER_ORPHAN;
  qw_register_consumer := on_environment (register_consumer self);
  qw_unregister_consumer := if_environment (on_environment (unregister_consumer self));
  qw_get_consumer_client stream :=
    on_environment (get_consumer_client generator await_locator stream (consumer_parameters self automatic_credits base));
  qw_start i := stack_client i (fun cc => client_start cc await await_tune connect);
  qw_stop i := stack_client i (fun cc => client_stop cc await);
  qw_query_offset i reference stream := stack_client i (fun _ => query_offset await reference stream);
  qw_subscribe i id stream offset n properties := stack_client i (fun _ => subscribe await id stream offset n properties);
  qw_unsubscribe i id := stack_client i (fun _ => unsubscribe await id);
  qw_store_offset i reference stream offset := stack_client i (fun _ => Client.store_offset reference stream offset);
  qw_credit i id n := stack_client i (fun _ => Client.credit id n)
|}.

(** *** The loss of a client *)

(** The connection of a client fails and its frame thread ends. *)
Definition lose (i : nat) (reason : ShutdownReason) (w : World C) : World C :=
  put_client_at base i
    (frames_ended (client_config (parameters_at base i w)) reason
       (with_io (Throw (IOException "Connection reset")) (client_at base i w))).2 w.

Lemma client_shutdown_state cc reason c :
  let c' := (client_shutdown cc reason c).2 in
  c_status c' = c_status c /\ c_outstanding c' = ∅ /\ c_io c' = c_io c.
Proof.
  unfold client_shutdown. rewrite (ST_bind_Val (emit CEvConnectionShutdown) _ c tt _ eq_refl).
  set (c1 := with_events _ c).
  assert (exists c2, fail_all_outstanding_requests c1 = (Val tt, c2) /\ c_status c2 = c_status c /\
            c_outstanding c2 = ∅ /\ c_io c2 = c_io c) as (c2 & E & H1 & H2 & H3).
  { unfold fail_all_outstanding_requests. rewrite (ST_bind_Val st_get _ c1 c1 c1 eq_refl).
    rewrite (ST_bind_Val _ _ _ _ _ (emits_iter CEvRequestFailed _ c1)). by eexists. }
  rewrite (ST_bind_Val _ _ _ _ _ E). destruct reason as [r|]; [|done]. by destruct (cfg_shutdown_listener cc).
Qed.

Lemma frames_ended_dead cc reason c what :
  c_status c = CStarted \/ (c_status c = CStopping /\ c_outstanding c = ∅) ->
  dead (frames_ended cc reason (with_io (Throw (IOException what)) c)).2.
Proof.
  intros Hs. unfold frames_ended. set (c1 := with_io _ c). destruct (decide (c_status c = CStarted)) as [E|E].
  - rewrite (ST_bind_Val _ _ _ true (with_status CStopping c1)).
    + destruct (client_shutdown_state cc (Some reason) (with_status CStopping c1)) as (H1 & H2 & H3).
      split; [exact H1|]. split; [exact H2|]. exists what. exact H3.
    + unfold client_compare_exchange. rewrite (ST_bind_Val st_get _ c1 c1 c1 eq_refl), decide_True by done. done.
  - rewrite (ST_bind_Val _ _ _ false c1).
    + destruct Hs as [Hs|[Hs Ho]]; [done|]. split; [done|]. split; [done|]. by exists what.
    + unfold client_compare_exchange. rewrite (ST_bind_Val st_get _ c1 c1 c1 eq_refl), decide_False by done. done.
Qed.

Lemma lose_lost i reason (w : World C) :
  (i < w_next w)%nat -> c_status (client_at base i w) = CStarted -> lost base i (lose i reason w).
Proof.
  intros Hi Hs. split; [done|]. unfold lose, client_at at 1, entry_at at 1, put_client_at. simpl.
  rewrite lookup_insert_eq. apply frames_ended_dead. now left.
Qed.

Lemma lose_keeps i j reason (w : World C) : lost base j w -> lost base j (lose i reason w).
Proof.
  intros [Hj (Hs & Ho & Hio)]. split; [done|]. unfold lose, client_at at 1, entry_at at 1, put_client_at. simpl.
  destruct (decide (j = i)) as [->|Hne].
  - rewrite lookup_insert_eq. apply frames_ended_dead. now right.
  - rewrite lookup_insert_ne by done. by split.
Qed.

Definition lose_client (c : nat) (s : Stack C) : Stack C :=
  MkStack (put_eworld (lose c Unknown (e_world (st_environment s))) (st_environment s)) (st_alive s).

End stack.

(** ** A broker that answers every request

    It looks at the last frame that the client wrote; bytes 4 and 5 hold the key. *)

Definition last_written (c : Client) : list byte :=
  default [] (last (flat_map (fun ev => match ev with CEvWrite bs => [bs] | _ => [] end) (c_events c))).

Definition last_key (c : Client) : Z := be_decode (take 2 (drop 4 (last_written c))).

Definition broker_metadata (corr : Z) : MetadataResponse :=
  MkMetadataResponse corr [MkMetadataBroker 0 "rabbit-0" 5552; MkMetadataBroker 1 "rabbit-1" 5552]
    [MkMetadataStream "orders" (rc_value Ok) 1 [0]].

Definition broker_response (key corr : Z) : ServerFrame :=
  if key =? key_value KeyPeerProperties then SPeerProperties (MkPeerPropertiesResponse corr 1 [])
  else if key =? key_value KeySaslHandshake then SSaslHandshake (MkSaslHandshakeResponse corr 1 ["PLAIN"%string])
  else if key =? key_value KeySaslAuthenticate then SSaslAuthenticate (MkSaslAuthenticateResponse corr 1 [])
  else if key =? key_value KeyOpen then SOpen (MkOpenResponse corr 1 [])
  else if key =? key_value KeyMetadata then SMetadata (broker_metadata corr)
  else SGeneric (MkGenericResponse corr 1).

Definition broker_await (corr : Z) : CM ServerFrame :=
  c ← st_get;
  let f := broker_response (last_key c) corr in
  complete_outstanding_request corr f ;; mret f.

(** ** From the builders to the wire *)

Definition raw_config : option (EConfig RawCodec) :=
  match apply_calls [EnvHosts ["rabbit-0"; "rabbit-1"]%string; EnvRecoveryRetryDelay 1000] (default_EnvironmentBuilder MkRawCodec) with
  | Val b => Some (environment_config b)
  | Throw _ => None
  end.

Definition wire_config : EConfig RawCodec :=
  MkEConfig ["rabbit-0"; "rabbit-1"]%string 1000 (default_ClientParameters MkRawCodec).

Definition wire_clients : EnvironmentClients RawCodec (World RawCodec) :=
  client_EnvironmentClients (ev_client_parameters wire_config) broker_await (mret tt) (mret tt).

(** The first number drawn is even. *)
Definition wire_generator (n : nat) : nat := n.

Definition wire_environment : option (EState (World RawCodec)) :=
  match eb_build (H := wire_clients) wire_generator
          (MkEnvironmentBuilder (ev_hosts wire_config) (ev_recovery_retry_delay wire_config) (ev_client_parameters wire_config))
          (MkWorld ∅ 0) with
  | (Val e, _) => Some e
  | _ => None
  end.

Definition wire_world : ClientWorld (Stack RawCodec) :=
  stack_ClientWorld wire_config id broker_await (mret tt) (mret tt) 0.

Definition wire_producer : option (@PState (Stack RawCodec)) :=
  e ← wire_environment;
  b ← match apply_calls [ProdStream "orders"; ProdBatchPublishingDelay 0] new_ProducerBuilder with Val b => Some b | Throw _ => None end;
  p ← (pb_build (H := wire_world) 1000 b (MkStack e true)).2;
  '(_, p) ← send (H := wire_world) (producer_config 1000 b) MkRawCodec 0 false 7 (MkMessage [x68; x69] []) None p;
  Some (flush (H := wire_world) (producer_config 1000 b) p).2.

Definition wire_client (i : nat) (p : @PState (Stack RawCodec)) : Client :=
  client_at (ev_client_parameters wire_config) i (e_world (st_environment (p_world p))).

Definition wire_host (i : nat) (p : @PState (Stack RawCodec)) : string :=
  get_host (parameters_at (ev_client_parameters wire_config) i (e_world (st_environment (p_world p)))).

(** A message that was sent and flushed is the last frame of a client of the
    leader of the stream, which the locator found. *)
Lemma producer_on_the_wire :
  raw_config = Some wire_config /\
  exists p, wire_producer = Some p /\ am_publishing_id <$> p_accepted p = [7] /\
    wire_host 0 p = "rabbit-0"%string /\ p_client p = Some 1%nat /\ wire_host 1 p = "rabbit-1"%string /\
    last_written (wire_client 1 p) = wire (FPublish (MkPublishCommand 0 [MkPublishMessage 7 [x68; x69]])).
Proof. split; [reflexivity|]. eexists. split; [vm_compute; reflexivity|]. vm_compute. done. Qed.

(** ** What the builders build over this environment *)

Definition wire_stack : Stack RawCodec := MkStack (default (new_environment (MkWorld ∅ 0)) wire_environment) true.

Definition wire_producer_calls : list producer_call := [ProdStream "orders"; ProdBatchSize 10; ProdMaxUnconfirmed 1].
Definition wire_producer_builder : ProducerBuilder :=
  match apply_calls wire_producer_calls new_ProducerBuilder with Val b => b | Throw _ => new_ProducerBuilder end.

(** [producer_built_ready] where [start] succeeds. *)
Lemma producer_built_ready_witness :
  Forall pb_typed wire_producer_calls /\
  exists p, pb_build (H := wire_world) 1000 wire_producer_builder wire_stack = (Val tt, Some p) /\
    is_Some (send (H := wire_world) (producer_config 1000 wire_producer_builder) MkRawCodec 0 false 0 (MkMessage [] []) None p).
Proof.
  assert (Forall pb_typed wire_producer_calls) as Ht by (repeat constructor; vm_compute; congruence). split; [exact Ht|].
  pose proof (producer_built_ready (H := wire_world) 1000 wire_producer_calls wire_stack Ht) as Hb.
  change (apply_calls wire_producer_calls new_ProducerBuilder) with (Val (E := exn) wire_producer_builder) in Hb.
  destruct Hb as (_ & _ & _ & Hb). destruct (pb_build _ _ _) as [[[]|ex] [p|]] eqn:E;
    [|destruct Hb|vm_compute in E; discriminate E..].
  exists p. split; [reflexivity|]. apply Hb.
Defined.

Definition wire_consumer_calls : list consumer_call := [ConsStream "orders"].
Definition wire_consumer_builder : ConsumerBuilder :=
  match apply_calls wire_consumer_calls new_ConsumerBuilder with Val b => b | Throw _ => new_ConsumerBuilder end.
Definition wire_consumer_world : ConsumerWorld (Stack RawCodec) :=
  stack_ConsumerWorld wire_config wire_generator id broker_await (mret tt) (mret tt) 0 true.

(** [consumer_built_ready] where [start] succeeds. *)
Lemma consumer_built_ready_witness :
  Forall qb_typed wire_consumer_calls /\
  exists q, qb_build (H := wire_consumer_world) 1000 wire_consumer_builder wire_stack = (Val tt, Some q) /\ q_client q <> None.
Proof.
  assert (Forall qb_typed wire_consumer_calls) as Ht by (repeat constructor). split; [exact Ht|].
  pose proof (consumer_built_ready (H := wire_consumer_world) 1000 wire_consumer_calls wire_stack Ht) as Hb.
  change (apply_calls wire_consumer_calls new_ConsumerBuilder) with (Val (E := exn) wire_consumer_builder) in Hb.
  destruct Hb as (_ & _ & Hb). destruct (qb_build _ _ _) as [[[]|ex] [q|]] eqn:E;
    [|destruct Hb|vm_compute in E; discriminate E..].
  exists q. split; [reflexivity|]. apply Hb.
Defined.

(** ** A locator lost while it is installed *)

Section scripts.
Context {C : Type} (cfg : EConfig C) (generator : nat -> nat).
Context (await : Z -> CM ServerFrame) (await_tune : CM unit) (connect : CM unit).

#[local] Instance script_clients : EnvironmentClients C (World C) :=
  client_EnvironmentClients (get_base_client_parameters cfg) await await_tune connect.
#[local] Instance script_losable : LosableClients C (World C) :=
  client_LosableClients (get_base_client_parameters cfg) await await_tune connect.

(** What happens next; every destructor returns here. *)
Inductive eaction :=
| ActCall (call : locator_call)
| ActCallStep (j : nat) (expired : bool)
| ActLose (c : nat) (reason : ShutdownReason)
| ActNotify
| ActStrand
| ActBegin (invocation : nat)
| ActConnect
| ActInstall.

Definition erun (a : eaction) (s : esys) : option (esys (W := World C)) :=
  let '(MkESys e ks i l n wd) := s in
  if wd then None else
  match a, i, n with
  | ActCall call, _, _ => Some (MkESys e (ks ++ [new_call call]) i l n false)
  | ActCallStep j expired, _, _ =>
      k ← ks !! j;
      '(k', e') ← call_step generator expired k e;
      Some (MkESys e' (<[j := k']> ks) i l n false)
  | ActLose c reason, _, _ =>
      if decide (c ∈ l /\ (c < w_next (e_world e))%nat /\
                 c_status (client_at (get_base_client_parameters cfg) c (e_world e)) = CStarted /\ reason <> ClientInitiated)
      then Some (MkESys (put_eworld (lose cfg c reason (e_world e)) e) ks i (l ∖ {[c]}) (n ++ [(c, reason)]) false)
      else None
  | ActNotify, _, (c, reason) :: n =>
      let '(r, e') := handle_locator_shutdown true reason e in Some (MkESys e' ks i l n (negb (is_val r)))
  | ActStrand, _, _ => t ← strand_step 0 (e_reconnect_task e); Some (MkESys (put_reconnect_task t e) ks i l n false)
  | ActBegin m, None, _ =>
      t ← invocation_turn m (e_reconnect_task e);
      if decide (t_started t = t_started (e_reconnect_task e) + 1)
      then Some (MkESys (put_reconnect_task t e) ks (if bool_decide (e_locator e = None) then Some RConnect else None) l n false)
      else None
  | ActConnect, Some RConnect, _ =>
      match get_locator_client cfg generator e with
      | (Val c, e1) =>
          match connect_locator c e1 with
          | (Val _, e2) => Some (MkESys e2 ks (Some (RInstall c)) ({[c]} ∪ l) n false)
          | (Throw _, _) => None
          end
      | (Throw _, _) => None
      end
  | ActInstall, Some (RInstall c), _ => Some (MkESys (install_locator c e).2 ks None l n false)
  | _, _, _ => None
  end.

Lemma erun_step a s s' : erun a s = Some s' -> estep cfg generator s s'.
Proof.
  destruct s as [e ks i l n [|]]; [by destruct a|]. intros E. destruct a as [call|j expired|c reason| | |m| |]; cbn [erun] in E.
  - injection E as <-. apply ECall.
  - destruct (ks !! j) as [k|] eqn:Ek; [|discriminate]. cbn in E.
    destruct (call_step generator expired k e) as [[k' e']|] eqn:Es; [|discriminate]. injection E as <-.
    by eapply ECallStep.
  - destruct (decide _) as [(H1 & H2 & H3 & H4)|]; [|discriminate]. injection E as <-. apply ELost; [done | | | done].
    + intros j. apply lose_keeps.
    + now apply lose_lost.
  - destruct n as [|[c reason] n]; [discriminate|]. pose proof (ENotify cfg generator c reason true [] n e ks i l (or_introl eq_refl)) as Hs.
    destruct (handle_locator_shutdown true reason e) as [r e']. by injection E as <-.
  - destruct (strand_step 0 (e_reconnect_task e)) as [t|] eqn:Et; [|discriminate]. injection E as <-. eapply ETaskStrand, Et.
  - destruct i; [discriminate|]. destruct (invocation_turn m (e_reconnect_task e)) as [t|] eqn:Et; [|discriminate]. cbn in E.
    destruct (decide _) as [Hs|]; [|discriminate]. injection E as <-. eapply EReconnectBegin; eassumption.
  - destruct i as [[| |]|]; try discriminate. destruct (get_locator_client cfg generator e) as [[c|] e1] eqn:E1; [|discriminate].
    destruct (connect_locator c e1) as [[[]|] e2] eqn:E2; [|discriminate]. injection E as <-. eapply EReconnectConnected; eassumption.
  - destruct i as [[| |]|]; try discriminate. injection E as <-. apply EReconnectInstall.
Qed.

Fixpoint escript (actions : list eaction) (s : esys) : option (esys (W := World C)) :=
  match actions with
  | [] => Some s
  | a :: actions => s' ← erun a s; escript actions s'
  end.

Lemma escript_steps actions s s' : escript actions s = Some s' -> rtc (estep cfg generator) s s'.
Proof.
  revert s. induction actions as [|a actions IH]; intros s; simpl; [intros [= ->]; apply rtc_refl|].
  destruct (erun a s) as [s1|] eqn:E; [|discriminate]. simpl. intros Es. eapply rtc_l; [eapply erun_step, E | now apply IH].
Qed.

End scripts.

Lemma wire_environment_created e :
  wire_environment = Some e ->
  exists w, environment_create (H := wire_clients) wire_config wire_generator (MkWorld ∅ 0) = (Val e, w).
Proof.
  unfold wire_environment, eb_build. change (environment_config _) with wire_config. intros E.
  destruct (environment_create wire_config wire_generator (MkWorld ∅ 0)) as [[e1|] w]; [|discriminate].
  injection E as ->. now exists w.
Qed.

Definition wire_initial : option (esys (W := World RawCodec)) :=
  e ← wire_environment;
  c ← e_locator e;
  Some (MkESys e [] None {[c]} [] false).

(** The first locator is lost; the second is lost between the end of its
    [start] and the assignment of [m_locator]. *)
Definition stale_script : list eaction :=
  [ActLose 0 Unknown; ActNotify; ActStrand; ActBegin 0; ActConnect; ActLose 1 Unknown; ActNotify; ActInstall].

Definition wire_losable : @LosableClients RawCodec (World RawCodec) wire_clients :=
  client_LosableClients (ev_client_parameters wire_config) broker_await (mret tt) (mret tt).

Definition stale_state : option (esys (W := World RawCodec)) :=
  s ← wire_initial; escript wire_config wire_generator broker_await (mret tt) (mret tt) stale_script s.

(** A locator that is lost after it has started and before
    [reconnect_to_server] assigns it to [m_locator] stays the locator: its
    shutdown was notified before, so the environment keeps the dead client for
    ever, whatever happens, and every operation on the locator that is
    called from then on fails. *)
Theorem stale_locator_kept :
  exists s, ereachable (H0 := wire_losable) wire_config wire_generator s /\ es_calls s = [] /\
    forall s', rtc (estep (H0 := wire_losable) wire_config wire_generator) s s' ->
      e_locator (es_env s') = Some 1%nat /\ lost (ev_client_parameters wire_config) 1 (e_world (es_env s')) /\
      forall j k r, es_calls s' !! j = Some k -> lc_pc k = LDone r -> is_val r = false.
Proof.
  destruct stale_state as [s|] eqn:E; [|vm_compute in E; discriminate]. exists s.
  unfold stale_state in E. destruct wire_initial as [s0|] eqn:E0; [|discriminate]. cbn [mbind option_bind] in E.
  assert (es_calls s = [] /\ stale (H0 := wire_losable) 1 s) as [Hc Hst].
  { vm_compute in E0. injection E0 as <-. vm_compute in E. injection E as <-. split; [reflexivity|].
    split; [reflexivity|]. split; [|done]. split; [vm_compute; lia|]. split; [vm_compute; reflexivity|].
    split; [vm_compute; reflexivity|]. exists "Connection reset"%string. vm_compute. reflexivity. }
  split; [|split; [done|]].
  - exists (MkWorld ∅ 0), s0. split; [|eapply escript_steps, E].
    unfold wire_initial in E0. destruct wire_environment as [e|] eqn:Ee; [|discriminate]. cbn [mbind option_bind] in E0.
    destruct (e_locator e) as [c|] eqn:El; [|discriminate]. injection E0 as <-.
    destruct (wire_environment_created e Ee) as [w' Ew]. eapply created_initial; eassumption.
  - intros s' Hr. destruct (stale_forever (H0 := wire_losable) wire_config wire_generator 1 s s' Hst) as [(H1 & H2 & _) Hf]; [by rewrite Hc | done |].
    split; [done|]. split; [done|]. intros j k r Hk Hpc. pose proof (Forall_lookup_1 _ _ _ _ Hf Hk) as Hk'.
    unfold failing in Hk'. now rewrite Hpc in Hk'.
Qed.
