(* ===== verification/Listeners.v ===== *)
(** * From the bytes of a notification to the handlers of the user

    [ProducerImpl::get_client] and [ConsumerImpl::get_client] bind the listeners
    of a client to member functions.  Here the client, the listeners and the
    producer or consumer are put together: a frame of the broker is handled by
    the client, which calls the listeners, which settle messages or hand them to
    the message handler.  The calls are made in the order of the client's
    events, after the frame. *)

From S2P Require Import Prelude Words OrdMap Types BinaryBuffer ClientCommands ServerCommands ClientFrames ServerFrames Messages Semaphore Accumulator Client ClientParameters ClientSending ClientReceiving Producer ProducerSystem ProducerAlone Consumer Environment EnvironmentStack UnitTests.

(** The listener that a client with these parameters calls for an event. *)
Definition listener_of {C} (parameters : ClientParameters C) (ev : client_event) : option Callback :=
  match ev with
  | CEvChunk _ _ => get_chunk_listener parameters
  | CEvMessage _ _ _ _ => get_message_listener parameters
  | CEvPublishConfirm _ _ => get_publish_confirm_listener parameters
  | CEvPublishError _ _ _ => get_publish_error_listener parameters
  | CEvMetadata _ _ => get_metadata_listener parameters
  | CEvCreditError _ _ => get_credit_error_listener parameters
  | CEvShutdown _ => get_shutdown_listener parameters
  | _ => None
  end.

(** What handling a frame notified; [codec] is the [m_codec] of the client. *)
Definition frame_events `{Codec K} (cfg : ClientConfig) (codec : K) (b : BinaryBuffer) (c : Client) : list client_event :=
  drop (length (c_events c)) (c_events (handle_frame cfg codec (Val b) c).2).

(** [call] for each event that has a listener. *)
Definition call_listeners {C S} (parameters : ClientParameters C) (call : Callback -> client_event -> ST S exn unit)
    (evs : list client_event) : ST S exn unit :=
  st_iter (fun ev => match listener_of parameters ev with Some cb => call cb ev | None => mret tt end) evs.

Lemma frame_events_notifications `{Codec K} cfg (codec : K) f key version b c :
  server_valid f -> notification_key f = Some (key, version) -> c_status c <> CStopping ->
  holds b (frame_with_key (key_value key) version f) -> frame_events cfg codec b c = notifications cfg codec f.
Proof.
  intros Hv Hk Hs Hb. unfold frame_events. rewrite (frame_notifies cfg codec f key version b c Hv Hk Hs Hb). apply drop_app_length.
Qed.

(** ** Producers *)

Section producer.
Context {W : Type} `{ClientWorld W} (cfg : ProducerConfig).
Abbreviation PS := (@PState W).
Implicit Types p : PS.

(** The targets of the [std::bind]s; nothing else is bound to a producer.  What a
    frame notifies is called on the client's own frame thread, where the
    destructor of the client returns. *)
Definition call_producer (cb : Callback) (ev : client_event) : ST PS exn unit :=
  match cb, ev with
  | ProducerPublishConfirm _, CEvPublishConfirm _ publishing_id => listener_call (handle_publish_confirm publishing_id)
  | ProducerPublishError _, CEvPublishError _ publishing_id code => listener_call (handle_publish_error publishing_id code)
  | ProducerMetadataUpdate _, CEvMetadata stream _ => handle_metadata_update cfg stream
  | ProducerShutdown _, CEvShutdown reason => handle_shutdown true reason
  | _, _ => st_throw UndefinedBehaviour
  end.

(** The [self]-th producer's client handles a frame. *)
Definition producer_receives `{Codec C} (self : nat) (base : ClientParameters C) (codec : C) (b : BinaryBuffer) (c : Client) : ST PS exn unit :=
  let parameters := producer_parameters self base in
  call_listeners parameters call_producer (frame_events (client_config parameters) codec b c).

(** What a confirmation or a publish error answers: id, success, code. *)
Definition answers (f : ServerFrame) : option (list (Z * bool * Z)) :=
  match f with
  | SPublishConfirm (MkPublishConfirmCommand _ ids) => Some (map (fun id => (id, true, rc_value Ok)) ids)
  | SPublishError (MkPublishErrorCommand _ errors) => Some (map (fun e => (pe_sequence e, false, pe_code e)) errors)
  | _ => None
  end.

(** The messages that answers settle, each the first time only. *)
Fixpoint settled_by (l : list (Z * bool * Z)) (u : gmap Z AccumulatedMessage) : list (AccumulatedMessage * ConfirmationStatus) :=
  match l with
  | [] => []
  | (id, confirmed, code) :: l =>
      match u !! id with
      | Some m => (m, status_of m id confirmed code) :: settled_by l (delete id u)
      | None => settled_by l u
      end
  end.

(** One answer. *)
Definition answer_call (a : Z * bool * Z) : ST PS exn unit :=
  let '(id, confirmed, code) := a in
  listener_call (if confirmed : bool then handle_publish_confirm id else handle_publish_error id code).

Lemma answer_settles id (confirmed : bool) code p :
  (confirmed = true -> code = rc_value Ok) ->
  exists p', answer_call (id, confirmed, code) p = (Val tt, p') /\
    p_settled p' = p_settled p ++ settled_by [(id, confirmed, code)] (p_unconfirmed p) /\
    p_unconfirmed p' = delete id (p_unconfirmed p) /\ p_delivering p' = p_delivering p.
Proof.
  intros Hc. exists (answer_call (id, confirmed, code) p).2. split; [by destruct confirmed|].
  unfold answer_call, listener_call, handle_publish_confirm, handle_publish_error, take_unconfirmed, deliver_from, mbind, ST_bind.
  destruct confirmed; [rewrite (Hc eq_refl)|]; simpl; (destruct (p_unconfirmed p !! id) as [m|] eqn:E; simpl;
    [ rewrite drop_app_length, take_app_length; done
    | rewrite drop_all, take_ge, app_nil_r by done; rewrite delete_id by done; done ]).
Qed.

Lemma answers_settle l p :
  Forall (fun a : Z * bool * Z => a.1.2 = true -> a.2 = rc_value Ok) l ->
  exists p', st_iter answer_call l p = (Val tt, p') /\
    p_settled p' = p_settled p ++ settled_by l (p_unconfirmed p) /\
    p_unconfirmed p' = fold_left (fun u a => delete a.1.1 u) l (p_unconfirmed p) /\ p_delivering p' = p_delivering p.
Proof.
  revert p. induction l as [|[[id confirmed] code] l IH]; intros p Hl; [exists p; by rewrite app_nil_r|].
  apply Forall_cons in Hl as [Ha Hl]. destruct (answer_settles id confirmed code p Ha) as (p1 & E1 & S1 & U1 & D1).
  destruct (IH p1 Hl) as (p' & E & S' & U' & D'). exists p'. split; [|split; [|split]].
  - change (st_iter answer_call ((id, confirmed, code) :: l) p) with ((answer_call (id, confirmed, code) ;; st_iter answer_call l) p).
    by rewrite (ST_bind_Val _ _ _ _ _ E1).
  - rewrite S', S1, U1, <- app_assoc. f_equal. simpl. destruct (p_unconfirmed p !! id) as [m|] eqn:Em; [done|].
    by rewrite delete_id.
  - by rewrite U', U1.
  - by rewrite D', D1.
Qed.

(** The calls of the listeners are the answers. *)
Lemma listeners_answer `{Codec C} self (base : ClientParameters C) (codec : C) f l p :
  answers f = Some l ->
  let parameters := producer_parameters self base in
  call_listeners parameters call_producer (notifications (client_config parameters) codec f) p = st_iter answer_call l p /\
  Forall (fun a : Z * bool * Z => a.1.2 = true -> a.2 = rc_value Ok) l.
Proof.
  intros Ha. destruct f; try discriminate; simpl in Ha; destruct c; injection Ha as <-; simpl; unfold call_listeners.
  - rewrite !st_iter_map. split; [done | by apply Forall_map, Forall_true].
  - rewrite !st_iter_map. split; [done | by apply Forall_map, Forall_true].
Qed.

(** C10: from the wire to the user, whatever the state of the producer and the
    codec: when its client, not being stopped, gets the bytes of a confirmation or of a publish
    error, exactly the unconfirmed messages that they name are settled, in the
    order of the frame and each once, with the status that the broker gave; their
    handlers are called, they are unconfirmed no more, and no exception goes
    back to the client. *)
Theorem broker_answer_settles `{Codec C} self (base : ClientParameters C) (codec : C) f l key version b c p :
  server_valid f -> answers f = Some l -> notification_key f = Some (key, version) ->
  c_status c <> CStopping -> holds b (frame_with_key (key_value key) version f) ->
  exists p', producer_receives self base codec b c p = (Val tt, p') /\
    p_settled p' = p_settled p ++ settled_by l (p_unconfirmed p) /\
    handler_calls p' = handler_calls p ++ concat (map (fun ms : AccumulatedMessage * ConfirmationStatus =>
      match am_confirmation_handler ms.1 with Some h => [(h, ms.2)] | None => [] end) (settled_by l (p_unconfirmed p))) /\
    p_unconfirmed p' = fold_left (fun u a => delete a.1.1 u) l (p_unconfirmed p).
Proof.
  intros Hv Ha Hk Hs Hb. destruct (listeners_answer self base codec f l p Ha) as [E Hl].
  destruct (answers_settle l p Hl) as (p' & E' & S' & U' & _). exists p'.
  split; [|split; [done|split; [|done]]].
  - unfold producer_receives. by rewrite (frame_events_notifications _ codec f key version b c), E.
  - unfold handler_calls. by rewrite S', map_app, concat_app.
Qed.

End producer.

(** ** Consumers *)

Section consumer.
Context {W : Type} `{ConsumerWorld W} (cfg : ConsumerConfig).
Abbreviation QS := (@QState W).
Implicit Types q : QS.

(** The targets of the [std::bind]s; [client] is the client itself, which the
    chunk listener gets as its argument. *)
Definition call_consumer (client : nat) (cb : Callback) (ev : client_event) : ST QS exn unit :=
  match cb, ev with
  | ConsumerMessage _, CEvMessage _ ctx offset message => handle_message cfg ctx offset message
  | ConsumerChunkCredit _, CEvChunk _ _ => chunk_credit cfg client
  | ConsumerMetadataUpdate _, CEvMetadata stream _ => consumer_metadata_update cfg stream
  | ConsumerShutdown _, CEvShutdown reason => consumer_shutdown true reason
  | _, _ => st_throw UndefinedBehaviour
  end.

Definition consumer_receives `{Codec C} (self client : nat) (base : ClientParameters C) (codec : C) (b : BinaryBuffer) (c : Client) : ST QS exn unit :=
  let parameters := consumer_parameters self (qc_automatic_credits cfg) base in
  call_listeners parameters (call_consumer client) (frame_events (client_config parameters) codec b c).

(** What is needed of the client: a cursor that cannot be stored is reported as a
    [StreamException]. *)
Definition stores_safely : Prop := forall c name stream offset w e w',
  qw_store_offset c name stream offset w = (Throw e, w') -> is_StreamException e = true.

Context (Hstores : stores_safely).

Lemma internal_store_handled offset q :
  exists q', internal_store_offset cfg offset q = (Val tt, q') /\ q_handled q' = q_handled q /\ q_initial q' = q_initial q.
Proof.
  unfold internal_store_offset, schedule_persist, qcatch, st_catch, qcall, mbind, ST_bind. cbn [st_get].
  destruct (q_client q) as [c|]; [|by eexists]. case_bool_decide; [by eexists|].
  destruct (qw_store_offset c (qc_name cfg) (qc_stream cfg) offset (q_world q)) as [[[]|e] w] eqn:E; simpl.
  - destruct (persist_task_delay cfg); by eexists.
  - rewrite (Hstores _ _ _ _ _ _ _ E). destruct (persist_task_delay cfg); by eexists.
Qed.

Definition context_of (ctx : ChunkContext) (offset : Z) : MessageContext :=
  MkMessageContext offset (cc_timestamp ctx) (cc_committed_chunk_id ctx).

Lemma handle_message_handled ctx offset m q :
  qc_handler cfg = true -> filtered (q_initial q) offset = false ->
  exists q', handle_message cfg ctx offset m q = (Val tt, q') /\
    q_handled q' = q_handled q ++ [(context_of ctx offset, m)] /\ q_initial q' = None.
Proof.
  intros Hh Hf.
  assert (exists q0, message_accept cfg offset q = (Val (Some (persist_frequency_reached cfg q0)), q0) /\
            q_initial q0 = None /\ q_handled q0 = q_handled q) as (q0 & E0 & Hi & Hq).
  { unfold message_accept, mbind, ST_bind. cbn [st_get]. rewrite Hf. by eexists. }
  assert (message_call cfg ctx offset m q0 = (Val tt, put_handled (q_handled q ++ [(context_of ctx offset, m)]) q0)) as E1
    by (unfold message_call; by rewrite Hh, <- Hq).
  unfold handle_message. rewrite (ST_bind_Val _ _ _ _ _ E0), (ST_bind_Val _ _ _ _ _ E1). unfold persist_frequency_reached.
  destruct (m_auto_cursor_config cfg) as [cursor|] eqn:Ec; [|by eexists].
  destruct (_ && _); [|by eexists]. unfold message_store. rewrite Ec. unfold mbind, ST_bind. cbn [st_get].
  destruct (acc_persist_frequency cursor <=? _); [|by eexists].
  edestruct (internal_store_handled offset) as (q' & -> & H1 & H2). exists q'. by rewrite H1, H2.
Qed.

(** The messages of a chunk with their offsets, and the calls of the handler for
    those that were asked for. *)
Definition numbered (offset : Z) (ms : list Message) : list (Z * Message) :=
  imap (fun i m => (offset + Z.of_nat i, m)) ms.

Definition handler_arguments (ctx : ChunkContext) (initial : option OffsetSpecification) (l : list (Z * Message)) :
  list (MessageContext * Message) :=
  map (fun om => (context_of ctx om.1, om.2)) (filter (fun om => filtered initial om.1 = false) l).

Lemma filtered_later initial offset offset' :
  offset <= offset' -> filtered initial offset = false -> filtered initial offset' = false.
Proof.
  destruct initial as [o|]; [|done]. simpl. destruct (os_is_offset o); [|done]. simpl.
  intros Hle Hf. apply Z.ltb_ge in Hf. apply Z.ltb_ge. lia.
Qed.

Lemma numbered_cons offset m ms : numbered offset (m :: ms) = (offset, m) :: numbered (offset + 1) ms.
Proof.
  unfold numbered. simpl. rewrite Z.add_0_r. f_equal. apply imap_ext. intros i x _. simpl. f_equal. lia.
Qed.

Lemma numbered_all ctx initial offset ms :
  filtered initial offset = false ->
  handler_arguments ctx initial (numbered offset ms) = handler_arguments ctx None (numbered offset ms).
Proof.
  revert offset. induction ms as [|m ms IH]; intros offset Hf; [done|]. rewrite numbered_cons. unfold handler_arguments in *.
  rewrite !filter_cons_True by done. simpl. f_equal. apply IH. eapply filtered_later; [|exact Hf]. lia.
Qed.

Lemma chunk_handled ctx offset ms q :
  qc_handler cfg = true ->
  exists q', st_iter (fun om => handle_message cfg ctx om.1 om.2) (numbered offset ms) q = (Val tt, q') /\
    q_handled q' = q_handled q ++ handler_arguments ctx (q_initial q) (numbered offset ms).
Proof.
  intros Hh. revert offset q. induction ms as [|m ms IH]; intros offset q; [exists q; by rewrite app_nil_r|].
  rewrite numbered_cons. cbn [st_iter fst snd]. destruct (filtered (q_initial q) offset) eqn:Hf.
  - assert (handle_message cfg ctx offset m q = (Val tt, q)) as E.
    { unfold handle_message, message_accept, mbind, ST_bind. cbn [st_get]. by rewrite Hf. }
    rewrite (ST_bind_Val _ _ _ _ _ E). destruct (IH (offset + 1) q) as (q' & -> & Hq). exists q'. split; [done|].
    rewrite Hq. unfold handler_arguments. by rewrite filter_cons_False by (simpl; congruence).
  - destruct (handle_message_handled ctx offset m q Hh Hf) as (q1 & E & Hq1 & Hi1).
    rewrite (ST_bind_Val _ _ _ _ _ E). destruct (IH (offset + 1) q1) as (q' & -> & Hq). exists q'. split; [done|].
    rewrite Hq, Hq1, Hi1, <- app_assoc. f_equal. unfold handler_arguments at 2. rewrite filter_cons_True by done. simpl. f_equal.
    symmetry. apply (numbered_all ctx (q_initial q)). eapply filtered_later; [|exact Hf]. lia.
Qed.

Lemma decoded_length `{Codec K} (codec : K) ms : (length (decoded codec ms) <= length ms)%nat.
Proof. induction ms as [|m ms IH]; simpl; [done|]. destruct (codec_decode _ _ _); simpl; lia. Qed.

Lemma message_events_numbered `{Codec K} (codec : K) d :
  0 <= ch_offset (Deliver_chunk d) -> ch_offset (Deliver_chunk d) + lenZ (Deliver_messages d) <= 2^64 ->
  message_events codec d = map (fun om => CEvMessage (Deliver_subscription_id d) (chunk_context d) om.1 om.2)
                               (numbered (ch_offset (Deliver_chunk d)) (decoded codec (Deliver_messages d))).
Proof.
  intros Hpos Hl. unfold message_events, numbered. symmetry. etrans; [apply fmap_imap|]. apply imap_ext.
  intros i m Hi. simpl. f_equal. symmetry. apply lookup_lt_Some in Hi. pose proof (decoded_length codec (Deliver_messages d)).
  apply wrap_small. unfold is_uint, lenZ in *. lia.
Qed.

(** The credit that the chunk listener grants: nothing without automatic
    credits. *)
Definition chunk_granted (client : nat) : ST W exn unit :=
  if qc_automatic_credits cfg then qw_credit client q_subscription_id 1 else mret tt.

(** The chunk listener, when there is one, grants credit and nothing else. *)
Lemma chunk_listener_handled {C} self client (base : ClientParameters C) id ctx q :
  get_chunk_listener base = None ->
  let parameters := consumer_parameters self (qc_automatic_credits cfg) base in
  call_listeners parameters (call_consumer client) (when (cfg_chunk_listener (client_config parameters)) [CEvChunk id ctx]) q =
  qcall (chunk_granted client) q.
Proof.
  intros Hb. unfold consumer_parameters, get_chunk_listener, chunk_granted in *.
  destruct (qc_automatic_credits cfg) eqn:Ea; simpl.
  - unfold call_listeners, listener_of, get_chunk_listener, call_consumer, chunk_credit, qcall. simpl.
    rewrite Ea. unfold mbind, ST_bind. destruct (qw_credit _ _ _ _) as [[[]|e] w]; done.
  - unfold get_chunk_listener. simpl. rewrite Hb. by destruct q.
Qed.

(** C11: from the wire to the user, whatever the state of the consumer and the
    codec, under a client that reports a cursor which it cannot store as a
    [StreamException], and with no chunk listener of the user's: when the
    client, not being stopped, gets the bytes of a delivery, it grants the
    credit for the chunk, and then the handler is called for exactly those
    messages of the chunk that were asked for, in order, each with its own
    offset and the chunk's timestamp and committed chunk id, up to the first
    message that the codec cannot decode; after the first of them none is left
    out, and no exception of theirs goes back to the client.  When the credit
    cannot be granted its exception goes back and the handler is not called for
    this chunk. *)
Theorem delivery_handled `{Codec C} self client (base : ClientParameters C) (codec : C) d b c q :
  qc_handler cfg = true -> get_chunk_listener base = None ->
  server_valid (SDeliver d) -> c_status c <> CStopping ->
  ch_offset (Deliver_chunk d) + lenZ (Deliver_messages d) <= 2^64 ->
  holds b (frame_with_key (key_value KeyDeliver) match Deliver_committed_chunk_id d with Some _ => 2 | None => 1 end (SDeliver d)) ->
  match qcall (chunk_granted client) q with
  | (Val _, _) =>
      exists q', consumer_receives self client base codec b c q = (Val tt, q') /\
        q_handled q' = q_handled q ++
          handler_arguments (chunk_context d) (q_initial q)
            (numbered (ch_offset (Deliver_chunk d)) (decoded codec (Deliver_messages d)))
  | (Throw e, q') => consumer_receives self client base codec b c q = (Throw e, q') /\ q_handled q' = q_handled q
  end.
Proof.
  intros Hh Hbase Hv Hs Hl Hb. unfold consumer_receives.
  rewrite (frame_events_notifications _ codec (SDeliver d) KeyDeliver _ b c Hv eq_refl Hs Hb). unfold notifications, call_listeners.
  rewrite st_iter_app. pose proof (chunk_listener_handled self client base (Deliver_subscription_id d) (chunk_context d) q Hbase) as E1.
  destruct (qcall (chunk_granted client) q) as [[u|e] q1] eqn:Eg.
  2: { split; [exact (ST_bind_Throw _ _ _ _ _ E1)|]. unfold qcall in Eg.
       destruct (chunk_granted client (q_world q)) as [r w]. by injection Eg as _ <-. }
  assert (q_handled q1 = q_handled q /\ q_initial q1 = q_initial q) as [Hq1 Hi1].
  { unfold qcall in Eg. destruct (chunk_granted client (q_world q)) as [r w]. by injection Eg as _ <-. }
  rewrite (ST_bind_Val _ _ _ _ _ E1), <- Hq1, <- Hi1.
  assert (0 <= ch_offset (Deliver_chunk d)) as Hpos by (destruct d, Hv as [(_ & _ & Hc & _) _]; apply Hc).
  rewrite message_events_numbered by done.
  destruct (chunk_handled (chunk_context d) (ch_offset (Deliver_chunk d)) (decoded codec (Deliver_messages d)) q1 Hh) as (q' & E & Hq).
  exists q'. split; [|done]. rewrite <- E. unfold consumer_parameters.
  destruct (qc_automatic_credits cfg); simpl; by rewrite st_iter_map.
Qed.

End consumer.

(** ** Concrete frames *)

Definition listening_message : AccumulatedMessage := MkAccumulatedMessage 7 0 (MkMessage [x61] []) [x61] (Some 3%nat).

Definition listening_producer : @PState Mock :=
  set_unconfirmed {[7 := listening_message]}
    (new_Producer (MkProducerConfig "app" "invoices" 10 100 3 30000 0 5000) nice_mock).

(** Of two ids one is unconfirmed. *)
Definition confirm_example : ServerFrame := SPublishConfirm (MkPublishConfirmCommand 0 [7; 9]).

Definition frame_buffer_of (key version : Z) (f : ServerFrame) : BinaryBuffer :=
  append (frame_with_key key version f) empty_buffer.

Definition idle_client : Client := new_Client example_client_config.

Lemma broker_answer_settles_witness :
  exists p', producer_receives (MkProducerConfig "app" "invoices" 10 100 3 30000 0 5000) 0 (default_ClientParameters MkRawCodec)
               MkRawCodec (frame_buffer_of 3 1 confirm_example) idle_client listening_producer = (Val tt, p') /\
    handler_calls p' = [(3%nat, MkConfirmationStatus 7 (MkMessage [x61] []) true 1)] /\ p_unconfirmed p' = ∅.
Proof.
  destruct (broker_answer_settles (MkProducerConfig "app" "invoices" 10 100 3 30000 0 5000) 0
    (default_ClientParameters MkRawCodec) MkRawCodec confirm_example [(7, true, 1); (9, true, 1)] KeyPublishConfirm 1
    (frame_buffer_of 3 1 confirm_example) idle_client listening_producer) as (p' & E & _ & Hc & Hu).
  - repeat split; repeat constructor; vm_compute; congruence.
  - reflexivity.
  - reflexivity.
  - vm_compute. congruence.
  - split; [repeat split; vm_compute; congruence|]. split; [vm_compute; congruence|]. exists []. vm_compute. reflexivity.
  - exists p'. split; [exact E|]. rewrite Hc, Hu. split; [vm_compute; reflexivity|].
    apply map_eq. intros i. vm_compute. reflexivity.
Defined.

Definition listening_config : ConsumerConfig :=
  MkConsumerConfig EmptyString "invoices" (offset_offset 41) None true true 5000.

Lemma mock_stores_safely : stores_safely (W := Mock).
Proof. intros c name stream offset w e w' E. discriminate. Qed.

(** The chunk has the offsets 40 and 41, the second of which was asked for. *)
Lemma delivery_handled_witness :
  exists q', consumer_receives listening_config 0 0 (default_ClientParameters picky_codec) (MkPickyCodec [])
               (frame_buffer_of 8 2 (SDeliver deliver_example)) idle_client (new_Consumer listening_config nice_mock) = (Val tt, q') /\
    map (fun cm => mc_offset cm.1) (q_handled q') = [41].
Proof.
  pose proof (delivery_handled listening_config mock_stores_safely 0 0 (default_ClientParameters picky_codec) (MkPickyCodec [])
    deliver_example (frame_buffer_of 8 2 (SDeliver deliver_example)) idle_client (new_Consumer listening_config nice_mock)) as Hd.
  destruct Hd as (q' & E & Hq).
  - reflexivity.
  - reflexivity.
  - split; [|split; [repeat constructor; vm_compute; congruence | reflexivity]]. repeat split; vm_compute; congruence.
  - vm_compute. congruence.
  - vm_compute. congruence.
  - split; [repeat split; vm_compute; congruence|]. split; [vm_compute; congruence|]. exists []. vm_compute. reflexivity.
  - exists q'. split; [exact E|]. rewrite Hq. vm_compute. reflexivity.
Defined.
