(* ===== verification/ConsumerStack.v ===== *)
(** * The recovery of a consumer over the environment

    The clients and the environment of [EnvironmentStack] keep the promises that
    [ConsumerRecovery] relies on: a client that is lost stays lost, and
    subscribing on it fails.  A run over them shows a loss and the
    recovery from it. *)

From stdpp Require Import functions.
From S2P Require Import Prelude Words OrdMap Types BinaryBuffer ClientCommands ServerCommands ClientFrames ServerFrames Messages Client ClientSending ClientReceiving ClientLifecycle Fluent ClientParameters Tasks Environment EnvironmentSystem Semaphore Accumulator Producer Consumer ConsumerSystem ConsumerRecovery Builders ClientStack EnvironmentStack.

Section losable.
Context {C : Type} (cfg : EConfig C).
Context (generator : nat -> nat) (await_locator : EState (World C) -> EState (World C)).
Context (await : Z -> CM ServerFrame) (await_tune : CM unit) (connect : CM unit).
Context (self : nat) (automatic_credits : bool).

Abbreviation base := (get_base_client_parameters cfg).
#[local] Instance losable_clients : EnvironmentClients C (World C) := client_EnvironmentClients base await await_tune connect.
#[local] Instance losable_losable : LosableClients C (World C) := client_LosableClients base await await_tune connect.
#[local] Instance losable_world : ConsumerWorld (Stack C) :=
  stack_ConsumerWorld cfg generator await_locator await await_tune connect self automatic_credits.

(** Nothing that happens during a wait for the locator brings a client back. *)
Context (await_locator_keeps : forall c e, lost base c (e_world e) -> lost base c (e_world (await_locator e))).

Definition lost_in (c : nat) (s : Stack C) : Prop := lost base c (e_world (st_environment s)).

Definition world_kept (e e' : EState (World C)) : Prop := forall c, lost base c (e_world e) -> lost base c (e_world e').

#[local] Instance world_kept_preorder : PreOrder world_kept.
Proof. split; [by intros e c|]. intros e1 e2 e3 H1 H2 c Hc. auto. Qed.

Lemma world_kept_same {A} (m : ST (EState (World C)) exn A) : preserves same_env m -> preserves world_kept m.
Proof. intros Hm e. apply (Hm e). Qed.

Lemma world_kept_attempts {A} more (operation : nat -> ST (EState (World C)) exn A) :
  (forall c, preserves world_kept (operation c)) -> preserves world_kept (locator_attempts await_locator more operation).
Proof.
  intros Ho. induction more as [|more IH]; simpl.
  all: apply (preserves_bind world_kept);
    [apply (preserves_bind world_kept); [by intros e c|]; intros e;
     apply (preserves_bind world_kept); [|by intros [] e' c] |intros [c|]].
  all: try (apply (preserves_catch world_kept); [apply Ho|]; intros ex; apply (preserves_if world_kept)).
  all: auto with preserves.
  all: apply (preserves_if world_kept); [intros e' c; apply await_locator_keeps | by intros e' c].
Qed.

Lemma world_kept_get_client stream parameters :
  preserves world_kept (get_consumer_client generator await_locator stream parameters).
Proof.
  apply (preserves_bind world_kept); [|intros host; apply world_kept_same, same_env_create].
  apply world_kept_attempts. intros c. apply world_kept_same, (same_env_call generator (LookupConsumer stream)).
Qed.

Lemma lost_on_environment {A} (m : ST (EState (World C)) exn A) :
  preserves world_kept m -> lost_kept lost_in (on_environment m).
Proof.
  intros Hm c s Hc. unfold on_environment. pose proof (Hm (st_environment s) c Hc) as Hk.
  by destruct (m (st_environment s)) as [r e].
Qed.

Lemma lost_stack_client {A} i (m : ClientConfig -> CM A) :
  (forall cc, preserves stays_dead (m cc)) -> lost_kept lost_in (stack_client cfg i m).
Proof.
  intros Hm. apply lost_on_environment. intros e c Hc. unfold ecall.
  pose proof (lost_on_client base c i m (e_world e) (fun cc cl => Hm cc cl) Hc) as Hk.
  by destruct (on_client base i m (e_world e)) as [r w].
Qed.

Lemma dead_subscribe id stream offset n properties c :
  dead c -> exists e c', subscribe await id stream offset n properties c = (Throw e, c') /\ dead c'.
Proof.
  apply (dead_simple await (fun corr => MkSubscribeRequest corr id stream offset n properties)).
  intros corr. exact (keeps_wf_serialize (FSubscribe (MkSubscribeRequest corr id stream offset n properties))).
Qed.

#[export, refine] Instance stack_LosableWorld : LosableWorld (Stack C) := {| qw_lost := lost_in |}.
Proof.
  all: cbn [qw_environment qw_get_consumer_client qw_start qw_stop qw_subscribe qw_store_offset qw_credit losable_world stack_ConsumerWorld].
  - intros c s Hc. unfold get_environment. by destruct (st_alive s).
  - intros stream. apply lost_on_environment, world_kept_get_client.
  - intros i. apply lost_stack_client. intros cc c Hd. by apply dead_start.
  - intros i. apply lost_stack_client. intros cc c Hd. by apply dead_stop.
  - intros i id stream offset n properties. apply lost_stack_client. intros cc c Hd.
    destruct (dead_subscribe id stream offset n properties c Hd) as (e & c' & -> & Hd'). done.
  - intros i reference stream offset. apply lost_stack_client. intros cc. unfold Client.store_offset, check_reference.
    apply (preserves_bind stays_dead); [destruct (_ <? _); by intros c Hd | intros _].
    apply (preserves_bind stays_dead); [apply dead_send | by intros r c Hd].
  - intros i id n. apply lost_stack_client. intros cc.
    apply (preserves_bind stays_dead); [apply dead_send | by intros r c Hd].
  - intros i id stream offset n properties s Hl. unfold stack_client, on_environment, ecall.
    pose proof (fails_on_client base i (fun _ => subscribe await id stream offset n properties) (e_world (st_environment s))
      (fun _ c => dead_subscribe id stream offset n properties c) Hl) as Hf.
    by destruct (on_client base i _ _) as [r w].
Defined.

End losable.

(** ** A loss and its recovery *)

Definition wire_consumer_config : ConsumerConfig := consumer_config 1000 wire_consumer_builder.

#[local] Existing Instance wire_consumer_world.
Definition wire_losable_world : @LosableWorld (Stack RawCodec) wire_consumer_world :=
  stack_LosableWorld wire_config wire_generator id broker_await (mret tt) (mret tt) 0 true (fun _ _ Hl => Hl).
#[local] Existing Instance wire_losable_world.

(** The started consumer and its client. *)
Definition wire_consumer : option (@QState (Stack RawCodec) * nat) :=
  match consumer_start wire_consumer_config (new_Consumer wire_consumer_config wire_stack) with
  | (Val _, q) => c ← q_client q; Some (q, c)
  | (Throw _, _) => None
  end.

Definition wire_consumer_running : bool :=
  match wire_consumer with
  | Some (q, c) =>
      let w := e_world (st_environment (q_world q)) in
      bool_decide (c < w_next w)%nat && bool_decide (c_status (client_at (ev_client_parameters wire_config) c w) = CStarted)
  | None => false
  end.

Lemma wire_consumer_runs : wire_consumer_running = true.
Proof. vm_compute. reflexivity. Qed.

Definition wire_started (q : @QState (Stack RawCodec)) (c : nat) : rsys :=
  settled q (fun _ => new_Task) None None {[c]} [] false.

(** The client is lost, then the listener is called. *)
Definition wire_lost (q : @QState (Stack RawCodec)) (c : nat) : rsys :=
  MkRSys (put_world (lose_client wire_config c (q_world q)) (put_tasks [] q)) (rs_tasks (wire_started q c)) None None
         ({[c]} ∖ {[c]}) [(c, Unknown)] false.
Definition wire_notified (q : @QState (Stack RawCodec)) (c : nat) : rsys :=
  settled (consumer_shutdown true Unknown (rs_q (wire_lost q c))).2 (rs_tasks (wire_lost q c)) None None ({[c]} ∖ {[c]}) [] false.

Lemma shutdown_returns (q : @QState (Stack RawCodec)) :
  consumer_shutdown true Unknown q = (Val tt, put_tasks (q_tasks q ++ [(QReconnectTask, QScheduleNow)]) (put_client None q)).
Proof.
  unfold consumer_shutdown, q_take_client. rewrite bool_decide_false by done. unfold mbind, ST_bind. cbn.
  by destruct (q_client q).
Qed.

Lemma wire_notified_reachable q c : wire_consumer = Some (q, c) -> rreachable wire_consumer_config (wire_notified q c).
Proof.
  intros E. pose proof wire_consumer_runs as Hrun. unfold wire_consumer_running in Hrun. rewrite E in Hrun.
  apply andb_prop in Hrun as [H1%bool_decide_eq_true H2%bool_decide_eq_true].
  exists wire_stack, (wire_started q c). split.
  - unfold wire_consumer in E. destruct (consumer_start _ _) as [[[]|ex] q0] eqn:Es; [|discriminate].
    destruct (q_client q0) as [c0|] eqn:Ec; [|discriminate]. injection E as -> ->. exists q, c. by split; [|split].
  - apply (rtc_l _ _ (wire_lost q c)).
    + apply (RLost wire_consumer_config c Unknown (lose_client wire_config c (q_world q)) (put_tasks [] q)
               (rs_tasks (wire_started q c)) None None {[c]} [] false).
      * by apply elem_of_singleton.
      * intros d Hd. exact (lose_keeps wire_config c d Unknown _ Hd).
      * exact (lose_lost wire_config c Unknown _ H1 H2).
      * discriminate.
    + apply rtc_once.
      pose proof (RNotify wire_consumer_config c Unknown true [] [] (rs_q (wire_lost q c)) (rs_tasks (wire_lost q c)) None None
        ({[c]} ∖ {[c]}) (or_introl eq_refl)) as Hs.
      unfold wire_notified. rewrite shutdown_returns in *. exact Hs.
Qed.

Lemma wire_not_deleted q c : wire_consumer = Some (q, c) -> ~ armed (rs_tasks (wire_notified q c) QStreamDeletedTask).
Proof.
  intros E. assert (q_tasks q = []) as Et.
  { assert (fmap (M := option) (fun qc : QState * nat => q_tasks qc.1) wire_consumer = Some []) as Hw by (vm_compute; reflexivity).
    rewrite E in Hw. by injection Hw. }
  unfold wire_notified. rewrite shutdown_returns. unfold wire_lost, wire_started. simpl. rewrite Et. simpl. unfold armed. simpl.
  intros [Ha|[[d Ha]|[Ha|Ha]]]; [by apply elem_of_nil in Ha.. | lia | lia].
Qed.

(** [consumer_never_stranded] after the loss of the first client. *)
Lemma consumer_never_stranded_witness :
  exists q c, wire_consumer = Some (q, c) /\ q_client (rs_q (wire_notified q c)) = None /\
    under_recovery (wire_notified q c) /\
    exists s', rtc (rstep wire_consumer_config) (wire_notified q c) s' /\ rs_reconnect s' = Some RcGet.
Proof.
  destruct wire_consumer as [[q c]|] eqn:E; [|pose proof wire_consumer_runs as Hr; unfold wire_consumer_running in Hr; rewrite E in Hr; discriminate].
  destruct (consumer_never_stranded wire_consumer_config (wire_notified q c) (wire_notified_reachable q c E)) as [Hlive _].
  destruct (Hlive eq_refl) as (H1 & _ & H3).
  assert (q_client (rs_q (wire_notified q c)) = None) as Hn.
  { unfold wire_notified. by rewrite shutdown_returns. }
  assert (armed (rs_tasks (wire_notified q c) QReconnectTask)) as Ha.
  { destruct (H1 Hn) as [Ha|[Ha|[Ha|Ha]]]; [exact Ha | | destruct (Ha eq_refl) | destruct (Ha eq_refl)].
    exfalso. revert Ha. apply wire_not_deleted. exact E. }
  destruct (H3 Hn Ha eq_refl) as (s' & Hr & _ & Hrc).
  exists q, c. split; [reflexivity|]. split; [exact Hn|]. split; [exact (H1 Hn)|]. exists s'. split; [exact Hr | exact Hrc].
Defined.
