(* ===== verification/ProducerStranded.v ===== *)
(** * Producers left with a lost client

    Two runs of a producer over the environment and the clients: its client is
    lost while [reconnect_to_server] is about to install it, or before [start]
    has set the status.  In both the shutdown listener runs too early to be of
    use.  Only a [delayed_reconnect] that a metadata update has scheduled before,
    a notification of another client or a stop replaces the lost client. *)

From S2P Require Import Prelude Words OrdMap Types BinaryBuffer ClientCommands ServerCommands ClientFrames ServerFrames Messages Client ClientSending ClientReceiving ClientLifecycle Fluent ClientParameters Tasks Environment EnvironmentSystem Semaphore Accumulator Producer ProducerSystem Consumer Builders ClientStack EnvironmentStack.

Section stranded.
Context {C : Type} (ecfg : EConfig C) (await_locator : EState (World C) -> EState (World C)) (generator : nat -> nat).
Context (await : Z -> CM ServerFrame) (await_tune : CM unit) (connect : CM unit).
Context (self : nat) (cfg : ProducerConfig) {CC : Type} `{Codec CC} (codec : CC).

#[local] Instance stranded_world : ClientWorld (Stack C) :=
  stack_ClientWorld ecfg await_locator await await_tune connect self.

Abbreviation PS := (@PState (Stack C)).
Abbreviation base := (get_base_client_parameters ecfg).

Definition client_lost (c : nat) (p : PS) : Prop := lost base c (e_world (st_environment (p_world p))).

(** A started producer whose client is lost. *)
Definition stranded (c : nat) (p : PS) : Prop := p_status p = Started /\ p_client p = Some c /\ client_lost c p.

(** Everything that a producer does but [start], [stop], [delayed_reconnect] and
    the shutdown listener: the calls of the application, the tasks, the other
    listeners. *)
Inductive own_step : PS -> PS -> Prop :=
| own_send now expired pc pc' p p' : send_step cfg codec now expired pc p = Some (pc', p') -> own_step p p'
| own_next_id p : own_step p (next_publishing_id p).2
| own_publish p : own_step p (publish_batch cfg p).2
| own_timeout now p : own_step p (check_confirm_timeout cfg now p).2
| own_confirm id p : own_step p (handle_publish_confirm id p).2
| own_error id code p : own_step p (handle_publish_error id code p).2
| own_metadata stream p : own_step p (handle_metadata_update cfg stream p).2
| own_deliver i p p' : deliver i p = Some p' -> own_step p p'
| own_retire i p p' : retire i p = Some p' -> own_step p p'
| own_reconnect p : own_step p (reconnect_to_server cfg p).2.

Definition stays (p p' : PS) : Prop := forall c, stranded c p -> stranded c p'.

#[local] Instance stays_preorder : PreOrder stays.
Proof. split; [by intros p c|]. intros p1 p2 p3 H1 H2 c Hc. auto. Qed.

Lemma publish_keeps_dead id messages : preserves stays_dead (publish_encoded id messages).
Proof.
  unfold publish_encoded. generalize (@nil PublishMessage) as batch, BASE_SERIALIZED_SIZE as size.
  induction messages as [|m messages IH]; intros batch size; simpl.
  - destruct (bool_decide _); [by intros c|]. apply (preserves_bind stays_dead); [apply dead_send | by intros ? c].
  - apply (preserves_get stays_dead). intros c. destruct (_ && _); [|apply IH].
    revert c. apply (preserves_bind stays_dead); [apply dead_send | intros _; apply IH].
Qed.

Lemma stays_publish c id messages : preserves stays (onW (cw_publish_encoded c id messages)).
Proof.
  intros p d (Hs & Hc & Hl). unfold onW. cbn [cw_publish_encoded stranded_world stack_ClientWorld].
  unfold stack_client, on_environment, ecall.
  pose proof (lost_on_client base d c (fun _ => publish_encoded id messages) (e_world (st_environment (p_world p)))
    (fun _ cl => publish_keeps_dead id messages cl) Hl) as Hk.
  destruct (on_client base c _ _) as [r w]. by split.
Qed.

Lemma stays_modify f :
  (forall p, p_status (f p) = p_status p /\ p_client (f p) = p_client p /\ p_world (f p) = p_world p) ->
  preserves stays (st_modify f : ST PS exn unit).
Proof.
  intros Hf p c (Hs & Hc & Hl). destruct (Hf p) as (E1 & E2 & E3). unfold stranded, client_lost.
  simpl. rewrite E1, E2, E3. by split.
Qed.

Lemma stays_emplace m : preserves stays (emplace_unconfirmed m : ST PS exn unit).
Proof. apply stays_modify. intros p. by destruct (p_unconfirmed p !! _). Qed.

Lemma stays_catch {A} (m : ST PS exn A) h :
  preserves stays m -> (forall e, preserves stays (h e)) -> preserves stays (catch_stream m h).
Proof.
  intros Hm Hh. apply (preserves_catch stays); [done|]. intros e.
  destruct (is_StreamException e); [apply Hh | apply (preserves_throw stays)].
Qed.

#[local] Hint Resolve stays_publish stays_emplace : preserves.
#[local] Hint Extern 1 (preserves stays (st_modify _)) => now apply stays_modify : preserves.
#[local] Hint Extern 1 (preserves stays (catch_stream _ _)) => apply stays_catch; [|intros ?] : preserves.
#[local] Hint Extern 1 (preserves stays (task_call _ _)) => now apply stays_modify : preserves.

Lemma stays_publish_batch : preserves stays (publish_batch cfg : ST PS exn unit).
Proof.
  apply (preserves_get stays). intros p. destruct (negb _); [done|].
  destruct (extract_all _) as [messages accumulator].
  match goal with |- stays ?s (?m ?s).2 => enough (preserves stays m) as Hm by exact (Hm s) end.
  auto 20 with preserves.
Qed.

Lemma stays_check_timeout now : preserves stays (check_confirm_timeout cfg now : ST PS exn unit).
Proof.
  apply (preserves_bind stays); [by intros p c Hc|]. intros n.
  apply (preserves_bind stays); [|intros []; unfold deliver_from, reschedule_confirm_timeout; auto 10 with preserves].
  intros p c Hc. exact Hc.
Qed.

(** The client is not null, so that there is nothing to do. *)
Lemma reconnect_stranded c p : stranded c p -> reconnect_to_server cfg p = (Val tt, p).
Proof.
  intros (Hs & Hc & _). unfold reconnect_to_server.
  rewrite (ST_bind_Val reconnect_needed _ p false p); [done|].
  unfold reconnect_needed, mbind, ST_bind. cbn [st_get]. now rewrite Hs, Hc.
Qed.

Lemma stays_send_step now expired pc pc' p p' :
  send_step cfg codec now expired pc p = Some (pc', p') -> stays p p'.
Proof.
  destruct pc as [id msg handler|id msg handler|m| |r]; cbn [send_step]; intros E.
  - unfold send_acquire in E. destruct (_ =? 0).
    + destruct (acquire _) as [[r s]|]; [|discriminate]. now injection E as _ <-.
    + destruct (try_acquire_for _ _) as [[r s]|]; [|discriminate]. now injection E as _ <-.
  - unfold send_prepare, mbind, ST_bind in E. cbn [st_get] in E. destruct (add_prepare _ _ _ _ _ _); now injection E as _ <-.
  - unfold send_commit in E. destruct (add_commit _ _) as [[[full|e] a]|]; [| |discriminate]; now injection E as _ <-.
  - destruct (publish_batch cfg p) as [r p1] eqn:Ep. injection E as _ <-.
    pose proof (stays_publish_batch p) as Hp. now rewrite Ep in Hp.
  - discriminate.
Qed.

Lemma stays_own_step p p' : own_step p p' -> stays p p'.
Proof.
  intros Hstep. destruct Hstep as [now expired pc pc' p p' E|p|p|now p|id p|id code p|stream p|i p p' E|i p p' E|p].
  - eapply stays_send_step, E.
  - intros c Hc. exact Hc.
  - apply stays_publish_batch.
  - apply stays_check_timeout.
  - intros c Hc. unfold handle_publish_confirm, take_unconfirmed, mbind, ST_bind. simpl. by destruct (p_unconfirmed p !! id).
  - intros c Hc. unfold handle_publish_error, take_unconfirmed. simpl. by destruct (p_unconfirmed p !! id).
  - intros c Hc. unfold handle_metadata_update. by destruct (bool_decide _).
  - unfold deliver in E. destruct (p_delivering p !! i) as [[m s]|]; [|discriminate]. now injection E as <-.
  - unfold retire in E. destruct (p_retired p !! i); [|discriminate]. now injection E as <-.
  - intros c Hc. now rewrite (reconnect_stranded c p Hc).
Qed.

Lemma stranded_forever c p p' : stranded c p -> rtc own_step p p' -> stranded c p'.
Proof. intros Hc Hr. induction Hr as [|p1 p2 p3 Hs _ IH]; [done|]. apply IH. exact (stays_own_step _ _ Hs _ Hc). Qed.

(** The critical sections of the runs below; [ActWorld]: what happens to the clients. *)
Inductive paction :=
| ActStartBegin
| ActStartConnect
| ActStartFinish
| ActShutdown (reason : ShutdownReason)
| ActGetClient
| ActReconnectConnect (c : nat)
| ActReconnectResend (c : nat)
| ActWorld (w : Stack C -> Stack C).

Definition prun (a : paction) (p : PS) : PS :=
  match a with
  | ActStartBegin => (start_begin p).2
  | ActStartConnect => (start_connect cfg p).2
  | ActStartFinish => (start_finish p).2
  | ActShutdown reason => (handle_shutdown true reason p).2
  | ActGetClient => (get_client cfg p).2
  | ActReconnectConnect c => (reconnect_connect cfg c p).2
  | ActReconnectResend c => (reconnect_resend cfg c p).2
  | ActWorld w => set_world (w (p_world p)) p
  end.

Definition pscript (actions : list paction) (p : PS) : PS := fold_left (fun p a => prun a p) actions p.

Lemma pscript_steps actions p :
  rtc (pstep cfg codec) (MkPsys p [] [] false) (MkPsys (pscript actions p) [] [] false).
Proof.
  revert p. induction actions as [|a actions IH]; intros p; [apply rtc_refl|].
  eapply rtc_l; [|apply IH]. apply step_other. destruct a; by constructor.
Qed.

End stranded.

(** ** The two runs *)

Definition stranded_config : ProducerConfig :=
  producer_config 1000 (MkProducerBuilder "" "orders" 100 0 10000 30000 10000).

Definition stranded_initial : option (@PState (Stack RawCodec)) :=
  e ← wire_environment; Some (new_Producer stranded_config (MkStack e true)).

Definition wire_pscript : list (paction (C := RawCodec)) -> @PState (Stack RawCodec) -> @PState (Stack RawCodec) :=
  pscript wire_config id broker_await (mret tt) (mret tt) 0 stranded_config.

(** Client 1 is lost; client 2 is lost between [declare_publisher] and the
    resend. *)
Definition lost_in_reconnect : list paction :=
  [ActStartBegin; ActStartConnect; ActStartFinish;
   ActWorld (lose_client wire_config 1); ActShutdown Unknown;
   ActGetClient; ActReconnectConnect 2;
   ActWorld (lose_client wire_config 2); ActShutdown Unknown;
   ActReconnectResend 2].

(** Client 1 is lost before [start] sets the status. *)
Definition lost_in_start : list paction :=
  [ActStartBegin; ActStartConnect; ActWorld (lose_client wire_config 1); ActShutdown Unknown; ActStartFinish].

Lemma stranded_by_runs p0 :
  stranded_initial = Some p0 ->
  stranded wire_config 2 (wire_pscript lost_in_reconnect p0) /\ stranded wire_config 1 (wire_pscript lost_in_start p0).
Proof.
  intros E. vm_compute in E. injection E as <-.
  split; (split; [vm_compute; reflexivity|]); (split; [vm_compute; reflexivity|]);
    (split; [vm_compute; lia|]); (split; [vm_compute; reflexivity|]);
    (split; [vm_compute; reflexivity|]); exists "Connection reset"%string; vm_compute; reflexivity.
Qed.

(** C39: a producer whose client is lost while [reconnect_to_server] is about to install
    it, or before [start] has set the status to started, is left with the lost
    client: both runs are runs of the producer.  And from any state with a lost
    client, whatever the configuration and the broker, it stays so, and
    [reconnect_to_server] finds nothing to do, through every send, publication,
    time-out check, confirmation, metadata update and reconnection: everything
    but a [delayed_reconnect], a shutdown notification and a stop. *)
Theorem producer_left_stranded :
  (exists p0, stranded_initial = Some p0 /\
    forall script c, (script, c) ∈ [(lost_in_reconnect, 2%nat); (lost_in_start, 1%nat)] ->
      reachable (H := wire_world) stranded_config MkRawCodec (p_world p0) (MkPsys (wire_pscript script p0) [] [] false) /\
      stranded wire_config c (wire_pscript script p0)) /\
  (forall C (ecfg : EConfig C) await_locator await await_tune connect self cfg CC (HC : Codec CC) (codec : CC) c p p',
     stranded ecfg c p -> rtc (own_step ecfg await_locator await await_tune connect self cfg codec) p p' ->
     stranded ecfg c p' /\
     reconnect_to_server (H := stack_ClientWorld ecfg await_locator await await_tune connect self) cfg p' = (Val tt, p')).
Proof.
  split.
  - destruct stranded_initial as [p0|] eqn:E; [|vm_compute in E; discriminate]. exists p0. split; [done|].
    pose proof (stranded_by_runs p0 E) as [H1 H2]. intros script c Hin. split.
    + unfold reachable, initial. replace (new_Producer stranded_config (p_world p0)) with p0; [apply pscript_steps|].
      unfold stranded_initial in E. destruct wire_environment as [e|]; [|discriminate]. now injection E as <-.
    + apply elem_of_cons in Hin as [[= -> ->]|[[= -> ->]|[]%elem_of_nil]%elem_of_cons]; done.
  - intros C ecfg await_locator await await_tune connect self cfg CC HC codec c p p' Hs Hr.
    assert (stranded ecfg c p') as Hp by exact (stranded_forever _ _ _ _ _ _ _ _ c p p' Hs Hr).
    split; [exact Hp | exact (reconnect_stranded _ _ _ _ _ _ _ c p' Hp)].
Qed.
